(* ===== verification/_CoqProject ===== *)
-Q . S2P
Prelude.v
Capabilities.v
Storage.v
ContentStore.v
CausalLog.v
Integrity.v
Durability.v
InferQueue.v
IoQueue.v
Clock.v
CauseHandles.v
Actor.v
ActorSafety.v
ActorSpec.v
AgentSteps.v
RunLoop.v
RunLoopSafety.v
RunLoopSpec.v
Scheduler.v
SchedulerSpec.v
Fleet.v
FleetSpec.v
Reconstruct.v
ReconstructSpec.v
Windows.v
Sel4Block.v
Sel4Ring.v
Sel4Stores.v
Sel4Crash.v
Sel4Kernel.v
Sel4Jit.v
Sel4Alloc.v
Sel4Loader.v
RedbGroup.v
RedbBitmap.v
RedbBlocks.v
RedbBuddy.v
RedbLayout.v
RedbHeader.v
RedbLeaf.v
RedbRegions.v
