(* ===== verification/Prelude.v ===== *)
(** * Torpor: a verification of the agent runtime

    The repository holds a runtime for persistent agents.  An agent is a
    WebAssembly module; every step it takes is a snapshot in a content-addressed
    store and an entry in an append-only causal log; its rights are capabilities;
    it can be rolled back, suspended, evicted and woken.  The crates under
    [src/poc/]: [capabilities], [store], [causal-log], and [runtime], which puts
    them together (actors, scheduler, admission queues, fleets, audit tools).
    [sel4-hello] is its port to the seL4 kernel: an agent is a process, its log is
    in the process of a store server, and the kernel's capabilities stand between.
    The store server keeps its tables in [redb-fork], a copy of the redb database
    changed to run there, whose management of pages and whose leaves are modelled too.

    ** Files and what they model

    - [Prelude]: results, record update, the state monad [SM S A := S -> option
      (A * S)] with its weakest preconditions [wp], machine integers as [Z] with
      explicit wrap-around, bytes, big- and little-endian codecs, byte order.
    - [Capabilities] (Caps): [capabilities/src/lib.rs], the store of capabilities
      and its derivation tree.
    - [Storage]: the interfaces of third-party code: [RocksDB] (column families,
      atomic batches, scans that may fail) with its documented laws, [Sha256],
      [Bincode], [Msgpack]; and an in-memory instance, used by witnesses only.
    - [ContentStore] (Store): [store/src/lib.rs], blocks and snapshots, the chain
      of parents, [rollback_path], the iterators of a collector.
    - [CausalLog] (Log): [causal-log/src/lib.rs], entries, the two column
      families, queries by agent and time.
    - [Integrity] (Audit), [Durability] (Icsr): [runtime/src/integrity.rs] and
      [durability.rs], the audit of the log and the crash-consistency verifiers.
    - [InferQueue] (Queue, Pool), [IoQueue] (IoState, IoPool): the two bounded
      admission queues and their dispatchers, [inference/queue.rs],
      [inference/mod.rs], [io_queue.rs]; concurrency as interleaved steps.
    - [Clock] (Clocks, Watchdog), [CauseHandles] (Handles): [clock.rs],
      [watchdog.rs] and the citation handles of [actor.rs], shared between
      tenants through a heap of stores.
    - [Actor]: the state of an agent and every host function of [actor.rs].  A
      host function is a computation on a [Caller]: the shared [World] (both
      databases, capability stores, handle stores, key-value stores, clocks), the
      agent's state and its memory.  [host_fn] is the dispatch of all of them.
    - [ActorSafety], [ActorSpec], [AgentSteps]: their invariant, their behaviour,
      and an abstract machine of the agent's state that they all follow.
    - [RunLoop] (Loop): [process_one], the messages and [run_loop], the builder,
      the constructors, eviction and restoration.  [RunLoopSafety] and
      [RunLoopSpec] prove it.
    - [Scheduler] (Sched): [scheduler.rs], the registry (mechanism), the
      supervisor (policy) and the scheduler.  [SchedulerSpec] proves it.
    - [Fleet], [FleetSpec]: [fleet/mod.rs], the driver of a fleet and its routers.
    - [Reconstruct] (Recon), [ReconstructSpec]: [reconstruct/src/main.rs], the tool
      that prints the log of an agent and reconciles the journal of compensation.
    - [Windows]: ranges of lists of bytes, for disks and pages.
    - The port, under [sel4-hello/]: [Sel4Block] (Block), the storage backend of
      [c8-store/server] on a disk of sectors; [Sel4Ring] (Ring), the records of a
      commit in a shared page and the two stores, [c8-store] and [c7-crash];
      [Sel4Stores] (Stores), their common interface [CommitStore]; [Sel4Crash]
      (Crash), two agents, the server and the four kill points, interleaved;
      [Sel4Kernel], the interface of the kernel; [Sel4Jit] (Jit), the memory of
      compiled code, [c10-crash/runtime/src/platform.rs]; [Sel4Alloc] (Alloc) and
      [Sel4Loader] (Loader), [sel4-common]: the objects of the root task and the
      address spaces of its children, with the modules of [c11-prov].
    - The database, under [redb-fork/src/tree_store/page_store/]: [RedbGroup]
      (Grouped) and [RedbBitmap] (Bitmap), [bitmap.rs], a bitmap and the tree of
      bitmaps above it; [RedbBlocks], blocks of [2^o] pages; [RedbBuddy] (Buddy),
      [buddy_allocator.rs], the pages of a region; [RedbLayout] (Layout),
      [layout.rs] and [base.rs], where regions and pages lie in the file;
      [RedbHeader] (Header), [header.rs] and the steps of [page_manager.rs] that
      open the file and write its header; [RedbLeaf] (Leaf), the leaves of a tree in
      [btree_base.rs]; [RedbRegions] (Regions), [region.rs] and the allocation of
      pages and the commit by [page_manager.rs].

    ** How the parts interact

    The databases have one owner in the model, the [World]; agents, the scheduler
    and fleets act on it in turn.  A module is a [Guest]: a tree of host calls
    that ends with a result or a trap, so a theorem about [process_one] holds for
    every module.  What other parties do while an agent waits is an event of its
    inbox ([Elsewhere]) or the state change of a computation that waits, under
    the rule that they keep the invariant of the world.  Tasks, channels and join
    handles are the interface [TaskRuntime] of [Scheduler]; the routers of
    fleets are the class [Router].  On seL4 the disk ([BlockDevice]), the database
    ([Redb]) and the kernel ([Kernel], with [KernelLaws]) are classes of
    operations with their documented effect, and the server is known to the
    agents through [CommitStore], whose laws both stores satisfy.  In the database
    the memory manager uses an allocator of blocks per region, and the allocator a
    bitmap per order; each is used through its specification alone (a set of ids,
    a set of free pages).  The hash of headers and leaves is the class [Checksum];
    the builders of leaves get their pages through the class [PageMemory], of which
    the memory manager is an instance, and compare keys through the class [Key].  The
    answer [None] of a computation is a panic or a wait that never ends; that a
    computation returns is a theorem of its own where it matters.

    ** What the theorems show

    - Invariants: the derivation tree of capabilities; content addressing of the
      store; the log as a causally ordered list whose state hashes are stored
      snapshots, kept by every host function and, as long as the environment of an
      agent keeps it too, by its whole life;
      the slots of both dispatchers; the isolation of tenants in the registry.
    - Refinement: appends and queries against a list of entries; the fan-in and
      quorum routers against an abstract collector.
    - Functional behaviour with every error branch: the transaction of a commit
      and its emission, citations, self-rollback, the supervisor's rollback, the
      gate in front of the key-value store, revocations, spawning, delivery,
      polling, the audit tools, the reconciliation of the journal of compensation.
    - Safety of policies: authority over supervision, the order of the journal of
      compensation, final termination, the ways out of the loop, the confinement
      of a fleet to its tenant and to the causes it has accepted.
    - Termination and round trips: the walk of [rollback_path] and the rollbacks
      that use it; a stored snapshot read back; eviction and restoration;
      the wire format of directives; the payloads the runtime writes against the
      summary the reconstruction tool makes of them, and when that tool panics.
    - Bounds: the events of refusals, the members of a fleet; integers keep their
      width everywhere.
    - The port: block storage is equivalent to an array of bytes, and to the file
      of the database's contract where growths find zeros and reads stay below the
      length; a commit changes the journal of the badge the kernel names and no
      other; over all interleavings and kill points a journal ends as the crash
      protocol says; no page of the code pool is writable and executable
      in any state of the kernel, from a pool of fresh frames on; regions of code do
      not meet; a new address space
      holds the image with the rights of its segments and nothing else; a module
      is read back as it was provisioned; the frames of a device are where it is.
    - The database: the tree of bitmaps is equivalent to a set of ids, the allocator
      of a region refines a set of free pages, and the memory manager one set over
      the whole file as it grows and shrinks; pages of the file lie apart; the
      length of a file determines its layout; a header is read back, and what is
      read is what its bytes hold; a commit that is interrupted leaves the
      transaction before it or the new one, unless it changes the layout, which no
      checksum covers: then a torn header can make the opening a panic; a leaf is a
      list of pairs under building, reading, searching and changing in place.
    - Liveness: two ways in which the dispatchers lose a wake-up or a slot.

    ** Bounds and fuel

    The work list of [Caps.revoke] has one unit of fuel per edge of the tree, and
    two more, which is proved to be enough.  [Store.rollback_path] is proved to
    end on every store whose links were written by [put_snapshot], with one unit of
    fuel per sequence number between the tip and the target.  [trim] strips at least a byte per step.
    [Fleet.run] polls until a clock allows it to stop: its fuel is a number of
    turns, and the theorems hold for every number.  The change of protection
    visits a page per unit, 129 for a pool of 128 pages; the trimming of a device's
    memory doubles its position, 64 units for 64 bits; the mapping of a frame takes
    a slot per attempt, and has as many units as there are slots.  The message loop is
    structural on the sequence of events.  A bitmap of up to [2^32] ids has six
    levels; the loops of the allocator over orders have a unit per order and one to
    stop, those that fill a region a unit per block, and the search of a region a
    unit per region, since a region that fails is marked; the search of a leaf has
    one unit per pair and one to stop, and halves the range at each.

    ** Not modelled

    The remaining helpers of the storage crates (population, compaction), the
    pipeline, refinement and dispatch routers beyond what [Fleet] has, and the
    readers of the log that only print.  [crash_point.rs] kills the process; the
    programs of [runtime/src/bin] and the benchmarks are wiring, output and
    measurements; [agent-sdk] wraps foreign calls; the supervisors and smoke tests
    of the port and the laboratory scripts spawn the parts, wait and print.  Of
    [redb-fork], the pages of branches and the operations of trees on more than one
    page, the guards that hold a page while its data is in use, the transactions,
    the typed tables, the caches and the hash are left out.  The server of [c7-crash] answers the oracle under another badge than
    that of [c8-store], which the model uses for both.  Messages on the error
    stream are left out everywhere. *)
From stdpp Require Export base tactics list gmap fin_maps fin_sets strings numbers option sorting.
From Stdlib Require Export ZArith Lia.
From Stdlib Require Strings.Byte.

(** * Results: Rust's [Result<A, E>] *)

Inductive result (E A : Type) : Type :=
| Ok (a : A)
| Err (e : E).
Arguments Ok {E A} _.
Arguments Err {E A} _.

#[global] Instance result_ret E : MRet (result E) := λ A a, Ok a.
#[global] Instance result_bind E : MBind (result E) := λ A B f r,
  match r with Ok a => f a | Err e => Err e end.
#[global] Instance result_fmap E : FMap (result E) := λ A B f r,
  match r with Ok a => Ok (f a) | Err e => Err e end.
#[global] Instance result_eq_dec E A `{!EqDecision E, !EqDecision A} :
  EqDecision (result E A).
Proof. solve_decision. Defined.

Definition map_err {E F A} (f : E → F) (r : result E A) : result F A :=
  match r with Ok a => Ok a | Err e => Err (f e) end.
Definition ok_or {E A} (e : E) (o : option A) : result E A :=
  match o with Some a => Ok a | None => Err e end.
Definition is_ok {E A} (r : result E A) : bool :=
  match r with Ok _ => true | Err _ => false end.
Definition result_ok {E A} (r : result E A) : option A :=
  match r with Ok a => Some a | Err _ => None end.

Lemma result_bind_Ok {E A B} (r : result E A) (f : A → result E B) b :
  r ≫= f = Ok b ↔ ∃ a, r = Ok a ∧ f a = Ok b.
Proof.
  destruct r; cbn; split; [eauto | | discriminate |]; intros (? & ? & ?); congruence.
Qed.

(** * Record update, in the style of [r <| field := v |>]

    A record gives its eta expansion once; the setter of each projection is
    then derived by instance search. *)

Class Settable (R : Type) := eta : R → R.
Class Setter {R T : Type} (proj : R → T) := upd : (T → T) → R → R.
#[global] Arguments upd {R T} proj {_} _ _ /.
#[global] Arguments eta {R} {_} _ /.

Ltac derive_setter :=
  lazymatch goal with
  | |- @Setter ?R ?T ?p =>
      let f := fresh "f" in let r := fresh "r" in
      intros f r;
      let e := constr:(@eta R _ r) in
      let e := eval hnf in e in
      let h := eval pattern (p r) in e in
      lazymatch h with ?F _ => exact (F (f (p r))) end
  end.
#[global] Hint Extern 1 (Setter _) => derive_setter : typeclass_instances.

Declare Scope record_scope.
Open Scope record_scope.
Notation "r <| p ::= f |>" := (upd p f r)
  (at level 12, left associativity, p at next level,
   format "r  <| p  ::=  f |>") : record_scope.
Notation "r <| p := v |>" := (upd p (λ _, v) r)
  (at level 12, left associativity, p at next level,
   format "r  <| p  :=  v |>") : record_scope.

(** * State passing

    A computation that updates a state and may not return: [None] is
    divergence.  [wp m Q s] says that if [m] returns from [s], its result and
    final state satisfy [Q]; that it returns is stated apart, where it can fail
    to. *)

Definition SM (S A : Type) : Type := S → option (A * S).
#[global] Instance SM_ret S : MRet (SM S) := λ A a s, Some (a, s).
#[global] Instance SM_bind S : MBind (SM S) := λ A B f m s,
  match m s with Some (a, s) => f a s | None => None end.
Definition gets {S A} (f : S → A) : SM S A := λ s, Some (f s, s).
Definition modify {S} (f : S → S) : SM S () := λ s, Some ((), f s).
(** [if c { m }] *)
Definition when {S} (c : bool) (m : SM S ()) : SM S () := if c then m else mret ().

Definition wp {S A} (m : SM S A) (Q : A → S → Prop) (s : S) : Prop :=
  ∀ a s', m s = Some (a, s') → Q a s'.

Lemma wp_ret {S A} (a : A) (Q : A → S → Prop) s : Q a s → wp (mret a) Q s.
Proof. intros HQ a' s' [= <- <-]. done. Qed.
Lemma wp_bind {S A B} (m : SM S A) (f : A → SM S B) (Q : B → S → Prop) s :
  wp m (λ a s, wp (f a) Q s) s → wp (m ≫= f) Q s.
Proof.
  intros Hm b s'. unfold mbind, SM_bind. destruct (m s) as [[a s1]|] eqn:E; [|done].
  intros Hf. by apply (Hm a s1 E).
Qed.
Lemma wp_gets {S A} (f : S → A) (Q : A → S → Prop) s : Q (f s) s → wp (gets f) Q s.
Proof. intros HQ a' s' [= <- <-]. done. Qed.
Lemma wp_modify {S} (f : S → S) (Q : () → S → Prop) s : Q () (f s) → wp (modify f) Q s.
Proof. intros HQ a' s' [= <- <-]. done. Qed.
Lemma wp_when {S} (c : bool) (m : SM S ()) (Q : () → S → Prop) s :
  (c = true → wp m Q s) → (c = false → Q () s) → wp (when c m) Q s.
Proof. destruct c; cbn; intros H1 H2; [by apply H1|by apply wp_ret, H2]. Qed.
Lemma wp_mono {S A} (m : SM S A) (P Q : A → S → Prop) s :
  wp m P s → (∀ a s', P a s' → Q a s') → wp m Q s.
Proof. intros Hm HPQ a s' E. by apply HPQ, Hm. Qed.

(** The rules of the state monad, applied as far as they go. *)
Create HintDb wp.
#[export] Hint Resolve wp_ret wp_gets wp_modify : wp.
Ltac wp_step :=
  lazymatch goal with
  | |- wp (_ ≫= _) _ _ => apply wp_bind
  | |- wp (mret _) _ _ => apply wp_ret
  | |- wp (gets _) _ _ => apply wp_gets
  | |- wp (modify _) _ _ => apply wp_modify
  | |- wp (when _ _) _ _ => apply wp_when; intros
  end; cbn beta.

(** * Machine integers

    A [u8], [u16], [u32] or [u64] is a [Z]; arithmetic that can leave the width
    is written with its wrap-around (the arithmetic of a release build). *)

Definition wrap (w : Z) (z : Z) : Z := z `mod` 2 ^ w.
Abbreviation u8 := (wrap 8).
Abbreviation u16 := (wrap 16).
Abbreviation u32 := (wrap 32).
Abbreviation u64 := (wrap 64).

Definition in_width (w z : Z) : Prop := (0 ≤ z < 2 ^ w)%Z.
Abbreviation is_u64 := (in_width 64).

(** [a.saturating_sub(b)] on an unsigned type. *)
Definition saturating_sub (a b : Z) : Z := Z.max 0 (a - b).

Lemma wrap_small w z : in_width w z → wrap w z = z.
Proof. intros. by apply Z.mod_small. Qed.
Lemma wrap_in_width w z : (0 ≤ w)%Z → in_width w (wrap w z).
Proof. intros. apply Z.mod_pos_bound. by apply Z.pow_pos_nonneg. Qed.
Lemma u64_succ z : (0 ≤ z < 2 ^ 64 - 1)%Z → u64 (z + 1) = (z + 1)%Z.
Proof. intros. apply wrap_small. unfold in_width. lia. Qed.

(** * Bytes *)

Abbreviation byte := Byte.byte.
Abbreviation bytes := (list byte).

#[global] Instance byte_eq_dec : EqDecision byte := Byte.byte_eq_dec.
#[global] Instance byte_countable : Countable byte :=
  inj_countable Byte.to_N Byte.of_N Byte.of_to_N.

(** The value of a byte, and [z as u8]. *)
Definition b2z (b : byte) : Z := Z.of_N (Byte.to_N b).
Definition z2b (z : Z) : byte := default Byte.x00 (Byte.of_N (Z.to_N (z `mod` 256))).

Lemma b2z_range b : (0 ≤ b2z b < 256)%Z.
Proof. unfold b2z. pose proof (Byte.to_N_bounded b). lia. Qed.
Lemma z2b_b2z b : z2b (b2z b) = b.
Proof.
  unfold z2b. rewrite Z.mod_small by apply b2z_range.
  unfold b2z. rewrite N2Z.id, Byte.of_to_N. done.
Qed.
Lemma b2z_z2b z : b2z (z2b z) = (z `mod` 256)%Z.
Proof.
  unfold z2b. pose proof (Z.mod_pos_bound z 256 ltac:(lia)).
  destruct (Byte.of_N _) as [b|] eqn:E; cbn.
  - apply Byte.to_of_N in E. unfold b2z. rewrite E. lia.
  - apply Byte.of_N_None_iff in E. lia.
Qed.
#[global] Instance b2z_inj : Inj (=) (=) b2z.
Proof. intros x y H. rewrite <-(z2b_b2z x), H. apply z2b_b2z. Qed.

(** Big-endian and little-endian encodings on [n] bytes. *)
Fixpoint be_bytes (n : nat) (z : Z) : bytes :=
  match n with
  | O => []
  | S n => z2b (z / 256 ^ Z.of_nat n) :: be_bytes n z
  end.
Fixpoint of_be_from (acc : Z) (l : bytes) : Z :=
  match l with [] => acc | b :: l => of_be_from (acc * 256 + b2z b) l end.
Definition of_be (l : bytes) : Z := of_be_from 0 l.
Definition le_bytes (n : nat) (z : Z) : bytes := reverse (be_bytes n z).
Definition of_le (l : bytes) : Z := of_be (reverse l).

Lemma length_be_bytes n z : length (be_bytes n z) = n.
Proof. induction n; cbn; congruence. Qed.
Lemma length_le_bytes n z : length (le_bytes n z) = n.
Proof. unfold le_bytes. by rewrite length_reverse, length_be_bytes. Qed.

Lemma of_be_from_acc l acc :
  of_be_from acc l = (acc * 256 ^ Z.of_nat (length l) + of_be l)%Z.
Proof.
  unfold of_be. revert acc. induction l as [|b l IH]; intros acc; cbn [of_be_from length].
  - rewrite Z.pow_0_r. lia.
  - rewrite IH, (IH (0 * 256 + b2z b)%Z), Nat2Z.inj_succ, Z.pow_succ_r by lia. ring.
Qed.
Lemma of_be_cons b l :
  of_be (b :: l) = (b2z b * 256 ^ Z.of_nat (length l) + of_be l)%Z.
Proof. unfold of_be. cbn. by rewrite of_be_from_acc. Qed.
Lemma of_be_range l : (0 ≤ of_be l < 256 ^ Z.of_nat (length l))%Z.
Proof.
  induction l as [|b l IH]; [done|].
  rewrite of_be_cons. cbn [length]. rewrite Nat2Z.inj_succ, Z.pow_succ_r by lia.
  pose proof (b2z_range b). nia.
Qed.
Lemma of_be_bytes n z : of_be (be_bytes n z) = (z `mod` 256 ^ Z.of_nat n)%Z.
Proof.
  induction n as [|n IH]; cbn [be_bytes].
  - by rewrite Z.mod_1_r.
  - rewrite of_be_cons, length_be_bytes, IH, b2z_z2b, Nat2Z.inj_succ, Z.pow_succ_r by lia.
    pose proof (Z.pow_pos_nonneg 256 (Z.of_nat n)).
    rewrite (Z.mul_comm 256), Z.rem_mul_r by lia. lia.
Qed.
Lemma of_be_bytes_small n z :
  (0 ≤ z < 256 ^ Z.of_nat n)%Z → of_be (be_bytes n z) = z.
Proof. intros. rewrite of_be_bytes. by apply Z.mod_small. Qed.
Lemma of_le_bytes_small n z :
  (0 ≤ z < 256 ^ Z.of_nat n)%Z → of_le (le_bytes n z) = z.
Proof.
  intros. unfold of_le, le_bytes. rewrite reverse_involutive. by apply of_be_bytes_small.
Qed.
Lemma of_be_bytes_u64 z : is_u64 z → of_be (be_bytes 8 z) = z.
Proof. intros. by apply of_be_bytes_small. Qed.
Lemma of_le_bytes_u64 z : is_u64 z → of_le (le_bytes 8 z) = z.
Proof. intros. by apply of_le_bytes_small. Qed.

(** The byte-wise (lexicographic) order, RocksDB's default comparator. *)
Fixpoint bytes_leb (a b : bytes) : bool :=
  match a, b with
  | [], _ => true
  | _ :: _, [] => false
  | x :: a, y :: b =>
      (b2z x <? b2z y)%Z || ((b2z x =? b2z y)%Z && bytes_leb a b)
  end.
Definition bytes_le (a b : bytes) : Prop := bytes_leb a b = true.
#[global] Instance bytes_le_dec : RelDecision bytes_le.
Proof. intros a b. unfold bytes_le. apply _. Defined.

Lemma bytes_le_cons x y a b :
  bytes_le (x :: a) (y :: b) ↔ (b2z x < b2z y)%Z ∨ (x = y ∧ bytes_le a b).
Proof.
  unfold bytes_le. cbn.
  destruct (Z.ltb_spec (b2z x) (b2z y)); cbn; [naive_solver|].
  destruct (Z.eqb_spec (b2z x) (b2z y)) as [E%(inj b2z)|E]; cbn; naive_solver lia.
Qed.
Lemma bytes_le_nil_l b : bytes_le [] b.
Proof. done. Qed.
Lemma bytes_le_nil_r x a : ¬ bytes_le (x :: a) [].
Proof. done. Qed.
#[global] Instance bytes_le_refl : Reflexive bytes_le.
Proof. intros a. induction a; [done|]. rewrite bytes_le_cons. eauto. Qed.
#[global] Instance bytes_le_trans : Transitive bytes_le.
Proof.
  intros a. induction a as [|x a IH]; intros [|y b] [|z c]; try done.
  rewrite !bytes_le_cons. intros [?|[-> ?]] [?|[-> ?]]; eauto with lia.
Qed.
#[global] Instance bytes_le_antisym : AntiSymm (=) bytes_le.
Proof.
  intros a. induction a as [|x a IH]; intros [|y b]; try done.
  rewrite !bytes_le_cons. intros [?|[-> ?]] [?|[? ?]]; try lia; subst; try lia.
  f_equal. by apply IH.
Qed.
#[global] Instance bytes_le_total : Total bytes_le.
Proof.
  intros a. induction a as [|x a IH]; intros [|y b]; try (by left); try (by right).
  rewrite !bytes_le_cons.
  destruct (Z.lt_trichotomy (b2z x) (b2z y)) as [|[E%(inj b2z)|]]; [tauto| |tauto].
  subst. destruct (IH b); auto.
Qed.

Lemma bytes_le_app a x y : bytes_le (a ++ x) (a ++ y) ↔ bytes_le x y.
Proof.
  induction a as [|b a IH]; [done|]. cbn. rewrite bytes_le_cons, IH.
  split; [intros [?|[_ ?]]|]; auto; lia.
Qed.
(** Keys between two keys that share a prefix share it too. *)
Lemma bytes_le_between a x y k :
  bytes_le (a ++ x) k → bytes_le k (a ++ y) → length a ≤ length k →
  take (length a) k = a.
Proof.
  revert k. induction a as [|b a IH]; intros [|c k]; cbn; try done; try lia.
  rewrite !bytes_le_cons. intros [?|[-> ?]] [?|[? ?]] ?; try lia; subst; try lia.
  f_equal. apply IH; auto. lia.
Qed.
(** On strings of one length the order is the order of the numbers. *)
Lemma bytes_le_of_be a b :
  length a = length b → bytes_le a b ↔ (of_be a ≤ of_be b)%Z.
Proof.
  revert b. induction a as [|x a IH]; intros [|y b]; try done.
  intros [= Hl]. rewrite bytes_le_cons, (IH b), !of_be_cons, Hl by done.
  pose proof (of_be_range a) as Ha. pose proof (of_be_range b) as Hb. rewrite Hl in Ha.
  split.
  - intros [?|[-> ?]]; [nia|lia].
  - intros Hle. destruct (Z.lt_trichotomy (b2z x) (b2z y)) as [|[E%(inj b2z)|]];
      [by left|subst; right; split; [done|lia]|nia].
Qed.
Lemma bytes_le_app_len a b x y :
  length a = length b →
  bytes_le (a ++ x) (b ++ y) ↔ (of_be a < of_be b)%Z ∨ (a = b ∧ bytes_le x y).
Proof.
  revert b. induction a as [|c a IH]; intros [|d b]; try done.
  { intros _. cbn. split; [auto|]. intros [?|[_ ?]]; [|done]. unfold of_be in *. cbn in *. lia. }
  intros [= Hl]. cbn [app]. rewrite bytes_le_cons, (IH b), !of_be_cons, Hl by done.
  pose proof (of_be_range a) as Ha. pose proof (of_be_range b) as Hb. rewrite Hl in Ha.
  split.
  - intros [?|[-> [?|[-> ?]]]]; [left; nia|left; lia|auto].
  - intros [Hlt|[[= -> ->] ?]]; [|auto].
    destruct (Z.lt_trichotomy (b2z c) (b2z d)) as [|[E%(inj b2z)|]];
      [by left|subst; right; split; [done|left; lia]|nia].
Qed.

Lemma pair_parts {A B} (p : A * B) a b : p.1 = a → b = p.2 → p = (a, b).
Proof. intros <- ->. apply surjective_pairing. Qed.

(** * Lists *)

(** A list whose elements are all images is the image of a list. *)
Lemma Forall_image {A B} (f : A → B) (P : A → Prop) (l : list B) :
  Forall (λ b, ∃ a, b = f a ∧ P a) l → ∃ l', l = f <$> l' ∧ Forall P l'.
Proof.
  induction 1 as [|b l (a & -> & Ha) _ (l' & -> & Hl')]; [by exists []|].
  exists (a :: l'). auto.
Qed.
Lemma StronglySorted_fmap {A B} (f : A → B) (P : B → B → Prop) (Q : A → A → Prop) l :
  (∀ x y, x ∈ l → y ∈ l → P (f x) (f y) → Q x y) →
  StronglySorted P (f <$> l) → StronglySorted Q l.
Proof.
  induction l as [|x l IH]; intros HQ Hs; [constructor|].
  cbn in Hs. apply StronglySorted_inv in Hs as [Hs Hf]. constructor.
  - apply IH; [|done]. intros y z Hy Hz. apply HQ; by right.
  - change (list_fmap A B f l) with (f <$> l) in Hf. rewrite Forall_fmap in Hf.
    rewrite Forall_forall in *. intros y Hy. apply HQ; [by left|by right|]. by apply Hf.
Qed.
Lemma StronglySorted_filter {A} (P : A → Prop) `{∀ x, Decision (P x)} (Q : relation A) l :
  StronglySorted Q l → StronglySorted Q (filter P l).
Proof.
  induction 1 as [|x l Hs IH Hf]; [constructor|]. rewrite filter_cons. case_decide; [|done].
  constructor; [done|]. rewrite Forall_forall in *. intros y [_ ?]%list_elem_of_filter. auto.
Qed.
Lemma filter_nil_all {A} (P : A → Prop) `{∀ x, Decision (P x)} l :
  Forall (λ x, ¬ P x) l → filter P l = [].
Proof. induction 1; [done|]. rewrite filter_cons. by case_decide. Qed.
(** A property of an accumulator that each step keeps exactly when its element
    passes a test holds at the end exactly when every element passes. *)
Lemma foldl_all {A B} (good : A → Prop) (P : B → Prop) (f : A → B → A) l a :
  (∀ a b, good (f a b) ↔ good a ∧ P b) → good (foldl f a l) ↔ good a ∧ Forall P l.
Proof.
  intros Hf. revert a. induction l as [|b l IH]; intros a; cbn.
  - split; [by split|by intros [? _]].
  - rewrite IH, Hf, Forall_cons. tauto.
Qed.
Lemma filter_comm {A} (P Q : A → Prop) `{∀ x, Decision (P x)} `{∀ x, Decision (Q x)} (l : list A) :
  filter P (filter Q l) = filter Q (filter P l).
Proof.
  induction l as [|x l IH]; [done|]. rewrite !filter_cons.
  repeat (case_decide || rewrite filter_cons); congruence.
Qed.
Lemma StronglySorted_snoc {A} (Q : relation A) l x :
  StronglySorted Q l → Forall (λ y, Q y x) l → StronglySorted Q (l ++ [x]).
Proof.
  induction 1 as [|y l Hs IH Hy]; intros Hx; cbn; [repeat constructor|].
  inversion Hx; subst. constructor; [by apply IH|]. apply Forall_app. auto.
Qed.
