(* ===== verification/Capabilities.v ===== *)
(** Capabilities: the capability store of the crate [poc/capabilities].

    Models [CapabilityStore] (grant, delegate with attenuation, recursive
    revocation, rollback revocation, the access check) and [scope_covers].
    The wall clock that [grant_root] and [delegate] read is the argument
    [now]; hash maps and hash sets are [gmap] and [gset], iterated in the order
    of [map_to_list] and [elements].  The theorems give the derivation-tree
    invariant, attenuation along every derivation chain, the exact set of
    capabilities a revocation removes, and the meaning of [check]. *)
From S2P Require Import Prelude.

Module Caps.

Abbreviation CapabilityId := Z.
Abbreviation AgentId := bytes.

Record Permissions := mkPermissions {
  p_read : bool; p_write : bool; p_execute : bool; p_delegate : bool }.

Record Capability := mkCapability {
  cap_id : CapabilityId;
  cap_owner : AgentId;
  cap_permissions : Permissions;
  cap_resource : string;
  cap_parent : option CapabilityId;
  cap_issued_at_ms : Z }.

Record CapabilityStore := mkStore {
  caps : gmap CapabilityId Capability;
  children : gmap CapabilityId (gset CapabilityId);
  next_id : CapabilityId }.
#[global] Instance store_eta : Settable CapabilityStore := λ s,
  mkStore (caps s) (children s) (next_id s).

Inductive CapError :=
| NotFound (id : CapabilityId)
| NotOwner
| DelegationNotAllowed
| PermissionEscalation.

#[global] Instance Permissions_eq_dec : EqDecision Permissions.
Proof. solve_decision. Defined.
#[global] Instance Capability_eq_dec : EqDecision Capability.
Proof. solve_decision. Defined.
#[global] Instance CapError_eq_dec : EqDecision CapError.
Proof. solve_decision. Defined.

(** ** Operations *)

Definition new : CapabilityStore := mkStore ∅ ∅ 0.

Definition alloc_id (s : CapabilityStore) : CapabilityId * CapabilityStore :=
  (next_id s, s <| next_id := u64 (next_id s + 1) |>).

Definition grant_root (now : Z) (s : CapabilityStore)
    (owner : AgentId) (permissions : Permissions) (resource : string)
    : CapabilityId * CapabilityStore :=
  let '(id, s) := alloc_id s in
  (id, s <| caps ::= insert id
        (mkCapability id owner permissions resource None now) |>).

(** The guard of [delegate]: some requested permission is not held. *)
Definition exceeds (p src : Permissions) : bool :=
  (p_read p && negb (p_read src))
  || (p_write p && negb (p_write src))
  || (p_execute p && negb (p_execute src))
  || (p_delegate p && negb (p_delegate src)).

Definition delegate (now : Z) (s : CapabilityStore)
    (source_id : CapabilityId) (from to : AgentId)
    (permissions : Permissions) (resource : string)
    : result CapError CapabilityId * CapabilityStore :=
  match caps s !! source_id with
  | None => (Err (NotFound source_id), s)
  | Some source =>
      if decide (cap_owner source ≠ from) then (Err NotOwner, s)
      else if negb (p_delegate (cap_permissions source)) then
        (Err DelegationNotAllowed, s)
      else if exceeds permissions (cap_permissions source) then
        (Err PermissionEscalation, s)
      else
        let '(child_id, s) := alloc_id s in
        let child :=
          mkCapability child_id to permissions resource (Some source_id) now in
        (Ok child_id,
         s <| caps ::= insert child_id child |>
           <| children ::= partial_alter
                (λ o, Some ({[child_id]} ∪ default ∅ o)) source_id |>)
  end.

(** The work list of [revoke]; the head of the list is the top of the [Vec]
    used as a stack.  [None] is running out of fuel. *)
Fixpoint revoke_loop (fuel : nat) (to_revoke : list CapabilityId)
    (s : CapabilityStore) (count : nat) : option (nat * CapabilityStore) :=
  match fuel with
  | O => None
  | S fuel =>
      match to_revoke with
      | [] => Some (count, s)
      | current :: rest =>
          let count := if caps s !! current then S count else count in
          let s := s <| caps ::= delete current |> in
          match children s !! current with
          | Some ch =>
              revoke_loop fuel (reverse (elements ch) ++ rest)
                (s <| children ::= delete current |>) count
          | None => revoke_loop fuel rest s count
          end
      end
  end.

(** Every capability id waits on the stack at most once per edge. *)
Definition edge_count (m : gmap CapabilityId (gset CapabilityId)) : nat :=
  map_fold (λ _ ch n, size ch + n) 0 m.

Definition revoke (s : CapabilityStore) (id : CapabilityId) : nat * CapabilityStore :=
  default (0, s) (revoke_loop (S (S (edge_count (children s)))) [id] s 0).

(** The body of the loop of [revoke_owned_after]. *)
Definition detach (s : CapabilityStore) (id : CapabilityId)
    (parent : option CapabilityId) : CapabilityStore :=
  match parent with
  | Some parent_id => s <| children ::= alter (.∖ {[id]}) parent_id |>
  | None => s
  end.
Definition revoke_victim (acc : nat * CapabilityStore)
    (victim : CapabilityId * option CapabilityId) : nat * CapabilityStore :=
  let '(count, s) := acc in
  let '(id, parent) := victim in
  let '(n, s) := revoke (detach s id parent) id in
  (count + n, s).

Definition victims (s : CapabilityStore) (owner : AgentId) (after_ts_ms : Z)
    : list (CapabilityId * option CapabilityId) :=
  (λ '(id, c), (id, cap_parent c)) <$>
    filter (λ '(_, c), cap_owner c = owner ∧ (cap_issued_at_ms c > after_ts_ms)%Z)
      (map_to_list (caps s)).

Definition revoke_owned_after (s : CapabilityStore) (owner : AgentId)
    (after_ts_ms : Z) : nat * CapabilityStore :=
  foldl revoke_victim (0, s) (victims s owner after_ts_ms).

(** [req == cap || req.starts_with(cap + "/")]. *)
Definition scope_covers (cap req : string) : bool :=
  String.eqb req cap || String.prefix (cap +:+ "/") req.

Definition check (s : CapabilityStore) (agent : AgentId) (cap_id : CapabilityId)
    (resource : string) (perm : Permissions) : bool :=
  match caps s !! cap_id with
  | None => false
  | Some cap =>
      bool_decide (cap_owner cap = agent)
      && scope_covers (cap_resource cap) resource
      && (negb (p_read perm) || p_read (cap_permissions cap))
      && (negb (p_write perm) || p_write (cap_permissions cap))
      && (negb (p_execute perm) || p_execute (cap_permissions cap))
      && (negb (p_delegate perm) || p_delegate (cap_permissions cap))
  end.

Definition resource (s : CapabilityStore) (id : CapabilityId) : option string :=
  cap_resource <$> caps s !! id.
Definition get (s : CapabilityStore) (id : CapabilityId) : option Capability :=
  caps s !! id.
Definition count (s : CapabilityStore) : nat := size (caps s).

(** ** The derivation tree *)

(** [children] edges, and the live parent links they must agree with. *)
Definition edge (s : CapabilityStore) (a b : CapabilityId) : Prop :=
  ∃ ch, children s !! a = Some ch ∧ b ∈ ch.
Definition parent_of (s : CapabilityStore) (p c : CapabilityId) : Prop :=
  ∃ cap, caps s !! c = Some cap ∧ cap_parent cap = Some p.
(** [ancestor s a c]: [a] is [c] or lies on the derivation chain of [c]. *)
Definition ancestor (s : CapabilityStore) : relation CapabilityId := rtc (parent_of s).

(** [p] grants nothing that [q] does not. *)
Definition perm_le (p q : Permissions) : Prop :=
  (p_read p = true → p_read q = true) ∧ (p_write p = true → p_write q = true)
  ∧ (p_execute p = true → p_execute q = true) ∧ (p_delegate p = true → p_delegate q = true).

Record cs_inv (s : CapabilityStore) : Prop := {
  inv_next : (0 ≤ next_id s < 2 ^ 64)%Z;
  inv_id : ∀ i c, caps s !! i = Some c → cap_id c = i ∧ (0 ≤ i < next_id s)%Z;
  inv_edge : ∀ p c, edge s p c → (p < c < next_id s)%Z;
  inv_edge_parent : ∀ p c cap, edge s p c → caps s !! c = Some cap → cap_parent cap = Some p;
  inv_parent : ∀ p c cap, caps s !! c = Some cap → cap_parent cap = Some p →
    edge s p c ∧ ∃ cp, caps s !! p = Some cp ∧ p_delegate (cap_permissions cp) = true
                       ∧ perm_le (cap_permissions cap) (cap_permissions cp) }.

Lemma perm_le_refl p : perm_le p p.
Proof. by split_and!. Qed.
Lemma perm_le_trans p q r : perm_le p q → perm_le q r → perm_le p r.
Proof. unfold perm_le. tauto. Qed.
(** The guard of [delegate] lets through the permissions that are held. *)
Lemma exceeds_false p q : exceeds p q = false ↔ perm_le p q.
Proof.
  assert (∀ a b, a && negb b = false ↔ (a = true → b = true)) as H by (intros [] []; cbn; intuition congruence).
  unfold perm_le, exceeds. rewrite !orb_false_iff, !H. tauto.
Qed.

Lemma parent_of_lt s p c : cs_inv s → parent_of s p c → (p < c)%Z.
Proof. intros Hi (cap & Hc & Hp). eapply inv_edge; [done|]. by eapply inv_parent. Qed.
Lemma ancestor_le s a c : cs_inv s → ancestor s a c → (a ≤ c)%Z.
Proof.
  intros Hi. induction 1 as [|x y z Hxy _ IH]; [done|].
  apply parent_of_lt in Hxy; [lia|done].
Qed.
(** The chain of a live capability is live up to its root. *)
Lemma ancestor_live s a c cap :
  cs_inv s → ancestor s a c → caps s !! c = Some cap → ∃ ca, caps s !! a = Some ca.
Proof.
  intros Hi [x|x y z (cy & Hy & Hp) _] Hz; [eauto|].
  destruct (inv_parent _ Hi _ _ _ Hy Hp) as (_ & cp & ? & _). eauto.
Qed.
Lemma ancestor_perm s a c ca cc :
  cs_inv s → ancestor s a c → caps s !! a = Some ca → caps s !! c = Some cc →
  perm_le (cap_permissions cc) (cap_permissions ca).
Proof.
  intros Hi H. revert ca. induction H as [x|x y z Hxy Hyz IH]; intros ca Ha Hc.
  { simplify_eq. apply perm_le_refl. }
  destruct Hxy as (cy & Hy & Hp). destruct (inv_parent _ Hi _ _ _ Hy Hp) as (_ & cp & Hcp & _ & ?).
  simplify_eq. eauto using perm_le_trans.
Qed.

(** ** The revocation work list *)

Lemma edge_count_delete m k ch :
  m !! k = Some ch → edge_count m = size ch + edge_count (delete k m).
Proof. intros H. unfold edge_count. rewrite (map_fold_delete_L _ _ k ch m); [done| |done]. lia. Qed.

(** [revoke_loop] with this much fuel always answers. *)
Lemma revoke_loop_total fuel st s n :
  length st + edge_count (children s) < fuel → is_Some (revoke_loop fuel st s n).
Proof.
  revert st s n. induction fuel as [|fuel IH]; intros st s n Hf; [lia|].
  destruct st as [|x st]; cbn; [done|]. cbn in Hf.
  destruct (children s !! x) as [ch|] eqn:E; apply IH; cbn; [|lia].
  rewrite (edge_count_delete _ _ _ E) in Hf.
  rewrite length_app, length_reverse. change (length (elements ch)) with (size ch). lia.
Qed.

Definition reach (s : CapabilityStore) (st : list CapabilityId) (x : CapabilityId) : Prop :=
  ∃ a, a ∈ st ∧ rtc (edge s) a x.

Lemma reach_nil s x : ¬ reach s [] x.
Proof. intros (a & Ha & _). by apply not_elem_of_nil in Ha. Qed.

(** Removing a node's edges splits reachability at that node. *)
Lemma rtc_edge_split s s1 cur ch a x :
  children s1 = delete cur (children s) → default ∅ (children s !! cur) = ch →
  rtc (edge s) a x →
  rtc (edge s1) a x ∨ x = cur ∨ ∃ c, c ∈ ch ∧ rtc (edge s1) c x.
Proof.
  intros Hs1 Hch. revert x. apply rtc_ind_r; [left; constructor|].
  intros y z _ Hyz IH.
  assert (Hstep : y = cur → z ∈ ch).
  { intros ->. destruct Hyz as (ch' & E & ?). rewrite E in Hch. by simplify_eq/=. }
  destruct (decide (y = cur)) as [->|Hne].
  { right; right. exists z. split; [auto|constructor]. }
  assert (edge s1 y z) as Hyz1.
  { destruct Hyz as (ch' & E & ?). exists ch'. by rewrite Hs1, lookup_delete_ne. }
  destruct IH as [?|[?|(c & ? & ?)]]; [left; by eapply rtc_r|done|].
  right; right. exists c. split; [done|by eapply rtc_r].
Qed.

Lemma reach_pop s s1 cur rest ch x :
  children s1 = delete cur (children s) → default ∅ (children s !! cur) = ch →
  reach s (cur :: rest) x ↔ x = cur ∨ reach s1 (reverse (elements ch) ++ rest) x.
Proof.
  intros Hs1 Hch.
  assert (Hsub : ∀ a b, edge s1 a b → edge s a b).
  { intros a b (ch' & E & ?). exists ch'. rewrite Hs1 in E.
    by apply lookup_delete_Some in E as [_ ?]. }
  assert (Hcur : ∀ b, ¬ edge s1 cur b).
  { intros b (ch' & E & _). by rewrite Hs1, lookup_delete_eq in E. }
  split.
  - intros (a & Ha & Hax).
    destruct (rtc_edge_split s s1 cur ch a x Hs1 Hch Hax) as [H|[->|(c & Hc & H)]]; [|by left|].
    + apply elem_of_cons in Ha as [->|Ha].
      * left. inversion H; subst; [done|]. by edestruct Hcur.
      * right. exists a. split; [|done]. apply elem_of_app. auto.
    + right. exists c. split; [|done]. apply elem_of_app. left.
      by apply elem_of_reverse, elem_of_elements.
  - intros [->|(a & Ha & Hax)]; [exists cur; split; [by left|constructor]|].
    assert (Hax' : rtc (edge s) a x) by (eapply rtc_subrel; eauto).
    apply elem_of_app in Ha as [Ha|Ha]; [|exists a; split; [by right|done]].
    apply elem_of_reverse, elem_of_elements in Ha.
    exists cur. split; [by left|]. eapply rtc_l; [|done].
    destruct (children s !! cur) as [ch'|] eqn:E; simplify_eq/=; [eexists; eauto|set_solver].
Qed.

(** What a revocation leaves: everything outside [P], untouched. *)
Record revoked (s s' : CapabilityStore) (P : CapabilityId → Prop) : Prop := {
  rv_next : next_id s' = next_id s;
  rv_caps_in : ∀ x, P x → caps s' !! x = None;
  rv_caps_out : ∀ x, ¬ P x → caps s' !! x = caps s !! x;
  rv_ch_in : ∀ x, P x → children s' !! x = None;
  rv_ch_out : ∀ x, ¬ P x → children s' !! x = children s !! x;
  rv_caps_sub : caps s' ⊆ caps s;
  rv_ch_sub : children s' ⊆ children s }.

Lemma revoked_proper s s' P Q : (∀ x, P x ↔ Q x) → revoked s s' P → revoked s s' Q.
Proof. intros H []. split; naive_solver. Qed.

Lemma revoked_cons s s1 s' cur (P1 : CapabilityId → Prop) :
  next_id s1 = next_id s → caps s1 = delete cur (caps s) →
  children s1 = delete cur (children s) →
  revoked s1 s' P1 → revoked s s' (λ x, x = cur ∨ P1 x).
Proof.
  intros Hn Hc Hch [R1 R2 R3 R4 R5 R6 R7]. rewrite Hc in *. rewrite Hch in *. split.
  - congruence.
  - intros x [->|?]; [|auto]. eapply lookup_weaken_None; [|done]. apply lookup_delete_eq.
  - intros x Hx. rewrite R3 by tauto. apply lookup_delete_ne. naive_solver.
  - intros x [->|?]; [|auto]. eapply lookup_weaken_None; [|done]. apply lookup_delete_eq.
  - intros x Hx. rewrite R5 by tauto. apply lookup_delete_ne. naive_solver.
  - etrans; [done|]. apply delete_subseteq.
  - etrans; [done|]. apply delete_subseteq.
Qed.

Lemma revoke_loop_spec fuel st s n n' s' :
  revoke_loop fuel st s n = Some (n', s') →
  revoked s s' (reach s st) ∧ n' + size (caps s') = n + size (caps s).
Proof.
  revert st s n. induction fuel as [|fuel IH]; intros st s n H; [done|].
  destruct st as [|cur rest]; cbn in H.
  { simplify_eq. split; [|lia]. split; try done; intros x Hx; by apply reach_nil in Hx. }
  set (s1 := mkStore (delete cur (caps s)) (delete cur (children s)) (next_id s)).
  assert (revoke_loop fuel (reverse (elements (default ∅ (children s !! cur))) ++ rest) s1
            (if caps s !! cur then S n else n) = Some (n', s')) as H1.
  { unfold s1. destruct (children s !! cur) eqn:E; cbn; [done|].
    by rewrite (delete_id (children s)). }
  clear H. apply IH in H1 as [HR Hn]. split.
  - apply (revoked_proper _ _ _ _ (λ x, iff_sym (reach_pop s s1 cur rest _ x eq_refl eq_refl))).
    by apply (revoked_cons s s1).
  - cbn in Hn. destruct (caps s !! cur) eqn:E.
    + rewrite map_size_delete_Some in Hn by eauto.
      assert (size (caps s) ≠ 0); [|lia].
      intros Hz%map_size_empty_inv. by rewrite Hz in E.
    + by rewrite delete_id in Hn.
Qed.

Lemma revoke_spec s id n s' :
  revoke s id = (n, s') →
  revoked s s' (rtc (edge s) id) ∧ n + size (caps s') = size (caps s).
Proof.
  unfold revoke. destruct (revoke_loop_total (S (S (edge_count (children s)))) [id] s 0)
    as [[n1 s1] E]; [cbn; lia|].
  rewrite E. intros [= -> ->]. apply revoke_loop_spec in E as [HR Hn]. split; [|lia].
  eapply revoked_proper; [|done]. intros x. unfold reach. split.
  - by intros (a & ->%list_elem_of_singleton & ?).
  - intros ?. exists id. split; [by left|done].
Qed.

(** ** Every operation keeps the invariant *)

Lemma cs_inv_new : cs_inv new.
Proof.
  split; cbn; try done; by intros ? ? (? & ? & _).
Qed.

Definition has_room (s : CapabilityStore) : Prop := (next_id s < 2 ^ 64 - 1)%Z.

Lemma cs_inv_fresh s : cs_inv s → caps s !! next_id s = None.
Proof.
  intros Hi. destruct (caps s !! next_id s) as [c|] eqn:E; [|done].
  apply (inv_id _ Hi) in E. lia.
Qed.

Lemma cs_inv_grant now s owner p r :
  cs_inv s → has_room s → cs_inv (grant_root now s owner p r).2.
Proof.
  intros Hi Hr. pose proof (cs_inv_fresh s Hi) as Hfr. pose proof (inv_next _ Hi) as Hnx.
  unfold has_room in Hr. unfold grant_root; cbn. rewrite u64_succ by lia. split; cbn.
  - lia.
  - intros i c [[<- <-]|[_ H]]%lookup_insert_Some; cbn; [lia|].
    apply (inv_id _ Hi) in H. lia.
  - intros p' c He. apply (inv_edge _ Hi) in He. lia.
  - intros p' c cap He [[<- <-]|[_ H]]%lookup_insert_Some.
    + apply (inv_edge _ Hi) in He. lia.
    + by eapply inv_edge_parent.
  - intros p' c cap [[<- <-]|[_ H]]%lookup_insert_Some Hp; [done|].
    destruct (inv_parent _ Hi _ _ _ H Hp) as (? & cp & Hcp & ?). split; [done|].
    exists cp. split; [|done]. rewrite lookup_insert_ne; congruence.
Qed.

(** What a successful [delegate] went through. *)
Lemma delegate_Ok now s src from to p r id s' :
  delegate now s src from to p r = (Ok id, s') →
  ∃ cs, caps s !! src = Some cs ∧ cap_owner cs = from
    ∧ p_delegate (cap_permissions cs) = true ∧ perm_le p (cap_permissions cs)
    ∧ id = next_id s
    ∧ next_id s' = u64 (next_id s + 1)
    ∧ caps s' = <[id := mkCapability id to p r (Some src) now]> (caps s)
    ∧ ∀ a b, edge s' a b ↔ edge s a b ∨ (a = src ∧ b = id).
Proof.
  unfold delegate. destruct (caps s !! src) as [cs|]; [|done].
  case_decide as Ho; [done|].
  destruct (p_delegate (cap_permissions cs)) eqn:Hd; [|done]. cbn.
  destruct (exceeds _ _) eqn:He; [done|]. apply exceeds_false in He. intros [= <- <-]. exists cs. cbn.
  do 7 (split; [done|]). intros a b. unfold edge; cbn.
  destruct (decide (a = src)) as [->|Hne].
  - rewrite lookup_partial_alter_eq. split.
    + intros (ch' & [= <-] & [->%elem_of_singleton|Hb]%elem_of_union); [auto|left].
      destruct (children s !! src) as [ch|]; cbn in Hb; [eauto|set_solver].
    + intros [(ch & -> & Hb)|[_ ->]]; eexists; (split; [done|]); set_solver.
  - rewrite lookup_partial_alter_ne by done. naive_solver.
Qed.

Lemma delegate_Err now s src from to p r e s' :
  delegate now s src from to p r = (Err e, s') → s' = s.
Proof. unfold delegate. repeat case_match; naive_solver. Qed.

Lemma cs_inv_delegate now s src from to p r :
  cs_inv s → has_room s → cs_inv (delegate now s src from to p r).2.
Proof.
  intros Hi Hr. destruct (delegate now s src from to p r) as [[id|e] s'] eqn:E; cbn;
    [|by apply delegate_Err in E as ->].
  apply delegate_Ok in E as (cs & Hs & _ & Hd & Hle & -> & Hn & Hc & He).
  pose proof (cs_inv_fresh s Hi) as Hfr. pose proof (inv_next _ Hi) as Hnx.
  pose proof (proj2 (inv_id _ Hi _ _ Hs)) as Hsrc.
  unfold has_room in Hr. rewrite u64_succ in Hn by lia. split; rewrite ?Hn, ?Hc.
  - lia.
  - intros i c [[<- <-]|[_ H1]]%lookup_insert_Some; cbn; [lia|].
    apply (inv_id _ Hi) in H1. lia.
  - intros p' c [H1|[-> ->]]%He; [|lia]. apply (inv_edge _ Hi) in H1. lia.
  - intros p' c cap [H1|[-> ->]]%He.
    + intros [[<- <-]|[? H2]]%lookup_insert_Some; [|by eapply inv_edge_parent].
      apply (inv_edge _ Hi) in H1. lia.
    + by rewrite lookup_insert_eq; intros [= <-].
  - intros p' c cap [[<- <-]|[Hne H1]]%lookup_insert_Some Hp; cbn in *.
    + simplify_eq. split; [apply He; auto|]. exists cs.
      split; [|done]. rewrite lookup_insert_ne; [done|congruence].
    + destruct (inv_parent _ Hi _ _ _ H1 Hp) as (? & cp & Hcp & ?).
      split; [apply He; auto|]. exists cp. split; [|done].
      rewrite lookup_insert_ne; [done|congruence].
Qed.

(** A store pruned of a set closed under edges keeps the invariant. *)
Record pruned (s s' : CapabilityStore) (P : CapabilityId → Prop) : Prop := {
  pr_next : next_id s' = next_id s;
  pr_caps_in : ∀ x, P x → caps s' !! x = None;
  pr_caps_out : ∀ x, ¬ P x → caps s' !! x = caps s !! x;
  pr_caps_sub : caps s' ⊆ caps s;
  pr_edge_sub : ∀ a b, edge s' a b → edge s a b;
  pr_edge_keep : ∀ a b, edge s a b → ¬ P a → ¬ P b → edge s' a b }.

Lemma revoked_pruned s s' P : revoked s s' P → pruned s s' P.
Proof.
  intros [Rn Rci Rco Rhi Rho Rcs Rhs]. split; try done.
  - intros a b (ch & E & ?). exists ch. split; [|done]. by eapply lookup_weaken.
  - intros a b (ch & E & ?) Ha _. exists ch. by rewrite Rho.
Qed.

Lemma cs_inv_pruned s s' (P : CapabilityId → Prop) :
  cs_inv s → (∀ a b, edge s a b → P a → P b) → pruned s s' P → cs_inv s'.
Proof.
  intros Hi Hcl [Rn Rci Rco Rcs Rsub Rkeep]. split.
  - rewrite Rn. apply Hi.
  - intros i c H. rewrite Rn. eapply inv_id; [done|]. by eapply lookup_weaken.
  - intros p c H%Rsub. rewrite Rn. by eapply inv_edge.
  - intros p c cap H%Rsub Hc. eapply inv_edge_parent; [done..|]. by eapply lookup_weaken.
  - intros p c cap Hc Hp.
    assert (caps s !! c = Some cap) as Hc0 by (by eapply lookup_weaken).
    destruct (inv_parent _ Hi _ _ _ Hc0 Hp) as (He & cp & Hcp & ?).
    assert (¬ P c) as HPc. { intros HP. by rewrite (Rci c) in Hc by eauto. }
    assert (¬ P p) as HPp by eauto.
    split; [by eapply Rkeep|]. exists cp. split; [by rewrite Rco|done].
Qed.

Lemma cs_inv_revoke s id : cs_inv s → cs_inv (revoke s id).2.
Proof.
  intros Hi. destruct (revoke s id) as [n s'] eqn:E. apply revoke_spec in E as [HR _].
  eapply cs_inv_pruned; [done| |by apply revoked_pruned]. intros. by eapply rtc_r.
Qed.

(** Edge reachability and derivation chains agree on live capabilities. *)
Lemma ancestor_reach s a c : cs_inv s → ancestor s a c → rtc (edge s) a c.
Proof.
  intros Hi. apply rtc_subrel. intros x y (cap & Hc & Hp). by eapply inv_parent.
Qed.
Lemma reach_ancestor s a c cap :
  cs_inv s → rtc (edge s) a c → caps s !! c = Some cap → ancestor s a c.
Proof.
  intros Hi Hr. revert c Hr cap. apply (rtc_ind_r (λ c, ∀ cap, _ → _)).
  { intros. constructor. }
  intros y z _ Hyz IH cap Hz. pose proof (inv_edge_parent _ Hi _ _ _ Hyz Hz) as Hp.
  destruct (inv_parent _ Hi _ _ _ Hz Hp) as (_ & cy & Hy & _).
  eapply rtc_r; [by eapply IH|]. by exists cap.
Qed.

Lemma pruned_ancestor s s' id c cap :
  cs_inv s → pruned s s' (rtc (edge s) id) →
  caps s' !! c = Some cap ↔ caps s !! c = Some cap ∧ ¬ ancestor s id c.
Proof.
  intros Hi [_ Rci Rco Rcs _ _]. split.
  - intros Hc. split; [by eapply lookup_weaken|]. intros Ha%ancestor_reach; [|done].
    by rewrite Rci in Hc.
  - intros [Hc Ha]. rewrite Rco; [done|]. intros Hr. apply Ha. by eapply reach_ancestor.
Qed.

(** ** The loop of [revoke_owned_after] *)

Lemma edge_detach s id parent a b :
  edge (detach s id parent) a b ↔ edge s a b ∧ ¬ (parent = Some a ∧ b = id).
Proof.
  destruct parent as [p|]; cbn; [|naive_solver]. unfold edge; cbn.
  destruct (decide (a = p)) as [->|Hne].
  - rewrite lookup_alter_eq. split.
    + intros (ch & (ch0 & -> & ->)%fmap_Some & Hb). set_solver.
    + intros [(ch & -> & Hb) Hne]. eexists. split; [done|]. set_solver.
  - rewrite lookup_alter_ne by done. naive_solver.
Qed.

Lemma detach_reach s id parent x :
  cs_inv s → rtc (edge (detach s id parent)) id x ↔ rtc (edge s) id x.
Proof.
  intros Hi. split.
  - apply rtc_subrel. intros a b [? _]%edge_detach. done.
  - intros Hx. enough (rtc (edge (detach s id parent)) id x ∧ (id ≤ x)%Z) by tauto.
    revert x Hx. apply rtc_ind_r; [split; [constructor|done]|].
    intros y z _ Hyz [Hr Hle]. pose proof (inv_edge _ Hi _ _ Hyz). split; [|lia].
    eapply rtc_r; [done|]. apply edge_detach. split; [done|]. intros [_ ->]. lia.
Qed.

Lemma caps_detach s id parent : caps (detach s id parent) = caps s.
Proof. by destruct parent. Qed.
Lemma next_id_detach s id parent : next_id (detach s id parent) = next_id s.
Proof. by destruct parent. Qed.

Lemma revoke_victim_spec k s id parent k' s' :
  cs_inv s → revoke_victim (k, s) (id, parent) = (k', s') →
  pruned s s' (rtc (edge s) id) ∧ cs_inv s' ∧ k' + size (caps s') = k + size (caps s).
Proof.
  intros Hi H. unfold revoke_victim in H.
  destruct (revoke (detach s id parent) id) as [n s1] eqn:E.
  simplify_eq. apply revoke_spec in E as [HR Hn]. rewrite caps_detach in Hn.
  apply revoked_pruned in HR as [Rn Rci Rco Rcs Rsub Rkeep].
  rewrite caps_detach, ?next_id_detach in *.
  assert (pruned s s' (rtc (edge s) id)) as HP.
  { split; [done| | |done| |].
    - intros x Hx. apply Rci. by apply detach_reach.
    - intros x Hx. apply Rco. by rewrite detach_reach.
    - intros a b [? _]%Rsub%edge_detach. done.
    - intros a b Hab Ha Hb. apply Rkeep; rewrite ?detach_reach; try done.
      apply edge_detach. split; [done|]. intros [_ ->]. apply Hb. constructor. }
  split; [done|]. split; [|lia].
  eapply cs_inv_pruned; [done| |done]. intros. by eapply rtc_r.
Qed.

(** Live chains survive a pruning unchanged. *)
Lemma ancestor_pruned s s' P a c cap :
  cs_inv s → cs_inv s' → pruned s s' P → caps s' !! c = Some cap →
  ancestor s' a c ↔ ancestor s a c.
Proof.
  intros Hi Hi' [_ _ _ Rcs _ _] Hc. split.
  - apply rtc_subrel. intros x y (cy & ? & ?). exists cy. split; [|done].
    by eapply lookup_weaken.
  - intros Ha. revert cap Hc. induction Ha as [x|x y z (cy & Hy & Hp) Hyz IH]; [constructor|].
    intros cap Hc. specialize (IH _ Hc). eapply rtc_l; [|exact IH].
    destruct (ancestor_live s' y z cap Hi' IH Hc) as [cy' Hy'].
    pose proof (lookup_weaken _ _ _ _ Hy' Rcs). simplify_eq. by exists cy.
Qed.

Lemma revoke_victims_spec vs k s k' s' :
  cs_inv s → foldl revoke_victim (k, s) vs = (k', s') →
  cs_inv s' ∧ k' + size (caps s') = k + size (caps s) ∧
  (∀ c cap, caps s' !! c = Some cap ↔
     caps s !! c = Some cap ∧ ∀ v, v ∈ vs.*1 → ¬ ancestor s v c).
Proof.
  revert k s. induction vs as [|[id parent] vs IH]; intros k s Hi H.
  { simplify_eq/=. split; [done|]. split; [done|]. intros c cap. set_solver. }
  cbn [foldl] in H. destruct (revoke_victim (k, s) (id, parent)) as [k1 s1] eqn:E.
  apply revoke_victim_spec in E as (HP & Hi1 & Hk1); [|done].
  apply IH in H as (Hi' & Hk & Hc'); [|done]. split; [done|]. split; [lia|].
  intros c cap. rewrite Hc', (pruned_ancestor s s1 id) by done. cbn. split.
  - intros [[Hc Hid] Hv]. split; [done|]. intros v [->|?]%elem_of_cons; [done|].
    rewrite <-(ancestor_pruned s s1 (rtc (edge s) id) v c cap); eauto. by apply (pruned_ancestor s s1 id).
  - intros [Hc Hv]. assert (¬ ancestor s id c) as Hid by (apply Hv; by left).
    split; [done|]. intros v ?.
    rewrite (ancestor_pruned s s1 (rtc (edge s) id) v c cap); eauto; [apply Hv; by right|].
    by apply (pruned_ancestor s s1 id).
Qed.

Lemma elem_of_victims s owner ts id :
  id ∈ (victims s owner ts).*1 ↔
  ∃ c, caps s !! id = Some c ∧ cap_owner c = owner ∧ (ts < cap_issued_at_ms c)%Z.
Proof.
  unfold victims. rewrite list_elem_of_fmap. split.
  - intros ([i p] & -> & ([i' c] & [= -> ->] & [[Ho Ht] Hm%elem_of_map_to_list]%list_elem_of_filter)%list_elem_of_fmap).
    exists c. cbn. split; [done|]. split; [done|lia].
  - intros (c & Hc & Ho & Ht). exists (id, cap_parent c). split; [done|].
    apply list_elem_of_fmap. exists (id, c). split; [done|].
    apply list_elem_of_filter. split; [split; [done|lia]|]. by apply elem_of_map_to_list.
Qed.

Lemma cs_inv_revoke_owned_after s owner ts :
  cs_inv s → cs_inv (revoke_owned_after s owner ts).2.
Proof.
  intros Hi. unfold revoke_owned_after.
  destruct (foldl _ _ _) as [k s'] eqn:E. by apply revoke_victims_spec in E as (? & _).
Qed.

(** ** Reachable stores *)

(** Any sequence of calls on one store, while ids remain to allocate. *)
Inductive cap_step : relation CapabilityStore :=
| step_grant now owner p r s :
    has_room s → cap_step s (grant_root now s owner p r).2
| step_delegate now src from to p r s :
    has_room s → cap_step s (delegate now s src from to p r).2
| step_revoke id s : cap_step s (revoke s id).2
| step_revoke_owned_after owner ts s : cap_step s (revoke_owned_after s owner ts).2.
Definition reachable (s : CapabilityStore) : Prop := rtc cap_step new s.

#[local] Hint Resolve cs_inv_new cs_inv_grant cs_inv_delegate cs_inv_revoke
  cs_inv_revoke_owned_after : caps.

Lemma cap_step_inv s s' : cap_step s s' → cs_inv s → cs_inv s'.
Proof. destruct 1; auto with caps. Qed.
Lemma reachable_cs_inv s : reachable s → cs_inv s.
Proof.
  unfold reachable. revert s. apply rtc_ind_r; [apply cs_inv_new|].
  intros y z _ Hyz IH. by eapply cap_step_inv.
Qed.

(** ** Properties *)

Lemma string_app_assoc (a b c : string) : (a +:+ b) +:+ c = a +:+ (b +:+ c).
Proof.
  induction a as [|x a IH]; [done|].
  change (String x ((a +:+ b) +:+ c) = String x (a +:+ (b +:+ c))). by rewrite IH.
Qed.
Lemma prefix_app (a b : string) : String.prefix a b = true ↔ ∃ r, b = a +:+ r.
Proof.
  revert b. induction a as [|x a IH]; intros b; cbn.
  { split; [by exists b|]. by destruct b. }
  destruct b as [|y b]; [split; [done|by intros [r ?]]|].
  cbn. destruct (Ascii.ascii_dec x y) as [<-|Hne].
  - rewrite IH. split; intros [r Hr]; exists r;
      change (String x a +:+ r) with (String x (a +:+ r)) in *; congruence.
  - split; [done|]. intros [r Hr].
    change (String x a +:+ r) with (String x (a +:+ r)) in Hr. congruence.
Qed.

Definition perm_rwxd : Permissions := mkPermissions true true true true.
Definition perm_r : Permissions := mkPermissions true false false false.
Definition agentA : AgentId := replicate 16 Byte.x41.
Definition agentB : AgentId := replicate 16 Byte.x42.

(** A root for A on "store/A", delegated to B on "store/A/x", then by B to
    itself on "store/A/x/y". *)
Definition demo1 : CapabilityStore := (grant_root 5 new agentA perm_rwxd "store/A").2.
Definition demo2 : CapabilityStore :=
  (delegate 10 demo1 0 agentA agentB perm_rwxd "store/A/x").2.
Definition demo3 : CapabilityStore :=
  (delegate 15 demo2 1 agentB agentB perm_r "store/A/x/y").2.

Lemma demo3_reachable : reachable demo3.
Proof.
  eapply rtc_r; [eapply rtc_r; [eapply rtc_once|]|].
  - by apply (step_grant 5 agentA perm_rwxd "store/A").
  - by apply (step_delegate 10 0 agentA agentB perm_rwxd "store/A/x" demo1).
  - by apply (step_delegate 15 1 agentB agentB perm_r "store/A/x/y" demo2).
Qed.
Lemma demo3_ancestor : ancestor demo3 0%Z 2%Z.
Proof.
  apply (rtc_l _ _ 1%Z); [|apply rtc_once]; (eexists; split; [vm_compute; reflexivity|done]).
Qed.

(** C6: in every store that a sequence of grants, delegations and revocations
    can produce, every link of the derivation chain of a live capability is
    itself live, grants at least the same permissions, and (when it is a
    proper ancestor) holds the delegate permission.  So the revocation that goes
    with the rollback of an agent takes away whatever was derived from what the
    agent loses, whoever holds it, where the comment of [revoke_owned_after] says
    that a capability delegated to another agent stays. *)
Theorem derivation_chain_attenuates s a c cc :
  reachable s → ancestor s a c → caps s !! c = Some cc →
  ∃ ca, caps s !! a = Some ca
    ∧ perm_le (cap_permissions cc) (cap_permissions ca)
    ∧ (a ≠ c → p_delegate (cap_permissions ca) = true)
    ∧ ∀ ts, (ts < cap_issued_at_ms ca)%Z → caps (revoke_owned_after s (cap_owner ca) ts).2 !! c = None.
Proof.
  intros Hi%reachable_cs_inv Ha Hc.
  destruct (ancestor_live s a c cc Hi Ha Hc) as [ca Hca]. exists ca.
  split; [done|]. split; [by eapply ancestor_perm|]. split.
  - destruct Ha as [|x y z (cy & Hy & Hp) _]; [done|]. intros _.
    destruct (inv_parent _ Hi _ _ _ Hy Hp) as (_ & cp & ? & ? & _). by simplify_eq.
  - intros ts Hts. unfold revoke_owned_after. destruct (foldl _ _ _) as [k s'] eqn:E.
    apply revoke_victims_spec in E as (_ & _ & E); [|done]. apply eq_None_not_Some. intros [x Hx]. cbn in Hx.
    apply E in Hx as [_ Hv]. apply (Hv a); [|done]. apply elem_of_victims. by exists ca.
Qed.
Lemma derivation_chain_attenuates_witness :
  ∃ ca, caps demo3 !! 0%Z = Some ca
    ∧ perm_le perm_r (cap_permissions ca)
    ∧ (0%Z ≠ 2%Z → p_delegate (cap_permissions ca) = true)
    ∧ ∀ ts, (ts < cap_issued_at_ms ca)%Z → caps (revoke_owned_after demo3 (cap_owner ca) ts).2 !! 2%Z = None.
Proof.
  exact (derivation_chain_attenuates demo3 0%Z 2%Z
    (mkCapability 2 agentB perm_r "store/A/x/y" (Some 1%Z) 15)
    demo3_reachable demo3_ancestor ltac:(vm_compute; reflexivity)).
Defined.

(** [revoke id] removes exactly the live capabilities whose derivation
    chain goes through [id] (and [id] itself), leaves every other one as it
    was, and returns the number of capabilities it removed. *)
Theorem revoke_removes_subtree s id n s' :
  reachable s → revoke s id = (n, s') →
  (∀ c cap, caps s' !! c = Some cap ↔ caps s !! c = Some cap ∧ ¬ ancestor s id c)
  ∧ n + count s' = count s.
Proof.
  intros Hi%reachable_cs_inv [HR Hn]%revoke_spec. split; [|done].
  intros c cap. apply pruned_ancestor; [done|]. by apply revoked_pruned.
Qed.
Lemma revoke_removes_subtree_witness :
  (∀ c cap, caps (revoke demo3 1%Z).2 !! c = Some cap ↔
     caps demo3 !! c = Some cap ∧ ¬ ancestor demo3 1%Z c)
  ∧ 2 + count (revoke demo3 1%Z).2 = count demo3.
Proof.
  exact (revoke_removes_subtree demo3 1%Z 2 (revoke demo3 1%Z).2 demo3_reachable
    ltac:(vm_compute; reflexivity)).
Defined.

(** [revoke_owned_after owner ts] removes exactly the capabilities that
    [owner] holds and that were issued strictly after [ts], together with
    everything derived from them, whoever holds it; the count it returns is
    the number removed. *)
Theorem revoke_owned_after_cascades s owner ts n s' :
  reachable s → revoke_owned_after s owner ts = (n, s') →
  (∀ c cap, caps s' !! c = Some cap ↔
     caps s !! c = Some cap ∧
     ∀ v cv, caps s !! v = Some cv → cap_owner cv = owner →
             (ts < cap_issued_at_ms cv)%Z → ¬ ancestor s v c)
  ∧ n + count s' = count s.
Proof.
  intros Hi%reachable_cs_inv (_ & Hn & Hc)%revoke_victims_spec; [|done]. split; [|done].
  intros c cap. rewrite Hc. setoid_rewrite elem_of_victims. naive_solver.
Qed.
Lemma revoke_owned_after_cascades_witness :
  (∀ c cap, caps (revoke_owned_after demo3 agentB 9%Z).2 !! c = Some cap ↔
     caps demo3 !! c = Some cap ∧
     ∀ v cv, caps demo3 !! v = Some cv → cap_owner cv = agentB →
             (9 < cap_issued_at_ms cv)%Z → ¬ ancestor demo3 v c)
  ∧ 2 + count (revoke_owned_after demo3 agentB 9%Z).2 = count demo3.
Proof.
  exact (revoke_owned_after_cascades demo3 agentB 9%Z 2 (revoke_owned_after demo3 agentB 9%Z).2
    demo3_reachable ltac:(vm_compute; reflexivity)).
Defined.

(** [check] answers yes exactly when the capability is live, held by the
    agent, grants every requested permission, and its resource is the requested
    one or a path prefix of it ending at a "/". *)
Theorem check_iff s agent id res perm :
  check s agent id res perm = true ↔
  ∃ cap, caps s !! id = Some cap ∧ cap_owner cap = agent
    ∧ perm_le perm (cap_permissions cap)
    ∧ (res = cap_resource cap ∨ ∃ rest, res = cap_resource cap +:+ "/" +:+ rest).
Proof.
  unfold check. destruct (caps s !! id) as [cap|]; [|naive_solver].
  assert (scope_covers (cap_resource cap) res = true ↔
    (res = cap_resource cap ∨ ∃ rest, res = cap_resource cap +:+ "/" +:+ rest)) as Hs.
  { unfold scope_covers. rewrite orb_true_iff, String.eqb_eq, prefix_app.
    split; (intros [->|[r ->]]; [by left|right; exists r]); by rewrite string_app_assoc. }
  rewrite !andb_true_iff, bool_decide_eq_true, Hs.
  assert (perm_le perm (cap_permissions cap) ↔
    (negb (p_read perm) || p_read (cap_permissions cap)) = true
    ∧ (negb (p_write perm) || p_write (cap_permissions cap)) = true
    ∧ (negb (p_execute perm) || p_execute (cap_permissions cap)) = true
    ∧ (negb (p_delegate perm) || p_delegate (cap_permissions cap)) = true) as Hp.
  { assert (∀ a b, negb a || b = true ↔ (a = true → b = true)) as H by (intros [] []; cbn; intuition congruence).
    unfold perm_le. by rewrite !H. }
  split; [intros; exists cap; rewrite Hp; tauto|]. intros (x & [= <-] & Ho & H & Hr). rewrite Hp in H. tauto.
Qed.

(** [delegate] does not attenuate the scope: a reachable store has a
    capability that covers a resource which the capability it was delegated
    from does not cover. *)
Theorem delegate_may_widen_scope :
  ∃ s p c cp cc res,
    reachable s ∧ parent_of s p c ∧ caps s !! p = Some cp ∧ caps s !! c = Some cc
    ∧ check s (cap_owner cc) c res perm_r = true
    ∧ scope_covers (cap_resource cp) res = false.
Proof.
  exists (delegate 10 demo1 0 agentA agentB perm_r "store/B").2, 0%Z, 1%Z,
    (mkCapability 0 agentA perm_rwxd "store/A" None 5),
    (mkCapability 1 agentB perm_r "store/B" (Some 0%Z) 10), "store/B/secret".
  split; [|repeat split; try (vm_compute; reflexivity);
           by eexists; split; [vm_compute; reflexivity|]].
  eapply rtc_r; [eapply rtc_once|].
  - by apply (step_grant 5 agentA perm_rwxd "store/A").
  - by apply (step_delegate 10 0 agentA agentB perm_r "store/B" demo1).
Qed.

End Caps.
