(* ===== verification/Storage.v ===== *)
(** Storage: the interfaces of the libraries that persist the system's data.

    RocksDB, SHA-256, bincode and MessagePack are packages the sources call.
    Each is a class of operations ([RocksDB], [Sha256], [Bincode]) and a second
    class of the documented behaviour the theorems rely on ([RocksLaws],
    [Sha256Laws], [BincodeLaws]).  Clients are written and proved against the
    classes.  The module [Mem] gives one concrete instance of each, so that the
    laws are known to be satisfiable and the theorems can be applied to data. *)
From S2P Require Import Prelude.

(** * Key-value database *)

(** One entry of a [WriteBatch]. *)
Inductive batch_op := Put (cf : string) (key value : bytes).

Class RocksDB := {
  db : Type;
  db_err : Type;
  (** [get_cf] *)
  db_get : db → string → bytes → result db_err (option bytes);
  (** [write_opt(batch, sync)] *)
  db_write : db → bool → list batch_op → result db_err unit * db;
  (** [iterator_cf(cf, From(seek, Forward))]; [Start] is the empty [seek]. *)
  db_iter : db → string → bytes → list (result db_err (bytes * bytes));
  (** [flush] *)
  db_flush : db → result db_err unit * db }.

(** The effect of a batch on the contents of one column family. *)
Definition apply_op (cf : string) (m : gmap bytes bytes) (o : batch_op) : gmap bytes bytes :=
  match o with Put cf' k v => if decide (cf = cf') then <[k := v]> m else m end.
Definition apply_batch (cf : string) (m : gmap bytes bytes) (b : list batch_op) : gmap bytes bytes :=
  foldl (apply_op cf) m b.

(** What an iterator from [seek] must enumerate: the pairs whose key is at or
    after [seek] and has its first [n] bytes, in key order. *)
Definition key_le (x y : bytes * bytes) : Prop := bytes_le x.1 y.1.
#[global] Instance key_le_dec : RelDecision key_le.
Proof. intros x y. unfold key_le. apply _. Defined.
Definition scan (n : nat) (m : gmap bytes bytes) (seek : bytes) : list (bytes * bytes) :=
  merge_sort key_le
    (filter (λ kv, bytes_le seek kv.1 ∧ take n kv.1 = take n seek) (map_to_list m)).

(** Beyond the prefix of the seek key an iterator over a column family with a
    prefix extractor may return anything. *)
Definition outside {E} (n : nat) (seek : bytes) (l : list (result E (bytes * bytes))) : Prop :=
  match l with Ok (k, _) :: _ => take n k ≠ take n seek | _ => True end.

(** The length of the fixed prefix extractor configured for a column family, 0
    when there is none: the causal log configures one for [agent_ts]. *)
Definition prefix_len (cf : string) : nat := if decide (cf = "agent_ts") then 16 else 0.

(** Documented behaviour. *)
Class RocksLaws (R : RocksDB) := {
  db_cf : db → string → gmap bytes bytes;
  db_get_ok d cf k o : db_get d cf k = Ok o → o = db_cf d cf !! k;
  db_write_ok d sync b d' cf :
    db_write d sync b = (Ok (), d') → db_cf d' cf = apply_batch cf (db_cf d cf) b;
  (** A failed batch is applied as a whole or not at all. *)
  db_write_err d sync b e d' :
    db_write d sync b = (Err e, d') →
    (∀ cf, db_cf d' cf = db_cf d cf) ∨ (∀ cf, db_cf d' cf = apply_batch cf (db_cf d cf) b);
  db_flush_cf d r d' cf : db_flush d = (r, d') → db_cf d' cf = db_cf d cf;
  (** An iteration is complete, or an error ends it. *)
  db_iter_ok d cf seek :
    (∃ rest, db_iter d cf seek = (Ok <$> scan (prefix_len cf) (db_cf d cf) seek) ++ rest
             ∧ outside (prefix_len cf) seek rest)
    ∨ (∃ l e, l `prefix_of` scan (prefix_len cf) (db_cf d cf) seek
              ∧ db_iter d cf seek = (Ok <$> l) ++ [Err e]) }.

(** * Hashing and serialisation *)

Class Sha256 := sha256 : bytes → bytes.
Class Sha256Laws `(S : Sha256) := sha256_len b : length (sha256 b) = 32%nat.

(** [bincode::serialize] and [deserialize] at a type; [valid] is what the Rust
    type guarantees of a value (array lengths, integer widths). *)
Class Bincode (T : Type) := {
  bin_err : Type;
  ser : T → bytes;
  de : bytes → result bin_err T }.
Arguments bin_err T {_}.
Class BincodeLaws (T : Type) (valid : T → Prop) `{B : Bincode T} := {
  de_ser t : valid t → de (ser t) = Ok t;
  de_valid b t : de b = Ok t → valid t }.

(** [rmp_serde::to_vec] and [from_slice] at a type. *)
Class Msgpack (T : Type) := {
  mp_err : Type;
  mp_ser : T → bytes;
  mp_de : bytes → result mp_err T }.
Arguments mp_err T {_}.
Class MsgpackLaws (T : Type) (valid : T → Prop) `{M : Msgpack T} :=
  mp_de_ser t : valid t → mp_de (mp_ser t) = Ok t.
(** The encoding is a [Vec<u8>]: its length fits a machine word. *)
Class MsgpackSize (T : Type) (valid : T → Prop) `{M : Msgpack T} :=
  mp_ser_len t : valid t → (Z.of_nat (length (mp_ser t)) < 2 ^ 64)%Z.

Lemma ser_inj {T valid} `{BincodeLaws T valid} t u :
  valid t → valid u → ser t = ser u → t = u.
Proof.
  intros Ht Hu E. pose proof (de_ser t Ht) as Dt. rewrite E, (de_ser u Hu) in Dt. by simplify_eq.
Qed.

(** * Facts about scans and batches *)

Lemma elem_of_scan n m seek kv :
  kv ∈ scan n m seek ↔
  m !! kv.1 = Some kv.2 ∧ bytes_le seek kv.1 ∧ take n kv.1 = take n seek.
Proof.
  unfold scan. rewrite merge_sort_Permutation, list_elem_of_filter.
  destruct kv as [k v]. rewrite elem_of_map_to_list. cbn. tauto.
Qed.
Lemma NoDup_scan n m seek : NoDup (scan n m seek).*1.
Proof.
  unfold scan. rewrite merge_sort_Permutation.
  eapply (sublist_NoDup _ ((map_to_list m).*1)); [apply NoDup_fst_map_to_list|].
  apply fmap_sublist, sublist_filter.
Qed.
#[global] Instance key_le_trans : Transitive key_le.
Proof. intros x y z. unfold key_le. apply bytes_le_trans. Qed.
#[global] Instance key_le_total : Total key_le.
Proof. intros x y. unfold key_le. apply bytes_le_total. Qed.
Lemma StronglySorted_scan n m seek : StronglySorted key_le (scan n m seek).
Proof. apply StronglySorted_merge_sort; apply _. Qed.

(** A scan of a column family without prefix extractor, from the start. *)
Lemma elem_of_scan_all m kv : kv ∈ scan 0 m [] ↔ m !! kv.1 = Some kv.2.
Proof.
  rewrite elem_of_scan. split; [tauto|]. intros ?. split_and!; [done|apply bytes_le_nil_l|done].
Qed.

Section grows.
Context {R : RocksDB} `{!RocksLaws R}.

(** Nothing is ever removed. *)
Definition grows (d d' : db) : Prop :=
  ∀ cf k, is_Some (db_cf d cf !! k) → is_Some (db_cf d' cf !! k).
#[export] Instance grows_preorder : PreOrder grows.
Proof. split; [by intros d cf k|]. intros d1 d2 d3 H1 H2 cf k Hk. by apply H2, H1. Qed.

Lemma apply_batch_grows cf m b k : is_Some (m !! k) → is_Some (apply_batch cf m b !! k).
Proof.
  revert m. induction b as [|[cf' k' v'] b IH]; intros m Hm; cbn; [done|].
  apply IH. unfold apply_op. case_decide; [|done]. apply lookup_insert_is_Some'. by right.
Qed.
Lemma write_grows d sync b r d' : db_write d sync b = (r, d') → grows d d'.
Proof.
  intros Hw cf k Hk. destruct r as [[]|e].
  - rewrite (db_write_ok _ _ _ _ _ Hw). by apply apply_batch_grows.
  - destruct (db_write_err _ _ _ _ _ Hw) as [E|E]; rewrite E; [done|by apply apply_batch_grows].
Qed.

End grows.

(** An iteration over a whole column family that meets no error is a scan. *)
Lemma db_iter_all {R : RocksDB} `{!RocksLaws R} d cf :
  prefix_len cf = 0 → Forall (λ r, is_ok r = true) (db_iter d cf []) →
  db_iter d cf [] = Ok <$> scan 0 (db_cf d cf) [].
Proof.
  intros Hp Hall. destruct (db_iter_ok d cf []) as [(rest & E & Ho)|(l & e & _ & E)];
    rewrite E in *; rewrite ?Hp in *; apply Forall_app in Hall.
  - destruct rest as [|[[k v]|e] rest]; [apply app_nil_r|by destruct Ho|].
    destruct Hall as [_ Hr]. by inversion Hr.
  - destruct Hall as [_ Hr]. by inversion Hr.
Qed.

Lemma apply_batch_app cf m b1 b2 :
  apply_batch cf m (b1 ++ b2) = apply_batch cf (apply_batch cf m b1) b2.
Proof. apply foldl_app. Qed.

(** * Concrete instances *)

Module Mem.

(** A database in memory; a broken one fails every call. *)
Record mem_db := mkMem { mem_cfs : gmap string (gmap bytes bytes); mem_broken : bool }.
Definition mem_cf (d : mem_db) (cf : string) : gmap bytes bytes := default ∅ (mem_cfs d !! cf).
Definition mem_put (m : gmap string (gmap bytes bytes)) (o : batch_op) :=
  match o with Put cf k v => <[cf := <[k := v]> (default ∅ (m !! cf))]> m end.

#[global] Instance mem_rocks : RocksDB := {|
  db := mem_db;
  db_err := ();
  db_get d cf k := if mem_broken d then Err () else Ok (mem_cf d cf !! k);
  db_write d sync b :=
    if mem_broken d then (Err (), d) else (Ok (), mkMem (foldl mem_put (mem_cfs d) b) false);
  db_iter d cf seek :=
    if mem_broken d then [Err ()] else Ok <$> scan (prefix_len cf) (mem_cf d cf) seek;
  db_flush d := if mem_broken d then (Err (), d) else (Ok (), d) |}.

Definition empty_db : db := mkMem ∅ false.

Lemma mem_put_cf m o cf b :
  default ∅ (mem_put m o !! cf) = apply_op cf (mem_cf (mkMem m b) cf) o.
Proof.
  destruct o as [cf' k v]. unfold mem_cf. cbn. case_decide; subst.
  - by rewrite lookup_insert_eq.
  - by rewrite lookup_insert_ne.
Qed.
Lemma mem_write_cf b m cf :
  default ∅ (foldl mem_put m b !! cf) = apply_batch cf (default ∅ (m !! cf)) b.
Proof.
  revert m. induction b as [|o b IH]; intros m; cbn; [done|].
  unfold apply_batch in *. cbn. rewrite IH. f_equal. by rewrite (mem_put_cf m o cf false).
Qed.

#[global] Instance mem_rocks_laws : RocksLaws mem_rocks.
Proof.
  refine {| db_cf := mem_cf : @db mem_rocks → _ |}; cbn.
  - intros d cf k o. by destruct (mem_broken d); intros [= <-].
  - intros d sync b d' cf. destruct (mem_broken d); [done|]. intros [= <-].
    apply mem_write_cf.
  - intros d sync b e d'. destruct (mem_broken d); [|done]. intros [= _ <-]. by left.
  - intros d r d' cf. by destruct (mem_broken d); intros [= _ <-].
  - intros d cf seek. destruct (mem_broken d).
    + right. exists [], (). split; [apply prefix_nil|done].
    + left. exists []. by rewrite app_nil_r.
Defined.

(** A stand-in for SHA-256: a polynomial hash on 256 bits. *)
Definition toy_step (acc : Z) (b : byte) : Z := ((acc * 1000003 + b2z b + 1) `mod` 2 ^ 256)%Z.
#[global] Instance toy_sha : Sha256 := λ b,
  be_bytes 32 (foldl toy_step 0%Z b
    * 0x9E3779B97F4A7C15F39CC0605CEDC8341082276BF3A27251F86C6A11D0C18E95).
#[global] Instance toy_sha_laws : Sha256Laws toy_sha.
Proof. intros b. apply length_be_bytes. Defined.

(** ** Parsers for fixed layouts, used to build serialisation instances *)

Definition parser (A : Type) : Type := bytes → option (A * bytes).
#[global] Instance parser_ret : MRet parser := λ A a b, Some (a, b).
#[global] Instance parser_bind : MBind parser := λ A B f p b,
  match p b with Some (a, r) => f a r | None => None end.
Definition p_guard (P : Prop) `{Decision P} : parser () := λ b,
  if decide P then Some ((), b) else None.
Definition p_bytes (n : nat) : parser bytes := λ b,
  if decide (n ≤ length b) then Some (take n b, drop n b) else None.
Definition p_u64 : parser Z := b ← p_bytes 8; mret (of_le b).
Definition p_byte : parser byte := λ b,
  match b with x :: r => Some (x, r) | [] => None end.
Definition p_option {A} (p : parser A) : parser (option A) :=
  t ← p_byte; if decide (t = Byte.x00) then mret None else
  if decide (t = Byte.x01) then a ← p; mret (Some a) else (λ _, None) : parser _.
Fixpoint p_list {A} (n : nat) (p : parser A) : parser (list A) :=
  match n with O => mret [] | S n => a ← p; l ← p_list n p; mret (a :: l) end.
(** A count longer than the rest of the input cannot be satisfied. *)
Definition p_vec {A} (p : parser A) : parser (list A) :=
  mbind (M := parser) (λ n b,
    if decide (n ≤ Z.of_nat (length b))%Z then p_list (Z.to_nat n) p b else None) p_u64.
Definition run {A} (p : parser A) (b : bytes) : result () A :=
  match p b with Some (a, []) => Ok a | _ => Err () end.

Definition s_u64 (z : Z) : bytes := le_bytes 8 z.
Definition s_option {A} (s : A → bytes) (o : option A) : bytes :=
  match o with None => [Byte.x00] | Some a => Byte.x01 :: s a end.
Definition s_vec {A} (s : A → bytes) (l : list A) : bytes :=
  s_u64 (Z.of_nat (length l)) ++ (l ≫= s).

(** [p] reads back what [s] writes, on the values that satisfy [P]. *)
Definition reads {A} (P : A → Prop) (s : A → bytes) (p : parser A) : Prop :=
  ∀ a r, P a → p (s a ++ r) = Some (a, r).
(** Everything [p] reads satisfies [P]. *)
Definition yields {A} (P : A → Prop) (p : parser A) : Prop :=
  ∀ b a r, p b = Some (a, r) → P a.

Lemma reads_bytes n : reads (λ b, length b = n) id (p_bytes n).
Proof.
  intros b r Hb. unfold p_bytes. cbn. rewrite decide_True by (rewrite length_app; lia).
  by rewrite take_app_length', drop_app_length'.
Qed.
Lemma yields_bytes n : yields (λ b, length b = n) (p_bytes n).
Proof. intros b a r. unfold p_bytes. case_decide; [|done]. intros [= <- _]. rewrite length_take. lia. Qed.
Lemma reads_u64 : reads is_u64 s_u64 p_u64.
Proof.
  intros z r Hz. unfold p_u64, s_u64, mbind, parser_bind.
  pose proof (reads_bytes 8 (le_bytes 8 z) r (length_le_bytes 8 z)) as E. unfold id in E.
  rewrite E. unfold mret, parser_ret. by rewrite of_le_bytes_u64.
Qed.
Lemma yields_u64 : yields is_u64 p_u64.
Proof.
  intros b z r. unfold p_u64, mbind, parser_bind.
  destruct (p_bytes 8 b) as [[x r']|] eqn:E; [|done]. intros [= <- _].
  apply yields_bytes in E. unfold of_le, in_width.
  pose proof (of_be_range (reverse x)) as H. rewrite length_reverse, E in H. done.
Qed.
Lemma reads_option {A} P (s : A → bytes) p :
  reads P s p → reads (λ o, ∀ a, o = Some a → P a) (s_option s) (p_option p).
Proof.
  intros Hp [a|] r Ho; unfold p_option, mbind, parser_bind; cbn; [|done].
  rewrite decide_False, decide_True by done. by rewrite Hp by auto.
Qed.
Lemma yields_option {A} (P : A → Prop) p :
  yields P p → yields (λ o, ∀ a, o = Some a → P a) (p_option p).
Proof.
  intros Hp b o r. unfold p_option, mbind, parser_bind.
  destruct (p_byte b) as [[t b']|]; [|done]. repeat case_decide; try done.
  - intros [= <- _]. done.
  - destruct (p b') as [[a r']|] eqn:E; [|done]. intros [= <- _] a' [= <-]. by eapply Hp.
Qed.
Lemma reads_list {A} (P : A → Prop) s p l r :
  reads P s p → Forall P l → p_list (length l) p ((l ≫= s) ++ r) = Some (l, r).
Proof.
  intros Hp. revert r. induction l as [|a l IH]; intros r Hl; [done|].
  inversion Hl; subst. cbn. unfold mbind, parser_bind. rewrite <-(assoc_L (++)), Hp by done.
  change (list_bind A byte s l) with (l ≫= s). by rewrite IH.
Qed.
Lemma yields_list {A} (P : A → Prop) n (p : parser A) : yields P p → yields (Forall P) (p_list n p).
Proof.
  intros Hp. induction n as [|n IH]; cbn; intros b l r; [by intros [= <- _]|].
  unfold mbind, parser_bind. destruct (p b) as [[a b']|] eqn:E; [|done].
  destruct (p_list n p b') as [[l' r']|] eqn:E'; [|done].
  intros [= <- _]. constructor; [by eapply Hp|by eapply IH].
Qed.
(** Elements take at least one byte, so a count never exceeds the input. *)
Lemma reads_vec {A} (P : A → Prop) s p :
  reads P s p → (∀ a, P a → 1 ≤ length (s a)) →
  reads (λ l, Forall P l ∧ (Z.of_nat (length l) < 2 ^ 64)%Z) (s_vec s) (p_vec p).
Proof.
  intros Hp H1 l r [Hl Hn]. unfold p_vec, s_vec, mbind, parser_bind. rewrite <-(assoc_L (++)).
  rewrite reads_u64 by (unfold in_width; lia).
  rewrite decide_True.
  - rewrite Nat2Z.id. by apply (reads_list P).
  - rewrite length_app. clear Hn. induction Hl as [|a l Ha Hl IH]; cbn; [lia|].
    specialize (H1 a Ha). rewrite length_app. cbn in *. lia.
Qed.
Lemma length_p_list {A} n (p : parser A) : yields (λ l, length l = n) (p_list n p).
Proof.
  induction n as [|n IH]; cbn; intros b l r; [by intros [= <- _]|].
  unfold mbind, parser_bind. destruct (p b) as [[a b']|]; [|done].
  destruct (p_list n p b') as [[l' r']|] eqn:E'; [|done].
  intros [= <- _]. cbn. f_equal. by eapply IH.
Qed.
Lemma yields_vec {A} (P : A → Prop) (p : parser A) :
  yields P p → yields (λ l, Forall P l ∧ (Z.of_nat (length l) < 2 ^ 64)%Z) (p_vec p).
Proof.
  intros Hp b l r. unfold p_vec, mbind, parser_bind.
  destruct (p_u64 b) as [[n b']|] eqn:E; [|done]. case_decide; [|done]. intros Hl.
  split; [by eapply yields_list|]. apply length_p_list in Hl. apply yields_u64 in E.
  unfold in_width in E. lia.
Qed.
Lemma run_reads {A} P (s : A → bytes) p a : reads P s p → P a → run p (s a) = Ok a.
Proof. intros Hp Ha. unfold run. rewrite <-(app_nil_r (s a)), Hp by done. done. Qed.
Lemma run_yields {A} (P : A → Prop) p b a : yields P p → run p b = Ok a → P a.
Proof. intros Hp. unfold run. destruct (p b) as [[x [|]]|] eqn:E; [|done..]. intros [= <-]. by eapply Hp. Qed.

End Mem.
