(* ===== verification/ContentStore.v ===== *)
(** ContentStore: the content-addressed snapshot store of the crate [poc/store].

    [ContentStore] is a database with the column families "blocks" (key: hash of
    the value) and "headers" (key: hash of the encoded header, value: the encoded
    [SnapshotHeader]).  The operations pass the database explicitly.  The theorems
    are proved against the interfaces of Storage.v: content addressing is an
    invariant of every sequence of writes, reads return what was written, and
    [rollback_path] terminates and computes the parent chain down to the target. *)
From S2P Require Import Prelude Storage.

Module Store.

Abbreviation BlockHash := bytes.

Record SnapshotHeader := mkHeader {
  data_hash : BlockHash;
  parent : option BlockHash;
  seq : Z;
  ts_us : Z }.
#[global] Instance header_settable : Settable SnapshotHeader := λ h,
  mkHeader (data_hash h) (parent h) (seq h) (ts_us h).
#[global] Instance header_eq_dec : EqDecision SnapshotHeader.
Proof. solve_decision. Defined.

(** What the Rust types guarantee: 32-byte hashes and 64-bit integers. *)
Definition header_ok (h : SnapshotHeader) : Prop :=
  length (data_hash h) = 32 ∧ (∀ p, parent h = Some p → length p = 32)
  ∧ is_u64 (seq h) ∧ is_u64 (ts_us h).

Inductive StoreError (rocks bincode : Type) :=
| Rocks (e : rocks)
| Deserialize (e : bincode)
| MissingBlock (h : BlockHash)
| NoParent (h : BlockHash)
| TargetBeyondHistory (current_seq target_seq : Z).
Arguments Rocks {_ _} _.
Arguments Deserialize {_ _} _.
Arguments MissingBlock {_ _} _.
Arguments NoParent {_ _} _.
Arguments TargetBeyondHistory {_ _} _ _.

Section ops.
Context `{R : RocksDB, H256 : Sha256, B : Bincode SnapshotHeader}.

Abbreviation store_error := (StoreError db_err (bin_err SnapshotHeader)).

Definition snapshot_id (h : SnapshotHeader) : BlockHash := sha256 (ser h).
Definition hash_data (data : bytes) : BlockHash := sha256 data.

Definition put_cf (d : db) (cf : string) (k v : bytes) : result db_err () * db :=
  db_write d false [Put cf k v].

Definition put_block (d : db) (data : bytes) : result store_error BlockHash * db :=
  let h := hash_data data in
  match put_cf d "blocks" h data with
  | (Ok _, d) => (Ok h, d)
  | (Err e, d) => (Err (Rocks e), d)
  end.

Definition put_snapshot (d : db) (header : SnapshotHeader) : result store_error BlockHash * db :=
  let id := snapshot_id header in
  match put_cf d "headers" id (ser header) with
  | (Ok _, d) => (Ok id, d)
  | (Err e, d) => (Err (Rocks e), d)
  end.

Definition get_block (d : db) (hash : BlockHash) : result store_error (option bytes) :=
  map_err Rocks (db_get d "blocks" hash).

Definition get_header (d : db) (id : BlockHash) : result store_error (option SnapshotHeader) :=
  o ← map_err Rocks (db_get d "headers" id);
  match o with
  | None => Ok None
  | Some b => h ← map_err Deserialize (de b); Ok (Some h)
  end.

Definition has_snapshot (d : db) (id : BlockHash) : result store_error bool :=
  (λ o : option bytes, bool_decide (is_Some o)) <$> map_err Rocks (db_get d "headers" id).

(** The loop of [rollback_path]; [None] is running out of fuel. *)
Fixpoint rollback_loop (fuel : nat) (d : db) (path : list BlockHash)
    (current : BlockHash) (target_seq : Z) : option (result store_error (list BlockHash)) :=
  match fuel with
  | O => None
  | S fuel =>
      match o ← get_header d current; ok_or (MissingBlock current) o with
      | Err e => Some (Err e)
      | Ok header =>
          let path := path ++ [current] in
          if (seq header =? target_seq)%Z then Some (Ok path)
          else if (seq header <? target_seq)%Z then
            Some (Err (TargetBeyondHistory (seq header) target_seq))
          else match ok_or (NoParent current) (parent header) with
               | Err e => Some (Err e)
               | Ok p => rollback_loop fuel d path p target_seq
               end
      end
  end.

(** One step per sequence number between the tip and the target. *)
Definition rollback_fuel (d : db) (tip : BlockHash) (target_seq : Z) : nat :=
  match get_header d tip with
  | Ok (Some h) => S (Z.to_nat (seq h - target_seq))
  | _ => 1
  end.
Definition rollback_path (d : db) (tip : BlockHash) (target_seq : Z)
    : option (result store_error (list BlockHash)) :=
  rollback_loop (rollback_fuel d tip target_seq) d [] tip target_seq.

Definition iter_header_data_hashes (d : db) : list BlockHash :=
  omap (λ r, '(_, value) ← result_ok r; data_hash <$> result_ok (de value))
    (db_iter d "headers" []).

Definition iter_block_hashes (d : db) : list BlockHash :=
  omap (λ r, '(key, _) ← result_ok r; if decide (length key = 32) then Some key else None)
    (db_iter d "blocks" []).

(** The loop of [build_chain] over the sequence numbers still to write. *)
Fixpoint build_chain_loop (d : db) (data_h : BlockHash) (par : option BlockHash)
    (tip : BlockHash) (seqs : list Z) : result store_error BlockHash * db :=
  match seqs with
  | [] => (Ok tip, d)
  | s :: seqs =>
      let header := mkHeader data_h par s (u64 (s * 1000000)) in
      match put_snapshot d header with
      | (Err e, d) => (Err e, d)
      | (Ok tip, d) => build_chain_loop d data_h (Some tip) tip seqs
      end
  end.
Definition build_chain (d : db) (n : Z) (block_size : nat) : result store_error BlockHash * db :=
  match put_block d (replicate block_size Byte.xab) with
  | (Err e, d) => (Err e, d)
  | (Ok data_h, d) =>
      build_chain_loop d data_h None (replicate 32 Byte.x00) (seqZ 0 n)
  end.

End ops.

(** ** Reads and writes against the contents of the database *)

Section laws.
Context `{R : RocksDB, !RocksLaws R, H256 : Sha256, B : Bincode SnapshotHeader,
          !BincodeLaws SnapshotHeader header_ok}.

Lemma put_cf_spec d cf k v r d' cf' :
  put_cf d cf k v = (r, d') →
  db_cf d' cf' = (if decide (cf' = cf) then <[k := v]> (db_cf d cf') else db_cf d cf')
  ∨ (r ≠ Ok () ∧ db_cf d' cf' = db_cf d cf').
Proof.
  unfold put_cf. destruct r as [[]|e]; intros Hw.
  - left. by rewrite (db_write_ok _ _ _ _ _ Hw).
  - destruct (db_write_err _ _ _ _ _ Hw) as [E|E]; [right|left]; by rewrite E.
Qed.

(** The cell that a write of [v] under its hash may change. *)
Lemma put_cf_lookup d cf k v r d' cf' k' v' :
  put_cf d cf k v = (r, d') → db_cf d' cf' !! k' = Some v' →
  db_cf d cf' !! k' = Some v' ∨ (cf' = cf ∧ k' = k ∧ v' = v).
Proof.
  intros [E|[_ E]]%(put_cf_spec _ _ _ _ _ _ cf'); rewrite E; [|auto].
  case_decide; [|auto]. intros [[<- <-]|[? ?]]%lookup_insert_Some; auto.
Qed.

Lemma put_block_inv d data r d' :
  put_block d data = (r, d') →
  ∃ r', put_cf d "blocks" (sha256 data) data = (r', d')
        ∧ (∀ h, r = Ok h → h = sha256 data ∧ r' = Ok ()).
Proof.
  unfold put_block, hash_data. destruct (put_cf _ _ _ _) as [[[]|e] d1];
    intros [= <- <-]; eexists; split; try done; by intros h [= ->].
Qed.
Lemma put_snapshot_inv d h r d' :
  put_snapshot d h = (r, d') →
  ∃ r', put_cf d "headers" (snapshot_id h) (ser h) = (r', d')
        ∧ (∀ id, r = Ok id → id = snapshot_id h ∧ r' = Ok ()).
Proof.
  unfold put_snapshot. destruct (put_cf _ _ _ _) as [[[]|e] d1];
    intros [= <- <-]; eexists; split; try done; by intros x [= ->].
Qed.

Lemma put_block_written d data h d' :
  put_block d data = (Ok h, d') →
  h = sha256 data ∧ grows d d' ∧ is_Some (db_cf d' "blocks" !! h).
Proof.
  unfold put_block, put_cf, hash_data.
  destruct (db_write _ _ _) as [[[]|] d1] eqn:Hw; [|done]. intros [= <- <-].
  split_and!; [done|by eapply write_grows|]. rewrite (db_write_ok _ _ _ _ _ Hw).
  exists data. apply lookup_insert_eq.
Qed.
Lemma put_snapshot_written d h id d' :
  put_snapshot d h = (Ok id, d') →
  id = snapshot_id h ∧ grows d d' ∧ is_Some (db_cf d' "headers" !! id).
Proof.
  unfold put_snapshot, put_cf.
  destruct (db_write _ _ _) as [[[]|] d1] eqn:Hw; [|done]. intros [= <- <-].
  split_and!; [done|by eapply write_grows|]. rewrite (db_write_ok _ _ _ _ _ Hw).
  exists (ser h). apply lookup_insert_eq.
Qed.
Lemma get_header_Some d id h :
  get_header d id = Ok (Some h) →
  ∃ b, db_cf d "headers" !! id = Some b ∧ de b = Ok h.
Proof.
  unfold get_header. destruct (db_get d "headers" id) as [[b|]|] eqn:E; cbn; try done.
  apply db_get_ok in E. destruct (de b) eqn:Eb; cbn; [|done]. intros [= ->]. eauto.
Qed.
Lemma get_header_fetched d id b h o :
  db_cf d "headers" !! id = Some b → de b = Ok h → get_header d id = Ok o → o = Some h.
Proof.
  unfold get_header. intros Hb Hd. destruct (db_get d "headers" id) as [o'|] eqn:E; [|done].
  apply db_get_ok in E. cbn. subst. rewrite Hb, Hd. cbn. congruence.
Qed.

(** ** Content addressing *)

(** Every block is stored under its hash, every header under the hash of its
    encoding. *)
Record addressed (d : db) : Prop := {
  addr_block k v : db_cf d "blocks" !! k = Some v → k = sha256 v;
  addr_header k v : db_cf d "headers" !! k = Some v →
    ∃ h, header_ok h ∧ v = ser h ∧ k = snapshot_id h }.

Inductive store_step : relation db :=
| step_put_block d data r d' : put_block d data = (r, d') → store_step d d'
| step_put_snapshot d h r d' : header_ok h → put_snapshot d h = (r, d') → store_step d d'.

Lemma store_step_addressed d d' : store_step d d' → addressed d → addressed d'.
Proof.
  intros Hs [Hb Hh]. destruct Hs as [d data r d' (r' & Hp & _)%put_block_inv
    |d h r d' Hok (r' & Hp & _)%put_snapshot_inv]; split; intros k v Hk;
    destruct (put_cf_lookup _ _ _ _ _ _ _ _ _ Hp Hk) as [?|(? & -> & ->)]; try done; eauto.
Qed.
Lemma store_steps_addressed d d' : rtc store_step d d' → addressed d → addressed d'.
Proof. induction 1; eauto using store_step_addressed. Qed.

Lemma store_step_keeps d d' cf k v :
  store_step d d' → db_cf d cf !! k = Some v → is_Some (db_cf d' cf !! k).
Proof.
  intros Hs Hk. assert (∃ cf1 k1 v1 r1, put_cf d cf1 k1 v1 = (r1, d')) as (cf1 & k1 & v1 & r1 & Hp).
  { destruct Hs as [? ? ? ? (? & ? & _)%put_block_inv|? ? ? ? _ (? & ? & _)%put_snapshot_inv]; eauto. }
  destruct (put_cf_spec _ _ _ _ _ _ cf Hp) as [E|[_ E]]; rewrite E; [|by eauto].
  case_decide; [|by eauto]. apply lookup_insert_is_Some'. eauto.
Qed.

(** ** Rollback *)

Abbreviation store_error := (StoreError db_err (bin_err SnapshotHeader)).

(** The walk up the parent links from a snapshot: the specification of
    [rollback_path], for every way it can end. *)
Inductive walk (d : db) (t : Z) : BlockHash → result store_error (list BlockHash) → Prop :=
| walk_read_error id e : get_header d id = Err e → walk d t id (Err e)
| walk_missing id : get_header d id = Ok None → walk d t id (Err (MissingBlock id))
| walk_here id h : get_header d id = Ok (Some h) → seq h = t → walk d t id (Ok [id])
| walk_beyond id h :
    get_header d id = Ok (Some h) → (seq h < t)%Z →
    walk d t id (Err (TargetBeyondHistory (seq h) t))
| walk_root id h :
    get_header d id = Ok (Some h) → (t < seq h)%Z → parent h = None →
    walk d t id (Err (NoParent id))
| walk_up id h p r :
    get_header d id = Ok (Some h) → (t < seq h)%Z → parent h = Some p → walk d t p r →
    walk d t id (cons id <$> r).

(** Sequence numbers decrease towards the root. *)
Definition seq_decreasing (d : db) : Prop :=
  ∀ id h p hp, get_header d id = Ok (Some h) → parent h = Some p →
    get_header d p = Ok (Some hp) → (seq hp < seq h)%Z.

Lemma rollback_loop_walk fuel d path id t r :
  rollback_loop fuel d path id t = Some r →
  ∃ r', walk d t id r' ∧ r = (app path <$> r').
Proof.
  revert path id. induction fuel as [|fuel IH]; intros path id; cbn; [done|].
  destruct (get_header d id) as [[h|]|e] eqn:E; cbn;
    [|by intros [= <-]; eexists; split; [by constructor|]..].
  destruct (Z.eqb_spec (seq h) t).
  { intros [= <-]. exists (Ok [id]). split; [by econstructor|done]. }
  destruct (Z.ltb_spec (seq h) t).
  { intros [= <-]. eexists. split; [by eapply walk_beyond|done]. }
  destruct (parent h) as [p|] eqn:Ep; cbn.
  - intros (r' & Hw & ->)%IH. exists (cons id <$> r'). split; [eapply walk_up; eauto; lia|].
    destruct r'; cbn; [|done]. by rewrite <-(assoc_L (++)).
  - intros [= <-]. eexists. split; [eapply walk_root; eauto; lia|done].
Qed.

Lemma walk_loop d t id r path :
  seq_decreasing d → walk d t id r →
  rollback_loop (rollback_fuel d id t) d path id t = Some (app path <$> r).
Proof.
  intros Hdec Hw. unfold rollback_fuel.
  assert (∀ fuel, (∀ h, get_header d id = Ok (Some h) → Z.to_nat (seq h - t) < fuel) →
    0 < fuel → rollback_loop fuel d path id t = Some (app path <$> r)) as Hloop.
  { revert path. induction Hw as [id e E|id E|id h E Hs|id h E Hs|id h E Hs Hp|id h p r E Hs Hp Hw IH];
      intros path [|fuel] Hf H0; try lia; cbn; rewrite E; cbn; [done|done|..].
    - by rewrite Hs, Z.eqb_refl.
    - by destruct (Z.eqb_spec (seq h) t), (Z.ltb_spec (seq h) t); try lia.
    - destruct (Z.eqb_spec (seq h) t), (Z.ltb_spec (seq h) t); try lia. by rewrite Hp.
    - destruct (Z.eqb_spec (seq h) t), (Z.ltb_spec (seq h) t); try lia. rewrite Hp. cbn.
      specialize (Hf h E). rewrite IH; [|intros hp Ehp; specialize (Hdec _ _ _ _ E Hp Ehp); lia|lia].
      destruct r; cbn; [|done]. by rewrite <-(assoc_L (++)). }
  apply Hloop; [|destruct (get_header d id) as [[]|]; lia].
  intros h ->. lia.
Qed.

Lemma walk_total d t id : seq_decreasing d → ∃ r, walk d t id r.
Proof.
  intros Hdec. destruct (get_header d id) as [[h|]|e] eqn:E; [|eexists; by constructor..].
  remember (Z.to_nat (seq h - t)) as n eqn:En.
  revert id h E En. induction (lt_wf n) as [n _ IH]; intros id h E En.
  destruct (Z.lt_trichotomy (seq h) t) as [?|[?|?]];
    [eexists; by eapply walk_beyond|eexists; by eapply walk_here|].
  destruct (parent h) as [p|] eqn:Ep; [|eexists; by eapply walk_root].
  destruct (get_header d p) as [[hp|]|e] eqn:Eph;
    [|eexists; eapply walk_up; eauto; by constructor..].
  destruct (IH (Z.to_nat (seq hp - t))) with (id := p) (h := hp) as [r Hr]; try done.
  { specialize (Hdec _ _ _ _ E Ep Eph). lia. }
  eexists. by eapply walk_up.
Qed.

Lemma rollback_path_walk d tip t r :
  seq_decreasing d → rollback_path d tip t = Some r ↔ walk d t tip r.
Proof.
  intros Hdec. split.
  - intros (r' & Hw & ->)%rollback_loop_walk. by destruct r'.
  - intros Hw. unfold rollback_path. rewrite (walk_loop _ _ _ _ [] Hdec Hw). by destruct r.
Qed.

(** A successful walk ends at a stored snapshot with the target number. *)
Lemma walk_last d t id r l :
  walk d t id r → r = Ok l → ∃ x h, last l = Some x ∧ get_header d x = Ok (Some h) ∧ seq h = t.
Proof.
  intros Hw. revert l. induction Hw as [ | |id h E Hs| | |id h p r E Hs Hp Hw IH]; intros l; try done.
  - intros [= <-]. eauto.
  - destruct r as [l'|]; [|done]. intros [= <-]. destruct (IH l' eq_refl) as (x & hx & El & ? & ?).
    exists x, hx. split; [|done]. rewrite last_cons, El. done.
Qed.
Lemma rollback_path_last d tip t l :
  rollback_path d tip t = Some (Ok l) →
  ∃ x h, last l = Some x ∧ get_header d x = Ok (Some h) ∧ seq h = t.
Proof.
  intros (r & Hw & E)%rollback_loop_walk. destruct r as [l'|]; [|done]. cbn in E.
  injection E as ->. by eapply walk_last.
Qed.
Lemma walk_Ok_header d t id l :
  walk d t id (Ok l) → ∃ h, get_header d id = Ok (Some h).
Proof. inversion 1; eauto. Qed.
(** What a successful walk returns. *)
Lemma walk_Ok d t id l :
  walk d t id (Ok l) →
  ∃ l', l = id :: l' ∧
    ∀ h, get_header d id = Ok (Some h) →
      seq_decreasing d → (Z.of_nat (length l') ≤ seq h - t)%Z.
Proof.
  intros Hw. remember (Ok l) as r eqn:Er. revert l Er.
  induction Hw as [ | |id h E Hs| | |id h p r E Hs Hp Hw IH]; intros l Er; try done.
  - simplify_eq. exists []. split; [done|]. intros h' Hh' _. cbn. rewrite E in Hh'. simplify_eq. lia.
  - destruct r as [l1|]; cbn in Er; [|done]. simplify_eq. exists l1. split; [done|].
    destruct (IH l1 eq_refl) as (l2 & -> & Hlen). intros h' Hh' Hdec. rewrite E in Hh'. simplify_eq.
    destruct (walk_Ok_header _ _ _ _ Hw) as [hp Ehp].
    specialize (Hlen hp Ehp Hdec). specialize (Hdec _ _ _ _ E Hp Ehp). cbn. lia.
Qed.

(** Every parent link leads to a stored header with a smaller number. *)
Definition header_at (d : db) (id : BlockHash) (h : SnapshotHeader) : Prop :=
  ∃ b, db_cf d "headers" !! id = Some b ∧ de b = Ok h.
Definition linked (d : db) : Prop :=
  ∀ id h p, header_at d id h → parent h = Some p →
    ∃ hp, header_at d p hp ∧ (seq hp < seq h)%Z.

Lemma linked_decreasing d : linked d → seq_decreasing d.
Proof.
  intros Hl id h p hp E%get_header_Some Ep Eph.
  destruct (Hl id h p E Ep) as (hp' & (b & Hb & Hd) & ?).
  pose proof (get_header_fetched _ _ _ _ _ Hb Hd Eph). by simplify_eq.
Qed.

(** ** Properties *)

Definition empty_store (d : db) : Prop :=
  db_cf d "blocks" = ∅ ∧ db_cf d "headers" = ∅.
Lemma empty_addressed d : empty_store d → addressed d.
Proof. intros [Hb Hh]. split; intros k v; [rewrite Hb|rewrite Hh]; by rewrite lookup_empty. Qed.
Lemma steps_keep d d' cf k v :
  rtc store_step d d' → db_cf d cf !! k = Some v → is_Some (db_cf d' cf !! k).
Proof.
  intros Hs. revert v. induction Hs; intros v Hk; [by eauto|].
  edestruct store_step_keeps as [v' Hv']; eauto.
Qed.

(** C38: content addressing is an invariant: in every store that a sequence of
    block and snapshot writes, failed ones included, makes of an empty one, a
    block read under [h] hashes to [h], and a header read under [id] has [id]
    as its identifier. *)
Theorem store_content_addressed d0 d :
  empty_store d0 → rtc store_step d0 d →
  (∀ h data, get_block d h = Ok (Some data) → hash_data data = h)
  ∧ (∀ id h, get_header d id = Ok (Some h) → snapshot_id h = id).
Proof.
  intros H0 Hs. destruct (store_steps_addressed _ _ Hs (empty_addressed _ H0)) as [Hb Hh]. split.
  - intros h data. unfold get_block. destruct (db_get d "blocks" h) eqn:E; cbn; [|done].
    intros [= ->]. apply db_get_ok in E. symmetry. by apply Hb.
  - intros id h (b & Hb' & Hd)%get_header_Some. destruct (Hh id b Hb') as (h' & Hok & -> & ->).
    rewrite de_ser in Hd by done. by simplify_eq.
Qed.

(** A snapshot that was put and is read after any further writes is the
    header that was put, unless the two encodings are a collision of the hash. *)
Theorem put_snapshot_durable d h id d1 d2 o :
  addressed d → header_ok h →
  put_snapshot d h = (Ok id, d1) → rtc store_step d1 d2 → get_header d2 id = Ok o →
  ∃ h', o = Some h' ∧ (h' = h ∨ ser h' ≠ ser h ∧ sha256 (ser h') = sha256 (ser h)).
Proof.
  intros Ha Hok Hput Hs Hget.
  assert (addressed d2) as [_ Hh].
  { eapply store_steps_addressed; [|done]. eapply rtc_l; [by eapply step_put_snapshot|done]. }
  apply put_snapshot_inv in Hput as (r' & Hp & Hr). destruct (Hr id eq_refl) as [-> ->].
  destruct (put_cf_spec _ _ _ _ _ _ "headers" Hp) as [E|[[] _]]; [|done].
  destruct (steps_keep d1 d2 "headers" (snapshot_id h) (ser h) Hs) as [b Hb].
  { rewrite E. by rewrite decide_True, lookup_insert_eq. }
  destruct (Hh _ _ Hb) as (h' & Hok' & -> & Eid).
  pose proof (get_header_fetched _ _ _ _ _ Hb (de_ser _ Hok') Hget) as ->.
  exists h'. split; [done|]. destruct (decide (h' = h)); [by left|right].
  split; [|by unfold snapshot_id in Eid]. intros ?. by destruct (ser_inj (valid := header_ok) h' h).
Qed.

(** [rollback_path] terminates on every store whose sequence numbers
    decrease along parent links, and its result is that of the walk up the
    parent links: the path from the tip down to the target, or the error of
    the first snapshot that cannot be read, is missing, has no parent, or is
    already below the target. *)
Theorem rollback_path_spec d tip t :
  seq_decreasing d →
  (∃ r, rollback_path d tip t = Some r)
  ∧ (∀ r, rollback_path d tip t = Some r ↔ walk d t tip r).
Proof.
  intros Hdec. split; [|intros r; by apply rollback_path_walk].
  destruct (walk_total d t tip Hdec) as [r Hr]. exists r. by apply rollback_path_walk.
Qed.

(** Writing a snapshot whose parent is stored with a smaller sequence number
    keeps the store linked, unless the new header collides with a stored one. *)
Lemma linked_put_snapshot d h r d' :
  linked d → header_ok h →
  (∀ b, db_cf d "headers" !! snapshot_id h = Some b → b = ser h) →
  (∀ p, parent h = Some p → ∃ hp, header_at d p hp ∧ (seq hp < seq h)%Z) →
  put_snapshot d h = (r, d') → linked d'.
Proof.
  intros Hl Hok Hfresh Hpar (r' & Hp & _)%put_snapshot_inv id h' p (b & Hb & Hd) Hpp.
  assert (∃ hp, header_at d p hp ∧ (seq hp < seq h')%Z) as (hp & (bp & Hbp & Hdp) & Hlt).
  { destruct (put_cf_lookup _ _ _ _ _ _ _ _ _ Hp Hb) as [?|(_ & -> & ->)].
    - by eapply Hl; [eexists|].
    - rewrite de_ser in Hd by done. simplify_eq. by apply Hpar. }
  exists hp. split; [|done]. exists bp. split; [|done].
  destruct (put_cf_spec _ _ _ _ _ _ "headers" Hp) as [E|[_ E]]; rewrite E; [|done].
  rewrite decide_True by done. destruct (decide (p = snapshot_id h)) as [->|].
  - rewrite lookup_insert_eq. f_equal. symmetry. by apply Hfresh.
  - by rewrite lookup_insert_ne.
Qed.

(** When the iterations meet no read error, the mark phase of the garbage
    collector sees exactly the data hashes of the stored headers, and the sweep
    phase exactly the 32-byte keys of the stored blocks. *)
Theorem gc_iterators_exact d :
  Forall (λ r, is_ok r = true) (db_iter d "headers" []) →
  Forall (λ r, is_ok r = true) (db_iter d "blocks" []) →
  (∀ x, x ∈ iter_header_data_hashes d ↔ ∃ id h, header_at d id h ∧ data_hash h = x)
  ∧ (∀ x, x ∈ iter_block_hashes d ↔ length x = 32 ∧ is_Some (db_cf d "blocks" !! x)).
Proof.
  intros Hh%db_iter_all Hb%db_iter_all; [|done..]. split; intros x.
  - unfold iter_header_data_hashes. rewrite Hh, list_elem_of_omap. split.
    + intros (r & ([k v] & -> & Hkv%elem_of_scan_all)%list_elem_of_fmap & Hx). cbn in Hx.
      destruct (de v) as [h|] eqn:Ed; cbn in Hx; [|done]. simplify_eq.
      exists k, h. split; [|done]. by exists v.
    + intros (id & h & (b & Hb' & Hd) & <-). exists (Ok (id, b)).
      split; [|cbn; by rewrite Hd]. apply list_elem_of_fmap_2. by apply elem_of_scan_all.
  - unfold iter_block_hashes. rewrite Hb, list_elem_of_omap. split.
    + intros (r & ([k v] & -> & Hkv%elem_of_scan_all)%list_elem_of_fmap & Hx). cbn in Hx.
      case_decide; simplify_eq. eauto.
    + intros [Hl [v Hv]]. exists (Ok (x, v)). split; [|cbn; by rewrite decide_True].
      apply list_elem_of_fmap_2. by apply elem_of_scan_all.
Qed.

End laws.

(** ** A concrete store *)

Definition header_ser (h : SnapshotHeader) : bytes :=
  id (data_hash h) ++ Mem.s_option id (parent h) ++ Mem.s_u64 (seq h) ++ Mem.s_u64 (ts_us h).
Definition header_parser : Mem.parser SnapshotHeader :=
  d ← Mem.p_bytes 32; p ← Mem.p_option (Mem.p_bytes 32); s ← Mem.p_u64; t ← Mem.p_u64;
  mret (mkHeader d p s t).
#[global] Instance mem_header : Bincode SnapshotHeader := {|
  bin_err := (); ser := header_ser; de := Mem.run header_parser |}.

Lemma header_reads : Mem.reads header_ok header_ser header_parser.
Proof.
  intros [d p s t] r (Hd & Hp & Hs & Ht). unfold header_ser, header_parser, mbind, Mem.parser_bind.
  cbn [data_hash parent seq ts_us] in *. rewrite <-!(assoc_L (++)).
  rewrite (Mem.reads_bytes 32) by done.
  rewrite (Mem.reads_option _ _ _ (Mem.reads_bytes 32)) by done.
  by rewrite !Mem.reads_u64.
Qed.
Lemma header_yields : Mem.yields header_ok header_parser.
Proof.
  intros b h r. unfold header_parser, mbind, Mem.parser_bind.
  destruct (Mem.p_bytes 32 b) as [[d b1]|] eqn:E1; [|done].
  destruct (Mem.p_option _ b1) as [[p b2]|] eqn:E2; [|done].
  destruct (Mem.p_u64 b2) as [[s b3]|] eqn:E3; [|done].
  destruct (Mem.p_u64 b3) as [[t b4]|] eqn:E4; [|done]. intros [= <- _].
  split_and!; [by eapply Mem.yields_bytes
    |by eapply (Mem.yields_option _ _ (Mem.yields_bytes 32))|by eapply Mem.yields_u64..].
Qed.
#[global] Instance mem_header_laws : BincodeLaws SnapshotHeader header_ok.
Proof.
  split; [intros h Hh; by apply (Mem.run_reads header_ok), Hh; apply header_reads
         |intros b h; by apply Mem.run_yields, header_yields].
Defined.

(** One block and a chain of two snapshots of it. *)
Definition demo_data : bytes := [Byte.x01; Byte.x02; Byte.x03].
Definition demo_h0 : SnapshotHeader := mkHeader (hash_data demo_data) None 4 100.
Definition demo_h1 : SnapshotHeader :=
  mkHeader (hash_data demo_data) (Some (snapshot_id demo_h0)) 7 200.
Definition demo_s1 : db := (put_block Mem.empty_db demo_data).2.
Definition demo_s2 : db := (put_snapshot demo_s1 demo_h0).2.
Definition demo_s3 : db := (put_snapshot demo_s2 demo_h1).2.

Lemma demo_h0_ok : header_ok demo_h0.
Proof. by split_and!. Qed.
Lemma demo_h1_ok : header_ok demo_h1.
Proof. split_and!; [done| |done..]. intros p [= <-]. done. Qed.
Lemma demo_steps2 : rtc (store_step (R := Mem.mem_rocks)) Mem.empty_db demo_s2.
Proof.
  apply (rtc_l _ _ demo_s1).
  - by apply (step_put_block Mem.empty_db demo_data (Ok (hash_data demo_data)) demo_s1).
  - apply rtc_once. by apply (step_put_snapshot demo_s1 demo_h0 (Ok (snapshot_id demo_h0)) demo_s2 demo_h0_ok).
Qed.
Lemma demo_steps : rtc (store_step (R := Mem.mem_rocks)) Mem.empty_db demo_s3.
Proof.
  eapply rtc_r; [apply demo_steps2|].
  by apply (step_put_snapshot demo_s2 demo_h1 (Ok (snapshot_id demo_h1)) demo_s3 demo_h1_ok).
Qed.
Lemma demo_s1_headers : db_cf demo_s1 "headers" = ∅.
Proof. vm_compute. reflexivity. Qed.
Lemma demo_s2_fresh : db_cf demo_s2 "headers" !! snapshot_id demo_h1 = None.
Proof. vm_compute. reflexivity. Qed.
Lemma demo_linked : linked demo_s3.
Proof.
  eapply (linked_put_snapshot demo_s2 demo_h1);
    [|by apply demo_h1_ok| | |apply surjective_pairing].
  - eapply (linked_put_snapshot demo_s1 demo_h0);
      [|by apply demo_h0_ok| |done|apply surjective_pairing].
    + intros id h p (b & Hb & _). by rewrite demo_s1_headers in Hb.
    + intros b Hb. by rewrite demo_s1_headers in Hb.
  - intros b Hb. by rewrite demo_s2_fresh in Hb.
  - intros p [= <-]. exists demo_h0. split; [|done]. exists (ser demo_h0). by split; vm_compute.
Qed.

Lemma store_content_addressed_witness :
  (∀ h data, get_block demo_s3 h = Ok (Some data) → hash_data data = h)
  ∧ (∀ id h, get_header demo_s3 id = Ok (Some h) → snapshot_id h = id).
Proof.
  exact (store_content_addressed Mem.empty_db demo_s3 (conj eq_refl eq_refl) demo_steps).
Defined.
Lemma put_snapshot_durable_witness :
  ∃ h', Some demo_h1 = Some h' ∧
    (h' = demo_h1 ∨ ser h' ≠ ser demo_h1 ∧ sha256 (ser h') = sha256 (ser demo_h1)).
Proof.
  eapply (put_snapshot_durable demo_s2 demo_h1 (snapshot_id demo_h1) demo_s3 demo_s3).
  - eapply (store_steps_addressed Mem.empty_db); [apply demo_steps2|by apply empty_addressed].
  - apply demo_h1_ok.
  - reflexivity.
  - reflexivity.
  - vm_compute. reflexivity.
Defined.
Lemma rollback_path_spec_witness :
  (∃ r, rollback_path demo_s3 (snapshot_id demo_h1) 4 = Some r)
  ∧ (∀ r, rollback_path demo_s3 (snapshot_id demo_h1) 4 = Some r
          ↔ walk demo_s3 4 (snapshot_id demo_h1) r).
Proof.
  exact (rollback_path_spec demo_s3 (snapshot_id demo_h1) 4 (linked_decreasing _ demo_linked)).
Defined.
Lemma gc_iterators_exact_witness :
  (∀ x, x ∈ iter_header_data_hashes demo_s3 ↔
     ∃ id h, header_at demo_s3 id h ∧ data_hash h = x)
  ∧ (∀ x, x ∈ iter_block_hashes demo_s3 ↔ length x = 32 ∧ is_Some (db_cf demo_s3 "blocks" !! x)).
Proof.
  apply (gc_iterators_exact demo_s3); apply Forall_forall; vm_compute; set_solver.
Defined.

Example demo_rollback :
  rollback_path demo_s3 (snapshot_id demo_h1) 4 = Some (Ok [snapshot_id demo_h1; snapshot_id demo_h0])
  ∧ rollback_path demo_s3 (snapshot_id demo_h1) 5 = Some (Err (TargetBeyondHistory 4 5)).
Proof. by vm_compute. Qed.

End Store.
