(* ===== verification/CausalLog.v ===== *)
(** CausalLog: the append-only causal log of the crate [poc/causal-log].

    The log is a database with the column family "default" (key: hash of the
    encoded entry) and the secondary index "agent_ts" (key: agent, big-endian
    timestamp, action id; empty value), written in one batch.  The abstract
    specification of the log is the list of the entries appended to it
    ([represents]); the theorems show that each operation refines it: an append
    adds an entry to both column families, a lookup finds it, and a range query
    returns exactly the actions of the agent in the interval, in time order. *)
From S2P Require Import Prelude Storage.

Module Log.

Abbreviation ActionId := bytes.
Abbreviation AgentId := bytes.
Abbreviation StateHash := bytes.

(** ** Emissions *)

Inductive EmitType :=
| ActionResult | StateDelta | Event | Proposal | Lifecycle | Introspect
| SelfRollback | ValidationRequest | ValidationResponse | SessionBoundary
| SchedulerRollback | InferenceRequest | InferenceResponse | InferenceCancelled
| InferenceFailed | CompensationOpen | CompensationClose | AgentCrash
| CapabilityDenied.
#[global] Instance EmitType_eq_dec : EqDecision EmitType.
Proof. solve_decision. Defined.

(** [emit_type as u8] *)
Definition emit_u8 (t : EmitType) : Z :=
  match t with
  | ActionResult => 0x01 | StateDelta => 0x02 | Event => 0x03 | Proposal => 0x04
  | Lifecycle => 0x05 | Introspect => 0x06 | SelfRollback => 0x07
  | ValidationRequest => 0x08 | ValidationResponse => 0x09 | SessionBoundary => 0x0A
  | SchedulerRollback => 0x0B | InferenceRequest => 0x0C | InferenceResponse => 0x0D
  | InferenceCancelled => 0x0E | InferenceFailed => 0x0F | CompensationOpen => 0x11
  | CompensationClose => 0x12 | AgentCrash => 0x13 | CapabilityDenied => 0x14
  end.

Definition try_from (v : Z) : result Z EmitType :=
  match v with
  | 0x01 => Ok ActionResult
  | 0x02 => Ok StateDelta
  | 0x03 => Ok Event
  | 0x04 => Ok Proposal
  | 0x05 => Ok Lifecycle
  | 0x06 => Ok Introspect
  | 0x07 => Ok SelfRollback
  | 0x08 => Ok ValidationRequest
  | 0x09 => Ok ValidationResponse
  | 0x0A => Ok SessionBoundary
  | 0x0B => Ok SchedulerRollback
  | 0x0C => Ok InferenceRequest
  | 0x0D => Ok InferenceResponse
  | 0x0E => Ok InferenceCancelled
  | 0x0F => Ok InferenceFailed
  | 0x11 => Ok CompensationOpen
  | 0x12 => Ok CompensationClose
  | 0x13 => Ok AgentCrash
  | 0x14 => Ok CapabilityDenied
  | other => Err other
  end%Z.

Record EmitEnvelope := mkEnvelope {
  env_version : Z;
  env_emit_type : Z;
  env_agent_id : AgentId;
  env_seq : Z;
  env_ts_us : Z;
  env_payload : bytes }.
#[global] Instance EmitEnvelope_eq_dec : EqDecision EmitEnvelope.
Proof. solve_decision. Defined.

Definition envelope_ok (e : EmitEnvelope) : Prop :=
  in_width 8 (env_version e) ∧ in_width 8 (env_emit_type e) ∧ length (env_agent_id e) = 16
  ∧ is_u64 (env_seq e) ∧ is_u64 (env_ts_us e) ∧ (Z.of_nat (length (env_payload e)) < 2 ^ 32)%Z.

(** [EmitEnvelope::new] *)
Definition envelope_new (t : EmitType) (agent_id : AgentId) (seq ts_us : Z) (payload : bytes)
    : EmitEnvelope :=
  mkEnvelope 1 (emit_u8 t) agent_id seq ts_us payload.
Definition to_msgpack `{Msgpack EmitEnvelope} (e : EmitEnvelope) : bytes := mp_ser e.
Definition from_msgpack `{Msgpack EmitEnvelope} (b : bytes)
    : result (mp_err EmitEnvelope) EmitEnvelope := mp_de b.

(** ** Entries *)

Record LogEntry := mkEntry {
  agent_id : AgentId;
  ts_ms : Z;
  parent_ids : list ActionId;
  hash_before : StateHash;
  hash_after : StateHash;
  emit_payload : option bytes }.
#[global] Instance LogEntry_eq_dec : EqDecision LogEntry.
Proof. solve_decision. Defined.

Definition entry_ok (e : LogEntry) : Prop :=
  length (agent_id e) = 16 ∧ is_u64 (ts_ms e)
  ∧ (Forall (λ p, length p = 32) (parent_ids e) ∧ (Z.of_nat (length (parent_ids e)) < 2 ^ 64)%Z)
  ∧ length (hash_before e) = 32 ∧ length (hash_after e) = 32
  ∧ (∀ p, emit_payload e = Some p → (Z.of_nat (length p) < 2 ^ 64)%Z).

Inductive LogError (rocks bincode : Type) :=
| Rocks (e : rocks)
| Deserialize (e : bincode)
| UnknownAction (id : ActionId).
Arguments Rocks {_ _} _.
Arguments Deserialize {_ _} _.
Arguments UnknownAction {_ _} _.

(** [agent_id(16) || ts_ms_BE(8) || action_id(32)] *)
Definition agent_ts_key (agent : AgentId) (ts : Z) (action : ActionId) : bytes :=
  agent ++ be_bytes 8 ts ++ action.

Section ops.
Context `{R : RocksDB, H256 : Sha256, B : Bincode LogEntry}.

Abbreviation log_error := (LogError db_err (bin_err LogEntry)).

Definition action_id (e : LogEntry) : ActionId := sha256 (ser e).

Definition entry_batch (e : LogEntry) : list batch_op :=
  [Put "default" (action_id e) (ser e);
   Put "agent_ts" (agent_ts_key (agent_id e) (ts_ms e) (action_id e)) []].

Definition append_with (sync : bool) (d : db) (e : LogEntry) : result log_error ActionId * db :=
  match db_write d sync (entry_batch e) with
  | (Ok _, d) => (Ok (action_id e), d)
  | (Err x, d) => (Err (Rocks x), d)
  end.
Definition append (d : db) (e : LogEntry) : result log_error ActionId * db := append_with false d e.
Definition append_durable (d : db) (e : LogEntry) : result log_error ActionId * db :=
  append_with true d e.

Definition get (d : db) (id : ActionId) : result log_error (option LogEntry) :=
  o ← map_err Rocks (db_get d "default" id);
  match o with
  | None => Ok None
  | Some b => e ← map_err Deserialize (de b); Ok (Some e)
  end.

(** The loop of [query_by_agent_range]. *)
Fixpoint query_loop (agent : AgentId) (to_ts_ms : option Z)
    (items : list (result db_err (bytes * bytes))) : result log_error (list ActionId) :=
  match items with
  | [] => Ok []
  | Err e :: _ => Err (Rocks e)
  | Ok (key, _) :: items =>
      if decide (length key ≠ 56 ∨ take 16 key ≠ agent) then Ok []
      else
        let ts := of_be (take 8 (drop 16 key)) in
        let next := l ← query_loop agent to_ts_ms items; Ok (drop 24 key :: l) in
        match to_ts_ms with
        | Some to => if decide (ts > to)%Z then Ok [] else next
        | None => next
        end
  end.
Definition query_by_agent_range (d : db) (agent : AgentId) (from_ts_ms to_ts_ms : option Z)
    : result log_error (list ActionId) :=
  let ts_start := default 0%Z from_ts_ms in
  query_loop agent to_ts_ms (db_iter d "agent_ts" (agent ++ be_bytes 8 ts_start)).

Definition iter_default_raw (d : db) : list (result log_error (bytes * bytes)) :=
  map_err Rocks <$> db_iter d "default" [].

Definition entries_by_agent (d : db) (agent : AgentId) : list (ActionId * LogEntry) :=
  omap (λ r, '(key, value) ← result_ok r;
             if decide (length key = 32) then
               e ← result_ok (de value);
               if decide (agent_id e = agent) then Some (key, e) else None
             else None)
    (db_iter d "default" []).

(** [v[i] ^= 0xFF] *)
Definition flip_byte (v : bytes) (i : nat) : bytes :=
  alter (λ b, z2b (Z.lxor (b2z b) 0xFF)) i v.
Definition corrupt_value_at (d : db) (id : ActionId) (byte_idx : nat)
    : result log_error bool * db :=
  match db_get d "default" id with
  | Err e => (Err (Rocks e), d)
  | Ok None => (Ok false, d)
  | Ok (Some value) =>
      if decide (value = []) then (Ok false, d)
      else
        let v := flip_byte value (byte_idx `mod` length value) in
        match db_write d false [Put "default" id v] with
        | (Err e, d) => (Err (Rocks e), d)
        | (Ok _, d) =>
            match db_flush d with
            | (Err e, d) => (Err (Rocks e), d)
            | (Ok _, d) => (Ok true, d)
            end
        end
  end.

(** The entry that [populate_synthetic] writes at index [i]. *)
Definition synthetic_entry (i : Z) (prev : option ActionId) : LogEntry :=
  mkEntry (replicate 16 Byte.xaa) i (from_option (λ id, [id]) [] prev)
    (replicate 32 Byte.xaa) (replicate 32 Byte.xbb) None.
Definition BATCH_SIZE : Z := 10000.
(** The loop of [populate_synthetic]. *)
Fixpoint populate_loop (d : db) (step sample_size : Z) (prev : option ActionId)
    (samples : list ActionId) (batch : list batch_op) (idxs : list Z)
    : result log_error (list ActionId) * db :=
  match idxs with
  | [] =>
      match batch with
      | [] => (Ok samples, d)
      | _ :: _ =>
          match db_write d false batch with
          | (Err e, d) => (Err (Rocks e), d)
          | (Ok _, d) => (Ok samples, d)
          end
      end
  | i :: idxs =>
      let e := synthetic_entry i prev in
      let id := action_id e in
      let batch := batch ++ entry_batch e in
      let samples :=
        if bool_decide (sample_size > 0)%Z && bool_decide (i `mod` step = 0)%Z
        then samples ++ [id] else samples in
      if decide ((i + 1) `mod` BATCH_SIZE = 0)%Z then
        match db_write d false batch with
        | (Err x, d) => (Err (Rocks x), d)
        | (Ok _, d) => populate_loop d step sample_size (Some id) samples [] idxs
        end
      else populate_loop d step sample_size (Some id) samples batch idxs
  end.
Definition populate_synthetic (d : db) (n sample_size : Z) : result log_error (list ActionId) * db :=
  let step := Z.max (n / Z.max sample_size 1) 1 in
  populate_loop d step sample_size None [] [] (seqZ 0 n).

End ops.

(** ** Refinement of the list of appended entries *)

Section laws.
Context `{R : RocksDB, !RocksLaws R, H256 : Sha256, !Sha256Laws H256,
          B : Bincode LogEntry, !BincodeLaws LogEntry entry_ok}.

Abbreviation log_error := (LogError db_err (bin_err LogEntry)).

Definition entry_key (e : LogEntry) : bytes := agent_ts_key (agent_id e) (ts_ms e) (action_id e).

(** The database holds the entries of [hist]: each under its identifier, each
    with one index key, and nothing else. *)
Record represents (d : db) (hist : list LogEntry) : Prop := {
  rep_ok : Forall entry_ok hist;
  rep_default id b : db_cf d "default" !! id = Some b →
    ∃ e, e ∈ hist ∧ id = action_id e ∧ b = ser e;
  rep_has e : e ∈ hist → is_Some (db_cf d "default" !! action_id e);
  rep_index k : is_Some (db_cf d "agent_ts" !! k) ↔ ∃ e, e ∈ hist ∧ k = entry_key e }.

Lemma represents_same d d' hist :
  (∀ cf, db_cf d' cf = db_cf d cf) → represents d hist → represents d' hist.
Proof. intros E [? ? ? ?]. split; [done|intros ?; rewrite E; auto..]. Qed.

Lemma represents_empty d :
  db_cf d "default" = ∅ → db_cf d "agent_ts" = ∅ → represents d [].
Proof.
  intros E1 E2. split; [done|intros ? ?; by rewrite E1|by intros ? ?%not_elem_of_nil|].
  intros k. rewrite E2, lookup_empty. split; [by intros [? ?]|]. by intros (? & ?%not_elem_of_nil & _).
Qed.

(** One column family is updated per operation of a batch, so a log state is
    followed through a batch by its contents. *)
Definition rep_cf (m : string → gmap bytes bytes) (hist : list LogEntry) : Prop :=
  (∀ id b, m "default" !! id = Some b → ∃ e, e ∈ hist ∧ id = action_id e ∧ b = ser e)
  ∧ (∀ e, e ∈ hist → is_Some (m "default" !! action_id e))
  ∧ (∀ k, is_Some (m "agent_ts" !! k) ↔ ∃ e, e ∈ hist ∧ k = entry_key e).

Lemma represents_cf d hist : represents d hist ↔ Forall entry_ok hist ∧ rep_cf (db_cf d) hist.
Proof. split; [intros [? ? ? ?]; by split_and!|intros (? & ? & ? & ?); by split]. Qed.

Lemma entry_batch_default m e :
  apply_batch "default" m (entry_batch e) = <[action_id e := ser e]> m.
Proof. done. Qed.
Lemma entry_batch_index m e :
  apply_batch "agent_ts" m (entry_batch e) = <[entry_key e := []]> m.
Proof. done. Qed.

Lemma rep_cf_entry m hist e :
  rep_cf m hist →
  rep_cf (λ cf, apply_batch cf (m cf) (entry_batch e)) (hist ++ [e]).
Proof.
  intros (Hd & Hh & Hi). unfold rep_cf. rewrite entry_batch_default, entry_batch_index. split_and!.
  - intros id b. setoid_rewrite elem_of_app.
    destruct (decide (id = action_id e)) as [->|Hne].
    + rewrite lookup_insert_eq. intros [= <-]. exists e. set_solver.
    + rewrite lookup_insert_ne by done. intros (e' & ? & ?)%Hd. eauto.
  - intros e'. rewrite elem_of_app, list_elem_of_singleton, lookup_insert_is_Some'.
    intros [He| ->]; auto.
  - intros k. setoid_rewrite elem_of_app. rewrite lookup_insert_is_Some', Hi. set_solver.
Qed.
Lemma rep_cf_entries m hist es :
  rep_cf m hist →
  rep_cf (λ cf, apply_batch cf (m cf) (es ≫= entry_batch)) (hist ++ es).
Proof.
  revert m hist. induction es as [|e es IH]; intros m hist Hm.
  { by rewrite app_nil_r. }
  specialize (IH _ _ (rep_cf_entry _ _ e Hm)). by rewrite <-(assoc_L (++)) in IH.
Qed.

(** A batch of entries, written or failed. *)
Lemma write_entries d sync es r d' hist :
  represents d hist → Forall entry_ok es →
  db_write d sync (es ≫= entry_batch) = (r, d') →
  represents d' (hist ++ es) ∨ (r ≠ Ok () ∧ represents d' hist).
Proof.
  intros Hr Hes Hw.
  assert (∀ m, (∀ cf, m cf = apply_batch cf (db_cf d cf) (es ≫= entry_batch)) →
    rep_cf m (hist ++ es)) as Hrep.
  { intros m Hm. apply represents_cf in Hr as [_ Hr].
    destruct (rep_cf_entries _ _ es Hr) as (? & ? & ?).
    unfold rep_cf. split_and!; intros ?; rewrite Hm; auto. }
  assert (Forall entry_ok (hist ++ es)) by (apply Forall_app; split; [apply Hr|done]).
  destruct r as [[]|x].
  - left. apply represents_cf. split; [done|]. apply Hrep. intros cf. by eapply db_write_ok.
  - destruct (db_write_err _ _ _ _ _ Hw) as [E|E].
    + right. split; [done|]. by eapply represents_same.
    + left. apply represents_cf. auto.
Qed.

Lemma append_written d e id d' :
  append d e = (Ok id, d') →
  id = action_id e ∧ grows d d' ∧ is_Some (db_cf d' "default" !! id).
Proof.
  unfold append, append_with.
  destruct (db_write _ _ _) as [[[]|] d1] eqn:Hw; [|done]. intros [= <- <-].
  split_and!; [done|by eapply write_grows|]. rewrite (db_write_ok _ _ _ _ _ Hw).
  exists (ser e). apply lookup_insert_eq.
Qed.

Lemma append_refines sync d e r d' hist :
  represents d hist → entry_ok e → append_with sync d e = (r, d') →
  (r = Ok (action_id e) ∧ represents d' (hist ++ [e]))
  ∨ (is_ok r = false ∧ (represents d' hist ∨ represents d' (hist ++ [e]))).
Proof.
  intros Hr He. unfold append_with.
  destruct (db_write d sync (entry_batch e)) as [r' d1] eqn:Hw.
  assert (Hw' : db_write d sync ([e] ≫= entry_batch) = (r', d1)) by done.
  destruct (write_entries _ _ _ _ _ _ Hr (proj2 (Forall_singleton _ _) He) Hw') as [?|[? ?]];
    destruct r' as [[]|]; intros [= <- <-]; cbn; auto; done.
Qed.

Lemma append_Ok sync d e id d' hist :
  represents d hist → entry_ok e → append_with sync d e = (Ok id, d') →
  id = action_id e ∧ represents d' (hist ++ [e]).
Proof. intros Hr He [[[= ->] ?]|[? _]]%(append_refines _ _ _ _ _ hist); done. Qed.

Lemma get_refines d hist id :
  represents d hist →
  match get d id with
  | Ok (Some e) => e ∈ hist ∧ action_id e = id
  | Ok None => ∀ e, e ∈ hist → action_id e ≠ id
  | Err (Rocks _) => True
  | Err _ => False
  end.
Proof.
  intros Hr. unfold get. destruct (db_get d "default" id) as [[b|]|] eqn:E; cbn; [| |done];
    apply db_get_ok in E; symmetry in E.
  - destruct (rep_default _ _ Hr _ _ E) as (e & He & -> & ->).
    pose proof (proj1 (Forall_forall _ _) (rep_ok _ _ Hr) e He).
    by rewrite (de_ser (valid := entry_ok)) by done.
  - intros e He <-. destruct (rep_has _ _ Hr _ He) as [? ?]. congruence.
Qed.

(** ** Index keys *)

Lemma key_decodes e :
  entry_ok e →
  length (entry_key e) = 56 ∧ take 16 (entry_key e) = agent_id e
  ∧ of_be (take 8 (drop 16 (entry_key e))) = ts_ms e ∧ drop 24 (entry_key e) = action_id e.
Proof.
  intros (Ha & Ht & _). unfold entry_key, agent_ts_key.
  pose proof (sha256_len (ser e)) as Hl. change (sha256 (ser e)) with (action_id e) in Hl.
  pose proof (length_be_bytes 8 (ts_ms e)) as H8. split_and!.
  - rewrite !length_app. lia.
  - by apply take_app_length'.
  - rewrite drop_app_length' by done. rewrite take_app_length' by done. by apply of_be_bytes_u64.
  - rewrite (assoc_L (++)). apply drop_app_length'. rewrite length_app. lia.
Qed.

Lemma key_seek_le agent ts e :
  length agent = 16 → is_u64 ts → entry_ok e →
  bytes_le (agent ++ be_bytes 8 ts) (entry_key e) ∧ take 16 (entry_key e) = agent ↔
  agent_id e = agent ∧ (ts ≤ ts_ms e)%Z.
Proof.
  intros Ha Hts He. destruct (key_decodes e He) as (_ & Ht & _). destruct He as (_ & Hte & _).
  rewrite Ht. assert (agent_id e = agent →
    bytes_le (agent ++ be_bytes 8 ts) (entry_key e) ↔ (ts ≤ ts_ms e)%Z) as Hle; [|tauto].
  intros <-. unfold entry_key, agent_ts_key. rewrite bytes_le_app.
  rewrite <-(app_nil_r (be_bytes 8 ts)), bytes_le_app_len by by rewrite !length_be_bytes.
  rewrite !of_be_bytes_u64 by done. split.
  - intros [?|[E _]]; [lia|]. apply (f_equal of_be) in E. rewrite !of_be_bytes_u64 in E by done. lia.
  - intros Hle. destruct (decide (ts = ts_ms e)) as [->|]; [|left; lia].
    right. split; [done|]. apply bytes_le_nil_l.
Qed.

Lemma key_le_ts e e' :
  entry_ok e → entry_ok e' → agent_id e = agent_id e' →
  bytes_le (entry_key e) (entry_key e') → (ts_ms e ≤ ts_ms e')%Z.
Proof.
  intros (_ & Ht & _) (_ & Ht' & _) E. unfold entry_key, agent_ts_key.
  rewrite E, bytes_le_app, bytes_le_app_len by by rewrite !length_be_bytes.
  rewrite !of_be_bytes_u64 by done. intros [?|[E' _]]; [lia|].
  apply (f_equal of_be) in E'. rewrite !of_be_bytes_u64 in E' by done. lia.
Qed.

Definition below (to_ts_ms : option Z) (e : LogEntry) : Prop :=
  match to_ts_ms with Some t => (ts_ms e ≤ t)%Z | None => True end.
#[global] Instance below_dec t e : Decision (below t e).
Proof. destruct t; cbn; apply _. Defined.

(** The loop stops at the first key above the bound, which drops nothing that
    matches since the keys are sorted. *)
Lemma query_loop_filter agent to kvs tail es1 es2 ids :
  kvs.*1 = entry_key <$> es1 →
  Forall (λ e, entry_ok e ∧ agent_id e = agent) es1 →
  StronglySorted (λ e e', ts_ms e ≤ ts_ms e')%Z (es1 ++ es2) →
  (∀ l, query_loop agent to tail = Ok l → l = action_id <$> filter (below to) es2) →
  query_loop agent to ((Ok <$> kvs) ++ tail) = Ok ids →
  ids = action_id <$> filter (below to) (es1 ++ es2).
Proof.
  intros Hk Hok Hs Htail. revert kvs ids Hk Hs.
  induction Hok as [|e es1 [He Ha] _ IH]; intros [|[k v] kvs] ids Hk Hs Hq; try done; [by apply Htail|].
  cbn in Hk. injection Hk as -> Hk. apply StronglySorted_inv in Hs as [Hs Hf].
  destruct (key_decodes e He) as (Hl & Ht & Hts & Hid). cbn in Hq.
  rewrite decide_False in Hq by (rewrite Hl, Ht; tauto). rewrite Hts, Hid in Hq.
  rewrite <-app_comm_cons, filter_cons.
  assert ((l ← query_loop agent to ((Ok <$> kvs) ++ tail); Ok (action_id e :: l)) = Ok ids →
    ids = action_id e :: (action_id <$> filter (below to) (es1 ++ es2))) as Hnext.
  { intros (l & Hl' & [= <-])%result_bind_Ok. f_equal. by eapply IH. }
  destruct to as [t|]; [|rewrite decide_True by done; by apply Hnext]. case_decide as Hgt.
  - rewrite decide_False by (cbn; lia). simplify_eq. rewrite filter_nil_all; [done|]. eapply Forall_impl; [done|]. cbn. lia.
  - rewrite decide_True by (cbn; lia). by apply Hnext.
Qed.

(** The scan behind a query, as entries of the log. *)
Lemma scan_entries d hist agent ts :
  represents d hist → length agent = 16 → is_u64 ts →
  let l := scan 16 (db_cf d "agent_ts") (agent ++ be_bytes 8 ts) in
  ∃ es, l.*1 = entry_key <$> es ∧ NoDup (entry_key <$> es)
    ∧ StronglySorted (λ e e', ts_ms e ≤ ts_ms e')%Z es
    ∧ Forall (λ e, e ∈ hist ∧ agent_id e = agent ∧ (ts ≤ ts_ms e)%Z) es
    ∧ (∀ e, e ∈ hist → agent_id e = agent → (ts ≤ ts_ms e)%Z → entry_key e ∈ entry_key <$> es).
Proof.
  intros Hr Ha Hts l.
  assert (∀ e, e ∈ hist → entry_ok e) as Hok by (apply Forall_forall, (rep_ok _ _ Hr)).
  assert (∀ k, k ∈ l.*1 ↔ ∃ e, k = entry_key e ∧ e ∈ hist ∧ agent_id e = agent ∧ (ts ≤ ts_ms e)%Z) as Hl.
  { intros k. rewrite list_elem_of_fmap. split.
    - intros ([k' v] & -> & (Hv & Hle & Htk)%elem_of_scan). cbn in *.
      rewrite (take_app_length' agent) in Htk by done.
      destruct (proj1 (rep_index _ _ Hr k')) as (e & He & ->); [by eauto|].
      exists e. split_and!; [done|done|by apply (key_seek_le agent ts); auto..].
    - intros (e & -> & He & Hag & Hle). destruct (proj2 (rep_index _ _ Hr (entry_key e))) as [v Hv]; [by eauto|].
      exists (entry_key e, v). split; [done|]. apply elem_of_scan. cbn. split; [done|].
      rewrite (take_app_length' agent) by done. by apply key_seek_le; auto. }
  destruct (Forall_image entry_key (λ e, e ∈ hist ∧ agent_id e = agent ∧ (ts ≤ ts_ms e)%Z) l.*1)
    as (es & Hes & Hf); [apply Forall_forall; intros k; by rewrite Hl|].
  exists es. split_and!; [done|rewrite <-Hes; apply NoDup_scan| |done|].
  - rewrite Forall_forall in Hf.
    apply (StronglySorted_fmap entry_key bytes_le).
    { intros x y [? [? _]]%Hf [? [? _]]%Hf. apply key_le_ts; auto; congruence. }
    rewrite <-Hes. pose proof (StronglySorted_scan 16 (db_cf d "agent_ts") (agent ++ be_bytes 8 ts)) as Hs.
    fold l in Hs. clear -Hs. induction Hs as [|x xs _ IH Hx]; cbn; constructor; [done|].
    by apply Forall_fmap.
  - intros e He Hag Hle. rewrite <-Hes. apply Hl. eauto.
Qed.

Lemma below_key to e e' :
  entry_ok e → entry_ok e' → entry_key e = entry_key e' → below to e → below to e'.
Proof.
  intros (_ & _ & Ht & _)%key_decodes (_ & _ & Ht' & _)%key_decodes E.
  unfold below. rewrite <-Ht, <-Ht', E. done.
Qed.

Lemma query_entries d hist agent from to es ids :
  represents d hist → length agent = 16 → is_u64 (default 0%Z from) →
  (scan 16 (db_cf d "agent_ts") (agent ++ be_bytes 8 (default 0%Z from))).*1 = entry_key <$> es →
  StronglySorted (λ e e', ts_ms e ≤ ts_ms e')%Z es →
  Forall (λ e, e ∈ hist ∧ agent_id e = agent ∧ (default 0 from ≤ ts_ms e)%Z) es →
  query_by_agent_range d agent from to = Ok ids →
  ids = action_id <$> filter (below to) es.
Proof.
  intros Hr Ha Hf Hes Hs Hin. unfold query_by_agent_range.
  assert (Forall (λ e, entry_ok e ∧ agent_id e = agent) es) as Hok.
  { eapply Forall_impl; [done|]. cbn. intros e (? & ? & _). split; [|done].
    by apply (proj1 (Forall_forall _ _) (rep_ok _ _ Hr)). }
  destruct (db_iter_ok d "agent_ts" (agent ++ be_bytes 8 (default 0%Z from)))
    as [(rest & E & Ho)|(l & e & [l2 Hl] & E)]; rewrite E; change (prefix_len "agent_ts") with 16 in *.
  - rewrite <-(app_nil_r es) in Hs |- *. apply query_loop_filter; [done..|].
    intros ids'. destruct rest as [|[[k v]|e] rest]; cbn; [by intros [= <-]| |done].
    rewrite decide_True; [by intros [= <-]|]. right.
    cbn in Ho. by rewrite (take_app_length' agent) in Ho.
  - rewrite Hl, fmap_app in Hes. symmetry in Hes. apply fmap_app_inv in Hes as (es1 & es2 & E1 & _ & ->).
    apply Forall_app in Hok as [Hok _]. by apply query_loop_filter.
Qed.

Lemma query_loop_Err agent to items x :
  query_loop agent to items = Err x → ∃ e, x = Rocks e ∧ Err e ∈ items.
Proof.
  induction items as [|[[k v]|e] items IH]; cbn; [done| |].
  - assert ((l ← query_loop agent to items; Ok (drop 24 k :: l)) = Err x →
      ∃ e, x = Rocks e ∧ Err e ∈ Ok (k, v) :: items) as Hnext.
    { destruct (query_loop agent to items) eqn:E; cbn; [done|]. intros [= ->].
      destruct (IH eq_refl) as (e & ? & ?). exists e. split; [done|by right]. }
    case_decide; [done|]. destruct to; [|by apply Hnext]. case_decide; [done|by apply Hnext].
  - intros [= <-]. exists e. split; [done|by left].
Qed.

(** ** Synthetic chains *)

(** The entries [populate_synthetic] appends, one after the other. *)
Fixpoint synth (prev : option ActionId) (idxs : list Z) : list LogEntry :=
  match idxs with
  | [] => []
  | i :: idxs => let e := synthetic_entry i prev in e :: synth (Some (action_id e)) idxs
  end.

Lemma synthetic_entry_ok i prev :
  is_u64 i → (∀ p, prev = Some p → length p = 32) → entry_ok (synthetic_entry i prev).
Proof.
  intros Hi Hp. unfold entry_ok. destruct prev as [p|]; cbn; split_and!; try done.
  constructor; [by apply Hp|constructor].
Qed.

Lemma populate_loop_refines d step k prev samples pending idxs r d' hist :
  represents d hist → Forall entry_ok pending → Forall is_u64 idxs →
  (∀ p, prev = Some p → length p = 32) →
  populate_loop d step k prev samples (pending ≫= entry_batch) idxs = (r, d') →
  ∃ l, l `prefix_of` pending ++ synth prev idxs ∧ represents d' (hist ++ l)
       ∧ (is_ok r = true → l = pending ++ synth prev idxs).
Proof.
  intros Hr Hpend Hidx. revert d prev samples pending hist Hr Hpend.
  induction Hidx as [|i idxs Hi Hidx IH]; intros d prev samples pending hist Hr Hpend Hprev.
  - cbn. rewrite app_nil_r. destruct pending as [|e pending]; cbn [mbind list_bind].
    { intros [= <- <-]. exists []. by rewrite app_nil_r. }
    change (entry_batch e ++ (pending ≫= entry_batch)) with ((e :: pending) ≫= entry_batch).
    destruct (db_write _ _ _) as [r1 d1] eqn:Hw.
    destruct (write_entries _ _ _ _ _ _ Hr Hpend Hw) as [Hok|[Hne Hsame]].
    + destruct r1; intros [= <- <-]; by exists (e :: pending).
    + destruct r1 as [[]|x]; [done|]. intros [= <- <-]. exists [].
      rewrite app_nil_r. split_and!; [apply prefix_nil|done|done].
  - cbn [populate_loop synth]. set (e := synthetic_entry i prev).
    assert (entry_ok e) as He by by apply synthetic_entry_ok.
    assert (∀ p, Some (action_id e) = Some p → length p = 32) as Hid.
    { intros p [= <-]. apply sha256_len. }
    replace ((pending ≫= entry_batch) ++ entry_batch e) with ((pending ++ [e]) ≫= entry_batch)
      by by rewrite bind_app.
    assert (Forall entry_ok (pending ++ [e])) as Hpend' by (apply Forall_app; auto).
    replace (pending ++ e :: synth (Some (action_id e)) idxs)
      with ((pending ++ [e]) ++ synth (Some (action_id e)) idxs) by by rewrite <-(assoc_L (++)).
    case_decide; [|by apply IH].
    destruct (db_write _ _ _) as [r1 d1] eqn:Hw.
    destruct (write_entries _ _ _ _ _ _ Hr Hpend' Hw) as [Hok|[Hne Hsame]].
    + destruct r1 as [[]|x].
      * generalize dependent (pending ++ [e]). intros P _ _ Hrep0.
        intros (l & Hl & Hrep & Hall)%(IH _ _ _ [] (hist ++ P)); [|done..].
        exists (P ++ l). rewrite <-(assoc_L (++)) in Hrep.
        split_and!; [by apply prefix_app|done|]. intros Hok'. by rewrite (Hall Hok').
      * intros [= <- <-]. exists (pending ++ [e]). split_and!; [by apply prefix_app_r|done|done].
    + destruct r1 as [[]|x]; [done|]. intros [= <- <-]. exists [].
      rewrite app_nil_r. split_and!; [apply prefix_nil|done|done].
Qed.

(** ** Properties *)

(** C7: an append refines the append to the abstract log: on success the
    identifier is the hash of the entry and the entry is in both column
    families; on failure the log is the old one or the new one, never half of
    the entry. *)
Theorem append_atomic sync d e r d' hist :
  represents d hist → entry_ok e → append_with sync d e = (r, d') →
  match r with
  | Ok id => id = action_id e ∧ represents d' (hist ++ [e]) ∧
             (∀ o, get d' id = Ok o → o = Some e)
  | Err _ => represents d' hist ∨ represents d' (hist ++ [e])
  end.
Proof.
  intros Hr He Ha. destruct (append_refines _ _ _ _ _ _ Hr He Ha) as [[-> Hr']|[Hok Hor]];
    [|by destruct r].
  split_and!; [done|done|]. intros o. revert Ha. unfold append_with, get.
  destruct (db_write _ _ _) as [[[]|] d1] eqn:Hw; [|done]. intros [= <-].
  destruct (db_get d1 _ _) as [o'|] eqn:Hg; [|done]. apply db_get_ok in Hg.
  rewrite (db_write_ok _ _ _ _ _ Hw), entry_batch_default, lookup_insert_eq in Hg. subst. cbn.
  rewrite (de_ser (valid := entry_ok)) by done. cbn. congruence.
Qed.

(** A lookup in a log returns an appended entry with that identifier,
    answers "unknown" only if no appended entry has it, and fails only with
    an error of the database: a stored entry always decodes. *)
Theorem get_spec d hist id :
  represents d hist →
  match get d id with
  | Ok (Some e) => e ∈ hist ∧ action_id e = id
  | Ok None => ∀ e, e ∈ hist → action_id e ≠ id
  | Err (Rocks _) => True
  | Err _ => False
  end.
Proof. apply get_refines. Qed.

(** A range query returns the identifiers of exactly the appended entries
    of the agent whose timestamp is in the inclusive interval, in time order
    and without repetition; it fails only when the scan of the index meets a
    read error. *)
Theorem query_by_agent_range_spec d hist agent from to :
  represents d hist → length agent = 16 → is_u64 (default 0%Z from) →
  match query_by_agent_range d agent from to with
  | Ok ids =>
      ∃ es, ids = action_id <$> es
        ∧ StronglySorted (λ e e', ts_ms e ≤ ts_ms e')%Z es ∧ NoDup (entry_key <$> es)
        ∧ (∀ e, e ∈ es → e ∈ hist ∧ agent_id e = agent
                         ∧ (default 0 from ≤ ts_ms e)%Z ∧ below to e)
        ∧ (∀ e, e ∈ hist → agent_id e = agent → (default 0 from ≤ ts_ms e)%Z → below to e →
                entry_key e ∈ entry_key <$> es)
  | Err x => ∃ e, x = Rocks e
      ∧ Err e ∈ db_iter d "agent_ts" (agent ++ be_bytes 8 (default 0%Z from))
  end.
Proof.
  intros Hr Ha Hf. destruct (query_by_agent_range d agent from to) as [ids|x] eqn:Hq;
    [|by apply query_loop_Err in Hq].
  destruct (scan_entries _ _ _ _ Hr Ha Hf) as (es & Hes & Hnd & Hs & Hin & Hall).
  assert (ids = action_id <$> filter (below to) es) as ->.
  { by eapply query_entries. }
  rewrite Forall_forall in Hin.
  exists (filter (below to) es). split_and!; [done|by apply StronglySorted_filter| | |].
  - eapply sublist_NoDup; [done|]. apply fmap_sublist, sublist_filter.
  - intros e [? (? & ? & ?)%Hin]%list_elem_of_filter. done.
  - intros e He Hag Hle Hb. destruct (proj1 (list_elem_of_fmap _ _ _) (Hall e He Hag Hle)) as (e' & Ek & He').
    apply list_elem_of_fmap. exists e'. split; [done|]. apply list_elem_of_filter. split; [|done].
    destruct (Hin e' He') as (Hh' & _). eapply below_key; [| |done|done];
      by apply (proj1 (Forall_forall _ _) (rep_ok _ _ Hr)).
Qed.

(** [populate_synthetic] appends the synthetic chain in order: all of it
    on success, and a prefix of it when a batch fails. *)
Theorem populate_synthetic_refines d n k r d' hist :
  represents d hist → (n < 2 ^ 64)%Z → populate_synthetic d n k = (r, d') →
  ∃ l, l `prefix_of` synth None (seqZ 0 n) ∧ represents d' (hist ++ l)
       ∧ (is_ok r = true → l = synth None (seqZ 0 n)).
Proof.
  intros Hr Hn. apply (populate_loop_refines _ _ _ _ _ []); [done|done| |done].
  apply Forall_forall. intros i Hi%elem_of_seqZ. unfold in_width. lia.
Qed.

End laws.

(** The one-byte code of an emission type decodes to that type and to no
    other, and every other byte is rejected with its own value. *)
Theorem emit_type_codec v t :
  (try_from v = Ok t ↔ v = emit_u8 t) ∧ (∀ x, try_from v = Err x → x = v).
Proof.
  split; [split|].
  - unfold try_from. repeat case_match; intros [= <-]; done.
  - intros ->. by destruct t.
  - intros x. unfold try_from. repeat case_match; congruence.
Qed.

(** ** A concrete log *)

Definition entry_ser (e : LogEntry) : bytes :=
  id (agent_id e) ++ Mem.s_u64 (ts_ms e) ++ Mem.s_vec id (parent_ids e)
  ++ id (hash_before e) ++ id (hash_after e)
  ++ Mem.s_option (Mem.s_vec (λ b, [b])) (emit_payload e).
Definition entry_parser : Mem.parser LogEntry :=
  a ← Mem.p_bytes 16; t ← Mem.p_u64; ps ← Mem.p_vec (Mem.p_bytes 32);
  hb ← Mem.p_bytes 32; ha ← Mem.p_bytes 32; p ← Mem.p_option (Mem.p_vec Mem.p_byte);
  mret (mkEntry a t ps hb ha p).
#[global] Instance mem_entry : Bincode LogEntry := {|
  bin_err := (); ser := entry_ser; de := Mem.run entry_parser |}.

Lemma reads_byte : Mem.reads (λ _, True) (λ b, [b]) Mem.p_byte.
Proof. by intros b r _. Qed.
Lemma reads_payload : Mem.reads (λ p : bytes, Forall (λ _, True) p ∧ (Z.of_nat (length p) < 2 ^ 64)%Z)
  (Mem.s_vec (λ b, [b])) (Mem.p_vec Mem.p_byte).
Proof. apply Mem.reads_vec; [apply reads_byte|done]. Qed.
Lemma entry_reads : Mem.reads entry_ok entry_ser entry_parser.
Proof.
  intros [a t ps hb ha p] r (Ha & Ht & Hps & Hb & Hh & Hp).
  unfold entry_ser, entry_parser, mbind, Mem.parser_bind.
  cbn [agent_id ts_ms parent_ids hash_before hash_after emit_payload] in *. rewrite <-!(assoc_L (++)).
  rewrite (Mem.reads_bytes 16) by done. rewrite Mem.reads_u64 by done.
  rewrite (Mem.reads_vec _ _ _ (Mem.reads_bytes 32)) by (done || (cbn; intros; lia)).
  rewrite !(Mem.reads_bytes 32) by done.
  rewrite (Mem.reads_option _ _ _ reads_payload); [done|].
  intros x Hx. split; [by apply Forall_true|by apply Hp].
Qed.
Lemma entry_yields : Mem.yields entry_ok entry_parser.
Proof.
  intros b e r. unfold entry_parser, mbind, Mem.parser_bind.
  destruct (Mem.p_bytes 16 b) as [[a b1]|] eqn:E1; [|done].
  destruct (Mem.p_u64 b1) as [[t b2]|] eqn:E2; [|done].
  destruct (Mem.p_vec (Mem.p_bytes 32) b2) as [[ps b3]|] eqn:E3; [|done].
  destruct (Mem.p_bytes 32 b3) as [[hb b4]|] eqn:E4; [|done].
  destruct (Mem.p_bytes 32 b4) as [[ha b5]|] eqn:E5; [|done].
  destruct (Mem.p_option _ b5) as [[p b6]|] eqn:E6; [|done]. intros [= <- _].
  assert (Mem.yields (λ _ : byte, True) Mem.p_byte) as Hy by done.
  split_and!; [by eapply Mem.yields_bytes|by eapply Mem.yields_u64
    |by eapply (Mem.yields_vec _ _ (Mem.yields_bytes 32))..
    |by eapply Mem.yields_bytes|by eapply Mem.yields_bytes|].
  intros x Hx. by destruct (Mem.yields_option _ _ (Mem.yields_vec _ _ Hy) _ _ _ E6 x Hx).
Qed.
#[global] Instance mem_entry_laws : BincodeLaws LogEntry entry_ok.
Proof.
  split; [intros e He; by apply (Mem.run_reads entry_ok), He; apply entry_reads
         |intros b e; by apply Mem.run_yields, entry_yields].
Defined.

Definition demo_agent : AgentId := replicate 16 Byte.x41.
Definition demo_entry (ts : Z) (parents : list ActionId) : LogEntry :=
  mkEntry demo_agent ts parents (replicate 32 Byte.x00) (replicate 32 Byte.x01) (Some [Byte.x2a]).
Definition demo_e1 : LogEntry := demo_entry 300 [].
Definition demo_e2 : LogEntry := demo_entry 7 [action_id demo_e1].
Definition demo_log1 : db := (append Mem.empty_db demo_e1).2.
Definition demo_log : db := (append demo_log1 demo_e2).2.

Lemma demo_e1_ok : entry_ok demo_e1.
Proof. unfold entry_ok. split_and!; try done. by intros p [= <-]. Qed.
Lemma demo_e2_ok : entry_ok demo_e2.
Proof. unfold entry_ok. split_and!; try done; [repeat constructor|by intros p [= <-]]. Qed.
Lemma demo_log1_represents : represents demo_log1 [demo_e1].
Proof.
  eapply (append_Ok false Mem.empty_db demo_e1 (action_id demo_e1) _ []);
    [by apply represents_empty|apply demo_e1_ok|done].
Qed.
Lemma demo_log_represents : represents demo_log [demo_e1; demo_e2].
Proof.
  eapply (append_Ok false demo_log1 demo_e2 (action_id demo_e2) _ [demo_e1]);
    [apply demo_log1_represents|apply demo_e2_ok|done].
Qed.

Lemma append_atomic_witness :
  action_id demo_e2 = action_id demo_e2 ∧ represents demo_log [demo_e1; demo_e2]
  ∧ ∀ o, get demo_log (action_id demo_e2) = Ok o → o = Some demo_e2.
Proof.
  exact (append_atomic false demo_log1 demo_e2 (Ok (action_id demo_e2)) demo_log [demo_e1]
    demo_log1_represents demo_e2_ok eq_refl).
Defined.
Lemma get_spec_witness :
  demo_e1 ∈ [demo_e1; demo_e2] ∧ action_id demo_e1 = action_id demo_e1.
Proof.
  pose proof (get_spec demo_log [demo_e1; demo_e2] (action_id demo_e1) demo_log_represents) as H.
  assert (get demo_log (action_id demo_e1) = Ok (Some demo_e1)) as E by (vm_compute; reflexivity).
  rewrite E in H. exact H.
Defined.
Lemma query_by_agent_range_spec_witness :
  ∃ es, [action_id demo_e2; action_id demo_e1] = action_id <$> es
    ∧ StronglySorted (λ e e', ts_ms e ≤ ts_ms e')%Z es ∧ NoDup (entry_key <$> es)
    ∧ (∀ e, e ∈ es → e ∈ [demo_e1; demo_e2] ∧ agent_id e = demo_agent
                     ∧ (5 ≤ ts_ms e)%Z ∧ below (Some 300%Z) e)
    ∧ (∀ e, e ∈ [demo_e1; demo_e2] → agent_id e = demo_agent → (5 ≤ ts_ms e)%Z →
            below (Some 300%Z) e → entry_key e ∈ entry_key <$> es).
Proof.
  pose proof (query_by_agent_range_spec demo_log [demo_e1; demo_e2] demo_agent (Some 5%Z)
    (Some 300%Z) demo_log_represents eq_refl ltac:(done)) as H.
  assert (query_by_agent_range demo_log demo_agent (Some 5%Z) (Some 300%Z)
    = Ok [action_id demo_e2; action_id demo_e1]) as E by (vm_compute; reflexivity).
  rewrite E in H. exact H.
Defined.
Lemma populate_synthetic_refines_witness :
  ∃ l, l `prefix_of` synth None (seqZ 0 3)
    ∧ represents (populate_synthetic demo_log 3 2).2 ([demo_e1; demo_e2] ++ l)
    ∧ (true = true → l = synth None (seqZ 0 3)).
Proof.
  pose proof (populate_synthetic_refines demo_log 3 2 _ _ [demo_e1; demo_e2] demo_log_represents
    ltac:(done) (surjective_pairing _)) as H.
  assert (is_ok (populate_synthetic demo_log 3 2).1 = true) as E by (vm_compute; reflexivity).
  rewrite E in H. exact H.
Defined.

End Log.
