(* ===== verification/Integrity.v ===== *)
(** Integrity: the content-addressing audit of [poc/runtime/src/integrity.rs].

    [verify_content_addressing] walks the raw entries of the causal log, hashes
    every value again, and then looks up every parent an entry names.  The
    theorems say exactly what a report contains, that an append-only log whose
    parents are all present is clean, and that a flipped byte is reported unless
    the hash collides. *)
From S2P Require Import Prelude Storage CausalLog.
Import Log.

Module Audit.

Record HashMismatch := mkMismatch { stored_key : ActionId; recomputed : ActionId }.
Record DanglingParent := mkDangling { child_key : ActionId; missing_parent : ActionId }.

Record ContentIntegrityReport := mkReport {
  entries_checked : nat;
  hash_mismatches : list HashMismatch;
  dangling_parents : list DanglingParent }.
#[global] Instance report_settable : Settable ContentIntegrityReport := λ r,
  mkReport (entries_checked r) (hash_mismatches r) (dangling_parents r).

Definition is_clean (r : ContentIntegrityReport) : bool :=
  match hash_mismatches r, dangling_parents r with [], [] => true | _, _ => false end.

Section ops.
Context `{R : RocksDB, H256 : Sha256, B : Bincode LogEntry}.

Abbreviation log_error := (LogError db_err (bin_err LogEntry)).

(** The local variables of the first loop. *)
Record audit := mkAudit {
  report : ContentIntegrityReport;
  keys : gset ActionId;
  child_parents : list (ActionId * list ActionId) }.
#[global] Instance audit_settable : Settable audit := λ a,
  mkAudit (report a) (keys a) (child_parents a).

Definition audit_entry (a : audit) (raw_key raw_value : bytes) : audit :=
  if decide (length raw_key ≠ 32) then a
  else
    let key := raw_key in
    let a := a <| report ::= λ r, r <| entries_checked ::= S |> |>
               <| keys ::= λ ks, {[key]} ∪ ks |> in
    let rehash := sha256 raw_value in
    let a := if decide (rehash ≠ key)
             then a <| report ::= λ r, r <| hash_mismatches ::= λ l, l ++ [mkMismatch key rehash] |> |>
             else a in
    match de raw_value with
    | Ok entry =>
        match parent_ids entry with
        | [] => a
        | ps => a <| child_parents ::= λ l, l ++ [(key, ps)] |>
        end
    | Err _ => a
    end.

Fixpoint audit_loop (a : audit) (items : list (result log_error (bytes * bytes)))
    : result log_error audit :=
  match items with
  | [] => Ok a
  | Err e :: _ => Err e
  | Ok (k, v) :: items => audit_loop (audit_entry a k v) items
  end.

(** The second pass: parents that are not keys of the log. *)
Definition dangling (ks : gset ActionId) (cps : list (ActionId * list ActionId)) : list DanglingParent :=
  cps ≫= λ '(child, parents),
    mkDangling child <$> filter (.∉ ks) parents.

Definition verify_content_addressing (d : db) : result log_error ContentIntegrityReport :=
  a ← audit_loop (mkAudit (mkReport 0 [] []) ∅ []) (iter_default_raw d);
  Ok (report a <| dangling_parents := dangling (keys a) (child_parents a) |>).

End ops.

Section laws.
Context `{R : RocksDB, !RocksLaws R, H256 : Sha256, !Sha256Laws H256,
          B : Bincode LogEntry, !BincodeLaws LogEntry entry_ok}.

(** ** What one pass collects *)

Definition entries (l : list (bytes * bytes)) : list (bytes * bytes) :=
  filter (λ kv, length kv.1 = 32) l.
Definition mismatches (l : list (bytes * bytes)) : list HashMismatch :=
  (λ kv, mkMismatch kv.1 (sha256 kv.2)) <$> filter (λ kv, sha256 kv.2 ≠ kv.1) (entries l).
Definition parents_of (kv : bytes * bytes) : option (ActionId * list ActionId) :=
  match de kv.2 with
  | Ok e => match parent_ids e with [] => None | ps => Some (kv.1, ps) end
  | Err _ => None
  end.

Lemma audit_entry_skip a k v : length k ≠ 32 → audit_entry a k v = a.
Proof. intros. unfold audit_entry. by rewrite decide_True. Qed.
Lemma audit_entry_32 a k v :
  length k = 32 →
  audit_entry a k v =
    mkAudit (mkReport (S (entries_checked (report a)))
              (hash_mismatches (report a) ++ if decide (sha256 v ≠ k) then [mkMismatch k (sha256 v)] else [])
              (dangling_parents (report a)))
            ({[k]} ∪ keys a)
            (child_parents a ++ match parents_of (k, v) with Some cp => [cp] | None => [] end).
Proof.
  intros Hk. unfold audit_entry, parents_of. rewrite decide_False by auto.
  destruct a as [[ec hm dp] ks cp]. cbn.
  case_decide; cbn; destruct (de v) as [e|]; cbn; try destruct (parent_ids e); cbn;
    by rewrite ?app_nil_r.
Qed.

Lemma audit_loop_Ok kvs a :
  audit_loop a (Ok <$> kvs) = Ok
    (mkAudit (mkReport (entries_checked (report a) + length (entries kvs))
               (hash_mismatches (report a) ++ mismatches kvs) (dangling_parents (report a)))
             (keys a ∪ list_to_set (entries kvs).*1)
             (child_parents a ++ omap parents_of (entries kvs))).
Proof.
  revert a. induction kvs as [|[k v] kvs IH]; intros a.
  { destruct a as [[] ? ?]. cbn. rewrite !app_nil_r, Nat.add_0_r. do 3 f_equal. set_solver. }
  unfold mismatches, entries. rewrite fmap_cons. cbn [audit_loop]. rewrite IH.
  rewrite filter_cons. cbn [fst]. case_decide as Hk; [|by rewrite audit_entry_skip].
  rewrite audit_entry_32 by done. rewrite filter_cons. cbn [fst snd report keys child_parents
    entries_checked hash_mismatches dangling_parents length].
  f_equal. f_equal; [|set_solver|].
  - f_equal; [unfold entries; lia|]. rewrite <-(assoc_L (++)). by case_decide.
  - rewrite <-(assoc_L (++)). f_equal. cbn. by destruct (parents_of (k, v)).
Qed.

Lemma audit_loop_all_ok items a a' :
  audit_loop a items = Ok a' → Forall (λ r, is_ok r = true) items.
Proof.
  revert a. induction items as [|[[k v]|e] items IH]; intros a; cbn; [done| |done].
  intros ?%IH. by constructor.
Qed.

Lemma verify_Ok d r :
  verify_content_addressing d = Ok r →
  r = mkReport (length (entries (scan 0 (db_cf d "default") [])))
        (mismatches (scan 0 (db_cf d "default") []))
        (dangling (list_to_set (entries (scan 0 (db_cf d "default") [])).*1)
                  (omap parents_of (entries (scan 0 (db_cf d "default") [])))).
Proof.
  unfold verify_content_addressing. intros (a & Ha & Hr)%result_bind_Ok.
  set (kvs := scan 0 (db_cf d "default") []). injection Hr as <-.
  assert (iter_default_raw d = Ok <$> kvs) as E.
  { apply audit_loop_all_ok in Ha. unfold iter_default_raw in *.
    rewrite db_iter_all; [by rewrite <-list_fmap_compose|done|].
    rewrite Forall_fmap in Ha. eapply Forall_impl; [done|]. by intros [] ?. }
  rewrite E, audit_loop_Ok in Ha. injection Ha as <-. cbn. by rewrite (left_id_L ∅ (∪)).
Qed.

Lemma elem_of_entries d kv :
  kv ∈ entries (scan 0 (db_cf d "default") []) ↔
  db_cf d "default" !! kv.1 = Some kv.2 ∧ length kv.1 = 32.
Proof. unfold entries. rewrite list_elem_of_filter, elem_of_scan_all. tauto. Qed.

Lemma elem_of_mismatches d m :
  m ∈ mismatches (scan 0 (db_cf d "default") []) ↔
  ∃ v, db_cf d "default" !! stored_key m = Some v ∧ length (stored_key m) = 32
       ∧ recomputed m = sha256 v ∧ sha256 v ≠ stored_key m.
Proof.
  unfold mismatches. rewrite list_elem_of_fmap.
  setoid_rewrite list_elem_of_filter. setoid_rewrite elem_of_entries. split.
  - intros ([k v] & -> & ? & ? & ?). cbn in *. eauto.
  - intros (v & ? & ? & ? & ?). exists (stored_key m, v). destruct m; cbn in *. by subst.
Qed.

Lemma elem_of_dangling d x :
  x ∈ dangling (list_to_set (entries (scan 0 (db_cf d "default") [])).*1)
               (omap parents_of (entries (scan 0 (db_cf d "default") []))) ↔
  ∃ v e, db_cf d "default" !! child_key x = Some v ∧ length (child_key x) = 32 ∧ de v = Ok e
    ∧ missing_parent x ∈ parent_ids e ∧ db_cf d "default" !! missing_parent x = None.
Proof.
  unfold dangling. rewrite list_elem_of_bind.
  assert (∀ p, length p = 32 →
    p ∉ (list_to_set (entries (scan 0 (db_cf d "default") [])).*1 : gset ActionId) ↔
    db_cf d "default" !! p = None) as Hks.
  { intros p Hp. rewrite elem_of_list_to_set, list_elem_of_fmap, eq_None_not_Some. split.
    - intros Hn [v Hv]. apply Hn. exists (p, v). by rewrite elem_of_entries.
    - intros Hn ([k v] & -> & [? _]%elem_of_entries). eauto. }
  split.
  - intros ([c ps] & Hx & Hc).
    apply list_elem_of_fmap in Hx as (p & -> & [Hp Hin]%list_elem_of_filter).
    apply list_elem_of_omap in Hc as ([k v] & [Hk Hl]%elem_of_entries & Hpar).
    unfold parents_of in Hpar. cbn in *. destruct (de v) as [e|] eqn:Ed; [|done].
    assert (c = k ∧ ps = parent_ids e) as [-> ->] by (destruct (parent_ids e); by simplify_eq).
    exists v, e. split_and!; try done. apply Hks; [|done].
    apply (de_valid (valid := entry_ok)) in Ed as (_ & _ & [Hf _] & _).
    by apply (proj1 (Forall_forall _ _) Hf).
  - intros (v & e & Hv & Hl & Ed & Hin & Hn). exists (child_key x, parent_ids e). split.
    + apply list_elem_of_fmap. exists (missing_parent x). split; [by destruct x|].
      apply list_elem_of_filter. split; [|done]. apply Hks; [|done].
      apply (de_valid (valid := entry_ok)) in Ed as (_ & _ & [Hf _] & _).
      by apply (proj1 (Forall_forall _ _) Hf).
    + apply list_elem_of_omap. exists (child_key x, v). rewrite elem_of_entries. split; [done|].
      unfold parents_of. cbn. rewrite Ed. by destruct (parent_ids e); [apply not_elem_of_nil in Hin|].
Qed.

(** ** Properties *)

(** The report of the audit lists exactly the 32-byte keys whose value
    does not hash to them, and exactly the parents named by a decodable entry
    that are not keys of the log. *)
Theorem verify_content_addressing_exact d r :
  verify_content_addressing d = Ok r →
  (∀ m, m ∈ hash_mismatches r ↔
     ∃ v, db_cf d "default" !! stored_key m = Some v ∧ length (stored_key m) = 32
          ∧ recomputed m = sha256 v ∧ sha256 v ≠ stored_key m)
  ∧ (∀ x, x ∈ dangling_parents r ↔
     ∃ v e, db_cf d "default" !! child_key x = Some v ∧ length (child_key x) = 32 ∧ de v = Ok e
       ∧ missing_parent x ∈ parent_ids e ∧ db_cf d "default" !! missing_parent x = None).
Proof.
  intros ->%verify_Ok. cbn. split; [apply elem_of_mismatches|apply elem_of_dangling].
Qed.

Lemma clean_nil r :
  is_clean r = true ↔ hash_mismatches r = [] ∧ dangling_parents r = [].
Proof. unfold is_clean. destruct (hash_mismatches r), (dangling_parents r); naive_solver. Qed.
Lemma nil_not_elem {A} (l : list A) : l = [] ↔ ∀ x, x ∉ l.
Proof. split; [intros -> x; apply not_elem_of_nil|]. destruct l as [|x l]; [done|]. intros H. by destruct (H x); left. Qed.

Lemma append_only_clean d hist r :
  represents d hist →
  (∀ e p, e ∈ hist → p ∈ parent_ids e → ∃ e', e' ∈ hist ∧ action_id e' = p) →
  verify_content_addressing d = Ok r → is_clean r = true.
Proof.
  intros Hr Hpar ->%verify_Ok. apply clean_nil. cbn. rewrite !nil_not_elem. split.
  - intros m (v & (e & _ & -> & ->)%(rep_default _ _ Hr) & _ & _ & Hne)%elem_of_mismatches.
    by destruct Hne.
  - intros x (v & e & Hv & _ & Hd & Hin & Hnone)%elem_of_dangling.
    destruct (rep_default _ _ Hr _ _ Hv) as (e' & He' & _ & ->).
    rewrite (de_ser (valid := entry_ok)) in Hd
      by by apply (proj1 (Forall_forall _ _) (rep_ok _ _ Hr)).
    simplify_eq. destruct (Hpar _ _ He' Hin) as (e' & He'' & Ep).
    destruct (rep_has _ _ Hr _ He''). congruence.
Qed.

(** A log that was only appended to, and in which every parent was
    appended too, passes the audit. *)
Theorem audit_accepts_append_only d hist r :
  represents d hist →
  (∀ e p, e ∈ hist → p ∈ parent_ids e → ∃ e', e' ∈ hist ∧ action_id e' = p) →
  verify_content_addressing d = Ok r → is_clean r = true.
Proof. apply append_only_clean. Qed.

Lemma flip_byte_ne v i : i < length v → flip_byte v i ≠ v.
Proof.
  intros Hi E. destruct (lookup_lt_is_Some_2 v i Hi) as [b Hb].
  pose proof (f_equal (.!! i) E) as Ei. cbn in Ei. unfold flip_byte in Ei.
  rewrite list_lookup_alter_eq, Hb in Ei. cbn in Ei. injection Ei as Ei.
  apply (f_equal b2z) in Ei. rewrite b2z_z2b in Ei. destruct b; vm_compute in Ei; done.
Qed.

(** Flipping one byte of a stored entry under its key is reported by the
    next audit, unless the altered value has the same hash. *)
Theorem audit_detects_corruption d hist id byte_idx d' r :
  represents d hist → corrupt_value_at d id byte_idx = (Ok true, d') →
  verify_content_addressing d' = Ok r →
  ∃ v v', db_cf d "default" !! id = Some v ∧ db_cf d' "default" !! id = Some v' ∧ v' ≠ v
    ∧ (mkMismatch id (sha256 v') ∈ hash_mismatches r ∨ sha256 v' = sha256 v).
Proof.
  intros Hr Hc ->%verify_Ok. revert Hc. unfold corrupt_value_at.
  destruct (db_get d "default" id) as [[v|]|] eqn:Hg; [|done..]. apply db_get_ok in Hg.
  symmetry in Hg. case_decide as Hv; [done|].
  destruct (db_write _ _ _) as [[[]|] d1] eqn:Hw; [|done].
  destruct (db_flush d1) as [[[]|] d2] eqn:Hf; [|done]. intros [= <-].
  set (v' := flip_byte v (byte_idx `mod` length v)) in *.
  assert (db_cf d2 "default" !! id = Some v') as Hv'.
  { rewrite (db_flush_cf _ _ _ _ Hf), (db_write_ok _ _ _ _ _ Hw). apply lookup_insert_eq. }
  exists v, v'. split_and!; [done|done| |].
  - apply flip_byte_ne. apply Nat.mod_upper_bound. by destruct v.
  - destruct (rep_default _ _ Hr _ _ Hg) as (e & _ & -> & ->). cbn.
    destruct (decide (sha256 v' = sha256 (ser e))); [by right|left].
    apply elem_of_mismatches. exists v'. cbn. split_and!; [done|apply sha256_len|done|done].
Qed.

End laws.

(** ** The demonstration log *)

Definition demo_id : ActionId := action_id demo_e1.
Definition demo_report : ContentIntegrityReport := mkReport 2 [] [].
Lemma demo_verify : verify_content_addressing demo_log = Ok demo_report.
Proof. vm_compute. reflexivity. Qed.
Definition demo_corrupt : db := (corrupt_value_at demo_log demo_id 16).2.
Definition demo_bad_report : ContentIntegrityReport :=
  default demo_report (result_ok (verify_content_addressing demo_corrupt)).
Lemma demo_corrupt_Ok : corrupt_value_at demo_log demo_id 16 = (Ok true, demo_corrupt).
Proof. apply pair_parts; [vm_compute; reflexivity|reflexivity]. Qed.
Lemma demo_bad_verify : verify_content_addressing demo_corrupt = Ok demo_bad_report.
Proof. vm_compute. reflexivity. Qed.

Lemma verify_content_addressing_exact_witness :
  (∀ m, m ∈ [] ↔
     ∃ v, db_cf demo_log "default" !! stored_key m = Some v ∧ length (stored_key m) = 32
          ∧ recomputed m = sha256 v ∧ sha256 v ≠ stored_key m)
  ∧ (∀ x, x ∈ [] ↔
     ∃ v e, db_cf demo_log "default" !! child_key x = Some v ∧ length (child_key x) = 32
       ∧ de v = Ok e ∧ missing_parent x ∈ parent_ids e
       ∧ db_cf demo_log "default" !! missing_parent x = None).
Proof. exact (verify_content_addressing_exact demo_log demo_report demo_verify). Defined.
Lemma audit_accepts_append_only_witness : is_clean demo_report = true.
Proof.
  apply (audit_accepts_append_only demo_log [demo_e1; demo_e2]);
    [apply demo_log_represents| |apply demo_verify].
  intros e p He Hp. exists demo_e1. split; [by left|].
  apply elem_of_cons in He as [->|He]; [by apply not_elem_of_nil in Hp|].
  apply list_elem_of_singleton in He as ->. by apply list_elem_of_singleton in Hp as ->.
Defined.
Lemma audit_detects_corruption_witness :
  ∃ v v', db_cf demo_log "default" !! demo_id = Some v
    ∧ db_cf demo_corrupt "default" !! demo_id = Some v' ∧ v' ≠ v
    ∧ (mkMismatch demo_id (sha256 v') ∈ hash_mismatches demo_bad_report ∨ sha256 v' = sha256 v).
Proof.
  exact (audit_detects_corruption demo_log [demo_e1; demo_e2] demo_id 16 demo_corrupt
    demo_bad_report demo_log_represents demo_corrupt_Ok demo_bad_verify).
Defined.

End Audit.
