(* ===== verification/Durability.v ===== *)
(** Durability: the crash-consistency harness of [poc/runtime/src/durability.rs].

    [write_commits] writes a chain of snapshots and log entries directly to the
    content store and the causal log and returns a witness of what it wrote;
    [verify_icsr] and [verify_p6_concurrent] are the oracles run after a reopen.
    Messages on the error stream are not modelled; the JSON files that carry the
    witness between the two programs are the records themselves. *)
From S2P Require Import Prelude Storage ContentStore CausalLog.
From Stdlib Require Import Strings.Ascii.

Module Icsr.

Record IcsrCommit := mkCommit {
  c_seq : Z;
  action_id_hex : string;
  snapshot_id_hex : string;
  data_hash_hex : string }.

Record IcsrWitness := mkWitness {
  agent_id_hex : string;
  n_commits : nat;
  cut_mode : string;
  commits : list IcsrCommit }.

Inductive IcsrViolationKind := LogEntryMissing | SnapshotMissing | DataBlockMissing.

Record IcsrViolation := mkViolation {
  v_seq : Z;
  v_action_id_hex : string;
  v_snapshot_id_hex : string;
  v_kind : IcsrViolationKind }.

Record IcsrResult := mkIcsr {
  checked : nat;
  log_missing : nat;
  snapshot_missing : nat;
  data_block_missing : nat;
  violations : list IcsrViolation;
  icsr_ok : bool }.
#[global] Instance icsr_settable : Settable IcsrResult := λ r,
  mkIcsr (checked r) (log_missing r) (snapshot_missing r) (data_block_missing r)
    (violations r) (icsr_ok r).

(** The records of the harness with concurrent agents. *)
Record AgentWitness := mkAgentWitness {
  aw_agent_id_hex : string;
  acked_commits : list IcsrCommit }.
Record ConcurrentWitness := mkConcurrent {
  cw_n_agents : nat;
  kill_threshold : nat;
  agents : list AgentWitness }.
Inductive P6ViolationKind :=
| Gap (first_missing_seq later_present_seq : Z)
| P6SnapshotMissing
| P6DataBlockMissing
| ParentIdMissing (parent_hex : string).
Record P6Violation := mkP6Violation {
  p_agent_id_hex : string;
  p_seq : Z;
  p_action_id_hex : string;
  p_kind : P6ViolationKind }.
Record P6ConcurrentResult := mkP6 {
  n_agents : nat;
  total_acked : nat;
  total_visible : nat;
  total_gaps : nat;
  total_icsr_violations : nat;
  total_parent_violations : nat;
  p6_ok : bool;
  p6_violations : list P6Violation }.
#[global] Instance p6_settable : Settable P6ConcurrentResult := λ r,
  mkP6 (n_agents r) (total_acked r) (total_visible r) (total_gaps r)
    (total_icsr_violations r) (total_parent_violations r) (p6_ok r) (p6_violations r).

(** ** Hexadecimal *)

(** A digit of [format!("{byte:02x}")]. *)
Definition hex_char (z : Z) : Ascii.ascii :=
  Ascii.ascii_of_N (Z.to_N (if (z <? 10)%Z then 48 + z else 87 + z)).
Definition hex_encode (b : bytes) : string :=
  foldr (λ x s, String (hex_char (b2z x / 16)) (String (hex_char (b2z x `mod` 16)) s)) "" b.

(** [char::to_digit(16)] *)
Definition hex_digit (c : Ascii.ascii) : option Z :=
  let z := Z.of_N (Ascii.N_of_ascii c) in
  if decide (48 ≤ z ≤ 57)%Z then Some (z - 48)%Z
  else if decide (97 ≤ z ≤ 102)%Z then Some (z - 87)%Z
  else if decide (65 ≤ z ≤ 70)%Z then Some (z - 55)%Z
  else None.
(** [u8::from_str_radix(pair, 16)] on two characters: a leading plus sign is
    accepted. *)
Definition from_str_radix_16 (c1 c2 : Ascii.ascii) : option Z :=
  if decide (c1 = "+"%char) then hex_digit c2
  else a ← hex_digit c1; b ← hex_digit c2; Some (a * 16 + b)%Z.
Fixpoint hex_pairs (s : string) : option bytes :=
  match s with
  | String c1 (String c2 s) => z ← from_str_radix_16 c1 c2; l ← hex_pairs s; Some (z2b z :: l)
  | _ => Some []
  end.
Definition hex_decode_32 (s : string) : option bytes :=
  if decide (String.length s ≠ 64) then None else hex_pairs s.

Section ops.
Context `{R : RocksDB, H256 : Sha256, BH : Bincode Store.SnapshotHeader, BL : Bincode Log.LogEntry}.

(** ** Writing *)

Inductive write_error :=
| PutBlockFailed | PutSnapshotFailed (seq : Z) | AppendFailed (seq : Z).

(** The loop of [write_commits]; the state is the two databases. *)
Fixpoint write_loop (store log : db) (agent_id : bytes) (data_h : bytes)
    (parent_snap prev_action : option bytes) (hash_before : bytes)
    (acc : list IcsrCommit) (seqs : list Z) : result write_error (list IcsrCommit) * db * db :=
  match seqs with
  | [] => (Ok acc, store, log)
  | seq :: seqs =>
      let header := Store.mkHeader data_h parent_snap seq (u64 (seq * 1000)) in
      match Store.put_snapshot store header with
      | (Err _, store) => (Err (PutSnapshotFailed seq), store, log)
      | (Ok snap_id, store) =>
          let entry := Log.mkEntry agent_id seq (from_option (λ id, [id]) [] prev_action)
                         hash_before data_h None in
          match Log.append log entry with
          | (Err _, log) => (Err (AppendFailed seq), store, log)
          | (Ok action_id, log) =>
              let commit := mkCommit seq (hex_encode action_id) (hex_encode snap_id) (hex_encode data_h) in
              write_loop store log agent_id data_h (Some snap_id) (Some action_id) data_h
                (acc ++ [commit]) seqs
          end
      end
  end.
Definition write_commits (store log : db) (agent_id : bytes) (n : nat) (block_size : nat)
    : result write_error IcsrWitness * db * db :=
  match Store.put_block store (replicate block_size Byte.xab) with
  | (Err _, store) => (Err PutBlockFailed, store, log)
  | (Ok data_h, store) =>
      match write_loop store log agent_id data_h None None (replicate 32 Byte.x00) []
              (seqZ 0 (Z.of_nat n)) with
      | (Err e, store, log) => (Err e, store, log)
      | (Ok commits, store, log) =>
          (Ok (mkWitness (hex_encode agent_id) n "" commits), store, log)
      end
  end.

(** ** The I-CSR oracle *)

Definition violation_of (c : IcsrCommit) (k : IcsrViolationKind) : IcsrViolation :=
  mkViolation (c_seq c) (action_id_hex c) (snapshot_id_hex c) k.

(** The checks of a commit whose log entry is present. *)
Definition check_snapshot (store : db) (c : IcsrCommit) (snap_id : bytes) (r : IcsrResult) : IcsrResult :=
  match Store.has_snapshot store snap_id with
  | Ok false => r <| snapshot_missing ::= S |>
                  <| violations ::= λ l, l ++ [violation_of c SnapshotMissing] |>
  | _ => r
  end.
Definition check_block (store : db) (c : IcsrCommit) (data_hash : bytes) (r : IcsrResult) : IcsrResult :=
  match Store.get_block store data_hash with
  | Ok None => r <| data_block_missing ::= S |>
                 <| violations ::= λ l, l ++ [violation_of c DataBlockMissing] |>
  | _ => r
  end.

Definition verify_commit (store log : db) (r : IcsrResult) (c : IcsrCommit) : IcsrResult :=
  match hex_decode_32 (action_id_hex c), hex_decode_32 (snapshot_id_hex c),
        hex_decode_32 (data_hash_hex c) with
  | Some action_id, Some snap_id, Some data_hash =>
      match Log.get log action_id with
      | Ok (Some _) => check_block store c data_hash (check_snapshot store c snap_id r)
      | Ok None => r <| log_missing ::= S |>
                     <| violations ::= λ l, l ++ [violation_of c LogEntryMissing] |>
      | Err _ => r
      end
  | _, _, _ => r
  end.

Definition verify_icsr (store log : db) (w : IcsrWitness) : IcsrResult :=
  let r := foldl (verify_commit store log) (mkIcsr 0 0 0 0 [] false) (commits w) in
  r <| checked := length (commits w) |>
    <| icsr_ok := Nat.eqb (snapshot_missing r) 0 && Nat.eqb (data_block_missing r) 0 |>.

(** ** The valid-prefix oracle *)

Definition visible_commit (log : db) (c : IcsrCommit) : bool :=
  match hex_decode_32 (action_id_hex c) with
  | None => false
  | Some action_id => match Log.get log action_id with Ok (Some _) => true | _ => false end
  end.
(** [visible.iter().take_while(..).count()] *)
Fixpoint take_while_count (l : list bool) : nat :=
  match l with true :: l => S (take_while_count l) | _ => 0 end.

Definition p6_violation (agent : AgentWitness) (c : IcsrCommit) (k : P6ViolationKind) : P6Violation :=
  mkP6Violation (aw_agent_id_hex agent) (c_seq c) (action_id_hex c) k.

(** Step 3: the visible commits after the first missing one. *)
Definition gap_check (agent : AgentWitness) (visible : list bool) (first_missing_seq : Z)
    (r : P6ConcurrentResult) (iv : nat * bool) : P6ConcurrentResult :=
  match iv with
  | (i, true) =>
      match acked_commits agent !! i with
      | Some c => r <| total_gaps ::= S |>
                    <| p6_violations ::= λ l, l ++ [p6_violation agent c (Gap first_missing_seq (c_seq c))] |>
      | None => r
      end
  | (_, false) => r
  end.
Definition gaps (agent : AgentWitness) (visible : list bool) (prefix_len : nat)
    (r : P6ConcurrentResult) : P6ConcurrentResult :=
  match acked_commits agent !! prefix_len with
  | Some first_missing =>
      foldl (gap_check agent visible (c_seq first_missing)) r
        (drop (prefix_len + 1) (imap pair visible))
  | None => r
  end.

(** Step 4: snapshot and block of a commit of the prefix. *)
Definition p6_icsr (store : db) (agent : AgentWitness) (r : P6ConcurrentResult) (c : IcsrCommit)
    : P6ConcurrentResult :=
  match hex_decode_32 (snapshot_id_hex c), hex_decode_32 (data_hash_hex c) with
  | Some snap_id, Some data_hash =>
      let r := match Store.has_snapshot store snap_id with
               | Ok false => r <| total_icsr_violations ::= S |>
                   <| p6_violations ::= λ l, l ++ [p6_violation agent c P6SnapshotMissing] |>
               | _ => r
               end in
      match Store.get_block store data_hash with
      | Ok None => r <| total_icsr_violations ::= S |>
          <| p6_violations ::= λ l, l ++ [p6_violation agent c P6DataBlockMissing] |>
      | _ => r
      end
  | _, _ => r
  end.

(** Step 5: the parents of the entry of a commit of the prefix. *)
Definition p6_parent (log : db) (agent : AgentWitness) (c : IcsrCommit)
    (r : P6ConcurrentResult) (parent_id : bytes) : P6ConcurrentResult :=
  match Log.get log parent_id with
  | Ok None => r <| total_parent_violations ::= S |>
      <| p6_violations ::= λ l, l ++ [p6_violation agent c (ParentIdMissing (hex_encode parent_id))] |>
  | _ => r
  end.
Definition p6_parents (log : db) (agent : AgentWitness) (r : P6ConcurrentResult) (c : IcsrCommit)
    : P6ConcurrentResult :=
  match hex_decode_32 (action_id_hex c) with
  | None => r
  | Some action_id =>
      match Log.get log action_id with
      | Ok (Some e) => foldl (p6_parent log agent c) r (Log.parent_ids e)
      | _ => r
      end
  end.

Definition p6_agent (store log : db) (r : P6ConcurrentResult) (agent : AgentWitness)
    : P6ConcurrentResult :=
  let visible := visible_commit log <$> acked_commits agent in
  let prefix_len := take_while_count visible in
  let r := r <| total_visible ::= λ n, n + prefix_len |> in
  let r := if decide (prefix_len < length visible) then gaps agent visible prefix_len r else r in
  let r := foldl (p6_icsr store agent) r (take prefix_len (acked_commits agent)) in
  foldl (p6_parents log agent) r (take prefix_len (acked_commits agent)).

Definition verify_p6_concurrent (store log : db) (w : ConcurrentWitness) : P6ConcurrentResult :=
  let total_acked := sum_list ((λ a, length (acked_commits a)) <$> agents w) in
  let r := foldl (p6_agent store log) (mkP6 (cw_n_agents w) total_acked 0 0 0 0 false []) (agents w) in
  r <| p6_ok := Nat.eqb (total_gaps r) 0 && Nat.eqb (total_icsr_violations r) 0
                && Nat.eqb (total_parent_violations r) 0 |>.

End ops.

(** ** Hexadecimal round trip *)

Lemma hex_byte x :
  from_str_radix_16 (hex_char (b2z x / 16)) (hex_char (b2z x `mod` 16)) = Some (b2z x).
Proof. destruct x; vm_compute; reflexivity. Qed.
Lemma hex_pairs_encode b : hex_pairs (hex_encode b) = Some b.
Proof.
  induction b as [|x b IH]; [done|]. cbn [hex_encode foldr].
  change (foldr _ "" b) with (hex_encode b). cbn [hex_pairs].
  rewrite hex_byte. cbn. rewrite IH. cbn. by rewrite z2b_b2z.
Qed.
Lemma length_hex_encode b : String.length (hex_encode b) = 2 * length b.
Proof.
  induction b as [|x b IH]; [done|]. cbn [hex_encode foldr].
  change (foldr _ "" b) with (hex_encode b). cbn [String.length length]. rewrite IH. lia.
Qed.
Lemma hex_decode_encode b : length b = 32 → hex_decode_32 (hex_encode b) = Some b.
Proof.
  intros Hb. unfold hex_decode_32. rewrite length_hex_encode, Hb. by apply hex_pairs_encode.
Qed.

Section laws.
Context `{R : RocksDB, !RocksLaws R, H256 : Sha256, !Sha256Laws H256,
          BH : Bincode Store.SnapshotHeader, BL : Bincode Log.LogEntry}.

(** ** The commits a witness names are in the databases *)

Definition written (store log : db) (c : IcsrCommit) : Prop :=
  ∃ a s h, action_id_hex c = hex_encode a ∧ snapshot_id_hex c = hex_encode s
    ∧ data_hash_hex c = hex_encode h ∧ length a = 32 ∧ length s = 32 ∧ length h = 32
    ∧ is_Some (db_cf log "default" !! a) ∧ is_Some (db_cf store "headers" !! s)
    ∧ is_Some (db_cf store "blocks" !! h).
Lemma written_grows store store' log log' c :
  grows store store' → grows log log' → written store log c → written store' log' c.
Proof.
  intros Hs Hl (a & s & h & ? & ? & ? & ? & ? & ? & ? & ? & ?). exists a, s, h. split_and!; auto.
Qed.

Lemma write_loop_written store log agent data_h ps pa hb acc seqs cs store' log' :
  length data_h = 32 → is_Some (db_cf store "blocks" !! data_h) → Forall (written store log) acc →
  write_loop store log agent data_h ps pa hb acc seqs = (Ok cs, store', log') →
  Forall (written store' log') cs ∧ c_seq <$> cs = (c_seq <$> acc) ++ seqs.
Proof.
  intros Hh. revert store log ps pa hb acc.
  induction seqs as [|sq seqs IH]; intros store log ps pa hb acc Hb Hacc; cbn [write_loop].
  { intros [= <- <- <-]. by rewrite app_nil_r. }
  destruct (Store.put_snapshot _ _) as [[snap|] store1] eqn:Es; [|done].
  destruct (Log.append _ _) as [[act|] log1] eqn:El; [|done].
  apply Store.put_snapshot_written in Es as (Hsnap & Hgs & Hins).
  apply Log.append_written in El as (Hact & Hgl & Hina).
  intros Hw. apply IH in Hw as [Hcs Hseq]; [split; [done|]|by apply Hgs|].
  - rewrite Hseq, fmap_app, <-(assoc_L (++)). done.
  - apply Forall_app. split.
    + eapply Forall_impl; [done|]. intros c. by apply written_grows.
    + constructor; [|done]. exists act, snap, data_h.
      split_and!; try done; [subst; apply sha256_len..|by apply Hgs].
Qed.

Lemma verify_written store log r c : written store log c → verify_commit store log r c = r.
Proof.
  intros (a & s & h & Ea & Es & Eh & La & Ls & Lh & [va Ha] & [vs Hs] & [vh Hh]).
  unfold verify_commit. rewrite Ea, Es, Eh, !hex_decode_encode by done.
  assert (check_block store c h (check_snapshot store c s r) = r) as E.
  { unfold check_block, check_snapshot, Store.get_block, Store.has_snapshot.
    destruct (db_get store "headers" s) as [o|] eqn:Eo; cbn.
    - apply db_get_ok in Eo. rewrite Hs in Eo. subst. cbn.
      destruct (db_get store "blocks" h) as [o|] eqn:Eo; cbn; [|done].
      apply db_get_ok in Eo. rewrite Hh in Eo. by subst.
    - destruct (db_get store "blocks" h) as [o|] eqn:Eo'; cbn; [|done].
      apply db_get_ok in Eo'. rewrite Hh in Eo'. by subst. }
  destruct (Log.get log a) as [[e|]|] eqn:Eg; [done| |done].
  revert Eg. unfold Log.get. destruct (db_get log "default" a) as [[b|]|] eqn:Eo; cbn; [|..|done].
  - by destruct (de b).
  - apply db_get_ok in Eo. congruence.
Qed.

(** ** Properties *)

(** After a successful [write_commits], and after any further writes to
    either database, the oracle finds every commit in place: it checks all
    of them and reports no violation. *)
Theorem write_commits_verified store log agent n block_size w store1 log1 store2 log2 :
  write_commits store log agent n block_size = (Ok w, store1, log1) →
  grows store1 store2 → grows log1 log2 →
  verify_icsr store2 log2 w = mkIcsr n 0 0 0 [] true.
Proof.
  unfold write_commits. destruct (Store.put_block _ _) as [[h|] store0] eqn:Eb; [|done].
  apply Store.put_block_written in Eb as (Hh & _ & Hin).
  destruct (write_loop _ _ _ _ _ _ _ _ _) as [[[cs|] store'] log'] eqn:Ew; [|done].
  intros [= <- <- <-] Hs Hl.
  apply write_loop_written in Ew as [Hcs Hseq]; [|subst; apply sha256_len|done|done].
  assert (Forall (written store2 log2) cs) as Hcs2.
  { eapply Forall_impl; [done|]. intros c. by apply written_grows. }
  assert (foldl (verify_commit store2 log2) (mkIcsr 0 0 0 0 [] false) cs
          = mkIcsr 0 0 0 0 [] false) as Ef.
  { clear -Hcs2. induction Hcs2 as [|c cs Hc _ IH]; cbn; [done|]. by rewrite verify_written. }
  unfold verify_icsr. cbn [commits]. rewrite Ef. cbn.
  apply (f_equal length) in Hseq. rewrite length_fmap, length_app, length_seqZ in Hseq.
  rewrite Hseq. cbn. f_equal. lia.
Qed.

(** What the I-CSR oracle counts against a commit. *)
Definition dangling_commit (store log : db) (c : IcsrCommit) : Prop :=
  ∃ a s h e, hex_decode_32 (action_id_hex c) = Some a ∧ hex_decode_32 (snapshot_id_hex c) = Some s
    ∧ hex_decode_32 (data_hash_hex c) = Some h ∧ Log.get log a = Ok (Some e)
    ∧ (Store.has_snapshot store s = Ok false ∨ Store.get_block store h = Ok None).

(** The verdict of the I-CSR oracle is that no commit of the witness has
    its log entry present while its snapshot or its data block is absent;
    missing log entries do not affect it. *)
Theorem icsr_ok_iff store log w :
  icsr_ok (verify_icsr store log w) = true ↔
  ∀ c, c ∈ commits w → ¬ dangling_commit store log c.
Proof.
  unfold verify_icsr. cbn.
  set (good := λ r, snapshot_missing r = 0 ∧ data_block_missing r = 0).
  assert (∀ r, Nat.eqb (snapshot_missing r) 0 && Nat.eqb (data_block_missing r) 0 = true ↔ good r) as ->.
  { intros r. by rewrite andb_true_iff, !Nat.eqb_eq. }
  rewrite (foldl_all good (λ c, ¬ dangling_commit store log c)), Forall_forall;
    [split; [by intros [_ ?]|done]|].
  intros r c. unfold verify_commit.
  assert ((∀ a s h e, hex_decode_32 (action_id_hex c) = Some a →
      hex_decode_32 (snapshot_id_hex c) = Some s → hex_decode_32 (data_hash_hex c) = Some h →
      Log.get log a = Ok (Some e) → False) → good r ↔ good r ∧ ¬ dangling_commit store log c) as Hskip.
  { intros Hno. split; [|by intros [? _]]. intros ?. split; [done|].
    intros (a & s & h & e & ? & ? & ? & ? & _). by eapply Hno. }
  destruct (hex_decode_32 (action_id_hex c)) as [a|] eqn:Ea; [|by apply Hskip].
  destruct (hex_decode_32 (snapshot_id_hex c)) as [s|] eqn:Es; [|by apply Hskip].
  destruct (hex_decode_32 (data_hash_hex c)) as [h|] eqn:Eh; [|by apply Hskip].
  assert (∀ e, Log.get log a = Ok (Some e) → dangling_commit store log c ↔
    Store.has_snapshot store s = Ok false ∨ Store.get_block store h = Ok None) as Hdang.
  { intros e Hg. split; [|by exists a, s, h, e].
    intros (a' & s' & h' & e' & ? & ? & ? & ? & ?). by simplify_eq. }
  destruct (Log.get log a) as [[e|]|] eqn:Eg; [rewrite (Hdang e eq_refl)|..];
    [|apply Hskip; intros; congruence..].
  unfold check_block, check_snapshot, good.
  destruct (Store.has_snapshot store s) as [[]|], (Store.get_block store h) as [[]|]; cbn;
    (split; [intros [? ?]; (lia || (split; [done|by intros [?|?]]))
            |intros [? Hn]; try done; exfalso; apply Hn; auto]).
Qed.

(** ** The valid-prefix oracle *)

Definition prefix_closed (l : list bool) : Prop :=
  ∀ i j, i < j → l !! j = Some true → l !! i = Some true.

Lemma take_while_count_spec l i :
  (i < take_while_count l → l !! i = Some true) ∧ l !! take_while_count l ≠ Some true.
Proof.
  revert i. induction l as [|[] l IH]; intros i; cbn; [split; [lia|done]| |split; [lia|done]].
  split; [|by apply (IH 0)]. destruct i as [|i]; cbn; [done|]. intros ?. apply IH. lia.
Qed.
Lemma prefix_closed_iff l :
  prefix_closed l ↔ ∀ i, take_while_count l < i → l !! i ≠ Some true.
Proof.
  split.
  - intros Hc i Hi Ht. by apply (proj2 (take_while_count_spec l 0)), (Hc _ i).
  - intros Hn i j Hij Hj. apply (proj1 (take_while_count_spec l i)).
    destruct (Nat.lt_trichotomy j (take_while_count l)) as [?|[->|?]]; [lia| |by destruct (Hn j)].
    by destruct (proj2 (take_while_count_spec l 0)).
Qed.

(** The three counters of the oracle are all zero. *)
Definition p6_good (r : P6ConcurrentResult) : Prop :=
  total_gaps r = 0 ∧ total_icsr_violations r = 0 ∧ total_parent_violations r = 0.

Lemma gaps_good agent visible r :
  length visible = length (acked_commits agent) →
  p6_good (if decide (take_while_count visible < length visible)
           then gaps agent visible (take_while_count visible) r else r)
  ↔ p6_good r ∧ prefix_closed visible.
Proof.
  intros Hlen. rewrite prefix_closed_iff. set (n := take_while_count visible).
  case_decide as Hn.
  - unfold gaps. destruct (lookup_lt_is_Some_2 (acked_commits agent) n) as [first Hfirst]; [lia|].
    rewrite Hfirst.
    rewrite (foldl_all p6_good (λ iv : nat * bool, ¬ (iv.2 = true ∧ is_Some (acked_commits agent !! iv.1)))).
    2:{ intros r' [i []]; cbn; [destruct (acked_commits agent !! i) eqn:Ei|].
        - unfold p6_good; cbn. split; [lia|]. intros [_ Hx]. destruct Hx. eauto.
        - split; [intros ?; split; [done|]; by intros [_ [? ?]]|by intros [? _]].
        - split; [intros ?; split; [done|]; by intros [? _]|by intros [? _]]. }
    apply and_iff_compat_l. rewrite Forall_lookup. split.
    + intros Hf i Hi Ht. apply (Hf (i - (n + 1)) (i, true)).
      * rewrite lookup_drop, list_lookup_imap. replace (n + 1 + (i - (n + 1))) with i by lia.
        by rewrite Ht.
      * split; [done|]. cbn. apply lookup_lt_is_Some_2. rewrite <-Hlen. by eapply lookup_lt_Some.
    + intros Hf k [i b] Hk [Hb _]. cbn in Hb. subst.
      rewrite lookup_drop, list_lookup_imap in Hk.
      destruct (visible !! (n + 1 + k)) eqn:E; cbn in Hk; [|done]. simplify_eq.
      apply (Hf (n + 1 + k)); [lia|done].
  - split; [|by intros [? _]]. intros ?. split; [done|]. intros i Hi Ht%lookup_lt_Some. lia.
Qed.

(** What the oracle counts against a commit of the visible prefix. *)
Definition p6_dangling (store : db) (c : IcsrCommit) : Prop :=
  ∃ s h, hex_decode_32 (snapshot_id_hex c) = Some s ∧ hex_decode_32 (data_hash_hex c) = Some h
    ∧ (Store.has_snapshot store s = Ok false ∨ Store.get_block store h = Ok None).
Definition p6_orphan (log : db) (c : IcsrCommit) : Prop :=
  ∃ a e p, hex_decode_32 (action_id_hex c) = Some a ∧ Log.get log a = Ok (Some e)
    ∧ p ∈ Log.parent_ids e ∧ Log.get log p = Ok None.

Lemma p6_icsr_good store agent r c :
  p6_good (p6_icsr store agent r c) ↔ p6_good r ∧ ¬ p6_dangling store c.
Proof.
  unfold p6_icsr, p6_dangling.
  destruct (hex_decode_32 (snapshot_id_hex c)) as [s|];
    [|split; [intros ?; split; [done|]; by intros (? & ? & ? & _)|by intros [? _]]].
  destruct (hex_decode_32 (data_hash_hex c)) as [h|];
    [|split; [intros ?; split; [done|]; by intros (? & ? & _ & ? & _)|by intros [? _]]].
  assert ((∃ s' h', Some s = Some s' ∧ Some h = Some h' ∧
      (Store.has_snapshot store s' = Ok false ∨ Store.get_block store h' = Ok None)) ↔
    (Store.has_snapshot store s = Ok false ∨ Store.get_block store h = Ok None)) as ->.
  { split; [intros (? & ? & ? & ? & ?); by simplify_eq|by exists s, h]. }
  unfold p6_good.
  destruct (Store.has_snapshot store s) as [[]|], (Store.get_block store h) as [[]|]; cbn;
    (split; [intros (? & ? & ?); (lia || (split; [done|by intros [?|?]]))
            |intros [? Hn]; try done; exfalso; apply Hn; auto]).
Qed.

Lemma p6_parents_good log agent r c :
  p6_good (p6_parents log agent r c) ↔ p6_good r ∧ ¬ p6_orphan log c.
Proof.
  unfold p6_parents. assert ((∀ a e p, hex_decode_32 (action_id_hex c) = Some a →
      Log.get log a = Ok (Some e) → p ∈ Log.parent_ids e → False) →
    p6_good r ↔ p6_good r ∧ ¬ p6_orphan log c) as Hskip.
  { intros Hno. split; [|by intros [? _]]. intros ?. split; [done|].
    intros (a & e & p & ? & ? & ? & _). by eapply Hno. }
  destruct (hex_decode_32 (action_id_hex c)) as [a|] eqn:Ea; [|by apply Hskip].
  destruct (Log.get log a) as [[e|]|] eqn:Eg; [|apply Hskip; intros; congruence..].
  rewrite (foldl_all p6_good (λ p, Log.get log p ≠ Ok None)).
  - apply and_iff_compat_l. rewrite Forall_forall. unfold p6_orphan. split.
    + intros Hf (a' & e' & p & ? & ? & Hin & ?). assert (a' = a) as -> by congruence.
      assert (e' = e) as -> by congruence. by apply (Hf p).
    + intros Hn p Hin ?. apply Hn. by exists a, e, p.
  - intros r' p. unfold p6_parent, p6_good.
    destruct (Log.get log p) as [[]|]; cbn; (split; [intros ?; (lia || done)|intros [? ?]; done]).
Qed.

(** The verdict of the valid-prefix oracle is that for every agent the
    visible acknowledged commits are a prefix of the acknowledged ones, and
    that no commit of that prefix misses its snapshot, its block or a parent. *)
Theorem p6_ok_iff store log w :
  p6_ok (verify_p6_concurrent store log w) = true ↔
  ∀ agent, agent ∈ agents w →
    let visible := visible_commit log <$> acked_commits agent in
    prefix_closed visible
    ∧ ∀ c, c ∈ take (take_while_count visible) (acked_commits agent) →
        ¬ p6_dangling store c ∧ ¬ p6_orphan log c.
Proof.
  unfold verify_p6_concurrent. cbn.
  assert (∀ r, Nat.eqb (total_gaps r) 0 && Nat.eqb (total_icsr_violations r) 0
    && Nat.eqb (total_parent_violations r) 0 = true ↔ p6_good r) as ->.
  { intros r. rewrite !andb_true_iff, !Nat.eqb_eq. unfold p6_good. tauto. }
  rewrite (foldl_all p6_good (λ agent,
    let visible := visible_commit log <$> acked_commits agent in
    prefix_closed visible
    ∧ ∀ c, c ∈ take (take_while_count visible) (acked_commits agent) →
        ¬ p6_dangling store c ∧ ¬ p6_orphan log c)).
  - rewrite Forall_forall. unfold p6_good at 1. cbn. tauto.
  - intros r agent. unfold p6_agent. cbv zeta.
    rewrite (foldl_all p6_good (λ c, ¬ p6_orphan log c)) by apply p6_parents_good.
    rewrite (foldl_all p6_good (λ c, ¬ p6_dangling store c)) by apply p6_icsr_good.
    rewrite gaps_good by by rewrite length_fmap.
    rewrite !Forall_forall. change (p6_good (r <| total_visible ::= _ |>)) with (p6_good r).
    split; [intros [[[? ?] ?] ?]; split_and!; auto|].
    intros (? & ? & Hc). split_and!; [done|done|by intros ? [? _]%Hc|by intros ? [_ ?]%Hc].
Qed.

End laws.

(** ** A run of the harness *)

Definition demo_run : result write_error IcsrWitness * db * db :=
  write_commits (BL := Log.mem_entry) Mem.empty_db Mem.empty_db (replicate 16 Byte.x41) 2 4.
Definition demo_witness : IcsrWitness :=
  default (mkWitness "" 0 "" []) (result_ok demo_run.1.1).
Lemma demo_run_Ok : demo_run = (Ok demo_witness, demo_run.1.2, demo_run.2).
Proof.
  apply pair_parts; [|reflexivity]. apply pair_parts; [vm_compute; reflexivity|reflexivity].
Qed.

Lemma write_commits_verified_witness :
  verify_icsr demo_run.1.2 demo_run.2 demo_witness = mkIcsr 2 0 0 0 [] true.
Proof.
  exact (write_commits_verified _ _ _ _ _ _ _ _ demo_run.1.2 demo_run.2 demo_run_Ok
    (λ cf k Hk, Hk) (λ cf k Hk, Hk)).
Defined.

End Icsr.
