(* ===== verification/InferQueue.v ===== *)
(** InferQueue: the bounded priority queue of inferences and its dispatcher.

    Module [Queue] is [QueueState] of [poc/runtime/src/inference/queue.rs]:
    three FIFO queues, admission with eviction, starvation promotion, strict
    priority.  Module [Pool] is [InferencePool] of [inference/mod.rs]: the
    submitting clients, the dispatcher task, the inference tasks it spawns, the
    semaphore and the stored wake-up of [Notify], as a step relation in which
    each step is one access to the shared state.  Results are sent on one-shot
    channels, named by the number of the client that waits on them; the
    cancellation token of a client has the same number. *)
From S2P Require Import Prelude.

(** The items of the three queues. *)
Module Queue.

Abbreviation AgentId := bytes.

Inductive PriorityClass := Supervisor | Foreground | Batch.
#[global] Instance PriorityClass_eq_dec : EqDecision PriorityClass.
Proof. solve_decision. Defined.

Definition promoted_class (c : PriorityClass) : PriorityClass :=
  match c with Batch => Foreground | Foreground => Supervisor | Supervisor => Supervisor end.

Record SlotAcquiredInfo := mkSlot {
  priority_class : PriorityClass;
  queue_depth_at_admission : Z;
  promoted_from : option PriorityClass }.

Record InferResponse := mkResponse {
  text : string;
  truncated : bool;
  slot_info : option SlotAcquiredInfo }.

Inductive InferError :=
| Cancelled
| Timeout
| BackendError (code : Z) (message : string)
| NoSlot.

(** An instant is a number of nanoseconds of the monotonic clock. *)
Abbreviation Instant := Z.
(** [now.duration_since(t).as_millis() as u64] *)
Definition elapsed_ms (now t : Instant) : Z := u64 (Z.max 0 (now - t) / 1000000).

Record QueueEntry := mkEntry {
  e_agent_id : AgentId;
  e_prompt : bytes;
  e_timeout_ms : Z;
  e_cancel : nat;
  admission_seq : Z;
  admission_instant : Instant;
  effective_class : PriorityClass;
  original_class : PriorityClass;
  promoted : bool;
  depth_at_admission : Z;
  result_tx : nat }.
#[global] Instance QueueEntry_settable : Settable QueueEntry := λ e,
  mkEntry (e_agent_id e) (e_prompt e) (e_timeout_ms e) (e_cancel e) (admission_seq e)
    (admission_instant e) (effective_class e) (original_class e) (promoted e)
    (depth_at_admission e) (result_tx e).

Record QueueState := mkQueue {
  supervisor : list QueueEntry;
  foreground : list QueueEntry;
  batch : list QueueEntry;
  in_flight : Z;
  queue_capacity : nat;
  max_starvation_ms : Z;
  admission_counter : Z;
  total_admitted : Z;
  total_rejected : Z;
  total_promoted : Z }.
#[global] Instance QueueState_settable : Settable QueueState := λ q,
  mkQueue (supervisor q) (foreground q) (batch q) (in_flight q) (queue_capacity q)
    (max_starvation_ms q) (admission_counter q) (total_admitted q) (total_rejected q)
    (total_promoted q).

Definition new_queue (capacity : nat) (starvation_ms : Z) : QueueState :=
  mkQueue [] [] [] 0 capacity starvation_ms 0 0 0 0.

Definition total_waiting (q : QueueState) : nat :=
  length (supervisor q) + length (foreground q) + length (batch q).

(** What [try_enqueue] sends on the channel of an evicted entry. *)
Definition sent : Type := list (nat * result InferError InferResponse).

Definition push_back (class : PriorityClass) (e : QueueEntry) (q : QueueState) : QueueState :=
  match class with
  | Supervisor => q <| supervisor ::= λ l, l ++ [e] |>
  | Foreground => q <| foreground ::= λ l, l ++ [e] |>
  | Batch => q <| batch ::= λ l, l ++ [e] |>
  end.

(** [self.admission_counter += 1], the new entry and its admission. *)
Definition admit_entry (now : Instant) (depth : Z) (agent_id : AgentId) (prompt : bytes)
    (timeout_ms : Z) (cancel : nat) (class : PriorityClass) (tx : nat) (q : QueueState) : QueueState :=
  let q := q <| admission_counter ::= λ n, u64 (n + 1) |> in
  let e := mkEntry agent_id prompt timeout_ms cancel (admission_counter q) now class class false depth tx in
  push_back class e q <| total_admitted ::= λ n, u64 (n + 1) |>.

Definition try_enqueue (now : Instant) (q : QueueState) (agent_id : AgentId) (prompt : bytes)
    (timeout_ms : Z) (cancel : nat) (class : PriorityClass) (tx : nat)
    : result InferError Z * QueueState * sent :=
  let depth_before := u16 (Z.of_nat (total_waiting q)) in
  let total_entries := (Z.of_nat (total_waiting q) + in_flight q)%Z in
  if decide (Z.of_nat (queue_capacity q) ≤ total_entries)%Z then
    match class, last (batch q) with
    | Supervisor, Some evicted =>
        let q := q <| batch ::= λ l, take (length l - 1) l |>
                   <| total_rejected ::= λ n, u64 (n + 1) |> in
        (Ok depth_before, admit_entry now depth_before agent_id prompt timeout_ms cancel class tx q,
         [(result_tx evicted, Err NoSlot)])
    | _, _ => (Err NoSlot, q <| total_rejected ::= λ n, u64 (n + 1) |>, [])
    end
  else
    (Ok depth_before, admit_entry now depth_before agent_id prompt timeout_ms cancel class tx q, []).

(** One of the two passes of [apply_starvation_promotions]: entries that qualify
    leave the queue, marked, in order; [n] counts them. *)
Fixpoint promote_pass (qualifies : QueueEntry → bool) (target : PriorityClass)
    (l : list QueueEntry) : list QueueEntry * list QueueEntry :=
  match l with
  | [] => ([], [])
  | e :: l =>
      let '(out, remaining) := promote_pass qualifies target l in
      if qualifies e
      then (e <| promoted := true |> <| effective_class := target |> :: out, remaining)
      else (out, e :: remaining)
  end.

Definition starving (now : Instant) (q : QueueState) (e : QueueEntry) : bool :=
  (max_starvation_ms q <=? elapsed_ms now (admission_instant e))%Z.

(** [push_front] in reverse order puts the promoted entries, in order, ahead. *)
Definition apply_starvation_promotions (now : Instant) (q : QueueState) : QueueState :=
  let '(to_fg, rest_batch) :=
    promote_pass (λ e, negb (promoted e) && starving now q e) Foreground (batch q) in
  let fg := to_fg ++ foreground q in
  let '(to_sup, rest_fg) :=
    promote_pass (λ e, negb (promoted e) && bool_decide (original_class e = Foreground)
                       && starving now q e) Supervisor fg in
  q <| batch := rest_batch |> <| foreground := rest_fg |>
    <| supervisor := to_sup ++ supervisor q |>
    <| total_promoted ::= λ n, u64 (n + Z.of_nat (length to_fg) + Z.of_nat (length to_sup)) |>.

Definition pop_next (now : Instant) (q : QueueState) : option QueueEntry * QueueState :=
  let q := apply_starvation_promotions now q in
  match supervisor q with
  | e :: l => (Some e, q <| supervisor := l |>)
  | [] =>
      match foreground q with
      | e :: l => (Some e, q <| foreground := l |>)
      | [] =>
          match batch q with
          | e :: l => (Some e, q <| batch := l |>)
          | [] => (None, q)
          end
      end
  end.

Record QueueStats := mkStats {
  waiting : nat * nat * nat;
  oldest_wait_ms : option Z * option Z * option Z;
  s_total_admitted : Z;
  s_total_rejected : Z;
  s_total_promoted : Z }.
Definition oldest (now : Instant) (l : list QueueEntry) : option Z :=
  (λ e, elapsed_ms now (admission_instant e)) <$> head l.
Definition stats (now : Instant) (q : QueueState) : QueueStats :=
  mkStats (length (supervisor q), length (foreground q), length (batch q))
    (oldest now (supervisor q), oldest now (foreground q), oldest now (batch q))
    (total_admitted q) (total_rejected q) (total_promoted q).

(** [cancel_agent]: the tokens it cancels. *)
Definition cancel_agent (q : QueueState) (agent_id : AgentId) : list nat :=
  e_cancel <$> filter (λ e, e_agent_id e = agent_id) (supervisor q ++ foreground q ++ batch q).

(** ** Promotion as filtering *)

Definition mark (target : PriorityClass) (e : QueueEntry) : QueueEntry :=
  e <| promoted := true |> <| effective_class := target |>.
(** An entry without the marks a promotion leaves. *)
Definition unmark (e : QueueEntry) : QueueEntry :=
  e <| promoted := false |> <| effective_class := original_class e |>.
Definition entries (q : QueueState) : list QueueEntry :=
  supervisor q ++ foreground q ++ batch q.

Lemma promote_pass_filter f target l :
  promote_pass f target l = (mark target <$> filter (λ e, f e = true) l, filter (λ e, f e = false) l).
Proof.
  induction l as [|e l IH]; cbn [promote_pass]; [done|]. rewrite IH, !filter_cons.
  destruct (f e) eqn:Ef; repeat case_decide; try congruence; reflexivity.
Qed.
Lemma filter_split {A} (f : A → bool) (l : list A) :
  filter (λ x, f x = true) l ++ filter (λ x, f x = false) l ≡ₚ l.
Proof.
  induction l as [|x l IH]; [done|]. rewrite !filter_cons.
  destruct (f x) eqn:E; repeat case_decide; try congruence.
  - by rewrite <-app_comm_cons, IH.
  - by rewrite <-Permutation_middle, IH.
Qed.
Lemma unmark_pass f target l :
  unmark <$> (mark target <$> filter (λ e, f e = true) l) ++ filter (λ e, f e = false) l ≡ₚ unmark <$> l.
Proof.
  rewrite fmap_app, <-list_fmap_compose. change (unmark ∘ mark target) with unmark.
  by rewrite <-fmap_app, filter_split.
Qed.

Definition to_fg (now : Instant) (q : QueueState) (e : QueueEntry) : bool :=
  negb (promoted e) && starving now q e.
Definition to_sup (now : Instant) (q : QueueState) (e : QueueEntry) : bool :=
  negb (promoted e) && bool_decide (original_class e = Foreground) && starving now q e.

Lemma apply_starvation_promotions_queues now q :
  let fg := (mark Foreground <$> filter (λ e, to_fg now q e = true) (batch q)) ++ foreground q in
  let q' := apply_starvation_promotions now q in
  batch q' = filter (λ e, to_fg now q e = false) (batch q)
  ∧ foreground q' = filter (λ e, to_sup now q e = false) fg
  ∧ supervisor q' = (mark Supervisor <$> filter (λ e, to_sup now q e = true) fg) ++ supervisor q
  ∧ in_flight q' = in_flight q ∧ queue_capacity q' = queue_capacity q
  ∧ admission_counter q' = admission_counter q ∧ max_starvation_ms q' = max_starvation_ms q.
Proof.
  unfold apply_starvation_promotions. rewrite promote_pass_filter. cbv beta iota zeta.
  rewrite promote_pass_filter. done.
Qed.

Lemma promotions_entries now q :
  unmark <$> entries (apply_starvation_promotions now q) ≡ₚ unmark <$> entries q.
Proof.
  destruct (apply_starvation_promotions_queues now q) as (Hb & Hf & Hs & _).
  unfold entries. rewrite Hb, Hf, Hs. rewrite !fmap_app.
  rewrite <-(unmark_pass (to_fg now q) Foreground (batch q)), !fmap_app.
  set (fg := (mark Foreground <$> _) ++ foreground q).
  assert (unmark <$> fg ≡ₚ (unmark <$> (mark Foreground <$> filter (λ e, to_fg now q e = true) (batch q)))
    ++ (unmark <$> foreground q)) as Hfg by (unfold fg; by rewrite fmap_app).
  rewrite (assoc_L (++) (unmark <$> foreground q)), (comm (++) (unmark <$> foreground q)), <-Hfg.
  rewrite <-(unmark_pass (to_sup now q) Supervisor fg), fmap_app.
  solve_Permutation.
Qed.

(** ** The invariant of the queues *)

(** The class whose starving entries are promoted to [c]. *)
Definition lower (c : PriorityClass) : option PriorityClass :=
  match c with Supervisor => Some Foreground | Foreground => Some Batch | Batch => None end.
Definition in_class (c : PriorityClass) (e : QueueEntry) : Prop :=
  effective_class e = c ∧
  (if promoted e then Some (original_class e) = lower c else original_class e = c).
Definition fresh (e : QueueEntry) : Prop := promoted e = false.
Definition before (e e' : QueueEntry) : Prop := (admission_seq e < admission_seq e')%Z.

Record q_inv (q : QueueState) : Prop := {
  inv_sup : Forall (in_class Supervisor) (supervisor q);
  inv_fg : Forall (in_class Foreground) (foreground q);
  inv_batch : Forall (in_class Batch) (batch q);
  inv_sup_sorted : StronglySorted before (filter fresh (supervisor q));
  inv_fg_sorted : StronglySorted before (filter fresh (foreground q));
  inv_batch_sorted : StronglySorted before (filter fresh (batch q));
  inv_counter : Forall (λ e, admission_seq e ≤ admission_counter q)%Z (entries q);
  inv_counter_pos : (0 ≤ admission_counter q)%Z }.

Lemma q_inv_new capacity starvation : q_inv (new_queue capacity starvation).
Proof. split; cbn; try done; constructor. Qed.

Lemma filter_fresh_mark target l : filter fresh (mark target <$> l) = [].
Proof.
  apply filter_nil_all, Forall_forall. intros e (e' & -> & _)%list_elem_of_fmap [=].
Qed.

Lemma sorted_filter_fresh (P : QueueEntry → Prop) `{∀ e, Decision (P e)} l :
  StronglySorted before (filter fresh l) → StronglySorted before (filter fresh (filter P l)).
Proof. rewrite filter_comm. apply StronglySorted_filter. Qed.

Lemma Forall_seq_unmark n l l' :
  unmark <$> l ≡ₚ unmark <$> l' →
  Forall (λ e, admission_seq e ≤ n)%Z l' → Forall (λ e, admission_seq e ≤ n)%Z l.
Proof.
  intros Hp Hl. rewrite !Forall_forall in *. intros e He.
  assert (unmark e ∈ unmark <$> l') as (e' & E & He')%list_elem_of_fmap.
  { rewrite <-Hp. by apply list_elem_of_fmap_2. }
  replace (admission_seq e) with (admission_seq (unmark e)) by done. rewrite E. exact (Hl e' He').
Qed.

Lemma q_inv_promotions now q : q_inv q → q_inv (apply_starvation_promotions now q).
Proof.
  intros [Hs Hf Hb Ss Sf Sb Hc Hp].
  pose proof (promotions_entries now q) as Hperm.
  destruct (apply_starvation_promotions_queues now q) as (Eb & Ef & Es & _ & _ & Ec & _).
  set (fg := (mark Foreground <$> _) ++ foreground q) in *.
  assert (Forall (in_class Foreground) fg) as Hfg.
  { apply Forall_app. split; [|done]. apply Forall_fmap, Forall_forall.
    intros e [Ht He]%list_elem_of_filter. rewrite Forall_forall in Hb.
    destruct (Hb e He) as [_ Ho]. unfold to_fg in Ht. destruct (promoted e) eqn:Ep; [done|].
    split; cbn; [done|by rewrite Ho]. }
  assert (StronglySorted before (filter fresh fg)) as Sfg.
  { unfold fg. by rewrite filter_app, filter_fresh_mark. }
  split; rewrite ?Eb, ?Ef, ?Es, ?Ec; try done.
  - apply Forall_app. split; [|done]. apply Forall_fmap, Forall_forall.
    intros e [Ht He]%list_elem_of_filter. unfold to_sup in Ht.
    destruct (promoted e) eqn:Ep; [done|]. apply andb_true_iff in Ht as [Ho%bool_decide_eq_true _].
    split; cbn; [done|by rewrite Ho].
  - rewrite Forall_forall in *. intros e [_ He]%list_elem_of_filter. by apply Hfg.
  - rewrite Forall_forall in *. intros e [_ He]%list_elem_of_filter. by apply Hb.
  - by rewrite filter_app, filter_fresh_mark.
  - by apply sorted_filter_fresh.
  - by apply sorted_filter_fresh.
  - by eapply Forall_seq_unmark.
Qed.

(** A queue after a pop: the same, or without its first entry. *)
Definition popped (l l' : list QueueEntry) : Prop := l = l' ∨ ∃ e, l = e :: l'.
Lemma popped_Forall (P : QueueEntry → Prop) l l' : popped l l' → Forall P l → Forall P l'.
Proof. intros [->|[e ->]]; [done|]. by intros [_ ?]%Forall_cons. Qed.
Lemma popped_sorted l l' :
  popped l l' → StronglySorted before (filter fresh l) → StronglySorted before (filter fresh l').
Proof.
  intros [->|[e ->]]; [done|]. rewrite filter_cons. case_decide; [|done].
  by intros [? _]%StronglySorted_inv.
Qed.

(** The queue a pop takes from: the first one that is not empty. *)
Lemma pop_next_cases now q e q' :
  pop_next now q = (Some e, q') →
  let p := apply_starvation_promotions now q in
  (supervisor p = e :: supervisor q' ∧ foreground q' = foreground p ∧ batch q' = batch p
   ∨ supervisor p = [] ∧ supervisor q' = [] ∧ foreground p = e :: foreground q' ∧ batch q' = batch p
   ∨ supervisor p = [] ∧ supervisor q' = [] ∧ foreground p = [] ∧ foreground q' = []
     ∧ batch p = e :: batch q')
  ∧ admission_counter q' = admission_counter p ∧ max_starvation_ms q' = max_starvation_ms p
  ∧ in_flight q' = in_flight p ∧ queue_capacity q' = queue_capacity p.
Proof.
  unfold pop_next. cbv zeta. set (p := apply_starvation_promotions now q).
  destruct (supervisor p) as [|e0 l] eqn:Es; [destruct (foreground p) as [|e0 l] eqn:Ef;
    [destruct (batch p) as [|e0 l] eqn:Eb|]|]; intros [= <- <-]; cbn; split_and!; auto 10.
Qed.

Lemma pop_next_popped now q o q' :
  pop_next now q = (o, q') →
  let p := apply_starvation_promotions now q in
  popped (supervisor p) (supervisor q') ∧ popped (foreground p) (foreground q')
  ∧ popped (batch p) (batch q') ∧ admission_counter q' = admission_counter p.
Proof.
  destruct o as [e|].
  - intros [Hc (Ec & _)]%pop_next_cases. cbv zeta in *. unfold popped.
    destruct Hc as [(E1 & E2 & E3)|[(E1 & E1' & E2 & E3)|(E1 & E1' & E2 & E2' & E3)]];
      split_and!; try done; first [left; congruence|right; eauto].
  - intros Hpop. assert (q' = apply_starvation_promotions now q) as ->; [|unfold popped; auto].
    revert Hpop. unfold pop_next. set (p := apply_starvation_promotions now q).
    destruct (supervisor p); [destruct (foreground p); [destruct (batch p)|]|]; by intros [= <-].
Qed.
Lemma q_inv_pop now q o q' : q_inv q → pop_next now q = (o, q') → q_inv q'.
Proof.
  intros [Hs Hf Hb Ss Sf Sb Hc Hp]%(q_inv_promotions now) (P1 & P2 & P3 & Ec)%pop_next_popped.
  unfold entries in Hc. rewrite !Forall_app in Hc. destruct Hc as (C1 & C2 & C3).
  split; rewrite ?Ec; eauto using popped_Forall, popped_sorted.
  unfold entries. rewrite !Forall_app. split_and!; by eapply popped_Forall.
Qed.

(** ** Admission *)

Definition queue_of (c : PriorityClass) (q : QueueState) : list QueueEntry :=
  match c with Supervisor => supervisor q | Foreground => foreground q | Batch => batch q end.

Lemma sorted_fresh_snoc n l e :
  StronglySorted before (filter fresh l) → Forall (λ x, admission_seq x ≤ n)%Z l →
  (n < admission_seq e)%Z → StronglySorted before (filter fresh (l ++ [e])).
Proof.
  intros Hs Hn He. rewrite filter_app. cbn. case_decide; [|by rewrite app_nil_r].
  apply StronglySorted_snoc; [done|]. rewrite Forall_forall in *.
  intros x [_ Hx]%list_elem_of_filter. specialize (Hn x Hx). unfold before. cbn in *. lia.
Qed.

Lemma admit_queues now depth a p t c class tx q :
  let q' := admit_entry now depth a p t c class tx q in
  let e := mkEntry a p t c (u64 (admission_counter q + 1)) now class class false depth tx in
  (∀ c', queue_of c' q' = if decide (c' = class) then queue_of c' q ++ [e] else queue_of c' q)
  ∧ admission_counter q' = u64 (admission_counter q + 1) ∧ in_flight q' = in_flight q
  ∧ queue_capacity q' = queue_capacity q ∧ total_waiting q' = S (total_waiting q).
Proof.
  unfold total_waiting. destruct class; cbn; split_and!; try done;
    try (intros []; reflexivity); rewrite length_app; cbn; lia.
Qed.

Lemma q_inv_admit now depth a p t c class tx q :
  q_inv q → (admission_counter q < 2 ^ 64 - 1)%Z → q_inv (admit_entry now depth a p t c class tx q).
Proof.
  intros [Hs Hf Hb Ss Sf Sb Hc Hpos] Hroom.
  destruct (admit_queues now depth a p t c class tx q) as (Hq & Ec & _). cbv zeta in *.
  rewrite u64_succ in Hq, Ec by lia.
  set (e := mkEntry a p t c (admission_counter q + 1) now class class false depth tx) in *.
  pose proof Hc as Hc'. unfold entries in Hc'. rewrite !Forall_app in Hc'. destruct Hc' as (C1 & C2 & C3).
  assert (in_class class e) as He by done.
  assert (∀ l, Forall (λ x, admission_seq x ≤ admission_counter q)%Z l →
    Forall (λ x, admission_seq x ≤ admission_counter q + 1)%Z l) as Hmono.
  { intros l Hl. eapply Forall_impl; [done|]. cbn. lia. }
  pose proof (Hq Supervisor) as E1. pose proof (Hq Foreground) as E2. pose proof (Hq Batch) as E3.
  cbn [queue_of] in E1, E2, E3.
  split; unfold entries; rewrite ?E1, ?E2, ?E3, ?Ec; try lia;
    rewrite ?Forall_app; repeat case_decide; subst;
    rewrite ?Forall_app, ?Forall_singleton; split_and?; auto;
    try done; try (apply (sorted_fresh_snoc (admission_counter q)); [done..|]); unfold e; cbn; lia.
Qed.

(** [batch.pop_back()] *)
Lemma evict_batch q e :
  last (batch q) = Some e →
  batch q = take (length (batch q) - 1) (batch q) ++ [e].
Proof.
  intros [l El]%last_Some. rewrite El at 1 3. f_equal.
  rewrite El, length_app. cbn. rewrite take_app_length'; [done|lia].
Qed.
Lemma q_inv_evict q e f :
  q_inv q → last (batch q) = Some e →
  q_inv (q <| batch ::= λ l, take (length l - 1) l |> <| total_rejected ::= f |>).
Proof.
  intros [Hs Hf Hb Ss Sf Sb Hc Hpos] He%evict_batch.
  set (b := take (length (batch q) - 1) (batch q)) in *.
  split; cbn; try done; fold b.
  - rewrite He in Hb. by apply Forall_app in Hb as [? _].
  - rewrite He, filter_app in Sb. by apply StronglySorted_app_1_l in Sb.
  - unfold entries in *. cbn. fold b. rewrite He, !Forall_app in Hc. rewrite !Forall_app. tauto.
Qed.

Lemma q_inv_enqueue now q a p t c class tx r q' s :
  q_inv q → (admission_counter q < 2 ^ 64 - 1)%Z →
  try_enqueue now q a p t c class tx = (r, q', s) → q_inv q'.
Proof.
  intros Hq Hroom. unfold try_enqueue. case_decide; [|by intros [= _ <- _]; apply q_inv_admit].
  assert (q_inv (q <| total_rejected ::= λ n, u64 (n + 1) |>)) as Hrej by by destruct Hq; split.
  destruct class; [|by intros [= _ <- _]..].
  destruct (last (batch q)) as [ev|] eqn:El; [|by intros [= _ <- _]].
  intros [= _ <- _]. apply q_inv_admit; [|done].
  exact (q_inv_evict q ev (λ n, u64 (n + 1)) Hq El).
Qed.

(** ** Reachable queues *)

(** Any sequence of admissions, pops and changes of the in-flight count. *)
Inductive queue_step : relation QueueState :=
| qs_enqueue now a p t c class tx q :
    (admission_counter q < 2 ^ 64 - 1)%Z →
    queue_step q (try_enqueue now q a p t c class tx).1.2
| qs_pop now q : queue_step q (pop_next now q).2
| qs_flight n q : queue_step q (q <| in_flight := n |>).
Definition reachable (q : QueueState) : Prop :=
  ∃ capacity starvation, rtc queue_step (new_queue capacity starvation) q.

Lemma queue_step_inv q q' : queue_step q q' → q_inv q → q_inv q'.
Proof.
  destruct 1 as [now a p t c class tx q Hroom|now q|n q]; intros Hq.
  - destruct (try_enqueue now q a p t c class tx) as [[r q'] s] eqn:E. by eapply q_inv_enqueue.
  - destruct (pop_next now q) as [o q'] eqn:E. by eapply q_inv_pop.
  - by destruct Hq; split.
Qed.
Lemma reachable_inv q : reachable q → q_inv q.
Proof.
  intros (capacity & starvation & Hr). revert q Hr. apply rtc_ind_r; [apply q_inv_new|].
  intros y z _ Hyz IH. by eapply queue_step_inv.
Qed.

Definition rank (c : PriorityClass) : nat :=
  match c with Supervisor => 1 | Foreground => 2 | Batch => 3 end.

Lemma in_class_rank c l :
  Forall (in_class c) l → ∀ e, e ∈ l → rank (effective_class e) = rank c.
Proof. rewrite Forall_forall. intros H e He. by destruct (H e He) as [-> _]. Qed.

(** The head of a queue is older than the other fresh entries of its class. *)
Lemma head_oldest l e l' e' :
  l = e :: l' → StronglySorted before (filter fresh l) → fresh e → e' ∈ l' → fresh e' → before e e'.
Proof.
  intros -> Hs He He' Hf. rewrite filter_cons, decide_True in Hs by done.
  apply StronglySorted_inv in Hs as [_ Hall]. rewrite Forall_forall in Hall.
  apply Hall. by apply list_elem_of_filter.
Qed.

Lemma not_starving_after now q e :
  q_inv q → e ∈ batch (apply_starvation_promotions now q) → starving now q e = false.
Proof.
  intros Hq. destruct (apply_starvation_promotions_queues now q) as (Eb & _). rewrite Eb.
  intros [Ht He]%list_elem_of_filter. destruct (proj1 (Forall_forall _ _) (inv_batch _ Hq) e He) as [_ Ho].
  unfold to_fg in Ht. by destruct (promoted e).
Qed.

(** A pop takes one entry of the queue, up to the marks of promotions. *)
Lemma pop_next_entries now q o q' :
  pop_next now q = (o, q') →
  match o with
  | Some e => unmark <$> entries q ≡ₚ unmark e :: (unmark <$> entries q')
  | None => entries q = [] ∧ entries q' = []
  end ∧ in_flight q' = in_flight q ∧ queue_capacity q' = queue_capacity q.
Proof.
  intros Hpop. pose proof (promotions_entries now q) as Hperm.
  destruct (apply_starvation_promotions_queues now q) as (_ & _ & _ & Ef & Ec & _).
  set (p := apply_starvation_promotions now q) in *. destruct o as [e|].
  - destruct (pop_next_cases _ _ _ _ Hpop) as (Hc & _ & _ & -> & ->). cbv zeta in Hc.
    fold p in Hc |- *. split; [|done]. rewrite <-Hperm. unfold entries.
    destruct Hc as [(E1 & E2 & E3)|[(E1 & E1' & E2 & E3)|(E1 & E1' & E2 & E2' & E3)]];
      rewrite ?E1', ?E2', ?E1; rewrite ?E2; rewrite ?E3; reflexivity.
  - unfold pop_next in Hpop. fold p in Hpop.
    assert (entries p = [] ∧ q' = p) as [E ->].
    { unfold entries. destruct (supervisor p); [destruct (foreground p); [destruct (batch p)|]|]; by simplify_eq. }
    rewrite E in Hperm. cbn in Hperm. symmetry in Hperm. apply Permutation_nil_r in Hperm.
    split; [|done]. split; [by destruct (entries q)|done].
Qed.

(** ** Properties *)

(** A pop returns an entry of the most urgent class present once starving
    entries are promoted, and the oldest of the entries admitted in that class
    that were never promoted; no other entry is lost or duplicated (up to the
    promotion marks), and no batch entry left in the queue has waited for the
    starvation delay.  It returns nothing only when the queue is empty. *)
Theorem pop_next_spec now q o q' :
  reachable q → pop_next now q = (o, q') →
  match o with
  | None => entries q = []
  | Some e =>
      unmark <$> entries q ≡ₚ unmark e :: (unmark <$> entries q')
      ∧ (∀ e', e' ∈ entries q' → rank (effective_class e) ≤ rank (effective_class e'))
      ∧ (∀ e', e' ∈ entries q' → original_class e' = original_class e →
           promoted e = false → promoted e' = false → (admission_seq e < admission_seq e')%Z)
      ∧ (∀ e', e' ∈ batch q' → (elapsed_ms now (admission_instant e') < max_starvation_ms q)%Z)
  end.
Proof.
  intros Hq%reachable_inv Hpop. pose proof (pop_next_entries _ _ _ _ Hpop) as [Hperm _].
  pose proof (q_inv_promotions now q Hq) as Hp. destruct o as [e|]; [|by destruct Hperm].
  destruct (pop_next_cases _ _ _ _ Hpop) as [Hc _]. cbv zeta in Hc.
  assert (∀ e', e' ∈ batch q' → (elapsed_ms now (admission_instant e') < max_starvation_ms q)%Z) as Hst.
  { intros e' He'. apply Z.leb_gt, not_starving_after; [done|].
    destruct Hc as [(_ & _ & <-)|[(_ & _ & _ & <-)|(_ & _ & _ & _ & ->)]]; [done..|by right]. }
  set (p := apply_starvation_promotions now q) in *.
  destruct Hp as [Hs Hf Hb Ss Sf Sb _ _].
  pose proof (in_class_rank _ _ Hs) as Rs. pose proof (in_class_rank _ _ Hf) as Rf.
  pose proof (in_class_rank _ _ Hb) as Rb. rewrite Forall_forall in Hs, Hf, Hb.
  assert (∀ c (l : list QueueEntry) e', (∀ x, x ∈ l → in_class c x) → e' ∈ l → promoted e' = false → original_class e' = c)
    as Hor by (intros c l e' Hl He' Hp'; destruct (Hl e' He') as [_ Ho]; by rewrite Hp' in Ho).
  split; [done|]. clear Hperm. unfold entries.
  destruct Hc as [(E1 & E2 & E3)|[(E1 & E1' & E2 & E3)|(E1 & E1' & E2 & E2' & E3)]];
    rewrite ?E1', ?E2', ?E2, ?E3; (split_and!; [| |first [done|by rewrite <-E3]]).
  + intros e' _. rewrite (Rs e) by (rewrite E1; left). destruct (effective_class e'); cbn; lia.
  + intros e' He' Ho Hpe Hpe'.
    assert (original_class e = Supervisor) as Hoe by (eapply Hor; [exact Hs|rewrite E1; left|done]).
    apply elem_of_app in He' as [He'|[He'|He']%elem_of_app].
    * by eapply head_oldest.
    * assert (original_class e' = Foreground) by (by eapply Hor). congruence.
    * assert (original_class e' = Batch) by (by eapply Hor). congruence.
  + intros e' He'. rewrite (Rf e) by (rewrite E2; left). cbn in He'.
    apply elem_of_app in He' as [He'|He'].
    * rewrite (Rf e') by (rewrite E2; by right). done.
    * rewrite (Rb e') by done. cbn. lia.
  + intros e' He' Ho Hpe Hpe'. cbn in He'.
    assert (original_class e = Foreground) as Hoe by (eapply Hor; [exact Hf|rewrite E2; left|done]).
    apply elem_of_app in He' as [He'|He']; [by eapply head_oldest|].
    assert (original_class e' = Batch) by (by eapply Hor). congruence.
  + intros e' He'. cbn in He'. rewrite (Rb e), (Rb e'); [done|rewrite E3; by right|rewrite E3; left].
  + intros e' He' Ho Hpe Hpe'. cbn in He'. by eapply head_oldest.
Qed.

Lemma try_enqueue_cases now q a p t c class tx r q' s :
  (Z.of_nat (total_waiting q) + in_flight q ≤ Z.of_nat (queue_capacity q))%Z →
  try_enqueue now q a p t c class tx = (r, q', s) →
  (Z.of_nat (total_waiting q') + in_flight q' ≤ Z.of_nat (queue_capacity q'))%Z
  ∧ match r with
    | Ok _ =>
        ∃ e, result_tx e = tx ∧ original_class e = class ∧ promoted e = false
          ∧ last (queue_of class q') = Some e
          ∧ (s = [] ∧ (Z.of_nat (total_waiting q) + in_flight q < Z.of_nat (queue_capacity q))%Z
               ∧ entries q' ≡ₚ e :: entries q
             ∨ ∃ ev, class = Supervisor
                 ∧ (Z.of_nat (total_waiting q) + in_flight q = Z.of_nat (queue_capacity q))%Z
                 ∧ s = [(result_tx ev, Err NoSlot)] ∧ batch q = batch q' ++ [ev]
                 ∧ supervisor q' = supervisor q ++ [e] ∧ foreground q' = foreground q)
    | Err x =>
        x = NoSlot ∧ s = [] ∧ entries q' = entries q
        ∧ (Z.of_nat (total_waiting q) + in_flight q = Z.of_nat (queue_capacity q))%Z
        ∧ (class = Supervisor → batch q = [])
    end.
Proof.
  intros Hcap. unfold try_enqueue. set (depth := u16 _). case_decide as Hfull.
  - assert (∀ q1 : QueueState, q1 = q <| total_rejected ::= λ n, u64 (n + 1) |> →
      (Z.of_nat (total_waiting q1) + in_flight q1 ≤ Z.of_nat (queue_capacity q1))%Z
      ∧ entries q1 = entries q) as Hrej by by intros q1 ->.
    destruct class as [| |].
    2,3: intros [= <- <- <-]; destruct (Hrej _ eq_refl); split_and!; by (done || lia).
    destruct (last (batch q)) as [ev|] eqn:El.
    + pose proof (evict_batch _ _ El) as Eb. set (b := take _ _) in Eb.
      set (q1 := q <| batch ::= λ l, take (length l - 1) l |> <| total_rejected ::= λ n, u64 (n + 1) |>).
      destruct (admit_queues now depth a p t c Supervisor tx q1) as (Hq & _ & Ef & Ec & Et).
      cbv zeta in *. intros Heq.
      assert (r = Ok depth ∧ q' = admit_entry now depth a p t c Supervisor tx q1
        ∧ s = [(result_tx ev, Err NoSlot)]) as (-> & -> & ->) by (by injection Heq as <- <- <-).
      rewrite Ef, Ec, Et.
      assert (total_waiting q = S (total_waiting q1)) as E1.
      { unfold total_waiting, q1. cbn. fold b. rewrite Eb, length_app. cbn. lia. }
      change (in_flight q1) with (in_flight q). change (queue_capacity q1) with (queue_capacity q).
      split; [lia|]. exists (mkEntry a p t c (u64 (admission_counter q1 + 1)) now Supervisor Supervisor false depth tx).
      split_and!; [done..| |right; exists ev; split_and!; try done].
      * rewrite Hq, decide_True by done. apply last_snoc.
      * lia.
    + intros [= <- <- <-]. destruct (Hrej _ eq_refl).
      split_and!; try (done || lia). intros _. by apply last_None.
  - destruct (admit_queues now depth a p t c class tx q) as (Hq & _ & Ef & Ec & Et).
    cbv zeta in *. intros Heq.
    assert (r = Ok depth ∧ q' = admit_entry now depth a p t c class tx q ∧ s = []) as (-> & -> & ->)
      by (by injection Heq as <- <- <-).
    rewrite Ef, Ec, Et. split; [lia|].
    exists (mkEntry a p t c (u64 (admission_counter q + 1)) now class class false depth tx).
    split_and!; [done..| |left; split_and!; [done|lia|]].
    + rewrite Hq, decide_True by done. apply last_snoc.
    + unfold entries. pose proof (Hq Supervisor) as E1. pose proof (Hq Foreground) as E2.
      pose proof (Hq Batch) as E3. cbn [queue_of] in *. rewrite E1, E2, E3.
      destruct class; cbn; solve_Permutation.
Qed.

(** Admission keeps the number of waiting and running inferences within
    the capacity.  An admitted entry goes to the back of its class; when the
    queue is full only a supervisor request is admitted, in exchange for the
    newest batch entry, which is told that it has no slot; a rejected request
    changes no queue. *)
Theorem try_enqueue_spec now q a p t c class tx r q' s :
  (Z.of_nat (total_waiting q) + in_flight q ≤ Z.of_nat (queue_capacity q))%Z →
  try_enqueue now q a p t c class tx = (r, q', s) →
  (Z.of_nat (total_waiting q') + in_flight q' ≤ Z.of_nat (queue_capacity q'))%Z
  ∧ match r with
    | Ok _ =>
        ∃ e, result_tx e = tx ∧ original_class e = class ∧ promoted e = false
          ∧ last (queue_of class q') = Some e
          ∧ (s = [] ∧ (Z.of_nat (total_waiting q) + in_flight q < Z.of_nat (queue_capacity q))%Z
               ∧ entries q' ≡ₚ e :: entries q
             ∨ ∃ ev, class = Supervisor
                 ∧ (Z.of_nat (total_waiting q) + in_flight q = Z.of_nat (queue_capacity q))%Z
                 ∧ s = [(result_tx ev, Err NoSlot)] ∧ batch q = batch q' ++ [ev]
                 ∧ supervisor q' = supervisor q ++ [e] ∧ foreground q' = foreground q)
    | Err x =>
        x = NoSlot ∧ s = [] ∧ entries q' = entries q
        ∧ (Z.of_nat (total_waiting q) + in_flight q = Z.of_nat (queue_capacity q))%Z
        ∧ (class = Supervisor → batch q = [])
    end.
Proof. apply try_enqueue_cases. Qed.

(** ** A run *)

Definition agent_of (b : byte) : AgentId := replicate 16 b.
Definition ms (n : Z) : Instant := (n * 1000000)%Z.
Definition enq (now : Z) (b : byte) (class : PriorityClass) (k : nat) (q : QueueState) : QueueState :=
  (try_enqueue (ms now) q (agent_of b) [] 1000 k class k).1.2.
(** Two batch requests, the second 5 ms younger, then a supervisor one. *)
Definition demo_q : QueueState :=
  enq 6 Byte.x03 Supervisor 3 (enq 5 Byte.x02 Batch 2 (enq 0 Byte.x01 Batch 1 (new_queue 8 10))).

Lemma demo_q_reachable : reachable demo_q.
Proof.
  exists 8, 10%Z. eapply rtc_r; [eapply rtc_r; [eapply rtc_once|]|]; by apply qs_enqueue.
Qed.

Definition demo_e : QueueEntry :=
  mkEntry (agent_of Byte.x03) [] 1000 3 3 (ms 6) Supervisor Supervisor false 2 3.
Definition demo_q' : QueueState := (pop_next (ms 7) demo_q).2.
Lemma demo_pop : pop_next (ms 7) demo_q = (Some demo_e, demo_q').
Proof. apply pair_parts; [vm_compute; reflexivity|reflexivity]. Qed.

Lemma pop_next_spec_witness :
  unmark <$> entries demo_q ≡ₚ unmark demo_e :: (unmark <$> entries demo_q')
  ∧ (∀ e', e' ∈ entries demo_q' → rank (effective_class demo_e) ≤ rank (effective_class e'))
  ∧ (∀ e', e' ∈ entries demo_q' → original_class e' = original_class demo_e →
       promoted demo_e = false → promoted e' = false → (admission_seq demo_e < admission_seq e')%Z)
  ∧ (∀ e', e' ∈ batch demo_q' → (elapsed_ms (ms 7) (admission_instant e') < max_starvation_ms demo_q)%Z).
Proof.
  exact (pop_next_spec (ms 7) demo_q (Some demo_e) demo_q' demo_q_reachable demo_pop).
Defined.
Definition demo_full : QueueState := demo_q <| queue_capacity := 3 |>.
Definition demo_full' : QueueState := (try_enqueue (ms 7) demo_full (agent_of Byte.x04) [] 1000 4 Supervisor 4).1.2.
Lemma demo_full_enqueue :
  try_enqueue (ms 7) demo_full (agent_of Byte.x04) [] 1000 4 Supervisor 4
  = (Ok 3%Z, demo_full', [(2, Err NoSlot)]).
Proof.
  apply pair_parts; [apply pair_parts; [vm_compute; reflexivity|reflexivity]|vm_compute; reflexivity].
Qed.
Lemma try_enqueue_spec_witness :
  (Z.of_nat (total_waiting demo_full') + in_flight demo_full' ≤ Z.of_nat (queue_capacity demo_full'))%Z.
Proof.
  exact (proj1 (try_enqueue_spec (ms 7) demo_full (agent_of Byte.x04) [] 1000 4 Supervisor 4 (Ok 3%Z)
    demo_full' [(2, Err NoSlot)] ltac:(by vm_compute) demo_full_enqueue)).
Defined.

(** Promoted entries do not keep the admission order of their class: in a
    reachable queue a batch request is served while an older batch request,
    promoted by an earlier pop, still waits. *)
Theorem promotion_inverts_fifo :
  ∃ now q e q' e', reachable q ∧ pop_next now q = (Some e, q') ∧ e' ∈ entries q'
    ∧ original_class e = Batch ∧ original_class e' = Batch
    ∧ (admission_seq e' < admission_seq e)%Z.
Proof.
  set (q1 := (pop_next (ms 10) demo_q).2).
  destruct (pop_next (ms 15) q1) as [[e|] q'] eqn:Hpop; [|by vm_compute in Hpop].
  exists (ms 15), q1, e, q'.
  destruct (foreground q') as [|e' l] eqn:Hf.
  { vm_compute in Hpop. by injection Hpop as <- <-. }
  exists e'. split_and!; [|done|unfold entries; rewrite Hf; set_solver|..];
    try (vm_compute in Hpop; injection Hpop as <- <-; vm_compute in Hf; by injection Hf as <- <-).
  destruct demo_q_reachable as (cap & st & Hr). exists cap, st.
  eapply rtc_r; [done|]. apply qs_pop.
Qed.

End Queue.

(** The pool around the queue. *)
Module Pool.
Import Queue.

Abbreviation DispatchResult := (result InferError InferResponse).

(** A call of [submit_with_class].  [Registered]: its token is in [active];
    [Enqueued]: its entry is in the queue, the dispatcher not yet notified;
    [Waiting]: it waits for its result or its cancellation; [Returning]: it has
    an answer and will leave [active]. *)
Inductive ClientPc :=
| Registered | Enqueued | Waiting | Returning (r : DispatchResult) | Done (r : DispatchResult).
Record Client := mkClient {
  c_agent_id : AgentId;
  c_prompt : bytes;
  c_timeout_ms : Z;
  c_class : PriorityClass;
  c_pc : ClientPc }.
#[global] Instance Client_settable : Settable Client := λ c,
  mkClient (c_agent_id c) (c_prompt c) (c_timeout_ms c) (c_class c) (c_pc c).

(** A spawned inference, at the end of which the permit is dropped: [Spawned]
    before it looks at its token, [Inferring] in the backend, then [Sent],
    [Counted] (in-flight count decremented), [Notified] (dispatcher notified),
    [Freed] (slot notified). *)
Inductive TaskPc := Spawned | Inferring | Sent | Counted | Notified | Freed.
Record Task := mkTask { t_entry : QueueEntry; t_pc : TaskPc }.

(** The dispatcher waits for a notification, tries to acquire a permit, or holds
    one and pops. *)
Inductive DispatcherPc := Idle | Acquire | Popping.

Record QueueTrace := mkTrace {
  tr_agent_id : AgentId;
  tr_admission_seq : Z;
  tr_admission_instant : Instant;
  priority_class_at_admission : PriorityClass;
  tr_promoted_from : option PriorityClass;
  slot_acquired_instant : option Instant }.

Record PoolState := mkPool {
  queue : QueueState;
  permits : nat;
  notified : bool;
  slot_freed : bool;
  dispatcher : DispatcherPc;
  tasks : list Task;
  clients : gmap nat Client;
  active : gmap AgentId nat;
  cancelled : gset nat;
  results : list (nat * DispatchResult);
  traces : list QueueTrace }.
#[global] Instance PoolState_settable : Settable PoolState := λ s,
  mkPool (queue s) (permits s) (notified s) (slot_freed s) (dispatcher s) (tasks s)
    (clients s) (active s) (cancelled s) (results s) (traces s).

(** [new_with_queue_params] *)
Definition new_pool (max_concurrent capacity : nat) (starvation_ms : Z) : PoolState :=
  mkPool (new_queue capacity starvation_ms) max_concurrent false false Idle [] ∅ ∅ ∅ [] [].
(** [InferencePool::new]: the default capacity and starvation delay. *)
Definition new_default (max_concurrent : nat) : PoolState :=
  new_pool max_concurrent (Nat.max (4 * max_concurrent) 4) 10000.

Definition set_pc (k : nat) (pc : ClientPc) (s : PoolState) : PoolState :=
  s <| clients ::= alter (λ c, c <| c_pc := pc |>) k |>.

(** The client enqueues its request. *)
Definition do_enqueue (now : Instant) (k : nat) (c : Client) (s : PoolState) : PoolState :=
  let '(r, q, sends) := try_enqueue now (queue s) (c_agent_id c) (c_prompt c) (c_timeout_ms c)
                          k (c_class c) k in
  let s := s <| queue := q |> <| results ::= λ l, l ++ sends |> in
  match r with
  | Ok _ => set_pc k Enqueued s
  | Err e => set_pc k (Returning (Err e)) s
  end.

Definition push_trace (now : Instant) (e : QueueEntry) (l : list QueueTrace) : list QueueTrace :=
  (if decide (256 ≤ length l) then drop 1 l else l) ++
  [mkTrace (e_agent_id e) (admission_seq e) (admission_instant e) (original_class e)
     (if promoted e then Some (original_class e) else None) (Some now)].

(** The dispatcher pops with a permit in hand. *)
Definition do_pop (now : Instant) (s : PoolState) : PoolState :=
  match pop_next now (queue s) with
  | (Some e, q) =>
      s <| queue := q <| in_flight ::= λ n, wrap 32 (n + 1) |> |>
        <| tasks ::= λ l, l ++ [mkTask e Spawned] |>
        <| traces ::= push_trace now e |>
        <| dispatcher := Acquire |>
  | (None, q) => s <| queue := q |> <| permits ::= S |> <| dispatcher := Idle |>
  end.

Definition entry_slot_info (e : QueueEntry) : SlotAcquiredInfo :=
  mkSlot (original_class e) (depth_at_admission e)
    (if promoted e then Some (original_class e) else None).
Definition with_slot_info (i : SlotAcquiredInfo) (r : DispatchResult) : DispatchResult :=
  match r with
  | Ok (mkResponse t tr _) => Ok (mkResponse t tr (Some i))
  | Err e => Err e
  end.

(** Steps the pool takes by itself, once requests are submitted. [r] is the
    answer of the backend, whatever it is. *)
Inductive internal : relation PoolState :=
| step_enqueue now k c s :
    clients s !! k = Some c → c_pc c = Registered → (admission_counter (queue s) < 2 ^ 64 - 1)%Z →
    internal s (do_enqueue now k c s)
| step_client_notify k c s :
    clients s !! k = Some c → c_pc c = Enqueued →
    internal s (set_pc k Waiting (s <| notified := true |>))
| step_receive k c r s :
    clients s !! k = Some c → c_pc c = Waiting → k ∉ cancelled s → (k, r) ∈ results s →
    internal s (set_pc k (Returning r) s)
| step_observe_cancel k c s :
    clients s !! k = Some c → c_pc c = Waiting → k ∈ cancelled s →
    internal s (set_pc k (Returning (Err Cancelled))
      (s <| cancelled ::= λ cs, list_to_set (cancel_agent (queue s) (c_agent_id c)) ∪ cs |>))
| step_return k c r s :
    clients s !! k = Some c → c_pc c = Returning r →
    internal s (set_pc k (Done r) (s <| active ::= delete (c_agent_id c) |>))
| step_wake s :
    dispatcher s = Idle → notified s = true →
    internal s (s <| notified := false |> <| dispatcher := Acquire |>)
| step_acquire s n :
    dispatcher s = Acquire → permits s = S n →
    internal s (s <| permits := n |> <| dispatcher := Popping |>)
| step_no_permit s :
    dispatcher s = Acquire → permits s = 0 → internal s (s <| dispatcher := Idle |>)
| step_pop now s : dispatcher s = Popping → internal s (do_pop now s)
| step_task_cancelled l1 e l2 s :
    tasks s = l1 ++ mkTask e Spawned :: l2 → e_cancel e ∈ cancelled s →
    internal s (s <| tasks := l1 ++ mkTask e Sent :: l2 |>
                  <| results ::= λ l, l ++ [(result_tx e, Err Cancelled)] |>)
| step_task_start l1 e l2 s :
    tasks s = l1 ++ mkTask e Spawned :: l2 → e_cancel e ∉ cancelled s →
    internal s (s <| tasks := l1 ++ mkTask e Inferring :: l2 |>)
| step_task_infer l1 e l2 r s :
    tasks s = l1 ++ mkTask e Inferring :: l2 →
    internal s (s <| tasks := l1 ++ mkTask e Sent :: l2 |>
                  <| results ::= λ l, l ++ [(result_tx e, with_slot_info (entry_slot_info e) r)] |>)
| step_task_count l1 e l2 s :
    tasks s = l1 ++ mkTask e Sent :: l2 →
    internal s (s <| tasks := l1 ++ mkTask e Counted :: l2 |>
                  <| queue ::= λ q, q <| in_flight ::= λ n, if (0 <? n)%Z then (n - 1)%Z else n |> |>)
| step_task_notify l1 e l2 s :
    tasks s = l1 ++ mkTask e Counted :: l2 →
    internal s (s <| tasks := l1 ++ mkTask e Notified :: l2 |> <| notified := true |>)
| step_task_free l1 e l2 s :
    tasks s = l1 ++ mkTask e Notified :: l2 →
    internal s (s <| tasks := l1 ++ mkTask e Freed :: l2 |> <| slot_freed := true |>)
| step_task_drop l1 e l2 s :
    tasks s = l1 ++ mkTask e Freed :: l2 →
    internal s (s <| tasks := l1 ++ l2 |> <| permits ::= S |>).

(** Steps of the callers: a new request, and [cancel] in its two parts. *)
Inductive external : relation PoolState :=
| step_submit k agent_id prompt timeout_ms class s :
    clients s !! k = None →
    external s (s <| clients ::= insert k (mkClient agent_id prompt timeout_ms class Registered) |>
                  <| active ::= insert agent_id k |>)
| step_cancel_token agent_id k s :
    active s !! agent_id = Some k → external s (s <| cancelled ::= λ cs, {[k]} ∪ cs |>)
| step_cancel_queue agent_id s :
    external s (s <| cancelled ::= λ cs, list_to_set (cancel_agent (queue s) agent_id) ∪ cs |>).

Definition pool_step (s s' : PoolState) : Prop := internal s s' ∨ external s s'.
Definition reachable (max_concurrent capacity : nat) (starvation_ms : Z) (s : PoolState) : Prop :=
  rtc pool_step (new_pool max_concurrent capacity starvation_ms) s.

(** ** Permits and capacity *)

Definition uncounted (t : Task) : Prop :=
  match t_pc t with Spawned | Inferring | Sent => True | _ => False end.
#[global] Instance uncounted_dec t : Decision (uncounted t).
Proof. unfold uncounted. destruct (t_pc t); apply _. Defined.
Definition holding (d : DispatcherPc) : nat := match d with Popping => 1 | _ => 0 end.

Record slots_inv (max cap : nat) (s : PoolState) : Prop := {
  si_permits : permits s + holding (dispatcher s) + length (tasks s) = max;
  si_in_flight : in_flight (queue s) = Z.of_nat (length (filter uncounted (tasks s)));
  si_capacity : (Z.of_nat (total_waiting (queue s)) + in_flight (queue s) ≤ Z.of_nat cap)%Z;
  si_cap : queue_capacity (queue s) = cap }.

Lemma length_filter_uncounted l1 e pc l2 :
  length (filter uncounted (l1 ++ mkTask e pc :: l2)) =
  length (filter uncounted (l1 ++ l2)) + (if decide (uncounted (mkTask e pc)) then 1 else 0).
Proof.
  rewrite !filter_app, !length_app, filter_cons. case_decide; cbn; lia.
Qed.
Lemma total_waiting_entries q : total_waiting q = length (entries q).
Proof. unfold total_waiting, entries. rewrite !length_app. lia. Qed.
Lemma try_enqueue_flight now q a p t c class tx r q' s :
  try_enqueue now q a p t c class tx = (r, q', s) →
  in_flight q' = in_flight q ∧ queue_capacity q' = queue_capacity q.
Proof.
  unfold try_enqueue. case_decide; [destruct class; [destruct (last (batch q))|..]|destruct class];
    by intros [= _ <- _].
Qed.

(** A task changes its program counter. *)
Lemma slots_task max cap s l1 e pc pc' l2 :
  tasks s = l1 ++ mkTask e pc :: l2 →
  (uncounted (mkTask e pc) ↔ uncounted (mkTask e pc')) →
  slots_inv max cap s → slots_inv max cap (s <| tasks := l1 ++ mkTask e pc' :: l2 |>).
Proof.
  intros Ht Hiff [Hp Hf Hc Hcap]. split; cbn; [|rewrite Hf|done..].
  - rewrite <-Hp, Ht, !length_app. done.
  - rewrite Ht, !length_filter_uncounted.
    destruct (decide (uncounted (mkTask e pc))), (decide (uncounted (mkTask e pc'))); tauto || lia.
Qed.
Lemma slots_ext max cap s s' :
  queue s' = queue s → permits s' = permits s → dispatcher s' = dispatcher s → tasks s' = tasks s →
  slots_inv max cap s → slots_inv max cap s'.
Proof. intros Eq Ep Ed Et [Hp Hf Hc Hcap]. by split; rewrite ?Eq, ?Ep, ?Ed, ?Et. Qed.

Lemma slots_enqueue max cap now k c s :
  slots_inv max cap s → slots_inv max cap (do_enqueue now k c s).
Proof.
  intros [Hp Hf Hc Hcap]. unfold do_enqueue.
  destruct (try_enqueue _ _ _ _ _ _ _ _) as [[r q] sends] eqn:E.
  destruct (try_enqueue_flight _ _ _ _ _ _ _ _ _ _ _ E) as [Ef Ec].
  rewrite <-Hcap in Hc. destruct (try_enqueue_cases _ _ _ _ _ _ _ _ _ _ _ Hc E) as [Hc' _].
  destruct r; split; cbn; congruence || (rewrite <-Hcap, <-Ec; done).
Qed.
Lemma slots_pop max cap now s :
  (Z.of_nat max < 2 ^ 32)%Z → dispatcher s = Popping →
  slots_inv max cap s → slots_inv max cap (do_pop now s).
Proof.
  intros Hmax Hd [Hp Hf Hc Hcap]. unfold do_pop.
  destruct (pop_next now (queue s)) as [o q] eqn:E.
  destruct (pop_next_entries _ _ _ _ E) as (He & Ef & Ec). rewrite Hd in Hp. cbn in Hp.
  rewrite total_waiting_entries in Hc.
  pose proof (total_waiting_entries q) as Etw. unfold total_waiting in Etw.
  assert (length (filter uncounted (tasks s)) ≤ length (tasks s)) as Hle by apply length_filter.
  destruct o as [e|]; split; cbn.
  - rewrite length_app. cbn. lia.
  - rewrite filter_app, length_app, Ef, Hf. cbn. rewrite decide_True by done. cbn.
    rewrite wrap_small; [lia|].
    unfold in_width. lia.
  - apply Permutation_length in He. cbn in He. rewrite !length_fmap in He.
    rewrite Ef, wrap_small; [lia|]. unfold in_width. lia.
  - congruence.
  - lia.
  - congruence.
  - destruct He as [He He']. rewrite He in Hc. rewrite He' in Etw. cbn in *.
    rewrite Ef. unfold total_waiting. lia.
  - congruence.
Qed.

Lemma slots_step max cap s s' :
  (Z.of_nat max < 2 ^ 32)%Z → pool_step s s' → slots_inv max cap s → slots_inv max cap s'.
Proof.
  intros Hmax [Hi|He] Hs; [|destruct He; by eapply slots_ext; [..|exact Hs]].
  destruct Hi as [now k c s Hk Hpc|k c s|k c r s|k c s|k c r s|s Hd|s n Hd Hn|s Hd Hn|now s Hd
    |l1 e l2 s Ht|l1 e l2 s Ht|l1 e l2 r s Ht|l1 e l2 s Ht|l1 e l2 s Ht|l1 e l2 s Ht|l1 e l2 s Ht];
    try (by eapply slots_ext; [..|exact Hs]).
  - by apply slots_enqueue.
  - destruct Hs as [Hp Hf Hc Hcap]. split; cbn; rewrite Hd in *; done.
  - destruct Hs as [Hp Hf Hc Hcap]. split; cbn; rewrite ?Hd, ?Hn in *; cbn in *; done || lia.
  - destruct Hs as [Hp Hf Hc Hcap]. split; cbn; rewrite ?Hd, ?Hn in *; cbn in *; done || lia.
  - by apply slots_pop.
  - eapply slots_ext; [..|by eapply (slots_task _ _ s l1 e Spawned Sent l2)]; done.
  - by eapply slots_task.
  - eapply slots_ext; [..|by eapply (slots_task _ _ s l1 e Inferring Sent l2)]; done.
  - destruct Hs as [Hp Hf Hc Hcap]. rewrite Ht in Hp, Hf.
    rewrite length_filter_uncounted, decide_True in Hf by done.
    assert ((0 <? in_flight (queue s))%Z = true) as Hpos by (apply Z.ltb_lt; lia).
    split; cbn; rewrite ?Hpos; try done.
    + rewrite <-Hp, !length_app. done.
    + rewrite length_filter_uncounted, decide_False by (by intros []). lia.
    + unfold total_waiting in *. cbn. lia.
  - eapply slots_ext; [..|by eapply (slots_task _ _ s l1 e Counted Notified l2)]; done.
  - eapply slots_ext; [..|by eapply (slots_task _ _ s l1 e Notified Freed l2)]; done.
  - destruct Hs as [Hp Hf Hc Hcap]. split; cbn; try done.
    + rewrite <-Hp, Ht, !length_app. cbn. lia.
    + rewrite Hf, Ht, length_filter_uncounted, decide_False by (by intros []). lia.
Qed.

Lemma reachable_slots max cap starvation s :
  (Z.of_nat max < 2 ^ 32)%Z → reachable max cap starvation s → slots_inv max cap s.
Proof.
  intros Hmax. revert s. apply rtc_ind_r.
  - split; cbn; done || lia.
  - intros y z _ Hyz IH. by eapply slots_step.
Qed.

(** ** Delivery of results *)

Definition unsent (t : Task) : Prop := match t_pc t with Spawned | Inferring => True | _ => False end.
#[global] Instance unsent_dec t : Decision (unsent t).
Proof. unfold unsent. destruct (t_pc t); apply _. Defined.
Definition task_chan (t : Task) : nat := result_tx (t_entry t).

(** Where the channels of the admitted requests are: with a waiting entry, with
    a running task, or used. *)
Definition chans (s : PoolState) : list nat :=
  (result_tx <$> entries (queue s)) ++ (task_chan <$> filter unsent (tasks s)) ++ (results s).*1.

Record deliver_inv (s : PoolState) : Prop := {
  di_nodup : NoDup (chans s);
  di_known k : k ∈ chans s → ∃ c, clients s !! k = Some c ∧ c_pc c ≠ Registered;
  di_pending k c : clients s !! k = Some c → c_pc c = Enqueued ∨ c_pc c = Waiting → k ∈ chans s }.

Lemma deliver_same s s' :
  chans s' ≡ₚ chans s → clients s' = clients s → deliver_inv s → deliver_inv s'.
Proof.
  intros E Ec [Hn Hk Hp]. split.
  - by rewrite E.
  - intros k. rewrite E, Ec. apply Hk.
  - intros k c. rewrite E, Ec. apply Hp.
Qed.
(** A client that has been admitted or refused moves on. *)
Lemma deliver_pc s s' k c pc :
  chans s' ≡ₚ chans s → clients s' = alter (λ c, c <| c_pc := pc |>) k (clients s) →
  clients s !! k = Some c → pc ≠ Registered →
  (pc = Enqueued ∨ pc = Waiting → k ∈ chans s) → deliver_inv s → deliver_inv s'.
Proof.
  intros E Ec Hc Hpc Hin [Hn Hk Hp]. split.
  - by rewrite E.
  - intros k' Hk'. rewrite E in Hk'. destruct (Hk k' Hk') as (c' & Hc' & Hne). rewrite Ec.
    destruct (decide (k' = k)) as [->|]; [rewrite lookup_alter_eq, Hc'; cbn; eauto|].
    rewrite lookup_alter_ne by done. eauto.
  - intros k' c'. rewrite E, Ec. destruct (decide (k' = k)) as [->|].
    + rewrite lookup_alter_eq, Hc. cbn. intros [= <-]. exact Hin.
    + rewrite lookup_alter_ne by done. apply Hp.
Qed.

Lemma filter_unsent_middle l1 e pc l2 :
  filter unsent (l1 ++ mkTask e pc :: l2) ≡ₚ
  (if decide (unsent (mkTask e pc)) then [mkTask e pc] else []) ++ filter unsent (l1 ++ l2).
Proof.
  rewrite !filter_app, filter_cons. case_decide; [|done]. cbn.
  by rewrite <-Permutation_middle.
Qed.
Lemma chans_task_in l1 e pc l2 :
  unsent (mkTask e pc) →
  task_chan <$> filter unsent (l1 ++ mkTask e pc :: l2) ≡ₚ
  result_tx e :: (task_chan <$> filter unsent (l1 ++ l2)).
Proof. intros H. by rewrite filter_unsent_middle, decide_True. Qed.
Lemma chans_task_out l1 e pc l2 :
  ¬ unsent (mkTask e pc) →
  task_chan <$> filter unsent (l1 ++ mkTask e pc :: l2) ≡ₚ task_chan <$> filter unsent (l1 ++ l2).
Proof. intros H. by rewrite filter_unsent_middle, decide_False. Qed.

Lemma chans_enqueue now k c s :
  slots_inv (permits s + holding (dispatcher s) + length (tasks s)) (queue_capacity (queue s)) s →
  let s' := do_enqueue now k c s in
  (chans s' ≡ₚ k :: chans s ∧ clients s' = alter (λ c, c <| c_pc := Enqueued |>) k (clients s))
  ∨ (chans s' ≡ₚ chans s
     ∧ ∃ e, clients s' = alter (λ c, c <| c_pc := Returning (Err e) |>) k (clients s)).
Proof.
  intros [_ _ Hcap _]. unfold do_enqueue.
  destruct (try_enqueue _ _ _ _ _ _ _ _) as [[r q] sends] eqn:E.
  destruct (try_enqueue_cases _ _ _ _ _ _ _ _ _ _ _ Hcap E) as [_ Hr]. destruct r as [d|e].
  - left. split; [|done]. destruct Hr as (e & <- & _ & _ & _ & Hr). unfold chans. cbn.
    destruct Hr as [(-> & _ & He)|(ev & _ & _ & -> & Hb & Hs & Hf)].
    + rewrite app_nil_r, He. done.
    + unfold entries. rewrite Hb, Hs, Hf, !fmap_app. cbn. solve_Permutation.
  - right. destruct Hr as (-> & -> & He & _). split; [|by eexists]. unfold chans. cbn.
    by rewrite app_nil_r, He.
Qed.

Lemma deliver_enqueue now k c s :
  slots_inv (permits s + holding (dispatcher s) + length (tasks s)) (queue_capacity (queue s)) s →
  clients s !! k = Some c → c_pc c = Registered →
  deliver_inv s → deliver_inv (do_enqueue now k c s).
Proof.
  intros Hs Hk Hpc Hd. destruct (chans_enqueue now k c s Hs) as [[E Ec]|[E [e Ec]]].
  - destruct Hd as [Hn Hkn Hp].
    assert (k ∉ chans s) as Hfresh.
    { intros (c' & Hc' & Hne)%Hkn. congruence. }
    split.
    + rewrite E. by constructor.
    + intros k'. rewrite E, Ec. intros [->|Hk']%elem_of_cons.
      * rewrite lookup_alter_eq, Hk. cbn. eauto.
      * assert (k' ≠ k) by congruence. rewrite lookup_alter_ne by done. by apply Hkn.
    + intros k' c'. rewrite E, Ec. destruct (decide (k' = k)) as [->|]; [by left|].
      rewrite lookup_alter_ne by done. right. by eapply Hp.
  - eapply deliver_pc; try done. by intros [|].
Qed.

Lemma deliver_pop now s : deliver_inv s → deliver_inv (do_pop now s).
Proof.
  intros Hd. assert (chans (do_pop now s) ≡ₚ chans s ∧ clients (do_pop now s) = clients s) as [E Ec];
    [|by eapply deliver_same].
  unfold do_pop. destruct (pop_next now (queue s)) as [o q] eqn:E.
  destruct (pop_next_entries _ _ _ _ E) as [He _]. destruct o as [e|]; (split; [|done]);
    unfold chans; cbn.
  - assert (result_tx <$> entries (queue s) ≡ₚ result_tx e :: (result_tx <$> entries q)) as ->.
    { apply (fmap_Permutation result_tx) in He. rewrite fmap_cons, <-!list_fmap_compose in He.
      exact He. }
    rewrite filter_app, fmap_app. cbn. rewrite decide_True by done.
    unfold entries. rewrite !fmap_app. cbn. solve_Permutation.
  - destruct He as [He He']. by rewrite He, He'.
Qed.

(** A task step moves its channel between the three places. *)
Ltac chans_move Ht :=
  unfold chans; cbn; rewrite Ht;
  repeat first [rewrite chans_task_in by done | rewrite chans_task_out by (intros [])];
  rewrite ?fmap_app; unfold entries; rewrite ?fmap_app; cbn; solve_Permutation.

Lemma deliver_step max cap s s' :
  slots_inv max cap s → pool_step s s' → deliver_inv s → deliver_inv s'.
Proof.
  intros Hs [Hi|He] Hd.
  - destruct Hi as [now k c s Hk Hpc|k c s Hk Hpc|k c r s Hk Hpc|k c s Hk Hpc|k c r s Hk Hpc|s Hd'|s n Hd' Hn
      |s Hd' Hn|now s Hd'|l1 e l2 s Ht|l1 e l2 s Ht|l1 e l2 r s Ht|l1 e l2 s Ht|l1 e l2 s Ht
      |l1 e l2 s Ht|l1 e l2 s Ht];
      try (by eapply deliver_same; [..|exact Hd]);
      try (by eapply deliver_pc; [..|exact Hd]; try done; intros [|]);
      try (by eapply deliver_same; [..|exact Hd]; [chans_move Ht|]).
    + apply deliver_enqueue; [|done..]. destruct Hs as [Hp Hf Hc Hcap]. by rewrite Hp, Hcap.
    + eapply deliver_pc; [..|exact Hd]; try done. intros _. eapply di_pending; eauto.
    + by apply deliver_pop.
  - destruct He as [k a p t c s Hk|a k s Ha|a s]; try (by eapply deliver_same; [..|exact Hd]).
    destruct Hd as [Hn Hkn Hp]. split; [done|..]; cbn.
    + intros k' (c' & Hc' & Hne)%Hkn. exists c'. rewrite lookup_insert_ne by congruence. done.
    + intros k' c'. destruct (decide (k' = k)) as [->|].
      * rewrite lookup_insert_eq. intros [= <-] [|]; done.
      * rewrite lookup_insert_ne by done. apply Hp.
Qed.

Lemma reachable_deliver max cap starvation s :
  (Z.of_nat max < 2 ^ 32)%Z → reachable max cap starvation s → deliver_inv s.
Proof.
  intros Hmax Hr. cut (slots_inv max cap s ∧ deliver_inv s); [by intros [_ ?]|].
  revert s Hr. apply rtc_ind_r.
  - split; [split; cbn; done || lia|]. split; cbn; [constructor|by intros k ?%not_elem_of_nil|].
    intros k c. by rewrite lookup_empty.
  - intros y z _ Hyz [Hs Hd]. split; [by eapply slots_step|by eapply deliver_step].
Qed.

(** ** A run that loses a wake-up *)

Definition agA : AgentId := agent_of Byte.x41.
Definition agB : AgentId := agent_of Byte.x42.
Definition cl1 : Client := mkClient agA [] 1000 Foreground Registered.
Definition cl2 : Client := mkClient agB [] 1000 Foreground Registered.
Definition en1 : QueueEntry := mkEntry agA [] 1000 1 1 0 Foreground Foreground false 0 1.
Definition rs1 : DispatchResult := with_slot_info (entry_slot_info en1) (Ok (mkResponse "ok" false None)).
(** One slot. The first request is dispatched; the second finds no permit; the
    first inference notifies the dispatcher before it drops its permit. *)
Definition w0 : PoolState := new_pool 1 4 10000.
Definition w1 : PoolState := w0 <| clients ::= insert 1 (mkClient agA [] 1000 Foreground Registered) |> <| active ::= insert agA 1 |>.
Definition w2 : PoolState := do_enqueue 0 1 cl1 w1.
Definition w3 : PoolState := set_pc 1 Waiting (w2 <| notified := true |>).
Definition w4 : PoolState := w3 <| notified := false |> <| dispatcher := Acquire |>.
Definition w5 : PoolState := w4 <| permits := 0 |> <| dispatcher := Popping |>.
Definition w6 : PoolState := do_pop 0 w5.
Definition w7 : PoolState := w6 <| dispatcher := Idle |>.
Definition w8 : PoolState := w7 <| clients ::= insert 2 (mkClient agB [] 1000 Foreground Registered) |> <| active ::= insert agB 2 |>.
Definition w9 : PoolState := do_enqueue 0 2 cl2 w8.
Definition w10 : PoolState := set_pc 2 Waiting (w9 <| notified := true |>).
Definition w11 : PoolState := w10 <| notified := false |> <| dispatcher := Acquire |>.
Definition w12 : PoolState := w11 <| dispatcher := Idle |>.
Definition w13 : PoolState := w12 <| tasks := [mkTask en1 Inferring] |>.
Definition w14 : PoolState := w13 <| tasks := [mkTask en1 Sent] |> <| results ::= λ l, l ++ [(1, rs1)] |>.
Definition w15 : PoolState := w14 <| tasks := [mkTask en1 Counted] |> <| queue ::= λ q, q <| in_flight ::= λ n, if (0 <? n)%Z then (n - 1)%Z else n |> |>.
Definition w16 : PoolState := w15 <| tasks := [mkTask en1 Notified] |> <| notified := true |>.
Definition w17 : PoolState := w16 <| notified := false |> <| dispatcher := Acquire |>.
Definition w18 : PoolState := w17 <| dispatcher := Idle |>.
Definition w19 : PoolState := w18 <| tasks := [mkTask en1 Freed] |> <| slot_freed := true |>.
Definition w20 : PoolState := w19 <| tasks := [] |> <| permits ::= S |>.
Definition w21 : PoolState := set_pc 1 (Returning rs1) w20.
Definition w22 : PoolState := set_pc 1 (Done rs1) (w21 <| active ::= delete agA |>).

Ltac run_step c :=
  eapply c; first
    [ reflexivity | vm_compute; reflexivity | apply not_elem_of_empty | apply list_elem_of_here ].
Lemma run_reachable : reachable 1 4 10000 w22.
Proof.
  unfold reachable. change (new_pool 1 4 10000) with w0.
  apply (rtc_l _ _ w1); [right; run_step (step_submit 1 agA [] 1000 Foreground)|].
  apply (rtc_l _ _ w2); [left; run_step (step_enqueue 0 1 cl1)|].
  apply (rtc_l _ _ w3); [left; run_step (step_client_notify 1 (cl1 <| c_pc := Enqueued |>))|].
  apply (rtc_l _ _ w4); [left; run_step (step_wake)|].
  apply (rtc_l _ _ w5); [left; run_step (step_acquire w4 0)|].
  apply (rtc_l _ _ w6); [left; run_step (step_pop 0)|].
  apply (rtc_l _ _ w7); [left; run_step (step_no_permit)|].
  apply (rtc_l _ _ w8); [right; run_step (step_submit 2 agB [] 1000 Foreground)|].
  apply (rtc_l _ _ w9); [left; run_step (step_enqueue 0 2 cl2)|].
  apply (rtc_l _ _ w10); [left; run_step (step_client_notify 2 (cl2 <| c_pc := Enqueued |>))|].
  apply (rtc_l _ _ w11); [left; run_step (step_wake)|].
  apply (rtc_l _ _ w12); [left; run_step (step_no_permit)|].
  apply (rtc_l _ _ w13); [left; run_step (step_task_start [] en1 [])|].
  apply (rtc_l _ _ w14); [left; run_step (step_task_infer [] en1 [] (Ok (mkResponse "ok" false None)))|].
  apply (rtc_l _ _ w15); [left; run_step (step_task_count [] en1 [])|].
  apply (rtc_l _ _ w16); [left; run_step (step_task_notify [] en1 [])|].
  apply (rtc_l _ _ w17); [left; run_step (step_wake)|].
  apply (rtc_l _ _ w18); [left; run_step (step_no_permit)|].
  apply (rtc_l _ _ w19); [left; run_step (step_task_free [] en1 [])|].
  apply (rtc_l _ _ w20); [left; run_step (step_task_drop [] en1 [])|].
  apply (rtc_l _ _ w21); [left; run_step (step_receive 1 (cl1 <| c_pc := Waiting |>) rs1)|].
  apply (rtc_l _ _ w22); [left; run_step (step_return 1 (cl1 <| c_pc := Returning rs1 |>) rs1)|].
  apply rtc_refl.
Qed.

(** ** Properties *)

(** C39: the pool keeps its bounds in every interleaving: permits, the one the
    dispatcher holds and the spawned inferences add up to the number of
    slots, so at most that many inferences run at once and no slot is lost;
    the in-flight count is the number of inferences not yet counted out; and
    the waiting and in-flight requests never exceed the capacity. *)
Theorem pool_slots_invariant max cap starvation s :
  (Z.of_nat max < 2 ^ 32)%Z → reachable max cap starvation s →
  permits s + holding (dispatcher s) + length (tasks s) = max
  ∧ in_flight (queue s) = Z.of_nat (length (filter uncounted (tasks s)))
  ∧ (Z.of_nat (total_waiting (queue s)) + in_flight (queue s) ≤ Z.of_nat cap)%Z.
Proof. intros Hmax [Hp Hf Hc _]%reachable_slots; [|done]. done. Qed.

(** No admitted request is lost or answered twice: at most one result is
    ever sent on a channel, and a client that waits has its request in the
    queue, or in a running inference, or its result on its channel. *)
Theorem pool_delivery max cap starvation s :
  (Z.of_nat max < 2 ^ 32)%Z → reachable max cap starvation s →
  NoDup (results s).*1
  ∧ ∀ k c, clients s !! k = Some c → c_pc c = Waiting →
      (∃ e, e ∈ entries (queue s) ∧ result_tx e = k)
      ∨ (∃ t, t ∈ tasks s ∧ unsent t ∧ task_chan t = k)
      ∨ (∃ r, (k, r) ∈ results s).
Proof.
  intros Hmax [Hn _ Hp]%reachable_deliver; [|done]. split.
  - unfold chans in Hn. rewrite !NoDup_app in Hn. tauto.
  - intros k c Hc Hpc. specialize (Hp k c Hc (or_intror Hpc)). unfold chans in Hp.
    rewrite !elem_of_app, !list_elem_of_fmap in Hp.
    destruct Hp as [(e & -> & He)|[(t & -> & [Hu Ht]%list_elem_of_filter)|([k' r] & -> & Hr)]];
      [left|right; left|right; right]; eauto.
Qed.

(** C40: a wake-up can be lost: since an inference notifies the dispatcher
    before it drops its permit, the pool reaches a state in which a request
    waits in the queue, every slot is free, the request is not cancelled, and
    the pool has no step left by itself. *)
Theorem pool_lost_wakeup :
  ∃ s k c, reachable 1 4 10000 s
    ∧ clients s !! k = Some c ∧ c_pc c = Waiting ∧ k ∉ cancelled s
    ∧ total_waiting (queue s) = 1 ∧ permits s = 1
    ∧ ∀ s', ¬ internal s s'.
Proof.
  exists w22, 2, (cl2 <| c_pc := Waiting |>).
  split; [apply run_reachable|]. split_and!; try (vm_compute; reflexivity); [apply not_elem_of_empty|].
  assert (clients w22 = <[1 := cl1 <| c_pc := Done rs1 |>]> {[2 := cl2 <| c_pc := Waiting |>]}) as Ec
    by (vm_compute; reflexivity).
  assert (tasks w22 = []) as Et by (vm_compute; reflexivity).
  assert (dispatcher w22 = Idle) as Ed by (vm_compute; reflexivity).
  assert (notified w22 = false) as En by (vm_compute; reflexivity).
  assert (results w22 = [(1, rs1)]) as Er by (vm_compute; reflexivity).
  assert (cancelled w22 = ∅) as Ex by (vm_compute; reflexivity).
  assert (∀ k c, clients w22 !! k = Some c → c_pc c = Done rs1 ∨ k = 2 ∧ c_pc c = Waiting) as Hcl.
  { intros k c. rewrite Ec, lookup_insert_Some, lookup_singleton_Some.
    intros [[_ <-]|[_ [<- <-]]]; [by left|by right]. }
  intros s'. generalize dependent w22. intros s _ Et Ed En Er Ex Hcl Hi.
  destruct Hi; try congruence; try (symmetry in Et; by apply app_cons_not_nil in Et);
    try (rewrite Et in *; by destruct l1);
    edestruct Hcl as [?|[? ?]]; try done; try congruence; subst.
  - match goal with H : (2, _) ∈ _ |- _ => rewrite Er in H; by apply list_elem_of_singleton in H end.
  - match goal with H : 2 ∈ _ |- _ => rewrite Ex in H; by apply not_elem_of_empty in H end.
Qed.

Lemma pool_slots_invariant_witness :
  permits w22 + holding (dispatcher w22) + length (tasks w22) = 1
  ∧ in_flight (queue w22) = Z.of_nat (length (filter uncounted (tasks w22)))
  ∧ (Z.of_nat (total_waiting (queue w22)) + in_flight (queue w22) ≤ Z.of_nat 4)%Z.
Proof. exact (pool_slots_invariant 1 4 10000 w22 eq_refl run_reachable). Defined.
Lemma pool_delivery_witness :
  NoDup (results w22).*1
  ∧ ∀ k c, clients w22 !! k = Some c → c_pc c = Waiting →
      (∃ e, e ∈ entries (queue w22) ∧ result_tx e = k)
      ∨ (∃ t, t ∈ tasks w22 ∧ unsent t ∧ task_chan t = k)
      ∨ (∃ r, (k, r) ∈ results w22).
Proof. exact (pool_delivery 1 4 10000 w22 eq_refl run_reachable). Defined.

End Pool.
