(* ===== verification/IoQueue.v ===== *)
(** IoQueue: the bounded admission queue of state loads, [poc/runtime/src/io_queue.rs].

    Module [IoState] is [IoQueueState]: three queues, admission against a
    capacity, and a pop that prefers the class, then the cache affinity, then the
    age.  Module [IoPool] is the dispatcher, the callers of [acquire] and the
    life of an [IoPermit], as a step relation; a permit is in the semaphore,
    with the dispatcher, in the channel of a caller, or held by a caller. *)
From S2P Require Import Prelude InferQueue.

Module IoState.

Abbreviation AgentId := bytes.
Export Queue(PriorityClass, Supervisor, Foreground, Batch, PriorityClass_eq_dec).

Inductive IoError := NoSlot | Cancelled.

Record IoWaiter := mkWaiter {
  w_agent_id : AgentId;
  priority : PriorityClass;
  cache_score : Z;
  w_admission_seq : Z;
  w_result_tx : nat }.

Record IoQueueState := mkIo {
  io_supervisor : list IoWaiter;
  io_foreground : list IoWaiter;
  io_batch : list IoWaiter;
  io_in_flight : Z;
  io_queue_capacity : nat;
  io_admission_counter : Z;
  io_total_admitted : Z;
  io_total_rejected : Z;
  pop_with_sup_present : Z;
  sup_chosen_when_present : Z }.
#[global] Instance IoQueueState_settable : Settable IoQueueState := λ q,
  mkIo (io_supervisor q) (io_foreground q) (io_batch q) (io_in_flight q) (io_queue_capacity q)
    (io_admission_counter q) (io_total_admitted q) (io_total_rejected q)
    (pop_with_sup_present q) (sup_chosen_when_present q).

Definition io_new (capacity : nat) : IoQueueState := mkIo [] [] [] 0 capacity 0 0 0 0 0.

Definition io_total_waiting (q : IoQueueState) : nat :=
  length (io_supervisor q) + length (io_foreground q) + length (io_batch q).

Definition io_push (class : PriorityClass) (w : IoWaiter) (q : IoQueueState) : IoQueueState :=
  match class with
  | Supervisor => q <| io_supervisor ::= λ l, l ++ [w] |>
  | Foreground => q <| io_foreground ::= λ l, l ++ [w] |>
  | Batch => q <| io_batch ::= λ l, l ++ [w] |>
  end.

Definition io_try_enqueue (q : IoQueueState) (agent_id : AgentId) (class : PriorityClass)
    (score : Z) (tx : nat) : result IoError () * IoQueueState :=
  let total := (Z.of_nat (io_total_waiting q) + io_in_flight q)%Z in
  if decide (Z.of_nat (io_queue_capacity q) ≤ total)%Z then
    (Err NoSlot, q <| io_total_rejected ::= λ n, u64 (n + 1) |>)
  else
    let q := q <| io_admission_counter ::= λ n, u64 (n + 1) |> in
    let w := mkWaiter agent_id class score (io_admission_counter q) tx in
    (Ok (), io_push class w q <| io_total_admitted ::= λ n, u64 (n + 1) |>).

(** The comparison of [max_by]: the score, then the older admission. *)
Definition better (a b : IoWaiter) : comparison :=
  match (cache_score a ?= cache_score b)%Z with
  | Eq => (w_admission_seq b ?= w_admission_seq a)%Z
  | c => c
  end.
(** [Iterator::max_by] keeps the later of two equal elements. *)
Fixpoint max_index (i : nat) (best : nat * IoWaiter) (l : list IoWaiter) : nat :=
  match l with
  | [] => best.1
  | w :: l => max_index (S i) (match better best.2 w with Gt => best | _ => (i, w) end) l
  end.
Definition best_in (bucket : list IoWaiter) : nat :=
  match bucket with [] => 0 | w :: l => max_index 1 (0, w) l end.

(** [VecDeque::remove] *)
Definition remove_at (i : nat) (l : list IoWaiter) : option IoWaiter * list IoWaiter :=
  match l !! i with Some w => (Some w, take i l ++ drop (S i) l) | None => (None, l) end.

Definition pop_best (q : IoQueueState) : option IoWaiter * IoQueueState :=
  match io_supervisor q with
  | _ :: _ =>
      let '(w, l) := remove_at (best_in (io_supervisor q)) (io_supervisor q) in
      let q := q <| pop_with_sup_present ::= λ n, u64 (n + 1) |> <| io_supervisor := l |> in
      (w, if w then q <| sup_chosen_when_present ::= λ n, u64 (n + 1) |> else q)
  | [] =>
      match io_foreground q with
      | _ :: _ =>
          let '(w, l) := remove_at (best_in (io_foreground q)) (io_foreground q) in
          (w, q <| io_foreground := l |>)
      | [] =>
          match io_batch q with
          | _ :: _ =>
              let '(w, l) := remove_at (best_in (io_batch q)) (io_batch q) in
              (w, q <| io_batch := l |>)
          | [] => (None, q)
          end
      end
  end.

Record IoQueueStats := mkIoStats {
  io_waiting : nat * nat * nat;
  s_in_flight : Z;
  s_admitted : Z;
  s_rejected : Z;
  s_pop_with_sup : Z;
  s_sup_chosen : Z }.
Definition io_stats (q : IoQueueState) : IoQueueStats :=
  mkIoStats (length (io_supervisor q), length (io_foreground q), length (io_batch q))
    (io_in_flight q) (io_total_admitted q) (io_total_rejected q)
    (pop_with_sup_present q) (sup_chosen_when_present q).

(** The score [acquire] computes: 3600 less the seconds since the last access. *)
Definition cache_score_of (elapsed_secs : option Z) : Z :=
  match elapsed_secs with Some s => saturating_sub 3600 s | None => 0 end.

Definition io_entries (q : IoQueueState) : list IoWaiter :=
  io_supervisor q ++ io_foreground q ++ io_batch q.

(** ** The best waiter *)

Definition at_most (w best : IoWaiter) : Prop := better best w ≠ Lt.
(** [w] is not preferred to [best]. *)
Lemma at_most_iff w best :
  at_most w best ↔ (cache_score w < cache_score best
    ∨ cache_score w = cache_score best ∧ w_admission_seq best ≤ w_admission_seq w)%Z.
Proof.
  unfold at_most, better. destruct (Z.compare_spec (cache_score best) (cache_score w)) as [E|?|?].
  - rewrite Z.compare_lt_iff. lia.
  - split; [done|lia].
  - split; [lia|done].
Qed.

Lemma max_index_best l i best pre :
  i = length pre → pre !! best.1 = Some best.2 → Forall (λ w, at_most w best.2) pre →
  ∃ w, (pre ++ l) !! max_index i best l = Some w ∧ Forall (λ w', at_most w' w) (pre ++ l).
Proof.
  revert i best pre. induction l as [|w l IH]; intros i best pre Hi Hb Hall; cbn [max_index].
  { rewrite app_nil_r. eauto. }
  rewrite (cons_middle w), (assoc_L (++)).
  destruct (better best.2 w) eqn:Hw; apply IH; cbn [fst snd];
    try (rewrite length_app; cbn; lia);
    try (rewrite lookup_app_r by lia; by rewrite Hi, Nat.sub_diag);
    try (by apply lookup_app_l_Some).
  - apply Forall_app. split; [|by constructor; [apply at_most_iff; lia|]].
    eapply Forall_impl; [done|]. intros x. cbn. rewrite !at_most_iff. unfold better in Hw.
    destruct (Z.compare_spec (cache_score best.2) (cache_score w)); try done.
    rewrite Z.compare_eq_iff in Hw. lia.
  - apply Forall_app. split; [|by constructor; [apply at_most_iff; lia|]].
    eapply Forall_impl; [done|]. intros x. cbn. rewrite !at_most_iff. unfold better in Hw.
    destruct (Z.compare_spec (cache_score best.2) (cache_score w)); try done; try lia.
    rewrite Z.compare_lt_iff in Hw. lia.
  - apply Forall_app. split; [done|]. constructor; [|done]. unfold at_most. by rewrite Hw.
Qed.
Lemma best_in_spec l :
  l ≠ [] → ∃ w, l !! best_in l = Some w ∧ Forall (λ w', at_most w' w) l.
Proof.
  destruct l as [|w l]; [done|]. intros _.
  destruct (max_index_best l 1 (0, w) [w]) as (w' & ? & ?); cbn; [done|done| |eauto].
  constructor; [apply at_most_iff; lia|done].
Qed.

Lemma remove_best l :
  l ≠ [] → ∃ w l', remove_at (best_in l) l = (Some w, l') ∧ l ≡ₚ w :: l'
    ∧ Forall (λ w', at_most w' w) l'.
Proof.
  intros (w & Hw & Hall)%best_in_spec. unfold remove_at. rewrite Hw.
  exists w, (take (best_in l) l ++ drop (S (best_in l)) l). split; [done|].
  assert (l ≡ₚ w :: take (best_in l) l ++ drop (S (best_in l)) l) as E.
  { rewrite <-(take_drop_middle l (best_in l) w Hw) at 1. by rewrite Permutation_middle. }
  split; [done|]. rewrite E in Hall. by apply Forall_cons in Hall as [_ ?].
Qed.

(** ** Properties *)

(** A pop takes from the most urgent class that has a waiter, and in it a
    waiter with the highest cache score, the oldest among equals; every other
    waiter stays; it returns nothing only when nobody waits. *)
Theorem pop_best_spec q o q' :
  pop_best q = (o, q') →
  match o with
  | None => io_entries q = []
  | Some w =>
      io_entries q ≡ₚ w :: io_entries q'
      ∧ (w ∈ io_supervisor q ∧ Forall (λ w', at_most w' w) (io_supervisor q')
         ∨ io_supervisor q = [] ∧ w ∈ io_foreground q ∧ Forall (λ w', at_most w' w) (io_foreground q')
         ∨ io_supervisor q = [] ∧ io_foreground q = [] ∧ w ∈ io_batch q
           ∧ Forall (λ w', at_most w' w) (io_batch q'))
  end.
Proof.
  unfold pop_best, io_entries.
  destruct (io_supervisor q) as [|x l] eqn:Es.
  - destruct (io_foreground q) as [|x l] eqn:Ef.
    + destruct (io_batch q) as [|x l] eqn:Eb.
      { by intros [= <- <-]. }
      destruct (remove_best (x :: l)) as (w & l' & -> & Hp & Hall); [done|].
      intros [= <- <-]. cbn. rewrite Es, Ef. split; [done|]. right; right.
      split_and!; [done..| |done]. rewrite Hp. by left.
    + destruct (remove_best (x :: l)) as (w & l' & -> & Hp & Hall); [done|].
      intros [= <- <-]. cbn. rewrite Es. split; [exact (Permutation_app_tail _ Hp)|].
      right; left. split_and!; [done| |done]. rewrite Hp. by left.
  - destruct (remove_best (x :: l)) as (w & l' & -> & Hp & Hall); [done|].
    intros [= <- <-]. cbn. split; [exact (Permutation_app_tail _ Hp)|].
    left. split; [|done]. rewrite Hp. by left.
Qed.

(** The two counters of the strict priority of supervisors move together. *)
Lemma pop_best_counters q o q' :
  pop_best q = (o, q') → pop_with_sup_present q = sup_chosen_when_present q →
  pop_with_sup_present q' = sup_chosen_when_present q'.
Proof.
  unfold pop_best. intros Hpop Heq. revert Hpop.
  destruct (io_supervisor q) as [|x l] eqn:Es; [destruct (io_foreground q) as [|x l] eqn:Ef;
    [destruct (io_batch q) as [|x l] eqn:Eb|]|]; [by intros [= _ <-]|..];
    destruct (remove_best (x :: l)) as (w & l' & -> & _); try done;
    intros [= <- <-]; cbn; congruence.
Qed.
Lemma pop_best_frame q o q' :
  pop_best q = (o, q') →
  io_in_flight q' = io_in_flight q ∧ io_queue_capacity q' = io_queue_capacity q.
Proof.
  unfold pop_best.
  destruct (io_supervisor q) as [|x l] eqn:Es; [destruct (io_foreground q) as [|x l] eqn:Ef;
    [destruct (io_batch q) as [|x l] eqn:Eb|]|]; [by intros [= _ <-]|..];
    destruct (remove_best (x :: l)) as (w & l' & -> & _); try done; by intros [= _ <-].
Qed.

(** ** A queue *)

Definition demo_io : IoQueueState :=
  let put q class score k := (io_try_enqueue q (replicate 16 Byte.x41) class score k).2 in
  put (put (put (io_new 8) Batch 3600%Z 1) Foreground 10%Z 2) Foreground 10%Z 3.
Definition demo_w : IoWaiter := mkWaiter (replicate 16 Byte.x41) Foreground 10 2 2.
Lemma demo_pop_best : pop_best demo_io = (Some demo_w, (pop_best demo_io).2).
Proof. apply pair_parts; [vm_compute; reflexivity|reflexivity]. Qed.
Lemma pop_best_spec_witness :
  io_entries demo_io ≡ₚ demo_w :: io_entries (pop_best demo_io).2
  ∧ (demo_w ∈ io_supervisor demo_io
       ∧ Forall (λ w', at_most w' demo_w) (io_supervisor (pop_best demo_io).2)
     ∨ io_supervisor demo_io = [] ∧ demo_w ∈ io_foreground demo_io
       ∧ Forall (λ w', at_most w' demo_w) (io_foreground (pop_best demo_io).2)
     ∨ io_supervisor demo_io = [] ∧ io_foreground demo_io = [] ∧ demo_w ∈ io_batch demo_io
       ∧ Forall (λ w', at_most w' demo_w) (io_batch (pop_best demo_io).2)).
Proof. exact (pop_best_spec demo_io (Some demo_w) (pop_best demo_io).2 demo_pop_best). Defined.

End IoState.

(** The queue with its dispatcher and callers. *)
Module IoPool.
Import IoState.

(** A call of [acquire]: admitted, waiting on its channel, served with a permit,
    refused, or gone (its future was dropped). *)
Inductive CallerPc := Enqueued | Waiting | Served | Refused (e : IoError) | Gone.

(** The drop of an [IoPermit]: the count is decremented, then the dispatcher is
    notified, then the semaphore permit it contains is released. *)
Inductive PermitPc := Held | Decremented | Notified.

Inductive DispatcherPc := Idle | Acquire | Popping | Sending (w : IoWaiter).

(** [leaked] counts the permits that were dropped inside a channel. *)
Record IoPoolState := mkIoPool {
  io_queue : IoQueueState;
  available : nat;
  io_notified : bool;
  c1_hint : bool;
  io_dispatcher : DispatcherPc;
  callers : gmap nat CallerPc;
  in_channel : list nat;
  held : list (nat * PermitPc);
  leaked : nat }.
#[global] Instance IoPoolState_settable : Settable IoPoolState := λ s,
  mkIoPool (io_queue s) (available s) (io_notified s) (c1_hint s) (io_dispatcher s) (callers s)
    (in_channel s) (held s) (leaked s).

(** [new_with_c1_hint] *)
Definition new_io_pool (cap_actif capacity : nat) : IoPoolState :=
  mkIoPool (io_new capacity) cap_actif false false Idle ∅ [] [] 0.

Definition io_acquire (k : nat) (agent : AgentId) (class : PriorityClass) (elapsed : option Z)
    (s : IoPoolState) : IoPoolState :=
  let '(r, q) := io_try_enqueue (io_queue s) agent class (cache_score_of elapsed) k in
  s <| io_queue := q |>
    <| callers ::= insert k (match r with Ok _ => Enqueued | Err e => Refused e end) |>.

Definition decrement (q : IoQueueState) : IoQueueState :=
  q <| io_in_flight ::= λ n, if (0 <? n)%Z then (n - 1)%Z else n |>.

Definition io_pop (s : IoPoolState) : IoPoolState :=
  match pop_best (io_queue s) with
  | (Some w, q) => s <| io_queue := q <| io_in_flight ::= λ n, wrap 32 (n + 1) |> |>
                     <| io_dispatcher := Sending w |>
  | (None, q) => s <| io_queue := q |> <| available ::= S |> <| io_dispatcher := Idle |>
  end.

Inductive io_step : relation IoPoolState :=
| io_step_acquire k agent class elapsed s :
    callers s !! k = None → io_step s (io_acquire k agent class elapsed s)
| io_step_notify k s :
    callers s !! k = Some Enqueued →
    io_step s (s <| callers ::= insert k Waiting |> <| io_notified := true |>)
| io_step_receive l1 k l2 s :
    callers s !! k = Some Waiting → in_channel s = l1 ++ k :: l2 →
    io_step s (s <| callers ::= insert k Served |> <| in_channel := l1 ++ l2 |>
                 <| held ::= λ l, l ++ [(k, Held)] |>)
| io_step_abandon k s :
    callers s !! k = Some Waiting → k ∉ in_channel s →
    io_step s (s <| callers ::= insert k Gone |>)
| io_step_abandon_sent l1 k l2 s :
    callers s !! k = Some Waiting → in_channel s = l1 ++ k :: l2 →
    io_step s (s <| callers ::= insert k Gone |> <| in_channel := l1 ++ l2 |>
                 <| available ::= S |> <| leaked ::= S |>)
| io_step_drop_count l1 k l2 s :
    held s = l1 ++ (k, Held) :: l2 →
    io_step s (s <| held := l1 ++ (k, Decremented) :: l2 |> <| io_queue ::= decrement |>)
| io_step_drop_notify l1 k l2 s :
    held s = l1 ++ (k, Decremented) :: l2 →
    io_step s (s <| held := l1 ++ (k, Notified) :: l2 |> <| io_notified := true |>)
| io_step_drop_release l1 k l2 s :
    held s = l1 ++ (k, Notified) :: l2 →
    io_step s (s <| held := l1 ++ l2 |> <| available ::= S |>)
| io_step_c1 s : io_step s (s <| c1_hint := true |>)
| io_step_wake s :
    io_dispatcher s = Idle → io_notified s = true →
    io_step s (s <| io_notified := false |> <| io_dispatcher := Acquire |>)
| io_step_wake_c1 s :
    io_dispatcher s = Idle → c1_hint s = true →
    io_step s (s <| c1_hint := false |> <| io_dispatcher := Acquire |>)
| io_step_permit n s :
    io_dispatcher s = Acquire → available s = S n →
    io_step s (s <| available := n |> <| io_dispatcher := Popping |>)
| io_step_no_permit s :
    io_dispatcher s = Acquire → available s = 0 → io_step s (s <| io_dispatcher := Idle |>)
| io_step_pop s : io_dispatcher s = Popping → io_step s (io_pop s)
| io_step_send w s :
    io_dispatcher s = Sending w → callers s !! w_result_tx w ≠ Some Gone →
    io_step s (s <| in_channel ::= λ l, l ++ [w_result_tx w] |> <| io_dispatcher := Acquire |>)
| io_step_send_gone w s :
    io_dispatcher s = Sending w → callers s !! w_result_tx w = Some Gone →
    io_step s (s <| io_queue ::= decrement |> <| io_notified := true |>
                 <| available ::= S |> <| io_dispatcher := Acquire |>).
Definition io_reachable (cap_actif capacity : nat) (s : IoPoolState) : Prop :=
  rtc io_step (new_io_pool cap_actif capacity) s.

(** ** Where the permits are *)

Definition dispatcher_permit (d : DispatcherPc) : nat :=
  match d with Popping | Sending _ => 1 | _ => 0 end.
Definition dispatcher_counted (d : DispatcherPc) : nat :=
  match d with Sending _ => 1 | _ => 0 end.
Definition counted (h : nat * PermitPc) : Prop := h.2 = Held.
#[global] Instance counted_dec h : Decision (counted h).
Proof. unfold counted. destruct (h.2); [by left|by right..]. Defined.

Record io_inv (cap : nat) (s : IoPoolState) : Prop := {
  io_permits : available s + dispatcher_permit (io_dispatcher s)
               + length (in_channel s) + length (held s) = cap;
  io_flight : io_in_flight (io_queue s) = Z.of_nat (dispatcher_counted (io_dispatcher s)
                + length (in_channel s) + length (filter counted (held s)) + leaked s);
  io_counters : pop_with_sup_present (io_queue s) = sup_chosen_when_present (io_queue s) }.

Lemma length_counted l1 k pc l2 :
  length (filter counted (l1 ++ (k, pc) :: l2)) =
  length (filter counted (l1 ++ l2)) + (match pc with Held => 1 | _ => 0 end).
Proof.
  rewrite !filter_app, !length_app, filter_cons. unfold counted. cbn.
  destruct pc; case_decide; cbn; congruence || lia.
Qed.
Lemma decrement_flight q n :
  io_in_flight q = Z.of_nat (S n) → io_in_flight (decrement q) = Z.of_nat n.
Proof. intros E. unfold decrement. cbn. rewrite E. rewrite (proj2 (Z.ltb_lt _ _)); lia. Qed.
Lemma io_try_enqueue_frame q a c sc k r q' :
  io_try_enqueue q a c sc k = (r, q') →
  io_in_flight q' = io_in_flight q ∧ pop_with_sup_present q' = pop_with_sup_present q
  ∧ sup_chosen_when_present q' = sup_chosen_when_present q.
Proof. unfold io_try_enqueue. case_decide; [|destruct c]; by intros [= _ <-]. Qed.

Lemma io_step_inv cap s s' :
  (Z.of_nat cap + Z.of_nat (leaked s) < 2 ^ 32)%Z → io_step s s' → io_inv cap s → io_inv cap s'.
Proof.
  intros Hcap Hstep [Hp Hf Hc].
  assert (length (filter counted (held s)) ≤ length (held s)) as Hle by apply length_filter.
  destruct Hstep as [k agent class elapsed s Hk|k s Hk|l1 k l2 s Hk Hl|k s Hk Hn|l1 k l2 s Hk Hl
    |l1 k l2 s Hl|l1 k l2 s Hl|l1 k l2 s Hl|s|s Hd Hn|s Hd Hn|n s Hd Ha|s Hd Ha|s Hd|w s Hd Hw|w s Hd Hw].
  - unfold io_acquire. destruct (io_try_enqueue _ _ _ _ _) as [r q] eqn:E.
    destruct (io_try_enqueue_frame _ _ _ _ _ _ _ E) as (Ef & E1 & E2). split; cbn -[decrement]; congruence.
  - by split.
  - rewrite Hl, length_app in *. split; cbn -[decrement]; rewrite ?filter_app, ?length_app; cbn -[decrement] in *; [lia| |done].
    rewrite decide_True by done. cbn. lia.
  - by split.
  - rewrite Hl, length_app in *. split; cbn -[decrement]; rewrite ?length_app; cbn -[decrement] in *; [lia|lia|done].
  - rewrite Hl, length_counted, length_app in *. split; cbn -[decrement]; rewrite ?length_counted, ?length_app; cbn -[decrement] in *;
      [lia| |done].
    rewrite (decrement_flight (io_queue s) (dispatcher_counted (io_dispatcher s) + length (in_channel s)
      + length (filter counted (l1 ++ l2)) + leaked s)) by lia. lia.
  - rewrite Hl, length_counted, length_app in *. split; cbn -[decrement]; rewrite ?length_counted, ?length_app; cbn -[decrement] in *;
      [lia|lia|done].
  - rewrite Hl, length_counted, length_app in *. split; cbn -[decrement]; rewrite ?length_app; cbn -[decrement] in *; [lia|lia|done].
  - by split.
  - by split; cbn -[decrement]; rewrite Hd in *.
  - by split; cbn -[decrement]; rewrite Hd in *.
  - split; cbn -[decrement]; rewrite ?Hd, ?Ha in *; cbn -[decrement] in *; [lia|lia|done].
  - split; cbn -[decrement]; rewrite ?Hd, ?Ha in *; cbn -[decrement] in *; [lia|lia|done].
  - unfold io_pop. destruct (pop_best (io_queue s)) as [o q] eqn:E.
    destruct (pop_best_frame _ _ _ E) as [Ef _]. pose proof (pop_best_counters _ _ _ E Hc).
    rewrite Hd in Hp, Hf. cbn in Hp, Hf. destruct o as [w|]; split; cbn -[decrement]; try done; rewrite ?Ef; try lia.
    rewrite wrap_small; [lia|]. unfold in_width. lia.
  - split; cbn -[decrement]; rewrite ?Hd, ?length_app in *; cbn -[decrement] in *; [lia|lia|done].
  - rewrite Hd in Hp, Hf. cbn in Hp, Hf. split; cbn -[decrement]; [lia| |done].
    rewrite (decrement_flight (io_queue s) (length (in_channel s)
      + length (filter counted (held s)) + leaked s)) by lia. lia.
Qed.

(** The number of leaked permits never decreases. *)
Lemma io_step_leaked s s' : io_step s s' → leaked s ≤ leaked s'.
Proof.
  destruct 1; cbn; try lia.
  - unfold io_acquire. destruct (io_try_enqueue _ _ _ _ _) as [r q]. done.
  - unfold io_pop. destruct (pop_best (io_queue s)) as [[w|] q]; done.
Qed.
Lemma io_reachable_inv cap capacity s :
  io_reachable cap capacity s → (Z.of_nat cap + Z.of_nat (leaked s) < 2 ^ 32)%Z → io_inv cap s.
Proof.
  unfold io_reachable. revert s. apply (rtc_ind_r (λ s, _ → io_inv cap s)).
  - intros _. split; cbn; done || lia.
  - intros y z _ Hyz IH Hz. pose proof (io_step_leaked _ _ Hyz).
    eapply io_step_inv; [|done|apply IH]; lia.
Qed.

(** ** Properties *)

(** In every interleaving the permits that are free, with the dispatcher,
    in a channel or held by a caller add up to the configured number of
    simultaneous loads; the in-flight count is the number of them given out
    and not yet returned, plus the permits dropped inside a channel; and the
    two counters of supervisor pops are equal: a pop never passes over a
    waiting supervisor. *)
Theorem io_slots_invariant cap capacity s :
  io_reachable cap capacity s → (Z.of_nat cap + Z.of_nat (leaked s) < 2 ^ 32)%Z →
  available s + dispatcher_permit (io_dispatcher s) + length (in_channel s) + length (held s) = cap
  ∧ (io_in_flight (io_queue s) ≤ Z.of_nat cap + Z.of_nat (leaked s))%Z
  ∧ pop_with_sup_present (io_queue s) = sup_chosen_when_present (io_queue s).
Proof.
  intros Hr Hb. destruct (io_reachable_inv _ _ _ Hr Hb) as [Hp Hf Hc].
  assert (length (filter counted (held s)) ≤ length (held s)) as Hle by apply length_filter.
  split_and!; [done| |done]. rewrite Hf. destruct (io_dispatcher s); cbn in *; lia.
Qed.

(** ** A run that leaks the in-flight count *)

Definition agent : AgentId := replicate 16 Byte.x41.
Definition wt1 : IoWaiter := mkWaiter agent Supervisor 0 1 1.
Definition v0 : IoPoolState := new_io_pool 1 1.
Definition v1 : IoPoolState := io_acquire 1 agent Supervisor None v0.
Definition v2 : IoPoolState := v1 <| callers ::= insert 1 Waiting |> <| io_notified := true |>.
Definition v3 : IoPoolState := v2 <| io_notified := false |> <| io_dispatcher := Acquire |>.
Definition v4 : IoPoolState := v3 <| available := 0 |> <| io_dispatcher := Popping |>.
Definition v5 : IoPoolState := io_pop v4.
Definition v6 : IoPoolState := v5 <| in_channel ::= λ l, l ++ [1] |> <| io_dispatcher := Acquire |>.
Definition v7 : IoPoolState := v6 <| callers ::= insert 1 Gone |> <| in_channel := [] |> <| available ::= S |> <| leaked ::= S |>.
Definition v8 : IoPoolState := v7 <| available := 0 |> <| io_dispatcher := Popping |>.
Definition v9 : IoPoolState := io_pop v8.

Ltac run_io c :=
  eapply c; first [reflexivity | vm_compute; reflexivity | vm_compute; discriminate].
Lemma io_run_reachable : io_reachable 1 1 v9.
Proof.
  unfold io_reachable. change (new_io_pool 1 1) with v0.
  apply (rtc_l _ _ v1); [run_io (io_step_acquire 1 agent Supervisor None)|].
  apply (rtc_l _ _ v2); [run_io (io_step_notify 1)|].
  apply (rtc_l _ _ v3); [run_io (io_step_wake)|].
  apply (rtc_l _ _ v4); [run_io (io_step_permit 0)|].
  apply (rtc_l _ _ v5); [run_io (io_step_pop)|].
  apply (rtc_l _ _ v6); [run_io (io_step_send wt1)|].
  apply (rtc_l _ _ v7); [run_io (io_step_abandon_sent [] 1 [])|].
  apply (rtc_l _ _ v8); [run_io (io_step_permit 0)|].
  apply (rtc_l _ _ v9); [run_io (io_step_pop)|].
  apply rtc_refl.
Qed.

Lemma io_slots_invariant_witness :
  available v9 + dispatcher_permit (io_dispatcher v9) + length (in_channel v9) + length (held v9) = 1
  ∧ (io_in_flight (io_queue v9) ≤ Z.of_nat 1 + Z.of_nat (leaked v9))%Z
  ∧ pop_with_sup_present (io_queue v9) = sup_chosen_when_present (io_queue v9).
Proof. exact (io_slots_invariant 1 1 v9 io_run_reachable eq_refl). Defined.

(** A caller that gives up between the sending of its permit and its
    reception returns the permit but not its place in the in-flight count: the
    queue reaches a state where every permit is free, nobody waits or holds a
    permit, and yet every later request is refused. *)
Theorem io_in_flight_leak :
  ∃ s, io_reachable 1 1 s
    ∧ available s = 1 ∧ in_channel s = [] ∧ held s = [] ∧ io_entries (io_queue s) = []
    ∧ ∀ a class score k, (io_try_enqueue (io_queue s) a class score k).1 = Err NoSlot.
Proof.
  exists v9. split; [apply io_run_reachable|]. split_and!; [vm_compute; reflexivity..|].
  intros a class score k. unfold io_try_enqueue. rewrite decide_True; [done|].
  vm_compute. discriminate.
Qed.

End IoPool.
