(* ===== verification/Clock.v ===== *)
(** Clock: the substitutable clock of [poc/runtime/src/clock.rs] and the
    watchdog profiles of [watchdog.rs].

    A clock is the system clock or a shared logical counter.  The system clock
    reads the environment: the successive readings are the sequence [wall], in
    nanoseconds since the Unix epoch.  A logical clock is named by the location
    of its counter, since agents may share it. *)
From S2P Require Import Prelude.

Module Clocks.

Inductive Clock := SystemClock | LogicalClock (counter : nat).

Record ClockState := mkClocks {
  wall : nat → Z;
  readings : nat;
  counters : gmap nat Z }.
#[global] Instance ClockState_settable : Settable ClockState := λ c,
  mkClocks (wall c) (readings c) (counters c).

(** [LogicalClock::new(start)] at a fresh location, and [Default]. *)
Definition logical_new (start : Z) (c : ClockState) : Clock * ClockState :=
  let l := fresh (dom (counters c)) in
  (LogicalClock l, c <| counters ::= insert l start |>).
Definition logical_default : ClockState → Clock * ClockState := logical_new 1700000000000.
Definition peek (l : nat) (c : ClockState) : Z := default 0%Z (counters c !! l).

(** [counter.fetch_add(1)] *)
Definition fetch_add (l : nat) (c : ClockState) : Z * ClockState :=
  (peek l c, c <| counters ::= insert l (u64 (peek l c + 1)) |>).

(** [SystemTime::now().duration_since(UNIX_EPOCH).unwrap_or_default()], in nanoseconds *)
Definition since_epoch (c : ClockState) : Z * ClockState :=
  (Z.max 0 (wall c (readings c)), c <| readings ::= S |>).

Definition now_ms (k : Clock) (c : ClockState) : Z * ClockState :=
  match k with
  | SystemClock => let '(t, c) := since_epoch c in (u64 (t / 1000000), c)
  | LogicalClock l => fetch_add l c
  end.
Definition now_us (k : Clock) (c : ClockState) : Z * ClockState :=
  match k with
  | SystemClock => let '(t, c) := since_epoch c in (u64 (t / 1000), c)
  | LogicalClock l => fetch_add l c
  end.

Definition clocks_ok (c : ClockState) : Prop := map_Forall (λ _ n, is_u64 n) (counters c).

Lemma fetch_add_ok l c t c' :
  clocks_ok c → fetch_add l c = (t, c') → is_u64 t ∧ clocks_ok c'.
Proof.
  unfold fetch_add, peek. intros Hc [= <- <-]. split.
  - destruct (counters c !! l) eqn:E; [by apply (Hc l)|by unfold in_width; cbn].
  - by apply map_Forall_insert_2; [apply wrap_in_width|].
Qed.
Lemma since_epoch_ok c t c' : clocks_ok c → since_epoch c = (t, c') → clocks_ok c'.
Proof. by intros Hc [= <- <-]. Qed.

(** Readings are 64-bit numbers. *)
Lemma now_ms_ok k c t c' : clocks_ok c → now_ms k c = (t, c') → is_u64 t ∧ clocks_ok c'.
Proof.
  destruct k; cbn; [|apply fetch_add_ok]. intros Hc [= <- <-].
  split; [by apply wrap_in_width|done].
Qed.
Lemma now_us_ok k c t c' : clocks_ok c → now_us k c = (t, c') → is_u64 t ∧ clocks_ok c'.
Proof.
  destruct k; cbn; [|apply fetch_add_ok]. intros Hc [= <- <-].
  split; [by apply wrap_in_width|done].
Qed.

(** A logical clock gives the same readings in two runs that call it equally
    often, whatever the wall clock does. *)
Lemma logical_reading l c1 c2 :
  counters c1 = counters c2 →
  (now_ms (LogicalClock l) c1).1 = (now_ms (LogicalClock l) c2).1
  ∧ counters (now_ms (LogicalClock l) c1).2 = counters (now_ms (LogicalClock l) c2).2.
Proof. intros E. cbn. unfold peek. by rewrite E. Qed.

End Clocks.

Module Watchdog.

Definition EPOCH_TICK_MS_BASE : Z := 10.
Definition ALGO : Z := 10.
Definition LLM_SHORT : Z := 500.
Definition LLM_LONG : Z := 3000.
Definition BATCH : Z := 30000.
Definition DEFAULT_MAX_TICKS : Z := LLM_SHORT.

Inductive AgentProfile := Algo | LlmShort | LlmLong | Batch.
#[global] Instance AgentProfile_eq_dec : EqDecision AgentProfile.
Proof. solve_decision. Defined.

(** [self.agent_profile as u8] *)
Definition profile_u8 (p : AgentProfile) : Z :=
  match p with Algo => 0x01 | LlmShort => 0x02 | LlmLong => 0x03 | Batch => 0x04 end.
Definition max_ticks (p : AgentProfile) : Z :=
  match p with Algo => ALGO | LlmShort => LLM_SHORT | LlmLong => LLM_LONG | Batch => BATCH end.
Definition from_u8 (v : Z) : AgentProfile :=
  match v with
  | 0x01 => Algo
  | 0x02 => LlmShort
  | 0x03 => LlmLong
  | 0x04 => Batch
  | _ => LlmShort
  end%Z.

Lemma from_u8_profile p : from_u8 (profile_u8 p) = p.
Proof. by destruct p. Qed.

End Watchdog.
