(* ===== verification/CauseHandles.v ===== *)
(** CauseHandles: the right to cite another agent's action as a cause.

    [CauseHandleStore] and [CauseHandleRegistry] of [poc/runtime/src/actor.rs].
    Stores are shared through [Arc<Mutex<...>>], so they live in a heap: the
    registry maps a tenant to the location of its store, and an agent holds the
    location of the store it consults.  A registry is itself shared and has a
    location.  The theorem says that revocation reaches the stores of all the
    tenants of a registry, and nothing else. *)
From S2P Require Import Prelude.

Module Handles.

Abbreviation AgentId := bytes.
Abbreviation ActionId := bytes.
Abbreviation TenantId := Z.

(** [TenantId::DEFAULT] *)
Definition DEFAULT : TenantId := 0.

Record CauseHandleEntry := mkHandle {
  issuer : AgentId;
  issued_at_ms : Z;
  handle_id : Z }.
#[global] Instance CauseHandleEntry_eq_dec : EqDecision CauseHandleEntry.
Proof. solve_decision. Defined.

Record CauseHandleStore := mkHandles {
  next_handle_id : Z;
  handles : gmap (AgentId * ActionId) CauseHandleEntry }.
#[global] Instance CauseHandleStore_settable : Settable CauseHandleStore := λ s,
  mkHandles (next_handle_id s) (handles s).

Definition handles_new : CauseHandleStore := mkHandles 0 ∅.

Definition mint (s : CauseHandleStore) (action_id : ActionId) (grantee iss : AgentId)
    (issued : Z) : Z * CauseHandleStore :=
  let id := u64 (next_handle_id s + 1) in
  (id, s <| next_handle_id := id |>
         <| handles ::= insert (grantee, action_id) (mkHandle iss issued id) |>).

Definition contains (s : CauseHandleStore) (grantee : AgentId) (action_id : ActionId) : bool :=
  bool_decide (is_Some (handles s !! (grantee, action_id))).

Definition revoke_issued_by (iss : AgentId) (s : CauseHandleStore) : CauseHandleStore :=
  s <| handles ::= filter (λ kv, issuer kv.2 ≠ iss) |>.

Definition revoke_issued_after (iss : AgentId) (after_ms : Z) (s : CauseHandleStore)
    : CauseHandleStore :=
  s <| handles ::= filter (λ kv, ¬ (issuer kv.2 = iss ∧ (issued_at_ms kv.2 > after_ms)%Z)) |>.

(** ** The shared stores *)

Abbreviation registry := (gmap TenantId nat).

Record HandleHeap := mkHeap {
  stores : gmap nat CauseHandleStore;
  registries : gmap nat registry }.
#[global] Instance HandleHeap_settable : Settable HandleHeap := λ h,
  mkHeap (stores h) (registries h).

(** [CauseHandleRegistry::new], at a fresh location *)
Definition registry_new (h : HandleHeap) : nat * HandleHeap :=
  let r := fresh (dom (registries h)) in (r, h <| registries ::= insert r ∅ |>).

Definition registry_get (h : HandleHeap) (r : nat) (tenant : TenantId) : option nat :=
  reg ← registries h !! r; reg !! tenant.

Definition get_or_create (h : HandleHeap) (r : nat) (tenant : TenantId) : nat * HandleHeap :=
  match registry_get h r tenant with
  | Some l => (l, h)
  | None =>
      let l := fresh (dom (stores h)) in
      (l, h <| stores ::= insert l handles_new |>
            <| registries ::= alter (insert tenant l) r |>)
  end.

(** The stores of a registry: the values of its map. *)
Definition registered (h : HandleHeap) (r : nat) : list nat :=
  (map_to_list (default ∅ (registries h !! r))).*2.

(** The sweep of a registry: [for store in stores.values() { f(store) }]. *)
Definition sweep (f : CauseHandleStore → CauseHandleStore) (h : HandleHeap) (r : nat) : HandleHeap :=
  foldl (λ h l, h <| stores ::= alter f l |>) h (registered h r).

Definition revoke_issued_by_all (h : HandleHeap) (r : nat) (iss : AgentId) : HandleHeap :=
  sweep (revoke_issued_by iss) h r.
Definition revoke_issued_after_all (h : HandleHeap) (r : nat) (iss : AgentId) (after_ms : Z)
    : HandleHeap :=
  sweep (revoke_issued_after iss after_ms) h r.

(** ** A sweep *)

Definition in_registry (h : HandleHeap) (r : nat) (l : nat) : Prop :=
  ∃ tenant, registry_get h r tenant = Some l.

Lemma elem_of_registered h r l : l ∈ registered h r ↔ in_registry h r l.
Proof.
  unfold registered, in_registry, registry_get. rewrite list_elem_of_fmap.
  destruct (registries h !! r) as [reg|] eqn:E; cbn.
  - split.
    + intros ([t l'] & -> & Ht%elem_of_map_to_list). by exists t.
    + intros [t Ht]. exists (t, l). by rewrite elem_of_map_to_list.
  - split; [|by intros [? ?]]. intros (? & _ & Ht). by rewrite map_to_list_empty in Ht; apply not_elem_of_nil in Ht.
Qed.

Lemma sweep_registries f h r : registries (sweep f h r) = registries h.
Proof. unfold sweep. generalize (registered h r). intros ls. revert h. by induction ls as [|l ls IH]; intros h; cbn; [|rewrite IH]. Qed.

(** An idempotent function is applied once to each store of the registry. *)
Lemma sweep_loop f ls h l :
  (∀ s, f (f s) = f s) →
  stores (foldl (λ h l, h <| stores ::= alter f l |>) h ls) !! l
  = (if decide (l ∈ ls) then f <$> stores h !! l else stores h !! l).
Proof.
  intros Hf. revert h. induction ls as [|l' ls IH]; intros h; cbn [foldl].
  { by rewrite decide_False by apply not_elem_of_nil. }
  rewrite IH. cbn. destruct (decide (l = l')) as [->|Hne].
  - rewrite (decide_True (P := l' ∈ l' :: ls)) by by left.
    rewrite lookup_alter_eq. case_decide; [|done]. destruct (stores h !! l'); cbn; [by rewrite Hf|done].
  - rewrite lookup_alter_ne by done. assert (l ∈ l' :: ls ↔ l ∈ ls) as Hl by (rewrite elem_of_cons; tauto).
    by rewrite (decide_ext _ _ _ _ Hl).
Qed.
Lemma sweep_lookup f h r l :
  (∀ s, f (f s) = f s) →
  (in_registry h r l → stores (sweep f h r) !! l = f <$> stores h !! l)
  ∧ (¬ in_registry h r l → stores (sweep f h r) !! l = stores h !! l).
Proof.
  intros Hf. unfold sweep. rewrite (sweep_loop _ _ _ _ Hf), <-!elem_of_registered.
  split; intros ?; by case_decide.
Qed.

Lemma filter_twice {K V} `{Countable K} (P : K * V → Prop) `{∀ x, Decision (P x)} (m : gmap K V) :
  filter P (filter P m) = filter P m.
Proof. rewrite map_filter_filter. apply map_filter_ext. tauto. Qed.
Lemma revoke_issued_by_idem iss s : revoke_issued_by iss (revoke_issued_by iss s) = revoke_issued_by iss s.
Proof. unfold revoke_issued_by. cbn. by rewrite filter_twice. Qed.
Lemma revoke_issued_after_idem iss t s :
  revoke_issued_after iss t (revoke_issued_after iss t s) = revoke_issued_after iss t s.
Proof. unfold revoke_issued_after. cbn. by rewrite filter_twice. Qed.

(** ** Authorisation *)

(** The store at location [l] lets [grantee] cite [action]. *)
Definition may_cite (h : HandleHeap) (l : nat) (grantee : AgentId) (action : ActionId) : bool :=
  from_option (λ s, contains s grantee action) false (stores h !! l).

(** C37: the revocations reach every store of the registry, whatever its
    tenant: an entry survives the sweep for an issuer exactly when another
    agent issued it (or, after a rollback, when it was issued no later than the
    rollback target), and no store outside the registry changes. *)
Theorem revocation_sweeps_all_tenants h r iss after_ms :
  (∀ l s, in_registry h r l → stores h !! l = Some s →
    (∃ s', stores (revoke_issued_by_all h r iss) !! l = Some s'
      ∧ ∀ k e, handles s' !! k = Some e ↔ handles s !! k = Some e ∧ issuer e ≠ iss)
    ∧ (∃ s', stores (revoke_issued_after_all h r iss after_ms) !! l = Some s'
      ∧ ∀ k e, handles s' !! k = Some e ↔
          handles s !! k = Some e ∧ (issuer e = iss → (issued_at_ms e ≤ after_ms)%Z)))
  ∧ (∀ l, ¬ in_registry h r l →
      stores (revoke_issued_by_all h r iss) !! l = stores h !! l
      ∧ stores (revoke_issued_after_all h r iss after_ms) !! l = stores h !! l).
Proof.
  unfold revoke_issued_by_all, revoke_issued_after_all.
  pose proof (λ l, sweep_lookup _ h r l (revoke_issued_by_idem iss)) as Hby.
  pose proof (λ l, sweep_lookup _ h r l (revoke_issued_after_idem iss after_ms)) as Haf.
  split; intros l; [|intros Hl; split; [by apply Hby|by apply Haf]].
  intros s Hl Hs. split; eexists; (split; [first [rewrite (proj1 (Hby l) Hl)|rewrite (proj1 (Haf l) Hl)]; by rewrite Hs|]);
    intros k e; cbn; rewrite map_lookup_filter_Some; cbn; [tauto|].
  split; intros [? Hn]; (split; [done|]); [intros ?; destruct (decide (issued_at_ms e ≤ after_ms)%Z); [done|]; destruct Hn; split; [done|lia]|].
  intros [? ?]. specialize (Hn ltac:(done)). lia.
Qed.

(** The store an agent consults is the one the registry holds for its tenant. *)
Lemma get_or_create_registered h r tenant l h' :
  is_Some (registries h !! r) → get_or_create h r tenant = (l, h') →
  registry_get h' r tenant = Some l
  ∧ (∀ t', t' ≠ tenant → registry_get h' r t' = registry_get h r t').
Proof.
  intros [reg Hr]. unfold get_or_create. destruct (registry_get h r tenant) as [l'|] eqn:E.
  - by intros [= <- <-].
  - intros [= <- <-]. unfold registry_get. cbn. rewrite lookup_alter_eq, Hr. cbn.
    split; [by rewrite lookup_insert_eq|]. intros t' ?. by rewrite lookup_insert_ne.
Qed.

(** ** A registry of two tenants *)

Definition demo_a : AgentId := replicate 16 Byte.x0a.
Definition demo_b : AgentId := replicate 16 Byte.x0b.
Definition demo_action : ActionId := replicate 32 Byte.x01.
(** Agent [demo_a] issues a handle in the store of the other tenant. *)
Definition demo_heap0 : HandleHeap := (get_or_create (registry_new (mkHeap ∅ ∅)).2 0 1).2.
Definition demo_heap : HandleHeap :=
  demo_heap0 <| stores ::= alter (λ s, (mint s demo_action demo_b demo_a 5).2) 0 |>.

Definition demo_handles : CauseHandleStore := default handles_new (stores demo_heap !! 0).
Lemma demo_heap_store : stores demo_heap !! 0 = Some demo_handles.
Proof. by vm_compute. Qed.
Lemma demo_handle : handles demo_handles !! (demo_b, demo_action) = Some (mkHandle demo_a 5 1).
Proof. by vm_compute. Qed.

Lemma revocation_sweeps_all_tenants_witness :
  may_cite demo_heap 0 demo_b demo_action = true
  ∧ may_cite (revoke_issued_by_all demo_heap 0 demo_a) 0 demo_b demo_action = false.
Proof.
  split; [by vm_compute|].
  assert (in_registry demo_heap 0 0) as Hin by (by exists 1%Z; vm_compute).
  destruct (proj1 (proj1 (revocation_sweeps_all_tenants demo_heap 0 demo_a 0) 0 demo_handles Hin
    demo_heap_store)) as (s' & Es' & Hk).
  unfold may_cite. rewrite Es'. cbn [from_option]. apply bool_decide_eq_false_2. intros [e He].
  apply Hk in He as [He Hne]. rewrite demo_handle in He. apply Hne. by injection He as <-.
Defined.

End Handles.
