(* ===== verification/Actor.v ===== *)
(** Actor: an agent's state and the host functions its WASM module calls.

    Models [poc/runtime/src/actor.rs]: [AgentState] with its logging methods,
    the limiter of [CapabilityDenied] events, and every host function that
    [build_instance_inner_with_profile_and_clock] links.  A host function is a
    computation on a [Caller]: the shared world (the content store, the causal
    log, and the heaps behind the [Arc<Mutex<...>>] fields), the agent's state and
    its linear memory.  It may diverge ([None]) only in [rollback_path].  An
    [i32] argument is a [Z]; [as usize] is [u64], which sign-extends.  Error
    strings kept in [host_error] are the constructors of [HostError].
    Arithmetic is that of a release build, [debug_assert] included. *)
From Stdlib Require Import String.
From S2P Require Import Prelude Storage Capabilities ContentStore CausalLog InferQueue Clock CauseHandles.

Module Actor.
Import Clocks Watchdog Handles.

Abbreviation Hash := bytes.

Inductive LifecycleState :=
| Spawned | Active | Suspended | Checkpointed | Terminated | AwaitingValidation | WaitingInference.
#[global] Instance LifecycleState_eq_dec : EqDecision LifecycleState.
Proof. solve_decision. Defined.
Definition lifecycle_u8 (l : LifecycleState) : Z :=
  match l with
  | Spawned => 0 | Active => 1 | Suspended => 2 | Checkpointed => 3 | Terminated => 4
  | AwaitingValidation => 5 | WaitingInference => 6
  end.

Inductive ValidationVerdict := Approved | Rejected | Timeout | Cancelled.
#[global] Instance ValidationVerdict_eq_dec : EqDecision ValidationVerdict.
Proof. solve_decision. Defined.
Definition verdict_u8 (v : ValidationVerdict) : Z :=
  match v with Approved => 0 | Rejected => 1 | Timeout => 2 | Cancelled => 3 end.

Inductive CrashCause := ProcessFailed | ContentStoreBroken | WatchdogTrap | HostPanic.
#[global] Instance CrashCause_eq_dec : EqDecision CrashCause.
Proof. solve_decision. Defined.
Definition crash_u8 (c : CrashCause) : Z :=
  match c with ProcessFailed => 1 | ContentStoreBroken => 2 | WatchdogTrap => 3 | HostPanic => 4 end.

Definition zeros (n : nat) : bytes := replicate n Byte.x00.

Definition INTROSPECT_PAYLOAD_LEN : Z := 74.
Definition MAX_SELF_ROLLBACK_DEPTH : Z := 3.
Definition SESSION_DEFAULT_MAX_ACTIONS : Z := 10000.
Definition SESSION_DEFAULT_MAX_DURATION_MS : Z := 86400000.
Definition SESSION_DEFAULT_VALIDATION_TIMEOUT_MS : Z := 30000.
Definition HOST_MAX_INFERENCE_DURATION_MS : Z := 180000.

(** The commit that waits for its payload. *)
Record PendingCommit := mkPending {
  pc_hash_before : Hash;
  pc_hash_after : Hash;
  pc_parent_ids : list ActionId;
  pc_ts_ms : Z;
  pc_seq : Z }.

(** ** The limiter of denial events *)

Record CapDeniedLimiter := mkLimiter {
  cd_count : Z;
  window_start_ms : Z;
  resources : gset string;
  aggregate_emitted : bool;
  set_overflow_emitted : bool }.
#[global] Instance CapDeniedLimiter_settable : Settable CapDeniedLimiter := λ l,
  mkLimiter (cd_count l) (window_start_ms l) (resources l) (aggregate_emitted l) (set_overflow_emitted l).

Definition limiter_default : CapDeniedLimiter := mkLimiter 0 0 ∅ false false.
Definition limiter_reset (now_ms : Z) (l : CapDeniedLimiter) : CapDeniedLimiter :=
  l <| cd_count := 0%Z |> <| window_start_ms := now_ms |> <| resources := ∅ |>
    <| aggregate_emitted := false |> <| set_overflow_emitted := false |>.

Definition CAP_DENIED_RATE_LIMIT : Z := 100.
Definition CAP_DENIED_WINDOW_MS : Z := 1000.
Definition CAP_DENIED_MAX_DISTINCT_RESOURCES : nat := 32.

(** The decision of [emit_cap_denied]: (should_emit, is_aggregated, denied_count). *)
Definition limiter_step (now_ms : Z) (resource : string) (l : CapDeniedLimiter)
    : (bool * bool * Z) * CapDeniedLimiter :=
  let l := if decide (saturating_sub now_ms (window_start_ms l) >= CAP_DENIED_WINDOW_MS)%Z
           then limiter_reset now_ms l else l in
  let l := l <| cd_count ::= λ n, u32 (n + 1) |> in
  let count := cd_count l in
  let is_new_resource := bool_decide (resource ∉ resources l) in
  let has_room := bool_decide (size (resources l) < CAP_DENIED_MAX_DISTINCT_RESOURCES) in
  let l := if is_new_resource && has_room then l <| resources ::= ({[resource]} ∪.) |> else l in
  if (CAP_DENIED_RATE_LIMIT <? count)%Z && negb (aggregate_emitted l) then
    (true, true, count, l <| aggregate_emitted := true |>)
  else if is_new_resource && has_room then (true, false, count, l)
  else if (count <=? CAP_DENIED_RATE_LIMIT)%Z then (true, false, count, l)
  else if negb has_room && is_new_resource && negb (set_overflow_emitted l) then
    (true, true, count, l <| set_overflow_emitted := true |>)
  else (false, false, count, l).

Record CapDeniedAttempt := mkAttempt { attempt_resource : string; attempt_perm_flags : Z }.

(** ** Bounds and strings *)

(** [ptr.checked_add(len)] is some end within [size]. *)
Definition in_bounds (ptr len size : Z) : bool := ((ptr + len <? 2 ^ 64) && (ptr + len <=? size))%Z.

Definition continuation (lo hi : Z) (b : byte) : bool := ((lo <=? b2z b) && (b2z b <=? hi))%Z.
(** [std::str::from_utf8] succeeds. *)
Fixpoint utf8_valid (l : bytes) : bool :=
  let tail := continuation 0x80 0xBF in
  match l with
  | [] => true
  | b :: l1 =>
      if continuation 0x00 0x7F b then utf8_valid l1
      else match l1 with
      | [] => false
      | c :: l2 =>
          if continuation 0xC2 0xDF b then tail c && utf8_valid l2
          else match l2 with
          | [] => false
          | d :: l3 =>
              let third lo hi := continuation lo hi c && tail d && utf8_valid l3 in
              if continuation 0xE0 0xE0 b then third 0xA0%Z 0xBF%Z
              else if continuation 0xED 0xED b then third 0x80%Z 0x9F%Z
              else if continuation 0xE1 0xEF b then third 0x80%Z 0xBF%Z
              else match l3 with
              | [] => false
              | e :: l4 =>
                  let fourth lo hi := continuation lo hi c && tail d && tail e && utf8_valid l4 in
                  if continuation 0xF0 0xF0 b then fourth 0x90%Z 0xBF%Z
                  else if continuation 0xF1 0xF3 b then fourth 0x80%Z 0xBF%Z
                  else if continuation 0xF4 0xF4 b then fourth 0x80%Z 0x8F%Z
                  else false
              end
          end
      end
  end.
Definition from_utf8 (l : bytes) : option string :=
  if utf8_valid l then Some (string_of_list_byte l) else None.

(** [seq as i32] *)
Definition i32 (z : Z) : Z := let w := u32 z in if (w <? 2 ^ 31)%Z then w else (w - 2 ^ 32)%Z.

(** [perm_flags & mask != 0] *)
Definition flag (perm_flags mask : Z) : bool := negb (Z.land perm_flags mask =? 0)%Z.
Definition permissions_of_flags (f : Z) : Caps.Permissions :=
  Caps.mkPermissions (flag f 0x01) (flag f 0x02) (flag f 0x04) (flag f 0x08).

Section ops.
Context `{R : RocksDB, H256 : Sha256, BH : Bincode Store.SnapshotHeader,
          BE : Bincode Log.LogEntry, MP : Msgpack Log.EmitEnvelope}.

Abbreviation store_error := (Store.StoreError db_err (bin_err Store.SnapshotHeader)).
Abbreviation log_error := (Log.LogError db_err (bin_err Log.LogEntry)).

Inductive HostError :=
| PutBlockFailed (e : store_error)
| PutSnapshotFailed (e : store_error)
| PendingCommitAbsent
| EmitOutOfBounds (ptr len size : Z)
| AppendFailed (e : log_error).

(** ** State *)

Record World := mkWorld {
  content_store : db;
  causal_log : db;
  cap_stores : gmap nat Caps.CapabilityStore;
  handle_heap : HandleHeap;
  kv_stores : gmap nat (gmap string bytes);
  witnesses : gmap nat (list CapDeniedAttempt);
  clocks : ClockState }.
#[global] Instance World_settable : Settable World := λ w,
  mkWorld (content_store w) (causal_log w) (cap_stores w) (handle_heap w) (kv_stores w)
    (witnesses w) (clocks w).

Record AgentState := mkAgent {
  id : AgentId;
  tenant : TenantId;
  cause_handle_store : nat;
  cause_handle_registry : nat;
  seq : Z;
  last_snapshot : option Hash;
  last_action : option ActionId;
  lifecycle : LifecycleState;
  termination_requested : bool;
  pending_commit : option PendingCommit;
  last_verdict : option ValidationVerdict;
  pending_extra_causes : list ActionId;
  session_id : Z;
  session_start_seq : Z;
  session_started_at_ms : Z;
  session_max_actions : Z;
  session_max_duration_ms : Z;
  cap_store : nat;
  own_caps : list Caps.CapabilityId;
  validation_timeout_ms : Z;
  agent_profile : AgentProfile;
  parent_agent_id : option AgentId;
  host_error : option HostError;
  clock : Clock;
  kv_store : nat;
  cap_denied : CapDeniedLimiter;
  cap_denied_witness : option nat }.
#[global] Instance AgentState_settable : Settable AgentState := λ s,
  mkAgent (id s) (tenant s) (cause_handle_store s) (cause_handle_registry s) (seq s)
    (last_snapshot s) (last_action s) (lifecycle s) (termination_requested s) (pending_commit s)
    (last_verdict s) (pending_extra_causes s) (session_id s) (session_start_seq s)
    (session_started_at_ms s) (session_max_actions s) (session_max_duration_ms s) (cap_store s)
    (own_caps s) (validation_timeout_ms s) (agent_profile s) (parent_agent_id s) (host_error s)
    (clock s) (kv_store s) (cap_denied s) (cap_denied_witness s).

Record Caller := mkCaller { world : World; agent : AgentState; memory : bytes }.
#[global] Instance Caller_settable : Settable Caller := λ c,
  mkCaller (world c) (agent c) (memory c).

Abbreviation host := (SM Caller).

(** Accesses to the shared world. *)
Definition on_world {A} (f : World → A * World) : host A := λ c,
  let '(a, w) := f (world c) in Some (a, c <| world := w |>).
Definition set_agent (f : AgentState → AgentState) : host () := modify (λ c, c <| agent ::= f |>).

Definition clock_ms : host Z := λ c,
  on_world (λ w, let '(t, k) := now_ms (clock (agent c)) (clocks w) in (t, w <| clocks := k |>)) c.
Definition clock_us : host Z := λ c,
  on_world (λ w, let '(t, k) := now_us (clock (agent c)) (clocks w) in (t, w <| clocks := k |>)) c.
Definition put_block (data : bytes) : host (result store_error Hash) :=
  on_world (λ w, let '(r, d) := Store.put_block (content_store w) data in (r, w <| content_store := d |>)).
Definition put_snapshot (h : Store.SnapshotHeader) : host (result store_error Hash) :=
  on_world (λ w, let '(r, d) := Store.put_snapshot (content_store w) h in (r, w <| content_store := d |>)).
Definition append (e : Log.LogEntry) : host (result log_error ActionId) :=
  on_world (λ w, let '(r, d) := Log.append (causal_log w) e in (r, w <| causal_log := d |>)).

(** Accesses to the linear memory, at offsets already checked. *)
Definition data_size (c : Caller) : Z := Z.of_nat (length (memory c)).
Definition mem_read (ptr len : Z) (c : Caller) : bytes :=
  take (Z.to_nat len) (drop (Z.to_nat ptr) (memory c)).
Definition mem_write (ptr : Z) (b : bytes) : host () :=
  modify (λ c, c <| memory ::= λ m,
    take (Z.to_nat ptr) m ++ b ++ drop (Z.to_nat ptr + length b) m |>).

(** ** Events that the runtime logs for the agent *)

(** [if let Ok(action_id) = log.append(&entry) { last_action = Some(action_id) }] *)
Definition record_entry (e : Log.LogEntry) : host () :=
  r ← append e;
  match r with
  | Ok a => set_agent (λ s, s <| last_action := Some a |>)
  | Err _ => mret ()
  end.

(** The entry of an event that does not change the agent's snapshot. *)
Definition marker (s : AgentState) (ms : Z) (env : Log.EmitEnvelope) : Log.LogEntry :=
  let hash := default (zeros 32) (last_snapshot s) in
  Log.mkEntry (id s) ms (option_list (last_action s)) hash hash (Some (Log.to_msgpack env)).
Definition log_marker (t : Log.EmitType) (payload : AgentState → bytes) : host () :=
  ms ← clock_ms;
  us ← clock_us;
  s ← gets agent;
  record_entry (marker s ms (Log.envelope_new t (id s) (seq s) us (payload s))).

Definition lifecycle_payload (new_state : LifecycleState) (s : AgentState) : bytes :=
  z2b (lifecycle_u8 new_state) :: le_bytes 8 (seq s)
  ++ (if decide (new_state = Spawned) then [z2b (profile_u8 (agent_profile s))] else []).
Definition log_lifecycle_event (new_state : LifecycleState) : host () :=
  s ← gets agent;
  if bool_decide (lifecycle s = Terminated) && bool_decide (new_state ≠ Terminated) then mret ()
  else
    set_agent (λ s, s <| lifecycle := new_state |>);;
    log_marker Log.Lifecycle (lifecycle_payload new_state).

Definition crash_payload (cause : CrashCause) (s : AgentState) : bytes :=
  z2b (crash_u8 cause) :: default (zeros 16) (parent_agent_id s)
  ++ default (zeros 32) (last_action s).
Definition log_agent_crash (cause : CrashCause) : host () :=
  log_marker Log.AgentCrash (crash_payload cause);;
  set_agent (λ s, s <| lifecycle := Terminated |>).

Definition record_validation_response (verdict : ValidationVerdict) : host () :=
  s ← gets agent;
  if decide (lifecycle s = Terminated) then mret ()
  else
    set_agent (λ s, s <| last_verdict := Some verdict |>);;
    log_marker Log.ValidationResponse (λ _, [z2b (verdict_u8 verdict)]);;
    log_lifecycle_event Active.

Definition action_count (s : AgentState) : Z := u64 (seq s - session_start_seq s).
Definition log_session_boundary : host () :=
  log_marker Log.SessionBoundary (λ s, le_bytes 8 (session_id s) ++ le_bytes 8 (action_count s));;
  set_agent (λ s, s <| session_id ::= λ n, u64 (n + 1) |> <| session_start_seq := seq s |>
                    <| session_started_at_ms := 0%Z |>);;
  log_lifecycle_event Checkpointed.

(** ** Denied accesses *)

Definition denied_payload (s : AgentState) (cap_id : Z) (resource : string) (perm_flags : Z)
    (is_aggregated : bool) (count : Z) : bytes :=
  id s ++ le_bytes 8 cap_id ++
  if is_aggregated then le_bytes 4 count ++ [z2b perm_flags; Byte.x01]
  else
    let res_bytes := list_byte_of_string resource in
    let res_len := length res_bytes `min` 255 in
    z2b (Z.of_nat res_len) :: take res_len res_bytes ++ [z2b perm_flags; Byte.x00].

Definition emit_cap_denied (cap_id : Z) (resource : string) (perm_flags : Z) : host () :=
  s ← gets agent;
  match cap_denied_witness s with
  | Some sink => on_world (λ w, ((), w <| witnesses ::=
                   alter (λ l, l ++ [mkAttempt resource perm_flags]) sink |>))
  | None => mret ()
  end;;
  ms ← clock_ms;
  s ← gets agent;
  let '(should_emit, is_aggregated, count, l) := limiter_step ms resource (cap_denied s) in
  set_agent (λ s, s <| cap_denied := l |>);;
  when should_emit (
    us ← clock_us;
    s ← gets agent;
    record_entry (marker s ms (Log.envelope_new Log.CapabilityDenied (id s) (seq s) us
      (denied_payload s cap_id resource perm_flags is_aggregated count)))).

(** ** Host functions *)

Definition fail_host (e : HostError) : host () := set_agent (λ s, s <| host_error := Some e |>).

(** The agent's state block: its identity and its sequence number, in 64 bytes. *)
Definition state_bytes (agent_id : AgentId) (seq : Z) : bytes := agent_id ++ le_bytes 8 seq ++ zeros 40.

Definition commit_barrier : host () :=
  s ← gets agent;
  if termination_requested s then mret ()
  else
    now_us ← clock_us;
    now_ms ← clock_ms;
    r ← put_block (state_bytes (id s) (seq s));
    match r with
    | Err e => fail_host (PutBlockFailed e)
    | Ok data_h =>
        r ← put_snapshot (Store.mkHeader data_h (last_snapshot s) (seq s) now_us);
        match r with
        | Err e => fail_host (PutSnapshotFailed e)
        | Ok snap_id =>
            let pending := mkPending (default (zeros 32) (last_snapshot s)) snap_id
              (option_list (last_action s) ++ pending_extra_causes s) now_ms (seq s) in
            set_agent (λ s,
              s <| last_snapshot := Some snap_id |> <| seq ::= λ n, u64 (n + 1) |>
                <| session_started_at_ms ::= λ t, if (t =? 0)%Z then now_ms else t |>
                <| pending_extra_causes := [] |> <| pending_commit := Some pending |>)
        end
    end.

Definition MAX_EXTRA_CAUSES : nat := 16.
Definition log_get (action_id : ActionId) (c : Caller) : result log_error (option Log.LogEntry) :=
  Log.get (causal_log (world c)) action_id.
Definition holds_handle (action_id : ActionId) (c : Caller) : bool :=
  may_cite (handle_heap (world c)) (cause_handle_store (agent c)) (id (agent c)) action_id.

Definition agent_add_cause (action_id_ptr : Z) : host Z :=
  s ← gets agent;
  if termination_requested s then mret (-3)%Z
  else if decide (MAX_EXTRA_CAUSES ≤ length (pending_extra_causes s)) then mret (-2)%Z
  else
    size ← gets data_size;
    if negb (in_bounds (u64 action_id_ptr) 32 size) then mret (-1)%Z
    else
      action_id ← gets (mem_read (u64 action_id_ptr) 32);
      r ← gets (log_get action_id);
      match r with
      | Ok (Some entry) =>
          granted ← gets (holds_handle action_id);
          if bool_decide (Log.agent_id entry = id s) || granted then
            set_agent (λ s, s <| pending_extra_causes ::= λ l, l ++ [action_id] |>);;
            mret 0%Z
          else mret (-3)%Z
      | Ok None => mret (-3)%Z
      | Err _ => mret (-4)%Z
      end.

Definition agent_checkpoint : host Z :=
  s ← gets agent;
  if termination_requested s then mret (-1)%Z
  else log_lifecycle_event Checkpointed;; mret (i32 (seq s)).

Definition agent_terminate : host () :=
  set_agent (λ s, s <| termination_requested := true |>);;
  log_lifecycle_event Terminated.

Definition introspect_payload (s : AgentState) : bytes :=
  default (zeros 32) (last_action s) ++ le_bytes 8 (seq s) ++ default (zeros 32) (last_snapshot s)
  ++ [z2b (Z.lor (if last_action s then 0x01 else 0) (if last_snapshot s then 0x02 else 0));
      z2b (lifecycle_u8 (lifecycle s))].
(** The common end of the two functions that copy a buffer to the agent. *)
Definition copy_out (payload : bytes) (out_ptr : Z) : host Z :=
  size ← gets data_size;
  if in_bounds (u64 out_ptr) (Z.of_nat (length payload)) size then
    mem_write (u64 out_ptr) payload;; mret (Z.of_nat (length payload))
  else mret (-2)%Z.
Definition agent_introspect (out_ptr out_max_len : Z) : host Z :=
  if (out_max_len <? INTROSPECT_PAYLOAD_LEN)%Z then mret (-1)%Z
  else s ← gets agent; copy_out (introspect_payload s) out_ptr.

Definition SESSION_INFO_LEN : Z := 24.
Definition session_info_payload (s : AgentState) : bytes :=
  le_bytes 8 (session_id s) ++ le_bytes 8 (action_count s) ++ le_bytes 8 (session_started_at_ms s).
Definition agent_session_info (out_ptr out_max_len : Z) : host Z :=
  if (out_max_len <? SESSION_INFO_LEN)%Z then mret (-1)%Z
  else s ← gets agent; copy_out (session_info_payload s) out_ptr.

(** [store.rollback_path(&tip, target)], which may not return. *)
Definition rollback_path (tip : Hash) (target_seq : Z) : host (result store_error (list Hash)) := λ c,
  (λ r, (r, c)) <$> Store.rollback_path (content_store (world c)) tip target_seq.

Definition rollback_payload (distance target_seq : Z) : bytes := z2b distance :: le_bytes 8 target_seq.

(** The end of a rollback: the snapshot moves if the event was appended. *)
Definition append_rollback (entry : Log.LogEntry) (target_snap : Hash) : host () :=
  r ← append entry;
  match r with
  | Ok a => set_agent (λ s, s <| last_snapshot := Some target_snap |> <| last_action := Some a |>)
  | Err _ => mret ()
  end.

Definition agent_self_rollback (depth : Z) : host Z :=
  s ← gets agent;
  if termination_requested s then mret (-1)%Z
  else if decide (depth < 1 ∨ depth > MAX_SELF_ROLLBACK_DEPTH)%Z then mret (-1)%Z
  else
    match last_snapshot s with
    | None => mret (-2)%Z
    | Some tip =>
        if (seq s <? 1 + depth)%Z then mret (-3)%Z
        else
          let target_seq := (seq s - 1 - depth)%Z in
          r ← rollback_path tip target_seq;
          match r with
          | Err _ => mret (-4)%Z
          | Ok path =>
              let target_snap := default [] (last path) in
              ms ← clock_ms;
              us ← clock_us;
              let env := Log.envelope_new Log.SelfRollback (id s) (seq s) us
                           (rollback_payload depth target_seq) in
              let entry := Log.mkEntry (id s) ms (option_list (last_action s)) tip target_snap
                             (Some (Log.to_msgpack env)) in
              append_rollback entry target_snap;;
              mret (i32 target_seq)
          end
    end.

Definition agent_request_validation (risk_level : Z) : host Z :=
  s ← gets agent;
  if termination_requested s then mret (-1)%Z
  else if decide (risk_level < 0 ∨ risk_level > 2)%Z then mret (-1)%Z
  else
    ms ← clock_ms;
    us ← clock_us;
    r ← append (marker s ms (Log.envelope_new Log.ValidationRequest (id s) (seq s) us [z2b risk_level]));
    match r with
    | Ok a => set_agent (λ s, s <| last_action := Some a |> <| lifecycle := AwaitingValidation |>)
    | Err _ => mret ()
    end;;
    mret 0%Z.

Definition agent_get_verdict : host Z :=
  s ← gets agent; mret (from_option verdict_u8 (-1)%Z (last_verdict s)).

(** [lock_or_recover(&cap_store).check(...)] *)
Definition cap_check (cap_id : Z) (resource : string) (p : Caps.Permissions) (c : Caller) : bool :=
  from_option (λ st, Caps.check st (id (agent c)) (u64 cap_id) resource p) false
    (cap_stores (world c) !! cap_store (agent c)).

Definition agent_check_cap (cap_id resource_ptr resource_len perm_flags : Z) : host Z :=
  size ← gets data_size;
  if negb (in_bounds (u64 resource_ptr) (u64 resource_len) size) then mret (-1)%Z
  else
    b ← gets (mem_read (u64 resource_ptr) (u64 resource_len));
    match from_utf8 b with
    | None => mret (-1)%Z
    | Some resource =>
        ok ← gets (cap_check cap_id resource (permissions_of_flags perm_flags));
        mret (if ok : bool then 1 else 0)%Z
    end.

Definition perm_read : Caps.Permissions := Caps.mkPermissions true false false false.
Definition perm_write : Caps.Permissions := Caps.mkPermissions false true false false.

Definition kv_get (resource : string) (c : Caller) : option bytes :=
  m ← kv_stores (world c) !! kv_store (agent c); m !! resource.

Definition agent_store_get (resource_ptr resource_len cap_id out_ptr : Z) : host Z :=
  size ← gets data_size;
  if negb (in_bounds (u64 resource_ptr) (u64 resource_len) size) then mret (-2)%Z
  else
    b ← gets (mem_read (u64 resource_ptr) (u64 resource_len));
    match from_utf8 b with
    | None => mret (-2)%Z
    | Some resource =>
        allowed ← gets (cap_check cap_id resource perm_read);
        if negb allowed then emit_cap_denied (u64 cap_id) resource 0x01;; mret (-1)%Z
        else
          v ← gets (kv_get resource);
          match v with
          | Some value =>
              if in_bounds (u64 out_ptr) (Z.of_nat (length value)) size then
                mem_write (u64 out_ptr) value;; mret 0%Z
              else mret (-2)%Z
          | None => mret 0%Z
          end
    end.

Definition kv_insert (resource : string) (value : bytes) : host () := λ c,
  on_world (λ w, ((), w <| kv_stores ::= alter (insert resource value) (kv_store (agent c)) |>)) c.

Definition agent_store_put (resource_ptr resource_len cap_id val_ptr val_len : Z) : host Z :=
  size ← gets data_size;
  if negb (in_bounds (u64 resource_ptr) (u64 resource_len) size) then mret (-2)%Z
  else
    b ← gets (mem_read (u64 resource_ptr) (u64 resource_len));
    match from_utf8 b with
    | None => mret (-2)%Z
    | Some resource =>
        if negb (in_bounds (u64 val_ptr) (u64 val_len) size) then mret (-2)%Z
        else
          value ← gets (mem_read (u64 val_ptr) (u64 val_len));
          allowed ← gets (cap_check cap_id resource perm_write);
          if negb allowed then emit_cap_denied (u64 cap_id) resource 0x02;; mret (-1)%Z
          else kv_insert resource value;; mret 0%Z
    end.

Definition emit (emit_type ptr len : Z) : host () :=
  s ← gets agent;
  if termination_requested s then mret ()
  else match host_error s with
  | Some _ => mret ()
  | None =>
      match pending_commit s with
      | None => fail_host PendingCommitAbsent
      | Some pending =>
          set_agent (λ s, s <| pending_commit := None |>);;
          now_us ← clock_us;
          size ← gets data_size;
          if negb (in_bounds (u64 ptr) (u64 len) size) then
            fail_host (EmitOutOfBounds (u64 ptr) (u64 len) size)
          else
            payload ← gets (mem_read (u64 ptr) (u64 len));
            let emit_t := default Log.ActionResult (result_ok (Log.try_from (u8 emit_type))) in
            let env := Log.envelope_new emit_t (id s) (pc_seq pending) now_us payload in
            let entry := Log.mkEntry (id s) (pc_ts_ms pending) (pc_parent_ids pending)
                           (pc_hash_before pending) (pc_hash_after pending)
                           (Some (Log.to_msgpack env)) in
            r ← append entry;
            match r with
            | Ok a => set_agent (λ s, s <| last_action := Some a |>)
            | Err e => fail_host (AppendFailed e)
            end
      end
  end.

(** ** Inference *)

(** [InferFn]: the answer of the pool and the elapsed time in milliseconds.
    The world may change while the agent waits for it. *)
Abbreviation InferFn :=
  (AgentId → bytes → Z → SM World (result Queue.InferError Queue.InferResponse * Z)).
Definition await {A} (m : SM World A) : host A := λ c,
  (λ '(a, w), (a, c <| world := w |>)) <$> m (world c).

Definition class_u8 (c : Queue.PriorityClass) : Z :=
  match c with Queue.Supervisor => 1 | Queue.Foreground => 2 | Queue.Batch => 3 end.
Definition slot_bytes (si : Queue.SlotAcquiredInfo) : bytes :=
  z2b (class_u8 (Queue.priority_class si)) :: le_bytes 2 (Queue.queue_depth_at_admission si)
  ++ [z2b (from_option class_u8 0xFF%Z (Queue.promoted_from si))].
(** Payload of [InferenceRequest] (0x0C). *)
Definition request_payload (prompt : bytes) (timeout_req timeout_eff : Z)
    (info : option Queue.SlotAcquiredInfo) : bytes :=
  let model_id := list_byte_of_string "sleepy" in
  sha256 prompt ++ z2b (Z.of_nat (length model_id)) :: model_id
  ++ le_bytes 4 timeout_req ++ le_bytes 4 timeout_eff ++ from_option slot_bytes [] info.
(** Payload of [InferenceResponse] (0x0D). *)
Definition response_payload (text : bytes) (duration_ms : Z) (truncated : bool) : bytes :=
  sha256 text ++ le_bytes 4 0 ++ le_bytes 4 duration_ms ++ [if truncated then Byte.x01 else Byte.x00].
(** Payload of [InferenceCancelled] (0x0E). *)
Definition cancelled_payload (now_resp : Z) : bytes := le_bytes 8 now_resp ++ [Byte.x01].
(** The code and message of [InferenceFailed] (0x0F). *)
Definition failure_of (e : Queue.InferError) : Z * string :=
  match e with
  | Queue.Timeout => (0x01%Z, "timeout"%string)
  | Queue.BackendError code message => (code, message)
  | Queue.NoSlot => (0x20%Z, "no slot"%string)
  | Queue.Cancelled => (0%Z, ""%string)
  end.
Definition failed_payload (e : Queue.InferError) : bytes :=
  let mb := list_byte_of_string (failure_of e).2 in
  let ml := length mb `min` 255 in
  z2b (failure_of e).1 :: z2b (Z.of_nat ml) :: take ml mb.
Definition failure_code (e : Queue.InferError) : Z :=
  match e with Queue.Timeout => 1 | Queue.NoSlot => 3 | _ => 2 end.

(** One event of an inference, for the state [s] read before it. *)
Definition infer_entry (s : AgentState) (agent_id : AgentId) (sq ms : Z) (t : Log.EmitType)
    (payload : bytes) : Log.LogEntry :=
  let hash := default (zeros 32) (last_snapshot s) in
  Log.mkEntry agent_id ms (option_list (last_action s)) hash hash
    (Some (Log.to_msgpack (Log.envelope_new t agent_id sq (u64 (ms * 1000)) payload))).

(** Phase 3: the answer is written to the agent's memory and logged. *)
Definition infer_finish (s s2 : AgentState) (now_resp duration_ms : Z)
    (response_buf_ptr response_buf_cap response_len_out_ptr : Z)
    (r : result Queue.InferError Queue.InferResponse) : host Z :=
  let respond t payload := record_entry (infer_entry s2 (id s) (seq s) now_resp t payload) in
  match r with
  | Ok resp =>
      let b := list_byte_of_string (Queue.text resp) in
      let cap := u64 response_buf_cap in
      let truncated := (cap <? Z.of_nat (length b))%Z in
      let len_w := length b `min` Z.to_nat cap in
      mem_write (u64 response_buf_ptr) (take len_w b);;
      mem_write (u64 response_len_out_ptr) (le_bytes 4 (u32 (Z.of_nat len_w)));;
      respond Log.InferenceResponse (response_payload b duration_ms truncated);;
      mret 0%Z
  | Err Queue.Cancelled =>
      mem_write (u64 response_len_out_ptr) (le_bytes 4 0);;
      respond Log.InferenceCancelled (cancelled_payload now_resp);;
      mret 4%Z
  | Err e =>
      mem_write (u64 response_len_out_ptr) (le_bytes 4 0);;
      respond Log.InferenceFailed (failed_payload e);;
      mret (failure_code e)
  end.

Definition slot_info_of (r : result Queue.InferError Queue.InferResponse)
    : option Queue.SlotAcquiredInfo := resp ← result_ok r; Queue.slot_info resp.

Definition agent_infer (infer_fn : InferFn) (prompt_ptr prompt_len response_buf_ptr response_buf_cap
    response_len_out_ptr timeout_ms_req : Z) : host Z :=
  size ← gets data_size;
  if negb (in_bounds (u64 prompt_ptr) (u64 prompt_len) size) then
    when (in_bounds (u64 response_len_out_ptr) 4 size)
      (mem_write (u64 response_len_out_ptr) (le_bytes 4 0));;
    mret 2%Z
  else if negb (in_bounds (u64 response_len_out_ptr) 4 size
                && in_bounds (u64 response_buf_ptr) (u64 response_buf_cap) size) then mret 2%Z
  else
    prompt ← gets (mem_read (u64 prompt_ptr) (u64 prompt_len));
    s ← gets agent;
    let timeout_req := u32 timeout_ms_req in
    let timeout_eff := Z.min timeout_req HOST_MAX_INFERENCE_DURATION_MS in
    ts_0c ← clock_ms;
    log_lifecycle_event WaitingInference;;
    a ← await (infer_fn (id s) prompt timeout_eff);
    let '(r, duration_ms) := a in
    now_resp ← clock_ms;
    s2 ← gets agent;
    record_entry (infer_entry s (id s) (seq s) ts_0c Log.InferenceRequest
      (request_payload prompt timeout_req timeout_eff (slot_info_of r)));;
    ret_code ← infer_finish s s2 now_resp duration_ms response_buf_ptr response_buf_cap
                 response_len_out_ptr r;
    log_lifecycle_event Active;;
    mret ret_code.

(** ** The functions a module can import *)

Inductive host_call :=
| CommitBarrier
| AddCause (action_id_ptr : Z)
| Checkpoint
| Terminate
| Introspect (out_ptr out_max_len : Z)
| SelfRollback (depth : Z)
| SessionInfo (out_ptr out_max_len : Z)
| RequestValidation (risk_level : Z)
| GetVerdict
| CheckCap (cap_id resource_ptr resource_len perm_flags : Z)
| StoreGet (resource_ptr resource_len cap_id out_ptr : Z)
| StorePut (resource_ptr resource_len cap_id val_ptr val_len : Z)
| Emit (emit_type ptr len : Z)
| Infer (prompt_ptr prompt_len response_buf_ptr response_buf_cap response_len_out_ptr timeout_ms : Z).

(** A function without result answers 0. *)
Definition no_result (m : host ()) : host Z := m;; mret 0%Z.
Definition host_fn (infer_fn : InferFn) (f : host_call) : host Z :=
  match f with
  | CommitBarrier => no_result commit_barrier
  | AddCause p => agent_add_cause p
  | Checkpoint => agent_checkpoint
  | Terminate => no_result agent_terminate
  | Introspect p n => agent_introspect p n
  | SelfRollback d => agent_self_rollback d
  | SessionInfo p n => agent_session_info p n
  | RequestValidation r => agent_request_validation r
  | GetVerdict => agent_get_verdict
  | CheckCap c p l fl => agent_check_cap c p l fl
  | StoreGet p l c o => agent_store_get p l c o
  | StorePut p l c vp vl => agent_store_put p l c vp vl
  | Emit t p l => no_result (emit t p l)
  | Infer p l bp bc lo t => agent_infer infer_fn p l bp bc lo t
  end.

End ops.

(** ** A concrete agent *)

(** A stand-in for the MessagePack codec of envelopes. *)
#[global] Instance mem_envelope : Msgpack Log.EmitEnvelope := {|
  mp_err := ();
  mp_ser e := z2b (Log.env_version e) :: z2b (Log.env_emit_type e) :: Log.env_agent_id e
    ++ le_bytes 8 (Log.env_seq e) ++ le_bytes 8 (Log.env_ts_us e) ++ Log.env_payload e;
  mp_de b := match b with
    | v :: t :: b =>
        if decide (length b < 32) then Err ()
        else Ok (Log.mkEnvelope (b2z v) (b2z t) (take 16 b) (of_le (take 8 (drop 16 b))) (of_le (take 8 (drop 24 b))) (drop 32 b))
    | _ => Err ()
    end |}.
#[global] Instance mem_envelope_size : MsgpackSize Log.EmitEnvelope Log.envelope_ok.
Proof.
  intros e (_ & _ & Ha & _ & _ & Hp). cbn [mp_ser mem_envelope].
  rewrite !length_cons, !length_app, !length_le_bytes, Ha. lia.
Qed.

Definition demo_agent_id : AgentId := replicate 16 Byte.x41.
Definition demo_world : World :=
  mkWorld Mem.empty_db Mem.empty_db {[0 := Caps.new]} (get_or_create (registry_new (mkHeap ∅ ∅)).2 0 0).2
    {[0 := ∅]} ∅ (mkClocks (λ _, 0%Z) 0 {[0 := 1000%Z]}).
Definition demo_agent : AgentState :=
  mkAgent demo_agent_id 0 0 0 0 None None Spawned false None None [] 1 0 0
    SESSION_DEFAULT_MAX_ACTIONS SESSION_DEFAULT_MAX_DURATION_MS 0 []
    SESSION_DEFAULT_VALIDATION_TIMEOUT_MS LlmShort None None (LogicalClock 0) 0 limiter_default None.
Definition demo_caller : Caller := mkCaller demo_world demo_agent (zeros 64).
(** A pool without free slot. *)
Definition demo_infer (_ : AgentId) (_ : bytes) (_ : Z)
    : SM World (result Queue.InferError Queue.InferResponse * Z) := mret (Err Queue.NoSlot, 0%Z).

End Actor.
