(* ===== verification/ActorSafety.v ===== *)
(** ActorSafety: what every host function keeps, whatever the module does.

    The invariant ties the agent's state to the two databases: the log holds a
    causally ordered list of well-formed entries whose state hashes are stored
    snapshots, every stored header has its block and its parent, and the
    agent's own links (last snapshot, last action, pending commit, pending
    causes) point to stored data.  Each host function keeps it and only adds to
    both databases.  The proofs go through a small logic of triples whose
    assertions are stable: they survive the growth of the databases, so a value
    read early stays good while the function runs. *)
From Stdlib Require Import String.
From S2P Require Import Prelude Storage Capabilities ContentStore CausalLog InferQueue Clock CauseHandles Actor.

Module Safety.
Import Clocks Watchdog Handles Actor.

Section inv.
Context `{R : RocksDB, !RocksLaws R, H256 : Sha256, !Sha256Laws H256,
          BH : Bincode Store.SnapshotHeader, !BincodeLaws Store.SnapshotHeader Store.header_ok,
          BE : Bincode Log.LogEntry, !BincodeLaws Log.LogEntry Log.entry_ok,
          MP : Msgpack Log.EmitEnvelope, !MsgpackSize Log.EmitEnvelope Log.envelope_ok}.

Abbreviation host := (SM Caller).

(** ** The invariant *)

Definition stored (w : World) (h : Hash) : Prop := is_Some (db_cf (content_store w) "headers" !! h).
Definition block_stored (w : World) (h : Hash) : Prop := is_Some (db_cf (content_store w) "blocks" !! h).
Definition logged (w : World) (a : ActionId) : Prop := is_Some (db_cf (causal_log w) "default" !! a).
(** A state hash of a log entry: a stored snapshot, or "no snapshot yet". *)
Definition known_hash (w : World) (h : Hash) : Prop := length h = 32 ∧ (h = zeros 32 ∨ stored w h).

(** Parents come before their children in the list of appended entries. *)
Definition causal (hist : list Log.LogEntry) : Prop :=
  ∀ h1 e h2, hist = h1 ++ e :: h2 → ∀ p, p ∈ Log.parent_ids e → p ∈ Log.action_id <$> h1.

Record world_inv (w : World) (hist : list Log.LogEntry) : Prop := {
  wi_log : Log.represents (causal_log w) hist;
  wi_store : Store.addressed (content_store w);
  wi_header : ∀ sid h, Store.header_at (content_store w) sid h →
    block_stored w (Store.data_hash h) ∧ ∀ p, Store.parent h = Some p → stored w p;
  wi_hashes : Forall (λ e, known_hash w (Log.hash_before e) ∧ known_hash w (Log.hash_after e)) hist;
  wi_causal : causal hist;
  wi_clocks : clocks_ok (clocks w) }.

(** Databases only grow. *)
Definition w_le (w w' : World) : Prop :=
  grows (content_store w) (content_store w') ∧ grows (causal_log w) (causal_log w').
#[export] Instance w_le_preorder : PreOrder w_le.
Proof.
  split; [done|]. intros w1 w2 w3 [H1 H2] [H3 H4]. split; by etrans.
Qed.

Record pending_ok (w : World) (p : PendingCommit) : Prop := {
  pk_before : known_hash w (pc_hash_before p);
  pk_after : length (pc_hash_after p) = 32 ∧ stored w (pc_hash_after p);
  pk_parents : Forall (logged w) (pc_parent_ids p);
  pk_few : (Z.of_nat (length (pc_parent_ids p)) < 2 ^ 64)%Z;
  pk_ts : is_u64 (pc_ts_ms p);
  pk_seq : is_u64 (pc_seq p) }.

Record state_ok (w : World) (s : AgentState) : Prop := {
  so_id : length (id s) = 16;
  so_seq : is_u64 (seq s);
  so_snapshot : ∀ h, last_snapshot s = Some h → length h = 32 ∧ stored w h;
  so_action : ∀ a, last_action s = Some a → logged w a;
  so_causes : Forall (logged w) (pending_extra_causes s);
  so_few : (Z.of_nat (length (pending_extra_causes s)) < 2 ^ 63)%Z;
  so_pending : ∀ p, pending_commit s = Some p → pending_ok w p;
  so_parent : ∀ a, parent_agent_id s = Some a → length a = 16 }.

Lemma stored_mono w w' h : w_le w w' → stored w h → stored w' h.
Proof. intros [Hs _]. apply Hs. Qed.
Lemma block_stored_mono w w' h : w_le w w' → block_stored w h → block_stored w' h.
Proof. intros [Hs _]. apply Hs. Qed.
Lemma logged_mono w w' a : w_le w w' → logged w a → logged w' a.
Proof. intros [_ Hl]. apply Hl. Qed.
Lemma known_hash_mono w w' h : w_le w w' → known_hash w h → known_hash w' h.
Proof. intros Hw [? [?|?]]; split; eauto using stored_mono. Qed.
Lemma pending_ok_mono w w' p : w_le w w' → pending_ok w p → pending_ok w' p.
Proof.
  intros Hw [? [? Ha] ? ? ? ?].
  split; eauto using known_hash_mono, stored_mono, Forall_impl, logged_mono.
Qed.
Lemma state_ok_mono w w' s : w_le w w' → state_ok w s → state_ok w' s.
Proof.
  intros Hw [? ? Hs ? Hc ? ? ?]. split; eauto using pending_ok_mono, logged_mono, Forall_impl.
  intros h Hh. destruct (Hs h Hh). eauto using stored_mono.
Qed.

(** The history so far is [hist0]; whoever runs from here is one of [authors]. *)
Context (hist0 : list Log.LogEntry) (authors : AgentId → Prop).

Definition winv (w : World) : Prop :=
  ∃ new, world_inv w (hist0 ++ new) ∧ Forall (λ e, authors (Log.agent_id e)) new.

Record Inv (c : Caller) : Prop := {
  inv_world : winv (world c);
  inv_state : state_ok (world c) (agent c);
  inv_author : authors (id (agent c));
  inv_memory : (data_size c ≤ 2 ^ 32)%Z }.

Record c_le (c c' : Caller) : Prop := {
  le_world : w_le (world c) (world c');
  le_id : id (agent c') = id (agent c);
  le_size : data_size c' = data_size c }.
#[export] Instance c_le_preorder : PreOrder c_le.
Proof.
  split; [done|]. intros c1 c2 c3 [H1 E1 M1] [H2 E2 M2]. split; [by etrans|congruence..].
Qed.

(** ** Triples *)

Class Stable (P : Caller → Prop) := stable c c' : c_le c c' → P c → P c'.
#[export] Instance stable_pure φ : Stable (λ _, φ).
Proof. by intros c c'. Qed.
#[export] Instance stable_and P Q : Stable P → Stable Q → Stable (λ c, P c ∧ Q c).
Proof. intros HP HQ c c' Hc [? ?]. split; [by eapply HP|by eapply HQ]. Qed.
#[export] Instance stable_state s : Stable (λ c, state_ok (world c) s).
Proof. intros c c' [Hc _ _]. by apply state_ok_mono. Qed.
#[export] Instance stable_id x : Stable (λ c, x = id (agent c)).
Proof. intros c c' [_ E _] ->. by rewrite E. Qed.
#[export] Instance stable_size x : Stable (λ c, x = data_size c).
Proof. intros c c' [_ _ E] ->. by rewrite E. Qed.
#[export] Instance stable_pending p : Stable (λ c, pending_ok (world c) p).
Proof. intros c c' [Hc _ _]. by apply pending_ok_mono. Qed.
#[export] Instance stable_logged a : Stable (λ c, logged (world c) a).
Proof. intros c c' [Hc _ _]. by apply logged_mono. Qed.
#[export] Instance stable_stored a : Stable (λ c, stored (world c) a).
Proof. intros c c' [Hc _ _]. by apply stored_mono. Qed.
#[export] Instance stable_block a : Stable (λ c, block_stored (world c) a).
Proof. intros c c' [Hc _ _]. by apply block_stored_mono. Qed.
#[export] Instance stable_forall {A} (P : A → Caller → Prop) : (∀ a, Stable (P a)) → Stable (λ c, ∀ a, P a c).
Proof. intros HP c c' Hc H a. by eapply HP. Qed.
#[export] Instance stable_impl φ P : Stable P → Stable (λ c, φ → P c).
Proof. intros HP c c' Hc H Hφ. eapply HP; eauto. Qed.

Definition triple {A} (P : Caller → Prop) (m : host A) (Q : A → Caller → Prop) : Prop :=
  ∀ c, Inv c → P c → wp m (λ a c', (Inv c' ∧ c_le c c') ∧ Q a c') c.
Abbreviation keeps P m := (triple P m (λ _ _, True)).

Lemma t_bind {A B} P (m : host A) Q (f : A → host B) Q' :
  Stable P → triple P m Q → (∀ a, triple (λ c, P c ∧ Q a c) (f a) Q') → triple P (m ≫= f) Q'.
Proof.
  intros Hst Hm Hf c Hc HP. apply wp_bind. eapply wp_mono; [by apply Hm|].
  intros a c1 [[Hc1 Hle] HQ]. cbn. eapply wp_mono; [apply (Hf a c1); eauto|].
  intros b c2 [[Hc2 Hle2] HQ2]. split; [|done]. split; [done|by etrans].
Qed.
Lemma t_conseq {A} P P' (m : host A) Q Q' :
  triple P' m Q' → (∀ c, P c → P' c) → (∀ a c, Q' a c → Q a c) → triple P m Q.
Proof. intros Hm HP HQ c Hc Hp. eapply wp_mono; [by apply Hm, HP|]. naive_solver. Qed.
Lemma t_weaken {A} P (m : host A) Q : triple P m Q → keeps P m.
Proof. intros Hm. by eapply t_conseq. Qed.
(** A precondition that is not about the state. *)
Lemma t_pure {A} φ P (m : host A) Q :
  (φ → triple P m Q) → triple (λ c, P c ∧ φ) m Q.
Proof. intros Hm c Hc [HP Hφ]. by apply (Hm Hφ). Qed.
Lemma t_ret {A} P (a : A) : keeps P (mret a).
Proof. intros c Hc _. by apply wp_ret. Qed.
Lemma t_gets {A} P (f : Caller → A) (Q : A → Caller → Prop) :
  (∀ c, Inv c → P c → Q (f c) c) → triple P (gets f) Q.
Proof. intros HQ c Hc HP. apply wp_gets. split; [done|]. by apply HQ. Qed.
Lemma t_read {A} P (f : Caller → A) : keeps P (gets f).
Proof. by apply t_gets. Qed.
Lemma t_agent P : triple P (gets agent) (λ s c, state_ok (world c) s ∧ id s = id (agent c)).
Proof. apply t_gets. intros c Hc _. split; [apply Hc|done]. Qed.
(** A read of the state in which the rest runs. *)
Lemma t_gets_now {A B} P (f : Caller → A) (k : A → host B) Q :
  (∀ c, Inv c → P c → triple (λ c', c' = c) (k (f c)) Q) → triple P (gets f ≫= k) Q.
Proof. intros Hk c Hc HP. apply wp_bind, wp_gets. by apply Hk. Qed.
Lemma t_when P b (m : host ()) : keeps P m → keeps P (when b m).
Proof. destruct b; cbn; [done|]. intros _. apply t_ret. Qed.

(** ** Accesses to the world *)

Lemma t_world {A} P (f : World → A * World) (Q : A → Caller → Prop) :
  (∀ c a w', Inv c → P c → f (world c) = (a, w') →
    winv w' ∧ w_le (world c) w' ∧ Q a (c <| world := w' |>)) →
  triple P (on_world f) Q.
Proof.
  intros Hf c Hc HP a c' E. unfold on_world in E. destruct (f (world c)) as [a1 w1] eqn:Ef.
  injection E as <- <-. destruct (Hf c a1 w1 Hc HP Ef) as (Hw & Hle & HQ).
  split; [|done]. split; [|by split].
  destruct Hc as [_ Hs ? ?]. split; [done|by eapply state_ok_mono|done|done].
Qed.
(** A world that differs in its other heaps. *)
Lemma winv_same w w' :
  content_store w' = content_store w → causal_log w' = causal_log w → clocks_ok (clocks w') →
  winv w → winv w' ∧ w_le w w'.
Proof.
  intros Es El Hk (new & [? ? ? ? ? ?] & Hn). split; [|by unfold w_le; rewrite Es, El].
  exists new. split; [|done].
  unfold known_hash, stored, block_stored in *. split; unfold known_hash, stored, block_stored; rewrite ?Es, ?El; done.
Qed.
Lemma t_clock P (f : Clock → ClockState → Z * ClockState) :
  (∀ k c t c', clocks_ok c → f k c = (t, c') → is_u64 t ∧ clocks_ok c') →
  triple P (λ c, on_world (λ w, let '(t, k) := f (clock (agent c)) (clocks w) in (t, w <| clocks := k |>)) c)
    (λ t _, is_u64 t).
Proof.
  intros Hf c Hc HP. apply (t_world (λ c', P c' ∧ clock (agent c') = clock (agent c))); [|done|done].
  intros c1 t w' Hc1 [_ Ek]. destruct (f _ _) as [t1 k1] eqn:Ef. intros [= <- <-].
  destruct (inv_world _ Hc1) as (new & Hw & ?). destruct (Hf _ _ _ _ (wi_clocks _ _ Hw) Ef) as [Ht Hk].
  assert (winv (world c1)) as Hw1 by by exists new.
  rewrite (assoc (∧)). split; [by apply winv_same|done].
Qed.
Lemma t_clock_ms P : triple P clock_ms (λ t _, is_u64 t).
Proof. apply t_clock, now_ms_ok. Qed.
Lemma t_clock_us P : triple P clock_us (λ t _, is_u64 t).
Proof. apply t_clock, now_us_ok. Qed.

(** ** The agent's own state *)

Lemma t_set_agent P f :
  (∀ c, Inv c → P c → state_ok (world c) (f (agent c)) ∧ id (f (agent c)) = id (agent c)) →
  keeps P (set_agent f).
Proof.
  intros Hf c Hc HP. apply wp_modify. destruct (Hf c Hc HP) as [Hs E].
  split; [|done]. split; [|by split]. destruct Hc as [? _ ? ?]. split; [done..| |done].
  cbn. by rewrite E.
Qed.
(** An update of a field the invariant does not mention. *)
Definition same_links (s s' : AgentState) : Prop :=
  id s' = id s ∧ seq s' = seq s ∧ last_snapshot s' = last_snapshot s ∧ last_action s' = last_action s
  ∧ pending_extra_causes s' = pending_extra_causes s ∧ pending_commit s' = pending_commit s
  ∧ parent_agent_id s' = parent_agent_id s.
Lemma state_ok_same w s s' : same_links s s' → state_ok w s → state_ok w s'.
Proof.
  intros (E1 & E2 & E3 & E4 & E5 & E6 & E7) [? ? ? ? ? ? ? ?].
  split; rewrite ?E1, ?E2, ?E3, ?E4, ?E5, ?E6, ?E7; done.
Qed.
Lemma t_set_other P f : (∀ s, same_links s (f s)) → keeps P (set_agent f).
Proof.
  intros Hf. apply t_set_agent. intros c Hc _. split; [|apply Hf].
  eapply state_ok_same; [apply Hf|apply Hc].
Qed.
Lemma t_memory P f :
  (∀ c, P c → length (f (memory c)) = length (memory c)) →
  keeps P (modify (λ c, c <| memory ::= f |>)).
Proof.
  intros Hf c Hc HP. apply wp_modify. split; [|done]. specialize (Hf c HP).
  split; [|by split; [|done|unfold data_size; cbn; rewrite Hf]].
  destruct Hc as [? ? ? ?]. split; [done..|]. unfold data_size. cbn. by rewrite Hf.
Qed.

(** ** Appending to the log *)

(** An entry the agent may append. *)
Record entry_good (w : World) (e : Log.LogEntry) : Prop := {
  eg_agent : length (Log.agent_id e) = 16;
  eg_author : authors (Log.agent_id e);
  eg_ts : is_u64 (Log.ts_ms e);
  eg_parents : Forall (logged w) (Log.parent_ids e);
  eg_few : (Z.of_nat (length (Log.parent_ids e)) < 2 ^ 64)%Z;
  eg_before : known_hash w (Log.hash_before e);
  eg_after : known_hash w (Log.hash_after e);
  eg_payload : ∀ p, Log.emit_payload e = Some p → (Z.of_nat (length p) < 2 ^ 64)%Z }.

Lemma logged_action w hist a : Log.represents (causal_log w) hist → logged w a → a ∈ Log.action_id <$> hist.
Proof.
  intros Hr [b Hb]. destruct (Log.rep_default _ _ Hr _ _ Hb) as (e & He & -> & _).
  by apply list_elem_of_fmap_2.
Qed.
Lemma action_logged w hist e : Log.represents (causal_log w) hist → e ∈ hist → logged w (Log.action_id e).
Proof. intros Hr He. by apply (Log.rep_has _ _ Hr). Qed.
Lemma logged_len w hist a : Log.represents (causal_log w) hist → logged w a → length a = 32.
Proof.
  intros Hr Ha. destruct (proj1 (list_elem_of_fmap _ _ _) (logged_action _ _ _ Hr Ha)) as (e & -> & _).
  apply sha256_len.
Qed.
Lemma entry_good_ok w hist e : Log.represents (causal_log w) hist → entry_good w e → Log.entry_ok e.
Proof.
  intros Hr [? _ ? Hp ? [? _] [? _] ?]. unfold Log.entry_ok. split_and!; auto.
  eapply Forall_impl; [exact Hp|]. intros a. by apply (logged_len _ _ _ Hr).
Qed.
Lemma causal_snoc hist e :
  causal hist → (∀ p, p ∈ Log.parent_ids e → p ∈ Log.action_id <$> hist) → causal (hist ++ [e]).
Proof.
  intros Hc He h1 e' h2 E. destruct h2 as [|x h2 _] using rev_ind.
  - apply app_inj_tail in E as [-> ->]. done.
  - rewrite app_comm_cons, (assoc_L (++)) in E. apply app_inj_tail in E as [-> ->]. by eapply Hc.
Qed.

Lemma world_inv_append w hist e r d' :
  world_inv w hist → entry_good w e → Log.append (causal_log w) e = (r, d') →
  let w' := w <| causal_log := d' |> in
  w_le w w' ∧ (world_inv w' (hist ++ [e]) ∨ (is_ok r = false ∧ world_inv w' hist))
  ∧ ∀ a, r = Ok a → logged w' a.
Proof.
  intros Hw He Ha w'. pose proof (wi_log _ _ Hw) as Hr.
  assert (grows (causal_log w) d') as Hg.
  { unfold Log.append, Log.append_with in Ha. destruct (db_write _ _ _) as [[[]|] d1] eqn:Ed;
      injection Ha as <- <-; by eapply write_grows. }
  assert (w_le w w') as Hle by by split.
  assert (∀ hist', Log.represents d' hist' → (hist' = hist ∨ hist' = hist ++ [e]) → world_inv w' hist') as Hinv.
  { destruct Hw as [_ ? ? Hh Hc ?]. intros hist' Hr' Hhist. split; [done..| | |done].
    - assert (Forall (λ e, known_hash w' (Log.hash_before e) ∧ known_hash w' (Log.hash_after e)) hist).
      { eapply Forall_impl; [exact Hh|]. cbn. intros x [? ?]. by split; eapply known_hash_mono. }
      destruct Hhist as [->| ->]; [done|]. apply Forall_app. split; [done|]. apply Forall_singleton.
      destruct He. by split; eapply known_hash_mono.
    - destruct Hhist as [->| ->]; [done|]. apply causal_snoc; [done|]. intros p Hp.
      eapply logged_action; [exact Hr|]. by eapply Forall_forall in Hp; [|apply He]. }
  split; [done|].
  destruct (Log.append_refines _ _ _ _ _ _ Hr (entry_good_ok _ _ _ Hr He) Ha) as [[-> Hr']|[Hok [Hr'|Hr']]].
  - split; [left; auto|]. intros a [= <-]. eapply (action_logged w'); [exact Hr'|]. set_solver.
  - split; [auto|]. intros a ->. done.
  - split; [auto|]. intros a ->. done.
Qed.

Lemma t_append P e :
  (∀ c, Inv c → P c → entry_good (world c) e) →
  triple P (append e) (λ r c, ∀ a, r = Ok a → logged (world c) a).
Proof.
  intros He. apply t_world. intros c r w' Hc HP. specialize (He c Hc HP).
  destruct (Log.append _ _) as [r1 d1] eqn:Ea. intros [= <- <-].
  destruct (inv_world _ Hc) as (new & Hw & Hn).
  destruct (world_inv_append _ _ _ _ _ Hw He Ea) as (Hle & Hor & Hlog). split_and!; [|done|done].
  destruct Hor as [Hw'|[_ Hw']]; [|by exists new].
  exists (new ++ [e]). rewrite (assoc_L (++)). split; [done|].
  apply Forall_app. split; [done|]. apply Forall_singleton. apply He.
Qed.

Lemma t_last_action P a :
  (∀ c, P c → logged (world c) a) → keeps P (set_agent (λ s, s <| last_action := Some a |>)).
Proof.
  intros Ha. apply t_set_agent. intros c [_ [] _ _] HP. split; [|done]. split; try done.
  intros a' [= <-]. auto.
Qed.
Lemma t_record_entry P e :
  Stable P → (∀ c, Inv c → P c → entry_good (world c) e) → keeps P (record_entry e).
Proof.
  intros Hst He. eapply t_bind; [done|by apply t_append|]. intros [a|x]; [|apply t_ret].
  apply t_last_action. intros c [_ Ha]. by apply Ha.
Qed.

(** ** Entries built from the state *)

Lemma logged_option w s : state_ok w s → Forall (logged w) (option_list (last_action s)).
Proof. intros Hs. destruct (last_action s) eqn:E; cbn; [|done]. apply Forall_singleton. by apply Hs. Qed.
Lemma known_snapshot w s : state_ok w s → known_hash w (default (zeros 32) (last_snapshot s)).
Proof.
  intros Hs. destruct (last_snapshot s) eqn:E; cbn.
  - destruct (so_snapshot _ _ Hs _ E). split; auto.
  - split; [done|auto].
Qed.
Lemma snapshot_known w s h : state_ok w s → last_snapshot s = Some h → known_hash w h.
Proof. intros Hs E. destruct (so_snapshot _ _ Hs _ E). split; auto. Qed.
Lemma option_list_len {A} (o : option A) : length (option_list o) ≤ 1.
Proof. destruct o; cbn; lia. Qed.
(** The payload of an event is an encoded envelope. *)
Lemma envelope_len (t : Log.EmitType) agent_id sq us payload p :
  length agent_id = 16 → is_u64 sq → is_u64 us → (Z.of_nat (length payload) < 2 ^ 32)%Z →
  Some (Log.to_msgpack (Log.envelope_new t agent_id sq us payload)) = Some p →
  (Z.of_nat (length p) < 2 ^ 64)%Z.
Proof.
  intros ? ? ? ? [= <-]. apply mp_ser_len. unfold Log.envelope_ok. cbn. split_and!; try done.
  unfold in_width. destruct t; cbn; lia.
Qed.

(** An event of the agent that leaves its snapshot alone. *)
Lemma event_good w c s ms t sq us payload :
  Inv c → w_le (world c) w → state_ok w s → id s = id (agent c) → is_u64 ms → is_u64 us → is_u64 sq →
  (Z.of_nat (length payload) < 2 ^ 32)%Z →
  let hash := default (zeros 32) (last_snapshot s) in
  entry_good w (Log.mkEntry (id s) ms (option_list (last_action s)) hash hash
    (Some (Log.to_msgpack (Log.envelope_new t (id s) sq us payload)))).
Proof.
  intros Hc Hle Hs E ? ? ? ? hash. split; cbn.
  - apply Hs.
  - rewrite E. apply Hc.
  - done.
  - by apply logged_option.
  - pose proof (option_list_len (last_action s)). lia.
  - by apply known_snapshot.
  - by apply known_snapshot.
  - intros p. apply envelope_len; [apply Hs|done..].
Qed.

(** ** Writing to the content store *)

Lemma world_inv_store w hist d' :
  world_inv w hist → Store.addressed d' → grows (content_store w) d' →
  (∀ sid h, Store.header_at d' sid h → Store.header_at (content_store w) sid h
     ∨ is_Some (db_cf d' "blocks" !! Store.data_hash h)
       ∧ ∀ p, Store.parent h = Some p → is_Some (db_cf d' "headers" !! p)) →
  let w' := w <| content_store := d' |> in w_le w w' ∧ world_inv w' hist.
Proof.
  intros [? ? Hh Hx ? ?] Ha Hg Hnew w'. assert (w_le w w') as Hle by by split.
  split; [done|]. split; [done..| | |done|done].
  - intros sid h [[Hb Hp]%Hh|?]%Hnew; [|done].
    split; [by apply (block_stored_mono w w')|]. intros p Ep. apply (stored_mono w w'); auto.
  - eapply Forall_impl; [exact Hx|]. cbn. intros x [? ?]. by split; eapply known_hash_mono.
Qed.
Lemma t_put_block P data :
  triple P (put_block data) (λ r c, ∀ h, r = Ok h → length h = 32 ∧ block_stored (world c) h).
Proof.
  apply t_world. intros c r w' Hc _. destruct (Store.put_block _ _) as [r1 d1] eqn:Ed. intros [= <- <-].
  destruct (inv_world _ Hc) as (new & Hw & Hn).
  pose proof Ed as (r' & Hp & _)%Store.put_block_inv.
  destruct (world_inv_store _ _ d1 Hw) as [Hle Hw'].
  - eapply Store.store_step_addressed; [by eapply Store.step_put_block|apply Hw].
  - by eapply write_grows.
  - intros sid h (b & Hb & Hd). left. exists b. split; [|done].
    by destruct (Store.put_cf_lookup _ _ _ _ _ _ _ _ _ Hp Hb) as [?|(? & _)].
  - split_and!; [by exists new|done|]. intros h ->. apply Store.put_block_written in Ed as (-> & _ & ?).
    split; [apply sha256_len|done].
Qed.
Lemma t_put_snapshot P h :
  (∀ c, P c → Store.header_ok h ∧ block_stored (world c) (Store.data_hash h)
     ∧ ∀ p, Store.parent h = Some p → stored (world c) p) →
  triple P (put_snapshot h) (λ r c, ∀ x, r = Ok x → length x = 32 ∧ stored (world c) x).
Proof.
  intros HP. apply t_world. intros c r w' Hc Hpc. destruct (HP c Hpc) as (Hok & Hb & Hpar).
  destruct (Store.put_snapshot _ _) as [r1 d1] eqn:Ed. intros [= <- <-].
  destruct (inv_world _ Hc) as (new & Hw & Hn).
  pose proof Ed as (r' & Hp & _)%Store.put_snapshot_inv.
  assert (grows (content_store (world c)) d1) as Hg by by eapply write_grows.
  destruct (world_inv_store _ _ d1 Hw) as [Hle Hw'].
  - eapply Store.store_step_addressed; [by eapply Store.step_put_snapshot|apply Hw].
  - done.
  - intros sid h' (b & Hb' & Hd).
    destruct (Store.put_cf_lookup _ _ _ _ _ _ _ _ _ Hp Hb') as [?|(_ & _ & ->)]; [left; by exists b|].
    right. rewrite (de_ser (valid := Store.header_ok)) in Hd by done. injection Hd as <-.
    split; [by apply Hg|]. intros p Ep. apply Hg. by apply Hpar.
  - split_and!; [by exists new|done|]. intros x ->. apply Store.put_snapshot_written in Ed as (-> & _ & ?).
    split; [apply sha256_len|done].
Qed.

(** ** The logging methods *)

Ltac t_next tac := eapply t_bind; [apply _|tac|intros ?; cbn beta].

(** The length of the last action, for the payloads that contain it. *)
Lemma last_action_len c s a : Inv c → state_ok (world c) s → last_action s = Some a → length a = 32.
Proof.
  intros Hc Hs E. destruct (inv_world _ Hc) as (new & Hw & _).
  eapply logged_len; [apply Hw|]. by apply (so_action _ _ Hs).
Qed.

Lemma t_log_marker P t payload :
  (∀ c s, Inv c → state_ok (world c) s → (Z.of_nat (length (payload s)) < 2 ^ 32)%Z) →
  Stable P → keeps P (log_marker t payload).
Proof.
  intros Hlen Hst. unfold log_marker.
  t_next ltac:(apply t_clock_ms). t_next ltac:(apply t_clock_us). t_next ltac:(apply t_agent).
  apply t_record_entry; [apply _|]. intros c Hc (((_ & ?) & ?) & Hs & E).
  eapply (event_good _ c); eauto; [done|apply Hs].
Qed.
Lemma t_log_lifecycle P l : Stable P → keeps P (log_lifecycle_event l).
Proof.
  intros Hst. unfold log_lifecycle_event. t_next ltac:(apply t_agent).
  destruct (_ && _); [apply t_ret|].
  t_next ltac:(by apply t_set_other).
  apply t_log_marker; [|apply _]. intros c s _ _. unfold lifecycle_payload.
  rewrite length_cons, length_app, length_le_bytes. case_decide; cbn; lia.
Qed.
Lemma t_log_crash P cause : Stable P → keeps P (log_agent_crash cause).
Proof.
  intros Hst. unfold log_agent_crash. eapply t_bind; [done|apply t_log_marker; [|done]|intros ?].
  - intros c s Hc Hs. unfold crash_payload. rewrite length_cons, length_app.
    assert (length (default (zeros 16) (parent_agent_id s)) = 16) as ->.
    { destruct (parent_agent_id s) eqn:E; [by apply (so_parent _ _ Hs)|done]. }
    assert (length (default (zeros 32) (last_action s)) = 32) as ->; [|lia].
    destruct (last_action s) eqn:E; [by eapply last_action_len|done].
  - by apply t_set_other.
Qed.
Lemma t_record_verdict P v : Stable P → keeps P (record_validation_response v).
Proof.
  intros Hst. unfold record_validation_response. t_next ltac:(apply t_agent).
  case_decide; [apply t_ret|]. t_next ltac:(by apply t_set_other).
  t_next ltac:(apply t_log_marker; [by intros; cbn; lia|apply _]).
  apply t_log_lifecycle, _.
Qed.
Lemma t_session_boundary P : Stable P → keeps P log_session_boundary.
Proof.
  intros Hst. unfold log_session_boundary.
  t_next ltac:(apply t_log_marker; [|done]; intros; rewrite length_app, !length_le_bytes; lia).
  t_next ltac:(by apply t_set_other). apply t_log_lifecycle, _.
Qed.

(** ** The host functions *)

Lemma t_witness P sink x :
  keeps P (on_world (λ w, ((), w <| witnesses ::= alter (λ l, l ++ [x]) sink |>))).
Proof.
  apply t_world. intros c a w' Hc _ [= <- <-]. rewrite (assoc (∧)). split; [|done].
  destruct (inv_world _ Hc) as (new & Hw & ?). apply winv_same; [done..|apply Hw|by exists new].
Qed.
Lemma t_cap_denied P cap_id resource flags : Stable P → keeps P (emit_cap_denied cap_id resource flags).
Proof.
  intros Hst. unfold emit_cap_denied. t_next ltac:(apply t_agent).
  eapply t_bind; [apply _| |intros ?; cbn beta].
  { destruct (cap_denied_witness _); [apply t_witness|apply t_ret]. }
  t_next ltac:(apply t_clock_ms). t_next ltac:(apply t_agent).
  destruct (limiter_step _ _ _) as [[[emit agg] count] l].
  t_next ltac:(by apply t_set_other). apply t_when.
  t_next ltac:(apply t_clock_us). t_next ltac:(apply t_agent).
  apply t_record_entry; [apply _|]. intros c Hc H. eapply (event_good _ c); try apply H; try done.
  unfold denied_payload. rewrite !length_app, length_le_bytes.
  assert (length (id a5) = 16) as -> by apply H.
  destruct agg; [rewrite length_app, length_le_bytes; cbn; lia|].
  rewrite length_cons, length_app, length_take. cbn. lia.
Qed.

Lemma t_commit_barrier P : Stable P → keeps P commit_barrier.
Proof.
  intros Hst. unfold commit_barrier. t_next ltac:(apply t_agent).
  destruct (termination_requested _); [apply t_ret|].
  t_next ltac:(apply t_clock_us). t_next ltac:(apply t_clock_ms). t_next ltac:(apply t_put_block).
  destruct a2 as [data_h|e]; [|by apply t_set_other].
  eapply t_bind; [apply _|apply t_put_snapshot|intros [snap|e]; cbn beta].
  - intros c ((((_ & Hs & _) & ?) & _) & Hb). destruct (Hb _ eq_refl) as [? ?].
    split; [|split; [done|]]; [|intros p Ep; by apply (so_snapshot _ _ Hs)].
    split_and!; [done| |apply Hs|done]. intros p Ep. by apply (so_snapshot _ _ Hs).
  - apply t_set_agent. intros c Hc (((((_ & Hs & _) & ?) & ?) & _) & Hsnap).
    destruct (Hsnap _ eq_refl) as [? ?]. split; [|done].
    destruct (inv_state _ Hc) as [? ? ? ? ? ? ? ?]. split; cbn; try done.
    + by apply wrap_in_width.
    + by intros h [= <-].
    + intros p [= <-]. split; cbn; try done.
      * by apply known_snapshot.
      * apply Forall_app. split; [by apply logged_option|apply Hs].
      * rewrite length_app. pose proof (option_list_len (last_action a)).
        pose proof (so_few _ _ Hs). lia.
      * apply Hs.
  - by apply t_set_other.
Qed.

Lemma log_get_logged c a e : Inv c → log_get a c = Ok (Some e) → logged (world c) a.
Proof.
  intros Hc He. destruct (inv_world _ Hc) as (new & Hw & _).
  pose proof (Log.get_refines _ _ a (wi_log _ _ Hw)) as Hg. unfold log_get in He. rewrite He in Hg.
  destruct Hg as [Hin <-]. eapply action_logged; [apply Hw|done].
Qed.
Lemma t_add_cause P ptr : keeps P (agent_add_cause ptr).
Proof.
  unfold agent_add_cause. apply t_gets_now. intros c Hc _. cbn beta.
  destruct (termination_requested _); [apply t_ret|]. case_decide; [apply t_ret|].
  apply t_gets_now. intros ? _ ->. destruct (negb _); [apply t_ret|].
  apply t_gets_now. intros ? _ ->. apply t_gets_now. intros ? _ ->.
  destruct (log_get _ c) as [[e|]|] eqn:El; [|apply t_ret..].
  apply log_get_logged in El; [|done].
  apply t_gets_now. intros ? _ ->. destruct (_ || _); [|apply t_ret].
  intros c1 _ ->. apply wp_bind. eapply wp_mono; [apply (t_set_agent (λ c', c' = c)); [|done|done]|].
  - intros ? _ ->. split; [|done]. destruct (inv_state _ Hc) as [? ? ? ? ? ? ? ?].
    split; cbn; try done; [by apply Forall_app_2, Forall_singleton|].
    rewrite length_app. cbn. unfold MAX_EXTRA_CAUSES in *. lia.
  - intros _ c2 [? _]. by apply wp_ret.
Qed.

Lemma t_checkpoint P : Stable P → keeps P agent_checkpoint.
Proof.
  intros Hst. unfold agent_checkpoint. t_next ltac:(apply t_agent).
  destruct (termination_requested _); [apply t_ret|]. t_next ltac:(apply t_log_lifecycle, _). apply t_ret.
Qed.
Lemma t_terminate P : Stable P → keeps P agent_terminate.
Proof.
  intros Hst. unfold agent_terminate. t_next ltac:(by apply t_set_other). apply t_log_lifecycle, _.
Qed.
Lemma t_mem_write P ptr b :
  (∀ c, P c → (Z.of_nat (Z.to_nat ptr + length b) ≤ data_size c)%Z) → keeps P (mem_write ptr b).
Proof.
  intros Hb. apply t_memory. intros c HP. specialize (Hb c HP).
  unfold data_size in *. rewrite !length_app, length_take, length_drop. lia.
Qed.
(** A checked range lies in the memory. *)
Lemma in_bounds_le ptr len size :
  in_bounds (u64 ptr) len size = true → (Z.of_nat (Z.to_nat (u64 ptr)) + len ≤ size)%Z.
Proof.
  intros [_ ?%Z.leb_le]%andb_prop. pose proof (wrap_in_width 64 ptr ltac:(lia)) as [? _]. lia.
Qed.
Lemma t_copy_out P b ptr : keeps P (copy_out b ptr).
Proof.
  unfold copy_out. apply t_gets_now. intros c _ _. destruct (in_bounds _ _ _) eqn:E; [|apply t_ret].
  apply in_bounds_le in E. intros c1 Hc1 ->. apply wp_bind.
  eapply wp_mono; [by apply (t_mem_write (λ c', c' = c)); [intros ? ->; lia| |]|].
  intros _ c2 [? _]. by apply wp_ret.
Qed.
Lemma t_introspect P ptr n : Stable P → keeps P (agent_introspect ptr n).
Proof.
  intros. unfold agent_introspect. destruct (_ <? _)%Z; [apply t_ret|].
  t_next ltac:(apply t_agent). apply t_copy_out.
Qed.
Lemma t_session_info P ptr n : Stable P → keeps P (agent_session_info ptr n).
Proof.
  intros. unfold agent_session_info. destruct (_ <? _)%Z; [apply t_ret|].
  t_next ltac:(apply t_agent). apply t_copy_out.
Qed.


Lemma t_rollback_path P tip t :
  triple P (rollback_path tip t)
    (λ r c, ∀ path, r = Ok path → length (default [] (last path)) = 32 ∧ stored (world c) (default [] (last path))).
Proof.
  intros c Hc _ r c' E. unfold rollback_path in E. destruct (Store.rollback_path _ _ _) as [r'|] eqn:Er; [|done].
  injection E as <- <-. split; [done|]. intros path ->.
  destruct (Store.rollback_path_last _ _ _ _ Er) as (x & h & -> & (b & Hb & _)%Store.get_header_Some & _).
  cbn. split; [|by exists b]. destruct (inv_world _ Hc) as (new & Hw & _).
  destruct (Store.addr_header _ (wi_store _ _ Hw) _ _ Hb) as (h' & _ & _ & ->). apply sha256_len.
Qed.
(** A rollback event: it moves the snapshot from one stored snapshot to another. *)
Lemma t_log_rollback P s ms us t payload tip target :
  Stable P →
  (∀ c, P c → state_ok (world c) s ∧ id s = id (agent c) ∧ last_snapshot s = Some tip
     ∧ is_u64 ms ∧ is_u64 us ∧ length target = 32 ∧ stored (world c) target) →
  (Z.of_nat (length payload) < 2 ^ 32)%Z →
  keeps P (append_rollback (Log.mkEntry (id s) ms (option_list (last_action s)) tip target
    (Some (Log.to_msgpack (Log.envelope_new t (id s) (seq s) us payload)))) target).
Proof.
  intros Hst HP Hlen. unfold append_rollback. t_next ltac:(apply t_append).
  - intros c Hc Hp. destruct (HP c Hp) as (Hs & E & Et & ? & ? & ? & ?). split; cbn; try done.
    + apply Hs.
    + rewrite E. apply Hc.
    + by apply logged_option.
    + pose proof (option_list_len (last_action s)). lia.
    + by eapply snapshot_known.
    + split; auto.
    + intros p. apply envelope_len; [apply Hs..|done|done].
  - destruct a as [a|]; [|apply t_ret]. apply t_set_agent. intros c Hc [Hp Ha].
    destruct (HP c Hp) as (Hs & E & Et & ? & ? & ? & ?). split; [|done].
    destruct (inv_state _ Hc) as [? ? ? ? ? ? ? ?]. split; cbn; try done.
    + by intros h [= <-].
    + intros x [= <-]. by apply Ha.
Qed.
Lemma t_self_rollback P depth : Stable P → keeps P (agent_self_rollback depth).
Proof.
  intros Hst. unfold agent_self_rollback. t_next ltac:(apply t_agent).
  destruct (termination_requested _); [apply t_ret|]. case_decide; [apply t_ret|].
  destruct (last_snapshot a) as [tip|] eqn:Et; [|apply t_ret]. destruct (_ <? _)%Z; [apply t_ret|].
  t_next ltac:(apply t_rollback_path). destruct a0 as [path|]; [|apply t_ret].
  t_next ltac:(apply t_clock_ms). t_next ltac:(apply t_clock_us).
  t_next ltac:(apply t_log_rollback; [apply _| |]); [|by unfold rollback_payload; rewrite length_cons, length_le_bytes|apply t_ret].
  intros c ((((_ & ? & ?) & Hp) & ?) & ?). destruct (Hp _ eq_refl). by split_and!.
Qed.

Lemma t_request_validation P risk : Stable P → keeps P (agent_request_validation risk).
Proof.
  intros Hst. unfold agent_request_validation. t_next ltac:(apply t_agent).
  destruct (termination_requested _); [apply t_ret|]. case_decide; [apply t_ret|].
  t_next ltac:(apply t_clock_ms). t_next ltac:(apply t_clock_us). t_next ltac:(apply t_append).
  - intros c Hc H1. eapply (event_good _ c); try apply H1; done.
  - t_next idtac; [|apply t_ret]. destruct a2 as [x|]; [|apply t_ret].
    apply t_set_agent. intros c Hc [_ Hx]. split; [|done].
    destruct (inv_state _ Hc) as [? ? ? ? ? ? ? ?]. split; cbn; try done.
    intros y [= <-]. by apply Hx.
Qed.
Lemma t_check_cap P cap ptr len flags : Stable P → keeps P (agent_check_cap cap ptr len flags).
Proof.
  intros Hst. unfold agent_check_cap. t_next ltac:(apply t_read). destruct (negb _); [apply t_ret|].
  t_next ltac:(apply t_read). destruct (from_utf8 _); [|apply t_ret].
  t_next ltac:(apply t_read). apply t_ret.
Qed.
Lemma t_store_get P ptr len cap out : Stable P → keeps P (agent_store_get ptr len cap out).
Proof.
  intros Hst. unfold agent_store_get. apply t_gets_now. intros c0 _ _. destruct (negb _); [apply t_ret|].
  apply t_gets_now. intros ? _ ->. destruct (from_utf8 _); [|apply t_ret].
  apply t_gets_now. intros ? _ ->. destruct (negb _).
  { eapply (t_conseq _ (λ _, True)); [|done|done].
    t_next ltac:(apply t_cap_denied, _). apply t_ret. }
  apply t_gets_now. intros ? _ ->. destruct (kv_get _ _) as [v|]; [|apply t_ret].
  destruct (in_bounds _ _ _) eqn:E; [|apply t_ret]. apply in_bounds_le in E.
  intros c1 Hc1 ->. apply wp_bind.
  eapply wp_mono; [by apply (t_mem_write (λ c', c' = c0)); [intros ? ->; lia| |]|].
  intros _ c2 [? _]. by apply wp_ret.
Qed.
Lemma t_kv_insert P k v : keeps P (kv_insert k v).
Proof.
  intros c Hc _. apply (t_world (λ c', c' = c)); [|done|done].
  intros ? a w' _ -> [= <- <-]. rewrite (assoc (∧)). split; [|done].
  destruct (inv_world _ Hc) as (new & Hw & ?). apply winv_same; [done..|apply Hw|by exists new].
Qed.
Lemma t_store_put P ptr len cap vptr vlen : Stable P → keeps P (agent_store_put ptr len cap vptr vlen).
Proof.
  intros Hst. unfold agent_store_put. t_next ltac:(apply t_read). destruct (negb _); [apply t_ret|].
  t_next ltac:(apply t_read). destruct (from_utf8 _); [|apply t_ret].
  destruct (negb _); [apply t_ret|].
  t_next ltac:(apply t_read). t_next ltac:(apply t_read). destruct (negb _).
  - t_next ltac:(apply t_cap_denied, _). apply t_ret.
  - t_next ltac:(apply t_kv_insert). apply t_ret.
Qed.

Definition is_i32 (z : Z) : Prop := (- 2 ^ 31 ≤ z < 2 ^ 31)%Z.
(** A length that was checked against the memory is below 2^31. *)
Lemma i32_len ptr len size :
  is_i32 len → (size ≤ 2 ^ 32)%Z → in_bounds (u64 ptr) (u64 len) size = true → (0 ≤ u64 len < 2 ^ 31)%Z.
Proof.
  intros Hl Hs H%in_bounds_le. pose proof (wrap_in_width 64 len ltac:(lia)) as [? _].
  destruct (decide (0 ≤ len)%Z) as [?|Hn].
  - unfold wrap. unfold is_i32 in Hl. rewrite Z.mod_small; lia.
  - assert (u64 len = (len + 2 ^ 64)%Z) as E; [|unfold is_i32 in Hl; lia].
    unfold wrap. symmetry. apply (Z.mod_unique _ _ (-1)); unfold is_i32 in Hl; lia.
Qed.
Lemma mem_read_len ptr len c : (Z.of_nat (length (mem_read ptr len c)) ≤ Z.max 0 len)%Z.
Proof. unfold mem_read. rewrite length_take. lia. Qed.

Lemma t_emit P t ptr len : Stable P → is_i32 len → keeps P (emit t ptr len).
Proof.
  intros Hst Hlen. unfold emit. t_next ltac:(apply t_agent).
  destruct (termination_requested _); [apply t_ret|]. destruct (host_error _); [apply t_ret|].
  destruct (pending_commit a) as [pending|] eqn:Ep; [|by apply t_set_other].
  t_next ltac:(apply t_set_agent).
  { intros c Hc _. split; [|done]. destruct (inv_state _ Hc) as [? ? ? ? ? ? ? ?]. by split. }
  t_next ltac:(apply t_clock_us).
  t_next ltac:(apply (t_gets _ _ (λ n _, (n ≤ 2 ^ 32)%Z)); intros c Hc _; apply Hc).
  destruct (in_bounds _ _ _) eqn:Eb; [|by apply t_set_other]. cbn [negb].
  t_next ltac:(apply (t_gets _ _ (λ b _, (Z.of_nat (length b) ≤ Z.max 0 (u64 len))%Z)); intros c _ _; apply mem_read_len).
  t_next ltac:(apply t_append).
  - intros c Hc (((((_ & Hs & E) & _) & ?) & Hsize) & Hb).
    destruct (i32_len _ _ _ Hlen Hsize Eb). destruct (so_pending _ _ Hs _ Ep).
    split; cbn; try done.
    + apply Hs.
    + rewrite E. apply Hc.
    + split; naive_solver.
    + intros p. apply envelope_len; [apply Hs|done|done|lia].
  - destruct a4 as [x|]; [|by apply t_set_other]. apply t_last_action. intros c [_ Hx]. by apply Hx.
Qed.

(** What the invariant asks of the inference pool: while the agent waits, the
    others may only do what keeps the invariant. *)
Definition infer_safe (infer_fn : AgentId → bytes → Z →
    SM World (result Queue.InferError Queue.InferResponse * Z)) : Prop :=
  ∀ a p t w r w', winv w → infer_fn a p t w = Some (r, w') → winv w' ∧ w_le w w'.

Lemma t_await {A} P (m : SM World A) :
  (∀ w r w', winv w → m w = Some (r, w') → winv w' ∧ w_le w w') → keeps P (await m).
Proof.
  intros Hm c Hc _ a c' E. unfold await in E. destruct (m (world c)) as [[a1 w1]|] eqn:Em; [|done].
  injection E as <- <-. destruct (Hm _ _ _ (inv_world _ Hc) Em) as [? ?]. split; [|done].
  split; [|by split]. destruct Hc as [_ ? ? ?]. split; [done|by eapply state_ok_mono|done|done].
Qed.
Lemma t_infer_entry P s ms t payload agent_id sq :
  Stable P →
  (∀ c, P c → state_ok (world c) s ∧ agent_id = id (agent c) ∧ id s = id (agent c) ∧ is_u64 ms ∧ is_u64 sq) →
  (Z.of_nat (length payload) < 2 ^ 32)%Z →
  keeps P (record_entry (infer_entry s agent_id sq ms t payload)).
Proof.
  intros Hst HP Hlen. apply t_record_entry; [done|]. intros c Hc Hp.
  destruct (HP c Hp) as (Hs & E & E' & ? & ?). unfold infer_entry. rewrite E, <-E'.
  eapply (event_good _ c); try done. by apply wrap_in_width.
Qed.

Lemma t_infer_finish P s s2 now_resp dur bp bc lo r size :
  Stable P →
  (∀ c, P c → state_ok (world c) s ∧ state_ok (world c) s2 ∧ id s = id (agent c) ∧ id s2 = id (agent c)
     ∧ is_u64 now_resp ∧ size = data_size c) →
  in_bounds (u64 lo) 4 size = true → in_bounds (u64 bp) (u64 bc) size = true →
  keeps P (infer_finish s s2 now_resp dur bp bc lo r).
Proof.
  intros Hst HP Hlo%in_bounds_le Hbp%in_bounds_le.
  assert (∀ b, length b = 4 → keeps P (mem_write (u64 lo) b)) as Hw.
  { intros b Hb. apply t_mem_write. intros c Hc. destruct (HP c Hc) as (_ & _ & _ & _ & _ & <-). lia. }
  assert (∀ t payload, (Z.of_nat (length payload) < 2 ^ 32)%Z →
    ∀ P', Stable P' → (∀ c, P' c → P c) → keeps P' (record_entry (infer_entry s2 (id s) (seq s) now_resp t payload)))
    as Hr.
  { intros t payload Hlen P' HP' Hsub. apply t_infer_entry; [done| |done].
    intros c Hc%Hsub. destruct (HP c Hc) as (Hs & ? & ? & ? & ? & _). split_and!; try done. apply Hs. }
  unfold infer_finish. destruct r as [resp|[| |code msg|]].
  - t_next ltac:(apply t_mem_write).
    { intros c Hc. destruct (HP c Hc) as (_ & _ & _ & _ & _ & <-). rewrite length_take.
      pose proof (wrap_in_width 64 bc ltac:(lia)) as [? _]. lia. }
    t_next ltac:(eapply (t_conseq _ P); [apply Hw, length_le_bytes|naive_solver|done]).
    t_next ltac:(apply Hr; [|apply _|naive_solver]); [|apply t_ret].
    unfold response_payload. rewrite !length_app, !length_le_bytes, sha256_len. cbn. lia.
  - t_next ltac:(apply Hw, length_le_bytes).
    t_next ltac:(apply Hr; [|apply _|naive_solver]); [|apply t_ret].
    unfold cancelled_payload. rewrite length_app, length_le_bytes. cbn. lia.
  - t_next ltac:(apply Hw, length_le_bytes).
    t_next ltac:(apply Hr; [|apply _|naive_solver]); [|apply t_ret]. by vm_compute.
  - t_next ltac:(apply Hw, length_le_bytes).
    t_next ltac:(apply Hr; [|apply _|naive_solver]); [|apply t_ret].
    unfold failed_payload. rewrite !length_cons, length_take. lia.
  - t_next ltac:(apply Hw, length_le_bytes).
    t_next ltac:(apply Hr; [|apply _|naive_solver]); [|apply t_ret]. by vm_compute.
Qed.

Lemma t_infer P infer_fn pp pl bp bc lo t :
  Stable P → infer_safe infer_fn → keeps P (agent_infer infer_fn pp pl bp bc lo t).
Proof.
  intros Hst Hinf. unfold agent_infer.
  t_next ltac:(apply (t_gets _ _ (λ n c, n = data_size c)); done).
  destruct (in_bounds (u64 pp) _ _) eqn:Ep; cbn [negb].
  - destruct (in_bounds _ 4 _) eqn:Elo; [|apply t_ret].
    destruct (in_bounds _ _ _) eqn:Ebp in |- *; [|apply t_ret]. cbn [negb andb].
    t_next ltac:(apply t_read). t_next ltac:(apply t_agent). t_next ltac:(apply t_clock_ms).
    t_next ltac:(apply t_log_lifecycle, _).
    t_next ltac:(apply t_await, Hinf). destruct a4 as [r dur].
    t_next ltac:(apply t_clock_ms). t_next ltac:(apply t_agent).
    t_next ltac:(apply t_infer_entry; [apply _| |]).
    + intros c H. destruct H as ((((((((_ & ?) & _) & Hs & ?) & ?) & _) & _) & ?) & ? & ?).
      split_and!; try done. apply Hs.
    + unfold request_payload. rewrite !length_app, length_cons, !length_app, !length_le_bytes, sha256_len.
      assert (length (from_option slot_bytes [] (slot_info_of r)) ≤ 4); [|cbn; lia].
      destruct (slot_info_of r) as [si|]; [|cbn; lia]. cbn [from_option]. unfold slot_bytes.
      rewrite length_cons, length_app, length_le_bytes. cbn. lia.
    + t_next ltac:(eapply t_infer_finish; [apply _| |exact Elo|exact Ebp]).
      * intros c H. destruct H as (((((((((_ & ?) & _) & ? & ?) & ?) & _) & _) & ?) & ? & ?) & _). done.
      * t_next ltac:(apply t_log_lifecycle, _). apply t_ret.
  - t_next idtac; [|apply t_ret]. destruct (in_bounds (u64 lo) 4 a) eqn:E; [|apply t_ret].
    apply in_bounds_le in E. apply t_mem_write. intros c [_ <-]. rewrite length_le_bytes. lia.
Qed.

(** The arguments that are lengths of an emission are [i32]. *)
Definition call_ok (f : host_call) : Prop :=
  match f with Emit _ _ len => is_i32 len | _ => True end.
Definition waits (f : host_call) : bool := match f with Infer _ _ _ _ _ _ => true | _ => false end.

Lemma t_no_result P (m : host ()) : Stable P → keeps P m → keeps P (no_result m).
Proof. intros Hst Hm. unfold no_result. t_next ltac:(exact Hm). apply t_ret. Qed.
Lemma t_host_fn infer_fn f :
  call_ok f → (waits f = true → infer_safe infer_fn) → keeps (λ _, True) (host_fn infer_fn f).
Proof.
  intros Hok Hinf. destruct f; cbn [host_fn].
  - apply t_no_result, t_commit_barrier; apply _.
  - apply t_add_cause.
  - apply t_checkpoint, _.
  - apply t_no_result, t_terminate; apply _.
  - apply t_introspect, _.
  - apply t_self_rollback, _.
  - apply t_session_info, _.
  - apply t_request_validation, _.
  - unfold agent_get_verdict. t_next ltac:(apply t_agent). apply t_ret.
  - apply t_check_cap, _.
  - apply t_store_get, _.
  - apply t_store_put, _.
  - by apply t_no_result, t_emit; [apply _|apply _|].
  - apply t_infer; [apply _|by apply Hinf].
Qed.

End inv.

Section properties.
Context `{R : RocksDB, !RocksLaws R, H256 : Sha256, !Sha256Laws H256,
          BH : Bincode Store.SnapshotHeader, !BincodeLaws Store.SnapshotHeader Store.header_ok,
          BE : Bincode Log.LogEntry, !BincodeLaws Log.LogEntry Log.entry_ok,
          MP : Msgpack Log.EmitEnvelope, !MsgpackSize Log.EmitEnvelope Log.envelope_ok}.
Abbreviation InferFn :=
  (AgentId → bytes → Z → SM World (result Queue.InferError Queue.InferResponse * Z)).

Lemma winv_intro hist authors w : world_inv w hist → winv hist authors w.
Proof. intros Hw. exists []. by rewrite app_nil_r. Qed.

(** C2: whatever host function a module calls, with whatever arguments, the
    databases only grow, the log stays a causally ordered list in which every
    state hash is a stored snapshot, with its data block and its parent, the
    agent's links stay valid, and the new entries are the agent's own (or, when
    the call waits for an inference, those of the agents that run meanwhile). *)
Theorem host_fn_keeps_invariant (infer_fn : InferFn) (authors : AgentId → Prop) f c z c' hist :
  world_inv (world c) hist → state_ok (world c) (agent c) → (data_size c ≤ 2 ^ 32)%Z →
  call_ok f → authors (id (agent c)) →
  (waits f = true → infer_safe hist authors infer_fn) →
  host_fn infer_fn f c = Some (z, c') →
  (∃ new, world_inv (world c') (hist ++ new) ∧ Forall (λ e, authors (Log.agent_id e)) new)
  ∧ state_ok (world c') (agent c') ∧ id (agent c') = id (agent c) ∧ w_le (world c) (world c').
Proof.
  intros Hw Hs Hm Hok Ha Hinf E.
  assert (Inv hist authors c) as Hc by (split; [by apply winv_intro|done..]).
  destruct (t_host_fn hist authors infer_fn f Hok Hinf c Hc I z c' E) as [[[Hw' Hs' _ _] [? ? _]] _].
  done.
Qed.

(** ** After its termination *)

(** The agent asked to end, in this cycle. *)
Definition terminated (c : Caller) : Prop :=
  termination_requested (agent c) = true ∧ lifecycle (agent c) = Terminated.
(** The host functions that act for the agent. *)
Definition acts (f : host_call) : bool :=
  match f with
  | CommitBarrier | AddCause _ | Checkpoint | SelfRollback _ | RequestValidation _ | Emit _ _ _ => true
  | _ => false
  end.

Definition lasting {A} (m : SM Caller A) : Prop := ∀ c, terminated c → wp m (λ _, terminated) c.
Lemma l_bind {A B} (m : SM Caller A) (f : A → SM Caller B) :
  lasting m → (∀ a, lasting (f a)) → lasting (m ≫= f).
Proof.
  intros Hm Hf c Hc. apply wp_bind. eapply wp_mono; [by apply Hm|]. intros a s. apply Hf.
Qed.
Lemma l_ret {A} (a : A) : lasting (mret a).
Proof. intros c Hc. by apply wp_ret. Qed.
Lemma l_gets {A} (f : Caller → A) : lasting (gets f).
Proof. intros c Hc. by apply wp_gets. Qed.
Lemma l_when b (m : SM Caller ()) : lasting m → lasting (when b m).
Proof. destruct b; [done|]. intros _. apply l_ret. Qed.
Lemma l_set f :
  (∀ s, termination_requested (f s) = termination_requested s ∧ lifecycle (f s) = lifecycle s) →
  lasting (set_agent f).
Proof. intros Hf c [? ?]. apply wp_modify. destruct (Hf (agent c)) as [E1 E2]. split; cbn; by rewrite ?E1, ?E2. Qed.
Lemma l_world {A} (f : World → A * World) : lasting (on_world f).
Proof. intros c Hc a c' E. unfold on_world in E. destruct (f (world c)). by injection E as <- <-. Qed.
Lemma l_clock_ms : lasting clock_ms.
Proof. intros c. apply l_world. Qed.
Lemma l_clock_us : lasting clock_us.
Proof. intros c. apply l_world. Qed.
Lemma l_kv k v : lasting (kv_insert k v).
Proof. intros c. apply l_world. Qed.
Lemma l_mem ptr b : lasting (mem_write ptr b).
Proof. intros c Hc. by apply wp_modify. Qed.
Lemma l_record e : lasting (record_entry e).
Proof. apply l_bind; [apply l_world|]. intros [a|x]; [by apply l_set|apply l_ret]. Qed.
Lemma l_await {A} (m : SM World A) : lasting (await m).
Proof. intros c Hc a c' E. unfold await in E. destruct (m (world c)) as [[??]|]; [|done]. by injection E as <- <-. Qed.
Create HintDb lasting.
Hint Resolve l_ret l_gets l_when l_set l_world l_clock_ms l_clock_us l_kv l_mem l_record l_await : lasting.
Ltac lasting := repeat first [solve [eauto with lasting]|apply l_bind; [|intros ?]|apply l_when].

Lemma l_marker t payload : lasting (log_marker t payload).
Proof. unfold log_marker. lasting. Qed.
Lemma l_lifecycle l : lasting (log_lifecycle_event l).
Proof.
  intros c Hc. destruct (decide (l = Terminated)) as [->|Hl].
  - apply wp_bind, wp_gets. rewrite andb_comm. cbn. apply wp_bind, wp_modify.
    apply l_marker. by split; [apply Hc|].
  - apply wp_bind, wp_gets. destruct Hc as [? E]. rewrite E, !bool_decide_eq_true_2 by done.
    by apply wp_ret.
Qed.
Hint Resolve l_marker l_lifecycle : lasting.
Lemma l_denied a b d : lasting (emit_cap_denied a b d).
Proof.
  unfold emit_cap_denied. apply l_bind; [apply l_gets|intros s]. apply l_bind.
  { destruct (cap_denied_witness s); eauto with lasting. }
  intros ?. apply l_bind; [apply l_clock_ms|intros ms]. apply l_bind; [apply l_gets|intros s'].
  destruct (limiter_step _ _ _) as [[[??]?]?]. lasting.
Qed.
Hint Resolve l_denied : lasting.
Lemma l_copy_out b p : lasting (copy_out b p).
Proof. unfold copy_out. apply l_bind; [apply l_gets|intros n]. destruct (in_bounds _ _ _); lasting. Qed.
Lemma l_infer_finish s s2 n d bp bc lo r : lasting (infer_finish s s2 n d bp bc lo r).
Proof. unfold infer_finish. destruct r as [?|[]]; lasting. Qed.
Hint Resolve l_copy_out l_infer_finish : lasting.
Ltac branch := repeat first
  [ apply l_bind; [solve [eauto with lasting]|intros ?]
  | progress case_match
  | solve [eauto with lasting] | solve [lasting] ].

Lemma acts_not infer_fn f c : terminated c → acts f = true → ∃ z, host_fn infer_fn f c = Some (z, c).
Proof.
  intros [Ht _]. destruct f; try done; intros _; cbn [host_fn];
    unfold no_result, commit_barrier, agent_add_cause, agent_checkpoint, agent_self_rollback,
      agent_request_validation, emit, mbind, SM_bind, gets; rewrite Ht; by eexists.
Qed.
Lemma l_host_fn infer_fn f : lasting (host_fn infer_fn f).
Proof.
  intros c Hc. destruct (acts f) eqn:Ea.
  { intros z c' E. destruct (acts_not infer_fn f c Hc Ea) as [z' E']. rewrite E in E'. by simplify_eq. }
  enough (lasting (host_fn infer_fn f)) as Hl by by apply Hl. clear c Hc.
  destruct f; try done; clear Ea; cbn [host_fn].
  - unfold no_result, agent_terminate. apply l_bind; [apply l_bind; [|eauto with lasting]|eauto with lasting].
    intros c [? ?]. by apply wp_modify.
  - unfold agent_introspect. branch.
  - unfold agent_session_info. branch.
  - unfold agent_get_verdict. branch.
  - unfold agent_check_cap. branch.
  - unfold agent_store_get. branch.
  - unfold agent_store_put. branch.
  - unfold agent_infer. branch.
Qed.

(** [agent_terminate] is final: the agent is terminated when it
    returns, stays so whatever the module calls afterwards, and from then on
    the functions that commit, emit, cite, checkpoint, roll back or ask for a
    validation change nothing at all. *)
Theorem termination_is_final (infer_fn : InferFn) c z c1 :
  host_fn infer_fn Terminate c = Some (z, c1) →
  terminated c1
  ∧ ∀ c2, terminated c2 → ∀ f y c3, host_fn infer_fn f c2 = Some (y, c3) →
      terminated c3 ∧ (acts f = true → c3 = c2).
Proof.
  intros E. split.
  - assert (wp (host_fn infer_fn Terminate) (λ _, terminated) c) as Hwp; [|by apply (Hwp z c1)].
    apply wp_bind, wp_bind, wp_modify, wp_bind, wp_gets. rewrite andb_comm. cbn.
    apply wp_bind, wp_modify. eapply wp_mono; [by apply l_marker|]. intros ? c' ?. by apply wp_ret.
  - intros c2 Hc2 f y c3 E3. split; [by apply (l_host_fn infer_fn f c2 Hc2 y)|].
    intros Ha. destruct (acts_not infer_fn f c2 Hc2 Ha) as [y' E']. rewrite E3 in E'. by simplify_eq.
Qed.

End properties.

(** ** The concrete agent keeps the invariant *)

Lemma demo_world_inv : world_inv demo_world [].
Proof.
  split.
  - by apply Log.represents_empty.
  - by apply Store.empty_addressed.
  - intros sid h (b & Hb & _). change ((∅ : gmap bytes bytes) !! sid = Some b) in Hb. by rewrite lookup_empty in Hb.
  - done.
  - by intros [|? ?] e h2.
  - intros i z. cbn. intros [<- <-]%lookup_singleton_Some. by split.
Qed.
Lemma demo_state_ok : state_ok demo_world demo_agent.
Proof. split; try done; by split. Qed.

Lemma host_fn_keeps_invariant_witness :
  ∃ z c', host_fn demo_infer CommitBarrier demo_caller = Some (z, c')
    ∧ (∃ new, world_inv (world c') ([] ++ new)
              ∧ Forall (λ e, Log.agent_id e = id (agent demo_caller)) new)
    ∧ state_ok (world c') (agent c').
Proof.
  destruct (host_fn demo_infer CommitBarrier demo_caller) as [[z c']|] eqn:E; [|discriminate E].
  exists z, c'. split; [done|].
  destruct (host_fn_keeps_invariant demo_infer (λ a, a = id (agent demo_caller)) CommitBarrier demo_caller z c' []
    demo_world_inv demo_state_ok) as (H1 & H2 & _); [by cbn|done|done|done|done|done].
Defined.
Lemma termination_is_final_witness :
  ∃ z c1, host_fn demo_infer Terminate demo_caller = Some (z, c1) ∧ terminated c1
    ∧ ∀ y c3, host_fn demo_infer CommitBarrier c1 = Some (y, c3) → c3 = c1.
Proof.
  destruct (host_fn demo_infer Terminate demo_caller) as [[z c1]|] eqn:E; [|discriminate E].
  destruct (termination_is_final demo_infer demo_caller z c1 E) as [Ht Hf].
  exists z, c1. split; [done|]. split; [done|]. intros y c3 E3. by apply (Hf c1 Ht CommitBarrier y c3).
Defined.

End Safety.
