(* ===== verification/ActorSpec.v ===== *)
(** ActorSpec: what each host function does.

    The transaction formed by [commit_barrier] and [emit], the authorisation of
    causal citations, the bounded self-rollback, the capability gate in front of
    the key-value store, and the bound on denial events. *)
From Stdlib Require Import String.
From S2P Require Import Prelude Storage Capabilities ContentStore CausalLog InferQueue Clock CauseHandles Actor ActorSafety.

Module Spec.
Import Clocks Watchdog Handles Actor Safety.

Section inversion.
Context `{R : RocksDB, H256 : Sha256, BH : Bincode Store.SnapshotHeader,
          BE : Bincode Log.LogEntry, MP : Msgpack Log.EmitEnvelope}.

(** ** Running a host function *)

Lemma bind_inv {S A B} (m : SM S A) (f : A → SM S B) s b s' :
  (m ≫= f) s = Some (b, s') → ∃ a s1, m s = Some (a, s1) ∧ f a s1 = Some (b, s').
Proof. unfold mbind, SM_bind. destruct (m s) as [[a s1]|]; [eauto|done]. Qed.
Lemma gets_inv {S A} (f : S → A) s a s' : gets f s = Some (a, s') → a = f s ∧ s' = s.
Proof. by intros [= <- <-]. Qed.
Lemma ret_inv {S A} (x : A) (s : S) a s' : (mret x : SM S A) s = Some (a, s') → a = x ∧ s' = s.
Proof. by intros [= <- <-]. Qed.
Lemma set_agent_inv f c a c' : set_agent f c = Some (a, c') → c' = c <| agent ::= f |>.
Proof. by intros [= <- <-]. Qed.

Definition with_clocks (k : ClockState) (c : Caller) : Caller :=
  mkCaller (world c <| clocks := k |>) (agent c) (memory c).
Definition with_store (d : db) (c : Caller) : Caller :=
  mkCaller (world c <| content_store := d |>) (agent c) (memory c).
Definition with_log (d : db) (c : Caller) : Caller :=
  mkCaller (world c <| causal_log := d |>) (agent c) (memory c).

Lemma clock_ms_inv c t c' : clock_ms c = Some (t, c') → ∃ k, c' = with_clocks k c.
Proof.
  unfold clock_ms, on_world. destruct (now_ms _ _) as [t1 k] eqn:E. intros [= <- <-]. by exists k.
Qed.
Lemma clock_us_inv c t c' : clock_us c = Some (t, c') → ∃ k, c' = with_clocks k c.
Proof.
  unfold clock_us, on_world. destruct (now_us _ _) as [t1 k] eqn:E. intros [= <- <-]. by exists k.
Qed.
Lemma host_put_block_inv data c r c' :
  put_block data c = Some (r, c') →
  ∃ d, Store.put_block (content_store (world c)) data = (r, d) ∧ c' = with_store d c.
Proof. unfold put_block, on_world. destruct (Store.put_block _ _) as [r1 d1]. intros [= <- <-]. by exists d1. Qed.
Lemma host_put_snapshot_inv h c r c' :
  put_snapshot h c = Some (r, c') →
  ∃ d, Store.put_snapshot (content_store (world c)) h = (r, d) ∧ c' = with_store d c.
Proof. unfold put_snapshot, on_world. destruct (Store.put_snapshot _ _) as [r1 d1]. intros [= <- <-]. by exists d1. Qed.
Lemma append_inv e c r c' :
  append e c = Some (r, c') →
  ∃ d, Log.append (causal_log (world c)) e = (r, d) ∧ c' = with_log d c.
Proof. unfold append, on_world. destruct (Log.append _ _) as [r1 d1]. intros [= <- <-]. by exists d1. Qed.

End inversion.

(** Decompose the run [H] of a host function, step by step. *)
Ltac run_step H :=
  lazymatch type of H with
  | (_ ≫= _) _ = Some _ =>
      let a := fresh "a" in let s := fresh "c" in let E := fresh "E" in
      apply bind_inv in H as (a & s & E & H); cbn beta in H; run_step E; run_step H
  | gets _ _ = Some _ => apply gets_inv in H as [-> ->]
  | mret _ _ = Some _ => first [apply ret_inv in H as [-> ->]|apply ret_inv in H as [H ->]; simplify_eq]
  | set_agent _ _ = Some _ => apply set_agent_inv in H as ->
  | fail_host _ _ = Some _ => apply set_agent_inv in H as ->
  | clock_ms _ = Some _ => let k := fresh "k" in apply clock_ms_inv in H as [k ->]
  | clock_us _ = Some _ => let k := fresh "k" in apply clock_us_inv in H as [k ->]
  | put_block _ _ = Some _ => let d := fresh "d" in let E := fresh "Eb" in apply host_put_block_inv in H as (d & E & ->)
  | put_snapshot _ _ = Some _ => let d := fresh "d" in let E := fresh "Es" in apply host_put_snapshot_inv in H as (d & E & ->)
  | append _ _ = Some _ => let d := fresh "d" in let E := fresh "Ea" in apply append_inv in H as (d & E & ->)
  | _ => idtac
  end.

(** ** The limiter of denial events *)

(** The events of a sequence of refusals: (time, resource), and for each
    emitted one whether it is an aggregate. *)
Fixpoint denials (l : CapDeniedLimiter) (reqs : list (Z * string)) : list bool :=
  match reqs with
  | [] => []
  | (now, resource) :: reqs =>
      let '(should_emit, is_aggregated, _, l) := limiter_step now resource l in
      (if should_emit : bool then [is_aggregated] else []) ++ denials l reqs
  end.

(** The budget that the events of the current window have used. *)
Definition spent (l : CapDeniedLimiter) : Z :=
  Z.min (cd_count l) 100 + (if aggregate_emitted l then 1 else 0) + (if set_overflow_emitted l then 1 else 0)
  + (Z.of_nat (size (resources l)) - 1).
Record window_ok (l : CapDeniedLimiter) : Prop := {
  wo_count : (1 ≤ cd_count l)%Z;
  wo_size : 1 ≤ size (resources l) ≤ CAP_DENIED_MAX_DISTINCT_RESOURCES;
  wo_agg : aggregate_emitted l = bool_decide (100 < cd_count l)%Z }.

(** One refusal within the window. *)
Lemma limiter_step_window now resource l b agg n l' :
  window_ok l → (cd_count l < 2 ^ 32 - 1)%Z →
  (saturating_sub now (window_start_ms l) < CAP_DENIED_WINDOW_MS)%Z →
  limiter_step now resource l = (b, agg, n, l') →
  window_ok l' ∧ cd_count l' = (cd_count l + 1)%Z ∧ window_start_ms l' = window_start_ms l
  ∧ (spent l + (if b then 1 else 0) ≤ spent l')%Z
  ∧ ((cd_count l < 100)%Z → b = true ∧ agg = false)
  ∧ (cd_count l = 100%Z → b = true ∧ agg = true).
Proof.
  intros [Hc Hs Ha] Hn Hw. unfold limiter_step. rewrite decide_False by lia. cbn.
  assert (u32 (cd_count l + 1) = cd_count l + 1)%Z as -> by (apply wrap_small; unfold in_width; lia).
  set (new := bool_decide (resource ∉ resources l)).
  set (room := bool_decide (size (resources l) < CAP_DENIED_MAX_DISTINCT_RESOURCES)).
  set (l1 := if new && room then _ else _).
  assert (cd_count l1 = (cd_count l + 1)%Z ∧ window_start_ms l1 = window_start_ms l
    ∧ aggregate_emitted l1 = aggregate_emitted l ∧ set_overflow_emitted l1 = set_overflow_emitted l
    ∧ Z.of_nat (size (resources l1)) = (Z.of_nat (size (resources l)) + (if new && room then 1 else 0))%Z
    ∧ 1 ≤ size (resources l1) ≤ CAP_DENIED_MAX_DISTINCT_RESOURCES) as (E1 & E2 & E3 & E4 & E5 & E6).
  { subst l1. unfold new, room. repeat case_bool_decide; cbn; split_and!; try done; try lia.
    all: rewrite size_union, size_singleton by set_solver; lia. }
  clearbody l1. rewrite E3, E4, Ha. unfold CAP_DENIED_RATE_LIMIT.
  destruct (Z.lt_trichotomy (cd_count l) 100) as [H|[H|H]].
  - rewrite (proj2 (Z.ltb_ge 100 (cd_count l + 1))), (proj2 (Z.leb_le (cd_count l + 1) 100)) by lia.
    rewrite bool_decide_eq_false_2 in * by lia. cbn [andb].
    assert ((b, agg, l') = (true, false, l1) → window_ok l' ∧ cd_count l' = (cd_count l + 1)%Z
      ∧ window_start_ms l' = window_start_ms l ∧ (spent l + (if b then 1 else 0) ≤ spent l')%Z
      ∧ ((cd_count l < 100)%Z → b = true ∧ agg = false) ∧ (cd_count l = 100%Z → b = true ∧ agg = true)) as Hgoal.
    { intros [= -> -> ->]. unfold spent. rewrite E1, E2, E3, E4, E5, Ha. split_and!; try done; try lia.
      - split; [lia|done|]. rewrite E1, E3, Ha, bool_decide_eq_false_2; [done|lia].
      - destruct (new && room); lia. }
    destruct (new && room); intros [= <- <- _ <-]; by apply Hgoal.
  - rewrite (proj2 (Z.ltb_lt 100 (cd_count l + 1))) by lia.
    rewrite bool_decide_eq_false_2 in * by lia. cbn [andb negb]. intros [= <- <- _ <-].
    unfold spent. cbn. rewrite E1, E2, E5, Ha. split_and!; try done; try lia.
    + split; cbn; [lia|done|]. rewrite bool_decide_eq_true_2; [done|lia].
    + destruct (new && room); lia.
  - rewrite (proj2 (Z.leb_gt (cd_count l + 1) 100)) by lia.
    rewrite bool_decide_eq_true_2 in * by lia. rewrite andb_false_r.
    assert (window_ok l1) as Hl1.
    { split; [lia|done|]. rewrite E1, E3, Ha, bool_decide_eq_true_2; [done|lia]. }
    assert (spent l + (if new && room then 1 else 0) = spent l1)%Z as Hsp.
    { unfold spent. rewrite E1, E3, E4, E5, Ha. lia. }
    destruct (new && room); [intros [= <- <- _ <-]; split_and!; try done; lia|].
    destruct (negb room && new && negb (set_overflow_emitted l)) eqn:Eo; intros [= <- <- _ <-];
      split_and!; try done; try lia.
    + split; cbn; [lia|done|]. rewrite bool_decide_eq_true_2; [done|lia].
    + apply andb_prop in Eo as [_ Eo%negb_true_iff]. unfold spent in *. cbn. rewrite E3, E4, Eo, Ha in Hsp. rewrite Eo, Ha. lia.
Qed.

(** The first refusal of a window. *)
Lemma limiter_step_first now resource l :
  (CAP_DENIED_WINDOW_MS ≤ saturating_sub now (window_start_ms l))%Z →
  ∃ l', limiter_step now resource l = (true, false, 1%Z, l')
    ∧ window_ok l' ∧ cd_count l' = 1%Z ∧ window_start_ms l' = now ∧ spent l' = 1%Z.
Proof.
  intros Hw. unfold limiter_step. rewrite decide_True by lia. cbn -[size].
  rewrite (bool_decide_eq_true_2 (resource ∉ ∅)) by set_solver.
  rewrite (bool_decide_eq_true_2 (size (∅ : gset string) < CAP_DENIED_MAX_DISTINCT_RESOURCES))
    by (rewrite size_empty; unfold CAP_DENIED_MAX_DISTINCT_RESOURCES; lia).
  cbn -[size]. eexists. split; [reflexivity|].
  assert (size ({[resource]} ∪ ∅ : gset string) = 1) as Hsz by (rewrite union_empty_r_L; apply size_singleton).
  split_and!; try done; [split; cbn -[size]; [done| |done]|unfold spent; cbn -[size]]; rewrite Hsz; [|done].
  unfold CAP_DENIED_MAX_DISTINCT_RESOURCES. lia.
Qed.

Lemma denials_window l reqs :
  window_ok l → (cd_count l + Z.of_nat (length reqs) < 2 ^ 32)%Z →
  Forall (λ r, saturating_sub r.1 (window_start_ms l) < CAP_DENIED_WINDOW_MS)%Z reqs →
  (spent l + Z.of_nat (length (denials l reqs)) ≤ 133)%Z
  ∧ ((cd_count l + Z.of_nat (length reqs) ≤ 100)%Z → denials l reqs = replicate (length reqs) false)
  ∧ ((cd_count l ≤ 100 < cd_count l + Z.of_nat (length reqs))%Z → true ∈ denials l reqs).
Proof.
  revert l. induction reqs as [|[now resource] reqs IH]; intros l Hl Hn Hw; cbn [denials length].
  - split_and!; [|done|lia]. destruct Hl as [? Hs ?]. unfold spent. cbn.
    unfold CAP_DENIED_MAX_DISTINCT_RESOURCES in Hs. destruct (aggregate_emitted l), (set_overflow_emitted l); lia.
  - apply Forall_cons in Hw as [Hw1 Hw]. cbn in Hw1, Hn.
    destruct (limiter_step now resource l) as [[[b agg] n] l'] eqn:E.
    destruct (limiter_step_window _ _ _ _ _ _ _ Hl ltac:(lia) Hw1 E) as (Hl' & Ec & Ew & Hsp & H1 & H2).
    destruct (IH l' Hl' ltac:(lia)) as (IH1 & IH2 & IH3); [by rewrite Ew|].
    rewrite length_app. split_and!.
    + destruct b; cbn [length]; lia.
    + intros ?. destruct (H1 ltac:(lia)) as [-> ->]. cbn. f_equal. apply IH2. lia.
    + intros ?. destruct (decide (cd_count l = 100%Z)) as [Hc|Hc].
      * destruct (H2 Hc) as [-> ->]. by left.
      * apply elem_of_app. right. apply IH3. lia.
Qed.

(** Denial events are bounded and never silent: from the first refusal
    of a window on, the refusals of the next second produce at most 133 events
    in all; if they are at most 100, each one has its own event with its
    resource; and if they are more, an aggregate event says so. *)
Theorem denied_events_bounded l now resource reqs :
  (CAP_DENIED_WINDOW_MS ≤ saturating_sub now (window_start_ms l))%Z →
  Forall (λ r, saturating_sub r.1 now < CAP_DENIED_WINDOW_MS)%Z reqs →
  (Z.of_nat (length reqs) < 2 ^ 32 - 1)%Z →
  let events := denials l ((now, resource) :: reqs) in
  length events ≤ 133
  ∧ (length reqs < 100 → events = replicate (S (length reqs)) false)
  ∧ (100 ≤ length reqs → true ∈ events).
Proof.
  intros Hw Hr Hn events. destruct (limiter_step_first now resource l Hw) as (l' & E & Hl' & Hc & Es & Hsp).
  assert (events = false :: denials l' reqs) as -> by (unfold events; cbn; by rewrite E).
  destruct (denials_window l' reqs Hl' ltac:(lia)) as (H1 & H2 & H3); [by rewrite Es|].
  split_and!; [cbn; lia| |].
  - intros ?. cbn. f_equal. apply H2. lia.
  - intros ?. right. apply H3. lia.
Qed.

Section spec.
Context `{R : RocksDB, !RocksLaws R, H256 : Sha256, !Sha256Laws H256,
          BH : Bincode Store.SnapshotHeader, !BincodeLaws Store.SnapshotHeader Store.header_ok,
          BE : Bincode Log.LogEntry, !BincodeLaws Log.LogEntry Log.entry_ok,
          MP : Msgpack Log.EmitEnvelope, !MsgpackSize Log.EmitEnvelope Log.envelope_ok}.

(** ** The commit transaction *)

(** No effect without a barrier: [emit] appends to the log only when a
    commit is pending, and consumes it, so that one barrier yields at most one
    entry; without pending commit the only effect is to record the error that
    ends the cycle. *)
Theorem emit_needs_barrier t ptr len c u c' :
  emit t ptr len c = Some (u, c') →
  match pending_commit (agent c) with
  | None => world c' = world c ∧ memory c' = memory c ∧ last_action (agent c') = last_action (agent c)
            ∧ (termination_requested (agent c) = false → host_error (agent c') ≠ None)
  | Some p =>
      c' = c ∨ pending_commit (agent c') = None
               ∧ (causal_log (world c') = causal_log (world c)
                  ∨ ∃ e r, Log.append (causal_log (world c)) e = (r, causal_log (world c'))
                      ∧ Log.agent_id e = id (agent c) ∧ Log.hash_after e = pc_hash_after p
                      ∧ Log.parent_ids e = pc_parent_ids p
                      ∧ (is_ok r = false ↔ host_error (agent c') ≠ None))
  end.
Proof.
  intros E. unfold emit in E. run_step E. destruct (termination_requested (agent c)) eqn:Et.
  { run_step E. destruct (pending_commit _); auto. }
  destruct (host_error (agent c)) eqn:Eh.
  { run_step E. destruct (pending_commit (agent c)); [auto|]. split_and!; congruence. }
  destruct (pending_commit (agent c)) as [p|] eqn:Ep; [|by run_step E; split_and!].
  run_step E. destruct (in_bounds _ _ _); cbn [negb] in E; [|run_step E; right; split; [done|by left]].
  run_step E. right. match goal with Ea : Log.append _ _ = (?r, _) |- _ => destruct r as [x|x] end;
    run_step E; (split; [done|]); right; eexists _, _; cbn; rewrite ?Eh; split_and!; try done.
Qed.

Lemma put_cf_stored d cf k v d' :
  Store.put_cf d cf k v = (Ok (), d') →
  db_cf d' cf !! k = Some v ∧ ∀ cf', cf' ≠ cf → db_cf d' cf' = db_cf d cf'.
Proof.
  unfold Store.put_cf. intros Hw. split.
  - rewrite (db_write_ok _ _ _ _ _ Hw). cbn. rewrite decide_True by done. apply lookup_insert_eq.
  - intros cf' Hne. rewrite (db_write_ok _ _ _ _ _ Hw). cbn. by rewrite decide_False.
Qed.
Lemma emit_after_error t ptr len c u c' : host_error (agent c) ≠ None → emit t ptr len c = Some (u, c') → c' = c.
Proof.
  intros Hne E. unfold emit in E. run_step E. destruct (termination_requested _); [by run_step E|].
  destruct (host_error (agent c)); [by run_step E|done].
Qed.

(** A barrier that records no error. *)
Lemma commit_barrier_ok c u c1 :
  termination_requested (agent c) = false → host_error (agent c) = None →
  commit_barrier c = Some (u, c1) → host_error (agent c1) = None →
  ∃ h ms,
    db_cf (content_store (world c1)) "headers" !! Store.snapshot_id h = Some (ser h)
    ∧ Store.parent h = last_snapshot (agent c) ∧ Store.seq h = seq (agent c)
    ∧ db_cf (content_store (world c1)) "blocks" !! Store.data_hash h
      = Some (state_bytes (id (agent c)) (seq (agent c)))
    ∧ causal_log (world c1) = causal_log (world c)
    ∧ agent c1 = agent c <| last_snapshot := Some (Store.snapshot_id h) |> <| seq ::= λ n, u64 (n + 1) |>
        <| session_started_at_ms ::= λ t, if (t =? 0)%Z then ms else t |>
        <| pending_extra_causes := [] |>
        <| pending_commit := Some (mkPending (default (zeros 32) (last_snapshot (agent c)))
             (Store.snapshot_id h) (option_list (last_action (agent c)) ++ pending_extra_causes (agent c))
             ms (seq (agent c))) |>.
Proof.
  intros Ht Hh E Hh1. unfold commit_barrier in E. run_step E. rewrite Ht in E. run_step E.
  match goal with Eb : Store.put_block _ _ = (?r, _) |- _ => destruct r as [data_h|x] end;
    [|by run_step E].
  run_step E.
  match goal with Es : Store.put_snapshot _ _ = (?r, _) |- _ => destruct r as [snap|x] end;
    run_step E; [|done].
  apply Store.put_block_inv in Eb as (rb & Hpb & Hb). destruct (Hb _ eq_refl) as [-> ->].
  apply Store.put_snapshot_inv in Es as (rs & Hps & Hs). destruct (Hs _ eq_refl) as [-> ->].
  apply put_cf_stored in Hpb as [Hpb _], Hps as [Hps Hps'].
  eexists _, _. split_and!; [exact Hps|reflexivity..| |reflexivity|reflexivity].
  cbn. rewrite Hps' by done. exact Hpb.
Qed.
(** An emission that records no error. *)
Lemma emit_ok t ptr len c u c1 p :
  termination_requested (agent c) = false → host_error (agent c) = None →
  pending_commit (agent c) = Some p →
  emit t ptr len c = Some (u, c1) → host_error (agent c1) = None →
  ∃ e, Log.append (causal_log (world c)) e = (Ok (Log.action_id e), causal_log (world c1))
    ∧ Log.agent_id e = id (agent c) ∧ Log.hash_before e = pc_hash_before p
    ∧ Log.hash_after e = pc_hash_after p ∧ Log.parent_ids e = pc_parent_ids p
    ∧ content_store (world c1) = content_store (world c)
    ∧ agent c1 = agent c <| pending_commit := None |> <| last_action := Some (Log.action_id e) |>.
Proof.
  intros Ht Hh Hp E Hh1. unfold emit in E. run_step E. rewrite Ht, Hh, Hp in E. run_step E.
  destruct (in_bounds _ _ _); cbn [negb] in E; run_step E; [|done].
  match goal with Ea : Log.append _ _ = (?r, _) |- _ => destruct r as [x|x] end; run_step E; [|done].
  pose proof (Log.append_written _ _ _ _ Ea) as (-> & _).
  eexists. split_and!; [exact Ea|reflexivity..].
Qed.

(** C3: a commit barrier and the emission that follows it are one
    transaction.  If the cycle has recorded no error, the new snapshot is in the
    store, with the previous one as parent, the agent's sequence number, and a
    data block that holds the agent's identity and that number; exactly the
    entry that moves the agent from the old snapshot to the new one is in the
    log, and it cites the last action and then the pending causes in order; the
    agent is one step further, with nothing pending. *)
Theorem commit_emit_transaction t ptr len c u1 c1 u2 c2 :
  termination_requested (agent c) = false → host_error (agent c) = None →
  commit_barrier c = Some (u1, c1) → emit t ptr len c1 = Some (u2, c2) →
  host_error (agent c2) = None →
  ∃ h e,
    db_cf (content_store (world c2)) "headers" !! Store.snapshot_id h = Some (ser h)
    ∧ Store.parent h = last_snapshot (agent c) ∧ Store.seq h = seq (agent c)
    ∧ db_cf (content_store (world c2)) "blocks" !! Store.data_hash h
      = Some (state_bytes (id (agent c)) (seq (agent c)))
    ∧ Log.append (causal_log (world c)) e = (Ok (Log.action_id e), causal_log (world c2))
    ∧ Log.agent_id e = id (agent c)
    ∧ Log.hash_before e = default (zeros 32) (last_snapshot (agent c))
    ∧ Log.hash_after e = Store.snapshot_id h
    ∧ Log.parent_ids e = option_list (last_action (agent c)) ++ pending_extra_causes (agent c)
    ∧ last_snapshot (agent c2) = Some (Store.snapshot_id h)
    ∧ last_action (agent c2) = Some (Log.action_id e)
    ∧ seq (agent c2) = u64 (seq (agent c) + 1)
    ∧ pending_commit (agent c2) = None ∧ pending_extra_causes (agent c2) = [].
Proof.
  intros Ht Hh E1 E2 Hh2.
  destruct (host_error (agent c1)) as [x|] eqn:Hh1.
  { apply emit_after_error in E2 as ->; congruence. }
  destruct (commit_barrier_ok _ _ _ Ht Hh E1 Hh1) as (h & ms & Hps & Hpar & Hseq & Hblk & El & Eag).
  destruct (emit_ok t ptr len c1 u2 c2 (mkPending (default (zeros 32) (last_snapshot (agent c)))
    (Store.snapshot_id h) (option_list (last_action (agent c)) ++ pending_extra_causes (agent c))
    ms (seq (agent c)))) as (e & Ea & Eid & Eb & Eaf & Epar & Es & Eag2); [by rewrite Eag|done|by rewrite Eag|done|done|].
  rewrite El in Ea. exists h, e. rewrite Es, Eag2. rewrite Eag in *. by split_and!.
Qed.

(** ** Causal citations *)

(** C15: a citation is accepted exactly when the agent is alive, has cited
    fewer than 16 causes since its last commit, points inside its memory, and
    names a logged action that is its own or for which it holds a handle in its
    tenant's store; then, and only then, the action is added to the causes of
    the next commit, and nothing else ever changes. *)
Theorem agent_add_cause_spec ptr c z c' :
  agent_add_cause ptr c = Some (z, c') →
  let action := mem_read (u64 ptr) 32 c in
  let s := agent c in
  (z = 0%Z ↔
    termination_requested s = false ∧ length (pending_extra_causes s) < MAX_EXTRA_CAUSES
    ∧ in_bounds (u64 ptr) 32 (data_size c) = true
    ∧ ∃ e, Log.get (causal_log (world c)) action = Ok (Some e)
        ∧ (Log.agent_id e = id s
           ∨ may_cite (handle_heap (world c)) (cause_handle_store s) (id s) action = true))
  ∧ c' = (if decide (z = 0)%Z
          then c <| agent ::= λ s, s <| pending_extra_causes ::= λ l, l ++ [action] |> |> else c).
Proof.
  intros E action s. unfold agent_add_cause in E. run_step E.
  destruct (termination_requested (agent c)) eqn:Et.
  { run_step E. split; [split; [done|]|done]. unfold s. rewrite Et. by intros (? & _). }
  case_decide as Hn.
  { run_step E. split; [split; [done|]|done]. unfold s. intros (_ & ? & _). lia. }
  run_step E. destruct (in_bounds _ _ _) eqn:Eb; cbn [negb] in E.
  2: { run_step E. split; [split; [done|]|done]. by intros (_ & _ & ? & _). }
  run_step E. unfold log_get in E. fold action in E.
  destruct (Log.get (causal_log (world c)) action) as [[e|]|x] eqn:Eg.
  2,3: run_step E; split; [split; [done|]|done]; by intros (_ & _ & _ & ? & ? & _).
  run_step E. unfold holds_handle in E. fold action s in E.
  destruct (bool_decide _ || _) eqn:Ea; run_step E.
  - split; [split; [intros _|done]|done]. split_and!; [done|unfold s; lia|done|].
    exists e. split; [done|]. apply orb_true_iff in Ea as [Ea%bool_decide_eq_true|Ea]; auto.
  - split; [split; [done|]|done]. intros (_ & _ & _ & e' & [= <-] & Hor).
    apply orb_false_iff in Ea as [Ea%bool_decide_eq_false Ea']. destruct Hor; congruence.
Qed.

(** ** Self-rollback *)

Lemma rollback_path_inv tip t c r c' :
  rollback_path tip t c = Some (r, c') → Store.rollback_path (content_store (world c)) tip t = Some r ∧ c' = c.
Proof. unfold rollback_path. destruct (Store.rollback_path _ _ _); [|done]. by intros [= <- <-]. Qed.
Lemma append_rollback_inv e target c u c' :
  append_rollback e target c = Some (u, c') →
  ∃ r, Log.append (causal_log (world c)) e = (r, causal_log (world c'))
    ∧ content_store (world c') = content_store (world c)
    ∧ agent c' = match r with
                 | Ok a => agent c <| last_snapshot := Some target |> <| last_action := Some a |>
                 | Err _ => agent c
                 end.
Proof.
  intros E. unfold append_rollback in E. run_step E.
  match goal with Ea : Log.append _ _ = (?r, _) |- _ => exists r; destruct r end; by run_step E.
Qed.

(** C11: a self-rollback returns on every linked store.  It is refused
    without any effect when the agent has ended or asks for a depth outside 1
    to 3, has no snapshot, or has too short a history, or when the chain of
    parents does not lead to the target; otherwise the snapshot moves to the
    ancestor whose sequence number is exactly the target, the log receives the
    one entry that says so, and the sequence number and the store stay. *)
Theorem agent_self_rollback_spec depth c :
  Store.linked (content_store (world c)) →
  let s := agent c in let target := (seq s - 1 - depth)%Z in
  (∃ z c', agent_self_rollback depth c = Some (z, c'))
  ∧ ∀ z c', agent_self_rollback depth c = Some (z, c') →
    if termination_requested s || bool_decide (depth < 1 ∨ depth > 3)%Z then z = (-1)%Z ∧ c' = c
    else match last_snapshot s with
    | None => z = (-2)%Z ∧ c' = c
    | Some tip =>
        if (seq s <? 1 + depth)%Z then z = (-3)%Z ∧ c' = c
        else ∃ r, Store.walk (content_store (world c)) target tip r ∧
          match r with
          | Err _ => z = (-4)%Z ∧ c' = c
          | Ok path => ∃ x h e r',
              last path = Some x
              ∧ Store.get_header (content_store (world c)) x = Ok (Some h) ∧ Store.seq h = target
              ∧ z = i32 target ∧ seq (agent c') = seq s
              ∧ content_store (world c') = content_store (world c)
              ∧ Log.append (causal_log (world c)) e = (r', causal_log (world c'))
              ∧ Log.hash_before e = tip ∧ Log.hash_after e = x
              ∧ Log.parent_ids e = option_list (last_action s)
              ∧ last_snapshot (agent c') = Some (if is_ok r' then x else tip)
          end
    end.
Proof.
  intros Hl%Store.linked_decreasing s target. unfold agent_self_rollback. split.
  - unfold mbind, SM_bind, gets. fold s. destruct (termination_requested s); [by eexists _, _|].
    case_decide; [by eexists _, _|]. destruct (last_snapshot s) as [tip|]; [|by eexists _, _].
    destruct (_ <? _)%Z; [by eexists _, _|]. unfold rollback_path. fold target.
    destruct (Store.walk_total _ target tip Hl) as [r Hr].
    rewrite (proj2 (Store.rollback_path_walk _ _ _ _ Hl) Hr). cbn. destruct r as [path|]; [|by eexists _, _].
    unfold clock_ms, clock_us, on_world, append_rollback, mbind, SM_bind, append, on_world. cbn.
    destruct (now_ms _ _). destruct (now_us _ _). cbn. destruct (Log.append _ _) as [[a|] d]; by eexists _, _.
  - intros z c' E. run_step E. destruct (termination_requested (agent c)) eqn:Et; unfold s; rewrite Et.
    { by run_step E. }
    cbn [orb]. destruct (decide _) as [Hd|Hd] in E.
    { rewrite bool_decide_eq_true_2 by done. by run_step E. }
    rewrite bool_decide_eq_false_2 by done.
    destruct (last_snapshot (agent c)) as [tip|] eqn:Es; [|by run_step E].
    destruct (_ <? _)%Z; [by run_step E|]. run_step E.
    apply rollback_path_inv in E0 as [Ew ->]. pose proof Ew as Ew'%(Store.rollback_path_walk _ _ _ _ Hl).
    eexists. split; [exact Ew'|]. destruct a as [path|]; [|by run_step E]. run_step E.
    apply append_rollback_inv in E0 as (r' & Ea & Est & Eag).
    destruct (Store.rollback_path_last _ _ _ _ Ew) as (x & h & Hx & Hh & Hseq).
    exists x, h. eexists _, r'. rewrite Hx in Ea, Eag. cbn in Est, Ea, Eag.
    split_and!; try done; [destruct r'; by rewrite Eag|].
    destruct r'; rewrite Eag; cbn; [done|by rewrite Es].
Qed.

(** ** The capability gate of the key-value store *)

Lemma emit_cap_denied_frame a b d c u c' :
  emit_cap_denied a b d c = Some (u, c') →
  kv_stores (world c') = kv_stores (world c) ∧ cap_stores (world c') = cap_stores (world c)
  ∧ content_store (world c') = content_store (world c) ∧ memory c' = memory c
  ∧ kv_store (agent c') = kv_store (agent c).
Proof.
  intros E. unfold emit_cap_denied in E. run_step E.
  assert (∃ w', c0 = mkCaller w' (agent c) (memory c) ∧ kv_stores w' = kv_stores (world c)
    ∧ cap_stores w' = cap_stores (world c) ∧ content_store w' = content_store (world c)) as (w' & -> & E1 & E2 & E3).
  { destruct (cap_denied_witness (agent c)); [|run_step E0; exists (world c); by destruct c].
    unfold on_world in E0. injection E0 as _ <-. by eexists. }
  clear E0.
  destruct (limiter_step _ _ _) as [[[emit agg] count] l]. run_step E.
  destruct emit; cbn [when] in E; [|by run_step E]. unfold record_entry in E. run_step E.
  match goal with Ea : Log.append _ _ = (?r, _) |- _ => destruct r end; by run_step E.
Qed.

(** C16: the key-value store is reached through capabilities only.  A write
    that succeeds is authorised by a capability of the agent and stores the
    value under the resource, nothing else; a read that succeeds is authorised
    and delivers at most the value of the resource; a call that fails leaves
    the store and the memory of the agent as they were. *)
Theorem store_access_is_gated c :
  (∀ rp rl cap vp vl z c', agent_store_put rp rl cap vp vl c = Some (z, c') →
    memory c' = memory c ∧ cap_stores (world c') = cap_stores (world c) ∧
    if decide (z = 0)%Z then
      ∃ resource, from_utf8 (mem_read (u64 rp) (u64 rl) c) = Some resource
        ∧ cap_check cap resource perm_write c = true
        ∧ kv_stores (world c') = alter (insert resource (mem_read (u64 vp) (u64 vl) c))
            (kv_store (agent c)) (kv_stores (world c))
    else kv_stores (world c') = kv_stores (world c))
  ∧ (∀ rp rl cap out z c', agent_store_get rp rl cap out c = Some (z, c') →
    kv_stores (world c') = kv_stores (world c) ∧ cap_stores (world c') = cap_stores (world c) ∧
    if decide (z = 0)%Z then
      ∃ resource, from_utf8 (mem_read (u64 rp) (u64 rl) c) = Some resource
        ∧ cap_check cap resource perm_read c = true
        ∧ match kv_get resource c with
          | None => memory c' = memory c
          | Some v => in_bounds (u64 out) (Z.of_nat (length v)) (data_size c) = true
              ∧ mem_read (u64 out) (Z.of_nat (length v)) c' = v
          end
    else memory c' = memory c).
Proof.
  split.
  - intros rp rl cap vp vl z c' E. unfold agent_store_put in E. run_step E.
    destruct (in_bounds (u64 rp) _ _); cbn [negb] in E; [|by run_step E]. run_step E.
    destruct (from_utf8 _) as [resource|] eqn:Er; [|by run_step E].
    destruct (in_bounds (u64 vp) _ _); cbn [negb] in E; [|by run_step E]. run_step E.
    destruct (cap_check cap resource perm_write c) eqn:Ek; cbn [negb] in E; run_step E.
    + injection E0 as _ <-. split_and!; [done..|]. cbn. by exists resource.
    + apply emit_cap_denied_frame in E0. cbn. naive_solver.
  - intros rp rl cap out z c' E. unfold agent_store_get in E. run_step E.
    destruct (in_bounds (u64 rp) _ _); cbn [negb] in E; [|by run_step E]. run_step E.
    destruct (from_utf8 _) as [resource|] eqn:Er; [|by run_step E]. run_step E.
    destruct (cap_check cap resource perm_read c) eqn:Ek; cbn [negb] in E; run_step E.
    + destruct (kv_get resource c) as [v|] eqn:Ev; [|run_step E; split_and!; [done..|]; cbn; exists resource; by rewrite Ev].
      destruct (in_bounds (u64 out) _ _) eqn:Eo; [|by run_step E]. run_step E.
      injection E0 as _ <-. split_and!; [done..|]. cbn. exists resource. rewrite Ev. split_and!; [done..|].
      apply in_bounds_le in Eo. unfold mem_read, data_size in *. cbn. rewrite Nat2Z.id.
      rewrite drop_app_length' by (rewrite length_take; lia). by rewrite take_app_length'.
    + apply emit_cap_denied_frame in E0. cbn. naive_solver.
Qed.

End spec.

(** ** One cycle of the concrete agent *)

(** The observable outcome of a computation. *)
Definition outcome {S A B} (f : S → B) (m : option (A * S)) : option B := f ∘ snd <$> m.
Lemma outcome_Some {S A B} (f : S → B) (m : option (A * S)) b :
  outcome f m = Some b → ∃ a s, m = Some (a, s) ∧ f s = b.
Proof. destruct m as [[a s]|]; [|done]. intros [= <-]. eauto. Qed.

Lemma demo_cycle :
  outcome (λ c, host_error (agent c)) (commit_barrier demo_caller ≫= λ '(_, c), emit 1 0 4 c) = Some None.
Proof. reflexivity. Qed.

Lemma emit_needs_barrier_witness :
  ∃ u c', emit 1 0 4 demo_caller = Some (u, c') ∧ world c' = world demo_caller ∧ host_error (agent c') ≠ None.
Proof.
  destruct (emit 1 0 4 demo_caller) as [[u c']|] eqn:E; [|discriminate E]. exists u, c'. split; [done|].
  destruct (emit_needs_barrier 1 0 4 demo_caller u c' E) as (Hw & _ & _ & Hh). split; [done|by apply Hh].
Defined.
Lemma commit_emit_transaction_witness :
  ∃ c2 h e, Store.seq h = 0%Z ∧ Store.parent h = None
    ∧ last_snapshot (agent c2) = Some (Store.snapshot_id h) ∧ Log.hash_after e = Store.snapshot_id h
    ∧ last_action (agent c2) = Some (Log.action_id e) ∧ seq (agent c2) = u64 1%Z.
Proof.
  pose proof demo_cycle as H. destruct (commit_barrier demo_caller) as [[u1 c1]|] eqn:E1; [|discriminate H].
  destruct (outcome_Some _ _ _ H) as (u2 & c2 & E2 & Hh). exists c2.
  destruct (commit_emit_transaction 1 0 4 demo_caller u1 c1 u2 c2 eq_refl eq_refl E1 E2 Hh)
    as (h & e & _ & Hp & Hs & _ & _ & _ & _ & Ha & _ & Hl & Hla & Hq & _).
  exists h, e. split_and!; [exact Hs|exact Hp|exact Hl|exact Ha|exact Hla|exact Hq].
Defined.
Lemma agent_add_cause_spec_witness :
  ∃ c', agent_add_cause 0 demo_caller = Some ((-3)%Z, c') ∧ c' = demo_caller.
Proof.
  assert (fst <$> agent_add_cause 0 demo_caller = Some (-3)%Z) as Hz by reflexivity.
  destruct (agent_add_cause 0 demo_caller) as [[z c']|] eqn:E; [|discriminate Hz].
  injection Hz as ->. exists c'. split; [done|].
  apply (agent_add_cause_spec 0 demo_caller (-3) c' E).
Defined.

(** An agent two snapshots into its history. *)
Definition demo_back : Caller :=
  mkCaller (demo_world <| content_store := Store.demo_s3 |>)
    (demo_agent <| seq := 6%Z |> <| last_snapshot := Some (Store.snapshot_id Store.demo_h1) |>) (zeros 64).
Lemma agent_self_rollback_spec_witness : ∃ z c', agent_self_rollback 1 demo_back = Some (z, c').
Proof. exact (proj1 (agent_self_rollback_spec 1 demo_back Store.demo_linked)). Defined.
Lemma store_access_is_gated_witness :
  ∃ c', agent_store_put 0 0 7 0 4 demo_caller = Some ((-1)%Z, c')
    ∧ kv_stores (world c') = kv_stores (world demo_caller).
Proof.
  assert (fst <$> agent_store_put 0 0 7 0 4 demo_caller = Some (-1)%Z) as Hz by reflexivity.
  destruct (agent_store_put 0 0 7 0 4 demo_caller) as [[z c']|] eqn:E; [|discriminate Hz].
  injection Hz as ->. exists c'. split; [done|].
  apply (proj1 (store_access_is_gated demo_caller) 0 0 7 0 4 (-1) c')%Z. exact E.
Defined.
Lemma denied_events_bounded_witness :
  true ∈ denials limiter_default ((1000%Z, ""%string) :: replicate 100 (1500, ""%string)%Z).
Proof.
  apply (denied_events_bounded limiter_default 1000%Z ""%string (replicate 100 (1500, ""%string)%Z));
    [by vm_compute|by apply Forall_replicate; vm_compute|done|by rewrite length_replicate].
Defined.

End Spec.
