(* ===== verification/AgentSteps.v ===== *)
(** AgentSteps: the abstract machine behind an agent's state.

    Every change that [poc/runtime/src/actor.rs] makes to an [AgentState] is one
    of the steps of [host_step], with the guard under which it is allowed; the
    message loop adds the injection of a cause.  The lemmas show that each
    logging method and each host function follows the machine, so that an
    invariant of agents is proved by rule induction, once per step instead of
    once per function. *)
From Stdlib Require Import String.
From S2P Require Import Prelude Storage Capabilities ContentStore CausalLog InferQueue Clock CauseHandles Actor ActorSafety ActorSpec.

Module Steps.
Import Clocks Watchdog Handles Actor Safety Spec.

Section machine.
Context `{R : RocksDB, H256 : Sha256, BH : Bincode Store.SnapshotHeader,
          BE : Bincode Log.LogEntry, MP : Msgpack Log.EmitEnvelope}.
Abbreviation host := (SM Caller).
Abbreviation InferFn :=
  (AgentId → bytes → Z → SM World (result Queue.InferError Queue.InferResponse * Z)).

(** ** The machine *)

(** A commit: the agent moves to the snapshot [snap] at time [ms]. *)
Definition committed (snap : Hash) (ms : Z) (s : AgentState) : AgentState :=
  s <| last_snapshot := Some snap |> <| seq := u64 (seq s + 1) |>
    <| session_started_at_ms ::= λ t, if (t =? 0)%Z then ms else t |>
    <| pending_extra_causes := [] |>
    <| pending_commit := Some (mkPending (default (zeros 32) (last_snapshot s)) snap
         (option_list (last_action s) ++ pending_extra_causes s) ms (seq s)) |>.

Inductive host_step : relation AgentState :=
| step_log a s : host_step s (s <| last_action := Some a |>)
| step_lifecycle l s :
    lifecycle s ≠ Terminated ∨ l = Terminated → host_step s (s <| lifecycle := l |>)
| step_await s : termination_requested s = false → host_step s (s <| lifecycle := AwaitingValidation |>)
| step_terminate s : host_step s (s <| termination_requested := true |>)
| step_commit snap ms s : termination_requested s = false → host_step s (committed snap ms s)
| step_take s : host_step s (s <| pending_commit := None |>)
| step_error e s : host_step s (s <| host_error := e |>)
| step_cause a s :
    termination_requested s = false → length (pending_extra_causes s) < MAX_EXTRA_CAUSES →
    host_step s (s <| pending_extra_causes := pending_extra_causes s ++ [a] |>)
| step_rollback snap s : host_step s (s <| last_snapshot := Some snap |>)
| step_verdict v s : lifecycle s ≠ Terminated → host_step s (s <| last_verdict := Some v |>)
| step_session s :
    host_step s (s <| session_id := u64 (session_id s + 1) |> <| session_start_seq := seq s |>
                   <| session_started_at_ms := 0%Z |>)
| step_denied l s : host_step s (s <| cap_denied := l |>).
Abbreviation host_steps := (rtc host_step).

(** ** Invariants by rule induction *)

(** What no step touches. *)
Record same_identity (s s' : AgentState) : Prop := {
  si_id : id s' = id s;
  si_tenant : tenant s' = tenant s;
  si_handles : cause_handle_store s' = cause_handle_store s;
  si_registry : cause_handle_registry s' = cause_handle_registry s;
  si_caps : cap_store s' = cap_store s;
  si_own : own_caps s' = own_caps s;
  si_profile : agent_profile s' = agent_profile s;
  si_parent : parent_agent_id s' = parent_agent_id s;
  si_clock : clock s' = clock s;
  si_actions : session_max_actions s' = session_max_actions s;
  si_duration : session_max_duration_ms s' = session_max_duration_ms s }.
#[export] Instance same_identity_preorder : PreOrder same_identity.
Proof. split; [done|]. intros s1 s2 s3 [] []. split; congruence. Qed.
Lemma steps_identity s s' : host_steps s s' → same_identity s s'.
Proof. induction 1 as [|s s1 s' Hs _ IH]; [done|]. etrans; [|exact IH]. by destruct Hs. Qed.

(** An agent that asked to end is terminated for good. *)
Definition ended (s : AgentState) : Prop := termination_requested s = true ∧ lifecycle s = Terminated.
Lemma steps_ended s s' : host_steps s s' → ended s → ended s'.
Proof.
  induction 1 as [|s s1 s' Hs _ IH]; [done|]. intros [Ht Hl]. apply IH.
  destruct Hs as [|l s [?| ->]| | | | | | | | | |]; split; cbn; congruence.
Qed.

(** The causes that wait never exceed the bound, or what was there before. *)
Definition few (n : nat) (s : AgentState) : Prop := length (pending_extra_causes s) ≤ n.
Lemma steps_few n s s' : MAX_EXTRA_CAUSES ≤ n → host_steps s s' → few n s → few n s'.
Proof.
  unfold few. intros Hn. induction 1 as [|s s1 s' Hs _ IH]; [done|]. intros Hl. apply IH.
  destruct Hs; cbn; try done; [lia|]. rewrite length_app. cbn. unfold MAX_EXTRA_CAUSES in *. lia.
Qed.

(** Only a commit moves the sequence number, one step at a time. *)
Lemma steps_seq s s' : host_steps s s' → ∃ n, 0 ≤ n ∧ seq s' = if decide (n = 0) then seq s else u64 (seq s + Z.of_nat n).
Proof.
  induction 1 as [|s s1 s' Hs _ (n & _ & IH)]; [by exists 0|].
  assert (seq s1 = seq s ∨ seq s1 = u64 (seq s + 1)) as [E|E] by (destruct Hs; cbn; auto).
  - exists n. rewrite E in IH. split; [lia|done].
  - exists (S n). split; [lia|]. rewrite decide_False by lia. rewrite IH, E.
    case_decide; subst; [done|]. unfold wrap. rewrite Zplus_mod_idemp_l. f_equal. lia.
Qed.

(** ** Following the machine *)

Definition follows {A} (m : host A) : Prop :=
  ∀ c a c', m c = Some (a, c') → host_steps (agent c) (agent c').

Lemma f_bind {A B} (m : host A) (f : A → host B) : follows m → (∀ a, follows (f a)) → follows (m ≫= f).
Proof. intros Hm Hf c b c' (a & c1 & E & E')%bind_inv. etrans; [by eapply Hm|by eapply Hf]. Qed.
Lemma f_ret {A} (a : A) : follows (mret a).
Proof. by intros c b c' [-> ->]%ret_inv. Qed.
Lemma f_gets {A} (f : Caller → A) : follows (gets f).
Proof. by intros c b c' [-> ->]%gets_inv. Qed.
(** A read of the agent, whose value is the state in which the rest runs. *)
Lemma f_agent {B} (f : AgentState → host B) :
  (∀ c b c', f (agent c) c = Some (b, c') → host_steps (agent c) (agent c')) → follows (gets agent ≫= f).
Proof. intros Hf c b c' (a & c1 & [-> ->]%gets_inv & E)%bind_inv. by apply Hf in E. Qed.
Lemma f_when b (m : host ()) : follows m → follows (when b m).
Proof. destruct b; [done|]. intros _. apply f_ret. Qed.
Lemma f_set f : (∀ s, host_steps s (f s)) → follows (set_agent f).
Proof. intros Hf c a c' ->%set_agent_inv. apply Hf. Qed.
Lemma f_step f : (∀ s, host_step s (f s)) → follows (set_agent f).
Proof. intros Hf. apply f_set. intros s. by apply rtc_once. Qed.
Lemma f_world {A} (f : World → A * World) : follows (on_world f).
Proof. intros c a c' E. unfold on_world in E. destruct (f (world c)). by injection E as <- <-. Qed.
Lemma f_clock_ms : follows clock_ms.
Proof. intros c. apply f_world. Qed.
Lemma f_clock_us : follows clock_us.
Proof. intros c. apply f_world. Qed.
Lemma f_kv k v : follows (kv_insert k v).
Proof. intros c. apply f_world. Qed.
Lemma f_modify f : (∀ c, agent (f c) = agent c) → follows (modify f).
Proof. intros Hf c a c' [= <- <-]. by rewrite Hf. Qed.
Lemma f_mem ptr b : follows (mem_write ptr b).
Proof. by apply f_modify. Qed.
Lemma f_await {A} (m : SM World A) : follows (await m).
Proof. intros c a c' E. unfold await in E. destruct (m (world c)) as [[??]|]; [|done]. by injection E as <- <-. Qed.
Lemma f_last_action a : follows (set_agent (λ s, s <| last_action := Some a |>)).
Proof. apply f_step. intros s. apply step_log. Qed.
Lemma f_fail e : follows (fail_host e).
Proof. apply f_step. intros s. apply step_error. Qed.
Lemma f_limiter l : follows (set_agent (λ s, s <| cap_denied := l |>)).
Proof. apply f_step. intros s. apply step_denied. Qed.
Lemma f_take : follows (set_agent (λ s, s <| pending_commit := None |>)).
Proof. apply f_step. intros s. apply step_take. Qed.
Lemma f_rollback_path h t : follows (rollback_path h t).
Proof. intros c a c' E. unfold rollback_path in E. destruct (Store.rollback_path _ _ _); [|done]. by injection E as <- <-. Qed.
End machine.

Create HintDb follows.
#[export] Hint Resolve f_ret f_gets f_when f_world f_clock_ms f_clock_us f_kv f_mem f_await f_last_action
  f_fail f_limiter f_take f_rollback_path : follows.
#[export] Hint Resolve f_bind | 5 : follows.
Ltac follows := repeat first
  [ solve [eauto with follows] | apply f_bind; [solve [follows]|intros ?]
  | apply f_when | progress case_match ].

Section functions.
Context `{R : RocksDB, H256 : Sha256, BH : Bincode Store.SnapshotHeader,
          BE : Bincode Log.LogEntry, MP : Msgpack Log.EmitEnvelope}.
Abbreviation host_steps := (rtc host_step).

(** ** The logging methods *)

Lemma f_record e : follows (record_entry e).
Proof. unfold record_entry, append. follows. Qed.
Hint Resolve f_record : follows.
Lemma f_marker t payload : follows (log_marker t payload).
Proof. unfold log_marker. follows. Qed.
Hint Resolve f_marker : follows.
Lemma f_lifecycle l : follows (log_lifecycle_event l).
Proof.
  apply f_agent. intros c b c'. destruct (_ && _) eqn:E; [by intros [-> ->]%ret_inv|].
  intros (a & c1 & ->%set_agent_inv & H)%bind_inv. eapply rtc_l; [|by eapply f_marker].
  apply step_lifecycle. apply andb_false_iff in E as [E|E]; apply bool_decide_eq_false in E; [by left|].
  right. by destruct (decide (l = Terminated)).
Qed.
Lemma f_crash cause : follows (log_agent_crash cause).
Proof. apply f_bind; [apply f_marker|intros _]. apply f_step. intros s. apply step_lifecycle. by right. Qed.
Lemma f_verdict v : follows (record_validation_response v).
Proof.
  apply f_agent. intros c b c'. case_decide; [by intros [-> ->]%ret_inv|].
  intros (a & c1 & ->%set_agent_inv & E)%bind_inv. eapply rtc_l; [by apply step_verdict|].
  eapply (f_bind _ (λ _, log_lifecycle_event Active)) in E; [exact E|apply f_marker|intros _; apply f_lifecycle].
Qed.
Lemma f_session_boundary : follows log_session_boundary.
Proof.
  apply f_bind; [apply f_marker|intros _]. apply f_bind; [|intros _; apply f_lifecycle].
  apply f_step. intros s. apply step_session.
Qed.
Hint Resolve f_lifecycle f_crash f_verdict f_session_boundary : follows.
Lemma f_denied a b d : follows (emit_cap_denied a b d).
Proof. unfold emit_cap_denied. follows. Qed.
Hint Resolve f_denied : follows.

(** ** The host functions *)

Lemma f_commit_barrier : follows commit_barrier.
Proof.
  apply f_agent. intros c b c'. destruct (termination_requested _) eqn:Et; [by intros [-> ->]%ret_inv|].
  intros H. run_step H. destruct a1 as [data_h|e]; [|by apply (f_fail _ _ _ _ H)].
  run_step H. destruct a1 as [snap|e]; [|by apply (f_fail _ _ _ _ H)].
  apply set_agent_inv in H as ->. apply rtc_once. cbn. by apply step_commit.
Qed.
Lemma f_add_cause ptr : follows (agent_add_cause ptr).
Proof.
  apply f_agent. intros c b c'. destruct (termination_requested _) eqn:Et; [by intros [-> ->]%ret_inv|].
  case_decide as Hn; [by intros [-> ->]%ret_inv|]. intros H. run_step H.
  destruct (negb _); [by apply ret_inv in H as [-> ->]|]. run_step H.
  destruct (log_get _ _) as [[e|]|]; [|by apply ret_inv in H as [-> ->]..]. run_step H.
  destruct (_ || _); [|by apply ret_inv in H as [-> ->]]. run_step H.
  apply rtc_once. cbn. apply step_cause; [done|]. unfold MAX_EXTRA_CAUSES in *. lia.
Qed.
Lemma f_append_rollback e snap : follows (append_rollback e snap).
Proof.
  unfold append_rollback, append. follows. apply f_set. intros s.
  eapply rtc_l; [apply step_rollback|]. apply rtc_once. apply step_log.
Qed.
Lemma f_self_rollback depth : follows (agent_self_rollback depth).
Proof. unfold agent_self_rollback. follows. apply f_bind; [apply f_append_rollback|follows]. Qed.
Lemma f_request_validation risk : follows (agent_request_validation risk).
Proof.
  apply f_agent. intros c b c'. destruct (termination_requested _) eqn:Et; [by intros [-> ->]%ret_inv|].
  case_decide as Hr; [by intros [-> ->]%ret_inv|]. intros H. run_step H.
  destruct a1 as [x|e]; run_step E; [|done].
  eapply rtc_l; [apply (step_log x)|]. apply rtc_once.
  assert (termination_requested (agent c <| last_action := Some x |>) = false) as Et' by exact Et.
  exact (step_await _ Et').
Qed.
Lemma f_emit t ptr len : follows (emit t ptr len).
Proof. unfold emit, append. follows. Qed.
Lemma f_copy_out b p : follows (copy_out b p).
Proof. unfold copy_out. follows. Qed.
Lemma f_infer_finish s s2 n d bp bc lo r : follows (infer_finish s s2 n d bp bc lo r).
Proof. unfold infer_finish. destruct r as [?|[]]; follows. Qed.
Hint Resolve f_commit_barrier f_add_cause f_append_rollback f_self_rollback f_request_validation f_emit
  f_copy_out f_infer_finish : follows.

(** Each host function follows the machine. *)
Lemma f_host_fn infer_fn f : follows (host_fn infer_fn f).
Proof.
  destruct f; cbn [host_fn]; unfold no_result, agent_checkpoint, agent_terminate, agent_introspect,
    agent_session_info, agent_get_verdict, agent_check_cap, agent_store_get, agent_store_put, agent_infer;
    follows.
  apply f_bind; [|follows]. apply f_bind; [|follows]. apply f_step. intros s. apply step_terminate.
Qed.

End functions.

#[export] Hint Resolve f_record f_marker f_lifecycle f_crash f_verdict f_session_boundary f_append_rollback
  f_host_fn : follows.

End Steps.
