(* ===== verification/RunLoop.v ===== *)
(** RunLoop: one agent's message loop.

    Models the rest of [poc/runtime/src/actor.rs]: [process_one], the
    messages, [run_loop], the builder, and the restoration of an evicted agent,
    with the errors of [error.rs].

    A WASM module is code outside the repository: its behaviour is a parameter.
    One call of its [process] export is a finite tree ([Guest]): the calls of
    host functions it makes, each with the linear memory at that moment, and how
    it ends; the watchdog interrupts a call that would not end.  Other tasks may
    act on the shared world between two steps ([Others]); [run_loop] meets them
    between two messages too.  The inbox is the list of the events that
    [inbox.recv()] and the timer of a validation deliver; its end is the closing
    of the channel.  The logging macros of [tracing] are left out. *)
From Stdlib Require Import String.
From S2P Require Import Prelude Storage Capabilities ContentStore CausalLog InferQueue Clock CauseHandles Actor.

Module Loop.
Import Clocks Watchdog Handles Actor.

Section ops.
Context `{R : RocksDB, H256 : Sha256, BH : Bincode Store.SnapshotHeader,
          BE : Bincode Log.LogEntry, MP : Msgpack Log.EmitEnvelope}.
(** The state of a module instance besides its linear memory. *)
Context {G : Type}.

Abbreviation store_error := (Store.StoreError db_err (bin_err Store.SnapshotHeader)).
Abbreviation log_error := (Log.LogError db_err (bin_err Log.LogEntry)).
Abbreviation host := (SM Caller).
Abbreviation InferFn :=
  (AgentId → bytes → Z → SM World (result Queue.InferError Queue.InferResponse * Z)).

(** ** Errors *)

(** The [wasmtime::Error]s of the runtime: a trap ([true] for
    [Trap::Interrupt]), the message of a host function, a failed flush, and a
    module that cannot be instantiated. *)
Inductive WasmError :=
| WasmTrap (interrupt : bool)
| WasmMsg (e : HostError)
| AppendPending (e : log_error)
| WasmLink.
Inductive RuntimeError :=
| Wasmtime (e : WasmError)
| StoreFailed (e : store_error)
| LogFailed (e : log_error)
| MemoryOutOfBounds
| MessageTooLarge (n : Z)
| SpawnFailed.

Definition classify_process_one_error (err : RuntimeError) : CrashCause :=
  match err with
  | Wasmtime (WasmTrap true) => WatchdogTrap
  | _ => ProcessFailed
  end.

(** ** Modules *)

Inductive Guest :=
| Returns (g : G) (m : bytes)
| Traps (interrupt : bool)
| Calls (m : bytes) (f : host_call) (k : Z → bytes → Guest)
| Others (run : SM World ()) (k : Guest).

(** [process g deadline len m]: the call [process(0, len)] with memory [m], to
    be interrupted after [deadline] ticks.  [instantiate infer]: with or without
    the import [agent_infer]. *)
Record WasmModule := mkModule {
  instantiate : bool → result WasmError (G * bytes);
  process : G → Z → Z → bytes → Guest }.

Definition set_memory (m : bytes) : host () := modify (λ c, c <| memory := m |>).

Fixpoint run_guest (infer_fn : InferFn) (p : Guest) : host (result WasmError G) :=
  match p with
  | Returns g m => set_memory m;; mret (Ok g)
  | Traps interrupt => mret (Err (WasmTrap interrupt))
  | Calls m f k =>
      set_memory m;;
      z ← host_fn infer_fn f;
      m ← gets memory;
      run_guest infer_fn (k z m)
  | Others run k => await run;; run_guest infer_fn k
  end.

(** ** One message *)

Definition MAX_MSG : Z := 65536.

(** A commit without emission is logged without payload. *)
Definition flush_pending : host (result RuntimeError ()) :=
  s ← gets agent;
  match pending_commit s with
  | None => mret (Ok ())
  | Some pending =>
      set_agent (λ s, s <| pending_commit := None |>);;
      r ← append (Log.mkEntry (id s) (pc_ts_ms pending) (pc_parent_ids pending)
                    (pc_hash_before pending) (pc_hash_after pending) None);
      match r with
      | Ok a => set_agent (λ s, s <| last_action := Some a |>);; mret (Ok ())
      | Err e => mret (Err (Wasmtime (AppendPending e)))
      end
  end.

Definition session_elapsed : host Z :=
  s ← gets agent;
  if (0 <? session_started_at_ms s)%Z then
    t ← clock_ms; mret (saturating_sub t (session_started_at_ms s))
  else mret 0%Z.
Definition check_session_bounds : host () :=
  elapsed ← session_elapsed;
  s ← gets agent;
  let actions_exceeded := (session_max_actions s <=? action_count s)%Z in
  let duration_exceeded := ((0 <? session_max_duration_ms s) && (session_max_duration_ms s <=? elapsed))%Z in
  when (actions_exceeded || duration_exceeded) log_session_boundary.

(** What [process_one] does once the module has returned. *)
Definition end_cycle : host (result RuntimeError ()) :=
  s ← gets agent;
  match host_error s with
  | Some e => set_agent (λ s, s <| host_error := None |>);; mret (Err (Wasmtime (WasmMsg e)))
  | None =>
      r ← flush_pending;
      match r with
      | Err e => mret (Err e)
      | Ok _ => check_session_bounds;; mret (Ok ())
      end
  end.

Definition process_one (md : WasmModule) (infer_fn : InferFn) (deadline : Z) (g : G) (data : bytes)
    : host (G * result RuntimeError ()) :=
  let len := Z.of_nat (length data) in
  if (MAX_MSG <? len)%Z then mret (g, Err (MessageTooLarge len))
  else
    size ← gets data_size;
    if (size <? len)%Z then mret (g, Err MemoryOutOfBounds)
    else
      mem_write 0 data;;
      m ← gets memory;
      r ← run_guest infer_fn (process md g deadline (i32 len) m);
      match r with
      | Err e => mret (g, Err (Wasmtime e))
      | Ok g => r ← end_cycle; mret (g, r)
      end.

(** ** Messages *)

Record EvictedState := mkEvicted {
  ev_id : AgentId;
  ev_seq : Z;
  ev_last_snapshot : option Hash;
  ev_last_action : option ActionId;
  evicted_at : Z }.
#[global] Instance EvictedState_settable : Settable EvictedState := λ e,
  mkEvicted (ev_id e) (ev_seq e) (ev_last_snapshot e) (ev_last_action e) (evicted_at e).

(** [reply] is the oneshot channel of the answer. *)
Inductive Message :=
| Data (payload : bytes) (cause : option ActionId)
| Suspend
| Checkpoint
| Rollback (target_seq : Z)
| ValidationResponse (verdict : ValidationVerdict)
| SessionResume (summary : bytes)
| Evict (reply : nat).

Definition data (payload : bytes) : Message := Data payload None.
Definition caused (payload : bytes) (cause : ActionId) : Message := Data payload (Some cause).

(** [Instant::now()], read from the environment in nanoseconds *)
Definition instant_now : host Z :=
  on_world (λ w, let '(t, k) := since_epoch (clocks w) in (t, w <| clocks := k |>)).

Definition evict_state (s : AgentState) (now : Z) : EvictedState :=
  mkEvicted (id s) (seq s) (last_snapshot s) (last_action s) now.

(** ** Rollback by the supervisor *)

Definition get_header (h : Hash) (c : Caller) : result store_error (option Store.SnapshotHeader) :=
  Store.get_header (content_store (world c)) h.

(** An access to the shared world for the current agent. *)
Definition for_agent {A} (f : AgentState → World → A * World) : host A := λ c, on_world (f (agent c)) c.

(** The capabilities of the agent and the handles it issued after the target
    are revoked; the answer is the number of capabilities, in a byte. *)
Definition revoke_after (after_ms : Z) : host Z := for_agent (λ s w,
  let st := default Caps.new (cap_stores w !! cap_store s) in
  let '(revoked, st) := Caps.revoke_owned_after st (id s) after_ms in
  (Z.min (Z.of_nat revoked) 255,
   w <| cap_stores ::= insert (cap_store s) st |>
     <| handle_heap ::= λ h, revoke_issued_after_all h (cause_handle_registry s) (id s) after_ms |>)).

Definition scheduler_rollback_payload (distance target_seq caps_invalidated : Z) : bytes :=
  z2b distance :: le_bytes 8 target_seq ++ [z2b caps_invalidated].

(** What the loop does after a message: take the next one, wait for a verdict,
    leave the loop by [break] or by [return], there with an answer to an
    eviction. *)
Inductive Flow := Next | Wait | Break | Return (reply : option (nat * EvictedState)).

Definition handle_rollback (target_seq : Z) : host Flow :=
  s ← gets agent;
  match last_snapshot s with
  | None => mret Next
  | Some tip =>
      if (seq s <=? target_seq)%Z then mret Next
      else
        r ← rollback_path tip target_seq;
        match r with
        | Err _ => log_agent_crash ContentStoreBroken;; mret (Return None)
        | Ok path =>
            let target_snap := default [] (last path) in
            let distance := Z.min (Z.of_nat (length path - 1)) 255 in
            now_ms ← clock_ms;
            now_us ← clock_us;
            h ← gets (get_header target_snap);
            caps_invalidated ← match h with
              | Ok (Some header) => revoke_after (Store.ts_us header / 1000)
              | _ => mret 0%Z
              end;
            let envelope := Log.envelope_new Log.SchedulerRollback (id s) (seq s) now_us
                              (scheduler_rollback_payload distance target_seq caps_invalidated) in
            let entry := Log.mkEntry (id s) now_ms (option_list (last_action s)) tip target_snap
                           (Some (Log.to_msgpack envelope)) in
            append_rollback entry target_snap;;
            log_lifecycle_event Active;;
            mret Next
        end
  end.

(** ** The loop *)

Section loop.
Context (md : WasmModule) (infer_fn : InferFn).

(** A cycle of the module, which ends the agent if it fails. *)
Definition run_cycle (g : G) (payload : bytes) (next : AgentState → Flow) : host (G * Flow) :=
  s ← gets agent;
  a ← process_one md infer_fn (max_ticks (agent_profile s)) g payload;
  match a.2 with
  | Err e => log_agent_crash (classify_process_one_error e);; mret (a.1, Return None)
  | Ok _ => s ← gets agent; mret (a.1, next s)
  end.

Definition inject_cause (cause : option ActionId) : host () :=
  match cause with
  | Some c => set_agent (λ s, s <| pending_extra_causes ::= λ l, l ++ [c] |>)
  | None => mret ()
  end.

(** The end of a turn: an agent that asked to terminate leaves. *)
Definition unless_terminated (s : AgentState) : Flow :=
  if decide (lifecycle s = Terminated) then Return None else Next.
Definition after_data (s : AgentState) : Flow :=
  if decide (lifecycle s = AwaitingValidation) then Wait else unless_terminated s.

Definition handle (g : G) (m : Message) : host (G * Flow) :=
  match m with
  | Data payload cause =>
      log_lifecycle_event Active;;
      inject_cause cause;;
      run_cycle g payload after_data
  | Suspend => log_lifecycle_event Suspended;; mret (g, Break)
  | Checkpoint => log_lifecycle_event Checkpointed;; mret (g, Next)
  | Evict reply =>
      log_lifecycle_event Suspended;;
      s ← gets agent;
      now ← instant_now;
      mret (g, Return (Some (reply, evict_state s now)))
  | Rollback target_seq => f ← handle_rollback target_seq; mret (g, f)
  | ValidationResponse _ => mret (g, Next)
  | SessionResume summary =>
      log_lifecycle_event Active;;
      run_cycle g summary (λ _, Next)
  end.

(** [Elapsed]: the deadline of the current wait has passed.  [Elsewhere]: other
    tasks run. *)
Inductive Event := Recv (m : Message) | Elapsed | Elsewhere (run : SM World ()).

(** The wait for a verdict, after one event: it goes on, it is over (with a
    message put back), or the agent leaves. *)
Inductive Waited := Waiting | Over (pending_msg : option Message) | Left.
Definition await_verdict (e : Event) : host Waited :=
  match e with
  | Recv (ValidationResponse verdict) => record_validation_response verdict;; mret (Over None)
  | Recv Suspend => mret Left
  | Recv (Rollback target_seq) =>
      record_validation_response Cancelled;; mret (Over (Some (Rollback target_seq)))
  | Recv _ => mret Waiting
  | Elapsed => record_validation_response Timeout;; mret (Over None)
  | Elsewhere run => await run;; mret Waiting
  end.

(** The end of the turn in which the agent waited, and the message put back. *)
Definition resume (g : G) (pending_msg : option Message) : host (G * Flow) :=
  s ← gets agent;
  match unless_terminated s, pending_msg with
  | Next, Some m => handle g m
  | f, _ => mret (g, f)
  end.

Definition main_event (g : G) (e : Event) : host (G * Flow) :=
  match e with
  | Recv m => handle g m
  | Elapsed => mret (g, Next)
  | Elsewhere run => await run;; mret (g, Next)
  end.
Definition wait_event (g : G) (e : Event) : host (G * Flow) :=
  w ← await_verdict e;
  match w with
  | Waiting => mret (g, Wait)
  | Over pending_msg => resume g pending_msg
  | Left => mret (g, Return None)
  end.

(** The loops of [run_loop]: the main one, and the one that waits for a verdict. *)
Fixpoint event_loop (waiting : bool) (g : G) (inbox : list Event) : host Flow :=
  match inbox with
  | [] => mret (if waiting then Return None else Break)
  | e :: inbox =>
      a ← (if waiting then wait_event g e else main_event g e);
      match a.2 with
      | Next => event_loop false a.1 inbox
      | Wait => event_loop true a.1 inbox
      | f => mret f
      end
  end.

(** The natural end of the loop. *)
Definition leave_loop : host () :=
  s ← gets agent;
  when (negb (bool_decide (lifecycle s = Suspended)) && negb (bool_decide (lifecycle s = Terminated)))
    (log_lifecycle_event Terminated).

(** The [Drop] of [IssuedHandleRevoker]. *)
Definition revoke_issued : host () := for_agent (λ s w,
  ((), w <| handle_heap ::= λ h, revoke_issued_by_all h (cause_handle_registry s) (id s) |>)).

Definition run_loop (g : G) (inbox : list Event) : host (option (nat * EvictedState)) :=
  log_lifecycle_event Spawned;;
  f ← event_loop false g inbox;
  match f with
  | Return reply => revoke_issued;; mret reply
  | _ => leave_loop;; revoke_issued;; mret None
  end.

End loop.

(** ** Construction *)

(** An instance: the store, the memory and the module's own state. *)
Record ActorInstance := mkInstance {
  inst_state : AgentState;
  inst_memory : bytes;
  inst_guest : G;
  inst_module : WasmModule;
  inst_infer : option InferFn }.
#[global] Instance ActorInstance_settable : Settable ActorInstance := λ i,
  mkInstance (inst_state i) (inst_memory i) (inst_guest i) (inst_module i) (inst_infer i).

Record ActorInstanceBuilder := mkBuilder {
  b_module : WasmModule;
  b_agent_id : AgentId;
  b_cap_store : nat;
  b_initial_caps : list Caps.CapabilityId;
  b_validation_timeout_ms : Z;
  b_session_max_duration_ms : Z;
  b_infer_fn : option InferFn;
  b_profile : AgentProfile;
  b_clock : Clock;
  b_tenant : TenantId;
  b_cause_handle_registry : nat;
  b_kv_store : nat }.
#[global] Instance ActorInstanceBuilder_settable : Settable ActorInstanceBuilder := λ b,
  mkBuilder (b_module b) (b_agent_id b) (b_cap_store b) (b_initial_caps b) (b_validation_timeout_ms b)
    (b_session_max_duration_ms b) (b_infer_fn b) (b_profile b) (b_clock b) (b_tenant b)
    (b_cause_handle_registry b) (b_kv_store b).

(** The fresh stores of the defaults. *)
Definition new_cap_store : SM World nat := λ w,
  let l := fresh (dom (cap_stores w)) in Some (l, w <| cap_stores ::= insert l Caps.new |>).
Definition new_registry : SM World nat := λ w,
  let '(r, h) := registry_new (handle_heap w) in Some (r, w <| handle_heap := h |>).
Definition new_kv_store : SM World nat := λ w,
  let l := fresh (dom (kv_stores w)) in Some (l, w <| kv_stores ::= insert l ∅ |>).

Definition builder_new (md : WasmModule) (agent_id : AgentId) : SM World ActorInstanceBuilder :=
  cs ← new_cap_store;
  reg ← new_registry;
  kv ← new_kv_store;
  mret (mkBuilder md agent_id cs [] SESSION_DEFAULT_VALIDATION_TIMEOUT_MS
          SESSION_DEFAULT_MAX_DURATION_MS None LlmShort SystemClock DEFAULT reg kv).

(** The setters of the builder. *)
Definition with_caps (cs : nat) (initial : list Caps.CapabilityId) (b : ActorInstanceBuilder) :=
  b <| b_cap_store := cs |> <| b_initial_caps := initial |>.
Definition with_validation_timeout_ms (ms : Z) (b : ActorInstanceBuilder) := b <| b_validation_timeout_ms := ms |>.
Definition with_session_max_duration_ms (ms : Z) (b : ActorInstanceBuilder) := b <| b_session_max_duration_ms := ms |>.
Definition with_inference (f : InferFn) (b : ActorInstanceBuilder) := b <| b_infer_fn := Some f |>.
Definition with_profile (p : AgentProfile) (b : ActorInstanceBuilder) := b <| b_profile := p |>.
Definition with_clock (k : Clock) (b : ActorInstanceBuilder) := b <| b_clock := k |>.
Definition with_tenant (t : TenantId) (b : ActorInstanceBuilder) := b <| b_tenant := t |>.
Definition with_cause_handle_registry (r : nat) (b : ActorInstanceBuilder) := b <| b_cause_handle_registry := r |>.
Definition with_kv_store (kv : nat) (b : ActorInstanceBuilder) := b <| b_kv_store := kv |>.

Definition initial_state (b : ActorInstanceBuilder) (cause_handle_store : nat) : AgentState :=
  mkAgent (b_agent_id b) (b_tenant b) cause_handle_store (b_cause_handle_registry b) 0 None None
    Spawned false None None [] 1 0 0 SESSION_DEFAULT_MAX_ACTIONS (b_session_max_duration_ms b)
    (b_cap_store b) (b_initial_caps b) (b_validation_timeout_ms b) (b_profile b) None None
    (b_clock b) (b_kv_store b) limiter_default None.

Definition get_handle_store (reg : nat) (tenant : TenantId) : SM World nat := λ w,
  let '(l, h) := get_or_create (handle_heap w) reg tenant in Some (l, w <| handle_heap := h |>).

Definition build (b : ActorInstanceBuilder) : SM World (result RuntimeError ActorInstance) :=
  chs ← get_handle_store (b_cause_handle_registry b) (b_tenant b);
  mret match instantiate (b_module b) (if b_infer_fn b then true else false) with
       | Err e => Err (Wasmtime e)
       | Ok (g, m) => Ok (mkInstance (initial_state b chs) m g (b_module b) (b_infer_fn b))
       end.

Definition new_precompiled (md : WasmModule) (agent_id : AgentId) : SM World (result RuntimeError ActorInstance) :=
  b ← builder_new md agent_id; build b.
Definition new_precompiled_with_caps (md : WasmModule) (agent_id : AgentId) (cs : nat)
    (initial : list Caps.CapabilityId) : SM World (result RuntimeError ActorInstance) :=
  b ← builder_new md agent_id; build (with_caps cs initial b).
Definition new_precompiled_with_profile (md : WasmModule) (agent_id : AgentId) (p : AgentProfile)
    : SM World (result RuntimeError ActorInstance) :=
  b ← builder_new md agent_id; build (with_profile p (with_session_max_duration_ms 0 b)).

Definition new_precompiled_with_caps_and_timeout (md : WasmModule) (agent_id : AgentId) (cs : nat)
    (initial : list Caps.CapabilityId) (timeout : Z) : SM World (result RuntimeError ActorInstance) :=
  b ← builder_new md agent_id; build (with_validation_timeout_ms timeout (with_caps cs initial b)).
Definition new_precompiled_with_caps_timeout_and_session (md : WasmModule) (agent_id : AgentId) (cs : nat)
    (initial : list Caps.CapabilityId) (timeout duration : Z) : SM World (result RuntimeError ActorInstance) :=
  b ← builder_new md agent_id;
  build (with_session_max_duration_ms duration (with_validation_timeout_ms timeout (with_caps cs initial b))).
Definition new_precompiled_with_inference (md : WasmModule) (agent_id : AgentId) (cs : nat)
    (initial : list Caps.CapabilityId) (timeout duration : Z) (f : InferFn)
    : SM World (result RuntimeError ActorInstance) :=
  b ← builder_new md agent_id;
  build (with_inference f (with_session_max_duration_ms duration
    (with_validation_timeout_ms timeout (with_caps cs initial b)))).
Definition new_precompiled_with_clock (md : WasmModule) (agent_id : AgentId) (k : Clock)
    : SM World (result RuntimeError ActorInstance) :=
  b ← builder_new md agent_id; build (with_clock k b).
Definition new_precompiled_with_inference_and_profile (md : WasmModule) (agent_id : AgentId) (cs : nat)
    (initial : list Caps.CapabilityId) (timeout duration : Z) (f : InferFn) (p : AgentProfile)
    : SM World (result RuntimeError ActorInstance) :=
  b ← builder_new md agent_id;
  build (with_profile p (with_inference f (with_session_max_duration_ms duration
    (with_validation_timeout_ms timeout (with_caps cs initial b))))).

Definition set_parent_agent_id (parent : AgentId) (i : ActorInstance) : ActorInstance :=
  i <| inst_state ::= λ s, s <| parent_agent_id := Some parent |> |>.

(** ** Restoration of an evicted agent *)

Definition check_resume_snapshot (evicted : EvictedState) (w : World) : result RuntimeError () :=
  match ev_last_snapshot evicted with
  | None => Ok ()
  | Some snap =>
      match Store.has_snapshot (content_store w) snap with
      | Err e => Err (StoreFailed e)
      | Ok false => Err (StoreFailed (Store.MissingBlock snap))
      | Ok true => Ok ()
      end
  end.

Definition copy_evicted_fields (i : ActorInstance) (evicted : EvictedState) : ActorInstance :=
  i <| inst_state ::= λ s,
    s <| seq := ev_seq evicted |> <| last_snapshot := ev_last_snapshot evicted |>
      <| last_action := ev_last_action evicted |> |>.

Definition restore_with (f : ActorInstanceBuilder → ActorInstanceBuilder) (md : WasmModule)
    (evicted : EvictedState) : SM World (result RuntimeError ActorInstance) :=
  r ← gets (check_resume_snapshot evicted);
  match r with
  | Err e => mret (Err e)
  | Ok _ =>
      b ← builder_new md (ev_id evicted);
      r ← build (f b);
      mret ((λ i, copy_evicted_fields i evicted) <$> r)
  end.
Definition restore_from_evicted : WasmModule → EvictedState → SM World (result RuntimeError ActorInstance) :=
  restore_with (λ b, b).
Definition restore_from_evicted_with_inference_and_profile (infer_fn : InferFn) (profile : AgentProfile)
    : WasmModule → EvictedState → SM World (result RuntimeError ActorInstance) :=
  restore_with (λ b, with_profile profile (with_inference infer_fn b)).

(** The task of an instance: [run_loop(instance, inbox)] in the shared world. *)
Definition no_infer : InferFn := λ _ _ _ _, None.
Definition run_task (i : ActorInstance) (inbox : list Event) : SM World (option (nat * EvictedState)) := λ w,
  (λ '(r, c), (r, world c)) <$>
    run_loop (inst_module i) (default no_infer (inst_infer i)) (inst_guest i) inbox
      (mkCaller w (inst_state i) (inst_memory i)).

End ops.
Arguments Guest : clear implicits.
Arguments Guest {_} G.
Arguments WasmModule : clear implicits.
Arguments WasmModule {_ _ _} G.

(** ** A concrete module *)

(** A run that is known to return. *)
Definition returns {S A} (m : SM S A) (s : S) : bool := match m s with Some _ => true | None => false end.
Lemma returns_Some {S A} (m : SM S A) s : returns m s = true → ∃ a s', m s = Some (a, s').
Proof. unfold returns. destruct (m s) as [[a s']|]; [eauto|done]. Qed.

(** A module like [AGENT_WAT]: one commit and one emission of the message. *)
Definition demo_module : WasmModule () := {|
  instantiate _ := Ok ((), zeros 64);
  process _ _ len m := Calls m CommitBarrier (λ _ m, Calls m (Emit 1 0 len) (λ _ m, Returns () m)) |}.
Definition demo_message : bytes := [Byte.x68; Byte.x69].
Definition demo_inbox : list Event := [Recv (data demo_message); Elapsed; Recv (Evict 7)].

End Loop.
