(* ===== verification/RunLoopSafety.v ===== *)
(** RunLoopSafety: the invariant of the system across an agent's whole life.

    The message loop composes the host functions, the cycles of the module, the
    supervisor's messages and the interference of other tasks.  Each of them
    keeps the invariant of [ActorSafety] and follows the machine of
    [AgentSteps]; [safe] says both at once, and composes. *)
From Stdlib Require Import String.
From S2P Require Import Prelude Storage Capabilities ContentStore CausalLog Integrity InferQueue Clock CauseHandles Actor ActorSafety ActorSpec AgentSteps RunLoop.

Module LoopSafety.
Import Clocks Watchdog Handles Actor Safety Spec Steps Loop.

Ltac t_next tac := eapply t_bind; [apply _|tac|intros ?; cbn beta].

Section inv.
Context `{R : RocksDB, !RocksLaws R, H256 : Sha256, !Sha256Laws H256,
          BH : Bincode Store.SnapshotHeader, !BincodeLaws Store.SnapshotHeader Store.header_ok,
          BE : Bincode Log.LogEntry, !BincodeLaws Log.LogEntry Log.entry_ok,
          MP : Msgpack Log.EmitEnvelope, !MsgpackSize Log.EmitEnvelope Log.envelope_ok}.
Context {G : Type}.
Abbreviation host := (SM Caller).
Abbreviation InferFn :=
  (AgentId → bytes → Z → SM World (result Queue.InferError Queue.InferResponse * Z)).

Context (hist0 : list Log.LogEntry) (authors : AgentId → Prop).
Abbreviation Inv := (Inv hist0 authors).
Abbreviation winv := (winv hist0 authors).
Abbreviation triple := (triple hist0 authors).
Abbreviation keeps P m := (triple P m (λ _ _, True)).

(** ** The remaining operations of the loop keep the invariant *)

Lemma t_flush_pending P : Stable P → keeps P flush_pending.
Proof.
  intros Hst. unfold flush_pending. t_next ltac:(apply t_agent).
  destruct (pending_commit a) as [p|] eqn:Ep; [|apply t_ret].
  t_next ltac:(apply t_set_agent).
  { intros c Hc _. split; [|done]. destruct (inv_state _ _ _ Hc) as [? ? ? ? ? ? ? ?]. by split. }
  t_next ltac:(apply t_append).
  - intros c Hc ((_ & Hs & E) & _). destruct (so_pending _ _ Hs _ Ep). split; cbn; try done.
    + apply Hs.
    + rewrite E. apply Hc.
    + split; naive_solver.
  - destruct a1 as [x|]; [|apply t_ret]. t_next ltac:(apply t_last_action); [|apply t_ret].
    intros c [_ Hx]. by apply Hx.
Qed.
Lemma t_check_session_bounds P : Stable P → keeps P check_session_bounds.
Proof.
  intros Hst. unfold check_session_bounds, session_elapsed. t_next idtac.
  - t_next ltac:(apply t_agent). destruct (_ <? _)%Z; [|apply t_ret].
    t_next ltac:(eapply t_weaken, t_clock_ms). apply t_ret.
  - t_next ltac:(apply t_agent). apply t_when, t_session_boundary, _.
Qed.
Lemma t_end_cycle P : Stable P → keeps P end_cycle.
Proof.
  intros Hst. unfold end_cycle. t_next ltac:(apply t_agent). destruct (host_error a) as [e|].
  - t_next ltac:(by apply t_set_other). apply t_ret.
  - t_next ltac:(apply t_flush_pending, _). destruct a0; [|apply t_ret].
    t_next ltac:(apply t_check_session_bounds, _). apply t_ret.
Qed.
Lemma t_instant P : keeps P instant_now.
Proof.
  apply t_world. intros c a w' Hc _ [= <- <-]. rewrite (assoc (∧)). split; [|done].
  destruct (inv_world _ _ _ Hc) as (new & Hw & ?). apply winv_same; [done..|apply Hw|by exists new].
Qed.
Lemma t_for_agent {A} P (f : AgentState → World → A * World) :
  (∀ s w, content_store (f s w).2 = content_store w ∧ causal_log (f s w).2 = causal_log w
     ∧ clocks (f s w).2 = clocks w) →
  keeps P (for_agent f).
Proof.
  intros Hf c Hc HP. apply (t_world _ _ P); [|done|done].
  intros c1 a w' Hc1 _ E. destruct (Hf (agent c) (world c1)) as (Es & El & Ek).
  rewrite E in Es, El, Ek. cbn in Es, El, Ek. rewrite (assoc (∧)). split; [|done].
  destruct (inv_world _ _ _ Hc1) as (new & Hw & ?).
  apply winv_same; [done..|rewrite Ek; apply Hw|by exists new].
Qed.
Lemma t_revoke_after P t : keeps P (revoke_after t).
Proof. apply t_for_agent. intros s w. cbn. by destruct (Caps.revoke_owned_after (default Caps.new (cap_stores w !! cap_store s)) (id s) t). Qed.
Lemma t_revoke_issued P : keeps P revoke_issued.
Proof. by apply t_for_agent. Qed.

Lemma t_handle_rollback P target_seq : Stable P → keeps P (handle_rollback target_seq).
Proof.
  intros Hst. unfold handle_rollback. t_next ltac:(apply t_agent).
  destruct (last_snapshot a) as [tip|] eqn:Et; [|apply t_ret]. destruct (_ <=? _)%Z; [apply t_ret|].
  t_next ltac:(apply t_rollback_path). destruct a0 as [path|].
  2: { t_next ltac:(apply t_log_crash, _). apply t_ret. }
  t_next ltac:(apply t_clock_ms). t_next ltac:(apply t_clock_us). t_next ltac:(apply t_read).
  t_next idtac. { destruct a2 as [[h|]|]; [|apply t_ret..]. apply t_revoke_after. }
  t_next ltac:(apply t_log_rollback; [apply _| |]).
  - intros c ((((((_ & ? & ?) & Hp) & ?) & ?) & _) & _). destruct (Hp _ eq_refl). by split_and!.
  - unfold scheduler_rollback_payload. rewrite length_cons, length_app, length_le_bytes. cbn. lia.
  - t_next ltac:(apply t_log_lifecycle, _). apply t_ret.
Qed.

(** ** What the loop asks of its environment *)

(** Other tasks keep the invariant of the world too. *)
Definition world_safe {A} (run : SM World A) : Prop :=
  ∀ w a w', winv w → run w = Some (a, w') → winv w' ∧ w_le w w'.
Fixpoint guest_ok (p : Guest G) : Prop :=
  match p with
  | Returns _ m => (Z.of_nat (length m) ≤ 2 ^ 32)%Z
  | Traps _ => True
  | Calls m f k =>
      (Z.of_nat (length m) ≤ 2 ^ 32)%Z ∧ call_ok f
      ∧ ∀ z m', (Z.of_nat (length m') ≤ 2 ^ 32)%Z → guest_ok (k z m')
  | Others run k => world_safe run ∧ guest_ok k
  end.
(** A module keeps its memory within 4 GiB and is compiled to [i32] arguments. *)
Definition module_ok (md : WasmModule G) : Prop :=
  ∀ g deadline len m, (0 ≤ len ≤ MAX_MSG)%Z → (Z.of_nat (length m) ≤ 2 ^ 32)%Z →
    guest_ok (process md g deadline len m).

(** The cause that comes with a message has been logged: at the start
    ([known]), or by the tasks that ran before the message was sent. *)
Fixpoint inbox_ok (known : ActionId → Prop) (inbox : list Event) : Prop :=
  match inbox with
  | [] => True
  | Recv (Data _ (Some cause)) :: inbox => known cause ∧ inbox_ok known inbox
  | Elsewhere run :: inbox =>
      world_safe run ∧ ∃ new : ActionId → Prop,
        (∀ w u w', winv w → run w = Some (u, w') → ∀ a, new a → logged w' a)
        ∧ inbox_ok (λ a, known a ∨ new a) inbox
  | _ :: inbox => inbox_ok known inbox
  end.

(** ** Safe computations *)

(** The invariant with at most [n] waiting causes. *)
Definition good (n : nat) (c : Caller) : Prop := Inv c ∧ few n (agent c).
Definition grown (c c' : Caller) : Prop :=
  w_le (world c) (world c') ∧ same_identity (agent c) (agent c').
#[local] Instance grown_preorder : PreOrder grown.
Proof. split; [by split|]. intros c1 c2 c3 [? ?] [? ?]. split; by etrans. Qed.

Definition safe {A} (n : nat) (m : host A) : Prop :=
  ∀ c, good n c → wp m (λ _ c', good n c' ∧ grown c c') c.

Lemma safe_bind {A B} n (m : host A) (f : A → host B) :
  safe n m → (∀ a, safe n (f a)) → safe n (m ≫= f).
Proof.
  intros Hm Hf c Hc. apply wp_bind. eapply wp_mono; [by apply Hm|]. intros a c1 [Hc1 Hg]. cbn.
  eapply wp_mono; [by apply (Hf a)|]. intros b c2 [? ?]. split; [done|by etrans].
Qed.
Lemma safe_ret {A} n (a : A) : safe n (mret a).
Proof. intros c Hc. by apply wp_ret. Qed.
Lemma safe_gets {A} n (f : Caller → A) : safe n (gets f).
Proof. intros c Hc. by apply wp_gets. Qed.
Lemma safe_keeps {A} n (m : host A) :
  MAX_EXTRA_CAUSES ≤ n → keeps (λ _, True) m → follows m → safe n m.
Proof.
  intros Hn Hm Hf c [Hc Hl] a c' E. destruct (Hm c Hc I a c' E) as [[Hc' [Hw _ _]] _].
  pose proof (Hf c a c' E) as Hs. split; split; [done|by eapply steps_few|done|by apply steps_identity].
Qed.

(** A change of the memory. *)
Lemma safe_set_memory n m : (Z.of_nat (length m) ≤ 2 ^ 32)%Z → safe n (set_memory m).
Proof.
  intros Hm c [[? ? ? ?] Hl]. apply wp_modify. split; [|by split]. split; [|done]. by split.
Qed.
Lemma safe_memory {B} n (k : bytes → host B) :
  (∀ m, (Z.of_nat (length m) ≤ 2 ^ 32)%Z → safe n (k m)) → safe n (gets memory ≫= k).
Proof. intros Hk c Hc. apply wp_bind, wp_gets. apply Hk; [apply Hc|done]. Qed.

Lemma i32_small z : (0 ≤ z < 2 ^ 31)%Z → i32 z = z.
Proof.
  intros Hz. unfold i32. cbn zeta. rewrite wrap_small by (unfold in_width; lia).
  by rewrite (proj2 (Z.ltb_lt z (2 ^ 31))) by lia.
Qed.

Section loop.
Context (md : WasmModule G) (infer_fn : InferFn).
Hypothesis (Hmd : module_ok md) (Hinfer : infer_safe hist0 authors infer_fn).
Context (n : nat) (Hn : MAX_EXTRA_CAUSES ≤ n).

Lemma safe_run_guest p : guest_ok p → safe n (run_guest infer_fn p).
Proof.
  induction p as [g m|i|m f k IH|run k IH]; cbn [guest_ok run_guest].
  - intros Hm. apply safe_bind; [by apply safe_set_memory|intros _; apply safe_ret].
  - intros _. apply safe_ret.
  - intros (Hm & Hf & Hk). apply safe_bind; [by apply safe_set_memory|intros _].
    apply safe_bind; [apply safe_keeps; [done|by apply t_host_fn|apply f_host_fn]|intros z].
    apply safe_memory. intros m' Hm'. by apply IH, Hk.
  - intros [Hr Hk]. apply safe_bind; [|intros _; by apply IH].
    apply safe_keeps; [done|by apply t_await|apply f_await].
Qed.

Lemma f_flush_pending : follows flush_pending.
Proof. unfold flush_pending, append. follows. Qed.
Lemma f_check_session_bounds : follows check_session_bounds.
Proof. unfold check_session_bounds, session_elapsed. follows. Qed.
Hint Resolve f_flush_pending f_check_session_bounds : follows.
Lemma f_clear_error : follows (set_agent (λ s, s <| host_error := None |>)).
Proof. apply f_step. intros s. apply step_error. Qed.
Hint Resolve f_clear_error : follows.
Lemma f_end_cycle : follows end_cycle.
Proof. unfold end_cycle. follows. Qed.
Lemma f_for_agent {A} (f : AgentState → World → A * World) : follows (for_agent f).
Proof. intros c. apply f_world. Qed.
Hint Resolve f_for_agent : follows.
Lemma f_handle_rollback t : follows (handle_rollback t).
Proof.
  unfold handle_rollback, revoke_after. follows.
Qed.
Hint Resolve f_end_cycle f_handle_rollback : follows.

Lemma safe_process_one deadline g payload : safe n (process_one md infer_fn deadline g payload).
Proof.
  unfold process_one. destruct (_ <? _)%Z eqn:Emax; [apply safe_ret|]. apply Z.ltb_ge in Emax.
  intros c Hc. apply wp_bind, wp_gets. destruct (_ <? _)%Z eqn:El; [by apply safe_ret|].
  apply Z.ltb_ge in El. apply wp_bind. eapply wp_mono.
  - destruct Hc as [Hc Hf].
    assert (keeps (λ c', c' = c) (mem_write 0 payload)) as Hm.
    { apply t_mem_write. intros c' ->. lia. }
    intros u c1 E. destruct (Hm c Hc eq_refl u c1 E) as [[Hc1 [Hw _ _]] _]. pose proof (f_mem 0 payload c u c1 E) as Hs.
    instantiate (1 := λ _ c1, good n c1 ∧ grown c c1). cbn.
    split; split; [done|by eapply steps_few|done|by apply steps_identity].
  - cbn. intros _ c1 [Hc1 Hg]. revert Hc1.
    enough (safe n (gets memory ≫= λ m, run_guest infer_fn (process md g deadline (i32 (Z.of_nat (length payload))) m)
      ≫= λ r, match r with Err e => mret (g, Err (Wasmtime e)) | Ok g => end_cycle ≫= λ r, mret (g, r) end)) as Hs.
    { intros Hc1. eapply wp_mono; [by apply Hs|]. intros a c2 [? ?]. split; [done|by etrans]. }
    apply safe_memory. intros m Hm. apply safe_bind; [apply safe_run_guest, Hmd; [|done]|intros [g'|e]; [|apply safe_ret]].
    { rewrite i32_small; [lia|]. unfold MAX_MSG in Emax. lia. }
    apply safe_bind; [|intros r; apply safe_ret].
    apply safe_keeps; [done|apply t_end_cycle, _|apply f_end_cycle].
Qed.

End loop.

(** ** The loop *)

Context (md : WasmModule G) (infer_fn : InferFn).
Hypothesis (Hmd : module_ok md) (Hinfer : infer_safe hist0 authors infer_fn).

Lemma safe_wp {A} n (m : host A) c :
  safe n m → good n c → wp m (λ _ c', good (S n) c' ∧ grown c c') c.
Proof.
  intros Hm Hc. eapply wp_mono; [by apply Hm|]. intros a c' [[? Hf] ?].
  split; [split; [done|unfold few in *; lia]|done].
Qed.

Lemma safe_run_cycle n g payload next :
  MAX_EXTRA_CAUSES ≤ n → safe n (run_cycle md infer_fn g payload next).
Proof.
  intros Hn. unfold run_cycle. apply safe_bind; [apply safe_gets|intros s].
  apply safe_bind; [by apply safe_process_one|intros [g' [u|e]]]; cbn.
  - apply safe_bind; [apply safe_gets|intros s']. apply safe_ret.
  - apply safe_bind; [|intros ?; apply safe_ret]. apply safe_keeps; [done|apply t_log_crash, _|apply f_crash].
Qed.
Lemma safe_lifecycle n l : MAX_EXTRA_CAUSES ≤ n → safe n (log_lifecycle_event l).
Proof. intros Hn. apply safe_keeps; [done|apply t_log_lifecycle, _|apply f_lifecycle]. Qed.

Lemma inject_good n cause c :
  (Z.of_nat (S n) < 2 ^ 63)%Z → (∀ a, cause = Some a → logged (world c) a) → good n c →
  wp (inject_cause cause) (λ _ c', good (S n) c' ∧ grown c c') c.
Proof.
  intros Hn Hlog [Hc Hl]. unfold few in Hl. destruct cause as [a|]; [|by apply safe_wp; [apply safe_ret|]].
  apply wp_modify. split; [|by split]. split; [|unfold few; cbn; rewrite length_app; cbn; lia].
  destruct Hc as [? [? ? ? ? ? ? ? ?] ? ?]. split; [done| |done|done]. split; cbn; try done.
  - apply Forall_app. split; [done|]. apply Forall_singleton. by apply Hlog.
  - rewrite length_app. cbn. lia.
Qed.

(** One message: it may add one waiting cause. *)
Lemma handle_good n g m c :
  MAX_EXTRA_CAUSES ≤ n → (Z.of_nat (S n) < 2 ^ 63)%Z →
  (∀ p a, m = Data p (Some a) → logged (world c) a) → good n c →
  wp (handle md infer_fn g m) (λ _ c', good (S n) c' ∧ grown c c') c.
Proof.
  intros Hn Hb Hlog Hc. destruct m as [p cause| | |t|v|summary|reply]; cbn [handle].
  - apply wp_bind. eapply wp_mono; [by apply safe_lifecycle|]. intros _ c1 [Hc1 Hg1]. cbn.
    apply wp_bind. eapply wp_mono; [apply inject_good; [done| |done]|].
    { intros a ->. destruct Hg1 as [Hw _]. eapply logged_mono; [exact Hw|]. by eapply Hlog. }
    intros _ c2 [Hc2 Hg2]. eapply wp_mono; [apply (safe_run_cycle (S n)); [lia|done]|].
    intros a c3 [? ?]. split; [done|]. by etrans; [|etrans].
  - apply safe_wp; [|done]. apply safe_bind; [by apply safe_lifecycle|intros ?; apply safe_ret].
  - apply safe_wp; [|done]. apply safe_bind; [by apply safe_lifecycle|intros ?; apply safe_ret].
  - apply safe_wp; [|done]. apply safe_bind; [|intros ?; apply safe_ret].
    apply safe_keeps; [done|apply t_handle_rollback, _|apply f_handle_rollback].
  - apply safe_wp; [apply safe_ret|done].
  - apply safe_wp; [|done]. apply safe_bind; [by apply safe_lifecycle|intros ?]. by apply safe_run_cycle.
  - apply safe_wp; [|done]. apply safe_bind; [by apply safe_lifecycle|intros ?].
    apply safe_bind; [apply safe_gets|intros s]. apply safe_bind; [|intros ?; apply safe_ret].
    apply safe_keeps; [done|apply t_instant|intros c1; apply f_world].
Qed.

Lemma safe_verdict n v : MAX_EXTRA_CAUSES ≤ n → safe n (record_validation_response v).
Proof. intros Hn. apply safe_keeps; [done|apply t_record_verdict, _|apply f_verdict]. Qed.
Lemma safe_await n (run : SM World ()) : MAX_EXTRA_CAUSES ≤ n → world_safe run → safe n (await run).
Proof. intros Hn Hr. apply safe_keeps; [done|by apply t_await|apply f_await]. Qed.

(** The wait puts back a rollback at most. *)
Lemma await_verdict_good n e c :
  MAX_EXTRA_CAUSES ≤ n → (∀ run, e = Elsewhere run → world_safe run) → good n c →
  wp (await_verdict e) (λ w c', (good n c' ∧ grown c c') ∧ ∀ m, w = Over (Some m) → ∃ t, m = Rollback t) c.
Proof.
  intros Hn Hr Hc. destruct e as [[]| |run]; cbn [await_verdict];
    try (apply wp_ret; split; [split; [done|reflexivity]|]; by intros).
  all: apply wp_bind; (eapply wp_mono; [by apply safe_verdict || (apply safe_await; [done|by apply Hr|done])|]);
    intros ? c1 H1; apply wp_ret; split; [done|]; intros m E; simplify_eq; eauto.
Qed.

(** The events that the loop may rely on. *)
Definition event_known (w : World) (e : Event) : Prop :=
  match e with
  | Recv (Data _ (Some cause)) => logged w cause
  | Elsewhere run => world_safe run
  | _ => True
  end.
Lemma loop_event_good (waiting : bool) n g e c :
  MAX_EXTRA_CAUSES ≤ n → (Z.of_nat (S n) < 2 ^ 63)%Z → event_known (world c) e → good n c →
  wp (if waiting then wait_event md infer_fn g e else main_event md infer_fn g e)
     (λ _ c', good (S n) c' ∧ grown c c') c.
Proof.
  intros Hn Hb He Hc. destruct waiting.
  - unfold wait_event. apply wp_bind. eapply wp_mono.
    { apply await_verdict_good; [done| |done]. by intros run ->. }
    cbn. intros w c1 [[Hc1 Hg1] Hm].
    assert (∀ m : host (G * Flow), wp m (λ _ c', good (S n) c' ∧ grown c1 c') c1 →
      wp m (λ _ c', good (S n) c' ∧ grown c c') c1) as Hstep.
    { intros m Hmm. eapply wp_mono; [exact Hmm|]. intros a c2 [? ?]. split; [done|]. by etrans. }
    apply Hstep. destruct w as [|pm|]; [by apply safe_wp; [apply safe_ret|]| |by apply safe_wp; [apply safe_ret|]].
    unfold resume. apply wp_bind, wp_gets.
    destruct (unless_terminated (agent c1)); try (by apply safe_wp; [apply safe_ret|]).
    destruct pm as [m|]; [|by apply safe_wp; [apply safe_ret|]].
    destruct (Hm _ eq_refl) as [t ->]. by apply handle_good.
  - destruct e as [m| |run]; cbn [main_event].
    + apply handle_good; [done|done| |done]. intros p a ->. exact He.
    + by apply safe_wp; [apply safe_ret|].
    + apply safe_wp; [|done]. apply safe_bind; [by apply safe_await|intros ?; apply safe_ret].
Qed.
(** What other tasks have logged is in the world after the event. *)
Lemma elsewhere_world (waiting : bool) g run c a c' :
  (if waiting then wait_event md infer_fn g (Elsewhere run) else main_event md infer_fn g (Elsewhere run)) c
    = Some (a, c') → ∃ u, run (world c) = Some (u, world c').
Proof.
  destruct waiting; intros H; [unfold wait_event in H; run_step H|unfold main_event in H; run_step H].
  - cbn [await_verdict] in E. run_step E. run_step H. unfold await in E0.
    destruct (run (world c)) as [[u w]|]; [|done]. injection E0 as <- <-. by exists u.
  - unfold await in E. destruct (run (world c)) as [[u w]|]; [|done]. injection E as <- <-. by exists u.
Qed.

Lemma loop_good inbox : ∀ known waiting n g c,
  inbox_ok known inbox → (∀ a, known a → logged (world c) a) →
  MAX_EXTRA_CAUSES ≤ n → (Z.of_nat (n + length inbox) < 2 ^ 63)%Z → good n c →
  wp (event_loop md infer_fn waiting g inbox) (λ _ c', (∃ n', MAX_EXTRA_CAUSES ≤ n' ∧ good n' c') ∧ grown c c') c.
Proof.
  induction inbox as [|e inbox IH]; intros known waiting n g c Hin Hk Hn Hb Hc; cbn [event_loop].
  { apply wp_ret. split; [eauto|reflexivity]. }
  cbn [length] in Hb.
  assert (event_known (world c) e ∧ (∀ a c', (if waiting then wait_event md infer_fn g e else main_event md infer_fn g e) c
    = Some (a, c') → w_le (world c) (world c') → ∃ known', inbox_ok known' inbox ∧ ∀ x, known' x → logged (world c') x))
    as [He Hnext].
  { destruct e as [m| |run].
    - assert (event_known (world c) (Recv m) ∧ inbox_ok known inbox) as [? ?].
      { destruct m as [p [a|]| | | | | |]; cbn in Hin; try (by split). destruct Hin. split; [by apply Hk|done]. }
      split; [done|]. intros a c' _ Hw. exists known. split; [done|]. eauto using logged_mono.
    - split; [done|]. intros a c' _ Hw. exists known. split; [done|]. eauto using logged_mono.
    - destruct Hin as (Hs & new & Hnew & Hin). split; [done|]. intros a c' Ec Hw.
      exists (λ a, known a ∨ new a). split; [done|]. intros x [Hx|Hx]; [eauto using logged_mono|].
      apply elsewhere_world in Ec as [u Eu]. destruct Hc as [Hc _]. by eapply (Hnew _ _ _ (inv_world _ _ _ Hc) Eu). }
  apply wp_bind. intros a c1 E1.
  destruct (loop_event_good waiting n g e c Hn ltac:(lia) He Hc a c1 E1) as [Hc1 Hg1]. cbn.
  destruct (Hnext a c1 E1 (proj1 Hg1)) as (known' & Hin' & Hk').
  assert (∀ waiting', wp (event_loop md infer_fn waiting' a.1 inbox)
    (λ _ c', (∃ n', MAX_EXTRA_CAUSES ≤ n' ∧ good n' c') ∧ grown c c') c1) as Hloop.
  { intros waiting'. eapply wp_mono.
    - apply (IH known' waiting' (S n)); [done|done|lia|cbn in *; lia|done].
    - intros ? c2 [? ?]. split; [done|]. by etrans. }
  destruct a as [g' []]; cbn [fst snd]; try apply Hloop; apply wp_ret; (split; [exists (S n); split; [lia|done]|done]).
Qed.

Lemma run_loop_good known n g inbox c :
  inbox_ok known inbox → (∀ a, known a → logged (world c) a) →
  MAX_EXTRA_CAUSES ≤ n → (Z.of_nat (n + length inbox) < 2 ^ 63)%Z → good n c →
  wp (run_loop md infer_fn g inbox) (λ _ c', Inv c' ∧ grown c c') c.
Proof.
  intros Hin Hk Hn Hb Hc. unfold run_loop. apply wp_bind.
  eapply wp_mono; [by apply safe_lifecycle|]. intros _ c1 [Hc1 Hg1]. cbn. apply wp_bind.
  eapply wp_mono; [apply (loop_good inbox known false n); [done| |done|done|done]|].
  { intros a Ha. eapply logged_mono; [apply Hg1|]. by apply Hk. }
  cbn. intros f c2 [(n' & Hn' & Hc2) Hg2].
  assert (∀ (r : option (nat * EvictedState)), safe n' (revoke_issued;; mret r)) as Hrev.
  { intros r. apply safe_bind; [|intros ?; apply safe_ret].
    apply safe_keeps; [done|apply t_revoke_issued|apply f_for_agent]. }
  assert (safe n' (leave_loop;; revoke_issued;; mret (@None (nat * EvictedState)))) as Hleave.
  { apply safe_bind; [|intros ?; apply Hrev]. apply safe_bind; [apply safe_gets|intros s].
    destruct (_ && _); [by apply safe_lifecycle|apply safe_ret]. }
  assert (∀ m : host (option (nat * EvictedState)), safe n' m →
    wp m (λ _ c', Inv c' ∧ grown c c') c2) as Hfin.
  { intros m Hm. eapply wp_mono; [by apply Hm|]. intros r c3 [[? _] ?].
    split; [done|]. by etrans; [|etrans]. }
  destruct f; apply Hfin; auto.
Qed.
End inv.

Section properties.
Context `{R : RocksDB, !RocksLaws R, H256 : Sha256, !Sha256Laws H256,
          BH : Bincode Store.SnapshotHeader, !BincodeLaws Store.SnapshotHeader Store.header_ok,
          BE : Bincode Log.LogEntry, !BincodeLaws Log.LogEntry Log.entry_ok,
          MP : Msgpack Log.EmitEnvelope, !MsgpackSize Log.EmitEnvelope Log.envelope_ok}.
Context {G : Type}.
Abbreviation InferFn :=
  (AgentId → bytes → Z → SM World (result Queue.InferError Queue.InferResponse * Z)).

(** A log that satisfies the invariant passes the integrity audit. *)
Lemma world_inv_audit w hist r :
  world_inv w hist → Audit.verify_content_addressing (causal_log w) = Ok r → Audit.is_clean r = true.
Proof.
  intros Hw. apply (Audit.append_only_clean _ hist); [apply Hw|].
  intros e p (h1 & h2 & ->)%list_elem_of_split Hp.
  pose proof (wi_causal _ _ Hw h1 e h2 eq_refl p Hp) as (e' & -> & He')%list_elem_of_fmap.
  exists e'. split; [|done]. apply elem_of_app. by left.
Qed.

(** C1: an agent's whole life keeps the system sound, as long as its environment
    does.  Whatever module of 32 bits runs in the message loop and whatever
    messages and timeouts it meets, provided that the other tasks and the inference
    keep the invariant themselves and that the cause that comes with a message is
    in the log by then: the databases only grow, the log remains a causally ordered
    list whose state hashes are stored snapshots with their data and their parents,
    the new entries are the agent's own or those of the other tasks, the agent's
    links stay valid, its identity, tenant and stores are never changed, and an
    integrity audit of the log that completes is clean.  The condition on causes is
    needed: the loop takes the cause of a message without looking it up, and an
    unknown one ends up in the log ([unlogged_cause_enters_log]). *)
Theorem run_loop_keeps_invariant (md : WasmModule G) (infer_fn : InferFn) (authors known : ActionId → Prop)
    g inbox c r c' hist :
  world_inv (world c) hist → state_ok (world c) (agent c) → (data_size c ≤ 2 ^ 32)%Z →
  authors (id (agent c)) → module_ok hist authors md → infer_safe hist authors infer_fn →
  inbox_ok hist authors known inbox → (∀ a, known a → logged (world c) a) →
  (Z.of_nat (length (pending_extra_causes (agent c)) + length inbox) < 2 ^ 62)%Z →
  run_loop md infer_fn g inbox c = Some (r, c') →
  (∃ new, world_inv (world c') (hist ++ new) ∧ Forall (λ e, authors (Log.agent_id e)) new)
  ∧ state_ok (world c') (agent c') ∧ same_identity (agent c) (agent c') ∧ w_le (world c) (world c')
  ∧ ∀ report, Audit.verify_content_addressing (causal_log (world c')) = Ok report →
      Audit.is_clean report = true.
Proof.
  intros Hw Hs Hm Ha Hmd Hinf Hin Hk Hb E. set (n := length (pending_extra_causes (agent c))) in *.
  assert (good hist authors (n + MAX_EXTRA_CAUSES) c) as Hc.
  { split; [split; [by apply winv_intro|done..]|]. unfold few. lia. }
  destruct (run_loop_good hist authors md infer_fn Hmd Hinf known (n + MAX_EXTRA_CAUSES) g inbox c Hin Hk
    ltac:(lia) ltac:(unfold MAX_EXTRA_CAUSES; lia) Hc r c' E) as [[Hw' Hs' _ _] [Hle Hid]].
  split_and!; try done. intros report. destruct Hw' as (new & Hw' & _). by apply world_inv_audit with (1 := Hw').
Qed.

End properties.

(** ** The concrete module *)

Lemma demo_module_ok hist authors : module_ok hist authors demo_module.
Proof.
  intros g d len m Hlen Hm. cbn. split_and!; [done|done|]. intros _ m1 H1. split_and!; [done| |done].
  unfold is_i32. unfold MAX_MSG in Hlen. lia.
Qed.
Lemma demo_infer_safe hist authors : infer_safe hist authors demo_infer.
Proof. by intros a p t w r w' Hw [= <- <-]. Qed.
Lemma run_loop_keeps_invariant_witness :
  ∃ r c', run_loop demo_module demo_infer () demo_inbox demo_caller = Some (r, c')
    ∧ (∃ new, world_inv (world c') ([] ++ new)
              ∧ Forall (λ e, Log.agent_id e = id (agent demo_caller)) new)
    ∧ state_ok (world c') (agent c').
Proof.
  assert (returns (run_loop demo_module demo_infer () demo_inbox) demo_caller = true) as Hr
    by (vm_compute; reflexivity).
  destruct (returns_Some _ _ Hr) as (r & c' & E). clear Hr.
  pose proof (run_loop_keeps_invariant demo_module demo_infer (λ a, a = id (agent demo_caller)) (λ _, False) ()
    demo_inbox demo_caller r c' [] demo_world_inv demo_state_ok ltac:(by vm_compute) eq_refl
    (demo_module_ok _ _) (demo_infer_safe _ _) I (λ a f, match f with end) ltac:(by vm_compute) E) as (H1 & H2 & _).
  exists r, c'. split; [exact E|split; [exact H1|exact H2]].
Defined.


(** A message with a cause that no entry has: the loop links the agent's next entry
    to it. *)
Definition unlogged : ActionId := replicate 32 Byte.xee.
Definition demo_unlogged_log : db :=
  match run_loop demo_module demo_infer () [Recv (caused demo_message unlogged)] demo_caller with
  | Some (_, c) => causal_log (world c)
  | None => Mem.empty_db
  end.
Definition cites (log : db) (cause action : ActionId) : bool :=
  match Log.get log action with Ok (Some e) => bool_decide (cause ∈ Log.parent_ids e) | _ => false end.
Theorem unlogged_cause_enters_log :
  Log.get demo_unlogged_log unlogged = Ok None
  ∧ ∃ ids, Log.query_by_agent_range demo_unlogged_log (id (agent demo_caller)) None None = Ok ids
      ∧ existsb (cites demo_unlogged_log unlogged) ids = true.
Proof. split; [vm_compute; reflexivity|]. eexists. split; vm_compute; reflexivity. Qed.

End LoopSafety.
