(* ===== verification/RunLoopSpec.v ===== *)
(** RunLoopSpec: what the message loop does.

    How an agent may leave its loop, what a cycle of the module guarantees to
    the next one, what the supervisor's rollback does, and the round trip of an
    eviction and a restoration. *)
From Stdlib Require Import String.
From S2P Require Import Prelude Storage Capabilities ContentStore CausalLog InferQueue Clock CauseHandles Actor ActorSafety ActorSpec AgentSteps RunLoop RunLoopSafety.

Module LoopSpec.
Import Clocks Watchdog Handles Actor Safety Spec Steps Loop.

Section frames.
Context `{R : RocksDB, H256 : Sha256, BH : Bincode Store.SnapshotHeader,
          BE : Bincode Log.LogEntry, MP : Msgpack Log.EmitEnvelope}.
Abbreviation host := (SM Caller).

(** ** One logged event *)

Lemma marker_run t p c u c' :
  log_marker t p c = Some (u, c') →
  ∃ ms us r d,
    Log.append (causal_log (world c)) (marker (agent c) ms
      (Log.envelope_new t (id (agent c)) (seq (agent c)) us (p (agent c)))) = (r, d)
    ∧ causal_log (world c') = d
    ∧ content_store (world c') = content_store (world c)
    ∧ cap_stores (world c') = cap_stores (world c) ∧ handle_heap (world c') = handle_heap (world c)
    ∧ agent c' = agent c <| last_action := if r is Ok a then Some a else last_action (agent c) |>.
Proof.
  intros H. unfold log_marker in H. run_step H. unfold record_entry in H. run_step H.
  exists a, a0, a1, d. split; [exact Ea|].
  destruct a1 as [x|e]; run_step H; cbn; split_and!; try done. by destruct (agent c).
Qed.
Lemma lifecycle_run l c u c' :
  log_lifecycle_event l c = Some (u, c') →
  (∃ o, agent c' = agent c <| lifecycle := if decide (lifecycle (agent c) = Terminated) then Terminated else l |>
                           <| last_action := o |>)
  ∧ content_store (world c') = content_store (world c)
  ∧ cap_stores (world c') = cap_stores (world c) ∧ handle_heap (world c') = handle_heap (world c).
Proof.
  intros H. unfold log_lifecycle_event in H. run_step H.
  destruct (_ && _) eqn:E.
  - run_step H. apply andb_true_iff in E as [E%bool_decide_eq_true_1 _]. rewrite decide_True by done.
    split; [|done]. exists (last_action (agent c)). rewrite <-E. by destruct (agent c).
  - run_step H. apply marker_run in H as (ms & us & r & d & _ & _ & ? & ? & ? & ->).
    split; [|done]. eexists. cbn. case_decide as Hl; [|done].
    apply andb_false_iff in E as [E|E]; apply bool_decide_eq_false in E; [done|].
    by destruct (decide (l = Terminated)) as [->|].
Qed.
Lemma crash_run cause c u c' :
  log_agent_crash cause c = Some (u, c') →
  lifecycle (agent c') = Terminated
  ∧ content_store (world c') = content_store (world c)
  ∧ cap_stores (world c') = cap_stores (world c) ∧ handle_heap (world c') = handle_heap (world c)
  ∧ seq (agent c') = seq (agent c) ∧ last_snapshot (agent c') = last_snapshot (agent c)
  ∧ ∃ ms us r, Log.append (causal_log (world c)) (marker (agent c) ms
      (Log.envelope_new Log.AgentCrash (id (agent c)) (seq (agent c)) us (crash_payload cause (agent c))))
      = (r, causal_log (world c')).
Proof.
  intros H. unfold log_agent_crash in H. run_step H.
  apply marker_run in E as (ms & us & r & d & Ea & <- & ? & ? & ? & Eg). cbn. rewrite Eg.
  split_and!; try done. by exists ms, us, r.
Qed.

(** The lifecycle states in which an agent rests. *)
Definition at_rest (s : AgentState) : Prop := lifecycle s = Suspended ∨ lifecycle s = Terminated.
Lemma lifecycle_rest l c : l = Suspended ∨ l = Terminated → wp (log_lifecycle_event l) (λ _ c', at_rest (agent c')) c.
Proof.
  intros Hl u c' ([o ->] & _)%lifecycle_run. unfold at_rest. cbn. case_decide; [by right|]. destruct Hl; subst; auto.
Qed.

End frames.

(** ** Leaving the loop *)

Section exit.
Context `{R : RocksDB, H256 : Sha256, BH : Bincode Store.SnapshotHeader,
          BE : Bincode Log.LogEntry, MP : Msgpack Log.EmitEnvelope}.
Context {G : Type}.
Abbreviation host := (SM Caller).
Abbreviation InferFn :=
  (AgentId → bytes → Z → SM World (result Queue.InferError Queue.InferResponse * Z)).
Context (md : WasmModule G) (infer_fn : InferFn).

Definition same_evicted (ev : EvictedState) (s : AgentState) : Prop :=
  ev_id ev = id s ∧ ev_seq ev = seq s ∧ ev_last_snapshot ev = last_snapshot s ∧ ev_last_action ev = last_action s.
(** The state in which the loop is left, or in which it waits. *)
Definition flow_ok (f : Flow) (s : AgentState) : Prop :=
  match f with
  | Next | Break => True
  | Wait => lifecycle s = AwaitingValidation
  | Return None => lifecycle s = Terminated ∨ lifecycle s = AwaitingValidation
  | Return (Some (_, ev)) => at_rest s ∧ same_evicted ev s
  end.

Lemma run_cycle_flow g payload next c :
  (∀ s, flow_ok (next s) s) → wp (run_cycle md infer_fn g payload next) (λ a c', flow_ok a.2 (agent c')) c.
Proof.
  intros Hn a c' H. unfold run_cycle in H. run_step H. destruct a0 as [g1 [x|e]]; cbn in H; run_step H; cbn.
  - apply Hn.
  - apply crash_run in E0 as [-> _]. by left.
Qed.
Lemma unless_terminated_flow s : flow_ok (unless_terminated s) s.
Proof. unfold unless_terminated. case_decide; cbn; auto. Qed.
Lemma after_data_flow s : flow_ok (after_data s) s.
Proof. unfold after_data. case_decide; [done|]. apply unless_terminated_flow. Qed.
Lemma handle_rollback_flow t c : wp (handle_rollback t) (λ f c', flow_ok f (agent c')) c.
Proof.
  intros f c' H. unfold handle_rollback in H. run_step H.
  destruct (last_snapshot _) as [tip|]; [|by run_step H]. destruct (_ <=? _)%Z; [by run_step H|].
  run_step H. destruct a as [path|e]; run_step H; [done|]. cbn. apply crash_run in E0 as [-> _]. by left.
Qed.
Lemma handle_flow g m c : wp (handle md infer_fn g m) (λ a c', flow_ok a.2 (agent c')) c.
Proof.
  destruct m as [p cause| | |t|v|summary|reply]; cbn [handle]; intros a c' H.
  - run_step H. by apply (run_cycle_flow _ _ _ _ after_data_flow) in H.
  - run_step H. done.
  - run_step H. done.
  - run_step H. by apply handle_rollback_flow in E.
  - run_step H. done.
  - run_step H. by apply (run_cycle_flow _ _ (λ _, Next) _ (λ _, I)) in H.
  - run_step H. cbn. apply (lifecycle_rest Suspended) in E as Hr; [|by left].
    unfold instant_now, on_world in E0. destruct (since_epoch _) as [x k] eqn:Ex. injection E0 as <- <-.
    by split.
Qed.
Lemma await_verdict_inv e c w c' :
  await_verdict e c = Some (w, c') →
  w = Waiting ∧ agent c' = agent c ∨ (∃ pm, w = Over pm) ∨ w = Left ∧ c' = c.
Proof.
  intros H. destruct e as [[]| |run]; cbn [await_verdict] in H; run_step H; eauto.
  left. split; [done|]. unfold await in E. destruct (run (world c)) as [[??]|]; [|done]. by injection E as <- <-.
Qed.
Lemma wait_flow g e c :
  lifecycle (agent c) = AwaitingValidation → wp (wait_event md infer_fn g e) (λ a c', flow_ok a.2 (agent c')) c.
Proof.
  intros Hl a c' H. unfold wait_event in H. apply bind_inv in H as (w & c1 & E & H).
  apply await_verdict_inv in E as [[-> Ea]|[[pm ->]|[-> ->]]].
  - run_step H. cbn. by rewrite Ea.
  - unfold resume in H. run_step H. pose proof (unless_terminated_flow (agent c1)) as Hu.
    destruct (unless_terminated (agent c1)) eqn:Eu; try (by run_step H).
    destruct pm as [m|]; [by apply handle_flow in H|by run_step H].
  - run_step H. by right.
Qed.
Lemma event_loop_flow inbox : ∀ (waiting : bool) g c,
  (waiting = true → lifecycle (agent c) = AwaitingValidation) →
  wp (event_loop md infer_fn waiting g inbox) (λ f c', flow_ok f (agent c')) c.
Proof.
  induction inbox as [|e inbox IH]; intros waiting g c Hw f c' H; cbn [event_loop] in H.
  { run_step H. destruct waiting; cbn; auto. }
  run_step H.
  assert (flow_ok a.2 (agent c0)) as Hf.
  { destruct waiting; [by apply wait_flow in E; auto|].
    destruct e as [m| |run]; cbn [main_event] in E; [by apply handle_flow in E|by run_step E..]. }
  destruct a as [g' []]; cbn [fst snd] in *; try (by run_step H); by apply IH in H; auto.
Qed.

Lemma leave_loop_rest c : wp leave_loop (λ _ c', at_rest (agent c')) c.
Proof.
  apply wp_bind, wp_gets. apply wp_when.
  - intros _. apply lifecycle_rest. by right.
  - intros E. apply andb_false_iff in E as [E|E]; apply negb_false_iff, bool_decide_eq_true_1 in E;
      [by left|by right].
Qed.
(** Before the handles are revoked, the agent rests or is abandoned in a wait. *)
Definition exit_ok (r : option (nat * EvictedState)) (s : AgentState) : Prop :=
  (at_rest s ∨ lifecycle s = AwaitingValidation ∧ r = None)
  ∧ ∀ reply ev, r = Some (reply, ev) → same_evicted ev s.
Lemma run_loop_revokes g inbox c r c' :
  run_loop md infer_fn g inbox c = Some (r, c') →
  ∃ c1 u, exit_ok r (agent c1) ∧ revoke_issued c1 = Some (u, c').
Proof.
  intros H. unfold run_loop in H. apply bind_inv in H as (u0 & c1 & _ & H).
  apply bind_inv in H as (f & c2 & El & H).
  pose proof (event_loop_flow inbox false g c1 ltac:(done) _ _ El) as Hf. cbn beta in Hf.
  assert ((leave_loop;; revoke_issued;; mret None) c2 = Some (r, c') →
    ∃ c1 u, exit_ok r (agent c1) ∧ revoke_issued c1 = Some (u, c')) as Hleave.
  { intros (u1 & c3 & E3%leave_loop_rest & (u2 & c4 & E4 & [-> ->]%ret_inv)%bind_inv)%bind_inv.
    exists c3, u2. split; [|done]. split; [by left|done]. }
  destruct f as [| | |reply]; try (by apply Hleave).
  apply bind_inv in H as (u1 & c3 & E3 & [-> ->]%ret_inv). exists c2, u1. split; [|done].
  destruct reply as [[k ev]|]; cbn [flow_ok] in Hf.
  - destruct Hf as [? ?]. split; [by left|]. by intros ?? [= <- <-].
  - split; [|done]. destruct Hf; [left; by right|by right].
Qed.

(** C13: an agent never leaves its loop in the middle of its life: when
    [run_loop] returns, the agent is suspended or terminated, except when the
    inbox closed or a suspension came while it awaited a verdict; the answer to
    an eviction is the agent's final identity, number, snapshot and action; and
    no handle that the agent issued survives in any store of the registry. *)
Theorem run_loop_exit g inbox c r c' :
  run_loop md infer_fn g inbox c = Some (r, c') →
  (at_rest (agent c') ∨ lifecycle (agent c') = AwaitingValidation ∧ r = None)
  ∧ (∀ reply ev, r = Some (reply, ev) → same_evicted ev (agent c'))
  ∧ ∀ l st k e, in_registry (handle_heap (world c')) (cause_handle_registry (agent c')) l →
      stores (handle_heap (world c')) !! l = Some st → handles st !! k = Some e →
      issuer e ≠ id (agent c').
Proof.
  intros (c1 & u & [Hl Hev] & Hr)%run_loop_revokes.
  unfold revoke_issued, for_agent, on_world in Hr. injection Hr as <- <-. cbn. split_and!; [done|done|].
  intros l st k e Hl' Hst Hk. unfold in_registry, registry_get, revoke_issued_by_all in Hl', Hst.
  rewrite sweep_registries in Hl'.
  rewrite (proj1 (sweep_lookup _ _ _ l (revoke_issued_by_idem _)) Hl') in Hst.
  destruct (stores _ !! l) as [st0|]; [|done]. injection Hst as <-.
  cbn in Hk. by apply map_lookup_filter_Some in Hk as [_ ?].
Qed.

(** ** One cycle *)

(** A session is over, as the documentation of its bounds has it: it has its number
    of actions, or it has lasted as long as it may. *)
Definition session_over (s : AgentState) (now : Z) : Prop :=
  (session_max_actions s ≤ action_count s)%Z
  ∨ (0 < session_max_duration_ms s)%Z ∧ (0 < session_started_at_ms s)%Z
    ∧ (session_max_duration_ms s ≤ now - session_started_at_ms s)%Z.
(** The boundary is logged, and the next session begins. *)
Definition session_closed (c c' : Caller) : Prop :=
  let s := agent c in
  (∃ ms us r d, Log.append (causal_log (world c)) (marker s ms (Log.envelope_new Log.SessionBoundary (id s) (seq s) us
      (le_bytes 8 (session_id s) ++ le_bytes 8 (action_count s)))) = (r, d))
  ∧ ∃ o, agent c' = s <| session_id := u64 (session_id s + 1) |> <| session_start_seq := seq s |>
      <| session_started_at_ms := 0%Z |> <| last_action := o |>
      <| lifecycle := if decide (lifecycle s = Terminated) then Terminated else Checkpointed |>.
Lemma session_bounds_run c u c' :
  check_session_bounds c = Some (u, c') →
  let now := (now_ms (clock (agent c)) (clocks (world c))).1 in
  (session_over (agent c) now → session_closed c c')
  ∧ (¬ session_over (agent c) now → agent c' = agent c ∧ causal_log (world c') = causal_log (world c)).
Proof.
  intros H. unfold check_session_bounds in H. apply bind_inv in H as (elapsed & c1 & E & H). cbv zeta. set (now := (now_ms _ _).1).
  assert (agent c1 = agent c ∧ causal_log (world c1) = causal_log (world c)
    ∧ elapsed = if (0 <? session_started_at_ms (agent c))%Z then saturating_sub now (session_started_at_ms (agent c)) else 0%Z) as (Ec & El & Ee).
  { unfold session_elapsed in E. apply bind_inv in E as (s & c2 & [-> ->]%gets_inv & E). destruct (_ <? _)%Z.
    - apply bind_inv in E as (t & c2 & Et & [-> ->]%ret_inv). unfold clock_ms, on_world in Et. unfold now.
      destruct (now_ms _ _) as [t' k]. by injection Et as <- <-.
    - by apply ret_inv in E as [-> ->]. }
  run_step H. rewrite Ec in H.
  assert (session_over (agent c) now ↔ ((session_max_actions (agent c) <=? action_count (agent c))
    || ((0 <? session_max_duration_ms (agent c)) && (session_max_duration_ms (agent c) <=? elapsed)))%Z = true) as Hover.
  { unfold session_over, saturating_sub in *. rewrite orb_true_iff, andb_true_iff, !Z.leb_le, Z.ltb_lt. rewrite Ee.
    destruct (Z.ltb_spec 0 (session_started_at_ms (agent c))); lia. }
  destruct (_ || _); cbn [when] in H; [|run_step H; split; [by intros ?%Hover|by intros _; rewrite Ec]].
  split; [intros _|by intros Hno; destruct Hno; apply Hover].
  unfold log_session_boundary in H. run_step H. apply marker_run in E0 as (ms & us & r & d & Ea & _ & _ & _ & _ & Eg).
  apply lifecycle_run in H as [[o Eo] _]. cbn in Eo. rewrite Eg, Ec in Eo. rewrite Ec, El in Ea.
  unfold session_closed. split; [by exists ms, us, r, d|]. exists o. rewrite Eo. by destruct (agent c).
Qed.

(** The entry of a commit without emission. *)
Definition silent_entry (s : AgentState) (p : PendingCommit) : Log.LogEntry :=
  Log.mkEntry (id s) (pc_ts_ms p) (pc_parent_ids p) (pc_hash_before p) (pc_hash_after p) None.
(** What one cycle leaves to the next. *)
Definition clean (s : AgentState) : Prop := pending_commit s = None ∧ host_error s = None.

(** The commit that the module left without emission is logged, if there is one. *)
Definition flushed (c c' : Caller) : Prop :=
  match pending_commit (agent c) with
  | None => c' = c
  | Some p => ∃ action d, Log.append (causal_log (world c)) (silent_entry (agent c) p) = (Ok action, d)
      ∧ causal_log (world c') = d ∧ agent c' = agent c <| pending_commit := None |> <| last_action := Some action |>
  end.
Lemma flush_pending_run c u c' : flush_pending c = Some (Ok u, c') → flushed c c'.
Proof.
  destruct u. intros H. unfold flush_pending, flushed in *. run_step H. destruct (pending_commit (agent c)) as [p|] eqn:Ep; [|by run_step H].
  run_step H. destruct a0 as [x|e]; [|by apply ret_inv in H as [? ?]]. run_step H. by exists x, d.
Qed.
Lemma flushed_clean c c' : flushed c c' → pending_commit (agent c') = None ∧ host_error (agent c') = host_error (agent c).
Proof. unfold flushed. destruct (pending_commit (agent c)) as [p|] eqn:Ep; [by intros (x & d & _ & _ & ->)|by intros ->]. Qed.
Lemma end_cycle_run c u c' :
  end_cycle c = Some (Ok u, c') →
  host_error (agent c) = None ∧ clean (agent c') ∧ ∃ c1, flushed c c1
  ∧ let now := (now_ms (clock (agent c1)) (clocks (world c1))).1 in
    (session_over (agent c1) now → session_closed c1 c')
    ∧ (¬ session_over (agent c1) now → agent c' = agent c1 ∧ causal_log (world c') = causal_log (world c1)).
Proof.
  destruct u. intros H. unfold end_cycle in H. run_step H. destruct (host_error (agent c)) as [e|] eqn:Ee.
  { by apply bind_inv in H as (? & ? & _ & [? ?]%ret_inv). }
  apply bind_inv in H as (r & c1 & E & H). destruct r as [x|e]; [|by apply ret_inv in H as [? ?]].
  apply flush_pending_run in E. destruct (flushed_clean _ _ E) as [Ep Eh].
  apply bind_inv in H as (u1 & c2 & [Hover Hon]%session_bounds_run & H). run_step H. set (now := (now_ms _ _).1) in *.
  split; [done|]. split; [|by exists c1]. unfold clean.
  assert (session_over (agent c1) now ∨ ¬ session_over (agent c1) now) as [Ho|Ho] by (unfold session_over; lia).
  - destruct (Hover Ho) as [_ [o ->]]. cbn. by rewrite Eh.
  - destruct (Hon Ho) as [-> _]. by rewrite Eh.
Qed.

(** C14: a cycle of the module starts and ends clean.  A message that is larger
    than a page or than the module's memory is refused without any effect.  A
    cycle that succeeds has met no error in a host function, leaves neither a
    pending commit nor an error to the next one, has logged the commit that the
    module left without emission, if any, and closes the session exactly when it
    is over: when it has its number of actions, or when the agent's clock says
    that it has lasted its duration.  A closed session has its boundary logged and
    the next one starts at the current number, without a start date; a session
    that goes on is left as it is. *)
Theorem process_one_spec deadline g payload c a c' :
  process_one md infer_fn deadline g payload c = Some (a, c') →
  let len := Z.of_nat (length payload) in
  if (MAX_MSG <? len)%Z then a = (g, Err (MessageTooLarge len)) ∧ c' = c
  else if (data_size c <? len)%Z then a = (g, Err MemoryOutOfBounds) ∧ c' = c
  else a.2 = Ok () →
    clean (agent c')
    ∧ ∃ c0 c1 c2, mem_write 0 payload c = Some ((), c0)
        ∧ run_guest infer_fn (process md g deadline (i32 len) (memory c0)) c0 = Some (Ok a.1, c1)
        ∧ host_error (agent c1) = None ∧ flushed c1 c2
        ∧ let now := (now_ms (clock (agent c2)) (clocks (world c2))).1 in
          (session_over (agent c2) now → session_closed c2 c')
          ∧ (¬ session_over (agent c2) now → agent c' = agent c2 ∧ causal_log (world c') = causal_log (world c2)).
Proof.
  intros H len. unfold process_one in H. subst len. cbv zeta in H.
  destruct (MAX_MSG <? _)%Z; [by run_step H|]. apply bind_inv in H as (size & c0 & [-> ->]%gets_inv & H).
  destruct (_ <? _)%Z; [by run_step H|]. intros Hok.
  apply bind_inv in H as ([] & c1 & Em & H). apply bind_inv in H as (m & c1' & [-> ->]%gets_inv & H).
  apply bind_inv in H as (r & c2 & Eg & H). destruct r as [g1|e]; [|by apply ret_inv in H as [-> ->]].
  apply bind_inv in H as (r & c3 & Ee & H). run_step H. cbn in Hok. subst r.
  apply end_cycle_run in Ee as (? & ? & c4 & ? & ?). split; [done|]. by exists c1, c2, c4.
Qed.

End exit.

(** ** Functions that always return *)

Section totality.
Context `{R : RocksDB, H256 : Sha256, BH : Bincode Store.SnapshotHeader,
          BE : Bincode Log.LogEntry, MP : Msgpack Log.EmitEnvelope}.
Abbreviation host := (SM Caller).

Definition total {A} (m : host A) : Prop := ∀ c, ∃ a c', m c = Some (a, c').
Lemma total_ret {A} (a : A) : total (mret a).
Proof. intros c. by exists a, c. Qed.
Lemma total_gets {A} (f : Caller → A) : total (gets f).
Proof. intros c. by exists (f c), c. Qed.
Lemma total_modify f : total (modify f).
Proof. intros c. by exists (), (f c). Qed.
Lemma total_world {A} (f : World → A * World) : total (on_world f).
Proof. intros c. unfold on_world. destruct (f (world c)) as [a w]. by eexists _, _. Qed.
Lemma total_for_agent {A} (f : AgentState → World → A * World) : total (for_agent f).
Proof. intros c. apply total_world. Qed.
Lemma total_clock_ms : total clock_ms.
Proof. intros c. apply total_world. Qed.
Lemma total_clock_us : total clock_us.
Proof. intros c. apply total_world. Qed.
Lemma total_bind {A B} (m : host A) (f : A → host B) : total m → (∀ a, total (f a)) → total (m ≫= f).
Proof.
  intros Hm Hf c. destruct (Hm c) as (a & c1 & E). destruct (Hf a c1) as (b & c2 & E2).
  exists b, c2. unfold mbind, SM_bind. by rewrite E.
Qed.

Lemma bind_returns {A B} (m : host A) (f : A → host B) c a c1 :
  m c = Some (a, c1) → (∃ b c2, f a c1 = Some (b, c2)) → ∃ b c2, (m ≫= f) c = Some (b, c2).
Proof. intros E (b & c2 & E2). exists b, c2. unfold mbind, SM_bind. by rewrite E. Qed.

End totality.

Create HintDb total.
#[export] Hint Resolve total_ret total_gets total_modify total_world total_for_agent total_clock_ms
  total_clock_us : total.
Ltac total := repeat first
  [ solve [eauto with total] | apply total_bind; [solve [total]|intros ?] | progress case_match ].

Section total_logging.
Context `{R : RocksDB, H256 : Sha256, BH : Bincode Store.SnapshotHeader,
          BE : Bincode Log.LogEntry, MP : Msgpack Log.EmitEnvelope}.

Lemma total_set_agent f : total (set_agent f).
Proof. apply total_modify. Qed.
Hint Resolve total_set_agent : total.
Lemma total_record e : total (record_entry e).
Proof. unfold record_entry, append. total. Qed.
Hint Resolve total_record : total.
Lemma total_marker t p : total (log_marker t p).
Proof. unfold log_marker. total. Qed.
Hint Resolve total_marker : total.
Lemma total_lifecycle l : total (log_lifecycle_event l).
Proof. unfold log_lifecycle_event. total. Qed.
Lemma total_crash cause : total (log_agent_crash cause).
Proof. unfold log_agent_crash. total. Qed.
Lemma total_append_rollback e snap : total (append_rollback e snap).
Proof. unfold append_rollback, append. total. Qed.

End total_logging.
#[export] Hint Resolve total_set_agent total_record total_marker total_lifecycle total_crash
  total_append_rollback : total.

(** ** The supervisor's rollback *)

Section rollback.
Context `{R : RocksDB, !RocksLaws R, H256 : Sha256, BH : Bincode Store.SnapshotHeader,
          BE : Bincode Log.LogEntry, MP : Msgpack Log.EmitEnvelope}.

Lemma handle_rollback_total target_seq c :
  Store.linked (content_store (world c)) → ∃ f c', handle_rollback target_seq c = Some (f, c').
Proof.
  intros Hl%Store.linked_decreasing. unfold handle_rollback. eapply bind_returns; [done|]. cbn beta.
  destruct (last_snapshot (agent c)) as [tip|]; [|by apply total_ret].
  destruct (_ <=? _)%Z; [by apply total_ret|].
  destruct (Store.walk_total _ target_seq tip Hl) as [r Hr%(Store.rollback_path_walk _ _ _ _ Hl)].
  eapply (bind_returns _ _ _ r c); [unfold rollback_path; by rewrite Hr|]. cbn beta.
  match goal with |- ∃ f c', ?m c = _ => enough (total m) as Ht by apply Ht end.
  unfold revoke_after. destruct r; total.
Qed.

(** The event of a rollback of [s] from [tip] to [snap]. *)
Definition rollback_event (s : AgentState) (ms us : Z) (tip snap : Hash) (path : list Hash)
    (target_seq : Z) (revoked : nat) : Log.LogEntry :=
  Log.mkEntry (id s) ms (option_list (last_action s)) tip snap
    (Some (Log.to_msgpack (Log.envelope_new Log.SchedulerRollback (id s) (seq s) us
      (scheduler_rollback_payload (Z.min (Z.of_nat (length path - 1)) 255) target_seq
        (Z.min (Z.of_nat revoked) 255))))).

Lemma revoke_after_run t c n c' :
  revoke_after t c = Some (n, c') →
  let s := agent c in
  let '(revoked, st) := Caps.revoke_owned_after (default Caps.new (cap_stores (world c) !! cap_store s)) (id s) t in
  n = Z.min (Z.of_nat revoked) 255 ∧ agent c' = s
  ∧ cap_stores (world c') = <[cap_store s := st]> (cap_stores (world c))
  ∧ handle_heap (world c') = revoke_issued_after_all (handle_heap (world c)) (cause_handle_registry s) (id s) t
  ∧ content_store (world c') = content_store (world c) ∧ causal_log (world c') = causal_log (world c).
Proof.
  unfold revoke_after, for_agent, on_world. cbn zeta.
  destruct (Caps.revoke_owned_after _ _ _) as [revoked st]. by intros [= <- <-].
Qed.
Lemma append_rollback_world e target c u c' :
  append_rollback e target c = Some (u, c') →
  cap_stores (world c') = cap_stores (world c) ∧ handle_heap (world c') = handle_heap (world c).
Proof.
  intros H. unfold append_rollback in H. run_step H.
  match goal with Ea : Log.append _ _ = (?r, _) |- _ => destruct r end; by run_step H.
Qed.

(** What a rollback that finds its target does. *)
Record rolled_back (c c' : Caller) (tip snap : Hash) (header : Store.SnapshotHeader) (path : list Hash)
    (target_seq : Z) : Prop := {
  rb_last : last path = Some snap;
  rb_header : Store.get_header (content_store (world c)) snap = Ok (Some header);
  rb_seq : Store.seq header = target_seq;
  rb_store : content_store (world c') = content_store (world c);
  rb_number : seq (agent c') = seq (agent c);
  rb_caps : cap_stores (world c') = <[cap_store (agent c) :=
    (Caps.revoke_owned_after (default Caps.new (cap_stores (world c) !! cap_store (agent c)))
      (id (agent c)) (Store.ts_us header / 1000)).2]> (cap_stores (world c));
  rb_handles : handle_heap (world c') = revoke_issued_after_all (handle_heap (world c))
    (cause_handle_registry (agent c)) (id (agent c)) (Store.ts_us header / 1000);
  rb_log : ∃ ms us r d, Log.append (causal_log (world c))
      (rollback_event (agent c) ms us tip snap path target_seq
        (Caps.revoke_owned_after (default Caps.new (cap_stores (world c) !! cap_store (agent c)))
          (id (agent c)) (Store.ts_us header / 1000)).1) = (r, d)
    ∧ last_snapshot (agent c') = Some (if is_ok r then snap else tip) }.

Lemma handle_rollback_ok target_seq c f c' tip path :
  last_snapshot (agent c) = Some tip → (target_seq < seq (agent c))%Z →
  Store.rollback_path (content_store (world c)) tip target_seq = Some (Ok path) →
  handle_rollback target_seq c = Some (f, c') →
  f = Next ∧ ∃ snap header, rolled_back c c' tip snap header path target_seq.
Proof.
  intros Et Hlt Hp H. unfold handle_rollback in H. run_step H. rewrite Et in H.
  rewrite (proj2 (Z.leb_gt _ _) Hlt) in H.
  apply bind_inv in H as (r & c1 & [Ew ->]%rollback_path_inv & H). rewrite Hp in Ew. injection Ew as <-.
  destruct (Store.rollback_path_last _ _ _ _ Hp) as (snap & header & El & Eh & Es).
  rewrite El in H. cbn [default] in H.
  apply bind_inv in H as (ms & c1 & [k1 ->]%clock_ms_inv & H).
  apply bind_inv in H as (us & c2 & [k2 ->]%clock_us_inv & H).
  apply bind_inv in H as (h & c3 & [-> ->]%gets_inv & H). unfold get_header in H. cbn in Eh, H. rewrite Eh in H.
  apply bind_inv in H as (n & c4 & Er%revoke_after_run & H). cbn in Er.
  destruct (Caps.revoke_owned_after _ _ _) as [revoked st] eqn:Ec.
  destruct Er as (-> & Ea & Ecs & Eh' & Est & Elog).
  apply bind_inv in H as (u1 & c5 & Hr & H). pose proof (append_rollback_world _ _ _ _ _ Hr) as [Ecs' Eh''].
  apply append_rollback_inv in Hr as (r & Eap & Est' & Eag).
  apply bind_inv in H as (u2 & c6 & ([o Eag'] & Est'' & Ecs'' & Eh3)%lifecycle_run & H). run_step H.
  split; [done|]. exists snap, header. split; try done; rewrite ?Ec; cbn [fst snd]; try congruence.
  - rewrite Eag'. cbn. rewrite Eag, Ea. by destruct r.
  - exists ms, us, r, (causal_log (world c5)). rewrite Elog in Eap. split; [exact Eap|].
    rewrite Eag'. cbn. rewrite Eag, Ea. destruct r; [done|exact Et].
Qed.

(** C5: a rollback by the supervisor is decided by the stored chain.  On a
    linked store the handler returns; an agent without snapshot or with a target
    in its future ignores the message; a chain that does not lead to the target
    ends the agent, with one crash entry and nothing else changed; and otherwise
    the snapshot moves to the ancestor with exactly the target number, the
    agent's capabilities and the handles it issued after that snapshot's time
    are revoked, in all tenants for the handles, and the event that is logged
    gives the distance and the number of revoked capabilities. *)
Theorem handle_rollback_spec target_seq c :
  Store.linked (content_store (world c)) →
  (∃ f c', handle_rollback target_seq c = Some (f, c'))
  ∧ ∀ f c', handle_rollback target_seq c = Some (f, c') →
    match last_snapshot (agent c) with
    | None => f = Next ∧ c' = c
    | Some tip =>
        if (seq (agent c) <=? target_seq)%Z then f = Next ∧ c' = c
        else ∃ res, Store.walk (content_store (world c)) target_seq tip res ∧
          match res with
          | Err _ =>
              f = Return None ∧ lifecycle (agent c') = Terminated ∧ last_snapshot (agent c') = Some tip
              ∧ content_store (world c') = content_store (world c)
              ∧ cap_stores (world c') = cap_stores (world c) ∧ handle_heap (world c') = handle_heap (world c)
              ∧ ∃ ms us r, Log.append (causal_log (world c)) (marker (agent c) ms
                  (Log.envelope_new Log.AgentCrash (id (agent c)) (seq (agent c)) us
                    (crash_payload ContentStoreBroken (agent c)))) = (r, causal_log (world c'))
          | Ok path => f = Next ∧ ∃ snap header, rolled_back c c' tip snap header path target_seq
          end
    end.
Proof.
  intros Hl. split; [by apply handle_rollback_total|]. apply Store.linked_decreasing in Hl.
  intros f c' H. destruct (last_snapshot (agent c)) as [tip|] eqn:Et.
  2: { unfold handle_rollback in H. run_step H. rewrite Et in H. by run_step H. }
  destruct (seq (agent c) <=? target_seq)%Z eqn:Eq.
  { unfold handle_rollback in H. run_step H. rewrite Et, Eq in H. by run_step H. }
  destruct (Store.walk_total _ target_seq tip Hl) as [res Hw]. exists res. split; [done|].
  apply (Store.rollback_path_walk _ _ _ _ Hl) in Hw. destruct res as [path|e].
  - apply Z.leb_gt in Eq. by eapply handle_rollback_ok.
  - unfold handle_rollback in H. run_step H. rewrite Et, Eq in H.
    apply bind_inv in H as (r & c1 & [Ew ->]%rollback_path_inv & H). rewrite Hw in Ew. injection Ew as <-.
    apply bind_inv in H as (u & c2 & (Hc1 & Hc2 & Hc3 & Hc4 & Hc5 & El & Ea)%crash_run & H). run_step H.
    rewrite El, Et. split_and!; done.
Qed.

End rollback.

(** ** Eviction and restoration *)

Section eviction.
Context `{R : RocksDB, !RocksLaws R, H256 : Sha256, !Sha256Laws H256,
          BH : Bincode Store.SnapshotHeader, !BincodeLaws Store.SnapshotHeader Store.header_ok,
          BE : Bincode Log.LogEntry, !BincodeLaws Log.LogEntry Log.entry_ok,
          MP : Msgpack Log.EmitEnvelope, !MsgpackSize Log.EmitEnvelope Log.envelope_ok}.
Context {G : Type}.
Abbreviation InferFn :=
  (AgentId → bytes → Z → SM World (result Queue.InferError Queue.InferResponse * Z)).

Lemma check_resume_stored ev w :
  (∀ h, ev_last_snapshot ev = Some h → stored w h) →
  check_resume_snapshot ev w = Ok () ∨ ∃ e, check_resume_snapshot ev w = Err (StoreFailed (Store.Rocks e)).
Proof.
  intros Hs. unfold check_resume_snapshot. destruct (ev_last_snapshot ev) as [h|]; [|by left].
  unfold Store.has_snapshot. destruct (db_get _ _ _) as [o|e] eqn:Eg; cbn; [|by right; eexists].
  apply db_get_ok in Eg. destruct (Hs h eq_refl) as [b Hb]. rewrite Hb in Eg. subst o.
  by left; rewrite bool_decide_eq_true_2 by done.
Qed.
(** An instance as the builder makes it by default, with a capability store, a
    registry of handles and a key-value store that did not exist. *)
Definition default_agent (agent_id : AgentId) (chs reg cs kv : nat) : AgentState :=
  mkAgent agent_id DEFAULT chs reg 0 None None Spawned false None None [] 1 0 0 SESSION_DEFAULT_MAX_ACTIONS
    SESSION_DEFAULT_MAX_DURATION_MS cs [] SESSION_DEFAULT_VALIDATION_TIMEOUT_MS LlmShort None None SystemClock kv
    limiter_default None.
Definition fresh_stores (w w' : World) (chs reg cs kv : nat) : Prop :=
  cap_stores w !! cs = None ∧ cap_stores w' = <[cs := Caps.new]> (cap_stores w)
  ∧ kv_stores w !! kv = None ∧ kv_stores w' = <[kv := ∅]> (kv_stores w)
  ∧ registries (handle_heap w) !! reg = None ∧ registries (handle_heap w') = <[reg := {[DEFAULT := chs]}]> (registries (handle_heap w))
  ∧ stores (handle_heap w) !! chs = None ∧ stores (handle_heap w') = <[chs := handles_new]> (stores (handle_heap w)).
Lemma new_instance_run (md : WasmModule G) agent_id w :
  ∃ r w', (b ← builder_new md agent_id; build b) w = Some (r, w')
    ∧ content_store w' = content_store w ∧ causal_log w' = causal_log w
    ∧ match instantiate md false with
      | Err e => r = Err (Wasmtime e)
      | Ok (g, m) => ∃ chs reg cs kv, r = Ok (mkInstance (default_agent agent_id chs reg cs kv) m g md None)
          ∧ fresh_stores w w' chs reg cs kv
      end.
Proof.
  unfold builder_new, build, new_cap_store, new_registry, new_kv_store, get_handle_store, registry_new, get_or_create, registry_get, mbind, SM_bind.
  cbn. rewrite lookup_insert_eq. cbn. rewrite lookup_empty. eexists _, _. split; [done|]. split; [done|]. split; [done|].
  destruct (instantiate md false) as [[g m]|e]; [|done]. eexists _, _, _, _. split; [done|].
  unfold fresh_stores. cbn. rewrite alter_insert_eq. split_and!; try done; apply not_elem_of_dom, is_fresh.
Qed.

(** C12: an eviction followed by a restoration.  If the loop of a sound agent
    answered an eviction, restoring the answer in the world the loop left behind
    always returns, writes nothing to the store nor to the log, and fails only if
    a database read fails or the module cannot be instantiated.  The new instance
    is the one the builder makes by default, with the identity, the sequence
    number, the last snapshot and the last action of the agent that was evicted,
    and these four are all that survives: the tenant, the capabilities and their
    store, the session, the profile, the clock, the key-value store, the handles,
    the timeouts, the parent, the limiter, the waiting causes and the memory are
    the defaults of a new agent, where the documentation says that it resumes
    exactly where it stopped.  And a state whose snapshot is not in the store is
    refused, with nothing changed. *)
Theorem eviction_roundtrip (md : WasmModule G) (infer_fn : InferFn) (md' : WasmModule G) g inbox c reply ev c' :
  run_loop md infer_fn g inbox c = Some (Some (reply, ev), c') → state_ok (world c') (agent c') →
  (∃ r w', restore_from_evicted md' ev (world c') = Some (r, w')
    ∧ content_store w' = content_store (world c') ∧ causal_log w' = causal_log (world c')
    ∧ match r with
      | Ok i => let s := agent c' in ∃ chs reg cs kv g' m, instantiate md' false = Ok (g', m)
          ∧ i = mkInstance (default_agent (id s) chs reg cs kv <| seq := seq s |> <| last_snapshot := last_snapshot s |>
                              <| last_action := last_action s |>) m g' md' None
          ∧ fresh_stores (world c') w' chs reg cs kv
      | Err e => (∃ e', e = StoreFailed (Store.Rocks e')) ∨ (∃ e', e = Wasmtime e' ∧ instantiate md' false = Err e')
      end)
  ∧ ∀ ev' snap w, ev_last_snapshot ev' = Some snap → db_get (content_store w) "headers" snap = Ok None →
      restore_from_evicted md' ev' w = Some (Err (StoreFailed (Store.MissingBlock snap)), w).
Proof.
  intros H Hs. split.
  - apply run_loop_revokes in H as (c1 & u & [_ Hev] & Hr).
    assert (agent c1 = agent c') as Ea by (unfold revoke_issued, for_agent, on_world in Hr; by injection Hr as _ <-).
    destruct (Hev _ _ eq_refl) as (Ei & Eq & Esn & Eac). rewrite Ea in Ei, Eq, Esn, Eac.
    unfold restore_from_evicted, restore_with.
    destruct (check_resume_stored ev (world c')) as [Ec|[e Ec]].
    { intros h Hh. rewrite Esn in Hh. by apply (so_snapshot _ _ Hs). }
    + destruct (new_instance_run md' (ev_id ev) (world c')) as (r & w' & Er & Est & Elo & Hi).
      unfold mbind, SM_bind, gets in Er |- *. rewrite Ec. destruct (builder_new md' (ev_id ev) (world c')) as [[b w1]|]; [|done]. rewrite Er.
      eexists _, w'. split; [done|]. split; [done|]. split; [done|]. destruct (instantiate md' false) as [[g' m]|e] eqn:Einst.
      * destruct Hi as (chs & reg & cs & kv & -> & Hf). cbn. exists chs, reg, cs, kv, g', m. split; [done|]. split; [|done].
        unfold copy_evicted_fields. cbn. by rewrite Ei, Eq, Esn, Eac.
      * subst r. right. by exists e.
    + eexists _, (world c'). unfold mbind, SM_bind, gets. rewrite Ec. split_and!; try done. left. by eexists.
  - intros ev' snap w Hsn Hg. unfold restore_from_evicted, restore_with, mbind, SM_bind, gets, check_resume_snapshot.
    rewrite Hsn. unfold Store.has_snapshot. by rewrite Hg.
Qed.

End eviction.
(** ** Concrete runs *)

Lemma run_loop_exit_witness :
  ∃ r c', run_loop demo_module demo_infer () demo_inbox demo_caller = Some (r, c')
    ∧ (at_rest (agent c') ∨ lifecycle (agent c') = AwaitingValidation ∧ r = None).
Proof.
  assert (returns (run_loop demo_module demo_infer () demo_inbox) demo_caller = true) as Hr
    by (vm_compute; reflexivity).
  destruct (returns_Some _ _ Hr) as (r & c' & E). clear Hr. exists r, c'.
  destruct (run_loop_exit demo_module demo_infer () demo_inbox demo_caller r c' E) as (H & _).
  split; [exact E|exact H].
Defined.

(** A run that ends with success. *)
Definition succeeds {S A B E} (m : SM S (A * result E B)) (s : S) : bool :=
  match m s with Some ((_, Ok _), _) => true | _ => false end.
Lemma succeeds_Some {S A B E} (m : SM S (A * result E B)) s :
  succeeds m s = true → ∃ a b s', m s = Some ((a, Ok b), s').
Proof. unfold succeeds. destruct (m s) as [[[a [b|e]] s']|]; [eauto|done..]. Qed.
Lemma process_one_spec_witness :
  ∃ g c', process_one demo_module demo_infer 500 () demo_message demo_caller = Some ((g, Ok ()), c')
    ∧ clean (agent c').
Proof.
  assert (succeeds (process_one demo_module demo_infer 500 () demo_message) demo_caller = true) as Hr
    by (vm_compute; reflexivity).
  destruct (succeeds_Some _ _ Hr) as (g & [] & c' & E). clear Hr. exists g, c'. split; [exact E|].
  pose proof (process_one_spec demo_module demo_infer 500 () demo_message demo_caller (g, Ok ()) c' E) as H.
  cbv zeta in H.
  assert ((MAX_MSG <? Z.of_nat (length demo_message))%Z = false) as Em by (vm_compute; reflexivity).
  assert ((data_size demo_caller <? Z.of_nat (length demo_message))%Z = false) as Es by (vm_compute; reflexivity).
  rewrite Em, Es in H. destruct (H eq_refl) as [Hc _]. exact Hc.
Defined.

Lemma handle_rollback_spec_witness : ∃ f c', handle_rollback 4 demo_back = Some (f, c').
Proof. exact (proj1 (handle_rollback_spec 4 demo_back Store.demo_linked)). Defined.

Lemma demo_run_state_ok r c' :
  run_loop demo_module demo_infer () demo_inbox demo_caller = Some (r, c') → state_ok (world c') (agent c').
Proof.
  intros E. set (authors := λ a, a = id (agent demo_caller)).
  assert (LoopSafety.good [] authors 16 demo_caller) as Hc.
  { split; [|unfold few; cbn; lia].
    split; [apply winv_intro, demo_world_inv|apply demo_state_ok|reflexivity|by vm_compute]. }
  destruct (LoopSafety.run_loop_good [] authors demo_module demo_infer
    (LoopSafety.demo_module_ok _ _) (LoopSafety.demo_infer_safe _ _) (λ _, False) 16 () demo_inbox demo_caller
    I (λ a f, match f with end) ltac:(unfold MAX_EXTRA_CAUSES; lia) ltac:(by vm_compute) Hc r c' E) as [Hi _].
  apply (inv_state _ _ _ Hi).
Qed.
(** A run that answers an eviction. *)
Definition answers {S A} (m : SM S (option A)) (s : S) : bool :=
  match m s with Some (Some _, _) => true | _ => false end.
Lemma answers_Some {S A} (m : SM S (option A)) s : answers m s = true → ∃ a s', m s = Some (Some a, s').
Proof. unfold answers. destruct (m s) as [[[a|] s']|]; [eauto|done..]. Qed.
Lemma eviction_roundtrip_witness :
  ∃ reply ev c' r w', run_loop demo_module demo_infer () demo_inbox demo_caller = Some (Some (reply, ev), c')
    ∧ restore_from_evicted demo_module ev (world c') = Some (r, w')
    ∧ causal_log w' = causal_log (world c')
    ∧ ∀ i, r = Ok i → seq (inst_state i) = seq (agent c').
Proof.
  assert (answers (run_loop demo_module demo_infer () demo_inbox) demo_caller = true) as Hr
    by (vm_compute; reflexivity).
  destruct (answers_Some _ _ Hr) as ([reply ev] & c' & E). clear Hr.
  pose proof (proj1 (eviction_roundtrip demo_module demo_infer demo_module () demo_inbox demo_caller reply ev c' E
    (demo_run_state_ok _ _ E))) as (r & w' & Er & _ & El & Hi).
  exists reply, ev, c', r, w'. split; [exact E|split; [exact Er|split; [exact El|]]].
  intros i ->. destruct Hi as (chs & reg & cs & kv & g' & m & _ & -> & _). reflexivity.
Defined.

End LoopSpec.
