(* ===== verification/Scheduler.v ===== *)
(** Scheduler: the directory of agents and the policy of their supervision.

    Models [poc/runtime/src/scheduler.rs]: the [Registry] (mechanism), the
    [Supervisor] (policy) and the [Scheduler] that composes them.  Tasks,
    channels and join handles belong to Tokio, so they are an interface,
    [TaskRuntime]: a sender, a handle and a oneshot channel are names.  The inbox
    of an agent and its [run_loop] live behind [spawn]; an operation that waits
    may change the runtime's state, in which the shared world is found.  A
    computation without result has panicked or waits forever.  The I/O admission
    queue, modelled in [IoQueue], is used through [IoAccess]. *)
From Stdlib Require Import String.
From S2P Require Import Prelude Storage Capabilities ContentStore CausalLog InferQueue IoQueue Clock CauseHandles Actor RunLoop.

Module Sched.
Import Clocks Watchdog Handles Actor Loop.

(** ** Tasks *)

Class TaskRuntime `{R : RocksDB, H256 : Sha256, BH : Bincode Store.SnapshotHeader,
    BE : Bincode Log.LogEntry, MP : Msgpack Log.EmitEnvelope} (G : Type) := {
  rt : Type;
  rt_world : rt → World;
  rt_set : World → rt → rt;
  (** [mpsc::channel(32)] and [tokio::spawn(run_loop(instance, rx))] *)
  spawn : ActorInstance (G := G) → rt → (nat * nat) * rt;
  (** [tx.send(msg).await] *)
  chan_send : nat → Message → SM rt (result () ());
  (** [oneshot::channel()] *)
  oneshot : rt → nat * rt;
  (** [rx.await] *)
  oneshot_recv : nat → SM rt (option EvictedState);
  is_finished : nat → rt → bool;
  (** [handle.await] *)
  join : nat → SM rt () }.

Section ops.
Context `{R : RocksDB, H256 : Sha256, BH : Bincode Store.SnapshotHeader,
          BE : Bincode Log.LogEntry, MP : Msgpack Log.EmitEnvelope}.
Context {G : Type} `{!TaskRuntime G}.

(** [IoAdmissionQueue::acquire] and the drop of its permit. *)
Record IoAccess := mkIo {
  acquire : AgentId → Queue.PriorityClass → option Z → SM rt (result IoState.IoError nat);
  drop_permit : nat → SM rt () }.

(** ** State *)

Record Registry := mkRegistry {
  senders : gmap AgentId nat;
  join_handles : gmap AgentId nat;
  dormant : gmap AgentId EvictedState;
  tenants : gmap AgentId TenantId;
  cap_store_tenant : gmap nat TenantId;
  agent_cap_ptr : gmap AgentId nat }.
#[global] Instance Registry_settable : Settable Registry := λ r,
  mkRegistry (senders r) (join_handles r) (dormant r) (tenants r) (cap_store_tenant r) (agent_cap_ptr r).

(** [log_ref] is the shared log, or nothing. *)
Record Supervisor := mkSupervisor {
  sup_cap_store : nat;
  cancel_fn : option (AgentId → SM rt ());
  log_ref : bool }.
#[global] Instance Supervisor_settable : Settable Supervisor := λ s,
  mkSupervisor (sup_cap_store s) (cancel_fn s) (log_ref s).

(** The scheduler and the runtime it lives in. *)
Record System := mkSystem {
  registry : Registry;
  supervisor : Supervisor;
  sched_cap_store : nat;
  runtime : rt }.
#[global] Instance System_settable : Settable System := λ s,
  mkSystem (registry s) (supervisor s) (sched_cap_store s) (runtime s).

Abbreviation sys := (SM System).

(** ** Errors *)

Inductive SupervisionAuthority := Orchestrator | Tenant (t : TenantId).
#[global] Instance SupervisionAuthority_eq_dec : EqDecision SupervisionAuthority.
Proof. solve_decision. Defined.
(** Why a message was not routed: [agent inconnu], or a closed channel. *)
Inductive RouteError := AgentUnknown | ChannelClosed.
Inductive SupervisionError := CrossTenantDenied | Routing (e : RouteError).
Inductive EvictError := EvictRoute (e : RouteError) | ReplyClosed.
(** The texts of [DeliverError::WakeFailed]. *)
Inductive WakeError := NotDormant | RestoreFailed (e : RuntimeError) | IoCancelled | SendAfterWake.
Inductive DeliverError := Unknown | IoCongested | WakeFailed (e : WakeError) | DanglingSnapshot (h : Hash).

(** ** Lifting *)

Definition on_rt {A} (m : SM rt A) : sys A := λ s,
  (λ '(a, r), (a, s <| runtime := r |>)) <$> m (runtime s).
Definition rt_pure {A} (f : rt → A * rt) : sys A := on_rt (λ r, Some (f r)).
Definition in_world {A} (m : SM World A) : sys A := on_rt (λ r,
  (λ '(a, w), (a, rt_set w r)) <$> m (rt_world r)).
Definition set_registry (f : Registry → Registry) : sys () := modify (λ s, s <| registry ::= f |>).

(** ** Registry *)

Definition registry_empty : Registry := mkRegistry ∅ ∅ ∅ ∅ ∅ ∅.

Definition tenant_of (agent : AgentId) (r : Registry) : option TenantId := tenants r !! agent.
Definition is_active (agent : AgentId) (r : Registry) : bool := bool_decide (is_Some (senders r !! agent)).
Definition is_dormant (target : AgentId) (r : Registry) : bool := bool_decide (is_Some (dormant r !! target)).
Definition dormant_state (target : AgentId) (r : Registry) : option EvictedState := dormant r !! target.
Definition dormant_count (r : Registry) : nat := size (dormant r).

(** The body of the loop of [reap]. *)
Definition reap_one (r : Registry) (id : AgentId) : Registry :=
  let r := r <| join_handles ::= delete id |> <| senders ::= delete id |> <| tenants ::= delete id |> in
  match agent_cap_ptr r !! id with
  | None => r
  | Some ptr =>
      let r := r <| agent_cap_ptr ::= delete id |> in
      if decide (ptr ∈ (map_to_list (agent_cap_ptr r)).*2) then r
      else r <| cap_store_tenant ::= delete ptr |>
  end.
Definition finished (rs : rt) (r : Registry) : list AgentId :=
  (filter (λ ih, is_finished ih.2 rs = true) (map_to_list (join_handles r))).*1.
Definition reap_registry (rs : rt) (r : Registry) : Registry := foldl reap_one r (finished rs r).
Definition reap : sys () := modify (λ s, s <| registry ::= reap_registry (runtime s) |>).

(** The guard of [register] panics: a capability store has one tenant. *)
Definition shared_across (ptr : nat) (tenant : TenantId) (r : Registry) : bool :=
  match cap_store_tenant r !! ptr with
  | Some owner => negb (bool_decide (owner = tenant))
  | None => false
  end.
Definition panic {A} : sys A := λ _, None.

Definition index_agent (id : AgentId) (tenant : TenantId) (ptr : nat) (r : Registry) : Registry :=
  r <| cap_store_tenant ::= insert ptr tenant |> <| agent_cap_ptr ::= insert id ptr |>
    <| tenants ::= insert id tenant |>.
Definition register (i : ActorInstance (G := G)) : sys nat :=
  reap;;
  let agent := id (inst_state i) in
  let owner := tenant (inst_state i) in
  let cap_ptr := cap_store (inst_state i) in
  r ← gets registry;
  if shared_across cap_ptr owner r then panic
  else
    set_registry (index_agent agent owner cap_ptr);;
    h ← rt_pure (spawn i);
    let '(tx, handle) := h in
    set_registry (λ r, r <| senders ::= insert agent tx |> <| join_handles ::= insert agent handle |>);;
    mret tx.

Definition send (target : AgentId) (msg : Message) : sys (result RouteError ()) :=
  r ← gets registry;
  match senders r !! target with
  | None => mret (Err AgentUnknown)
  | Some tx => r ← on_rt (chan_send tx msg); mret (map_err (λ _, ChannelClosed) r)
  end.
Definition send_caused_by (target : AgentId) (payload : bytes) (cause : ActionId) : sys (result RouteError ()) :=
  send target (caused payload cause).

Definition instant : sys Z := in_world (λ w,
  let '(t, k) := since_epoch (clocks w) in Some (t, w <| clocks := k |>)).

Definition join_target (target : AgentId) : sys () :=
  r ← gets registry;
  match join_handles r !! target with
  | Some handle => set_registry (λ r, r <| join_handles ::= delete target |>);; on_rt (join handle)
  | None => mret ()
  end.
Definition evict_agent (target : AgentId) : sys (result EvictError EvictedState) :=
  reply ← rt_pure oneshot;
  r ← send target (Evict reply);
  match r with
  | Err e => mret (Err (EvictRoute e))
  | Ok _ =>
      a ← on_rt (oneshot_recv reply);
      match a with
      | None => mret (Err ReplyClosed)
      | Some evicted =>
          now ← instant;
          let evicted := evicted <| evicted_at := now |> in
          join_target target;;
          set_registry (λ r, r <| senders ::= delete target |>
                               <| dormant ::= insert (ev_id evicted) evicted |>);;
          mret (Ok evicted)
      end
  end.

Definition wake_error (e : RuntimeError) : DeliverError :=
  match e with
  | StoreFailed (Store.MissingBlock h) => DanglingSnapshot h
  | e => WakeFailed (RestoreFailed e)
  end.
Definition wake_agent (target : AgentId) (md : WasmModule G) : sys (result DeliverError AgentId) :=
  r ← gets registry;
  match dormant r !! target with
  | None => mret (Err (WakeFailed NotDormant))
  | Some evicted =>
      set_registry (λ r, r <| dormant ::= delete target |>);;
      r ← in_world (restore_from_evicted md evicted);
      match r with
      | Err e => mret (Err (wake_error e))
      | Ok i => register i;; mret (Ok target)
      end
  end.

Definition acquire_error (e : IoState.IoError) : DeliverError :=
  match e with IoState.NoSlot => IoCongested | IoState.Cancelled => WakeFailed IoCancelled end.
Definition deliver (target : AgentId) (msg : Message) (io : IoAccess) (priority : Queue.PriorityClass)
    (md : WasmModule G) : sys (result DeliverError ()) :=
  r ← gets registry;
  if is_active target r then
    x ← send target msg; mret (map_err (λ _, Unknown) x)
  else match dormant r !! target with
  | Some ev =>
      p ← on_rt (acquire io target priority (Some (evicted_at ev)));
      match p with
      | Err e => mret (Err (acquire_error e))
      | Ok permit =>
          w ← wake_agent target md;
          on_rt (drop_permit io permit);;
          match w with
          | Err e => mret (Err e)
          | Ok _ => x ← send target msg; mret (map_err (λ _, WakeFailed SendAfterWake) x)
          end
      end
  | None => mret (Err Unknown)
  end.

(** ** Supervisor *)

Definition authorize (r : Registry) (target : AgentId) (authority : SupervisionAuthority)
    : result SupervisionError () :=
  match authority with
  | Orchestrator => Ok ()
  | Tenant t =>
      match tenant_of target r with
      | Some owner => if decide (owner = t) then Ok () else Err CrossTenantDenied
      | None => Err CrossTenantDenied
      end
  end.

(** An operation under an authority: a refusal ends it. *)
Definition authorized {A} (target : AgentId) (authority : SupervisionAuthority)
    (m : sys (result SupervisionError A)) : sys (result SupervisionError A) :=
  r ← gets registry;
  match authorize r target authority with
  | Err e => mret (Err e)
  | Ok _ => m
  end.
Definition route (target : AgentId) (msg : Message) : sys (result SupervisionError ()) :=
  x ← send target msg; mret (map_err Routing x).

Definition checkpoint_as (target : AgentId) (authority : SupervisionAuthority) : sys (result SupervisionError ()) :=
  authorized target authority (route target Loop.Checkpoint).
Definition suspend_as (target : AgentId) (authority : SupervisionAuthority) : sys (result SupervisionError ()) :=
  authorized target authority (route target Suspend).
Definition respond_validation (target : AgentId) (verdict : ValidationVerdict) : sys (result RouteError ()) :=
  send target (ValidationResponse verdict).
Definition resume_session (target : AgentId) (summary : bytes) : sys (result RouteError ()) :=
  send target (SessionResume summary).

(** The journal of compensation. *)
Definition SCHEDULER_AGENT_ID : AgentId := replicate 16 Byte.xff.
Definition scheduler_entry (t : Log.EmitType) (ts us : Z) (payload : bytes) : Log.LogEntry :=
  Log.mkEntry SCHEDULER_AGENT_ID ts [] (zeros 32) (zeros 32)
    (Some (Log.to_msgpack (Log.envelope_new t SCHEDULER_AGENT_ID 0 us payload))).
Definition emit_scheduler (t : Log.EmitType) (payload : bytes) : sys () := in_world (λ w,
  let '(ts, k) := now_ms SystemClock (clocks w) in
  let '(us, k) := now_us SystemClock k in
  let '(_, d) := Log.append (causal_log w) (scheduler_entry t ts us payload) in
  Some ((), w <| clocks := k |> <| causal_log := d |>)).
Definition emit_compensation_open (target : AgentId) : sys () :=
  emit_scheduler Log.CompensationOpen (target ++ zeros 32).
Definition emit_compensation_close (target : AgentId) (target_seq outcome : Z) : sys () :=
  emit_scheduler Log.CompensationClose (target ++ le_bytes 8 target_seq ++ [z2b outcome]).

Definition cancel_target (target : AgentId) : sys () :=
  s ← gets supervisor;
  match cancel_fn s with
  | Some cancel => on_rt (cancel target)
  | None => mret ()
  end.
Definition with_log (m : sys ()) : sys () := s ← gets supervisor; when (log_ref s) m.
Definition rollback_as (target : AgentId) (target_seq : Z) (authority : SupervisionAuthority)
    : sys (result SupervisionError ()) :=
  authorized target authority (
    with_log (emit_compensation_open target);;
    cancel_target target;;
    send_result ← send target (Rollback target_seq);
    with_log (emit_compensation_close target target_seq (if is_ok send_result then 0x00 else 0x02));;
    mret (map_err Routing send_result)).

(** The delegations of [spawn_child], in order, until one fails. *)
Definition delegate_one (cs : nat) (parent child : AgentId)
    (g : Caps.CapabilityId * Caps.Permissions * string) (w : World)
    : result Caps.CapError Caps.CapabilityId * World :=
  let '(parent_cap, perms, resource) := g in
  let '(now, k) := now_ms SystemClock (clocks w) in
  match Caps.delegate now (default Caps.new (cap_stores w !! cs)) parent_cap parent child perms resource with
  | (Ok cap, st) => (Ok cap, w <| cap_stores ::= insert cs st |> <| clocks := k |>)
  | (Err e, _) => (Err e, w)
  end.
Fixpoint delegate_all (cs : nat) (parent child : AgentId)
    (grants : list (Caps.CapabilityId * Caps.Permissions * string)) (w : World)
    : result Caps.CapError (list Caps.CapabilityId) * World :=
  match grants with
  | [] => (Ok [], w)
  | g :: grants =>
      match delegate_one cs parent child g w with
      | (Err e, w) => (Err e, w)
      | (Ok cap, w) =>
          let '(r, w) := delegate_all cs parent child grants w in (cons cap <$> r, w)
      end
  end.
Definition spawn_child (md : WasmModule G) (child : AgentId) (parent_cause : ActionId)
    (initial_payload : bytes) (parent : AgentId)
    (cap_grants : list (Caps.CapabilityId * Caps.Permissions * string))
    : sys (result RuntimeError (AgentId * list Caps.CapabilityId)) :=
  s ← gets supervisor;
  child_caps ← in_world (λ w, Some (delegate_all (sup_cap_store s) parent child cap_grants w));
  match child_caps with
  | Err _ => mret (Err SpawnFailed)
  | Ok child_caps =>
      i ← in_world (new_precompiled_with_caps md child (sup_cap_store s) child_caps);
      match i with
      | Err e => mret (Err e)
      | Ok i =>
          tx ← register (set_parent_agent_id parent i);
          x ← on_rt (chan_send tx (caused initial_payload parent_cause));
          mret (match x with Ok _ => Ok (child, child_caps) | Err _ => Err SpawnFailed end)
      end
  end.

(** ** Scheduler *)

Definition supervisor_new (cs : nat) : Supervisor := mkSupervisor cs None false.
Definition scheduler_new (r : rt) : option (System) :=
  '(cs, w) ← new_cap_store (rt_world r);
  Some (mkSystem registry_empty (supervisor_new cs) cs (rt_set w r)).
Definition set_cancel_fn (f : AgentId → SM rt ()) : sys () :=
  modify (λ s, s <| supervisor ::= λ v, v <| cancel_fn := Some f |> |>).
Definition set_log_ref : sys () :=
  modify (λ s, s <| supervisor ::= λ v, v <| log_ref := true |> |>).

(** The historical methods, under the orchestrator's authority. *)
Definition checkpoint (target : AgentId) : sys (result SupervisionError ()) := checkpoint_as target Orchestrator.
Definition suspend (target : AgentId) : sys (result SupervisionError ()) := suspend_as target Orchestrator.
Definition rollback (target : AgentId) (target_seq : Z) : sys (result SupervisionError ()) :=
  rollback_as target target_seq Orchestrator.

End ops.
End Sched.
