(* ===== verification/SchedulerSpec.v ===== *)
(** SchedulerSpec: what the directory and the supervision of agents guarantee.

    The isolation of tenants in the directory as an invariant of every sequence
    of operations, the authority check in front of the supervision, the journal
    of compensation of a rollback, the delegations of a spawned child, and the
    outcomes of a delivery to an active, a dormant or an unknown agent. *)
From Stdlib Require Import String.
From S2P Require Import Prelude Storage Capabilities ContentStore CausalLog InferQueue IoQueue Clock CauseHandles Actor ActorSafety ActorSpec RunLoop Scheduler.

Module SchedSpec.
Import Clocks Watchdog Handles Actor Spec Loop Sched.

(** ** The invariant of the directory *)

Section registry.
Context `{R : RocksDB, H256 : Sha256, BH : Bincode Store.SnapshotHeader,
          BE : Bincode Log.LogEntry, MP : Msgpack Log.EmitEnvelope}.
Context {G : Type} `{!TaskRuntime G}.
Abbreviation sys := (SM System).


(** A recorded capability store is that of its agent's tenant; an active agent
    has one; the evicted states are indexed by their agent. *)
Record registry_ok (r : Registry) : Prop := {
  ro_wired a ptr : agent_cap_ptr r !! a = Some ptr →
    ∃ t, tenants r !! a = Some t ∧ cap_store_tenant r !! ptr = Some t;
  ro_senders : dom (senders r) ⊆ dom (agent_cap_ptr r);
  ro_dormant : map_Forall (λ a ev, ev_id ev = a) (dormant r) }.

Lemma registry_empty_ok : registry_ok registry_empty.
Proof. split; cbn; [done|set_solver|apply map_Forall_empty]. Qed.

Lemma reap_one_ok r a : registry_ok r → registry_ok (reap_one r a).
Proof.
  intros [Hw Hs Hd]. unfold reap_one.
  set (r1 := r <| join_handles ::= delete a |> <| senders ::= delete a |> <| tenants ::= delete a |>).
  change (agent_cap_ptr r1) with (agent_cap_ptr r).
  destruct (agent_cap_ptr r !! a) as [ptr|] eqn:Ea.
  - cbn. case_decide as Hin; (split; cbn; [|rewrite !dom_delete_L; set_solver|done]).
    + intros b q [Hne Hb]%lookup_delete_Some. rewrite lookup_delete_ne by done. eauto.
    + intros b q [Hne Hb]%lookup_delete_Some. rewrite lookup_delete_ne by done.
      rewrite lookup_delete_ne; [eauto|]. intros <-. apply Hin.
      apply list_elem_of_fmap. exists (b, ptr). split; [done|]. apply elem_of_map_to_list.
      cbn. by rewrite lookup_delete_ne.
  - split; cbn; [|rewrite dom_delete_L; set_solver|done].
    intros b q Hb. rewrite lookup_delete_ne by congruence. eauto.
Qed.
Lemma reap_registry_ok rs r : registry_ok r → registry_ok (reap_registry rs r).
Proof.
  unfold reap_registry. generalize (finished rs r). intros l. revert r.
  induction l as [|a l IH]; intros r Hr; [done|]. cbn. apply IH, reap_one_ok, Hr.
Qed.
Lemma index_agent_ok a t ptr r :
  registry_ok r → shared_across ptr t r = false → registry_ok (index_agent a t ptr r).
Proof.
  unfold shared_across. intros [Hw Hs Hd] Hsh.
  assert (cap_store_tenant r !! ptr = Some t ∨ cap_store_tenant r !! ptr = None) as Hp.
  { destruct (cap_store_tenant r !! ptr); [|by right].
    apply negb_false_iff, bool_decide_eq_true in Hsh as ->. by left. }
  split; cbn; [|rewrite dom_insert_L; set_solver|done].
  intros b q [[<- <-]|[Hne Hb]]%lookup_insert_Some.
  - exists t. by rewrite !lookup_insert_eq.
  - rewrite lookup_insert_ne by done. destruct (Hw b q Hb) as (t' & Ht & Hq).
    exists t'. split; [done|]. destruct (decide (ptr = q)) as [<-|]; [|by rewrite lookup_insert_ne].
    rewrite lookup_insert_eq. destruct Hp; congruence.
Qed.
Lemma enroll_ok a tx h r :
  registry_ok r → is_Some (agent_cap_ptr r !! a) →
  registry_ok (r <| senders ::= insert a tx |> <| join_handles ::= insert a h |>).
Proof.
  intros [Hw Hs Hd] Ha%elem_of_dom. split; cbn; [done| |done].
  rewrite dom_insert_L. set_solver.
Qed.

(** ** A computation that keeps the invariant *)

Definition keeps {A} (m : sys A) : Prop :=
  ∀ s, registry_ok (registry s) → wp m (λ _ s', registry_ok (registry s')) s.

Lemma keeps_ret {A} (x : A) : keeps (mret x).
Proof. intros s Hs. by apply wp_ret. Qed.
Lemma keeps_bind {A B} (m : sys A) (f : A → sys B) :
  keeps m → (∀ a, keeps (f a)) → keeps (m ≫= f).
Proof.
  intros Hm Hf s Hs. apply wp_bind. eapply wp_mono; [by apply Hm|]. intros a s' Hs'. by apply Hf.
Qed.
Lemma keeps_gets {A} (f : System → A) : keeps (gets f).
Proof. intros s Hs. by apply wp_gets. Qed.
Lemma keeps_on_rt {A} (m : SM rt A) : keeps (on_rt m).
Proof.
  intros s Hs a s' E. unfold on_rt in E. destruct (m (runtime s)) as [[x r]|]; [|done].
  by injection E as <- <-.
Qed.
Lemma keeps_when c m : keeps m → keeps (when c m).
Proof. intros Hm s Hs. apply wp_when; [intros _; by apply Hm|done]. Qed.
Lemma keeps_set f : (∀ r, registry_ok r → registry_ok (f r)) → keeps (set_registry f).
Proof. intros Hf s Hs. apply wp_modify. cbn. auto. Qed.
Lemma keeps_panic {A} : keeps (panic (A := A)).
Proof. by intros s Hs a s' E. Qed.
Lemma keeps_match_result {E A B} (r : result E A) (f : A → sys B) (g : E → sys B) :
  (∀ a, keeps (f a)) → (∀ e, keeps (g e)) → keeps (match r with Ok a => f a | Err e => g e end).
Proof. destruct r; auto. Qed.
Lemma keeps_match_option {A B} (o : option A) (f : A → sys B) (g : sys B) :
  (∀ a, keeps (f a)) → keeps g → keeps (match o with Some a => f a | None => g end).
Proof. destruct o; auto. Qed.

End registry.

Create HintDb keeps.
#[export] Hint Resolve keeps_ret keeps_gets keeps_on_rt keeps_panic : keeps.
#[export] Hint Extern 2 (keeps (_ ≫= _)) => apply keeps_bind; [|intros] : keeps.
#[export] Hint Extern 2 (keeps (when _ _)) => apply keeps_when : keeps.
#[export] Hint Extern 3 (keeps (match ?r with Ok _ => _ | Err _ => _ end)) => destruct r : keeps.
#[export] Hint Extern 3 (keeps (match ?r with Some _ => _ | None => _ end)) => destruct r : keeps.
#[export] Hint Extern 4 (keeps (if ?b then _ else _)) => destruct b : keeps.
#[export] Hint Extern 4 (keeps (let '(_, _) := ?p in _)) => destruct p : keeps.
Ltac keeping := eauto 20 with keeps.

(** ** The operations keep the invariant *)

Section isolation.
Context `{R : RocksDB, H256 : Sha256, BH : Bincode Store.SnapshotHeader,
          BE : Bincode Log.LogEntry, MP : Msgpack Log.EmitEnvelope}.
Context {G : Type} `{!TaskRuntime G}.
Abbreviation sys := (SM System).

Lemma keeps_reap : keeps reap.
Proof. intros s Hs. apply wp_modify. cbn. by apply reap_registry_ok. Qed.
Lemma keeps_send a m : keeps (send a m).
Proof. unfold send. keeping. Qed.
Lemma keeps_in_world {A} (m : SM World A) : keeps (in_world m).
Proof. unfold in_world. keeping. Qed.

(** Registration: the guard makes the insertion safe, and the insertion gives
    the new task its entry. *)
Lemma register_run i s tx s' :
  register i s = Some (tx, s') →
  ∃ h rs,
    let a := id (inst_state i) in
    let r := reap_registry (runtime s) (registry s) in
    spawn i (runtime s) = ((tx, h), rs)
    ∧ shared_across (cap_store (inst_state i)) (tenant (inst_state i)) r = false
    ∧ s' = s <| registry := index_agent a (tenant (inst_state i)) (cap_store (inst_state i)) r
                              <| senders ::= insert a tx |> <| join_handles ::= insert a h |> |>
             <| runtime := rs |>.
Proof.
  intros H. unfold register in H. apply bind_inv in H as ([] & s1 & E1 & H). injection E1 as <-.
  apply bind_inv in H as (r & s2 & [-> ->]%gets_inv & H). cbn in H.
  destruct (shared_across _ _ _) eqn:Esh; [done|].
  apply bind_inv in H as ([] & s3 & E3 & H). injection E3 as <-.
  unfold rt_pure, on_rt in H. apply bind_inv in H as ([tx' h] & s4 & E4 & H).
  cbn in E4. destruct (spawn i (runtime s)) as [[tx1 h1] rs] eqn:Esp. injection E4 as <- <- <-.
  apply bind_inv in H as ([] & s5 & E5 & H). injection E5 as <-.
  apply ret_inv in H as [-> ->]. by exists h1, rs.
Qed.
Lemma register_ok i s tx s' :
  registry_ok (registry s) → register i s = Some (tx, s') → registry_ok (registry s').
Proof.
  intros Hs (h & rs & _ & Hsh & ->)%register_run. cbn.
  apply (enroll_ok _ _ _ (index_agent _ _ _ _)).
  - by apply index_agent_ok; [apply reap_registry_ok|].
  - cbn. rewrite lookup_insert_eq. by eexists.
Qed.
Lemma keeps_register i : keeps (register i).
Proof. intros s Hs tx s' H. by eapply register_ok. Qed.

Lemma dormant_insert_ok r a ev :
  registry_ok r → registry_ok (r <| senders ::= delete a |> <| dormant ::= insert (ev_id ev) ev |>).
Proof.
  intros [Hw Hs Hd]. split; cbn; [done|rewrite dom_delete_L; set_solver|by apply map_Forall_insert_2].
Qed.
Lemma dormant_delete_ok r a : registry_ok r → registry_ok (r <| dormant ::= delete a |>).
Proof. intros [Hw Hs Hd]. split; cbn; [done|done|by apply map_Forall_delete]. Qed.
Lemma handles_delete_ok r a : registry_ok r → registry_ok (r <| join_handles ::= delete a |>).
Proof. by intros [Hw Hs Hd]. Qed.

End isolation.
#[export] Hint Resolve keeps_reap keeps_send keeps_in_world keeps_register : keeps.
#[export] Hint Extern 2 (keeps (set_registry _)) => apply keeps_set; intros : keeps.
#[export] Hint Resolve dormant_insert_ok dormant_delete_ok handles_delete_ok : keeps.

Section operations.
Context `{R : RocksDB, H256 : Sha256, BH : Bincode Store.SnapshotHeader,
          BE : Bincode Log.LogEntry, MP : Msgpack Log.EmitEnvelope}.
Context {G : Type} `{!TaskRuntime G}.
Abbreviation sys := (SM System).

Lemma keeps_evict a : keeps (evict_agent a).
Proof. unfold evict_agent, rt_pure, instant, join_target. keeping. Qed.
Lemma keeps_wake a md : keeps (wake_agent a md).
Proof. unfold wake_agent. keeping. Qed.
Lemma keeps_authorized {A} a auth (m : sys (result SupervisionError A)) :
  keeps m → keeps (authorized a auth m).
Proof. intros Hm. unfold authorized. keeping. Qed.
Lemma keeps_route a m : keeps (route a m).
Proof. unfold route. keeping. Qed.
End operations.
#[export] Hint Resolve keeps_evict keeps_wake keeps_authorized keeps_route : keeps.

Section theorem.
Context `{R : RocksDB, H256 : Sha256, BH : Bincode Store.SnapshotHeader,
          BE : Bincode Log.LogEntry, MP : Msgpack Log.EmitEnvelope}.
Context {G : Type} `{!TaskRuntime G}.

Lemma keeps_deliver a m io p md : keeps (deliver a m io p md).
Proof. unfold deliver. keeping. Qed.
Lemma keeps_rollback a sq auth : keeps (rollback_as a sq auth).
Proof.
  unfold rollback_as, with_log, emit_compensation_open, emit_compensation_close, emit_scheduler, cancel_target.
  keeping.
Qed.
Lemma keeps_spawn_child md c cause p parent g : keeps (spawn_child md c cause p parent g).
Proof. unfold spawn_child. keeping. Qed.

(** One public operation of the scheduler, or a step of the tasks. *)
Inductive sys_step : System → System → Prop :=
| sys_register i tx s s' : register i s = Some (tx, s') → sys_step s s'
| sys_reap s s' : reap s = Some ((), s') → sys_step s s'
| sys_send a m x s s' : send a m s = Some (x, s') → sys_step s s'
| sys_evict a x s s' : evict_agent a s = Some (x, s') → sys_step s s'
| sys_wake a md x s s' : wake_agent a md s = Some (x, s') → sys_step s s'
| sys_deliver a m io p md x s s' : deliver a m io p md s = Some (x, s') → sys_step s s'
| sys_checkpoint a auth x s s' : checkpoint_as a auth s = Some (x, s') → sys_step s s'
| sys_suspend a auth x s s' : suspend_as a auth s = Some (x, s') → sys_step s s'
| sys_rollback a sq auth x s s' : rollback_as a sq auth s = Some (x, s') → sys_step s s'
| sys_spawn md c cause p parent g x s s' :
    spawn_child md c cause p parent g s = Some (x, s') → sys_step s s'
| sys_tasks rs s : sys_step s (s <| runtime := rs |>).

Lemma sys_step_ok s s' : sys_step s s' → registry_ok (registry s) → registry_ok (registry s').
Proof.
  intros H Hs. destruct H as [i tx s s' H|s s' H|a m x s s' H|a x s s' H|a md x s s' H|a m io p md x s s' H
    |a auth x s s' H|a auth x s s' H|a sq auth x s s' H|md c cause p parent g x s s' H|rs s]; [..|done];
    revert x H || revert H || revert tx H; intros x H || intros H.
  - exact (keeps_register i s Hs _ _ H).
  - exact (keeps_reap s Hs _ _ H).
  - exact (keeps_send a m s Hs _ _ H).
  - exact (keeps_evict a s Hs _ _ H).
  - exact (keeps_wake a md s Hs _ _ H).
  - exact (keeps_deliver a m io p md s Hs _ _ H).
  - exact (keeps_authorized a auth _ (keeps_route a _) s Hs _ _ H).
  - exact (keeps_authorized a auth _ (keeps_route a _) s Hs _ _ H).
  - exact (keeps_rollback a sq auth s Hs _ _ H).
  - exact (keeps_spawn_child md c cause p parent g s Hs _ _ H).
Qed.
Lemma sys_steps_ok s s' : rtc sys_step s s' → registry_ok (registry s) → registry_ok (registry s').
Proof. induction 1; eauto using sys_step_ok. Qed.

(** C4: whatever sequence of registrations, clean-ups, evictions, wake-ups,
    deliveries, supervisions and spawns follows the creation of the scheduler,
    with tasks that progress between them as they like: every active agent has
    a recorded capability store and a tenant, two agents whose recorded store
    is the same have the same tenant, and an evicted state is filed under the
    agent it is of.  A registration that would share a store between two
    tenants does not return, and one that returns leaves the agent active,
    under its own tenant. *)
Theorem registry_isolation rs s0 s :
  scheduler_new rs = Some s0 → rtc sys_step s0 s →
  (∀ a, is_active a (registry s) = true →
     is_Some (agent_cap_ptr (registry s) !! a) ∧ is_Some (tenant_of a (registry s)))
  ∧ (∀ a b ptr, agent_cap_ptr (registry s) !! a = Some ptr → agent_cap_ptr (registry s) !! b = Some ptr →
       tenant_of a (registry s) = tenant_of b (registry s))
  ∧ (∀ a ev, dormant_state a (registry s) = Some ev → ev_id ev = a)
  ∧ (∀ i tx s', register i s = Some (tx, s') →
       let r := registry s' in let ptr := cap_store (inst_state i) in
       is_active (id (inst_state i)) r = true ∧ tenant_of (id (inst_state i)) r = Some (tenant (inst_state i))
       ∧ ∀ b, agent_cap_ptr r !! b = Some ptr → tenant_of b r = Some (tenant (inst_state i))).
Proof.
  intros Hn Hst. assert (registry_ok (registry s)) as Hs.
  { apply (sys_steps_ok s0 s Hst). unfold scheduler_new, new_cap_store in Hn. cbn in Hn.
    injection Hn as <-. apply registry_empty_ok. }
  split_and!.
  - intros a Ha%bool_decide_eq_true%elem_of_dom%(ro_senders _ Hs)%elem_of_dom. split; [done|].
    destruct Ha as [ptr Hp]. destruct (ro_wired _ Hs _ _ Hp) as (t & Ht & _). by exists t.
  - intros a b ptr (t & Ht & Hp)%(ro_wired _ Hs) (t' & Ht' & Hp')%(ro_wired _ Hs). unfold tenant_of. congruence.
  - intros a ev H. exact (ro_dormant _ Hs a ev H).
  - intros i tx s' H. pose proof (register_ok _ _ _ _ Hs H) as Hok.
    apply register_run in H as (h & rs' & _ & _ & ->). cbn in Hok |- *.
    split; [|split].
    + apply bool_decide_eq_true. cbn. rewrite lookup_insert_eq. by eexists.
    + apply lookup_insert_eq.
    + intros b (t & Ht & Hp)%(ro_wired _ Hok). cbn in Ht, Hp. rewrite lookup_insert_eq in Hp.
      unfold tenant_of. cbn. congruence.
Qed.

End theorem.

(** ** Supervision under an authority *)

Section supervision.
Context `{R : RocksDB, H256 : Sha256, BH : Bincode Store.SnapshotHeader,
          BE : Bincode Log.LogEntry, MP : Msgpack Log.EmitEnvelope}.
Context {G : Type} `{!TaskRuntime G}.
Abbreviation sys := (SM System).

(** The principals that may supervise [target]. *)
Definition may_supervise (auth : SupervisionAuthority) (target : AgentId) (s : System) : Prop :=
  match auth with Orchestrator => True | Tenant t => tenant_of target (registry s) = Some t end.
#[global] Instance may_supervise_dec auth target s : Decision (may_supervise auth target s).
Proof. destruct auth as [|t]; [by left|exact (decide (tenant_of target (registry s) = Some t))]. Defined.

Lemma authorize_iff auth target s :
  authorize (registry s) target auth =
    if decide (may_supervise auth target s) then Ok () else Err CrossTenantDenied.
Proof.
  unfold authorize. destruct auth as [|t]; cbn.
  - by destruct (decide True).
  - destruct (tenant_of _ _) as [o|]; repeat case_decide; naive_solver.
Qed.
Lemma authorized_run {A} auth target (m : sys (result SupervisionError A)) s :
  authorized target auth m s =
    if decide (may_supervise auth target s) then m s else Some (Err CrossTenantDenied, s).
Proof.
  unfold authorized, mbind, SM_bind, gets. rewrite authorize_iff. by case_decide.
Qed.

(** C9: supervision is a matter of authority.  A tenant's authority over an
    agent that is not its own (one of another tenant, or one that is unknown)
    gets the refusal, and nothing at all changes: no message, no cancellation,
    no event.  Any other authority has the effect of the orchestrator's, and
    the orchestrator is never refused. *)
Theorem supervision_authority auth target sq s :
  (may_supervise auth target s →
     checkpoint_as target auth s = checkpoint target s
     ∧ suspend_as target auth s = suspend target s
     ∧ rollback_as target sq auth s = rollback target sq s)
  ∧ (¬ may_supervise auth target s →
     checkpoint_as target auth s = Some (Err CrossTenantDenied, s)
     ∧ suspend_as target auth s = Some (Err CrossTenantDenied, s)
     ∧ rollback_as target sq auth s = Some (Err CrossTenantDenied, s))
  ∧ (∀ r s', (checkpoint target s = Some (r, s') ∨ suspend target s = Some (r, s')
              ∨ rollback target sq s = Some (r, s')) → r ≠ Err CrossTenantDenied).
Proof.
  unfold checkpoint_as, suspend_as, rollback_as. split_and!.
  - intros Ha. unfold checkpoint, suspend, rollback, checkpoint_as, suspend_as, rollback_as.
    by rewrite !authorized_run, !(decide_True (P := may_supervise _ _ _)).
  - intros Ha. by rewrite !authorized_run, !decide_False.
  - unfold checkpoint, suspend, rollback, checkpoint_as, suspend_as, rollback_as, route.
    intros r s'. rewrite !authorized_run, !(decide_True (P := may_supervise _ _ _)) by exact I.
    intros [H|[H|H]]; run_step H; destruct a1 || destruct a2 || destruct a; done.
Qed.

End supervision.

(** ** The journal of compensation *)

Section journal.
Context `{R : RocksDB, !RocksLaws R, H256 : Sha256, !Sha256Laws H256,
          BH : Bincode Store.SnapshotHeader, !BincodeLaws Store.SnapshotHeader Store.header_ok,
          BE : Bincode Log.LogEntry, !BincodeLaws Log.LogEntry Log.entry_ok,
          MP : Msgpack Log.EmitEnvelope, !MsgpackSize Log.EmitEnvelope Log.envelope_ok}.
Context {G : Type} `{!TaskRuntime G}.
Abbreviation sys := (SM System).

Abbreviation log_of s := (causal_log (rt_world (runtime s))).
(** The other parties only add events to the log. *)
Definition log_extends (rs rs' : rt) : Prop :=
  ∀ hist, Log.represents (causal_log (rt_world rs)) hist →
  ∃ more, Log.represents (causal_log (rt_world rs')) (hist ++ more).
Class RuntimeLaws : Prop := {
  rt_world_set w rs : rt_world (rt_set w rs) = w;
  chan_send_log tx m rs x rs' : chan_send tx m rs = Some (x, rs') → log_extends rs rs' }.
Context `{!RuntimeLaws}.

Lemma log_extends_refl rs : log_extends rs rs.
Proof. intros hist Hh. exists []. by rewrite app_nil_r. Qed.
Lemma log_extends_trans r1 r2 r3 : log_extends r1 r2 → log_extends r2 r3 → log_extends r1 r3.
Proof.
  intros H1 H2 hist (m1 & Hm1)%H1. destruct (H2 _ Hm1) as [m2 Hm2]. exists (m1 ++ m2). by rewrite (assoc_L (++)).
Qed.

(** A message that was sent is in the inbox of the agent. *)
Definition enqueued (target : AgentId) (m : Message) (s : System) : Prop :=
  ∃ tx rs rs', senders (registry s) !! target = Some tx ∧ chan_send tx m rs = Some (Ok (), rs').
Lemma send_run target m s x s' :
  send target m s = Some (x, s') →
  registry s' = registry s ∧ supervisor s' = supervisor s ∧ log_extends (runtime s) (runtime s')
  ∧ (x = Err AgentUnknown ↔ is_active target (registry s) = false)
  ∧ (is_ok x = true → enqueued target m s).
Proof.
  unfold send. intros Hm. apply bind_inv in Hm as (r & s1 & [-> ->]%gets_inv & Hm). cbn in Hm.
  unfold is_active, enqueued. destruct (senders (registry s) !! target) as [tx|] eqn:Et.
  - apply bind_inv in Hm as (y & s2 & E & [-> ->]%ret_inv).
    unfold on_rt in E. destruct (chan_send tx m (runtime s)) as [[z rs]|] eqn:Es; [|done].
    cbn in E. injection E as -> <-. cbn.
    split_and!; try done.
    + by eapply chan_send_log.
    + split; [by destruct y|done].
    + destruct y as [[]|]; [|done]. intros _. by exists tx, (runtime s), rs.
  - apply ret_inv in Hm as [-> ->]. split_and!; try done; apply log_extends_refl.
Qed.

(** One event of the scheduler in the log, unless its append failed. *)
Definition journaled (t : Log.EmitType) (p : bytes) (d d' : db) (es : list Log.LogEntry) : Prop :=
  ∃ ts us r, let e := scheduler_entry t ts us p in
    Log.append d e = (r, d') ∧ (es = [e] ∨ es = [] ∧ is_ok r = false).
Lemma scheduler_entry_ok t ts us p :
  is_u64 ts → is_u64 us → (Z.of_nat (length p) < 2 ^ 32)%Z → Log.entry_ok (scheduler_entry t ts us p).
Proof.
  intros Hts Hus Hp. unfold Log.entry_ok, scheduler_entry. cbn. split_and!; try done.
  intros q [= <-]. apply mp_ser_len. unfold Log.envelope_ok. cbn. split_and!; try done; by destruct t.
Qed.
Lemma emit_scheduler_run t p s u s' hist :
  (Z.of_nat (length p) < 2 ^ 32)%Z →
  Log.represents (log_of s) hist → emit_scheduler t p s = Some (u, s') →
  registry s' = registry s ∧ supervisor s' = supervisor s
  ∧ ∃ es, journaled t p (log_of s) (log_of s') es ∧ Log.represents (log_of s') (hist ++ es).
Proof.
  intros Hp Hh. unfold emit_scheduler, in_world, on_rt. cbn.
  destruct (Log.append _ _) as [r d] eqn:E. cbn.
  intros [= <- <-]. cbn. rewrite rt_world_set. cbn. split_and!; try done.
  apply (Log.append_refines false _ _ _ _ hist) in E as Ha; [|done|].
  - unfold journaled. destruct Ha as [[-> Hr]|[Hk [Hr|Hr]]]; [eexists [_]|exists []|eexists [_]];
      rewrite ?app_nil_r; eauto 10.
  - by apply scheduler_entry_ok; [apply wrap_in_width|apply wrap_in_width|].
Qed.

Lemma with_log_inv m s u s' :
  log_ref (supervisor s) = true → Sched.with_log m s = Some (u, s') → m s = Some (u, s').
Proof. intros Hl. unfold Sched.with_log, mbind, SM_bind, gets, when. by rewrite Hl. Qed.
Lemma cancel_run target s u s' :
  (∀ f rs rs', cancel_fn (supervisor s) = Some f → f target rs = Some ((), rs') → log_extends rs rs') →
  cancel_target target s = Some (u, s') →
  registry s' = registry s ∧ supervisor s' = supervisor s ∧ log_extends (runtime s) (runtime s').
Proof.
  intros Hf Hm. unfold cancel_target in Hm. apply bind_inv in Hm as (v & s1 & [-> ->]%gets_inv & Hm).
  destruct (cancel_fn (supervisor s)) as [f|].
  - unfold on_rt in Hm. destruct (f target (runtime s)) as [[[] rs]|] eqn:E; [|done].
    injection Hm as _ <-. split_and!; try done. by apply (Hf f).
  - apply ret_inv in Hm as [-> ->]. split_and!; try done. apply log_extends_refl.
Qed.

(** C8: a rollback that is allowed and journaled leaves in the log, in this
    order, the opening of a compensation for its target, whatever the
    cancellation and the other tasks added, and the closing of the compensation;
    the latter is written on both paths, with the target number and an outcome
    that says whether the rollback message reached the inbox of the agent.  It
    is the answer too; the directory is left as it was.  An event is missing
    only if its append failed. *)
Theorem rollback_journal auth target sq s r s' hist :
  may_supervise auth target s → log_ref (supervisor s) = true → length target = 16 →
  (∀ f rs rs', cancel_fn (supervisor s) = Some f → f target rs = Some ((), rs') → log_extends rs rs') →
  Log.represents (log_of s) hist → rollback_as target sq auth s = Some (r, s') →
  ∃ opened between closed d1 d2,
    journaled Log.CompensationOpen (target ++ zeros 32) (log_of s) d1 opened
    ∧ Log.represents d1 (hist ++ opened) ∧ Log.represents d2 ((hist ++ opened) ++ between)
    ∧ journaled Log.CompensationClose (target ++ le_bytes 8 sq ++ [z2b (if is_ok r then 0x00 else 0x02)])
        d2 (log_of s') closed
    ∧ Log.represents (log_of s') (((hist ++ opened) ++ between) ++ closed)
    ∧ registry s' = registry s
    ∧ (is_ok r = true → enqueued target (Rollback sq) s)
    ∧ (r = Err (Routing AgentUnknown) ↔ is_active target (registry s) = false).
Proof.
  intros Ha Hl Ht Hc Hh Hm. unfold rollback_as in Hm. rewrite authorized_run, decide_True in Hm by done.
  apply bind_inv in Hm as ([] & s1 & E1 & Hm). apply with_log_inv in E1; [|done].
  apply (emit_scheduler_run _ _ _ _ _ hist) in E1 as (Hr1 & Hv1 & opened & Hj1 & Hh1); [|by rewrite length_app, Ht|done].
  apply bind_inv in Hm as ([] & s2 & E2 & Hm). apply cancel_run in E2 as (Hr2 & Hv2 & Hx2); [|by rewrite Hv1].
  apply bind_inv in Hm as (x & s3 & E3 & Hm). apply send_run in E3 as (Hr3 & Hv3 & Hx3 & Hun & Hq).
  destruct (log_extends_trans _ _ _ Hx2 Hx3 _ Hh1) as [between Hb].
  apply bind_inv in Hm as ([] & s4 & E4 & [-> ->]%ret_inv). apply with_log_inv in E4; [|by rewrite Hv3, Hv2, Hv1].
  unfold emit_compensation_close in E4.
  assert (∀ b : byte, (Z.of_nat (length (target ++ le_bytes 8 sq ++ [b])) < 2 ^ 32)%Z) as Hlen.
  { intros b. rewrite !length_app, length_le_bytes, Ht. done. }
  pose proof (emit_scheduler_run _ _ _ _ _ _ (Hlen _) Hb E4) as (Hr4 & _ & closed & Hj4 & Hh4).
  assert (is_ok (map_err Routing x) = is_ok x) as Ex by by destruct x.
  rewrite Ex. rewrite Hr2, Hr1 in Hun. unfold enqueued in Hq |- *. rewrite Hr2, Hr1 in Hq.
  exists opened, between, closed, (log_of s1), (log_of s3). split_and!; try done; [congruence|].
  rewrite <-Hun. split; [destruct x; by intros [= ->]|by intros ->].
Qed.

End journal.

(** ** Spawning a child *)

Section spawning.
Context `{R : RocksDB, !RocksLaws R, H256 : Sha256, !Sha256Laws H256,
          BH : Bincode Store.SnapshotHeader, !BincodeLaws Store.SnapshotHeader Store.header_ok,
          BE : Bincode Log.LogEntry, !BincodeLaws Log.LogEntry Log.entry_ok,
          MP : Msgpack Log.EmitEnvelope, !MsgpackSize Log.EmitEnvelope Log.envelope_ok}.
Context {G : Type} `{!TaskRuntime G}.

Definition store_at (cs : nat) (w : World) : Caps.CapabilityStore := default Caps.new (cap_stores w !! cs).
Abbreviation grant := (Caps.CapabilityId * Caps.Permissions * string)%type.

(** [cap] is what the child holds of a grant of its parent. *)
Definition granted (st : Caps.CapabilityStore) (parent child : AgentId) (g : grant) (cap : Caps.CapabilityId) : Prop :=
  let '(parent_cap, perms, resource) := g in
  (∃ now, Caps.caps st !! cap = Some (Caps.mkCapability cap child perms resource (Some parent_cap) now))
  ∧ ∃ pc, Caps.caps st !! parent_cap = Some pc ∧ Caps.cap_owner pc = parent
      ∧ Caps.p_delegate (Caps.cap_permissions pc) = true ∧ Caps.perm_le perms (Caps.cap_permissions pc).
(** A grant that is refused, with no effect. *)
Definition refused (st : Caps.CapabilityStore) (parent child : AgentId) (g : grant) (e : Caps.CapError) : Prop :=
  let '(parent_cap, perms, resource) := g in
  ∃ now, Caps.delegate now st parent_cap parent child perms resource = (Err e, st).

Lemma granted_mono st st' parent child g cap :
  Caps.caps st ⊆ Caps.caps st' → granted st parent child g cap → granted st' parent child g cap.
Proof.
  intros Hsub. destruct g as [[pc p] r]. intros [[now Hc] (c & Hp & ?)]. split.
  - exists now. by eapply lookup_weaken.
  - exists c. split; [by eapply lookup_weaken|done].
Qed.

Lemma delegate_one_run cs parent child g w r w' :
  Caps.cs_inv (store_at cs w) → Caps.has_room (store_at cs w) → delegate_one cs parent child g w = (r, w') →
  match r with
  | Ok cap => Caps.cs_inv (store_at cs w') ∧ Caps.caps (store_at cs w) ⊆ Caps.caps (store_at cs w')
      ∧ Caps.next_id (store_at cs w') = (Caps.next_id (store_at cs w) + 1)%Z
      ∧ granted (store_at cs w') parent child g cap
  | Err e => w' = w ∧ refused (store_at cs w) parent child g e
  end.
Proof.
  intros Hi Hroom. unfold delegate_one. destruct g as [[pc p] res]. destruct (now_ms _ _) as [now k].
  fold (store_at cs w).
  pose proof (Caps.cs_inv_delegate now _ pc parent child p res Hi Hroom) as Hi'.
  destruct (Caps.delegate now (store_at cs w) pc parent child p res) as [[cap|e] st] eqn:E; intros [= <- Hw].
  - assert (store_at cs w' = st) as -> by (rewrite <-Hw; unfold store_at; cbn; by rewrite lookup_insert_eq).
    cbn in Hi'. split; [done|].
    apply Caps.delegate_Ok in E as (c & Hc & Ho & Hd & Hle & -> & Hn & Hcs & _).
    pose proof (Caps.inv_next _ Hi) as Hnx. unfold Caps.has_room in Hroom. rewrite u64_succ in Hn by lia.
    pose proof (Caps.cs_inv_fresh _ Hi) as Hfr. unfold granted. rewrite Hcs. split_and!.
    + by apply insert_subseteq.
    + done.
    + exists now. by rewrite lookup_insert_eq.
    + exists c. split; [|done]. rewrite lookup_insert_ne; [done|congruence].
  - split; [done|]. exists now. apply Caps.delegate_Err in E as Es. by rewrite E, Es.
Qed.

(** The delegations that succeeded, and why they stopped. *)
Lemma delegate_all_run cs parent child grants w r w' :
  Caps.cs_inv (store_at cs w) → (Caps.next_id (store_at cs w) + Z.of_nat (length grants) < 2 ^ 64)%Z →
  delegate_all cs parent child grants w = (r, w') →
  Caps.cs_inv (store_at cs w') ∧ Caps.caps (store_at cs w) ⊆ Caps.caps (store_at cs w')
  ∧ match r with
    | Ok caps => Forall2 (granted (store_at cs w') parent child) grants caps
    | Err e => ∃ before g after caps, grants = before ++ g :: after
        ∧ Forall2 (granted (store_at cs w') parent child) before caps ∧ refused (store_at cs w') parent child g e
    end.
Proof.
  revert w r w'. induction grants as [|g grants IH]; intros w r w' Hi Hn; cbn [delegate_all length] in *.
  { intros [= <- <-]. split_and!; done || constructor. }
  destruct (delegate_one cs parent child g w) as [[cap|e] w1] eqn:E1;
    apply delegate_one_run in E1; try done; try (unfold Caps.has_room; lia).
  - destruct E1 as (Hi1 & Hsub & Hn1 & Hg).
    destruct (delegate_all cs parent child grants w1) as [r2 w2] eqn:E2. intros [= <- <-].
    apply IH in E2 as (Hi2 & Hsub2 & Hr); [|done|lia]. split; [done|]. split; [by etrans|].
    apply (granted_mono _ _ _ _ _ _ Hsub2) in Hg.
    destruct r2 as [caps|e]; cbn; [by constructor|].
    destruct Hr as (before & g' & after & caps & -> & Hb & Hre).
    exists (g :: before), g', after, (cap :: caps). split_and!; [done|by constructor|done].
  - destruct E1 as [-> Hre]. intros [= <- <-]. split_and!; [done..|].
    exists [], g, grants, []. split_and!; [done|constructor|done].
Qed.

(** The instance of a child. *)
Definition child_of (md : WasmModule G) (child : AgentId) (cs : nat) (caps : list Caps.CapabilityId)
    (i : ActorInstance (G := G)) : Prop :=
  id (inst_state i) = child ∧ cap_store (inst_state i) = cs ∧ own_caps (inst_state i) = caps
  ∧ tenant (inst_state i) = DEFAULT ∧ inst_module i = md ∧ seq (inst_state i) = 0%Z.
Lemma new_precompiled_run (md : WasmModule G) child cs caps w r w' :
  new_precompiled_with_caps md child cs caps w = Some (r, w') →
  match r with
  | Ok i => child_of md child cs caps i
  | Err e => ∃ we, e = Wasmtime we ∧ instantiate md false = Err we
  end.
Proof.
  intros Hm. unfold new_precompiled_with_caps in Hm. apply bind_inv in Hm as (b & w1 & E1 & Hm).
  unfold builder_new, new_cap_store, new_registry, new_kv_store, mbind, SM_bind in E1. cbn in E1. injection E1 as <- <-.
  unfold build, get_handle_store in Hm. apply bind_inv in Hm as (l & w2 & E2 & Hm).
  apply ret_inv in Hm as [-> ->]. cbn. destruct (instantiate md false) as [[g m]|e]; [done|eauto].
Qed.

Lemma in_world_inv {A} (m : SM World A) s a s' :
  in_world m s = Some (a, s') →
  ∃ w, m (rt_world (runtime s)) = Some (a, w) ∧ s' = s <| runtime := rt_set w (runtime s) |>.
Proof.
  unfold in_world, on_rt. destruct (m _) as [[b w]|]; [|done]. cbn. intros [= <- <-]. by exists w.
Qed.

(** How the spawn of a child ends, given the capability store [st] after the
    delegations. *)
Definition spawn_outcome (md : WasmModule G) (child parent : AgentId) (msg : Message) (grants : list grant)
    (st : Caps.CapabilityStore) (s s' : System) (x : result RuntimeError (AgentId * list Caps.CapabilityId)) : Prop :=
  (∃ e before g after caps, x = Err SpawnFailed ∧ registry s' = registry s ∧ grants = before ++ g :: after
     ∧ Forall2 (granted st parent child) before caps ∧ refused st parent child g e)
  ∨ (∃ we, x = Err (Wasmtime we) ∧ instantiate md false = Err we ∧ registry s' = registry s)
  ∨ ∃ caps i tx h rs rs1 y, Forall2 (granted st parent child) grants caps
      ∧ child_of md child (sup_cap_store (supervisor s)) caps i ∧ parent_agent_id (inst_state i) = Some parent
      ∧ spawn i rs = ((tx, h), rs1) ∧ chan_send tx msg rs1 = Some (y, runtime s')
      ∧ senders (registry s') !! child = Some tx ∧ tenant_of child (registry s') = Some DEFAULT
      ∧ x = (if is_ok y then Ok (child, caps) else Err SpawnFailed).

(** C10: spawning a child delegates before anything else, one grant after the
    other, and all of it or no child at all: a child that runs was given exactly
    one capability per grant, in order, each derived from a capability that its
    parent owns and may delegate, and with no permission that the parent's does
    not have; it runs in the supervisor's store, under the default tenant, with
    its parent recorded and the initial message in its inbox.  A refused grant
    ends the operation with the directory untouched; what was delegated before
    it stays in the store.  Nothing that was in the store is lost. *)
Theorem spawn_child_spec (md : WasmModule G) child cause payload parent grants s x s' :
  let before := store_at (sup_cap_store (supervisor s)) (rt_world (runtime s)) in
  Caps.cs_inv before → (Caps.next_id before + Z.of_nat (length grants) < 2 ^ 64)%Z →
  spawn_child md child cause payload parent grants s = Some (x, s') →
  ∃ w st, st = store_at (sup_cap_store (supervisor s)) w
    ∧ (delegate_all (sup_cap_store (supervisor s)) parent child grants (rt_world (runtime s))).2 = w
    ∧ Caps.cs_inv st ∧ Caps.caps before ⊆ Caps.caps st
    ∧ spawn_outcome md child parent (caused payload cause) grants st s s' x.
Proof.
  intros before Hi Hn Hm. unfold spawn_child in Hm. apply bind_inv in Hm as (v & s0 & [-> ->]%gets_inv & Hm).
  apply bind_inv in Hm as (r & s1 & (w & E1 & ->)%in_world_inv & Hm). injection E1 as E1.
  rewrite E1. exists w, (store_at (sup_cap_store (supervisor s)) w). split; [done|]. split; [done|].
  destruct (delegate_all_run _ _ _ _ _ _ _ Hi Hn E1) as (Hi1 & Hsub & Hr). split; [done|]. split; [done|].
  unfold spawn_outcome. destruct r as [caps|e].
  2: { apply ret_inv in Hm as [-> ->]. left. destruct Hr as (b & g & a & caps & ? & ? & ?). by exists e, b, g, a, caps. }
  right. apply bind_inv in Hm as (i & s2 & (w2 & E2 & ->)%in_world_inv & Hm).
  apply new_precompiled_run in E2. destruct i as [i|e].
  2: { apply ret_inv in Hm as [-> ->]. left. destruct E2 as (we & -> & ?). by exists we. }
  right. apply bind_inv in Hm as (tx & s3 & (h & rs & Esp & _ & ->)%register_run & Hm).
  apply bind_inv in Hm as (y & s4 & E4 & [-> ->]%ret_inv). unfold on_rt in E4. cbn in E4, Esp.
  destruct (chan_send tx _ _) as [[y1 rs2]|] eqn:Es; [|done]. injection E4 as <- <-.
  destruct E2 as (E2 & E2'). exists caps, (set_parent_agent_id parent i), tx, h. eexists _, rs, y1.
  split; [done|]. split; [done|]. split; [done|]. split; [exact Esp|]. split; [done|]. cbn.
  change (id (set_parent_agent_id parent i).(inst_state)) with (id (inst_state i)). rewrite E2.
  split; [apply lookup_insert_eq|]. split; [|by destruct y1].
  unfold tenant_of. cbn. rewrite lookup_insert_eq. by destruct E2' as (_ & _ & -> & _).
Qed.

End spawning.

(** ** Delivery *)

Section delivery.
Context `{R : RocksDB, H256 : Sha256, BH : Bincode Store.SnapshotHeader,
          BE : Bincode Log.LogEntry, MP : Msgpack Log.EmitEnvelope}.
Context {G : Type} `{!TaskRuntime G}.

Lemma reap_one_dormant r a : dormant (reap_one r a) = dormant r.
Proof. unfold reap_one. cbn. by repeat case_match. Qed.
Lemma reap_registry_dormant rs r : dormant (reap_registry rs r) = dormant r.
Proof.
  unfold reap_registry. generalize (finished rs r). intros l. revert r.
  induction l as [|a l IH]; intros r; [done|]. cbn. by rewrite IH, reap_one_dormant.
Qed.

Lemma restore_id (md : WasmModule G) ev w i w' :
  restore_from_evicted md ev w = Some (Ok i, w') → id (inst_state i) = ev_id ev.
Proof.
  unfold restore_from_evicted, restore_with. intros Hm.
  apply bind_inv in Hm as (r & w1 & [-> ->]%gets_inv & Hm). destruct (check_resume_snapshot _ _); [|done].
  apply bind_inv in Hm as (b & w2 & E & Hm). apply bind_inv in Hm as (r & w3 & E3 & Hm).
  unfold builder_new, new_cap_store, new_registry, new_kv_store, mbind, SM_bind in E. cbn in E. injection E as <- <-.
  unfold build, get_handle_store in E3. apply bind_inv in E3 as (l & w4 & E4 & [-> ->]%ret_inv).
  apply ret_inv in Hm as [Hm _]. cbn in Hm.
  destruct (instantiate md false) as [[g m]|]; [|done]. by injection Hm as ->.
Qed.
Lemma restore_missing (md : WasmModule G) ev w h w' :
  restore_from_evicted md ev w = Some (Err (StoreFailed (Store.MissingBlock h)), w') → ev_last_snapshot ev = Some h.
Proof.
  unfold restore_from_evicted, restore_with. intros Hm.
  apply bind_inv in Hm as (r & w1 & [-> ->]%gets_inv & Hm). unfold check_resume_snapshot, Store.has_snapshot in Hm.
  assert (∀ m, (b ← builder_new md (ev_id ev); r ← build b; mret ((λ i, copy_evicted_fields i ev) <$> r)) w
    = Some (Err (StoreFailed (Store.MissingBlock h)), m) → False) as Hno.
  { intros m Hb. apply bind_inv in Hb as (b & w2 & E & Hb). apply bind_inv in Hb as (r & w3 & E3 & Hb).
    unfold build, get_handle_store in E3. apply bind_inv in E3 as (l & w4 & E4 & [-> ->]%ret_inv).
    by destruct (instantiate _ _) as [[g mm]|]. }
  destruct (ev_last_snapshot ev) as [snap|]; [|by apply Hno in Hm].
  destruct (db_get _ _ _) as [[b|]|]; cbn in Hm; [by apply Hno in Hm| |done].
  apply ret_inv in Hm as [Hm _]. congruence.
Qed.

Lemma wake_run target md ev s r s' :
  dormant (registry s) !! target = Some ev → ev_id ev = target → wake_agent target md s = Some (r, s') →
  match r with
  | Ok a => a = target ∧ is_active target (registry s') = true
      ∧ dormant (registry s') = delete target (dormant (registry s))
  | Err e => registry s' = registry s <| dormant ::= delete target |>
      ∧ ((∃ h, e = DanglingSnapshot h ∧ ev_last_snapshot ev = Some h) ∨ ∃ e', e = WakeFailed (RestoreFailed e'))
  end.
Proof.
  intros Hd Hid Hm. unfold wake_agent in Hm. apply bind_inv in Hm as (g & s1 & [-> ->]%gets_inv & Hm).
  rewrite Hd in Hm. apply bind_inv in Hm as ([] & s2 & E2 & Hm). injection E2 as <-.
  apply bind_inv in Hm as (x & s3 & (w & E3 & ->)%in_world_inv & Hm). destruct x as [i|e].
  - apply bind_inv in Hm as (tx & s4 & (h & rs & _ & _ & ->)%register_run & [-> ->]%ret_inv).
    apply restore_id in E3. cbn. split; [done|]. split.
    + apply bool_decide_eq_true. cbn. rewrite E3, Hid, lookup_insert_eq. by eexists.
    + by rewrite reap_registry_dormant.
  - apply ret_inv in Hm as [-> ->]. split; [done|].
    destruct e as [we|[| |h| |]| | | |]; cbn; eauto.
    left. exists h. split; [done|]. by eapply restore_missing.
Qed.

(** The agent is neither active nor dormant. *)
Definition absent (target : AgentId) (r : Registry) : Prop :=
  is_active target r = false ∧ is_dormant target r = false.
(** The state a delivery leaves behind, by its answer. *)
Definition delivered (target : AgentId) (m : Message) (s s' : System) (r : result DeliverError ()) : Prop :=
  let before := registry s in let after := registry s' in
  let was_dormant ev := is_active target before = false ∧ dormant_state target before = Some ev in
  match r with
  | Ok _ =>
      is_active target after = true
      ∧ (∃ tx rs, senders after !! target = Some tx ∧ chan_send tx m rs = Some (Ok (), runtime s'))
      ∧ (is_active target before = true ∧ after = before ∨ is_dormant target after = false ∧ ∃ ev, was_dormant ev)
  | Err Unknown => after = before ∧ (is_active target before = true ∨ absent target before ∧ s' = s)
  | Err IoCongested | Err (WakeFailed IoCancelled) => after = before ∧ ∃ ev, was_dormant ev
  | Err (DanglingSnapshot h) => absent target after ∧ ∃ ev, was_dormant ev ∧ ev_last_snapshot ev = Some h
  | Err (WakeFailed (RestoreFailed _)) => absent target after ∧ ∃ ev, was_dormant ev
  | Err (WakeFailed SendAfterWake) =>
      is_active target after = true ∧ is_dormant target after = false ∧ ∃ ev, was_dormant ev
  | Err (WakeFailed NotDormant) => False
  end.

Lemma send_result target m s x s' :
  send target m s = Some (x, s') →
  registry s' = registry s
  ∧ (is_ok x = true → ∃ tx rs, senders (registry s') !! target = Some tx ∧ chan_send tx m rs = Some (Ok (), runtime s')).
Proof.
  unfold send. intros Hm. apply bind_inv in Hm as (r & s1 & [-> ->]%gets_inv & Hm).
  destruct (senders (registry s) !! target) as [tx|] eqn:Et; [|by apply ret_inv in Hm as [-> ->]].
  apply bind_inv in Hm as (y & s2 & E & [-> ->]%ret_inv). unfold on_rt in E.
  destruct (chan_send tx m (runtime s)) as [[z rs]|] eqn:Es; [|done]. injection E as -> <-.
  split; [done|]. destruct y as [[]|]; [|done]. intros _. by exists tx, (runtime s).
Qed.
Lemma on_rt_registry {A} (m : SM rt A) s a s' : on_rt m s = Some (a, s') → registry s' = registry s.
Proof. unfold on_rt. destruct (m (runtime s)) as [[b rs]|]; [|done]. by intros [= <- <-]. Qed.

(** C17: the outcomes of a delivery.  Success means that the message is in the
    inbox of an active agent, which was active, or dormant and is so no longer.
    An unknown agent, a saturated or cancelled admission leave the directory
    as it was, so the caller can try again.  After any failure of the wake-up
    itself the agent is in neither table: it can be neither delivered to nor
    woken again, and for a dangling snapshot the error names it. *)
Theorem deliver_spec target m io p md s r s' :
  registry_ok (registry s) → deliver target m io p md s = Some (r, s') → delivered target m s s' r.
Proof.
  intros Hok Hm. unfold deliver in Hm. apply bind_inv in Hm as (g & s1 & [-> ->]%gets_inv & Hm).
  unfold delivered, absent. destruct (is_active target (registry s)) eqn:Ha.
  { apply bind_inv in Hm as (x & s2 & [Er Hs]%send_result & [-> ->]%ret_inv).
    destruct x as [[]|e]; cbn; [|rewrite Er; auto]. rewrite Er in *. split_and!; auto. }
  destruct (dormant (registry s) !! target) as [ev|] eqn:Ed.
  2: { apply ret_inv in Hm as [-> ->]. split; [done|]. right. split; [split; [done|]|done].
       unfold is_dormant. by rewrite Ed. }
  assert (∃ e, false = false ∧ dormant_state target (registry s) = Some e) as Hwas by (by exists ev).
  apply bind_inv in Hm as (q & s2 & Eq%on_rt_registry & Hm). rewrite <-Eq in Ed.
  destruct q as [permit|e]; [|apply ret_inv in Hm as [-> ->]; by destruct e].
  apply bind_inv in Hm as (w & s3 & Ew & Hm). apply (wake_run _ _ ev) in Ew; [|done|].
  2: { rewrite Eq in Ed. exact (ro_dormant _ Hok _ _ Ed). }
  apply bind_inv in Hm as ([] & s4 & Ep%on_rt_registry & Hm). rewrite <-Ep, Eq in Ew.
  destruct w as [a|e].
  - destruct Ew as (_ & Hact & Hdo). apply bind_inv in Hm as (x & s5 & [Er Hs]%send_result & [-> ->]%ret_inv).
    assert (is_dormant target (registry s5) = false) as Hnd.
    { unfold is_dormant. by rewrite Er, Hdo, lookup_delete_eq. }
    destruct x as [[]|e]; cbn; rewrite Er in *; split_and!; auto.
  - apply ret_inv in Hm as [-> ->]. destruct Ew as [Hr He].
    assert (is_active target (registry s4) = false ∧ is_dormant target (registry s4) = false) as Habs.
    { rewrite Hr. unfold is_active, is_dormant in *. cbn. by rewrite lookup_delete_eq. }
    destruct He as [(h & -> & Hh)|[e' ->]]; [|done]. split; [done|]. exists ev. rewrite Eq in Ed. done.
Qed.

End delivery.

(** ** A concrete runtime

    A task keeps its inbox; it runs when its eviction is waited for. *)

Record DemoRt := mkDemo {
  dm_world : World;
  dm_next : nat;
  dm_tasks : gmap nat (ActorInstance (G := ()) * list Event) }.
#[global] Instance DemoRt_settable : Settable DemoRt := λ r, mkDemo (dm_world r) (dm_next r) (dm_tasks r).

Definition demo_spawn (i : ActorInstance (G := ())) (r : DemoRt) : (nat * nat) * DemoRt :=
  let n := dm_next r in ((n, n), r <| dm_next := S n |> <| dm_tasks ::= insert n (i, []) |>).
Definition demo_send (tx : nat) (m : Message) : SM DemoRt (result () ()) := λ r,
  match dm_tasks r !! tx with
  | Some (i, inbox) => Some (Ok (), r <| dm_tasks ::= insert tx (i, inbox ++ [Recv m]) |>)
  | None => Some (Err (), r)
  end.
(** The task whose last message waits for [reply]. *)
Definition demo_waiting (reply : nat) (t : nat * (ActorInstance (G := ()) * list Event)) : bool :=
  match last t.2.2 with Some (Recv (Evict c)) => bool_decide (c = reply) | _ => false end.
Definition demo_recv (reply : nat) : SM DemoRt (option EvictedState) := λ r,
  match filter (λ t, demo_waiting reply t = true) (map_to_list (dm_tasks r)) with
  | (n, (i, inbox)) :: _ =>
      match run_task i inbox (dm_world r) with
      | Some (a, w) => Some (option_map snd a, r <| dm_world := w |> <| dm_tasks ::= delete n |>)
      | None => None
      end
  | [] => Some (None, r)
  end.
#[global] Instance demo_runtime : TaskRuntime () := {|
  rt := DemoRt;
  rt_world := dm_world;
  rt_set w r := r <| dm_world := w |>;
  spawn := demo_spawn;
  chan_send := demo_send;
  oneshot r := (dm_next r, r <| dm_next ::= S |>);
  oneshot_recv := demo_recv;
  is_finished h r := negb (bool_decide (is_Some (dm_tasks r !! h)));
  join _ := mret () |}.
#[global] Instance demo_runtime_laws : RuntimeLaws (G := ()).
Proof.
  split; [done|]. intros tx m r x r' Hm. cbn in Hm. unfold demo_send in Hm.
  destruct (dm_tasks r !! tx) as [[i inbox]|]; injection Hm as <- <-;
    intros hist Hh; exists []; by rewrite app_nil_r.
Qed.
Definition demo_io : IoAccess (G := ()) := {|
  acquire _ _ _ := mret (Ok 0); drop_permit _ := mret () |}.

(** ** Concrete runs *)

Definition final {S A} (m : SM S A) (s : S) : S := match m s with Some (_, s') => s' | None => s end.
Lemma final_run {S A} (m : SM S A) s : returns m s = true → ∃ a, m s = Some (a, final m s).
Proof. unfold returns, final. destruct (m s) as [[a s']|]; [eauto|done]. Qed.

(** The creation and the registration of an agent. *)
Definition demo_enlist (a : AgentId) : SM System () :=
  i ← in_world (new_precompiled demo_module a);
  match i with Ok i => register i;; mret () | Err _ => panic end.
Lemma demo_enlist_steps a s u s' : demo_enlist a s = Some (u, s') → rtc sys_step s s'.
Proof.
  intros Hm. unfold demo_enlist in Hm. apply bind_inv in Hm as (i & s1 & (w & _ & ->)%in_world_inv & Hm).
  destruct i as [i|]; [|done]. apply bind_inv in Hm as (tx & s2 & Hm & [-> ->]%ret_inv).
  eapply rtc_l; [apply sys_tasks|]. apply rtc_once. by eapply sys_register.
Qed.

Definition demo_s0 : System := mkSystem registry_empty (supervisor_new 1) 1
  (mkDemo (demo_world <| cap_stores ::= insert 1 Caps.new |>) 0 ∅).
Definition demo_s1 : System := final (demo_enlist demo_agent_id) demo_s0.
Definition demo_s2 : System := final (evict_agent demo_agent_id) demo_s1.
Definition demo_s3 : System := final (wake_agent demo_agent_id demo_module) demo_s2.


Lemma demo_sched_steps : rtc sys_step demo_s0 demo_s3.
Proof.
  assert (returns (demo_enlist demo_agent_id) demo_s0 = true) as H1 by (vm_compute; reflexivity).
  assert (returns (evict_agent demo_agent_id) demo_s1 = true) as H2 by (vm_compute; reflexivity).
  assert (returns (wake_agent demo_agent_id demo_module) demo_s2 = true) as H3 by (vm_compute; reflexivity).
  destruct (final_run _ _ H1) as [u E1], (final_run _ _ H2) as [x E2], (final_run _ _ H3) as [y E3].
  etrans; [exact (demo_enlist_steps _ _ _ _ E1)|].
  eapply rtc_l; [exact (sys_evict _ _ _ _ E2)|]. apply rtc_once. exact (sys_wake _ _ _ _ _ E3).
Qed.
Lemma demo_ok : registry_ok (registry demo_s2).
Proof.
  assert (returns (demo_enlist demo_agent_id) demo_s0 = true) as H1 by (vm_compute; reflexivity).
  assert (returns (evict_agent demo_agent_id) demo_s1 = true) as H2 by (vm_compute; reflexivity).
  destruct (final_run _ _ H1) as [u E1], (final_run _ _ H2) as [x E2].
  refine (sys_step_ok _ _ (sys_evict _ _ _ _ E2) (sys_steps_ok _ _ (demo_enlist_steps _ _ _ _ E1) _)).
  apply registry_empty_ok.
Qed.
Definition demo_rt : rt (G := ()) := mkDemo demo_world 0 ∅.
Lemma registry_isolation_witness :
  ∃ s0 s, scheduler_new demo_rt = Some s0 ∧ rtc sys_step s0 s
    ∧ is_active demo_agent_id (registry s) = true ∧ is_Some (tenant_of demo_agent_id (registry s)).
Proof.
  assert (scheduler_new demo_rt = Some demo_s0) as Hn by reflexivity.
  assert (is_active demo_agent_id (registry demo_s3) = true) as Ha by (vm_compute; reflexivity).
  destruct (registry_isolation demo_rt demo_s0 demo_s3 Hn demo_sched_steps) as (H1 & _).
  exists demo_s0, demo_s3. split; [exact Hn|]. split; [exact demo_sched_steps|]. split; [exact Ha|].
  exact (proj2 (H1 demo_agent_id Ha)).
Defined.

Lemma supervision_authority_witness :
  rollback_as demo_agent_id 3 (Tenant 7) demo_s1 = Some (Err CrossTenantDenied, demo_s1).
Proof.
  assert (¬ may_supervise (Tenant 7) demo_agent_id demo_s1) as Hn.
  { intros Hm. assert (bool_decide (tenant_of demo_agent_id (registry demo_s1) = Some 7%Z) = false) as Hb
      by (vm_compute; reflexivity). apply bool_decide_eq_false in Hb. exact (Hb Hm). }
  exact (proj2 (proj2 (proj1 (proj2 (supervision_authority (Tenant 7) demo_agent_id 3 demo_s1)) Hn))).
Defined.

(** The same agent, with the journal on. *)
Definition demo_logged : System := final set_log_ref demo_s1.
Lemma rollback_journal_witness :
  ∃ r s', rollback_as demo_agent_id 3 Orchestrator demo_logged = Some (r, s')
    ∧ registry s' = registry demo_logged.
Proof.
  assert (returns (rollback_as demo_agent_id 3 Orchestrator) demo_logged = true) as Hr by (vm_compute; reflexivity).
  destruct (returns_Some _ _ Hr) as (r & s' & E). clear Hr. exists r, s'. split; [exact E|].
  assert (log_ref (supervisor demo_logged) = true) as Hl by (vm_compute; reflexivity).
  assert (cancel_fn (supervisor demo_logged) = None) as Hc by (vm_compute; reflexivity).
  assert (Log.represents (causal_log (rt_world (runtime demo_logged))) []) as Hh
    by (apply Log.represents_empty; vm_compute; reflexivity).
  destruct (rollback_journal Orchestrator demo_agent_id 3 demo_logged r s' [] I Hl eq_refl
    ltac:(intros f rs rs' Hf; rewrite Hc in Hf; discriminate Hf) Hh E)
    as (op & be & cl & d1 & d2 & _ & _ & _ & _ & _ & Hreg & _).
  exact Hreg.
Defined.

(** A parent with a capability over the supervisor's store, and its child. *)
Definition demo_child : AgentId := replicate 16 Byte.x43.
Definition demo_parented : System := demo_s1 <| runtime ::= λ r, r <| dm_world ::= λ w,
  w <| cap_stores ::= insert 1 (Caps.grant_root 5 Caps.new demo_agent_id Caps.perm_rwxd "store/A").2 |> |> |>.
Definition demo_grants : list (Caps.CapabilityId * Caps.Permissions * string) := [(0%Z, Caps.perm_r, "store/A/x"%string)].
Lemma spawn_child_spec_witness :
  ∃ x s' st, spawn_child demo_module demo_child (zeros 32) demo_message demo_agent_id demo_grants demo_parented
      = Some (x, s')
    ∧ spawn_outcome demo_module demo_child demo_agent_id (caused demo_message (zeros 32)) demo_grants st demo_parented s' x.
Proof.
  assert (returns (spawn_child demo_module demo_child (zeros 32) demo_message demo_agent_id demo_grants) demo_parented
    = true) as Hr by (vm_compute; reflexivity).
  destruct (returns_Some _ _ Hr) as (x & s' & E). clear Hr.
  assert (store_at (sup_cap_store (supervisor demo_parented)) (rt_world (runtime demo_parented))
    = (Caps.grant_root 5 Caps.new demo_agent_id Caps.perm_rwxd "store/A").2) as Hst by (vm_compute; reflexivity).
  destruct (spawn_child_spec demo_module demo_child (zeros 32) demo_message demo_agent_id demo_grants demo_parented x s')
    as (w & st & _ & _ & _ & _ & Ho).
  - rewrite Hst. apply Caps.cs_inv_grant; [exact Caps.cs_inv_new|reflexivity].
  - rewrite Hst. reflexivity.
  - exact E.
  - exists x, s', st. split; [exact E|exact Ho].
Defined.

Lemma deliver_spec_witness :
  ∃ r s', deliver demo_agent_id (data demo_message) demo_io Queue.Foreground demo_module demo_s2 = Some (r, s')
    ∧ delivered demo_agent_id (data demo_message) demo_s2 s' r.
Proof.
  assert (returns (deliver demo_agent_id (data demo_message) demo_io Queue.Foreground demo_module) demo_s2 = true)
    as Hr by (vm_compute; reflexivity).
  destruct (returns_Some _ _ Hr) as (r & s' & E). clear Hr. exists r, s'. split; [exact E|].
  exact (deliver_spec demo_agent_id (data demo_message) demo_io Queue.Foreground demo_module demo_s2 r s' demo_ok E).
Defined.

End SchedSpec.
