(* ===== verification/Fleet.v ===== *)
(** Fleet: the driver of a fleet of agents and the library of routers.

    Models [poc/runtime/src/fleet/mod.rs]: the directives an agent may emit and
    their wire format, the [FleetDriver] that polls the log and executes the
    routes under its guards, and the six routers.  A router is any state with an
    [on_event]; the factory of members is the runner's, hence a parameter; the
    sleep between two polls is the runtime's.  A text is its UTF-8 bytes. *)
From Stdlib Require Import String.
From stdpp Require Import pretty.
From S2P Require Import Prelude Storage Capabilities ContentStore CausalLog InferQueue Clock CauseHandles Actor RunLoop Scheduler.

Module Fleet.
Import Clocks Watchdog Handles Actor Loop Sched.

(** ** Texts *)

Definition str (s : string) : bytes := String.list_byte_of_string s.

Definition REPLACEMENT : bytes := [Byte.xef; Byte.xbf; Byte.xbd].
(** [String::from_utf8_lossy]: one replacement character per maximal invalid part. *)
Fixpoint from_utf8_lossy (l : bytes) : bytes :=
  let tail := continuation 0x80 0xBF in
  match l with
  | [] => []
  | b :: l1 =>
      if continuation 0x00 0x7F b then b :: from_utf8_lossy l1
      else match l1 with
      | [] => REPLACEMENT
      | c :: l2 =>
          if continuation 0xC2 0xDF b then
            if tail c then b :: c :: from_utf8_lossy l2 else REPLACEMENT ++ from_utf8_lossy l1
          else
            let second :=
              continuation 0xE0 0xE0 b && continuation 0xA0 0xBF c
              || continuation 0xE1 0xEC b && tail c
              || continuation 0xED 0xED b && continuation 0x80 0x9F c
              || continuation 0xEE 0xEF b && tail c in
            let second4 :=
              continuation 0xF0 0xF0 b && continuation 0x90 0xBF c
              || continuation 0xF1 0xF3 b && tail c
              || continuation 0xF4 0xF4 b && continuation 0x80 0x8F c in
            if second then
              match l2 with
              | d :: l3 => if tail d then b :: c :: d :: from_utf8_lossy l3 else REPLACEMENT ++ from_utf8_lossy l2
              | [] => REPLACEMENT
              end
            else if second4 then
              match l2 with
              | d :: l3 =>
                  if tail d then
                    match l3 with
                    | e :: l4 =>
                        if tail e then b :: c :: d :: e :: from_utf8_lossy l4 else REPLACEMENT ++ from_utf8_lossy l3
                    | [] => REPLACEMENT
                    end
                  else REPLACEMENT ++ from_utf8_lossy l2
              | [] => REPLACEMENT
              end
            else REPLACEMENT ++ from_utf8_lossy l1
      end
  end.

(** The characters of the Unicode property [White_Space]. *)
Definition whitespace : list bytes :=
  ((λ z, [z2b z]) <$> [0x09; 0x0A; 0x0B; 0x0C; 0x0D; 0x20]%Z)
  ++ [[Byte.xc2; Byte.x85]; [Byte.xc2; Byte.xa0]; [Byte.xe1; Byte.x9a; Byte.x80]]
  ++ ((λ z, [Byte.xe2; Byte.x80; z2b z]) <$>
        [0x80; 0x81; 0x82; 0x83; 0x84; 0x85; 0x86; 0x87; 0x88; 0x89; 0x8A; 0xA8; 0xA9; 0xAF]%Z)
  ++ [[Byte.xe2; Byte.x81; Byte.x9f]; [Byte.xe3; Byte.x80; Byte.x80]].
Definition strip_one (ws : list bytes) (l : bytes) : option bytes :=
  head (omap (λ w, if decide (take (length w) l = w) then Some (drop (length w) l) else None) ws).
Fixpoint trim_with (ws : list bytes) (fuel : nat) (l : bytes) : bytes :=
  match fuel with
  | O => l
  | S fuel => match strip_one ws l with Some l => trim_with ws fuel l | None => l end
  end.
(** [str::trim]: every step strips at least one byte. *)
Definition trim (l : bytes) : bytes :=
  let l := trim_with whitespace (length l) l in
  reverse (trim_with (reverse <$> whitespace) (length l) (reverse l)).

(** ** Events and routes *)

Record CauseRef := mkCauseRef { cause_action : ActionId }.
#[global] Instance CauseRef_eq_dec : EqDecision CauseRef.
Proof. solve_decision. Defined.

Inductive FleetEvent :=
| Result (agent : AgentId) (cause : CauseRef) (text : bytes)
| Deadline (agent : AgentId)
| EmitEvent (agent : AgentId) (cause : CauseRef) (emit_type : Z) (payload : bytes).

Inductive Route :=
| SendRoot (to : AgentId) (payload : bytes)
| SendCaused (to : AgentId) (payload : bytes) (cause : CauseRef)
| Close (agent : AgentId)
| Spawn (template_idx : nat) (child : AgentId) (payload : bytes) (cause : CauseRef)
| Done.
#[global] Instance Route_eq_dec : EqDecision Route.
Proof. solve_decision. Defined.

Record Ctx := mkCtx { ctx_tenant : TenantId; expected : list AgentId }.

Class Router (S : Type) := on_event : FleetEvent → Ctx → S → list Route * S.

(** ** Directives *)

Inductive DirectiveKind := Escalate | Delegate.
#[global] Instance DirectiveKind_eq_dec : EqDecision DirectiveKind.
Proof. solve_decision. Defined.
#[global] Instance DirectiveKind_countable : Countable DirectiveKind.
Proof.
  refine (inj_countable' (λ k, match k with Escalate => true | Delegate => false end)
    (λ b : bool, if b then Escalate else Delegate) _). by intros [].
Defined.
Definition kind_u8 (k : DirectiveKind) : Z := match k with Escalate => 1 | Delegate => 2 end.
Definition kind_from_u8 (v : Z) : option DirectiveKind :=
  match v with 1 => Some Escalate | 2 => Some Delegate | _ => None end%Z.

Record RouteDirective := mkDirective { kind : DirectiveKind; directive_payload : bytes }.
Definition MAGIC : bytes := [Byte.xfd; Byte.x04].
Definition VERSION : byte := Byte.x01.
Definition HEADER_LEN : nat := 4.
Definition encode (d : RouteDirective) : bytes :=
  MAGIC ++ [VERSION] ++ [z2b (kind_u8 (kind d))] ++ directive_payload d.
Definition decode (b : bytes) : option RouteDirective :=
  if decide (length b < HEADER_LEN) then None
  else if decide (take 2 b ≠ MAGIC ∨ b !! 2 ≠ Some VERSION) then None
  else
    v ← b !! 3;
    k ← kind_from_u8 (b2z v);
    Some (mkDirective k (drop HEADER_LEN b)).

(** ** Driver *)

Section driver.
Context `{R : RocksDB, H256 : Sha256, BH : Bincode Store.SnapshotHeader,
          BE : Bincode Log.LogEntry, MP : Msgpack Log.EmitEnvelope}.
Context {G : Type} `{!TaskRuntime G}.

(** Why a message was not routed: the scheduler's error, or the factory's text. *)
Inductive RoutingError := SendError (e : RouteError) | FactoryError (e : string).
Inductive FleetError :=
| CrossTenantRefused | UnknownCause | SpawnUnsupported | SpawnRefused | UnknownTemplate
| FleetRouting (e : RoutingError).

(** [None] from [materialize] is an index out of the inventory. *)
Record MemberFactory := mkFactory {
  materialize : nat → AgentId → TenantId → option (SM World (result string (ActorInstance (G := G))));
  capacity : nat }.

Record FleetDriver := mkDriver {
  fleet_tenant : TenantId;
  cursors : gmap AgentId nat;
  emitted : gset ActionId;
  produced : gset AgentId;
  watched_emits : gset Z;
  factory : option MemberFactory;
  members : gmap AgentId nat;
  ctx : Ctx }.
#[global] Instance FleetDriver_settable : Settable FleetDriver := λ d,
  mkDriver (fleet_tenant d) (cursors d) (emitted d) (produced d) (watched_emits d) (factory d) (members d) (ctx d).

Definition driver_new (tenant : TenantId) (expected : list AgentId) : FleetDriver :=
  mkDriver tenant ∅ ∅ ∅ ∅ None ∅ (mkCtx tenant expected).
Definition with_factory (f : MemberFactory) (d : FleetDriver) : FleetDriver :=
  d <| factory := Some f |> <| watched_emits ::= ({[Log.emit_u8 Log.Event]} ∪.) |>.
Definition watch_emit (emit_type : Z) (d : FleetDriver) : FleetDriver :=
  d <| watched_emits ::= ({[emit_type]} ∪.) |>.

(** The actions of an agent; an error of the database is an empty list. *)
Definition agent_ids (log : db) (agent : AgentId) : list ActionId :=
  default [] (result_ok (Log.query_by_agent_range log agent None None)).
Definition prime_cursor (log : db) (agent : AgentId) (d : FleetDriver) : FleetDriver :=
  d <| cursors ::= insert agent (length (agent_ids log agent)) |>.
Definition cause_for (log : db) (action_id : ActionId) (d : FleetDriver) : option CauseRef * FleetDriver :=
  match Log.get log action_id with
  | Ok (Some _) => (Some (mkCauseRef action_id), d <| emitted ::= ({[action_id]} ∪.) |>)
  | _ => (None, d)
  end.

(** The envelope of a logged action; anything unreadable is skipped. *)
Definition read_emit (log : db) (aid : ActionId) : option Log.EmitEnvelope :=
  match Log.get log aid with
  | Ok (Some e) => pb ← Log.emit_payload e; result_ok (Log.from_msgpack pb)
  | _ => None
  end.
Definition action_result (env : Log.EmitEnvelope) : bool :=
  bool_decide (Log.env_emit_type env = Log.emit_u8 Log.ActionResult).
Definition text_of (env : Log.EmitEnvelope) : bytes := trim (from_utf8_lossy (Log.env_payload env)).
(** A result seen by the driver. *)
Definition record_result (agent : AgentId) (aid : ActionId) (d : FleetDriver) : FleetDriver :=
  d <| emitted ::= ({[aid]} ∪.) |> <| produced ::= ({[agent]} ∪.) |>.

(** The body of the inner loop of [poll_events], and its loops. *)
Definition poll_entry (log : db) (agent : AgentId) (acc : list FleetEvent * FleetDriver) (aid : ActionId)
    : list FleetEvent * FleetDriver :=
  let '(events, d) := acc in
  match read_emit log aid with
  | None => (events, d)
  | Some env =>
      if action_result env then
        (events ++ [Result agent (mkCauseRef aid) (text_of env)], record_result agent aid d)
      else if decide (Log.env_emit_type env ∈ watched_emits d) then
        (events ++ [EmitEvent agent (mkCauseRef aid) (Log.env_emit_type env) (Log.env_payload env)],
         d <| emitted ::= ({[aid]} ∪.) |>)
      else (events, d)
  end.
Definition cursor_of (agent : AgentId) (d : FleetDriver) : nat := default 0 (cursors d !! agent).
Definition poll_agent (log : db) (acc : list FleetEvent * FleetDriver) (agent : AgentId)
    : list FleetEvent * FleetDriver :=
  let '(events, d) := acc in
  let ids := agent_ids log agent in
  let cursor := cursor_of agent d in
  let '(events, d) := foldl (poll_entry log agent) (events, d) (drop cursor ids) in
  (events, d <| cursors ::= insert agent (max cursor (length ids)) |>).
Definition poll_events (log : db) (d : FleetDriver) : list FleetEvent * FleetDriver :=
  foldl (poll_agent log) ([], d) (expected (ctx d)).

(** The inner loop of [wait_result]: the first result of the actions [ids]
    that start at [cursor]. *)
Fixpoint wait_scan (log : db) (agent : AgentId) (ids : list ActionId) (cursor : nat) (d : FleetDriver)
    : option (CauseRef * bytes) * FleetDriver :=
  match ids with
  | [] => (None, d <| cursors ::= insert agent cursor |>)
  | aid :: ids =>
      match read_emit log aid with
      | Some env =>
          if action_result env then
            (Some (mkCauseRef aid, text_of env),
             record_result agent aid (d <| cursors ::= insert agent (S cursor) |>))
          else wait_scan log agent ids (S cursor) d
      | None => wait_scan log agent ids (S cursor) d
      end
  end.

(** ** The driver at work *)

Context {RS : Type} `{!Router RS}.

Record FleetState := mkFleet { driver : FleetDriver; sched : System; router : RS }.
#[global] Instance FleetState_settable : Settable FleetState := λ f, mkFleet (driver f) (sched f) (router f).
Abbreviation fleet := (SM FleetState).

Definition on_sched {A} (m : SM System A) : fleet A := λ f,
  (λ '(a, s), (a, f <| sched := s |>)) <$> m (sched f).
Definition set_driver (f : FleetDriver → FleetDriver) : fleet () := modify (λ st, st <| driver ::= f |>).
Definition fleet_log (f : FleetState) : db := causal_log (rt_world (runtime (sched f))).

(** [wait_result]: [tick] is the sleep; [None] of the fuel is a loop that is not over. *)
Fixpoint wait_loop (fuel : nat) (tick : SM rt ()) (agent : AgentId) (stop : Z)
    : fleet (option (option (CauseRef * bytes))) :=
  match fuel with
  | O => mret None
  | S fuel =>
      f ← gets (λ f, f);
      let d := driver f in
      let ids := agent_ids (fleet_log f) agent in
      let cursor := cursor_of agent d in
      let '(found, d) := wait_scan (fleet_log f) agent (drop cursor ids) cursor d in
      set_driver (λ _, d);;
      match found with
      | Some r => mret (Some (Some r))
      | None =>
          now ← on_sched Sched.instant;
          if (stop <=? now)%Z then mret (Some None)
          else on_sched (on_rt tick);; wait_loop fuel tick agent stop
      end
  end.
Definition wait_result (fuel : nat) (tick : SM rt ()) (agent : AgentId) (deadline : Z)
    : fleet (option (option (CauseRef * bytes))) :=
  now ← on_sched Sched.instant; wait_loop fuel tick agent (now + deadline)%Z.

Definition tenant_ok (d : FleetDriver) (s : System) (to : AgentId) : bool :=
  bool_decide (Sched.tenant_of to (registry s) = Some (fleet_tenant d)).

Definition routed {E} (r : result RouteError E) : result FleetError E := map_err (λ e, FleetRouting (SendError e)) r.
Definition execute (route : Route) : fleet (result FleetError ()) :=
  d ← gets driver;
  s ← gets sched;
  match route with
  | SendRoot to payload =>
      if negb (tenant_ok d s to) then mret (Err CrossTenantRefused)
      else x ← on_sched (Sched.send to (data payload)); mret (routed x)
  | SendCaused to payload cause =>
      if negb (tenant_ok d s to) then mret (Err CrossTenantRefused)
      else if decide (cause_action cause ∉ emitted d) then mret (Err UnknownCause)
      else x ← on_sched (Sched.send_caused_by to payload (cause_action cause)); mret (routed x)
  | Spawn template_idx child payload cause =>
      if decide (cause_action cause ∉ emitted d) then mret (Err UnknownCause)
      else match factory d with
      | None => mret (Err SpawnUnsupported)
      | Some f =>
          if decide (capacity f ≤ size (members d)) then mret (Err SpawnRefused)
          else match materialize f template_idx child (fleet_tenant d) with
          | None => mret (Err UnknownTemplate)
          | Some fut =>
              i ← on_sched (in_world fut);
              match i with
              | Err e => mret (Err (FleetRouting (FactoryError e)))
              | Ok i =>
                  tx ← on_sched (Sched.register i);
                  set_driver (λ d, d <| members ::= insert child tx |>);;
                  x ← on_sched (Sched.send_caused_by child payload (cause_action cause));
                  mret (routed x)
              end
          end
      end
  | Close _ | Done => mret (Ok ())
  end.

(** The routes of one event, until [Done]; errors are ignored. *)
Fixpoint route_all (routes : list Route) : fleet bool :=
  match routes with
  | [] => mret false
  | route :: routes =>
      if decide (route = Done) then mret true
      else execute route;; route_all routes
  end.
Definition handle_event (ev : FleetEvent) : fleet bool :=
  f ← gets (λ f, f);
  let '(routes, r) := on_event ev (ctx (driver f)) (router f) in
  modify (λ f, f <| router := r |>);;
  route_all routes.
Fixpoint handle_events (evs : list FleetEvent) : fleet bool :=
  match evs with
  | [] => mret false
  | ev :: evs =>
      finished ← handle_event ev;
      if finished : bool then mret true else handle_events evs
  end.
(** The deadline of collection, for the members that produced nothing. *)
Fixpoint fire_deadlines (agents : list AgentId) : fleet bool :=
  match agents with
  | [] => mret false
  | agent :: agents =>
      d ← gets driver;
      if decide (agent ∈ produced d) then fire_deadlines agents
      else
        finished ← handle_event (Deadline agent);
        if finished : bool then mret true else fire_deadlines agents
  end.

(** One turn of the loop of [run]: whether it is over, and with what. *)
Definition run_turn (tick : SM rt ()) (collect_stop hard_stop : Z) (deadline_fired : bool)
    : fleet (option bool * bool) :=
  f ← gets (λ f, f);
  let '(evs, d) := poll_events (fleet_log f) (driver f) in
  set_driver (λ _, d);;
  finished ← handle_events evs;
  if finished : bool then mret (Some true, deadline_fired)
  else
    fire ← (if deadline_fired then mret false
            else now ← on_sched Sched.instant; mret (collect_stop <=? now)%Z);
    finished ← (if fire : bool then d ← gets driver; fire_deadlines (expected (ctx d)) else mret false);
    if finished : bool then mret (Some true, true)
    else
      now ← on_sched Sched.instant;
      if (hard_stop <=? now)%Z then mret (Some false, deadline_fired || fire)
      else on_sched (on_rt tick);; mret (None, deadline_fired || fire).
Fixpoint run_turns (fuel : nat) (tick : SM rt ()) (collect_stop hard_stop : Z) (deadline_fired : bool)
    : fleet (option bool) :=
  match fuel with
  | O => mret None
  | S fuel =>
      t ← run_turn tick collect_stop hard_stop deadline_fired;
      match t with
      | (Some b, _) => mret (Some b)
      | (None, fired) => run_turns fuel tick collect_stop hard_stop fired
      end
  end.
Definition run (fuel : nat) (tick : SM rt ()) (deadline : Z) : fleet (option bool) :=
  now ← on_sched Sched.instant;
  run_turns fuel tick (now + deadline)%Z (now + deadline + deadline)%Z false.

End driver.

(** ** Routers *)

(** Fan-in: the reports of the members go to the aggregator, then one [FINALIZE]. *)
Record FanInRouter := mkFanIn {
  aggregator : AgentId;
  finalize_cause : CauseRef;
  labels : gmap AgentId bytes;
  seen : gset AgentId;
  finalized : bool }.
#[global] Instance FanInRouter_settable : Settable FanInRouter := λ r,
  mkFanIn (aggregator r) (finalize_cause r) (labels r) (seen r) (finalized r).
Definition fan_in_new (aggregator : AgentId) (finalize_cause : CauseRef) (labels : gmap AgentId bytes) : FanInRouter :=
  mkFanIn aggregator finalize_cause labels ∅ false.
Definition finalize (r : FanInRouter) : list Route * FanInRouter :=
  if negb (finalized r) && negb (bool_decide (seen r = ∅)) then
    ([SendCaused (aggregator r) (str "FINALIZE") (finalize_cause r)], r <| finalized := true |>)
  else ([], r).
Definition report_payload (r : FanInRouter) (agent : AgentId) (text : bytes) : bytes :=
  match labels r !! agent with
  | Some label => str "REPORT:" ++ label ++ str ":" ++ text
  | None => str "REPORT:" ++ text
  end.
Definition all_in (ctx : Ctx) (r : FanInRouter) : bool :=
  forallb (λ a, bool_decide (a ∈ seen r)) (filter (λ a, a ≠ aggregator r) (expected ctx)).
#[global] Instance fan_in_router : Router FanInRouter := λ ev ctx r,
  match ev with
  | Deadline _ => finalize r
  | EmitEvent _ _ _ _ => ([], r)
  | Result agent cause text =>
      if decide (agent = aggregator r) then ([Done], r)
      else
        let '(routes, r) :=
          if decide (agent ∈ seen r) then ([], r)
          else ([SendCaused (aggregator r) (report_payload r agent text) cause], r <| seen ::= ({[agent]} ∪.) |>) in
        if all_in ctx r then let '(more, r) := finalize r in (routes ++ more, r) else (routes, r)
  end.

(** Quorum: the votes go to the secretary, then one [TALLY]. *)
Record QuorumRouter := mkQuorum {
  secretary : AgentId;
  proposal_cause : CauseRef;
  threshold : nat;
  votes : gset AgentId;
  tallied : bool }.
#[global] Instance QuorumRouter_settable : Settable QuorumRouter := λ r,
  mkQuorum (secretary r) (proposal_cause r) (threshold r) (votes r) (tallied r).
Definition quorum_new (secretary : AgentId) (proposal_cause : CauseRef) (threshold : nat) : QuorumRouter :=
  mkQuorum secretary proposal_cause threshold ∅ false.
Definition tally_payload (threshold : nat) : bytes := str "TALLY:" ++ str (pretty (N.of_nat threshold)).
Definition tally (r : QuorumRouter) : list Route * QuorumRouter :=
  if negb (tallied r) && negb (bool_decide (votes r = ∅)) then
    ([SendCaused (secretary r) (tally_payload (threshold r)) (proposal_cause r)], r <| tallied := true |>)
  else ([], r).
#[global] Instance quorum_router : Router QuorumRouter := λ ev _ r,
  match ev with
  | Deadline _ => tally r
  | EmitEvent _ _ _ _ => ([], r)
  | Result agent cause text =>
      if decide (agent = secretary r) then ([Done], r)
      else
        let '(routes, r) :=
          if decide (agent ∈ votes r) then ([], r)
          else ([SendCaused (secretary r) (str "VOTE:" ++ text) cause], r <| votes ::= ({[agent]} ∪.) |>) in
        if decide (threshold r ≤ size (votes r)) then let '(more, r) := tally r in (routes ++ more, r)
        else (routes, r)
  end.

(** Pipeline: the result of a stage goes to the next one. *)
Record PipelineRouter := mkPipeline { stages : list AgentId; transform : nat → bytes → bytes }.
Definition pipeline_forward_raw (_ : nat) (text : bytes) : bytes := text.
Definition pipeline_new (stages : list AgentId) : PipelineRouter := mkPipeline stages pipeline_forward_raw.
Definition with_transform (stages : list AgentId) (transform : nat → bytes → bytes) : PipelineRouter :=
  mkPipeline stages transform.
Definition position (a : AgentId) (l : list AgentId) : option nat := fst <$> list_find (a =.) l.
#[global] Instance pipeline_router : Router PipelineRouter := λ ev _ r,
  match ev with
  | Result agent cause text =>
      match position agent (stages r) with
      | None => ([], r)
      | Some i =>
          match stages r !! (i + 1) with
          | Some next => ([SendCaused next (transform r (i + 1) text) cause], r)
          | None => ([Done], r)
          end
      end
  | _ => ([], r)
  end.

(** Refinement: an agent works on its own output, a bounded number of times. *)
Record RefineRouter := mkRefine { refiner : AgentId; max_iter : nat; iter : nat; accepted : bytes → bool }.
#[global] Instance RefineRouter_settable : Settable RefineRouter := λ r,
  mkRefine (refiner r) (max_iter r) (iter r) (accepted r).
Definition refine_new (refiner : AgentId) (max_iter : nat) (accepted : bytes → bool) : RefineRouter :=
  mkRefine refiner max_iter 0 accepted.
#[global] Instance refine_router : Router RefineRouter := λ ev _ r,
  match ev with
  | Result agent cause text =>
      if decide (agent ≠ refiner r) then ([], r)
      else
        let r := r <| iter ::= S |> in
        if accepted r text || bool_decide (max_iter r ≤ iter r) then ([Done], r)
        else ([SendCaused (refiner r) text cause], r)
  | _ => ([], r)
  end.

(** Supervision: wait for one type of event of one agent. *)
Record SuperviseRouter := mkSupervise { target : AgentId; awaited : Z }.
#[global] Instance supervise_router : Router SuperviseRouter := λ ev _ r,
  match ev with
  | EmitEvent agent _ emit_type _ =>
      if decide (agent = target r ∧ emit_type = awaited r) then ([Done], r) else ([], r)
  | _ => ([], r)
  end.

(** Dispatch: a directive that decodes and is mapped spawns a member. *)
Record DispatchRouter := mkDispatch {
  table : gmap DirectiveKind nat;
  child_base : AgentId;
  next : Z;
  spawned : gset AgentId }.
#[global] Instance DispatchRouter_settable : Settable DispatchRouter := λ r,
  mkDispatch (table r) (child_base r) (next r) (spawned r).
Definition dispatch_new (table : gmap DirectiveKind nat) (child_base : AgentId) : DispatchRouter :=
  mkDispatch table child_base 0 ∅.
Definition child_id (r : DispatchRouter) : AgentId := <[15 := z2b (next r)]> (child_base r).
#[global] Instance dispatch_router : Router DispatchRouter := λ ev _ r,
  match ev with
  | EmitEvent _ cause emit_type payload =>
      if decide (emit_type = Log.emit_u8 Log.Event) then
        match decode payload with
        | None => ([], r)
        | Some d =>
            match table r !! kind d with
            | None => ([], r)
            | Some template_idx =>
                let child := child_id r in
                ([Spawn template_idx child (directive_payload d) cause],
                 r <| next := u8 (next r + 1) |> <| spawned ::= ({[child]} ∪.) |>)
            end
        end
      else ([], r)
  | Result agent _ _ => if decide (agent ∈ spawned r) then ([Done], r) else ([], r)
  | Deadline _ => ([], r)
  end.

End Fleet.
