(* ===== verification/FleetSpec.v ===== *)
(** FleetSpec: what the fleet driver and the routers guarantee.

    The wire format of directives, the exactness of a poll, the confinement of
    a fleet to its tenant and to causes it has read, the bound on the members it
    spawns, and the contract of the collecting routers (fan-in and quorum), as
    a refinement of one abstract collector. *)
From Stdlib Require Import String.
From S2P Require Import Prelude Storage Capabilities ContentStore CausalLog InferQueue Clock CauseHandles Actor ActorSafety ActorSpec RunLoop Scheduler SchedulerSpec Fleet.

Module FleetSpec.
Import Clocks Watchdog Handles Actor Spec Loop Sched SchedSpec Fleet.

(** ** Directives *)

Lemma kind_from_u8_Some v k : kind_from_u8 v = Some k ↔ v = kind_u8 k.
Proof.
  split; [|by intros ->; destruct k]. destruct v as [|[[]|[]|]|]; cbn; by intros [= <-].
Qed.

(** The wire format of directives is canonical: a byte string decodes to a
    directive exactly when it is the encoding of this directive.  So decoding
    inverts encoding, and a wrong magic, version, kind or a truncated header is
    refused. *)
Theorem directive_codec b d : decode b = Some d ↔ b = encode d.
Proof.
  unfold decode, encode. split.
  - case_decide as Hl; [done|]. unfold HEADER_LEN in *. case_decide as Hm; [done|].
    destruct b as [|b0 [|b1 [|b2 [|b3 b]]]]; cbn in Hl, Hm |- *; try lia.
    destruct (kind_from_u8 (b2z b3)) as [k|] eqn:Ek; [|done]. cbn. intros [= <-]. cbn.
    apply kind_from_u8_Some in Ek. rewrite <-Ek, z2b_b2z.
    assert ([b0; b1] = MAGIC ∧ b2 = VERSION) as [E ->] by (split; apply dec_stable; naive_solver).
    by injection E as -> ->.
  - intros ->. destruct d as [k p]. rewrite decide_False by (unfold HEADER_LEN; cbn; lia). cbn.
    destruct k; by vm_compute.
Qed.

(** ** Polling *)

Section poll.
Context `{R : RocksDB, H256 : Sha256, BH : Bincode Store.SnapshotHeader,
          BE : Bincode Log.LogEntry, MP : Msgpack Log.EmitEnvelope}.
Context {G : Type} `{!TaskRuntime G}.

(** The event of a logged action, if it has one. *)
Definition event_of (log : db) (watched : gset Z) (agent : AgentId) (aid : ActionId) : option FleetEvent :=
  env ← read_emit log aid;
  if action_result env then Some (Result agent (mkCauseRef aid) (text_of env))
  else if decide (Log.env_emit_type env ∈ watched) then
    Some (EmitEvent agent (mkCauseRef aid) (Log.env_emit_type env) (Log.env_payload env))
  else None.
Definition event_cause (ev : FleetEvent) : option ActionId :=
  match ev with Result _ c _ | EmitEvent _ c _ _ => Some (cause_action c) | Deadline _ => None end.
Definition result_agent (ev : FleetEvent) : option AgentId :=
  match ev with Result a _ _ => Some a | _ => None end.
(** What the driver has not read yet, and its events. *)
Definition unread (log : db) (d : FleetDriver (G := G)) (a : AgentId) : list ActionId :=
  drop (cursor_of a d) (agent_ids log a).
Definition reported (log : db) (d : FleetDriver (G := G)) : list FleetEvent :=
  a ← expected (ctx d); omap (event_of log (watched_emits d) a) (unread log d a).

(** The parts of a driver that polling leaves alone. *)
Definition same_config (d d' : FleetDriver (G := G)) : Prop :=
  fleet_tenant d' = fleet_tenant d ∧ watched_emits d' = watched_emits d ∧ factory d' = factory d
  ∧ members d' = members d ∧ ctx d' = ctx d.
(** The driver after having read [evs]. *)
Record noted (d d' : FleetDriver (G := G)) (evs : list FleetEvent) : Prop := {
  no_config : same_config d d';
  no_emitted : emitted d' = emitted d ∪ list_to_set (omap event_cause evs);
  no_produced : produced d' = produced d ∪ list_to_set (omap result_agent evs) }.

Lemma noted_refl (d : FleetDriver (G := G)) : noted d d [].
Proof. split; [done|set_solver|set_solver]. Qed.
Lemma noted_trans (d1 d2 d3 : FleetDriver (G := G)) evs1 evs2 : noted d1 d2 evs1 → noted d2 d3 evs2 → noted d1 d3 (evs1 ++ evs2).
Proof.
  intros [(?&?&?&?&?) He1 Hp1] [(?&?&?&?&?) He2 Hp2]. split; [unfold same_config; split_and!; congruence| |].
  - by rewrite He2, He1, omap_app, list_to_set_app_L, (assoc_L (∪)).
  - by rewrite Hp2, Hp1, omap_app, list_to_set_app_L, (assoc_L (∪)).
Qed.

(** The driver after one event. *)
Definition note (ev : FleetEvent) (d : FleetDriver (G := G)) : FleetDriver (G := G) :=
  match ev with
  | Result a c _ => record_result a (cause_action c) d
  | EmitEvent _ c _ _ => d <| emitted ::= ({[cause_action c]} ∪.) |>
  | Deadline _ => d
  end.
Lemma note_noted ev d : noted d (note ev d) [ev].
Proof. destruct ev; split; cbn; done || set_solver. Qed.
Lemma poll_entry_event log a evs (d : FleetDriver (G := G)) aid :
  poll_entry log a (evs, d) aid =
    match event_of log (watched_emits d) a aid with Some ev => (evs ++ [ev], note ev d) | None => (evs, d) end.
Proof.
  unfold poll_entry, event_of. destruct (read_emit log aid) as [env|]; [|done]. cbn.
  destruct (action_result env); [done|]. by case_decide.
Qed.
Lemma poll_entries log a ids evs (d : FleetDriver (G := G)) :
  ∃ d', foldl (poll_entry log a) (evs, d) ids = (evs ++ omap (event_of log (watched_emits d) a) ids, d')
    ∧ noted d d' (omap (event_of log (watched_emits d) a) ids) ∧ cursors d' = cursors d.
Proof.
  revert evs d. induction ids as [|aid ids IH]; intros evs d.
  { exists d. cbn. rewrite app_nil_r. split; [done|]. split; [apply noted_refl|done]. }
  cbn [foldl]. rewrite poll_entry_event. cbn [omap list_omap].
  destruct (event_of log (watched_emits d) a aid) as [ev|]; [|apply IH].
  destruct (IH (evs ++ [ev]) (note ev d)) as (d' & -> & Hn & Hc).
  assert (watched_emits (note ev d) = watched_emits d) as Hw by by destruct ev. rewrite Hw in *.
  exists d'. rewrite <-(assoc_L (++)). split; [done|]. split.
  - exact (noted_trans _ _ _ [ev] _ (note_noted ev d) Hn).
  - rewrite Hc. by destruct ev.
Qed.

Lemma poll_agents log agents evs (d : FleetDriver (G := G)) :
  NoDup agents →
  ∃ d', foldl (poll_agent log) (evs, d) agents
      = (evs ++ (a ← agents; omap (event_of log (watched_emits d) a) (unread log d a)), d')
    ∧ noted d d' (a ← agents; omap (event_of log (watched_emits d) a) (unread log d a))
    ∧ ∀ a, cursor_of a d' = if decide (a ∈ agents) then max (cursor_of a d) (length (agent_ids log a)) else cursor_of a d.
Proof.
  revert evs d. induction agents as [|a agents IH]; intros evs d Hnd.
  { exists d. cbn. rewrite app_nil_r. split; [done|]. split; [apply noted_refl|]. intros b. by rewrite decide_False by set_solver. }
  apply NoDup_cons in Hnd as [Ha Hnd]. cbn [foldl]. unfold poll_agent at 2.
  destruct (poll_entries log a (drop (cursor_of a d) (agent_ids log a)) evs d) as (d1 & E1 & Hn1 & Hc1).
  rewrite E1. set (d2 := d1 <| cursors ::= insert a (max (cursor_of a d) (length (agent_ids log a))) |>).
  destruct (IH (evs ++ omap (event_of log (watched_emits d) a) (unread log d a)) d2 Hnd) as (d' & E2 & Hn2 & Hc2).
  destruct Hn1 as [Hcf He Hp]. pose proof Hcf as (_ & Hw & _).
  assert (∀ b, b ≠ a → cursor_of b d2 = cursor_of b d) as Hcur.
  { intros b Hb. unfold cursor_of, d2. cbn. by rewrite lookup_insert_ne, Hc1. }
  assert ((b ← agents; omap (event_of log (watched_emits d2) b) (unread log d2 b))
    = (b ← agents; omap (event_of log (watched_emits d) b) (unread log d b))) as Hsame.
  { change (watched_emits d2) with (watched_emits d1). rewrite Hw. clear -Hcur Ha.
    induction agents as [|b agents IH]; [done|]. cbn. rewrite IH by set_solver.
    unfold unread. by rewrite Hcur by set_solver. }
  rewrite Hsame in E2, Hn2. exists d'. rewrite <-(assoc_L (++)) in E2. split; [exact E2|]. split.
  - apply (noted_trans d d2 d'); [by split|done].
  - intros b. rewrite Hc2. destruct (decide (b = a)) as [->|Hb].
    + rewrite decide_False, decide_True by set_solver. unfold cursor_of at 1, d2. cbn. by rewrite lookup_insert_eq.
    + rewrite Hcur by done. destruct (decide (b ∈ agents)); [by rewrite decide_True by set_solver|].
      by rewrite decide_False by set_solver.
Qed.

End poll.

Section poll_claim.
Context `{R : RocksDB, !RocksLaws R, H256 : Sha256, !Sha256Laws H256, BH : Bincode Store.SnapshotHeader,
          BE : Bincode Log.LogEntry, !BincodeLaws Log.LogEntry Log.entry_ok, MP : Msgpack Log.EmitEnvelope}.
Context {G : Type} `{!TaskRuntime G}.

Definition event_agent (ev : FleetEvent) : AgentId :=
  match ev with Result a _ _ | EmitEvent a _ _ _ | Deadline a => a end.
Lemma event_of_inv log w a aid ev :
  event_of log w a aid = Some ev → event_agent ev = a ∧ event_cause ev = Some aid ∧ is_Some (read_emit log aid).
Proof.
  unfold event_of. destruct (read_emit log aid) as [env|]; [|done]. cbn.
  destruct (action_result env); [by intros [= <-]|]. case_decide; [by intros [= <-]|done].
Qed.
Lemma agent_ids_hist log hist a aid :
  Log.represents log hist → length a = 16 → aid ∈ agent_ids log a →
  ∃ e, e ∈ hist ∧ Log.agent_id e = a ∧ Log.action_id e = aid.
Proof.
  intros Hr Ha. unfold agent_ids. destruct (Log.query_by_agent_range log a None None) as [ids|] eqn:Hq; cbn;
    [|by intros ?%not_elem_of_nil].
  destruct (Log.scan_entries log hist a 0 Hr Ha ltac:(done)) as (es & Hes & _ & Hs & Hin & _).
  assert (ids = Log.action_id <$> filter (Log.below None) es) as ->.
  { by eapply (Log.query_entries log hist a None None). }
  intros (e & -> & [_ He]%list_elem_of_filter)%list_elem_of_fmap. rewrite Forall_forall in Hin.
  destruct (Hin e He) as (? & ? & _). by exists e.
Qed.

(** C36: a poll is exact.  It reports, agent by agent and in the order of the
    index, exactly the readable results and watched events that follow the
    cursors, each caused by an action of this agent in the log; it records each
    of these causes and result producers, and nothing else, and moves the
    cursors to the end.  A cursor is a position: the next poll, on any log, reports
    of each agent exactly the events behind the number of actions already read.  So
    it reports exactly the new ones when the index of every agent extends what it
    was; but an action that the index puts before that position, one with an earlier
    date, shifts the actions behind it, so that an old one is reported again and
    the new one is never read. *)
Theorem poll_events_spec log (d : FleetDriver (G := G)) evs d' hist :
  NoDup (expected (ctx d)) → Forall (λ a, length a = 16) (expected (ctx d)) → Log.represents log hist →
  poll_events log d = (evs, d') →
  evs = reported log d ∧ noted d d' evs
  ∧ (∀ a, cursor_of a d' =
       if decide (a ∈ expected (ctx d)) then max (cursor_of a d) (length (agent_ids log a)) else cursor_of a d)
  ∧ (∀ ev, ev ∈ evs → event_agent ev ∈ expected (ctx d)
       ∧ ∃ e, e ∈ hist ∧ Log.agent_id e = event_agent ev ∧ event_cause ev = Some (Log.action_id e)
           ∧ is_Some (read_emit log (Log.action_id e)))
  ∧ (∀ log', (poll_events log' d').1 = (a ← expected (ctx d);
       omap (event_of log' (watched_emits d) a) (drop (max (cursor_of a d) (length (agent_ids log a))) (agent_ids log' a))))
  ∧ (∀ log' new, (∀ a, a ∈ expected (ctx d) → cursor_of a d ≤ length (agent_ids log a)
                     ∧ agent_ids log' a = agent_ids log a ++ new a) →
       (poll_events log' d').1 = (a ← expected (ctx d); omap (event_of log' (watched_emits d) a) (new a))).
Proof.
  intros Hnd Hl Hr E. unfold poll_events in E.
  destruct (poll_agents log (expected (ctx d)) [] d Hnd) as (d1 & E1 & Hn & Hc).
  rewrite E1 in E. injection E as <- <-. split; [done|]. split; [done|]. split; [done|]. split.
  - intros ev (a & Hev & Ha)%list_elem_of_bind. apply list_elem_of_omap in Hev as (aid & Hin & Hev).
    apply event_of_inv in Hev as (<- & Hca & Hrd). split; [done|].
    assert (aid ∈ agent_ids log (event_agent ev)) as Hin'.
    { rewrite <-(take_drop (cursor_of (event_agent ev) d) (agent_ids _ _)). apply elem_of_app. by right. }
    clear Hin; rename Hin' into Hin.
    destruct (agent_ids_hist _ _ _ _ Hr (proj1 (Forall_forall _ _) Hl _ Ha) Hin) as (e & ? & ? & <-). by exists e.
  - assert (∀ log', (poll_events log' d1).1 = (a ← expected (ctx d);
       omap (event_of log' (watched_emits d) a) (drop (max (cursor_of a d) (length (agent_ids log a))) (agent_ids log' a)))) as Hnext.
    { intros log'. unfold poll_events. pose proof (no_config _ _ _ Hn) as (_ & Hw & _ & _ & Hctx).
      rewrite Hctx. destruct (poll_agents log' (expected (ctx d)) [] d1 Hnd) as (d2 & -> & _). cbn. rewrite Hw.
      apply Forall_bind_ext, Forall_forall. intros a Ha. unfold unread. by rewrite Hc, decide_True. }
    split; [exact Hnext|]. intros log' new Hlog. rewrite Hnext. apply Forall_bind_ext, Forall_forall. intros a Ha.
    destruct (Hlog a Ha) as [Hcur ->]. by rewrite Nat.max_r, drop_app_length.
Qed.

End poll_claim.

(** ** The driver at work *)

Section invariants.
Context `{R : RocksDB, H256 : Sha256, BH : Bincode Store.SnapshotHeader,
          BE : Bincode Log.LogEntry, MP : Msgpack Log.EmitEnvelope}.
Context {G : Type} `{!TaskRuntime G} {RS : Type} `{!Router RS}.
Abbreviation fleet := (SM (FleetState (G := G) (RS := RS))).

(** What a poll adds to the driver: actions in the index of an expected agent that
    are results or watched events. *)
Definition reportable (log : db) (E : list AgentId) (W : gset Z) (c : ActionId) : Prop :=
  ∃ a, a ∈ E ∧ c ∈ agent_ids log a ∧ is_Some (event_of log W a c).
Definition read_only (log : db) (d d' : FleetDriver (G := G)) : Prop :=
  same_config d d' ∧ emitted d ⊆ emitted d'
  ∧ ∀ c, c ∈ emitted d' → c ∈ emitted d ∨ reportable log (expected (ctx d)) (watched_emits d) c.
Lemma poll_reads log d evs d' : poll_events log d = (evs, d') → read_only log d d'.
Proof.
  unfold poll_events. assert (expected (ctx d) ⊆ expected (ctx d)) as Hsub by done. revert Hsub. generalize (expected (ctx d)) at 1 3.
  intros agents Hsub.
  assert (∀ evs0 d0, read_only log d d0 → foldl (poll_agent log) (evs0, d0) agents = (evs, d') → read_only log d d') as Hgen.
  { induction agents as [|a agents IH]; intros evs0 d0 Hd0; [by intros [= _ <-]|]. cbn [foldl].
    unfold poll_agent at 2. destruct (poll_entries log a (drop (cursor_of a d0) (agent_ids log a)) evs0 d0) as (d1 & E1 & Hn & _).
    rewrite E1. apply IH; [set_solver|]. destruct Hd0 as [(?&Hw0&?&?&?) [Hs0 He0]], Hn as [(?&?&?&?&?) He1 _].
    split; [unfold same_config; cbn; split_and!; congruence|]. cbn. rewrite He1. split; [set_solver|].
    intros c [Hc|Hc]%elem_of_union; [by apply He0|]. right.
    apply elem_of_list_to_set, list_elem_of_omap in Hc as (ev & Hev & Hc).
    apply list_elem_of_omap in Hev as (aid & Hin & Hev). exists a. split; [apply Hsub; by left|].
    assert (c = aid) as ->.
    { unfold event_of in Hev. destruct (read_emit log aid) as [env|]; [|done]. cbn in Hev.
      destruct (action_result env); [|case_decide; [|done]]; injection Hev as <-; by injection Hc as <-. }
    split; [|rewrite <-Hw0, Hev; by eexists]. rewrite <-(take_drop (cursor_of a d0) (agent_ids log a)). apply elem_of_app. by right. }
  apply Hgen. split; [done|]. split; [done|by left].
Qed.

Definition holds {A} (I : FleetState → Prop) (m : fleet A) : Prop := ∀ f, I f → wp m (λ _ f', I f') f.
Lemma holds_ret {A} I (x : A) : holds I (mret x).
Proof. intros f Hf. by apply wp_ret. Qed.
Lemma holds_bind {A B} I (m : fleet A) (k : A → fleet B) : holds I m → (∀ a, holds I (k a)) → holds I (m ≫= k).
Proof. intros Hm Hk f Hf. apply wp_bind. eapply wp_mono; [by apply Hm|]. intros a f' Hf'. by apply Hk. Qed.
Lemma holds_gets {A} I (g : FleetState → A) : holds I (gets g).
Proof. intros f Hf. by apply wp_gets. Qed.

Section run.
Context (I : FleetState (G := G) (RS := RS) → Prop) (tick : SM rt ()).
Context (Hinstant : holds I (on_sched Sched.instant)) (Htick : holds I (on_sched (on_rt tick))).
Context (Hpoll : ∀ f evs d, I f → poll_events (fleet_log f) (driver f) = (evs, d) → I (f <| driver := d |>)).
Context (Hrouter : ∀ f r, I f → I (f <| router := r |>)).
Context (Hexec : ∀ route, route ≠ Done → holds I (execute route)).

Lemma route_all_holds routes : holds I (route_all routes).
Proof.
  induction routes as [|r routes IH]; cbn; [apply holds_ret|].
  case_decide; [apply holds_ret|]. apply holds_bind; [by apply Hexec|done].
Qed.
Lemma handle_event_holds ev : holds I (handle_event ev).
Proof.
  intros f Hf. unfold handle_event. apply wp_bind, wp_gets. destruct (on_event _ _ _) as [routes r].
  apply wp_bind, wp_modify. by apply route_all_holds, Hrouter.
Qed.
Lemma handle_events_holds evs : holds I (handle_events evs).
Proof.
  induction evs as [|ev evs IH]; cbn; [apply holds_ret|].
  apply holds_bind; [apply handle_event_holds|]. intros []; [apply holds_ret|done].
Qed.
Lemma fire_deadlines_holds agents : holds I (fire_deadlines agents).
Proof.
  induction agents as [|a agents IH]; cbn; [apply holds_ret|].
  apply holds_bind; [apply holds_gets|]. intros d. case_decide; [done|].
  apply holds_bind; [apply handle_event_holds|]. intros []; [apply holds_ret|done].
Qed.
Lemma run_turn_holds cs hs fired : holds I (run_turn tick cs hs fired).
Proof.
  intros f Hf. unfold run_turn. apply wp_bind, wp_gets. destruct (poll_events _ _) as [evs d] eqn:E.
  apply wp_bind, wp_modify. assert (I (f <| driver := d |>)) as Hf1 by by eapply Hpoll.
  change (f <| driver ::= λ _, d |>) with (f <| driver := d |>).
  revert Hf1. generalize (f <| driver := d |>). clear f Hf E.
  change (holds I (finished ← handle_events evs;
    if finished : bool then mret (Some true, fired) else
    fire ← (if fired then mret false else now ← on_sched Sched.instant; mret (cs <=? now)%Z);
    finished ← (if fire : bool then d ← gets driver; fire_deadlines (expected (ctx d)) else mret false);
    if finished : bool then mret (Some true, true) else
      now ← on_sched Sched.instant;
      if (hs <=? now)%Z then mret (Some false, fired || fire)
      else on_sched (on_rt tick);; mret (None, fired || fire))).
  apply holds_bind; [apply handle_events_holds|]. intros []; [apply holds_ret|].
  apply holds_bind; [destruct fired; [apply holds_ret|]; apply holds_bind; [done|intros; apply holds_ret]|].
  intros fire. apply holds_bind.
  { destruct fire; [|apply holds_ret]. apply holds_bind; [apply holds_gets|]. intros d'. apply fire_deadlines_holds. }
  intros []; [apply holds_ret|]. apply holds_bind; [done|]. intros now. destruct (hs <=? now)%Z; [apply holds_ret|].
  apply holds_bind; [done|]. intros []. apply holds_ret.
Qed.
Lemma run_turns_holds fuel cs hs fired : holds I (run_turns fuel tick cs hs fired).
Proof.
  revert fired. induction fuel as [|fuel IH]; intros fired; cbn; [apply holds_ret|].
  apply holds_bind; [apply run_turn_holds|]. intros [[b|] fired']; [apply holds_ret|apply IH].
Qed.
Lemma run_holds fuel deadline : holds I (run fuel tick deadline).
Proof. apply holds_bind; [done|]. intros now. apply run_turns_holds. Qed.

End run.
End invariants.

Section confined.
Context `{R : RocksDB, H256 : Sha256, BH : Bincode Store.SnapshotHeader,
          BE : Bincode Log.LogEntry, MP : Msgpack Log.EmitEnvelope}.
Context {G : Type} `{!TaskRuntime G} {RS : Type} `{!Router RS}.

Lemma send_cases to m s x s' :
  Sched.send to m s = Some (x, s') →
  s' = s ∨ ∃ tx y rs, senders (registry s) !! to = Some tx ∧ chan_send tx m (runtime s) = Some (y, rs)
    ∧ s' = s <| runtime := rs |>.
Proof.
  unfold Sched.send. intros Hm. apply bind_inv in Hm as (r & s1 & [-> ->]%gets_inv & Hm).
  destruct (senders (registry s) !! to) as [tx|] eqn:Et; [|apply ret_inv in Hm as [-> ->]; by left].
  apply bind_inv in Hm as (y & s2 & E & [-> ->]%ret_inv). unfold on_rt in E.
  destruct (chan_send tx m (runtime s)) as [[z rs]|] eqn:Es; [|done]. injection E as -> <-. right. by exists tx, y, rs.
Qed.
Lemma on_sched_inv {A} (m : SM System A) (f : FleetState (G := G) (RS := RS)) a f' :
  on_sched m f = Some (a, f') → ∃ s, m (sched f) = Some (a, s) ∧ f' = f <| sched := s |>.
Proof. unfold on_sched. destruct (m (sched f)) as [[b s]|]; [|done]. cbn. intros [= <- <-]. by exists s. Qed.

(** The rules of the runtime for a fleet of tenant [t] in the directory [reg], which
    expects the agents [E] and watches the emissions [W].  [P rs K] relates the
    runtime and the causes [K] the driver accepts: it survives the clock, the sleeps,
    a result or a watched event of an expected agent added to [K], and the messages
    the fleet may send, to an active agent of its tenant and, if they name a cause,
    with one of [K]. *)
Record fleet_rules (t : TenantId) (reg : Registry) (E : list AgentId) (W : gset Z) (P : rt → gset ActionId → Prop) (tick : SM rt ()) : Prop := {
  fr_clock rs K k : P rs K → P (rt_set (rt_world rs <| clocks := k |>) rs) K;
  fr_tick rs K rs' : P rs K → tick rs = Some ((), rs') → P rs' K;
  fr_read rs K c : P rs K → reportable (causal_log (rt_world rs)) E W c → P rs ({[c]} ∪ K);
  fr_send rs K a tx m x rs' : P rs K → Sched.tenant_of a reg = Some t → senders reg !! a = Some tx →
    (∃ p, m = data p ∨ ∃ c, c ∈ K ∧ m = caused p c) → chan_send tx m rs = Some (x, rs') → P rs' K }.

Definition confined t reg E W P (f : FleetState (G := G) (RS := RS)) : Prop :=
  P (runtime (sched f)) (emitted (driver f)) ∧ registry (sched f) = reg
  ∧ fleet_tenant (driver f) = t ∧ factory (driver f) = None ∧ expected (ctx (driver f)) = E ∧ watched_emits (driver f) = W.
Lemma rules_read t reg E W P tick rs K K' : fleet_rules t reg E W P tick → P rs K → K ⊆ K' →
  (∀ c, c ∈ K' → c ∈ K ∨ reportable (causal_log (rt_world rs)) E W c) → P rs K'.
Proof.
  intros Hru HP Hs HK. rewrite (union_difference_L K K') by done. rewrite (comm_L (∪)).
  assert (∀ c, c ∈ K' ∖ K → reportable (causal_log (rt_world rs)) E W c) as Hr by (intros c [Hc Hn]%elem_of_difference; by destruct (HK c Hc)).
  revert Hr. generalize (K' ∖ K). intros X. induction X as [|c X _ IH] using set_ind_L; intros Hr; [by rewrite (left_id_L ∅ (∪))|].
  rewrite <-(assoc_L (∪)). apply (fr_read _ _ _ _ _ _ Hru); [apply IH; set_solver|apply Hr; set_solver].
Qed.

Lemma send_confined t reg E W P tick to m x (f f' : FleetState (G := G) (RS := RS)) :
  fleet_rules t reg E W P tick → confined t reg E W P f → tenant_ok (driver f) (sched f) to = true →
  (∃ p, m = data p ∨ ∃ c, c ∈ emitted (driver f) ∧ m = caused p c) → on_sched (Sched.send to m) f = Some (x, f') →
  confined t reg E W P f'.
Proof.
  intros Hru (HP & <- & <- & Hf) Hok%bool_decide_eq_true Hm (s & Hs & ->)%on_sched_inv.
  apply send_cases in Hs as [->|(tx & y & rs & Htx & Hc & ->)]; [by unfold confined|]. split; [|done].
  exact (fr_send _ _ _ _ _ _ Hru _ _ _ _ _ _ _ HP Hok Htx Hm Hc).
Qed.
Lemma execute_confined t reg E W P tick route :
  fleet_rules t reg E W P tick → holds (confined t reg E W P) (execute route).
Proof.
  intros Hru f Hcf z f' Hx. unfold execute in Hx.
  apply bind_inv in Hx as (d & f1 & [-> ->]%gets_inv & Hx). apply bind_inv in Hx as (s & f1 & [-> ->]%gets_inv & Hx).
  destruct route as [to p|to p c|a|ti child p c|]; [| |by apply ret_inv in Hx as [-> ->]| |by apply ret_inv in Hx as [-> ->]].
  - destruct (tenant_ok _ _ _) eqn:Hok; cbn [negb] in Hx; [|by apply ret_inv in Hx as [-> ->]].
    apply bind_inv in Hx as (x & f1 & Es & [-> ->]%ret_inv). eapply (send_confined _ _ _ _ _ _ to (data p)); eauto.
  - destruct (tenant_ok _ _ _) eqn:Hok; cbn [negb] in Hx; [|by apply ret_inv in Hx as [-> ->]].
    case_decide as Hc; [by apply ret_inv in Hx as [-> ->]|].
    apply bind_inv in Hx as (x & f1 & Es & [-> ->]%ret_inv).
    eapply (send_confined _ _ _ _ _ _ to (caused p (cause_action c))); eauto 10.
  - pose proof Hcf as (_ & _ & _ & Hf & _). rewrite Hf in Hx. case_decide; by apply ret_inv in Hx as [-> ->].
Qed.
Lemma run_confined t reg E W P tick fuel deadline :
  fleet_rules t reg E W P tick → holds (confined t reg E W P) (run fuel tick deadline).
Proof.
  intros Hru. apply run_holds.
  - intros f (HP & ?) z f' (s & Hi & ->)%on_sched_inv. unfold Sched.instant in Hi.
    apply in_world_inv in Hi as (w & Hw & ->). destruct (since_epoch _) as [u k]. injection Hw as _ <-.
    split; [|done]. exact (fr_clock _ _ _ _ _ _ Hru _ _ _ HP).
  - intros f (HP & ?) z f' (s & Hi & ->)%on_sched_inv. unfold on_rt in Hi.
    destruct (tick (runtime (sched f))) as [[[] rs]|] eqn:Et; [|done]. injection Hi as _ <-.
    split; [|done]. exact (fr_tick _ _ _ _ _ _ Hru _ _ _ HP Et).
  - intros f evs d (HP & ? & Ht & Hf & HE & HW) [(Ht' & Hw' & Hf' & _ & Hc') [Hs He]]%poll_reads.
    rewrite HE, HW in He. split; [|split_and!; cbn; congruence]. cbn. by eapply rules_read.
  - by intros f r Hf.
  - intros route _. by apply (execute_confined _ _ _ _ _ tick).
Qed.

(** C34: a fleet without a factory is confined, whatever its router answers.  Take any
    relation between the runtime and the set of causes the driver accepts that
    survives the clock, the sleeps, one more cause that is a result or a watched event
    of an expected agent in the log, and the messages to active agents of the
    driver's own tenant whose cause, if they have one, the driver accepts at that
    moment.  It survives the whole run, and the directory does not change.  So all the
    fleet does is to read such causes and to send such messages. *)
Theorem fleet_confined t reg E W P tick fuel deadline (f : FleetState (G := G) (RS := RS)) b f' :
  fleet_rules t reg E W P tick →
  registry (sched f) = reg → fleet_tenant (driver f) = t → factory (driver f) = None →
  expected (ctx (driver f)) = E → watched_emits (driver f) = W →
  P (runtime (sched f)) (emitted (driver f)) →
  run fuel tick deadline f = Some (b, f') →
  P (runtime (sched f')) (emitted (driver f')) ∧ registry (sched f') = reg.
Proof.
  intros Hru Hreg Ht Hf HE HW HP Hrun.
  assert (confined t reg E W P f) as Hc by by unfold confined.
  destruct (run_confined t reg E W P tick fuel deadline Hru f Hc b f' Hrun) as (? & ? & _). done.
Qed.

End confined.

(** ** Spawned members *)

Section spawned.
Context `{R : RocksDB, H256 : Sha256, BH : Bincode Store.SnapshotHeader,
          BE : Bincode Log.LogEntry, MP : Msgpack Log.EmitEnvelope}.
Context {G : Type} `{!TaskRuntime G} {RS : Type} `{!Router RS}.

(** How a spawn ends: the refusals, in the order of their tests, change nothing. *)
Definition member_outcome (fac : MemberFactory (G := G)) (ti : nat) (child : AgentId) (p : bytes) (c : CauseRef)
    (f f' : FleetState (G := G) (RS := RS)) (r : result FleetError ()) : Prop :=
  let d := driver f in
  let known := cause_action c ∈ emitted d in
  let room := size (members d) < capacity fac in
  match r with
  | Err UnknownCause => ¬ known ∧ f' = f
  | Err SpawnRefused => known ∧ ¬ room ∧ f' = f
  | Err UnknownTemplate => known ∧ room ∧ materialize fac ti child (fleet_tenant d) = None ∧ f' = f
  | Err (FleetRouting (FactoryError _)) => known ∧ room ∧ driver f' = d ∧ registry (sched f') = registry (sched f)
  | Err CrossTenantRefused | Err SpawnUnsupported => False
  | Err (FleetRouting (SendError _)) | Ok _ =>
      known ∧ room ∧ ∃ i tx w w' fut,
        materialize fac ti child (fleet_tenant d) = Some fut ∧ fut w = Some (Ok i, w')
        ∧ driver f' = d <| members ::= insert child tx |>
        ∧ senders (registry (sched f')) !! id (inst_state i) = Some tx
        ∧ (is_ok r = true → ∃ tx' rs, senders (registry (sched f')) !! child = Some tx'
             ∧ chan_send tx' (caused p (cause_action c)) rs = Some (Ok (), runtime (sched f')))
  end.

Lemma spawn_run fac ti child p c f r f' :
  factory (driver f) = Some fac → execute (Spawn ti child p c) f = Some (r, f') →
  member_outcome fac ti child p c f f' r.
Proof.
  intros Hf Hx. unfold execute in Hx.
  apply bind_inv in Hx as (d & f1 & [-> ->]%gets_inv & Hx). apply bind_inv in Hx as (s & f1 & [-> ->]%gets_inv & Hx).
  case_decide as Hk; [by apply ret_inv in Hx as [-> ->]|]. rewrite Hf in Hx.
  case_decide as Hroom. { apply ret_inv in Hx as [-> ->]. split_and!; [done|lia|done]. }
  destruct (materialize _ _ _ _) as [fut|] eqn:Hm. 2: { apply ret_inv in Hx as [-> ->]. split_and!; [done|lia|done..]. }
  apply bind_inv in Hx as (i & f1 & (s1 & E1 & ->)%on_sched_inv & Hx).
  apply in_world_inv in E1 as (w & E1 & ->). destruct i as [i|e].
  2: { apply ret_inv in Hx as [-> ->]. split_and!; [done|lia|done..]. }
  apply bind_inv in Hx as (tx & f1 & (s2 & E2 & ->)%on_sched_inv & Hx).
  apply register_run in E2 as (h & rs & _ & _ & ->).
  apply bind_inv in Hx as ([] & f1 & E3 & Hx). injection E3 as <-.
  apply bind_inv in Hx as (x & f1 & (s3 & E4 & ->)%on_sched_inv & [-> ->]%ret_inv).
  unfold send_caused_by in E4. apply send_result in E4 as [Hreg Hsent].
  assert (member_outcome fac ti child p c f
    (f <| driver := driver f <| members ::= insert child tx |> |> <| sched := s3 |>) (routed x)) as Ho; [|exact Ho].
  unfold member_outcome. destruct x as [[]|e]; cbn [routed map_err is_ok];
    (split; [done|]); (split; [lia|]); exists i, tx, (rt_world (runtime (sched f))), w, fut;
    split_and!; try done; cbn; rewrite Hreg; cbn; apply lookup_insert_eq.
Qed.

Definition members_within (fac : MemberFactory (G := G)) (f : FleetState (G := G) (RS := RS)) : Prop :=
  factory (driver f) = Some fac ∧ size (members (driver f)) ≤ capacity fac.
Lemma same_driver_holds {A} (m : SM System A) fac : holds (RS := RS) (members_within fac) (on_sched m).
Proof. by intros f Hf a f' (s & _ & ->)%on_sched_inv. Qed.
Lemma execute_within fac route : holds (RS := RS) (members_within fac) (execute route).
Proof.
  intros f [Hf Hs] r f' Hx. destruct route as [to p|to p c|a|ti child p c|].
  1,2,3,5: unfold execute in Hx;
    apply bind_inv in Hx as (d & f1 & [-> ->]%gets_inv & Hx); apply bind_inv in Hx as (s & f1 & [-> ->]%gets_inv & Hx);
    repeat first [destruct (negb _) in Hx|case_decide]; try (by apply ret_inv in Hx as [-> ->]);
    by apply bind_inv in Hx as (x & f1 & (s & _ & ->)%on_sched_inv & [-> ->]%ret_inv).
  apply (spawn_run fac) in Hx; [|done]. unfold member_outcome in Hx.
  assert (∀ tx : nat, driver f' = driver f <| members ::= insert child tx |> → size (members (driver f)) < capacity fac →
    members_within fac f') as Hins.
  { intros tx Hd Hlt. unfold members_within. rewrite Hd. cbn. split; [done|].
    destruct (members (driver f) !! child) as [tx'|] eqn:Em; [by rewrite map_size_insert_Some|].
    rewrite map_size_insert_None by done. lia. }
  destruct r as [[]|[| | | | |[e|e]]]; try (by destruct_and?; subst); [| |].
  1,2: destruct Hx as (_ & Hr & i & tx & w & w' & fut & _ & _ & Hd & _); by eapply Hins.
  destruct Hx as (_ & _ & Hd & _). unfold members_within. by rewrite Hd.
Qed.

(** The members of a fleet are bounded by the capacity of its factory: a
    run never exceeds it.  And a spawn happens only for a cause that the driver
    has read, below the capacity and within the inventory; each refusal changes
    nothing; the member that is spawned is the factory's, is registered, and its
    channel is kept. *)
Theorem fleet_members_bounded fac tick fuel deadline (f : FleetState (G := G) (RS := RS)) b f' :
  factory (driver f) = Some fac → size (members (driver f)) ≤ capacity fac →
  run fuel tick deadline f = Some (b, f') →
  size (members (driver f')) ≤ capacity fac
  ∧ ∀ ti child p c (g g' : FleetState (G := G) (RS := RS)) r,
      factory (driver g) = Some fac → execute (Spawn ti child p c) g = Some (r, g') →
      member_outcome fac ti child p c g g' r.
Proof.
  intros Hf Hs Hrun. split; [|intros; by eapply spawn_run].
  assert (holds (members_within fac) (run (RS := RS) fuel tick deadline)) as Hh.
  { apply run_holds; try apply same_driver_holds; [|by intros ? ? ?|intros; apply execute_within].
    intros g evs d [Hgf Hgs] [(_ & _ & Hf' & Hm & _) _]%poll_reads. unfold members_within. cbn. by rewrite Hf', Hm. }
  exact (proj2 (Hh f (conj Hf Hs) b f' Hrun)).
Qed.

End spawned.

(** ** Collecting routers *)

(** The routes of a sequence of events. *)
Definition router_step {S} `{!Router S} (cx : Ctx) (acc : list Route * S) (ev : FleetEvent) : list Route * S :=
  let '(out, s) := acc in let '(routes, s) := on_event ev cx s in (out ++ routes, s).
Definition router_run {S} `{!Router S} (cx : Ctx) (evs : list FleetEvent) (s : S) : list Route * S :=
  foldl (router_step cx) ([], s) evs.

(** The abstract collector: it forwards the first result of each agent other
    than its sink, closes once, when it is ready or at a deadline, if it has
    heard anybody, and is done at a result of the sink. *)
Record Collector := mkCollector {
  sink : AgentId;
  closing : Route;
  forward : AgentId → CauseRef → bytes → Route;
  ready : gset AgentId → bool }.
Definition collector_close (c : Collector) (heard : gset AgentId) (closed : bool) : list Route * bool :=
  if negb closed && negb (bool_decide (heard = ∅)) then ([closing c], true) else ([], closed).
#[global] Instance collector_router (c : Collector) : Router (gset AgentId * bool) := λ ev _ '(heard, closed),
  match ev with
  | Deadline _ => let '(routes, closed) := collector_close c heard closed in (routes, (heard, closed))
  | EmitEvent _ _ _ _ => ([], (heard, closed))
  | Result a cause text =>
      if decide (a = sink c) then ([Done], (heard, closed))
      else
        let fwd := if decide (a ∈ heard) then [] else [forward c a cause text] in
        let heard := {[a]} ∪ heard in
        if ready c heard then
          let '(routes, closed) := collector_close c heard closed in (fwd ++ routes, (heard, closed))
        else (fwd, (heard, closed))
  end.

(** Who has reported, and the first report of each, in order. *)
Definition report_of (c : Collector) (ev : FleetEvent) : option (AgentId * CauseRef * bytes) :=
  match ev with Result a cause text => if decide (a = sink c) then None else Some (a, cause, text) | _ => None end.
Definition reporters (c : Collector) (evs : list FleetEvent) : gset AgentId :=
  list_to_set ((λ r, r.1.1) <$> omap (report_of c) evs).
Fixpoint first_reports (heard : gset AgentId) (reports : list (AgentId * CauseRef * bytes)) : list (AgentId * CauseRef * bytes) :=
  match reports with
  | [] => []
  | r :: reports =>
      (if decide (r.1.1 ∈ heard) then [] else [r]) ++ first_reports ({[r.1.1]} ∪ heard) reports
  end.
(** The event [ev], after [pre], makes the collector close if it has not. *)
Definition triggers (c : Collector) (pre : list FleetEvent) (ev : FleetEvent) : Prop :=
  reporters c (pre ++ [ev]) ≠ ∅
  ∧ ((∃ a, ev = Deadline a) ∨ is_Some (report_of c ev) ∧ ready c (reporters c (pre ++ [ev])) = true).
(** The contract: what is forwarded, when it closes, and when it is done. *)
Record collects (c : Collector) (evs : list FleetEvent) (routes : list Route) (closed : bool) : Prop := {
  co_forward : filter (λ r, r ≠ Done ∧ r ≠ closing c) routes
    = (λ '(a, cause, text), forward c a cause text) <$> first_reports ∅ (omap (report_of c) evs);
  co_closing : length (filter (closing c =.) routes) = if closed then 1 else 0;
  co_closed : closed = true ↔ ∃ pre ev post, evs = pre ++ ev :: post ∧ triggers c pre ev;
  co_done : Done ∈ routes ↔ ∃ cause text, Result (sink c) cause text ∈ evs }.
(** The closing route is not a forwarded one. *)
Definition distinct (c : Collector) : Prop :=
  closing c ≠ Done ∧ ∀ a cause text, forward c a cause text ≠ closing c ∧ forward c a cause text ≠ Done.

Lemma first_reports_app heard l1 l2 :
  first_reports heard (l1 ++ l2) = first_reports heard l1 ++ first_reports (list_to_set ((λ r, r.1.1) <$> l1) ∪ heard) l2.
Proof.
  revert heard. induction l1 as [|r l1 IH]; intros heard; cbn.
  { f_equal. set_solver. }
  rewrite IH, <-(assoc_L (++)). do 3 f_equal. set_solver.
Qed.
Lemma reporters_snoc c evs ev :
  reporters c (evs ++ [ev]) = reporters c evs ∪ (if report_of c ev is Some r then {[r.1.1]} else ∅).
Proof.
  unfold reporters. rewrite omap_app, fmap_app, list_to_set_app_L. f_equal. cbn.
  destruct (report_of c ev); cbn; set_solver.
Qed.
Lemma triggered_snoc c evs ev :
  (∃ pre ev' post, evs ++ [ev] = pre ++ ev' :: post ∧ triggers c pre ev')
  ↔ (∃ pre ev' post, evs = pre ++ ev' :: post ∧ triggers c pre ev') ∨ triggers c evs ev.
Proof.
  split.
  - intros (pre & ev' & post & E & Ht). destruct post as [|x post _] using rev_ind.
    + apply app_inj_tail in E as [<- <-]. by right.
    + rewrite app_comm_cons, (assoc_L (++)) in E. apply app_inj_tail in E as [-> <-]. left. by exists pre, ev', post.
  - intros [(pre & ev' & post & -> & Ht)|Ht].
    + exists pre, ev', (post ++ [ev]). by rewrite <-(assoc_L (++)).
    + by exists evs, ev, [].
Qed.

(** What one event adds. *)
Record collected (c : Collector) (heard : gset AgentId) (closed : bool) (ev : FleetEvent)
    (more : list Route) (heard' : gset AgentId) (closed' : bool) : Prop := {
  cd_heard : heard' = heard ∪ (if report_of c ev is Some r then {[r.1.1]} else ∅);
  cd_forward : filter (λ r, r ≠ Done ∧ r ≠ closing c) more
    = (λ '(a, cause, text), forward c a cause text) <$> first_reports heard (omap (report_of c) [ev]);
  cd_closing : length (filter (closing c =.) more) + (if closed then 1 else 0) = if closed' then 1 else 0;
  cd_closed : closed' = true ↔ closed = true ∨
    (heard' ≠ ∅ ∧ ((∃ a, ev = Deadline a) ∨ is_Some (report_of c ev) ∧ ready c heard' = true));
  cd_done : Done ∈ more ↔ ∃ cause text, ev = Result (sink c) cause text }.

Lemma close_spec c heard closed routes closed' :
  distinct c → collector_close c heard closed = (routes, closed') →
  filter (λ r, r ≠ Done ∧ r ≠ closing c) routes = []
  ∧ length (filter (closing c =.) routes) + (if closed then 1 else 0) = (if closed' then 1 else 0)
  ∧ (closed' = true ↔ closed = true ∨ heard ≠ ∅) ∧ Done ∉ routes.
Proof.
  intros [Hd _]. unfold collector_close. destruct closed; cbn.
  { intros [= <- <-]. split_and!; [done|done|naive_solver|set_solver]. }
  case_bool_decide; cbn; intros [= <- <-].
  - split_and!; [done|done|naive_solver|set_solver].
  - rewrite !filter_cons, decide_False, decide_True by naive_solver. split_and!; [done|done|naive_solver|set_solver].
Qed.
Lemma forward_spec c heard a cause text :
  distinct c →
  let fwd := if decide (a ∈ heard) then [] else [forward c a cause text] in
  filter (λ r, r ≠ Done ∧ r ≠ closing c) fwd
    = (λ '(a, cause, text), forward c a cause text) <$> first_reports heard [(a, cause, text)]
  ∧ filter (closing c =.) fwd = [] ∧ Done ∉ fwd.
Proof.
  intros [_ Hf] fwd. destruct (Hf a cause text) as [H1 H2]. unfold fwd.
  assert (first_reports heard [(a, cause, text)] = if decide (a ∈ heard) then [] else [(a, cause, text)]) as ->
    by (cbn; by case_decide).
  case_decide; [split_and!; [done|done|apply not_elem_of_nil]|].
  rewrite !filter_cons, decide_True, decide_False by naive_solver.
  split_and!; [done|done|intros E%list_elem_of_singleton; by rewrite E in H2].
Qed.
Lemma collector_step c cx ev heard closed more heard' closed' :
  distinct c → on_event (Router := collector_router c) ev cx (heard, closed) = (more, (heard', closed')) →
  collected c heard closed ev more heard' closed'.
Proof.
  intros Hc. unfold on_event, collector_router. destruct ev as [a cause text|a|a cause et p].
  - case_decide as Ha.
    { intros [= <- <- <-].
      assert (report_of c (Result a cause text) = None) as Hr by (cbn; by rewrite decide_True).
      split; cbn [omap list_omap]; rewrite ?Hr.
      - set_solver.
      - rewrite filter_cons, decide_False by naive_solver. done.
      - destruct Hc as [Hc _]. by rewrite filter_cons, decide_False by done.
      - split; [by left|]. by intros [?|(_ & [[? [=]]|[[? [=]] _]])].
      - split; [intros _; subst; eauto|intros _; by left]. }
    destruct (forward_spec c heard a cause text Hc) as (Hf1 & Hf2 & Hf3).
    set (fwd := if decide (a ∈ heard) then [] else [forward c a cause text]) in *.
    assert (Hr : report_of c (Result a cause text) = Some (a, cause, text)) by (cbn; by rewrite decide_False).
    assert (Hnd : Done ∈ fwd ↔ ∃ cause' text', Result a cause text = Result (sink c) cause' text') by (split; naive_solver).
    destruct (ready c _) eqn:Ere.
    + destruct (collector_close c _ closed) as [routes cl] eqn:Ecl. intros [= <- <- <-].
      apply close_spec in Ecl as (Hc1 & Hc2 & Hc3 & Hc4); [|done]. split; rewrite ?Hr; cbn [omap list_omap].
      * set_solver.
      * rewrite filter_app, Hc1, app_nil_r, Hr. done.
      * by rewrite filter_app, Hf2.
      * rewrite Hc3. assert ({[a]} ∪ heard ≠ ∅) by set_solver. naive_solver.
      * rewrite elem_of_app, Hnd. naive_solver.
    + intros [= <- <- <-]. split; rewrite ?Hr; cbn [omap list_omap].
      * set_solver.
      * by rewrite Hf1, Hr.
      * by rewrite Hf2.
      * split; [by left|]. intros [?|(_ & [[? [=]]|[_ ?]])]; congruence.
      * done.
  - destruct (collector_close c heard closed) as [routes cl] eqn:Ecl. intros [= <- <- <-].
    apply close_spec in Ecl as (Hc1 & Hc2 & Hc3 & Hc4); [|done]. split; cbn; [set_solver|done|done| |naive_solver].
    rewrite Hc3. naive_solver.
  - intros [= <- <- <-]. split; cbn; [set_solver|done|done| |].
    + naive_solver.
    + split; [by intros ?%not_elem_of_nil|naive_solver].
Qed.

Lemma collector_contract c cx evs routes heard closed :
  distinct c → router_run (Router0 := collector_router c) cx evs (∅, false) = (routes, (heard, closed)) →
  heard = reporters c evs ∧ collects c evs routes closed.
Proof.
  intros Hc. revert routes heard closed. induction evs as [|ev evs IH] using rev_ind; intros routes heard closed.
  { intros [= <- <- <-]. split; [done|]. split; cbn; [done|done| |].
    - split; [done|]. intros (pre & ev & post & E & _). by destruct pre.
    - split; [by intros ?%not_elem_of_nil|]. by intros (? & ? & ?%not_elem_of_nil). }
  unfold router_run. rewrite foldl_app. cbn [foldl].
  destruct (foldl _ _ evs) as [out [h cl]] eqn:E. destruct (IH _ _ _ E) as [-> [H1 H2 H3 H4]].
  unfold router_step. destruct (on_event (Router := collector_router c) ev cx _) as [more [h' cl']] eqn:Es.
  intros [= <- <- <-]. apply collector_step in Es as [S1 S2 S3 S4 S5]; [|done].
  rewrite <-reporters_snoc in S1. split; [done|]. split.
  - rewrite filter_app, H1, S2, omap_app, first_reports_app, fmap_app, (right_id_L ∅ (∪)). done.
  - rewrite filter_app, length_app, H2. lia.
  - rewrite triggered_snoc, <-H3, S4. unfold triggers. by rewrite <-S1.
  - rewrite elem_of_app, H4, S5. split.
    + intros [(ca & te & Hin)|(ca & te & ->)]; exists ca, te; set_solver.
    + intros (ca & te & [?|<-%list_elem_of_singleton]%elem_of_app); eauto.
Qed.

(** A router that follows another produces the same routes. *)
Lemma router_run_sim {S T} (RS : Router S) (RT : Router T) (rel : S → T → Prop) cx :
  (∀ ev s t routes s', rel s t → on_event ev cx s = (routes, s') →
     ∃ t', on_event ev cx t = (routes, t') ∧ rel s' t') →
  ∀ evs s t routes s', rel s t → router_run cx evs s = (routes, s') →
  ∃ t', router_run cx evs t = (routes, t') ∧ rel s' t'.
Proof.
  intros Hstep evs. induction evs as [|ev evs IH] using rev_ind; intros s t routes s' Hr.
  { intros [= <- <-]. by exists t. }
  unfold router_run. rewrite !foldl_app. cbn [foldl]. destruct (foldl _ ([], s) evs) as [out s1] eqn:E.
  destruct (IH s t out s1 Hr E) as (t1 & E1 & Hr1). unfold router_run in E1. rewrite E1. unfold router_step.
  destruct (on_event ev cx s1) as [more s2] eqn:Es. intros [= <- <-].
  destruct (Hstep ev s1 t1 more s2 Hr1 Es) as (t2 & -> & Hr2). by exists t2.
Qed.

Definition fan_in_collector (cx : Ctx) (agg : AgentId) (fc : CauseRef) (lb : gmap AgentId bytes) : Collector := {|
  sink := agg;
  closing := SendCaused agg (str "FINALIZE") fc;
  forward a cause text := SendCaused agg (report_payload (fan_in_new agg fc lb) a text) cause;
  ready heard := forallb (λ a, bool_decide (a ∈ heard)) (filter (λ a, a ≠ agg) (expected cx)) |}.
Definition fan_in_rel (agg : AgentId) (fc : CauseRef) (lb : gmap AgentId bytes) (r : FanInRouter) (t : gset AgentId * bool) : Prop :=
  r = mkFanIn agg fc lb t.1 t.2.
Lemma fan_in_simulates cx agg fc lb ev r t routes r' :
  fan_in_rel agg fc lb r t → on_event ev cx r = (routes, r') →
  ∃ t', on_event (Router := collector_router (fan_in_collector cx agg fc lb)) ev cx t = (routes, t')
    ∧ fan_in_rel agg fc lb r' t'.
Proof.
  unfold fan_in_rel. destruct t as [h cl]. cbn [fst snd]. intros ->.
  unfold on_event, fan_in_router, collector_router, all_in, finalize, collector_close. destruct ev as [a cause text|a|]; cbn.
  - case_decide; [intros [= <- <-]; by eexists|].
    destruct (decide (a ∈ h)) as [Ha|Ha]; cbn; [rewrite (subseteq_union_1_L {[a]} h) by set_solver|].
    all: destruct (forallb _ _); [|intros [= <- <-]; by eexists].
    all: destruct (_ && _); intros [= <- <-]; by eexists.
  - destruct (_ && _); intros [= <- <-]; by eexists.
  - intros [= <- <-]. by eexists.
Qed.
Lemma fan_in_distinct cx agg fc lb : distinct (fan_in_collector cx agg fc lb).
Proof.
  split; [done|]. intros a cause text. split; [|done]. cbn. unfold report_payload. cbn.
  destruct (lb !! a); intros [=].
Qed.

(** C35: the fan-in router implements the collector: whatever the events, it
    forwards the first result of each member to the aggregator as its report,
    in order, caused by this result; it sends one [FINALIZE], caused by the
    configured cause, exactly if at some moment somebody had reported and either
    every expected member had or a deadline was reached; it is done at a result
    of the aggregator; and it sends nothing else. *)
Theorem fan_in_contract cx agg fc lb evs :
  let '(routes, r) := router_run cx evs (fan_in_new agg fc lb) in
  seen r = reporters (fan_in_collector cx agg fc lb) evs
  ∧ collects (fan_in_collector cx agg fc lb) evs routes (finalized r).
Proof.
  destruct (router_run cx evs (fan_in_new agg fc lb)) as [routes r] eqn:E.
  destruct (router_run_sim _ _ _ _ (fan_in_simulates cx agg fc lb) evs _ (∅, false) routes r eq_refl E)
    as ([h cl] & Ec & ->).
  cbn. exact (collector_contract _ _ _ _ _ _ (fan_in_distinct cx agg fc lb) Ec).
Qed.

Definition quorum_collector (sec : AgentId) (pc : CauseRef) (n : nat) : Collector := {|
  sink := sec;
  closing := SendCaused sec (tally_payload n) pc;
  forward a cause text := SendCaused sec (str "VOTE:" ++ text) cause;
  ready heard := bool_decide (n ≤ size heard) |}.
Definition quorum_rel (sec : AgentId) (pc : CauseRef) (n : nat) (r : QuorumRouter) (t : gset AgentId * bool) : Prop :=
  r = mkQuorum sec pc n t.1 t.2.
Lemma quorum_simulates cx sec pc n ev r t routes r' :
  quorum_rel sec pc n r t → on_event ev cx r = (routes, r') →
  ∃ t', on_event (Router := collector_router (quorum_collector sec pc n)) ev cx t = (routes, t')
    ∧ quorum_rel sec pc n r' t'.
Proof.
  unfold quorum_rel. destruct t as [h cl]. cbn [fst snd]. intros ->.
  unfold on_event, quorum_router, collector_router, tally, collector_close. destruct ev as [a cause text|a|]; cbn.
  - case_decide; [intros [= <- <-]; by eexists|].
    destruct (decide (a ∈ h)) as [Ha|Ha]; cbn; [rewrite (subseteq_union_1_L {[a]} h) by set_solver|].
    all: destruct (decide (n ≤ _)) as [Hn|Hn]; [rewrite (bool_decide_eq_true_2 (n ≤ _)) by exact Hn|
      rewrite (bool_decide_eq_false_2 (n ≤ _)) by exact Hn; intros [= <- <-]; by eexists].
    all: destruct (_ && _); intros [= <- <-]; by eexists.
  - destruct (_ && _); intros [= <- <-]; by eexists.
  - intros [= <- <-]. by eexists.
Qed.
Lemma quorum_distinct sec pc n : distinct (quorum_collector sec pc n).
Proof. split; [done|]. intros a cause text. by split. Qed.

(** The quorum router implements the collector: each voter's first vote
    goes to the secretary, in order; one [TALLY] of the threshold, caused by the
    proposal, is sent exactly if at some moment somebody had voted and either
    the number of distinct voters had reached the threshold at a vote or a
    deadline was reached; the secretary's result ends it; nothing else is sent. *)
Theorem quorum_contract cx sec pc n evs :
  let '(routes, r) := router_run cx evs (quorum_new sec pc n) in
  votes r = reporters (quorum_collector sec pc n) evs
  ∧ collects (quorum_collector sec pc n) evs routes (tallied r).
Proof.
  destruct (router_run cx evs (quorum_new sec pc n)) as [routes r] eqn:E.
  destruct (router_run_sim _ _ _ _ (quorum_simulates cx sec pc n) evs _ (∅, false) routes r eq_refl E)
    as ([h cl] & Ec & ->).
  cbn. exact (collector_contract _ _ _ _ _ _ (quorum_distinct sec pc n) Ec).
Qed.

(** ** Concrete runs *)

(** The log of an agent that emitted one event. *)
Definition demo_emission (t : Log.EmitType) (payload : bytes) : Log.LogEntry :=
  Log.mkEntry demo_agent_id 5 [] (zeros 32) (zeros 32)
    (Some (Log.to_msgpack (Log.envelope_new t demo_agent_id 0 7 payload))).
Definition demo_fleet_log (t : Log.EmitType) (payload : bytes) : db := (Log.append Mem.empty_db (demo_emission t payload)).2.
Definition demo_text : bytes := str " ok ".
Definition demo_driver : FleetDriver (G := ()) := driver_new 7 [demo_agent_id].
Example demo_poll :
  (poll_events (demo_fleet_log Log.ActionResult demo_text) demo_driver).1
  = [Result demo_agent_id (mkCauseRef (Log.action_id (demo_emission Log.ActionResult demo_text))) (str "ok")].
Proof. vm_compute. reflexivity. Qed.

(** An action dated before one that was read: the next poll reports the old one
    again and never the new one. *)
Definition demo_backdated : Log.LogEntry := 
  Log.mkEntry demo_agent_id 3 [] (zeros 32) (zeros 32) (Log.emit_payload (demo_emission Log.ActionResult (str "late"))).
Example poll_misses_backdated :
  let log1 := demo_fleet_log Log.ActionResult demo_text in
  let log2 := (Log.append log1 demo_backdated).2 in
  let first := Result demo_agent_id (mkCauseRef (Log.action_id (demo_emission Log.ActionResult demo_text))) (str "ok") in
  let d := (poll_events log1 demo_driver).2 in
  (poll_events log1 demo_driver).1 = [first] ∧ (poll_events log2 d).1 = [first]
  ∧ (poll_events log2 (poll_events log2 d).2).1 = [].
Proof. vm_compute. done. Qed.

Lemma demo_emission_ok t payload : (Z.of_nat (length payload) < 2 ^ 32)%Z → Log.entry_ok (demo_emission t payload).
Proof.
  intros Hp. unfold Log.entry_ok, demo_emission. cbn. split_and!; try done.
  intros q [= <-]. refine (mem_envelope_size (Log.envelope_new t demo_agent_id 0 7 payload) _).
  unfold Log.envelope_ok. cbn. split_and!; try done; by destruct t.
Qed.
Lemma poll_events_spec_witness :
  (poll_events (demo_fleet_log Log.ActionResult demo_text) demo_driver).1
    = reported (demo_fleet_log Log.ActionResult demo_text) demo_driver.
Proof.
  destruct (poll_events (demo_fleet_log Log.ActionResult demo_text) demo_driver) as [evs d'] eqn:E.
  assert (NoDup [demo_agent_id]) as Hnd by (apply NoDup_singleton).
  assert (Forall (λ a, length a = 16) [demo_agent_id]) as Hl by (apply Forall_singleton; reflexivity).
  assert (Log.represents (demo_fleet_log Log.ActionResult demo_text) ([] ++ [demo_emission Log.ActionResult demo_text])) as Hr.
  { refine (proj2 (Log.append_Ok false Mem.empty_db (demo_emission Log.ActionResult demo_text)
      (Log.action_id (demo_emission Log.ActionResult demo_text)) _ [] _ _ _)).
    - apply Log.represents_empty; reflexivity.
    - apply demo_emission_ok. reflexivity.
    - reflexivity. }
  exact (proj1 (poll_events_spec (demo_fleet_log Log.ActionResult demo_text) demo_driver evs d' _ Hnd Hl Hr E)).
Defined.

(** A fleet of tenant 0: the result of one agent goes to another one. *)
Definition demo_result : ActionId := Log.action_id (demo_emission Log.ActionResult demo_text).
Definition demo_pair : System := final (demo_enlist demo_child) demo_s1.
Definition demo_own : FleetDriver (G := ()) := driver_new 0 [demo_agent_id].
Definition demo_fleet (s : System) : FleetState (G := ()) (RS := FanInRouter) :=
  mkFleet demo_own (s <| runtime ::= λ r, r <| dm_world ::= λ w, w <| causal_log := demo_fleet_log Log.ActionResult demo_text |> |> |>)
    (fan_in_new demo_child (mkCauseRef (zeros 32)) ∅).
(** The log stays, the only cause accepted is the logged result, and every message in
    an inbox is data, or caused by it. *)
Definition demo_message (ev : Event) : bool :=
  match ev with Recv (Data _ None) => true | Recv (Data _ (Some c)) => bool_decide (c = demo_result) | _ => false end.
Definition demo_confined (rs : DemoRt) (K : gset ActionId) : Prop :=
  causal_log (dm_world rs) = demo_fleet_log Log.ActionResult demo_text ∧ (∀ c, c ∈ K → c = demo_result)
  ∧ ∀ n i inbox, dm_tasks rs !! n = Some (i, inbox) → Forall (λ ev, demo_message ev = true) inbox.
Lemma demo_rules :
  fleet_rules 0 (registry demo_pair) [demo_agent_id] (watched_emits demo_own) demo_confined (mret ()).
Proof.
  split.
  - intros rs K k HP. exact HP.
  - by intros rs K rs' HP [= <-].
  - intros rs K c (HL & HK & HI) (a & Ha & Hc & _). split; [exact HL|]. split; [|exact HI].
    intros c' [Hc'|Hc']%elem_of_union; [|by apply HK]. apply elem_of_singleton in Hc' as ->.
    apply list_elem_of_singleton in Ha as ->. change (c ∈ agent_ids (causal_log (dm_world rs)) demo_agent_id) in Hc. rewrite HL in Hc.
    assert (agent_ids (demo_fleet_log Log.ActionResult demo_text) demo_agent_id = [demo_result]) as Ei by (vm_compute; reflexivity).
    rewrite Ei in Hc. by apply list_elem_of_singleton in Hc.
  - intros rs K a tx m x rs' (HL & HK & HI) _ _ Hm Hs. cbn in Hs. unfold demo_send in Hs.
    destruct (dm_tasks rs !! tx) as [[i inbox]|] eqn:Ei; injection Hs as _ <-; [|exact (conj HL (conj HK HI))].
    split; [exact HL|]. split; [exact HK|]. intros n j box. cbn. destruct (decide (n = tx)) as [->|Hn].
    + rewrite lookup_insert_eq. intros [= <- <-]. apply Forall_app. split; [by eapply HI|]. apply Forall_singleton.
      destruct Hm as (p & [->|(c & Hc & ->)]); [reflexivity|]. change (bool_decide (c = demo_result) = true).
      apply bool_decide_eq_true_2. exact (HK c Hc).
    + rewrite lookup_insert_ne by done. apply HI.
Qed.
Lemma demo_start s : map_Forall (λ _ t, t.2 = []) (dm_tasks (runtime s)) →
  registry (sched (demo_fleet s)) = registry s ∧ demo_confined (runtime (sched (demo_fleet s))) (emitted (driver (demo_fleet s))).
Proof.
  intros Hall. split; [reflexivity|]. split; [reflexivity|]. split.
  - intros c Hc. destruct (not_elem_of_empty (C := gset ActionId) c Hc).
  - intros n i inbox Hn. pose proof (Hall n (i, inbox) Hn) as E. cbn in E. subst inbox. apply Forall_nil_2.
Qed.
Lemma fleet_confined_witness :
  ∃ b f', run 2 (mret ()) 0 (demo_fleet demo_pair) = Some (b, f') ∧ demo_confined (runtime (sched f')) (emitted (driver f')).
Proof.
  assert (returns (run 2 (mret ()) 0) (demo_fleet demo_pair) = true) as Hr by (vm_compute; reflexivity).
  destruct (returns_Some _ _ Hr) as (b & f' & Er). clear Hr. exists b, f'. split; [exact Er|].
  assert (map_Forall (λ _ t, t.2 = []) (dm_tasks (runtime demo_pair))) as Hall by (apply (bool_decide_unpack _); vm_compute; exact I).
  destruct (demo_start demo_pair Hall) as [Hreg Hstart]. clear Hall. pose proof demo_rules as Hru.
  exact (proj1 (fleet_confined (RS := FanInRouter) 0 (registry demo_pair) [demo_agent_id] (watched_emits demo_own) demo_confined (mret ())
    2 0 (demo_fleet demo_pair) b f' Hru Hreg eq_refl eq_refl eq_refl eq_refl Hstart Er)).
Defined.
(** The report of the result is in the inbox of the aggregator. *)
Example demo_reported :
  omap (λ '(_, (_, inbox)), match inbox with [Recv (Data _ c)] => Some c | _ => None end)
    (map_to_list (dm_tasks (runtime (sched (final (run 2 (mret ()) 0) (demo_fleet demo_pair)))))) = [Some demo_result].
Proof. vm_compute. reflexivity. Qed.

(** A fleet that may spawn one member. *)
Definition demo_factory : MemberFactory (G := ()) := {|
  materialize ti child _ := if decide (ti = 0) then
      Some (λ w, (λ '(r, w), (map_err (λ _, "link"%string) r, w)) <$> new_precompiled demo_module child w)
    else None;
  capacity := 1 |}.
Definition demo_spawning : FleetState (G := ()) (RS := DispatchRouter) :=
  mkFleet (with_factory demo_factory (driver_new 0 [demo_agent_id]))
    (demo_s1 <| runtime ::= λ r, r <| dm_world ::= λ w, w
      <| causal_log := demo_fleet_log Log.Event (encode (mkDirective Escalate demo_text)) |> |> |>)
    (dispatch_new {[Escalate := 0]} demo_child).
Lemma fleet_members_bounded_witness :
  ∃ b f', run 2 (mret ()) 0 demo_spawning = Some (b, f') ∧ size (members (driver f')) ≤ 1.
Proof.
  assert (returns (run 2 (mret ()) 0) demo_spawning = true) as Hr by (vm_compute; reflexivity).
  destruct (returns_Some _ _ Hr) as (b & f' & E). clear Hr. exists b, f'. split; [exact E|].
  exact (proj1 (fleet_members_bounded (RS := DispatchRouter) demo_factory (mret ()) 2 0 demo_spawning b f' eq_refl
    ltac:(vm_compute; repeat constructor) E)).
Defined.
Example demo_spawned : size (members (driver (final (run 2 (mret ()) 0) demo_spawning))) = 1.
Proof. vm_compute. reflexivity. Qed.

End FleetSpec.
