(* ===== verification/Reconstruct.v ===== *)
(** Reconstruct: the command that prints the log of an agent.

    Models [poc/reconstruct/src/main.rs]: the arguments, the one-line summary of
    every kind of event, the reconciliation of the journal of compensation, and
    the printed table.  [None] in an [option string] is a panic (an index or a
    slice out of bounds).  Hexadecimal is a crate, hence a parameter, and so is
    the debug format of a string, whose escapes follow Unicode tables.  The
    messages on the error stream are left out. *)
From Stdlib Require Import String Ascii.
From stdpp Require Import pretty.
From S2P Require Import Prelude Storage CausalLog Fleet.

Module Recon.
Import Log.
Import Fleet(from_utf8_lossy, str).
Local Open Scope string_scope.
Local Open Scope nat_scope.

(** ** Formats *)

Class Hex := { hex_encode : bytes → string; hex_decode : string → option bytes }.
(** [{:?}] of a string. *)
Class DebugFormat := debug_str : bytes → string.

Definition dec (z : Z) : string := pretty (Z.to_N z).
Definition len_of (p : bytes) : string := dec (Z.of_nat (length p)).
Definition nibble (z : Z) : string :=
  match z with
  | 0 => "0" | 1 => "1" | 2 => "2" | 3 => "3" | 4 => "4" | 5 => "5" | 6 => "6" | 7 => "7"
  | 8 => "8" | 9 => "9" | 10 => "a" | 11 => "b" | 12 => "c" | 13 => "d" | 14 => "e" | _ => "f"
  end%Z.
(** [0x{:02x}] and [{:#04x}] of a byte *)
Definition hex_u8 (v : Z) : string := "0x" +:+ nibble (v / 16) +:+ nibble (v `mod` 16).
Definition lossy (p : bytes) : string := string_of_list_byte (from_utf8_lossy p).

(** [p[i]], [p[a..b]] and the little-endian reads. *)
Definition u8_at (p : bytes) (i : nat) : option Z := b2z <$> p !! i.
Definition slice (p : bytes) (a b : nat) : option bytes :=
  if decide (a ≤ b ∧ b ≤ length p) then Some (take (b - a) (drop a p)) else None.
Definition le_at (p : bytes) (a n : nat) : option Z := of_le <$> slice p a (a + n).

Definition truncated (p : bytes) : string := "(payload tronqué, " +:+ len_of p +:+ " bytes)".
Definition sized (p : bytes) : string := "(" +:+ len_of p +:+ " bytes)".

(** ** Summaries *)

Section summaries.
Context `{Hex, DebugFormat}.

Definition state_name (v : Z) : option string :=
  match v with
  | 0 => Some "Spawned" | 1 => Some "Active" | 2 => Some "Suspended" | 3 => Some "Checkpointed"
  | 4 => Some "Terminated" | 5 => Some "AwaitingValidation" | 6 => Some "WaitingInference"
  | _ => None
  end%Z.
Definition profile_name (v : Z) : option string :=
  match v with 1 => Some "Algo" | 2 => Some "LlmShort" | 3 => Some "LlmLong" | 4 => Some "Batch" | _ => None end%Z.
Definition summarize_lifecycle (p : bytes) : option string :=
  if decide (p = []) then Some "(payload tronqué, 0 bytes)"
  else
    state_byte ← u8_at p 0;
    match state_name state_byte with
    | None => Some ("state=Unknown(" +:+ dec state_byte +:+ ")")
    | Some name =>
        if decide (state_byte = 0%Z ∧ 10 ≤ length p) then
          seq ← le_at p 1 8;
          profile ← u8_at p 9;
          let head := "state=" +:+ name +:+ " seq=" +:+ dec seq +:+ " profile=" in
          match profile_name profile with
          | None => Some (head +:+ "Unknown(" +:+ hex_u8 profile +:+ ")")
          | Some profile => Some (head +:+ profile)
          end
        else if decide (9 ≤ length p) then
          seq ← le_at p 1 8; Some ("state=" +:+ name +:+ " seq=" +:+ dec seq)
        else Some ("state=" +:+ name +:+ " (payload court, " +:+ len_of p +:+ " bytes)")
    end.

Definition summarize_introspect (p : bytes) : option string :=
  if decide (74 ≤ length p) then
    seq ← le_at p 32 8; flags ← u8_at p 72; lifecycle ← u8_at p 73;
    Some ("seq=" +:+ dec seq +:+ " flags=" +:+ hex_u8 flags +:+ " lifecycle=" +:+ dec lifecycle)
  else Some (truncated p).
Definition summarize_self_rollback (p : bytes) : option string :=
  if decide (9 ≤ length p) then
    depth ← u8_at p 0; target_seq ← le_at p 1 8;
    Some ("depth=" +:+ dec depth +:+ " target_seq=" +:+ dec target_seq)
  else Some (truncated p).
Definition summarize_request (p : bytes) : option string :=
  match p with b :: _ => Some ("risk=" +:+ dec (b2z b)) | [] => Some "(payload tronqué, 0 bytes)" end.
Definition verdict_name (v : Z) : option string :=
  match v with 0 => Some "Approved" | 1 => Some "Rejected" | 2 => Some "Timeout" | _ => None end%Z.
Definition summarize_response (p : bytes) : option string :=
  match p with
  | b :: _ => Some (match verdict_name (b2z b) with
                    | Some v => "verdict=" +:+ v
                    | None => "verdict=Unknown(" +:+ dec (b2z b) +:+ ")" end)
  | [] => Some "(payload tronqué, 0 bytes)"
  end.
Definition summarize_rollback (p : bytes) : option string :=
  if decide (10 ≤ length p) then
    distance ← u8_at p 0; target_seq ← le_at p 1 8; caps ← u8_at p 9;
    Some ("distance=" +:+ dec distance +:+ " target_seq=" +:+ dec target_seq +:+ " caps_invalidated=" +:+ dec caps)
  else Some (truncated p).

Definition class_name (v : Z) : option string :=
  match v with 1 => Some "Supervisor" | 2 => Some "Foreground" | 3 => Some "Batch" | _ => None end%Z.
Definition promoted_name (v : Z) : string :=
  match v with
  | 0xFF => "none" | 1 => "from=Supervisor" | 2 => "from=Foreground" | 3 => "from=Batch"
  | v => "from=Unknown(" +:+ hex_u8 v +:+ ")"
  end%Z.
Definition summarize_infer_request (p : bytes) : option string :=
  if decide (33 ≤ length p) then
    model_len ← u8_at p 32;
    let model_len := Z.to_nat model_len in
    let base := 33 + model_len in
    if decide (base + 8 ≤ length p) then
      req ← le_at p base 4;
      eff ← le_at p (base + 4) 4;
      model ← slice p 33 (33 + model_len);
      let head := "model=" +:+ lossy model +:+ " timeout_req=" +:+ dec req +:+ "ms timeout_eff=" +:+ dec eff +:+ "ms" in
      if decide (base + 8 + 4 ≤ length p) then
        pclass ← u8_at p (base + 8);
        match class_name pclass with
        | None => Some (head +:+ " priority=Unknown(" +:+ hex_u8 pclass +:+ ")")
        | Some pclass =>
            qdepth ← le_at p (base + 9) 2;
            promoted ← u8_at p (base + 11);
            Some (head +:+ " priority=" +:+ pclass +:+ " qdepth=" +:+ dec qdepth +:+ " promoted=" +:+ promoted_name promoted)
        end
      else Some head
    else Some (truncated p)
  else Some (truncated p).
Definition summarize_infer_response (p : bytes) : option string :=
  if decide (41 ≤ length p) then
    tokens ← le_at p 32 4; duration ← le_at p 36 4; trunc ← u8_at p 40;
    Some ("tokens~=" +:+ dec tokens +:+ " duration=" +:+ dec duration +:+ "ms truncated=" +:+ dec trunc)
  else Some (truncated p).
Definition summarize_infer_cancelled (p : bytes) : option string :=
  if decide (9 ≤ length p) then
    ts ← le_at p 0 8; cause ← u8_at p 8;
    match cause with
    | 1 => Some ("cancel_ts=" +:+ dec ts +:+ "ms cause=Rollback")
    | 2 => Some ("cancel_ts=" +:+ dec ts +:+ "ms cause=Terminate")
    | v => Some ("cause=Unknown(" +:+ hex_u8 v +:+ ")")
    end%Z
  else Some (truncated p).
Definition summarize_infer_failed (p : bytes) : option string :=
  if decide (2 ≤ length p) then
    code ← u8_at p 0; msg_len ← u8_at p 1;
    let msg_len := Z.to_nat msg_len in
    msg ← (if decide (2 + msg_len ≤ length p) then from_utf8_lossy <$> slice p 2 (2 + msg_len)
           else Some (str "(message tronqué)"));
    Some ("error_code=" +:+ hex_u8 code +:+ " msg=" +:+ debug_str msg)
  else Some (truncated p).
Definition summarize_compensation (what : string) (p : bytes) : option string :=
  if decide (16 ≤ length p) then
    agent ← slice p 0 8; Some ("agent=" +:+ hex_encode agent +:+ "... [" +:+ what +:+ " compensation]")
  else Some (truncated p).

Definition crash_name (v : Z) : option string :=
  match v with
  | 1 => Some "ProcessFailed" | 2 => Some "ContentStoreBroken" | 3 => Some "WatchdogTrap" | 4 => Some "HostPanic"
  | _ => None
  end%Z.
(** An identifier, or [none] when it is all zeros. *)
Definition repr_or_none (p : bytes) (a b : nat) : option string :=
  id ← slice p a b;
  if forallb (λ x, bool_decide (b2z x = 0%Z)) id then Some "none"
  else short ← slice p a (a + 8); Some (hex_encode short +:+ "...").
Definition summarize_crash (p : bytes) : option string :=
  if decide (length p < 49) then Some ("(payload tronqué, " +:+ len_of p +:+ " bytes, attendu 49)")
  else
    v ← u8_at p 0;
    match crash_name v with
    | None => Some ("cause=Unknown(" +:+ hex_u8 v +:+ ")")
    | Some cause =>
        parent ← repr_or_none p 1 17;
        action ← repr_or_none p 17 49;
        Some ("cause=" +:+ cause +:+ " parent=" +:+ parent +:+ " last_action=" +:+ action)
    end.

Definition perm_names (flags : Z) : string :=
  let held m (name : string) := if (Z.land flags m =? 0)%Z then [] else [name] in
  match (held 1 "read" ++ held 2 "write" ++ held 4 "execute" ++ held 8 "delegate")%Z%list with
  | [] => "none"
  | perms => String.concat "+" perms
  end.
Definition summarize_denied (p : bytes) : option string :=
  if decide (length p < 25) then Some (truncated p)
  else
    cap_id ← le_at p 16 8;
    let short := "cap_id=" +:+ dec cap_id +:+ " (payload court " +:+ len_of p +:+ " bytes)" in
    if decide (26 ≤ length p) then
      res_len ← u8_at p 24;
      let res_len := Z.to_nat res_len in
      if decide (25 + res_len + 2 ≤ length p) then
        rate_limited ← u8_at p (25 + res_len + 1);
        if decide (rate_limited = 1%Z) then
          count ← le_at p 24 4;
          perm ← u8_at p 28;
          Some ("cap_id=" +:+ dec cap_id +:+ " [RATE_LIMITED count=" +:+ dec count +:+ " perm=" +:+ hex_u8 perm +:+ "]")
        else
          resource ← slice p 25 (25 + res_len);
          perm_flags ← u8_at p (25 + res_len);
          Some ("cap_id=" +:+ dec cap_id +:+ " resource=" +:+ debug_str (from_utf8_lossy resource)
                +:+ " denied=" +:+ perm_names perm_flags)
      else Some short
    else Some short.

Definition summarize (emit_type : Z) (p : bytes) : option string :=
  match try_from emit_type with
  | Ok ActionResult | Ok Event | Ok Proposal => Some (sized p)
  | Ok StateDelta => Some ("(" +:+ len_of p +:+ " bytes msgpack)")
  | Ok Lifecycle => summarize_lifecycle p
  | Ok Introspect => summarize_introspect p
  | Ok SelfRollback => summarize_self_rollback p
  | Ok ValidationRequest => summarize_request p
  | Ok ValidationResponse => summarize_response p
  | Ok SessionBoundary => Some ("(" +:+ len_of p +:+ " bytes résumé causal)")
  | Ok SchedulerRollback => summarize_rollback p
  | Ok InferenceRequest => summarize_infer_request p
  | Ok InferenceResponse => summarize_infer_response p
  | Ok InferenceCancelled => summarize_infer_cancelled p
  | Ok InferenceFailed => summarize_infer_failed p
  | Ok CompensationOpen => summarize_compensation "ouverture" p
  | Ok CompensationClose => summarize_compensation "fermeture" p
  | Ok AgentCrash => summarize_crash p
  | Ok CapabilityDenied => summarize_denied p
  | Err _ => Some ("(" +:+ len_of p +:+ " bytes opaque)")
  end.

Definition emit_type_name (emit_type : Z) : string :=
  match try_from emit_type with
  | Ok t => match t with
      | ActionResult => "ActionResult" | StateDelta => "StateDelta" | Event => "Event" | Proposal => "Proposal"
      | Lifecycle => "Lifecycle" | Introspect => "Introspect" | SelfRollback => "SelfRollback"
      | ValidationRequest => "ValidationRequest" | ValidationResponse => "ValidationResponse"
      | SessionBoundary => "SessionBoundary" | SchedulerRollback => "SchedulerRollback"
      | InferenceRequest => "InferenceRequest" | InferenceResponse => "InferenceResponse"
      | InferenceCancelled => "InferenceCancelled" | InferenceFailed => "InferenceFailed"
      | CompensationOpen => "CompensationOpen" | CompensationClose => "CompensationClose"
      | AgentCrash => "AgentCrash" | CapabilityDenied => "CapabilityDenied" end
  | Err u => "Unknown(" +:+ hex_u8 u +:+ ")"
  end.

End summaries.

(** ** Arguments *)

Section args.
Context `{Hex}.

Record Args := mkArgs { arg_db : string; arg_agent : AgentId; arg_from_ts : option Z; arg_to_ts : option Z }.
(** The reasons to exit with code 1. *)
Inductive ArgError := MissingValue (flag : string) | BadHex | BadAgentLength (n : nat) | BadInteger (flag : string)
  | UnknownArgument (a : string) | DbRequired | AgentRequired.

(** [s.parse::<u64>()]: an optional plus sign and decimal digits, within the width. *)
Definition digit_of (c : ascii) : option Z :=
  let z := b2z (byte_of_ascii c) in if decide (48 ≤ z ≤ 57)%Z then Some (z - 48)%Z else None.
Fixpoint parse_digits (acc : Z) (s : string) : option Z :=
  match s with
  | EmptyString => Some acc
  | String c s =>
      d ← digit_of c;
      let v := (acc * 10 + d)%Z in
      if decide (v < 2 ^ 64)%Z then parse_digits v s else None
  end.
Definition parse_u64 (s : string) : option Z :=
  let s := match s with String "+" rest => rest | _ => s end in
  match s with EmptyString => None | _ => parse_digits 0 s end.

Record Parsed := mkParsed { p_db : option string; p_agent : option AgentId; p_from : option Z; p_to : option Z }.
Definition parse_agent (hex : string) : result ArgError AgentId :=
  match hex_decode hex with
  | None => Err BadHex
  | Some b => if decide (length b = 16) then Ok b else Err (BadAgentLength (length b))
  end.
Fixpoint parse_loop (raw : list string) (a : Parsed) : result ArgError Parsed :=
  match raw with
  | [] => Ok a
  | flag :: raw =>
      if decide (flag = "--db") then
        match raw with
        | [] => Err (MissingValue flag)
        | v :: raw => parse_loop raw (mkParsed (Some v) (p_agent a) (p_from a) (p_to a))
        end
      else if decide (flag = "--agent") then
        match raw with
        | [] => Err (MissingValue flag)
        | v :: raw => id ← parse_agent v; parse_loop raw (mkParsed (p_db a) (Some id) (p_from a) (p_to a))
        end
      else if decide (flag = "--from-ts") then
        match raw with
        | [] => Err (MissingValue flag)
        | v :: raw => t ← ok_or (BadInteger flag) (parse_u64 v);
                      parse_loop raw (mkParsed (p_db a) (p_agent a) (Some t) (p_to a))
        end
      else if decide (flag = "--to-ts") then
        match raw with
        | [] => Err (MissingValue flag)
        | v :: raw => t ← ok_or (BadInteger flag) (parse_u64 v);
                      parse_loop raw (mkParsed (p_db a) (p_agent a) (p_from a) (Some t))
        end
      else Err (UnknownArgument flag)
  end.
Definition parse_args (raw : list string) : result ArgError Args :=
  a ← parse_loop raw (mkParsed None None None None);
  db ← ok_or DbRequired (p_db a);
  agent ← ok_or AgentRequired (p_agent a);
  Ok (mkArgs db agent (p_from a) (p_to a)).

End args.

(** ** The journal of compensation *)

Section tool.
Context `{R : RocksDB, H256 : Sha256, BE : Bincode LogEntry, MP : Msgpack EmitEnvelope} `{Hex, DebugFormat}.

Definition SCHEDULER_AGENT_ID : AgentId := replicate 16 Byte.xff.

(** The envelope of a logged action, if all of it can be read. *)
Definition envelope_at (log : db) (action_id : ActionId) : option EmitEnvelope :=
  match get log action_id with
  | Ok (Some entry) => raw ← emit_payload entry; result_ok (from_msgpack raw)
  | _ => None
  end.
(** [open_set.remove(pos)] of the first occurrence. *)
Fixpoint remove_first (aid : AgentId) (l : list AgentId) : list AgentId :=
  match l with [] => [] | x :: l => if decide (x = aid) then l else x :: remove_first aid l end.
Definition journal_event (open_set : list AgentId) (env : EmitEnvelope) : list AgentId :=
  let p := env_payload env in
  match try_from (env_emit_type env) with
  | Ok CompensationOpen => if decide (16 ≤ length p) then open_set ++ [take 16 p] else open_set
  | Ok CompensationClose => if decide (16 ≤ length p) then remove_first (take 16 p) open_set else open_set
  | _ => open_set
  end.
Definition journal_step (log : db) (open_set : list AgentId) (action_id : ActionId) : list AgentId :=
  match envelope_at log action_id with Some env => journal_event open_set env | None => open_set end.
(** Each agent once, at its first place. *)
Definition dedup_step (incomplete : list AgentId) (aid : AgentId) : list AgentId :=
  if decide (aid ∈ incomplete) then incomplete else incomplete ++ [aid].
Definition check_compensation_journal (log : db) : list AgentId :=
  let all_ids := default [] (result_ok (query_by_agent_range log SCHEDULER_AGENT_ID None None)) in
  foldl dedup_step [] (foldl (journal_step log) [] all_ids).

(** ** The table *)

Fixpoint spaces (n : nat) : string := match n with O => "" | S n => " " +:+ spaces n end.
(** [{:<n}] of an ASCII string *)
Definition pad (n : nat) (s : string) : string := s +:+ spaces (n - String.length s).
Fixpoint dashes (n : nat) : string := match n with O => "" | S n => "-" +:+ dashes n end.
Definition columns (ts agent action emit_type summary : string) : string :=
  pad 16 ts +:+ "  " +:+ pad 16 agent +:+ "  " +:+ pad 16 action +:+ "  " +:+ pad 22 emit_type +:+ "  " +:+ summary.
Definition short_hex (b : bytes) : option string := hex_encode <$> slice b 0 8.

(** The lines of one action; an action that cannot be read has none. *)
Definition entry_lines (log : db) (action_id : ActionId) : option (list string) :=
  match get log action_id with
  | Ok (Some entry) =>
      agent_short ← short_hex (agent_id entry);
      action_short ← short_hex action_id;
      let line := columns (dec (ts_ms entry)) agent_short in
      match emit_payload entry with
      | None => Some [line action_short "checkpoint" "—"]
      | Some raw =>
          match from_msgpack raw with
          | Ok env =>
              summary ← summarize (env_emit_type env) (env_payload env);
              Some (line action_short (emit_type_name (env_emit_type env)) summary
                :: (if decide (env_emit_type env = emit_u8 AgentCrash)
                    then [line "[implicite]" "Lifecycle" "state=Terminated [synthétisé — ADR-0015]"] else []))
          | Err _ => Some [line action_short "CORRUPT" ("(enveloppe corrompue, " +:+ len_of raw +:+ " bytes raw)")]
          end
      end
  | _ => Some []
  end.
Fixpoint all_lines (log : db) (ids : list ActionId) : option (list string) :=
  match ids with
  | [] => Some []
  | id :: ids => l ← entry_lines log id; ls ← all_lines log ids; Some ((l ++ ls)%list)
  end.

(** What the command prints on its output, and the agents it warns about. *)
Definition report (log : db) (args : Args) : result (LogError db_err (bin_err LogEntry)) (list AgentId * option (list string)) :=
  let incomplete := check_compensation_journal log in
  ids ← query_by_agent_range log (arg_agent args) (arg_from_ts args) (arg_to_ts args);
  if decide (ids = []) then Ok (incomplete, Some [])
  else
    Ok (incomplete,
      lines ← all_lines log ids;
      Some ([columns "ts_ms" "agent" "action" "emit_type" "summary"; dashes 90] ++ lines
            ++ [dashes 90; dec (Z.of_nat (length ids)) +:+ " entrée(s) affichée(s)."])%list).

End tool.
End Recon.
