(* ===== verification/ReconstructSpec.v ===== *)
(** ReconstructSpec: what the reconstruction tool reads back.

    The reconciliation of the journal of compensation is exact when the index gives
    the marks in the order they were made, and reads what the supervisor writes; the summary shows the values the runtime put in the
    payloads, and panics on exactly one shape of payload. *)
From Stdlib Require Import String.
From S2P Require Import Prelude Storage Capabilities ContentStore CausalLog InferQueue Clock CauseHandles Actor RunLoop Scheduler SchedulerSpec Fleet Reconstruct.

Module ReconSpec.
Import Log Clocks Watchdog Handles Actor Loop Recon.
Local Open Scope nat_scope.

(** ** The journal *)

Section journal.
Context `{R : RocksDB, H256 : Sha256, BE : Bincode LogEntry, MP : Msgpack EmitEnvelope}.

(** An opening ([true]) or a closing ([false]) of the compensation of an agent. *)
Definition journal_mark (env : EmitEnvelope) : option (bool * AgentId) :=
  let p := env_payload env in
  if decide (16 ≤ length p) then
    match try_from (env_emit_type env) with
    | Ok CompensationOpen => Some (true, take 16 p)
    | Ok CompensationClose => Some (false, take 16 p)
    | _ => None
    end
  else None.
(** The readable marks of the scheduler, in the order of the index. *)
Definition journal (log : db) : list (bool * AgentId) :=
  omap (λ id, env ← envelope_at log id; journal_mark env)
    (default [] (result_ok (query_by_agent_range log SCHEDULER_AGENT_ID None None))).
(** How many compensations of [a] are left open: a closing ends one, if any. *)
Definition pending (a : AgentId) (marks : list (bool * AgentId)) : nat :=
  foldl (λ n '(opens, b), if decide (b = a) then if opens : bool then S n else pred n else n) 0 marks.

Definition apply_mark (l : list AgentId) (m : bool * AgentId) : list AgentId :=
  if m.1 then l ++ [m.2] else remove_first m.2 l.
Definition occ (a : AgentId) (l : list AgentId) : nat := length (filter (a =.) l).

Lemma journal_event_mark l env : journal_event l env = if journal_mark env is Some m then apply_mark l m else l.
Proof.
  unfold journal_event, journal_mark. destruct (try_from (env_emit_type env)) as [[]|]; by case_decide.
Qed.
Lemma journal_steps log ids l :
  foldl (journal_step log) l ids = foldl apply_mark l (omap (λ id, env ← envelope_at log id; journal_mark env) ids).
Proof.
  revert l. induction ids as [|id ids IH]; intros l; [done|]. cbn. rewrite IH. unfold journal_step.
  destruct (envelope_at log id) as [env|]; [|done]. cbn. rewrite journal_event_mark. by destruct (journal_mark env).
Qed.
Lemma occ_cons a x l : occ a (x :: l) = (if decide (a = x) then 1 else 0) + occ a l.
Proof. unfold occ. rewrite filter_cons. by destruct (decide (a = x)). Qed.
Lemma occ_app a l k : occ a (l ++ k) = occ a l + occ a k.
Proof. unfold occ. by rewrite filter_app, length_app. Qed.
Lemma occ_remove a b l : occ a (remove_first b l) = if decide (b = a) then pred (occ a l) else occ a l.
Proof.
  induction l as [|x l IH]; [by case_decide|]. cbn [remove_first].
  destruct (decide (x = b)) as [->|Hx]; rewrite !occ_cons.
  - destruct (decide (b = a)) as [->|]; [by rewrite decide_True|]. by rewrite decide_False by congruence.
  - rewrite IH. destruct (decide (b = a)) as [->|]; [by rewrite decide_False by congruence|done].
Qed.
Lemma occ_marks a marks l n :
  occ a l = n →
  occ a (foldl apply_mark l marks)
    = foldl (λ n '(opens, b), if decide (b = a) then if opens : bool then S n else pred n else n) n marks.
Proof.
  revert l n. induction marks as [|[opens b] marks IH]; intros l n Hl; [done|]. cbn [foldl]. apply IH.
  destruct opens; unfold apply_mark; cbn [fst snd].
  - rewrite occ_app, occ_cons, Hl. change (occ a []) with 0. destruct (decide (a = b)) as [->|].
    + rewrite decide_True by done. lia.
    + rewrite decide_False by congruence. lia.
  - by rewrite occ_remove, Hl.
Qed.
Lemma occ_elem a l : a ∈ l ↔ 0 < occ a l.
Proof.
  unfold occ. split.
  - intros Ha. assert (a ∈ filter (a =.) l) as H by by apply list_elem_of_filter.
    destruct (filter _ _); [by apply not_elem_of_nil in H|cbn; lia].
  - destruct (filter (a =.) l) as [|x l'] eqn:E; cbn; [lia|]. intros _.
    assert (x ∈ filter (a =.) l) as [<- Hx]%list_elem_of_filter by (rewrite E; by left). done.
Qed.
Lemma dedup_spec l acc : NoDup acc → NoDup (foldl dedup_step acc l) ∧ ∀ a, a ∈ foldl dedup_step acc l ↔ a ∈ acc ∨ a ∈ l.
Proof.
  revert acc. induction l as [|x l IH]; intros acc Hnd; cbn; [set_solver|].
  destruct (IH (dedup_step acc x)) as [H1 H2].
  { unfold dedup_step. case_decide; [done|]. apply NoDup_app. split; [done|]. split; [set_solver|apply NoDup_singleton]. }
  split; [done|]. intros a. rewrite H2. unfold dedup_step. case_decide; set_solver.
Qed.
Lemma check_journal log :
  NoDup (check_compensation_journal log) ∧ ∀ a, a ∈ check_compensation_journal log ↔ 0 < pending a (journal log).
Proof.
  unfold check_compensation_journal. rewrite journal_steps. fold (journal log).
  destruct (dedup_spec (foldl apply_mark [] (journal log)) [] (NoDup_nil_2)) as [H1 H2]. split; [done|].
  intros a. rewrite H2, (occ_elem a (foldl _ _ _)), (occ_marks a (journal log) [] 0) by done. unfold pending.
  split; [intros [?%not_elem_of_nil|?]|]; [done|done|by right].
Qed.
Lemma pending_app a m1 m2 :
  pending a (m1 ++ m2) = foldl (λ n '(opens, b), if decide (b = a) then if opens : bool then S n else pred n else n) (pending a m1) m2.
Proof. unfold pending. by rewrite foldl_app. Qed.

(** The openings and the closings of [a], counted; and an order in which no closing
    of [a] is read before its opening, the one in which they happen. *)
Definition opens (a : AgentId) (marks : list (bool * AgentId)) : nat := length (filter ((true, a) =.) marks).
Definition closes (a : AgentId) (marks : list (bool * AgentId)) : nat := length (filter ((false, a) =.) marks).
Definition in_order (a : AgentId) (marks : list (bool * AgentId)) : Prop :=
  ∀ k, closes a (take k marks) ≤ opens a (take k marks).
Lemma count_snoc (m : bool * AgentId) marks x :
  length (filter (m =.) (marks ++ [x])) = length (filter (m =.) marks) + if decide (m = x) then 1 else 0.
Proof. rewrite filter_app, length_app, filter_cons, filter_nil. by case_decide. Qed.
Lemma pending_counts a marks :
  opens a marks ≤ closes a marks + pending a marks ∧ (in_order a marks → opens a marks = closes a marks + pending a marks).
Proof.
  induction marks as [|[b x] marks [IH1 IH2]] using rev_ind; [done|].
  rewrite pending_app. unfold opens, closes in *. rewrite !count_snoc. cbn [foldl].
  assert (in_order a (marks ++ [(b, x)]) → in_order a marks
    ∧ closes a (marks ++ [(b, x)]) ≤ opens a (marks ++ [(b, x)])) as Hin.
  { intros Ho. split.
    - intros k. destruct (decide (k ≤ length marks)) as [Hk|Hk].
      + specialize (Ho k). by rewrite take_app_le in Ho.
      + rewrite take_ge by lia. specialize (Ho (length marks)). by rewrite take_app_length in Ho.
    - specialize (Ho (length (marks ++ [(b, x)]))). by rewrite take_ge in Ho. }
  unfold closes, opens in Hin. rewrite !count_snoc in Hin.
  destruct (decide (x = a)) as [->|Hx].
  - destruct b; [rewrite (decide_True (P := (true, a) = (true, a))), (decide_False (P := (false, a) = (true, a))) in * by done
      |rewrite (decide_False (P := (true, a) = (false, a))), (decide_True (P := (false, a) = (false, a))) in * by done].
    + split; [lia|]. intros Ho. destruct (Hin Ho) as [Hm _]. specialize (IH2 Hm). lia.
    + split; [lia|]. intros Ho. destruct (Hin Ho) as [Hm Hle]. specialize (IH2 Hm). lia.
  - rewrite !decide_False in * by congruence. split; [lia|]. intros Ho. destruct (Hin Ho) as [Hm _]. specialize (IH2 Hm). lia.
Qed.

End journal.

Section journal_claim.
Context `{R : RocksDB, H256 : Sha256, BH : Bincode Store.SnapshotHeader, BE : Bincode LogEntry,
          MP : Msgpack EmitEnvelope, !MsgpackLaws EmitEnvelope envelope_ok}.

(** The mark of an entry of the log. *)
Definition entry_mark (e : LogEntry) : option (bool * AgentId) :=
  raw ← emit_payload e; env ← result_ok (from_msgpack raw); journal_mark env.
Lemma scheduler_mark t ts us p :
  is_u64 us → (Z.of_nat (length p) < 2 ^ 32)%Z →
  entry_mark (Sched.scheduler_entry t ts us p) = journal_mark (envelope_new t Sched.SCHEDULER_AGENT_ID 0 us p).
Proof.
  intros Hus Hp. unfold entry_mark, Sched.scheduler_entry. cbn. unfold from_msgpack, to_msgpack.
  rewrite (mp_de_ser (valid := envelope_ok)); [done|]. unfold envelope_ok. cbn. split_and!; try done; by destruct t.
Qed.

(** C33: the reconciliation reports, once each, the agents whose compensation was
    opened and not closed.  What the supervisor journals is read as it is meant: its
    opening and closing entries are marks of their target.  An agent with more
    openings than closings is always reported; and when the index gives its marks in
    the order they were made, with no closing before its opening, it is reported
    exactly if it has more openings than closings.  In any order, what counts is what
    a run over the index leaves open, where a closing ends an opening read before it.
    So a closing that the index gives before its opening ends nothing, and the agent
    of this completed compensation is reported as incomplete. *)
Theorem check_compensation_journal_spec log :
  NoDup (check_compensation_journal log)
  ∧ (∀ ts us target sq outcome, is_u64 us → length target = 16 →
       entry_mark (Sched.scheduler_entry CompensationOpen ts us (target ++ zeros 32)) = Some (true, target)
       ∧ entry_mark (Sched.scheduler_entry CompensationClose ts us (target ++ le_bytes 8 sq ++ [outcome]))
         = Some (false, target))
  ∧ (∀ a, closes a (journal log) < opens a (journal log) → a ∈ check_compensation_journal log)
  ∧ (∀ a, in_order a (journal log) →
       a ∈ check_compensation_journal log ↔ closes a (journal log) < opens a (journal log))
  ∧ (∀ a, a ∈ check_compensation_journal log ↔ 0 < pending a (journal log))
  ∧ (∀ log' target, pending target (journal log) = 0 → journal log' = journal log ++ [(false, target); (true, target)] →
       target ∉ check_compensation_journal log ∧ target ∈ check_compensation_journal log').
Proof.
  destruct (check_journal log) as [H1 H2]. split; [done|]. split; [|split; [|split; [|split; [done|]]]].
  - intros ts us target sq outcome Hus Ht. split.
    + rewrite scheduler_mark; [|done|by rewrite length_app, Ht]. unfold journal_mark. cbn [env_payload env_emit_type envelope_new].
      rewrite decide_True by (rewrite length_app; lia). cbn. by rewrite (take_app_length' target).
    + rewrite scheduler_mark; [|done|by rewrite !length_app, length_le_bytes, Ht].
      unfold journal_mark. cbn [env_payload env_emit_type envelope_new].
      rewrite decide_True by (rewrite length_app; lia). cbn. by rewrite (take_app_length' target).
  - intros a Ha. apply H2. pose proof (proj1 (pending_counts a (journal log))). lia.
  - intros a Ho. rewrite H2. pose proof (proj2 (pending_counts a (journal log)) Ho). lia.
  - intros log' target Hz E. split; [rewrite H2; lia|]. apply check_journal. rewrite E, pending_app, Hz. cbn. rewrite decide_True by done. lia.
Qed.

End journal_claim.

(** ** Reading a payload *)

Lemma u8_at_Some p i : i < length p → ∃ v, u8_at p i = Some v.
Proof. intros [b Hb]%lookup_lt_is_Some. unfold u8_at. rewrite Hb. eauto. Qed.
Lemma slice_Some p a b : a ≤ b → b ≤ length p → ∃ v, slice p a b = Some v.
Proof. intros ??. unfold slice. rewrite decide_True by lia. eauto. Qed.
Lemma le_at_Some p a n : a + n ≤ length p → ∃ v, le_at p a n = Some v.
Proof. intros H. unfold le_at. destruct (slice_Some p a (a + n)) as [v ->]; [lia..|]. cbn. eauto. Qed.

Lemma slice_mid (x y z : bytes) a b : a = length x → b = length x + length y → slice (x ++ y ++ z) a b = Some y.
Proof.
  intros -> ->. unfold slice. rewrite decide_True by (rewrite !length_app; lia).
  rewrite drop_app_length. f_equal. replace (length x + length y - length x) with (length y) by lia.
  apply take_app_length.
Qed.
Lemma le_mid (x z : bytes) n v a :
  a = length x → (0 ≤ v < 256 ^ Z.of_nat n)%Z → le_at (x ++ le_bytes n v ++ z) a n = Some v.
Proof.
  intros -> Hv. unfold le_at. rewrite (slice_mid x (le_bytes n v) z) by (rewrite ?length_le_bytes; done).
  cbn. by rewrite of_le_bytes_small.
Qed.
Lemma u8_mid (x z : bytes) c i : i = length x → u8_at (x ++ c :: z) i = Some (b2z c).
Proof. intros ->. unfold u8_at. by rewrite list_lookup_middle. Qed.

(** Performs the reads that are within bounds, one by one. *)
Ltac read_step :=
  match goal with
  | |- context [u8_at ?p ?i] => destruct (u8_at_Some p i) as [? ->]; [lia|]
  | |- context [le_at ?p ?i ?n] => destruct (le_at_Some p i n) as [? ->]; [lia|]
  | |- context [slice ?p ?a ?b] => destruct (slice_Some p a b) as [? ->]; [lia..|]
  | |- context [decide ?P] => destruct (decide P)
  end; cbn [mbind option_bind fmap option_fmap option_map].
Ltac reads := repeat read_step; try done.

Section panics.
Context `{Hex, DebugFormat}.

(** The one shape of payload the tool cannot print: it reads as an aggregate of
    denials, and ends before the byte of the permissions of an aggregate. *)
Definition short_aggregate (p : bytes) : Prop :=
  26 ≤ length p < 29 ∧ ∃ n, u8_at p 24 = Some n ∧ 25 + Z.to_nat n + 2 ≤ length p
    ∧ u8_at p (25 + Z.to_nat n + 1) = Some 1%Z.

Lemma repr_or_none_Some p a b : a + 8 ≤ b → b ≤ length p → ∃ v, repr_or_none p a b = Some v.
Proof. intros ??. unfold repr_or_none. reads. destruct (forallb _ _); [by eexists|]. reads. by eexists. Qed.
Lemma lifecycle_total p : summarize_lifecycle p ≠ None.
Proof.
  unfold summarize_lifecycle. destruct (decide (p = [])) as [|Hp]; [done|].
  assert (0 < length p) by (destruct p; [done|cbn; lia]). read_step.
  destruct (state_name _); [|done]. destruct (decide _) as [[]|]; reads. by destruct (profile_name _).
Qed.
Lemma infer_request_total p : summarize_infer_request p ≠ None.
Proof. unfold summarize_infer_request. reads. destruct (class_name _); [|done]. reads. Qed.
Lemma cancelled_total p : summarize_infer_cancelled p ≠ None.
Proof.
  unfold summarize_infer_cancelled. reads.
  match goal with |- context [match ?v with _ => _ end] => generalize v; clear end.
  intros [|[[]|[]|]|]; done.
Qed.
Lemma crash_total p : summarize_crash p ≠ None.
Proof.
  unfold summarize_crash. destruct (decide _); [done|]. read_step. destruct (crash_name _); [|done].
  destruct (repr_or_none_Some p 1 17) as [? ->]; [lia..|]. cbn.
  by destruct (repr_or_none_Some p 17 49) as [? ->]; [lia..|].
Qed.
Lemma denied_None p : summarize_denied p = None ↔ short_aggregate p.
Proof.
  unfold summarize_denied, short_aggregate. destruct (decide (length p < 25)); [split; [done|lia]|].
  destruct (le_at_Some p 16 8) as [? ->]; [lia|]. cbn [mbind option_bind].
  destruct (decide (26 ≤ length p)); [|split; [done|lia]].
  destruct (u8_at_Some p 24) as [rl Hrl]; [lia|]. rewrite Hrl. cbn [mbind option_bind].
  assert (∀ P : Z → Prop, (∃ m, Some rl = Some m ∧ P m) ↔ P rl) as Hex by naive_solver. rewrite Hex.
  destruct (decide (25 + Z.to_nat rl + 2 ≤ length p)); [|split; [done|lia]].
  destruct (u8_at_Some p (25 + Z.to_nat rl + 1)) as [v Hv]; [lia|]. rewrite Hv. cbn [mbind option_bind].
  destruct (decide (v = 1%Z)) as [->|].
  - destruct (le_at p 24 4) as [c|] eqn:Ec; cbn [mbind option_bind].
    + destruct (decide (29 ≤ length p)); [reads; split; [done|lia]|].
      unfold u8_at at 1. rewrite lookup_ge_None_2 by lia. cbn. split; [|done].
      intros _. split_and!; try done; lia.
    + split; [|done]. intros _. unfold le_at, slice in Ec. case_decide; [done|]. split_and!; try done; lia.
  - reads. split; [done|]. intros (_ & _ & [=]). done.
Qed.

(** The tool prints any payload of any kind, except a payload of
    CapabilityDenied of 26 to 28 bytes that reads as an aggregate: it is too
    short to hold the permissions of one, and the index is out of bounds. *)
Theorem summarize_panics t p :
  summarize t p = None ↔ t = Log.emit_u8 CapabilityDenied ∧ short_aggregate p.
Proof.
  destruct (try_from t) as [k|u] eqn:Et; cycle 1.
  { unfold summarize. rewrite Et. split; [done|]. intros [-> _]. by vm_compute in Et. }
  apply emit_type_codec in Et as Ht. subst t.
  transitivity (k = CapabilityDenied ∧ short_aggregate p); [|split; intros [Hk ?]; (split; [|done]); by destruct k].
  unfold summarize. rewrite Et. pose proof (lifecycle_total p). pose proof (infer_request_total p).
  pose proof (cancelled_total p). pose proof (crash_total p). pose proof (denied_None p).
  destruct k; try (split; [intros Hn; exfalso; revert Hn|by intros [? _]]); try done; try tauto.
  - unfold summarize_introspect. reads.
  - unfold summarize_self_rollback. reads.
  - by destruct p.
  - by destruct p.
  - unfold summarize_rollback. reads.
  - unfold summarize_infer_response. reads.
  - unfold summarize_infer_failed. reads.
  - unfold summarize_compensation. reads.
  - unfold summarize_compensation. reads.
Qed.

End panics.
(** ** The payloads of the runtime *)

Section written.
Context `{R : RocksDB, BH : Bincode Store.SnapshotHeader, BE : Bincode LogEntry} `{Hex, DebugFormat}.

Definition lifecycle_name (l : LifecycleState) : string :=
  match l with
  | Spawned => "Spawned" | Active => "Active" | Suspended => "Suspended" | Checkpointed => "Checkpointed"
  | Terminated => "Terminated" | AwaitingValidation => "AwaitingValidation" | WaitingInference => "WaitingInference"
  end.
Definition watchdog_name (p : AgentProfile) : string :=
  match p with Algo => "Algo" | LlmShort => "LlmShort" | LlmLong => "LlmLong" | Batch => "Batch" end.
Definition cause_name (c : CrashCause) : string :=
  match c with
  | ProcessFailed => "ProcessFailed" | ContentStoreBroken => "ContentStoreBroken"
  | WatchdogTrap => "WatchdogTrap" | HostPanic => "HostPanic"
  end.
(** The start of an identifier, or [none] for an absent or a zero one. *)
Definition short_or_none (i : option bytes) : string :=
  match i with
  | Some i => if forallb (λ b, bool_decide (b2z b = 0%Z)) i then "none" else hex_encode (take 8 i) +:+ "..."
  | None => "none"
  end.
Definition verdict_label (v : ValidationVerdict) : string :=
  match v with Approved => "Approved" | Rejected => "Rejected" | Timeout => "Timeout" | Cancelled => "Unknown(3)" end.

Lemma le_at_eq p a n v x z :
  p = x ++ le_bytes n v ++ z → a = length x → (0 ≤ v < 256 ^ Z.of_nat n)%Z → le_at p a n = Some v.
Proof. intros ->. apply le_mid. Qed.
Lemma u8_at_eq p i c x z : p = x ++ c :: z → i = length x → u8_at p i = Some (b2z c).
Proof. intros ->. apply u8_mid. Qed.
Lemma string_app_nil (a : string) : a +:+ "" = a.
Proof. induction a as [|x a IH]; [done|exact (f_equal (String x) IH)]. Qed.
(** The profile that ends the payload of a birth. *)
Definition spawn_tail (st : LifecycleState) (s : AgentState) : bytes :=
  if decide (st = Spawned) then [z2b (profile_u8 (agent_profile s))] else [].
Lemma slice_eq p a b (x y z : bytes) :
  p = x ++ y ++ z → a = length x → b = length x + length y → slice p a b = Some y.
Proof. intros ->. apply slice_mid. Qed.
Lemma repr_mid p a b (x y z : bytes) :
  p = x ++ y ++ z → a = length x → b = length x + length y → 8 ≤ length y →
  repr_or_none p a b = Some (short_or_none (Some y)).
Proof.
  intros -> Ha Hb Hy. unfold repr_or_none, short_or_none. rewrite (slice_mid x y z a b) by done.
  cbn [mbind option_bind]. destruct (forallb _ y); [done|].
  rewrite <-(take_drop 8 y) at 1. rewrite <-(app_assoc (take 8 y)).
  by rewrite (slice_mid x (take 8 y)) by (rewrite ?length_take; lia).
Qed.
Lemma summarize_lifecycle_written st s :
  is_u64 (seq s) →
  summarize_lifecycle (lifecycle_payload st s)
    = Some ("state=" +:+ lifecycle_name st +:+ " seq=" +:+ dec (seq s)
            +:+ (if decide (st = Spawned) then " profile=" +:+ watchdog_name (agent_profile s) else "")).
Proof.
  intros Hs. unfold summarize_lifecycle. rewrite decide_False by done.
  rewrite (u8_at_eq _ 0 (z2b (lifecycle_u8 st)) [] (le_bytes 8 (seq s) ++ spawn_tail st s)) by done.
  cbn [mbind option_bind].
  rewrite b2z_z2b. assert (state_name (lifecycle_u8 st `mod` 256) = Some (lifecycle_name st)) as -> by by destruct st.
  assert (length (lifecycle_payload st s) = 9 + length (spawn_tail st s)) as Hl.
  { unfold lifecycle_payload. by rewrite length_cons, length_app, length_le_bytes. }
  rewrite (le_at_eq _ 1 8 (seq s) [z2b (lifecycle_u8 st)] (spawn_tail st s)) by done. cbn [mbind option_bind].
  unfold spawn_tail in Hl. destruct (decide (st = Spawned)) as [->|Hst].
  - rewrite decide_True by (rewrite Hl; cbn; done).
    rewrite (u8_at_eq _ 9 (z2b (profile_u8 (agent_profile s))) (z2b 0 :: le_bytes 8 (seq s)) []) by done.
    cbn [mbind option_bind]. rewrite b2z_z2b.
    assert (∀ w, profile_name (profile_u8 w `mod` 256) = Some (watchdog_name w)) as -> by by intros [].
    by rewrite !Caps.string_app_assoc.
  - rewrite decide_False by (intros [E _]; by destruct st). rewrite decide_True by (rewrite Hl; cbn; lia).
    by rewrite string_app_nil.
Qed.
Lemma summarize_crash_written c s :
  (∀ i, parent_agent_id s = Some i → length i = 16) → (∀ i, last_action s = Some i → length i = 32) →
  summarize_crash (crash_payload c s)
    = Some ("cause=" +:+ cause_name c +:+ " parent=" +:+ short_or_none (parent_agent_id s)
            +:+ " last_action=" +:+ short_or_none (last_action s)).
Proof.
  intros Hp Ha. unfold summarize_crash, crash_payload.
  set (par := default (zeros 16) (parent_agent_id s)). set (act := default (zeros 32) (last_action s)).
  assert (length par = 16) as Lp by (subst par; destruct (parent_agent_id s); cbn; auto).
  assert (length act = 32) as La by (subst act; destruct (last_action s); cbn; auto).
  rewrite decide_False by (cbn; rewrite length_app; lia).
  rewrite (u8_at_eq _ 0 (z2b (crash_u8 c)) [] (par ++ act)) by done. cbn [mbind option_bind]. rewrite b2z_z2b.
  assert (crash_name (crash_u8 c `mod` 256) = Some (cause_name c)) as -> by by destruct c.
  rewrite (repr_mid _ 1 17 [z2b (crash_u8 c)] par act) by (done || cbn; lia). cbn [mbind option_bind].
  rewrite (repr_mid _ 17 49 (z2b (crash_u8 c) :: par) act []) by (rewrite ?app_nil_r; done || cbn; lia). cbn [mbind option_bind].
  subst par act. by destruct (parent_agent_id s), (last_action s).
Qed.

Lemma summarize_self_rollback_written d t :
  (0 ≤ d < 256)%Z → is_u64 t →
  summarize_self_rollback (rollback_payload d t) = Some ("depth=" +:+ dec d +:+ " target_seq=" +:+ dec t).
Proof.
  intros Hd Ht. unfold summarize_self_rollback. rewrite decide_True by done.
  rewrite (u8_at_eq _ 0 (z2b d) [] (le_bytes 8 t)) by done. cbn [mbind option_bind].
  rewrite (le_at_eq _ 1 8 t [z2b d] []) by (rewrite ?app_nil_r; done). cbn [mbind option_bind].
  by rewrite b2z_z2b, Z.mod_small.
Qed.
Lemma summarize_rollback_written d t n :
  (0 ≤ d < 256)%Z → is_u64 t → (0 ≤ n < 256)%Z →
  summarize_rollback (scheduler_rollback_payload d t n)
    = Some ("distance=" +:+ dec d +:+ " target_seq=" +:+ dec t +:+ " caps_invalidated=" +:+ dec n).
Proof.
  intros Hd Ht Hn. unfold summarize_rollback. rewrite decide_True by done.
  rewrite (u8_at_eq _ 0 (z2b d) [] (le_bytes 8 t ++ [z2b n])) by done. cbn [mbind option_bind].
  rewrite (le_at_eq _ 1 8 t [z2b d] [z2b n]) by done. cbn [mbind option_bind].
  rewrite (u8_at_eq _ 9 (z2b n) (z2b d :: le_bytes 8 t) []) by done. cbn [mbind option_bind].
  by rewrite !b2z_z2b, !Z.mod_small.
Qed.
Lemma summarize_cancelled_written t :
  is_u64 t → summarize_infer_cancelled (cancelled_payload t) = Some ("cancel_ts=" +:+ dec t +:+ "ms cause=Rollback").
Proof.
  intros Ht. unfold summarize_infer_cancelled. rewrite decide_True by done.
  rewrite (le_at_eq _ 0 8 t [] [Byte.x01]) by done. cbn [mbind option_bind].
  by rewrite (u8_at_eq _ 8 Byte.x01 (le_bytes 8 t) []) by done.
Qed.
Lemma summarize_failed_written e :
  let mb := list_byte_of_string (failure_of e).2 in
  summarize_infer_failed (failed_payload e)
    = Some ("error_code=" +:+ hex_u8 ((failure_of e).1 `mod` 256) +:+ " msg="
            +:+ debug_str (Fleet.from_utf8_lossy (take 255 mb))).
Proof.
  intros mb. unfold summarize_infer_failed, failed_payload. fold mb.
  set (ml := length mb `min` 255). rewrite decide_True by (cbn; lia).
  rewrite (u8_at_eq _ 0 (z2b (failure_of e).1) [] (z2b (Z.of_nat ml) :: take ml mb)) by done.
  cbn [mbind option_bind].
  rewrite (u8_at_eq _ 1 (z2b (Z.of_nat ml)) [z2b (failure_of e).1] (take ml mb)) by done.
  cbn [mbind option_bind]. rewrite !b2z_z2b, (Z.mod_small (Z.of_nat ml)), Nat2Z.id by lia.
  assert (length (take ml mb) = ml) as Hl by (rewrite length_take; lia).
  rewrite decide_True by (cbn; lia).
  rewrite (slice_eq _ 2 (2 + ml) [z2b (failure_of e).1; z2b (Z.of_nat ml)] (take ml mb) [])
    by (rewrite ?app_nil_r, ?Hl; done).
  cbn. replace (take ml mb) with (take 255 mb); [done|].
  destruct (decide (length mb ≤ 255)); [by rewrite !take_ge by lia|]. by replace ml with 255 by lia.
Qed.

(** What is shown of the admission of an inference. *)
Definition class_label (c : Queue.PriorityClass) : string :=
  match c with Queue.Supervisor => "Supervisor" | Queue.Foreground => "Foreground" | Queue.Batch => "Batch" end.
Definition slot_label (info : option Queue.SlotAcquiredInfo) : string :=
  match info with
  | None => ""
  | Some si => " priority=" +:+ class_label (Queue.priority_class si)
      +:+ " qdepth=" +:+ dec (Queue.queue_depth_at_admission si)
      +:+ " promoted=" +:+ from_option (λ c, "from=" +:+ class_label c) "none" (Queue.promoted_from si)
  end.
Definition slot_ok (info : option Queue.SlotAcquiredInfo) : Prop :=
  if info is Some si then (0 ≤ Queue.queue_depth_at_admission si < 2 ^ 16)%Z else True.
Lemma summarize_request_written `{S256 : Sha256, !Sha256Laws S256} prompt req eff info :
  (0 ≤ req < 2 ^ 32)%Z → (0 ≤ eff < 2 ^ 32)%Z → slot_ok info →
  summarize_infer_request (request_payload prompt req eff info)
    = Some ("model=sleepy timeout_req=" +:+ dec req +:+ "ms timeout_eff=" +:+ dec eff +:+ "ms" +:+ slot_label info).
Proof.
  intros Hr He Hi. unfold summarize_infer_request, request_payload.
  set (model := list_byte_of_string "sleepy"). pose proof (sha256_len prompt) as Hs. set (h := sha256 prompt) in *.
  assert (length model = 6) as Lm by done.
  match goal with |- context [u8_at ?x 32] => set (p := x) end.
  assert (length p = 47 + length (from_option slot_bytes [] info)) as Hp.
  { subst p. rewrite length_app, length_cons, !length_app, !length_le_bytes. lia. }
  rewrite decide_True by lia.
  rewrite (u8_at_eq p 32 (z2b (Z.of_nat (length model))) h
    (model ++ le_bytes 4 req ++ le_bytes 4 eff ++ from_option slot_bytes [] info)) by done.
  cbn [mbind option_bind]. rewrite Lm, b2z_z2b. change (Z.to_nat (Z.of_nat 6 `mod` 256)) with 6.
  rewrite decide_True by lia. set (pre := h ++ [z2b (Z.of_nat (length model))]).
  assert (length pre = 33) as Lpre by (subst pre; rewrite length_app; cbn; lia).
  assert (p = pre ++ model ++ le_bytes 4 req ++ le_bytes 4 eff ++ from_option slot_bytes [] info) as Ep.
  { subst p pre. by rewrite <-app_assoc. }
  rewrite (le_at_eq p (33 + 6) 4 req (pre ++ model) (le_bytes 4 eff ++ from_option slot_bytes [] info))
    by (rewrite ?length_app, ?Ep, <-?app_assoc; done || lia). cbn [mbind option_bind].
  rewrite (le_at_eq p (33 + 6 + 4) 4 eff (pre ++ model ++ le_bytes 4 req) (from_option slot_bytes [] info))
    by (rewrite ?length_app, ?length_le_bytes, ?Ep, <-?app_assoc; done || lia). cbn [mbind option_bind].
  rewrite (slice_eq p 33 (33 + 6) pre model (le_bytes 4 req ++ le_bytes 4 eff ++ from_option slot_bytes [] info))
    by (done || lia). cbn [mbind option_bind]. change (lossy model) with "sleepy".
  destruct info as [si|]; cbn [from_option slot_label] in *.
  2: { rewrite decide_False by (cbn in Hp; lia). done. }
  destruct si as [c q promo]. unfold slot_bytes in *. cbn [Queue.priority_class Queue.queue_depth_at_admission
    Queue.promoted_from slot_ok] in *. rewrite length_cons, length_app, length_le_bytes in Hp. cbn in Hp.
  set (last := z2b (from_option class_u8 0xFF%Z promo)) in *.
  set (body := pre ++ model ++ le_bytes 4 req ++ le_bytes 4 eff).
  assert (length body = 47) as Lbody by (subst body; rewrite !length_app, !length_le_bytes; lia).
  assert (p = body ++ z2b (class_u8 c) :: le_bytes 2 q ++ [last]) as Eb.
  { rewrite Ep. subst body. by rewrite <-!app_assoc. }
  rewrite decide_True by lia.
  rewrite (u8_at_eq p (33 + 6 + 8) (z2b (class_u8 c)) body (le_bytes 2 q ++ [last])) by (done || lia).
  cbn [mbind option_bind]. rewrite b2z_z2b.
  assert (class_name (class_u8 c `mod` 256) = Some (class_label c)) as -> by by destruct c.
  rewrite (le_at_eq p (33 + 6 + 9) 2 q (body ++ [z2b (class_u8 c)]) [last]);
    [|by rewrite Eb, <-app_assoc|by rewrite length_app, Lbody|done]. cbn [mbind option_bind].
  rewrite (u8_at_eq p (33 + 6 + 11) last (body ++ z2b (class_u8 c) :: le_bytes 2 q) []);
    [|by rewrite Eb, <-app_assoc|by rewrite length_app, Lbody, length_cons, length_le_bytes].
  cbn [mbind option_bind]. subst last. rewrite b2z_z2b.
  assert (promoted_name (from_option class_u8 255%Z promo `mod` 256)%Z
          = from_option (λ c, "from=" +:+ class_label c) "none" promo) as -> by by destruct promo as [[]|].
  by rewrite !Caps.string_app_assoc.
Qed.
Lemma summarize_response_written `{S256 : Sha256, !Sha256Laws S256} text ms (tr : bool) :
  (0 ≤ ms < 2 ^ 32)%Z →
  summarize_infer_response (response_payload text ms tr)
    = Some ("tokens~=0 duration=" +:+ dec ms +:+ "ms truncated=" +:+ (if tr then "1" else "0")).
Proof.
  intros Hm. unfold summarize_infer_response, response_payload. pose proof (sha256_len text) as Hs.
  set (h := sha256 text) in *. set (last := if tr then Byte.x01 else Byte.x00).
  match goal with |- context [le_at ?x 32 4] => set (p := x) end.
  assert (length p = 41) as Hp by (subst p; rewrite !length_app, !length_le_bytes; cbn; lia).
  rewrite decide_True by lia.
  rewrite (le_at_eq p 32 4 0 h (le_bytes 4 ms ++ [last])) by done. cbn [mbind option_bind].
  rewrite (le_at_eq p 36 4 ms (h ++ le_bytes 4 0) [last])
    by (rewrite ?length_app, ?length_le_bytes, <-?app_assoc; done || lia). cbn [mbind option_bind].
  rewrite (u8_at_eq p 40 last (h ++ le_bytes 4 0 ++ le_bytes 4 ms) [])
    by (rewrite ?length_app, ?length_le_bytes, <-?app_assoc; done || lia). cbn [mbind option_bind].
  by destruct tr.
Qed.

Lemma summarize_denied_written s cap resource perm :
  let rb := list_byte_of_string resource in
  length (id s) = 16 → is_u64 cap → (0 ≤ perm < 256)%Z →
  summarize_denied (denied_payload s cap resource perm false 0)
    = Some ("cap_id=" +:+ dec cap +:+ " resource=" +:+ debug_str (Fleet.from_utf8_lossy (take 255 rb))
            +:+ " denied=" +:+ perm_names perm).
Proof.
  intros rb Hid Hc Hp. unfold summarize_denied, denied_payload. fold rb.
  set (rl := length rb `min` 255). set (res := take rl rb).
  assert (length res = rl) as Lr by (subst res; rewrite length_take; lia).
  set (pre := id s ++ le_bytes 8 cap).
  assert (length pre = 24) as Lpre by (subst pre; rewrite length_app, length_le_bytes; lia).
  match goal with |- context [le_at ?x 16 8] => set (p := x) end.
  assert (p = pre ++ z2b (Z.of_nat rl) :: res ++ [z2b perm; Byte.x00]) as Ep by (subst p pre; by rewrite <-app_assoc).
  assert (length p = 27 + rl) as Lp by (rewrite Ep, length_app, length_cons, length_app; cbn; lia).
  rewrite decide_False by lia.
  rewrite (le_at_eq p 16 8 cap (id s) (z2b (Z.of_nat rl) :: res ++ [z2b perm; Byte.x00])) by done.
  cbn [mbind option_bind]. rewrite decide_True by lia.
  rewrite (u8_at_eq p 24 (z2b (Z.of_nat rl)) pre (res ++ [z2b perm; Byte.x00])) by done.
  cbn [mbind option_bind]. rewrite b2z_z2b, Z.mod_small, Nat2Z.id by lia. rewrite decide_True by lia.
  rewrite (u8_at_eq p (25 + rl + 1) Byte.x00 (pre ++ z2b (Z.of_nat rl) :: res ++ [z2b perm]) []);
    [|by rewrite Ep, <-app_assoc; cbn; rewrite <-app_assoc|rewrite length_app, length_cons, length_app; cbn; lia].
  cbn [mbind option_bind]. rewrite decide_False by done.
  rewrite (slice_eq p 25 (25 + rl) (pre ++ [z2b (Z.of_nat rl)]) res [z2b perm; Byte.x00]);
    [|by rewrite Ep, <-app_assoc|rewrite length_app; cbn; lia|rewrite length_app; cbn; lia].
  cbn [mbind option_bind].
  rewrite (u8_at_eq p (25 + rl) (z2b perm) (pre ++ z2b (Z.of_nat rl) :: res) [Byte.x00]);
    [|by rewrite Ep, <-app_assoc|rewrite length_app, length_cons; lia].
  cbn [mbind option_bind]. rewrite b2z_z2b, Z.mod_small by done.
  replace res with (take 255 rb); [done|]. subst res.
  destruct (decide (length rb ≤ 255)); [by rewrite !take_ge by lia|]. by replace rl with 255 by lia.
Qed.
(** An aggregate of denials is read with the low byte of its count as the
    length of a resource: it is recognised for the counts of low byte 3. *)
Lemma summarize_aggregate_written s cap resource perm count :
  length (id s) = 16 → is_u64 cap → (0 ≤ perm < 256)%Z → (0 ≤ count < 2 ^ 32)%Z → (3 ≤ count `mod` 256)%Z →
  summarize_denied (denied_payload s cap resource perm true count)
    = Some (if decide (count `mod` 256 = 3)%Z
            then "cap_id=" +:+ dec cap +:+ " [RATE_LIMITED count=" +:+ dec count +:+ " perm=" +:+ hex_u8 perm +:+ "]"
            else "cap_id=" +:+ dec cap +:+ " (payload court 30 bytes)").
Proof.
  intros Hid Hc Hp Hn Hlow. unfold summarize_denied, denied_payload.
  set (pre := id s ++ le_bytes 8 cap).
  assert (length pre = 24) as Lpre by (subst pre; rewrite length_app, length_le_bytes; lia).
  match goal with |- context [le_at ?x 16 8] => set (p := x) end.
  assert (p = pre ++ le_bytes 4 count ++ [z2b perm; Byte.x01]) as Ep by (subst p pre; by rewrite <-app_assoc).
  assert (length p = 30) as Lp by (rewrite Ep, !length_app, length_le_bytes; cbn; lia).
  rewrite decide_False by lia.
  rewrite (le_at_eq p 16 8 cap (id s) (le_bytes 4 count ++ [z2b perm; Byte.x01])) by done.
  cbn [mbind option_bind]. rewrite decide_True by lia.
  assert (u8_at p 24 = Some (count `mod` 256)%Z) as ->.
  { destruct (le_bytes 4 count) as [|c0 rest] eqn:El; [apply (f_equal length) in El; by rewrite length_le_bytes in El|].
    rewrite (u8_at_eq p 24 c0 pre (rest ++ [z2b perm; Byte.x01])) by done.
    unfold le_bytes in El. cbn [be_bytes] in El. injection El as <- _. by rewrite b2z_z2b, Z.div_1_r. }
  cbn [mbind option_bind]. destruct (decide (count `mod` 256 = 3)%Z) as [->|Hne].
  - rewrite decide_True by (rewrite Lp; cbn; lia).
    rewrite (u8_at_eq p (25 + Z.to_nat 3 + 1) Byte.x01 (pre ++ le_bytes 4 count ++ [z2b perm]) []);
      [|by rewrite Ep, <-!app_assoc|rewrite !length_app, length_le_bytes, Lpre; done].
    cbn [mbind option_bind]. rewrite decide_True by done.
    rewrite (le_at_eq p 24 4 count pre [z2b perm; Byte.x01]) by done. cbn [mbind option_bind].
    rewrite (u8_at_eq p 28 (z2b perm) (pre ++ le_bytes 4 count) [Byte.x01]);
      [|by rewrite Ep, <-app_assoc|by rewrite length_app, length_le_bytes, Lpre].
    cbn [mbind option_bind]. by rewrite b2z_z2b, Z.mod_small.
  - pose proof (Z.mod_pos_bound count 256). rewrite decide_False by lia. unfold len_of. by rewrite Lp.
Qed.

(** The tool reads what the runtime writes: for the payload of every
    event of the lifecycle, of a crash, of a rollback, of a verdict, of an
    inference and of a denied access, the summary shows the values the runtime
    put in it.  Two kinds are not shown as they are meant: a cancelled verdict
    has no name, and an aggregate of denials is recognised only when the low
    byte of its count is 3, and called too short above. *)
Theorem host_payloads_readable `{S256 : Sha256, !Sha256Laws S256} s :
  is_u64 (seq s) → length (id s) = 16 →
  (∀ i, parent_agent_id s = Some i → length i = 16) → (∀ i, last_action s = Some i → length i = 32) →
  (∀ st, summarize (emit_u8 Lifecycle) (lifecycle_payload st s)
     = Some ("state=" +:+ lifecycle_name st +:+ " seq=" +:+ dec (seq s)
             +:+ (if decide (st = Spawned) then " profile=" +:+ watchdog_name (agent_profile s) else "")))
  ∧ (∀ c, summarize (emit_u8 AgentCrash) (crash_payload c s)
     = Some ("cause=" +:+ cause_name c +:+ " parent=" +:+ short_or_none (parent_agent_id s)
             +:+ " last_action=" +:+ short_or_none (last_action s)))
  ∧ (∀ d t, (0 ≤ d < 256)%Z → is_u64 t → summarize (emit_u8 Log.SelfRollback) (rollback_payload d t)
     = Some ("depth=" +:+ dec d +:+ " target_seq=" +:+ dec t))
  ∧ (∀ d t n, (0 ≤ d < 256)%Z → is_u64 t → (0 ≤ n < 256)%Z →
     summarize (emit_u8 SchedulerRollback) (scheduler_rollback_payload d t n)
     = Some ("distance=" +:+ dec d +:+ " target_seq=" +:+ dec t +:+ " caps_invalidated=" +:+ dec n))
  ∧ (∀ v, summarize (emit_u8 Log.ValidationResponse) [z2b (verdict_u8 v)] = Some ("verdict=" +:+ verdict_label v))
  ∧ (∀ prompt req eff info, (0 ≤ req < 2 ^ 32)%Z → (0 ≤ eff < 2 ^ 32)%Z → slot_ok info →
     summarize (emit_u8 InferenceRequest) (request_payload prompt req eff info)
     = Some ("model=sleepy timeout_req=" +:+ dec req +:+ "ms timeout_eff=" +:+ dec eff +:+ "ms" +:+ slot_label info))
  ∧ (∀ text ms (tr : bool), (0 ≤ ms < 2 ^ 32)%Z →
     summarize (emit_u8 InferenceResponse) (response_payload text ms tr)
     = Some ("tokens~=0 duration=" +:+ dec ms +:+ "ms truncated=" +:+ (if tr then "1" else "0")))
  ∧ (∀ t, is_u64 t → summarize (emit_u8 InferenceCancelled) (cancelled_payload t)
     = Some ("cancel_ts=" +:+ dec t +:+ "ms cause=Rollback"))
  ∧ (∀ e, summarize (emit_u8 InferenceFailed) (failed_payload e)
     = Some ("error_code=" +:+ hex_u8 ((failure_of e).1 `mod` 256) +:+ " msg="
             +:+ debug_str (Fleet.from_utf8_lossy (take 255 (list_byte_of_string (failure_of e).2)))))
  ∧ (∀ cap resource perm, is_u64 cap → (0 ≤ perm < 256)%Z →
     summarize (emit_u8 CapabilityDenied) (denied_payload s cap resource perm false 0)
     = Some ("cap_id=" +:+ dec cap
             +:+ " resource=" +:+ debug_str (Fleet.from_utf8_lossy (take 255 (list_byte_of_string resource)))
             +:+ " denied=" +:+ perm_names perm))
  ∧ (∀ cap resource perm n, is_u64 cap → (0 ≤ perm < 256)%Z → (0 ≤ n < 2 ^ 32)%Z → (3 ≤ n `mod` 256)%Z →
     summarize (emit_u8 CapabilityDenied) (denied_payload s cap resource perm true n)
     = Some (if decide (n `mod` 256 = 3)%Z
             then "cap_id=" +:+ dec cap +:+ " [RATE_LIMITED count=" +:+ dec n +:+ " perm=" +:+ hex_u8 perm +:+ "]"
             else "cap_id=" +:+ dec cap +:+ " (payload court 30 bytes)")).
Proof.
  intros Hs Hid Hp Ha. split_and!; intros.
  - by apply summarize_lifecycle_written.
  - by apply summarize_crash_written.
  - by apply summarize_self_rollback_written.
  - by apply summarize_rollback_written.
  - by destruct v.
  - by apply summarize_request_written.
  - by apply summarize_response_written.
  - by apply summarize_cancelled_written.
  - apply summarize_failed_written.
  - by apply summarize_denied_written.
  - by apply summarize_aggregate_written.
Qed.

End written.

(** ** Witnesses *)

#[global] Instance mem_envelope_laws : MsgpackLaws EmitEnvelope envelope_ok.
Proof.
  intros [v t a sq us p] (Hv & Ht & Ha & Hs & Hu & _).
  cbn [Log.env_version Log.env_emit_type Log.env_agent_id Log.env_seq Log.env_ts_us Log.env_payload] in *.
  cbn [mp_de mp_ser mem_envelope Log.env_version Log.env_emit_type Log.env_agent_id Log.env_seq Log.env_ts_us Log.env_payload].
  rewrite decide_False by (rewrite !length_app, !length_le_bytes; lia).
  rewrite !b2z_z2b, !Z.mod_small by done. rewrite take_app_length' by done.
  rewrite (drop_app_length' a _ 16) by done.
  rewrite (take_app_length' (le_bytes 8 sq) _ 8) by (by rewrite length_le_bytes).
  rewrite (app_assoc a). rewrite (drop_app_length' (a ++ le_bytes 8 sq) _ 24)
    by (by rewrite length_app, length_le_bytes, Ha).
  rewrite (take_app_length' (le_bytes 8 us) _ 8) by (by rewrite length_le_bytes).
  rewrite (app_assoc (a ++ le_bytes 8 sq)). rewrite (drop_app_length' (_ ++ le_bytes 8 us) p 32)
    by (by rewrite !length_app, !length_le_bytes, Ha).
  by rewrite !of_le_bytes_u64.
Qed.

(** Hexadecimal that keeps the bytes, and strings shown without their quotes. *)
#[local] Instance demo_hex : Hex := {|
  hex_encode := string_of_list_byte; hex_decode s := Some (list_byte_of_string s) |}.
#[local] Instance demo_debug : DebugFormat := string_of_list_byte.

(** A compensation of one agent is complete, that of another was interrupted. *)
Definition demo_other : AgentId := replicate 16 Byte.x42.
Definition demo_journal : db :=
  foldl (λ d e, (Log.append d e).2) Mem.empty_db
    [Sched.scheduler_entry CompensationOpen 1 1 (demo_agent_id ++ zeros 32);
     Sched.scheduler_entry CompensationClose 2 2 (demo_agent_id ++ le_bytes 8 5 ++ [Byte.x00]);
     Sched.scheduler_entry CompensationOpen 3 3 (demo_other ++ zeros 32)].
(** A compensation opened and closed within one millisecond: the index orders the two
    entries by their hashes, here the closing first. *)
Definition demo_same_ms : db :=
  foldl (λ d e, (Log.append d e).2) Mem.empty_db
    [Sched.scheduler_entry CompensationOpen 1 100 (demo_agent_id ++ zeros 32);
     Sched.scheduler_entry CompensationClose 1 101 (demo_agent_id ++ le_bytes 8 5 ++ [Byte.x00])].
Lemma check_compensation_journal_spec_witness :
  demo_other ∈ check_compensation_journal demo_journal ∧ demo_agent_id ∉ check_compensation_journal demo_journal
  ∧ demo_agent_id ∈ check_compensation_journal demo_same_ms.
Proof.
  destruct (check_compensation_journal_spec demo_journal) as (_ & _ & H3 & H4 & _).
  destruct (check_compensation_journal_spec Mem.empty_db) as (_ & _ & _ & _ & _ & H6). split; [|split].
  - apply (H3 demo_other). apply Nat.ltb_lt. vm_compute. reflexivity.
  - intros Hin. assert (in_order demo_agent_id (journal demo_journal)) as Ho.
    { intros k. destruct k as [|[|[|k]]]; apply Nat.leb_le; [vm_compute; reflexivity..|].
      rewrite take_ge; [vm_compute; reflexivity|]. apply Nat.leb_le. vm_compute. reflexivity. }
    apply (proj1 (H4 demo_agent_id Ho)) in Hin. apply Nat.ltb_lt in Hin. revert Hin. vm_compute. discriminate.
  - apply (H6 demo_same_ms demo_agent_id); vm_compute; reflexivity.
Defined.

Lemma host_payloads_readable_witness :
  summarize (emit_u8 AgentCrash) (crash_payload WatchdogTrap Actor.demo_agent)
  = Some "cause=WatchdogTrap parent=none last_action=none".
Proof.
  destruct (host_payloads_readable Actor.demo_agent) as (_ & Hc & _).
  - vm_compute. split; [discriminate|reflexivity].
  - reflexivity.
  - intros i [=].
  - intros i [=].
  - exact (Hc WatchdogTrap).
Defined.


End ReconSpec.
