(* ===== verification/Windows.v ===== *)
(** Windows: ranges of a list of bytes, read and replaced in place.

    Disks, memory pages and shared buffers are lists of bytes; the code reads and
    writes ranges of them by offset and length. *)
From S2P Require Import Prelude.

(** [l] with the bytes from [off] on replaced by [data]. *)
Definition splice (l : bytes) (off : Z) (data : bytes) : bytes :=
  take (Z.to_nat off) l ++ data ++ drop (Z.to_nat off + length data) l.
(** The [n] bytes of [l] from [off] on. *)
Definition extract (l : bytes) (off n : Z) : bytes := take (Z.to_nat n) (drop (Z.to_nat off) l).

Lemma length_extract l a n :
  (0 ≤ a)%Z → (0 ≤ n)%Z → (a + n ≤ Z.of_nat (length l))%Z → Z.of_nat (length (extract l a n)) = n.
Proof. intros. unfold extract. rewrite length_take, length_drop. lia. Qed.
Lemma length_splice l a d :
  (0 ≤ a)%Z → (a + Z.of_nat (length d) ≤ Z.of_nat (length l))%Z → length (splice l a d) = length l.
Proof. intros. unfold splice. rewrite !length_app, length_take, length_drop. lia. Qed.
Lemma extract_extract l a m b n :
  (0 ≤ a)%Z → (0 ≤ b)%Z → (0 ≤ n)%Z → (b + n ≤ m)%Z → extract (extract l a m) b n = extract l (a + b) n.
Proof.
  intros. unfold extract. rewrite Z2Nat.inj_add by lia. rewrite <-drop_drop, skipn_firstn_comm, take_take.
  f_equal. lia.
Qed.
(** A change of a window put back in its place is the change in place. *)
Lemma splice_extract l s m k d :
  (0 ≤ s)%Z → (0 ≤ k)%Z → (k + Z.of_nat (length d) ≤ m)%Z → (s + m ≤ Z.of_nat (length l))%Z →
  splice l s (splice (extract l s m) k d) = splice l (s + k) d.
Proof.
  intros Hs Hk Hm Hl.
  assert (length (splice (extract l s m) k d) = Z.to_nat m) as Hlen.
  { pose proof (length_extract l s m ltac:(lia) ltac:(lia) ltac:(lia)). rewrite length_splice; lia. }
  unfold splice at 1. rewrite Hlen. unfold splice, extract.
  set (s' := Z.to_nat s). set (m' := Z.to_nat m). set (k' := Z.to_nat k).
  replace (Z.to_nat (s + k)) with (s' + k') by lia.
  rewrite take_take, (Nat.min_l k' m') by lia. rewrite skipn_firstn_comm, drop_drop.
  rewrite !app_assoc. rewrite <-(take_take_drop l s' k'), <-!app_assoc. do 3 f_equal.
  rewrite <-(take_drop (m' - (k' + length d)) (drop (s' + k' + length d) l)) at 1.
  rewrite drop_drop. f_equal; [f_equal; f_equal; lia|f_equal; lia].
Qed.


(** What is read back after a replacement: inside, before and after the range. *)
Lemma extract_splice_same l a d :
  (0 ≤ a)%Z → (a + Z.of_nat (length d) ≤ Z.of_nat (length l))%Z →
  extract (splice l a d) a (Z.of_nat (length d)) = d.
Proof.
  intros Ha Hl. unfold extract, splice. rewrite drop_app_length' by (rewrite length_take; lia).
  by rewrite Nat2Z.id, take_app_length.
Qed.
Lemma lookup_splice l a d i :
  (0 ≤ a)%Z → (a + Z.of_nat (length d) ≤ Z.of_nat (length l))%Z →
  splice l a d !! i = if decide (i < Z.to_nat a ∨ Z.to_nat a + length d ≤ i) then l !! i else d !! (i - Z.to_nat a).
Proof.
  intros Ha Hl. unfold splice. destruct (decide (i < Z.to_nat a)) as [Hi|Hi].
  { rewrite decide_True by tauto. rewrite lookup_app_l by (rewrite length_take; lia). by apply lookup_take_lt. }
  rewrite lookup_app_r by (rewrite length_take; lia). rewrite length_take, Nat.min_l by lia.
  destruct (decide (Z.to_nat a + length d ≤ i)) as [Hj|Hj].
  - rewrite decide_True by tauto. rewrite lookup_app_r by lia. rewrite lookup_drop. f_equal. lia.
  - rewrite decide_False by lia. by rewrite lookup_app_l by lia.
Qed.
Lemma take_splice l a d :
  (0 ≤ a)%Z → (a ≤ Z.of_nat (length l))%Z → take (Z.to_nat a) (splice l a d) = take (Z.to_nat a) l.
Proof. intros. unfold splice. by rewrite take_app_length' by (rewrite length_take; lia). Qed.
(** A range written after a prefix extends the prefix. *)
Lemma take_splice_app l a d :
  (0 ≤ a)%Z → (a + Z.of_nat (length d) ≤ Z.of_nat (length l))%Z →
  take (Z.to_nat a + length d) (splice l a d) = take (Z.to_nat a) l ++ d.
Proof.
  intros. unfold splice. rewrite app_assoc. apply take_app_length'. rewrite length_app, length_take. lia.
Qed.

(** An integer read from bytes and written back. *)
Lemma of_be_inj a b : length a = length b → of_be a = of_be b → a = b.
Proof.
  revert b. induction a as [|x a IH]; intros [|y b] Hl E; try done. injection Hl as Hl.
  rewrite !of_be_cons, Hl in E. pose proof (of_be_range a) as Ha. pose proof (of_be_range b) as Hb. rewrite Hl in Ha.
  set (m := (256 ^ Z.of_nat (length b))%Z) in *. assert (b2z x = b2z y) as Exy by nia.
  rewrite (inj b2z _ _ Exy). f_equal. apply IH; [done|nia].
Qed.
Lemma le_bytes_of_le l : le_bytes (length l) (of_le l) = l.
Proof.
  unfold le_bytes, of_le. rewrite <-(length_reverse l). rewrite <-(reverse_involutive l) at 3. f_equal.
  apply of_be_inj; [apply length_be_bytes|]. apply of_be_bytes_small, of_be_range.
Qed.
Lemma of_le_range l : (0 ≤ of_le l < 256 ^ Z.of_nat (length l))%Z.
Proof. unfold of_le. rewrite <-length_reverse. apply of_be_range. Qed.
(** Adjacent ranges. *)
Lemma extract_app l a n m :
  (0 ≤ a)%Z → (0 ≤ n)%Z → (0 ≤ m)%Z → extract l a n ++ extract l (a + n) m = extract l a (n + m).
Proof.
  intros. unfold extract. rewrite !Z2Nat.inj_add by lia. rewrite <-drop_drop. by rewrite take_take_drop.
Qed.
(** A replacement in two parts; an empty one; ranges that do not meet. *)
Lemma splice_nil l a : splice l a [] = l.
Proof. unfold splice. cbn. by rewrite Nat.add_0_r, take_drop. Qed.
Lemma splice_splice_app l a d1 d2 :
  (0 ≤ a)%Z → (a + Z.of_nat (length d1) ≤ Z.of_nat (length l))%Z →
  splice (splice l a d1) (a + Z.of_nat (length d1)) d2 = splice l a (d1 ++ d2).
Proof.
  intros Ha Hl. unfold splice at 1. rewrite Z2Nat.inj_add, Nat2Z.id by lia. rewrite take_splice_app by lia.
  assert (drop (Z.to_nat a + length d1 + length d2) (splice l a d1) = drop (Z.to_nat a + length (d1 ++ d2)) l) as ->.
  { unfold splice. rewrite (app_assoc (take _ _)), drop_app_ge by (rewrite length_app, length_take; lia).
    rewrite drop_drop, !length_app, length_take. f_equal. lia. }
  unfold splice. by rewrite <-!app_assoc.
Qed.
Lemma extract_splice_out l a d b n :
  (0 ≤ a)%Z → (0 ≤ b)%Z → (0 ≤ n)%Z → (a + Z.of_nat (length d) ≤ Z.of_nat (length l))%Z →
  (b + n ≤ a ∨ a + Z.of_nat (length d) ≤ b)%Z → extract (splice l a d) b n = extract l b n.
Proof.
  intros Ha Hb Hn Hl Hout. apply list_eq. intros i. unfold extract.
  destruct (decide (i < Z.to_nat n)) as [Hi|Hi]; [|by rewrite !lookup_take_ge by lia].
  rewrite !lookup_take_lt, !lookup_drop, lookup_splice by lia. by rewrite decide_True by lia.
Qed.
Lemma lookup_extract l a n i :
  (0 ≤ a)%Z → extract l a n !! i = if decide (i < Z.to_nat n) then l !! (Z.to_nat a + i) else None.
Proof.
  intros Ha. unfold extract. case_decide; [by rewrite lookup_take_lt, lookup_drop|by rewrite lookup_take_ge by lia].
Qed.
(** A range of a list in which another range was replaced: the part they share. *)
Lemma extract_splice_overlap l a d b n s e :
  (0 ≤ a)%Z → (0 ≤ b)%Z → (a + Z.of_nat (length d) ≤ Z.of_nat (length l))%Z → (b + n ≤ Z.of_nat (length l))%Z →
  s = Z.max a b → e = Z.min (b + n) (a + Z.of_nat (length d)) → (s < e)%Z →
  extract (splice l a d) b n = splice (extract l b n) (s - b) (extract d (s - a) (e - s)).
Proof.
  intros Ha Hb Hl Hn Es Ee Hse. assert (Z.of_nat (length (extract d (s - a) (e - s))) = e - s)%Z as Hd by (apply length_extract; lia).
  assert (Z.of_nat (length (extract l b n)) = n) as Hx by (apply length_extract; lia).
  apply list_eq. intros i. rewrite lookup_splice by lia. rewrite !lookup_extract by lia. rewrite lookup_splice by lia.
  repeat case_decide; try lia; try done; try (f_equal; lia).
Qed.
