(* ===== verification/Sel4Block.v ===== *)
(** Sel4Block: the storage backend of the store server on seL4.

    Models [BlockStorage] of [poc/sel4-hello/c8-store/server/src/main.rs] and of
    its copies in the later servers ([new_reopen] is that of [c11-untrusted]): a
    byte-addressed storage, as the database wants it, over a disk that reads and
    writes whole sectors.  The driver of the disk is a crate, hence the class
    [BlockDevice]; the heap of the server is static, so that a buffer can be too
    big for it.  [None] is a panic or an abort. *)
From S2P Require Import Prelude Windows.

(** * The disk *)

Definition SECTOR_BYTES : Z := 512.

(** [VirtIOBlk]: [capacity] sectors; the buffer of a request has a length that is
    a multiple of a sector and not 0, else the driver panics. *)
Class BlockDevice := {
  dev : Type;
  dev_err : Type;
  capacity : dev → Z;
  read_blocks : dev → Z → Z → option (result dev_err bytes);
  write_blocks : dev → Z → bytes → option (result dev_err () * dev) }.

(** Documented behaviour: the contents of the disk are the bytes [flat]; a request
    that fails may have written a part of its sectors.  A [healthy] disk answers
    every request within its capacity. *)
Class BlockLaws (B : BlockDevice) := {
  flat : dev → bytes;
  healthy : dev → Prop;
  flat_length d : Z.of_nat (length (flat d)) = (capacity d * SECTOR_BYTES)%Z;
  read_blocks_ok d s n b :
    read_blocks d s n = Some (Ok b) →
    (s * SECTOR_BYTES + n ≤ capacity d * SECTOR_BYTES)%Z ∧ b = extract (flat d) (s * SECTOR_BYTES) n;
  write_blocks_ok d s b d' :
    write_blocks d s b = Some (Ok (), d') →
    (s * SECTOR_BYTES + Z.of_nat (length b) ≤ capacity d * SECTOR_BYTES)%Z
    ∧ flat d' = splice (flat d) (s * SECTOR_BYTES) b;
  write_blocks_err d s b e d' :
    write_blocks d s b = Some (Err e, d') →
    capacity d' = capacity d ∧ ∀ i, (i < s * SECTOR_BYTES ∨ s * SECTOR_BYTES + Z.of_nat (length b) ≤ i)%Z →
    (0 ≤ i)%Z → flat d' !! Z.to_nat i = flat d !! Z.to_nat i;
  healthy_read d s n :
    healthy d → (0 ≤ s)%Z → (0 < n)%Z → (n `mod` SECTOR_BYTES = 0)%Z →
    (s * SECTOR_BYTES + n ≤ capacity d * SECTOR_BYTES)%Z → ∃ b, read_blocks d s n = Some (Ok b);
  healthy_write d s b :
    healthy d → (0 ≤ s)%Z → b ≠ [] → (Z.of_nat (length b) `mod` SECTOR_BYTES = 0)%Z →
    (s * SECTOR_BYTES + Z.of_nat (length b) ≤ capacity d * SECTOR_BYTES)%Z →
    ∃ d', write_blocks d s b = Some (Ok (), d') ∧ healthy d' }.

Module Block.

(** * The backend *)

Section ops.
Context `{B : BlockDevice}.
(** The biggest buffer the heap of the server can hold. *)
Context (heap : Z).

Record BlockStorage := mkStorage { blk : dev; logical_len : Z; capacity_bytes : Z }.

Definition new (blk : dev) : BlockStorage := mkStorage blk 0 (u64 (capacity blk * SECTOR_BYTES)).
Definition new_reopen (blk : dev) : BlockStorage :=
  let capacity_bytes := u64 (capacity blk * SECTOR_BYTES) in mkStorage blk capacity_bytes capacity_bytes.

Inductive IoError := VirtioRead | VirtioReadUnaligned | DisqueFull | VirtioWrite | VirtioRmwRead | VirtioRmwWrite.

(** [buf[a..b]] *)
Definition sub_slice (buf : bytes) (a n : Z) : option bytes :=
  if decide (a + n ≤ Z.of_nat (length buf))%Z then Some (extract buf a n) else None.

Definition len (st : BlockStorage) : Z := logical_len st.

(** The sectors of a range of bytes: the first one, and their number. *)
Definition sectors (offset n : Z) : Z * Z :=
  let sector_start := (offset / SECTOR_BYTES)%Z in
  let end_ := u64 (offset + n) in
  let sector_end := (u64 (end_ + SECTOR_BYTES - 1) / SECTOR_BYTES)%Z in
  (sector_start, u64 (sector_end - sector_start)).
Definition aligned (offset n : Z) : bool :=
  bool_decide (offset `mod` SECTOR_BYTES = 0)%Z && bool_decide (n `mod` SECTOR_BYTES = 0)%Z.

(** [n] is the length of [out]. *)
Definition read (st : BlockStorage) (offset n : Z) : option (result IoError bytes) :=
  if decide (n = 0)%Z then Some (Ok [])
  else
    let '(sector_start, n_sectors) := sectors offset n in
    if aligned offset n then map_err (λ _, VirtioRead) <$> read_blocks (blk st) sector_start n
    else
      let buf_len := u64 (n_sectors * SECTOR_BYTES) in
      if decide (heap < buf_len)%Z then None
      else
        r ← read_blocks (blk st) sector_start buf_len;
        match r with
        | Err _ => Some (Err VirtioReadUnaligned)
        | Ok buf =>
            let skip := u64 (offset - sector_start * SECTOR_BYTES) in
            Ok <$> sub_slice buf skip n
        end.

Definition set_len (st : BlockStorage) (l : Z) : result IoError () * BlockStorage :=
  if decide (capacity_bytes st < l)%Z then (Err DisqueFull, st)
  else (Ok (), mkStorage (blk st) l (capacity_bytes st)).
(** A no-op: an acknowledged commit may not be on the medium. *)
Definition sync_data (st : BlockStorage) : result IoError () := Ok ().

Definition with_blk (st : BlockStorage) (d : dev) : BlockStorage := mkStorage d (logical_len st) (capacity_bytes st).
(** Unaligned data is put in the middle of the sectors it touches, read before. *)
Definition write (st : BlockStorage) (offset : Z) (data : bytes) : option (result IoError () * BlockStorage) :=
  let n := Z.of_nat (length data) in
  if decide (data = []) then Some (Ok (), st)
  else
    let '(sector_start, n_sectors) := sectors offset n in
    if aligned offset n then
      '(r, d) ← write_blocks (blk st) sector_start data;
      Some (map_err (λ _, VirtioWrite) r, with_blk st d)
    else
      let buf_len := u64 (n_sectors * SECTOR_BYTES) in
      if decide (heap < buf_len)%Z then None
      else
        r ← read_blocks (blk st) sector_start buf_len;
        match r with
        | Err _ => Some (Err VirtioRmwRead, st)
        | Ok buf =>
            let skip := u64 (offset - sector_start * SECTOR_BYTES) in
            if decide (skip + n ≤ Z.of_nat (length buf))%Z then
              '(r, d) ← write_blocks (blk st) sector_start (splice buf skip data);
              Some (map_err (λ _, VirtioRmwWrite) r, with_blk st d)
            else None
        end.

(** The requests of the database. *)
Inductive BlockOp := OpLen | OpRead (offset n : Z) | OpSetLen (l : Z) | OpSync | OpWrite (offset : Z) (data : bytes).
Inductive Answer := Value (z : Z) | Bytes (b : bytes) | Done | Fails (e : IoError).
Definition answer (r : result IoError ()) : Answer := match r with Ok _ => Done | Err e => Fails e end.
Definition block_step (st : BlockStorage) (o : BlockOp) : option (Answer * BlockStorage) :=
  match o with
  | OpLen => Some (Value (len st), st)
  | OpRead offset n => r ← read st offset n; Some (match r with Ok b => Bytes b | Err e => Fails e end, st)
  | OpSetLen l => let '(r, st) := set_len st l in Some (answer r, st)
  | OpSync => Some (answer (sync_data st), st)
  | OpWrite offset data => '(r, st) ← write st offset data; Some (answer r, st)
  end.
Fixpoint block_run (st : BlockStorage) (l : list BlockOp) : option (list Answer * BlockStorage) :=
  match l with
  | [] => Some ([], st)
  | o :: l => '(a, st) ← block_step st o; '(rest, st) ← block_run st l; Some (a :: rest, st)
  end.

End ops.

(** * The array of bytes it stands for *)

(** A storage of the bytes [arr_bytes], of which the first [arr_len] are in use. *)
Record Array := mkArray { arr_bytes : bytes; arr_len : Z }.
Definition array_step (a : Array) (o : BlockOp) : Answer * Array :=
  match o with
  | OpLen => (Value (arr_len a), a)
  | OpRead offset n => (Bytes (extract (arr_bytes a) offset n), a)
  | OpSetLen l => if decide (Z.of_nat (length (arr_bytes a)) < l)%Z then (Fails DisqueFull, a) else (Done, mkArray (arr_bytes a) l)
  | OpSync => (Done, a)
  | OpWrite offset data => (Done, mkArray (splice (arr_bytes a) offset data) (arr_len a))
  end.
Fixpoint array_run (a : Array) (l : list BlockOp) : list Answer * Array :=
  match l with
  | [] => ([], a)
  | o :: l => let '(x, a) := array_step a o in let '(rest, a) := array_run a l in (x :: rest, a)
  end.

(** * The file the trait [StorageBackend] describes ([redb-fork/src/db.rs]) *)

(** The trait's reader sees a file: its length is the length of the storage, "if
    [out.len() + offset] exceeds the length of the storage an appropriate error
    must be returned", and "new positions in the storage must be initialized to
    zero".  [None] is a request to which the trait demands an error, or gives no
    meaning (a write beyond the length). *)
Definition resized (f : bytes) (l : Z) : bytes :=
  take (Z.to_nat l) f ++ replicate (Z.to_nat (l - Z.of_nat (length f))) Byte.x00.
Definition file_step (room : Z) (f : bytes) (o : BlockOp) : option (Answer * bytes) :=
  let n := Z.of_nat (length f) in
  match o with
  | OpLen => Some (Value n, f)
  | OpRead offset k => if decide (offset + k ≤ n)%Z then Some (Bytes (extract f offset k), f) else None
  | OpSetLen l => if decide (room < l)%Z then Some (Fails DisqueFull, f) else Some (Done, resized f l)
  | OpSync => Some (Done, f)
  | OpWrite offset data =>
      if decide (offset + Z.of_nat (length data) ≤ n)%Z then Some (Done, splice f offset data) else None
  end.
Fixpoint file_run (room : Z) (f : bytes) (l : list BlockOp) : option (list Answer * bytes) :=
  match l with
  | [] => Some ([], f)
  | o :: l => '(x, f) ← file_step room f o; '(rest, f) ← file_run room f l; Some (x :: rest, f)
  end.

(** The bytes in use, and the requests whose growth finds zeros on the disk. *)
Definition file_of (a : Array) : bytes := take (Z.to_nat (arr_len a)) (arr_bytes a).
Definition grows_over_zeros (a : Array) (o : BlockOp) : Prop :=
  match o with
  | OpSetLen l => let k := (l - arr_len a)%Z in
      extract (arr_bytes a) (arr_len a) k = replicate (Z.to_nat k) Byte.x00 ∨ (Z.of_nat (length (arr_bytes a)) < l)%Z
  | _ => True
  end.
Fixpoint clean_growth (a : Array) (l : list BlockOp) : Prop :=
  match l with [] => True | o :: l => grows_over_zeros a o ∧ clean_growth (array_step a o).2 l end.

(** * The backend behaves as the array *)

Section proofs.
Context `{BL : BlockLaws} (heap : Z).

(** The sectors of a range that lies within a disk of reasonable size. *)
Definition disk_fits (d : dev) : Prop := (capacity d * SECTOR_BYTES < 2 ^ 64 - SECTOR_BYTES)%Z.
Definition reached (st : BlockStorage) : Prop :=
  disk_fits (blk st) ∧ capacity_bytes st = (capacity (blk st) * SECTOR_BYTES)%Z.

Lemma sectors_spec cap offset n :
  (cap * SECTOR_BYTES < 2 ^ 64 - SECTOR_BYTES)%Z → (0 ≤ offset)%Z → (0 < n)%Z → (offset + n ≤ cap * SECTOR_BYTES)%Z →
  ∃ s k, sectors offset n = (s, k) ∧ (0 ≤ s)%Z ∧ (0 < k)%Z
    ∧ (s * SECTOR_BYTES ≤ offset < (s + 1) * SECTOR_BYTES)%Z
    ∧ (offset + n ≤ (s + k) * SECTOR_BYTES)%Z ∧ ((s + k - 1) * SECTOR_BYTES < offset + n)%Z
    ∧ (s + k ≤ cap)%Z.
Proof.
  unfold sectors, SECTOR_BYTES. intros Hc Ho Hn Hr.
  rewrite (wrap_small 64 (offset + n)) by (unfold in_width; lia).
  rewrite (wrap_small 64 (offset + n + 512 - 1)) by (unfold in_width; lia).
  assert (0 ≤ (offset + n + 512 - 1) / 512 - offset / 512 < 2 ^ 64)%Z by (split; [|]; Z.to_euclidean_division_equations; lia).
  rewrite wrap_small by done. eexists _, _. split; [done|].
  Z.to_euclidean_division_equations; lia.
Qed.

Lemma read_spec st offset n :
  healthy (blk st) → reached st → (0 ≤ offset)%Z → (0 ≤ n)%Z → (n + 1024 ≤ heap)%Z →
  (offset + n ≤ capacity_bytes st)%Z → read heap st offset n = Some (Ok (extract (flat (blk st)) offset n)).
Proof.
  intros Hh [Hf Hcap] Ho Hn Hheap Hr. rewrite Hcap in Hr. unfold read.
  destruct (decide (n = 0)%Z) as [->|Hn0]; [done|].
  destruct (sectors_spec (capacity (blk st)) offset n) as (s & k & -> & Hs & Hk & Hlo & Hhi & Hend & Hcs); [done|lia..|].
  unfold aligned. destruct (bool_decide _ && bool_decide _) eqn:Ea.
  - apply andb_prop in Ea as [Ea1%bool_decide_eq_true Ea2%bool_decide_eq_true].
    assert (s * SECTOR_BYTES = offset)%Z as Es by (unfold SECTOR_BYTES in *; Z.to_euclidean_division_equations; lia).
    destruct (healthy_read (blk st) s n) as [b Hb]; [done|lia..|].
    rewrite Hb. cbn. destruct (read_blocks_ok _ _ _ _ Hb) as [_ ->]. by rewrite Es.
  - assert (0 ≤ k * SECTOR_BYTES ≤ n + 1024)%Z by (unfold SECTOR_BYTES in *; lia).
    unfold disk_fits in Hf. rewrite (wrap_small 64 (k * SECTOR_BYTES)) by (unfold in_width, SECTOR_BYTES in *; lia).
    rewrite decide_False by lia.
    destruct (healthy_read (blk st) s (k * SECTOR_BYTES)) as [b Hb]; [done|lia|unfold SECTOR_BYTES; lia|by apply Z.mod_mul|unfold SECTOR_BYTES in *; lia|].
    rewrite Hb. cbn [mbind option_bind]. destruct (read_blocks_ok _ _ _ _ Hb) as [Hin ->].
    rewrite wrap_small by (unfold in_width, SECTOR_BYTES in *; lia).
    pose proof (flat_length (blk st)) as Hl.
    assert (Z.of_nat (length (extract (flat (blk st)) (s * SECTOR_BYTES) (k * SECTOR_BYTES))) = k * SECTOR_BYTES)%Z
      by (apply length_extract; unfold SECTOR_BYTES in *; lia).
    unfold sub_slice. rewrite decide_True by lia. cbn.
    rewrite extract_extract by (unfold SECTOR_BYTES in *; lia). do 3 f_equal. lia.
Qed.

Lemma write_spec st offset data :
  healthy (blk st) → reached st → (0 ≤ offset)%Z → (Z.of_nat (length data) + 1024 ≤ heap)%Z →
  (offset + Z.of_nat (length data) ≤ capacity_bytes st)%Z →
  ∃ d, write heap st offset data = Some (Ok (), with_blk st d) ∧ healthy d ∧ capacity d = capacity (blk st)
       ∧ flat d = splice (flat (blk st)) offset data.
Proof.
  intros Hh [Hf Hcap] Ho Hheap Hr. rewrite Hcap in Hr. unfold write. set (n := Z.of_nat (length data)) in *.
  pose proof (flat_length (blk st)) as Hl.
  assert (∀ d, flat d = splice (flat (blk st)) offset data → capacity d = capacity (blk st)) as Hcd.
  { intros d Hd. pose proof (flat_length d) as Hld. rewrite Hd, length_splice in Hld by lia.
    unfold SECTOR_BYTES in *. lia. }
  destruct (decide (data = [])) as [->|Hd0].
  { exists (blk st). split_and!; try done; [by destruct st|]. unfold splice. cbn. by rewrite Nat.add_0_r, take_drop. }
  assert (0 < n)%Z by (destruct data; [done|cbn in n; lia]).
  destruct (sectors_spec (capacity (blk st)) offset n) as (s & k & -> & Hs & Hk & Hlo & Hhi & Hend & Hcs); [done|lia..|].
  unfold aligned. destruct (bool_decide _ && bool_decide _) eqn:Ea.
  - apply andb_prop in Ea as [Ea1%bool_decide_eq_true Ea2%bool_decide_eq_true].
    assert (s * SECTOR_BYTES = offset)%Z as Es by (unfold SECTOR_BYTES in *; Z.to_euclidean_division_equations; lia).
    destruct (healthy_write (blk st) s data) as (d & Hd & Hhd); [done|lia|done|done|lia|].
    rewrite Hd. cbn. destruct (write_blocks_ok _ _ _ _ Hd) as [_ Hfl]. rewrite Es in Hfl.
    exists d. split_and!; auto.
  - assert (0 ≤ k * SECTOR_BYTES ≤ n + 1024)%Z by (unfold SECTOR_BYTES in *; lia).
    unfold disk_fits in Hf. rewrite (wrap_small 64 (k * SECTOR_BYTES)) by (unfold in_width, SECTOR_BYTES in *; lia).
    rewrite decide_False by lia.
    destruct (healthy_read (blk st) s (k * SECTOR_BYTES)) as [b Hb]; [done|lia|unfold SECTOR_BYTES; lia|by apply Z.mod_mul|unfold SECTOR_BYTES in *; lia|].
    rewrite Hb. cbn [mbind option_bind]. destruct (read_blocks_ok _ _ _ _ Hb) as [Hin ->].
    rewrite wrap_small by (unfold in_width, SECTOR_BYTES in *; lia).
    assert (Z.of_nat (length (extract (flat (blk st)) (s * SECTOR_BYTES) (k * SECTOR_BYTES))) = k * SECTOR_BYTES)%Z
      as Hlen by (apply length_extract; unfold SECTOR_BYTES in *; lia).
    rewrite decide_True by lia.
    set (new := splice _ (offset - s * SECTOR_BYTES) data).
    assert (Z.of_nat (length new) = k * SECTOR_BYTES)%Z as Hnew by (unfold new; rewrite length_splice; lia).
    destruct (healthy_write (blk st) s new) as (d & Hd & Hhd); [done|lia| |rewrite Hnew; by apply Z.mod_mul|unfold SECTOR_BYTES in *; lia|].
    { intros E. rewrite E in Hnew. unfold SECTOR_BYTES in *. cbn in Hnew. lia. }
    rewrite Hd. cbn. destruct (write_blocks_ok _ _ _ _ Hd) as [_ Hfl].
    unfold new in Hfl. rewrite splice_extract in Hfl by lia.
    replace (s * SECTOR_BYTES + (offset - s * SECTOR_BYTES))%Z with offset in Hfl by lia.
    exists d. split_and!; auto.
Qed.

(** The requests the disk and the heap have room for. *)
Definition in_range (cap : Z) (o : BlockOp) : Prop :=
  match o with
  | OpRead offset n => (0 ≤ offset ∧ 0 ≤ n ∧ offset + n ≤ cap ∧ n + 1024 ≤ heap)%Z
  | OpWrite offset data =>
      (0 ≤ offset ∧ offset + Z.of_nat (length data) ≤ cap ∧ Z.of_nat (length data) + 1024 ≤ heap)%Z
  | OpSetLen l => (0 ≤ l)%Z
  | _ => True
  end.
Definition array_of (st : BlockStorage) : Array := mkArray (flat (blk st)) (logical_len st).

Lemma block_step_refines st o :
  healthy (blk st) → reached st → in_range (capacity_bytes st) o →
  ∃ st', block_step heap st o = Some ((array_step (array_of st) o).1, st')
    ∧ array_of st' = (array_step (array_of st) o).2 ∧ healthy (blk st') ∧ reached st' ∧ capacity_bytes st' = capacity_bytes st.
Proof.
  intros Hh Hr Ho. pose proof (flat_length (blk st)) as Hl. destruct o; cbn [block_step array_step in_range] in *.
  - by exists st.
  - rewrite read_spec by tauto. by exists st.
  - unfold set_len. cbn [arr_bytes array_of]. rewrite Hl. destruct Hr as [Hf Hc]. rewrite Hc.
    case_decide; [by exists st|]. exists (mkStorage (blk st) l (capacity (blk st) * SECTOR_BYTES)). by split_and!.
  - by exists st.
  - destruct (write_spec st offset data) as (d & -> & Hhd & Hcap & Hfl); [tauto..|].
    exists (with_blk st d). destruct Hr as [Hf Hc]. unfold array_of, reached, disk_fits in *. cbn. by rewrite Hfl, Hcap.
Qed.

Lemma block_run_refines st ops :
  healthy (blk st) → reached st → Forall (in_range (capacity_bytes st)) ops →
  ∃ st', block_run heap st ops = Some ((array_run (array_of st) ops).1, st')
    ∧ array_of st' = (array_run (array_of st) ops).2 ∧ healthy (blk st') ∧ reached st'.
Proof.
  revert st. induction ops as [|o ops IH]; intros st Hh Hr Hall; [by exists st|].
  apply Forall_cons in Hall as [Ho Hall].
  destruct (block_step_refines st o Hh Hr Ho) as (st1 & E & Ha & Hh1 & Hr1 & Hc). cbn. rewrite E. cbn.
  rewrite <-Hc in Hall. destruct (IH st1 Hh1 Hr1 Hall) as (st2 & E2 & Ha2 & Hh2 & Hr2). rewrite E2. cbn.
  rewrite Ha in Ha2 |- *. destruct (array_step (array_of st) o) as [a arr]. cbn in *.
  destruct (array_run arr ops) as [l arr']. exists st2. split_and!; done.
Qed.

(** The array against the file of the trait: a request the trait gives a meaning
    to has the trait's answer, and its effect when a growth finds zeros. *)
Definition len_ok (a : Array) : Prop := (0 ≤ arr_len a ≤ Z.of_nat (length (arr_bytes a)))%Z.
Lemma length_file_of a : len_ok a → Z.of_nat (length (file_of a)) = arr_len a.
Proof. unfold len_ok, file_of. rewrite length_take. lia. Qed.
Lemma file_of_resized a l :
  len_ok a → (0 ≤ l ≤ Z.of_nat (length (arr_bytes a)))%Z → grows_over_zeros a (OpSetLen l) →
  take (Z.to_nat l) (arr_bytes a) = resized (file_of a) l.
Proof.
  intros Ha Hl [Hz|?]; [|lia]. unfold resized. rewrite length_file_of by done. unfold file_of, len_ok in *.
  rewrite take_take. rewrite <-Hz. unfold extract.
  destruct (decide (arr_len a ≤ l)%Z).
  - rewrite Nat.min_r by lia. rewrite <-(take_drop (Z.to_nat (arr_len a)) (take (Z.to_nat l) (arr_bytes a))).
    rewrite take_take, Nat.min_l by lia. f_equal. rewrite skipn_firstn_comm. f_equal. lia.
  - rewrite Nat.min_l by lia. replace (Z.to_nat (l - arr_len a)) with 0 by lia. by rewrite take_0, app_nil_r.
Qed.
Lemma array_step_file a o x f :
  len_ok a → in_range (Z.of_nat (length (arr_bytes a))) o → grows_over_zeros a o →
  file_step (Z.of_nat (length (arr_bytes a))) (file_of a) o = Some (x, f) →
  (array_step a o).1 = x ∧ file_of (array_step a o).2 = f ∧ len_ok (array_step a o).2
  ∧ length (arr_bytes (array_step a o).2) = length (arr_bytes a).
Proof.
  intros Ha Ho Hz. unfold file_step. rewrite length_file_of by done.
  destruct o; cbn [array_step in_range] in *; repeat case_decide; intros [= <- <-]; cbn [fst snd]; try by split_and!.
  - split_and!; try done. f_equal. unfold file_of, len_ok in *.
    assert (take (Z.to_nat (arr_len a)) (arr_bytes a) = extract (arr_bytes a) 0 (arr_len a)) as -> by done.
    by rewrite extract_extract by lia.
  - split_and!; try done; [|unfold len_ok; cbn; lia].
    change (take (Z.to_nat l) (arr_bytes a) = resized (file_of a) l). apply file_of_resized; [done|lia|done].
  - assert (0 ≤ arr_len a ≤ Z.of_nat (length (arr_bytes a)))%Z as Hla by exact Ha.
    unfold len_ok. cbn [arr_bytes arr_len]. rewrite !length_splice by lia. split_and!; try done; [|lia..].
    unfold file_of. cbn [arr_bytes arr_len]. unfold splice.
    rewrite !take_app, !take_take, length_take, (take_ge data) by lia. rewrite skipn_firstn_comm.
    f_equal; [f_equal; lia|]. f_equal. f_equal. lia.
Qed.
Lemma array_run_file a ops xs f :
  len_ok a → Forall (in_range (Z.of_nat (length (arr_bytes a)))) ops → clean_growth a ops →
  file_run (Z.of_nat (length (arr_bytes a))) (file_of a) ops = Some (xs, f) →
  (array_run a ops).1 = xs ∧ file_of (array_run a ops).2 = f.
Proof.
  revert a xs f. induction ops as [|o ops IH]; intros a xs f Ha Hall Hc; cbn; [by intros [= <- <-]|].
  apply Forall_cons in Hall as [Ho Hall]. destruct Hc as [Hz Hc].
  destruct (file_step _ _ o) as [[x f1]|] eqn:E; cbn; [|done].
  destruct (array_step_file a o x f1 Ha Ho Hz E) as (<- & <- & Ha1 & Hl).
  destruct (array_step a o) as [y a1]. cbn [fst snd] in *. rewrite <-Hl in *.
  destruct (file_run _ _ ops) as [[ys f2]|] eqn:E2; cbn; [|done]. intros [= <- <-].
  destruct (IH a1 ys f2) as [<- <-]; try done. by destruct (array_run a1 ops).
Qed.

(** C27: on a disk that answers, the backend is the array of its bytes, with a
    number for its length: every sequence of requests within the disk has,
    sector alignment or not, exactly the answers and the effect it has on that
    array, in which an unaligned write changes no other byte; only a length
    beyond the disk is refused.  No request panics.  When the length in force
    lies within the disk, that array is the file the trait [StorageBackend]
    describes on every sequence of requests to which the trait gives a meaning
    and whose growths find zeros on the disk: the same answers, the same bytes
    in use.  Beyond that the backend departs from the trait: a read beyond the
    length, but within the disk, is answered with the bytes of the disk where
    the trait demands an error, and a growth brings the old bytes of the disk
    into use where the trait demands zeros. *)
Theorem block_storage_refines st ops :
  healthy (blk st) → reached st → Forall (in_range (capacity_bytes st)) ops →
  (∃ st', block_run heap st ops = Some ((array_run (array_of st) ops).1, st')
    ∧ array_of st' = (array_run (array_of st) ops).2 ∧ healthy (blk st') ∧ reached st')
  ∧ ((0 ≤ logical_len st ≤ capacity_bytes st)%Z →
     (∀ xs f, clean_growth (array_of st) ops → file_run (capacity_bytes st) (file_of (array_of st)) ops = Some (xs, f) →
        ∃ st', block_run heap st ops = Some (xs, st') ∧ file_of (array_of st') = f)
     ∧ (∀ offset n, (0 ≤ offset)%Z → (0 ≤ n)%Z → (n + 1024 ≤ heap)%Z →
          (logical_len st < offset + n ≤ capacity_bytes st)%Z →
          file_step (capacity_bytes st) (file_of (array_of st)) (OpRead offset n) = None
          ∧ block_step heap st (OpRead offset n) = Some (Bytes (extract (flat (blk st)) offset n), st))
     ∧ (∀ l, (logical_len st ≤ l ≤ capacity_bytes st)%Z →
          ∃ st', block_step heap st (OpSetLen l) = Some (Done, st')
            ∧ file_of (array_of st')
              = file_of (array_of st) ++ extract (flat (blk st)) (logical_len st) (l - logical_len st)
            ∧ file_step (capacity_bytes st) (file_of (array_of st)) (OpSetLen l)
              = Some (Done, file_of (array_of st) ++ replicate (Z.to_nat (l - logical_len st)) Byte.x00))).
Proof.
  intros Hh Hr Hall. destruct (block_run_refines st ops Hh Hr Hall) as (st' & E & Ea & Hh' & Hr').
  pose proof (flat_length (blk st)) as Hfl. pose proof Hr as [_ Hcap]. rewrite <-Hcap in Hfl.
  split; [by exists st'|]. intros Hl.
  assert (len_ok (array_of st)) as Hok by (unfold len_ok; cbn; lia). split_and!.
  - intros xs f Hc Hf. rewrite <-Hfl in Hf, Hall.
    destruct (array_run_file (array_of st) ops xs f Hok Hall Hc Hf) as [<- <-]. exists st'. by rewrite Ea.
  - intros offset n Ho Hn Hheap Hb. cbn. rewrite length_file_of by done. cbn. rewrite decide_False by lia.
    by rewrite read_spec by (done || lia).
  - intros l Hb. cbn. unfold set_len, file_of, resized. cbn. rewrite !decide_False by lia.
    eexists. split; [done|]. cbn. split.
    + unfold extract. rewrite <-(take_drop (Z.to_nat (logical_len st)) (take (Z.to_nat l) (flat (blk st)))).
      rewrite take_take, Nat.min_l by lia. f_equal. rewrite skipn_firstn_comm. f_equal. lia.
    + rewrite length_take, (take_ge (take _ _)) by (rewrite length_take; lia). do 3 f_equal. f_equal. lia.
Qed.

Lemma write_outcomes st offset data r st' :
  reached st → (0 ≤ offset)%Z → (offset + Z.of_nat (length data) ≤ capacity_bytes st)%Z →
  write heap st offset data = Some (r, st') →
  logical_len st' = logical_len st ∧ capacity_bytes st' = capacity_bytes st
  ∧ match r with
    | Ok _ => flat (blk st') = splice (flat (blk st)) offset data
    | Err _ => ∀ i, (0 ≤ i)%Z →
        (i / SECTOR_BYTES < offset / SECTOR_BYTES
         ∨ (offset + Z.of_nat (length data) - 1) / SECTOR_BYTES < i / SECTOR_BYTES)%Z →
        flat (blk st') !! Z.to_nat i = flat (blk st) !! Z.to_nat i
    end.
Proof.
  intros [Hf Hcap] Ho Hr. rewrite Hcap in Hr. unfold write. set (n := Z.of_nat (length data)) in *.
  pose proof (flat_length (blk st)) as Hl.
  destruct (decide (data = [])) as [->|Hd0].
  { intros [= <- <-]. split_and!; try done. unfold splice. cbn. by rewrite Nat.add_0_r, take_drop. }
  assert (0 < n)%Z by (destruct data; [done|cbn in n; lia]).
  destruct (sectors_spec (capacity (blk st)) offset n) as (s & k & -> & Hs & Hk & Hlo & Hhi & Hend & Hcs); [done|lia..|].
  unfold aligned. destruct (bool_decide _ && bool_decide _) eqn:Ea.
  - apply andb_prop in Ea as [Ea1%bool_decide_eq_true Ea2%bool_decide_eq_true].
    assert (s * SECTOR_BYTES = offset)%Z as Es by (unfold SECTOR_BYTES in *; Z.to_euclidean_division_equations; lia).
    destruct (write_blocks (blk st) s data) as [[[[]|e] d]|] eqn:Hd; cbn; [| |done]; intros [= <- <-]; split_and!; try done.
    + destruct (write_blocks_ok _ _ _ _ Hd) as [_ Hfl]. by rewrite Es in Hfl.
    + intros i Hi Hout. apply (write_blocks_err _ _ _ _ _ Hd); [|done]. rewrite Es. fold n.
      unfold SECTOR_BYTES in *. Z.to_euclidean_division_equations. lia.
  - assert (0 ≤ k * SECTOR_BYTES < 2 ^ 64)%Z by (unfold disk_fits, SECTOR_BYTES in *; lia).
    rewrite (wrap_small 64 (k * SECTOR_BYTES)) by (unfold in_width; lia).
    destruct (decide (heap < _)%Z); [done|].
    destruct (read_blocks (blk st) s (k * SECTOR_BYTES)) as [[b|e]|] eqn:Hb; cbn [mbind option_bind]; [| |done];
      [|by intros [= <- <-]].
    destruct (read_blocks_ok _ _ _ _ Hb) as [Hin ->].
    rewrite wrap_small by (unfold in_width, SECTOR_BYTES in *; lia).
    assert (Z.of_nat (length (extract (flat (blk st)) (s * SECTOR_BYTES) (k * SECTOR_BYTES))) = k * SECTOR_BYTES)%Z
      as Hlen by (apply length_extract; unfold SECTOR_BYTES in *; lia).
    rewrite decide_True by lia. set (new := splice _ (offset - s * SECTOR_BYTES) data).
    assert (Z.of_nat (length new) = k * SECTOR_BYTES)%Z as Hnew by (unfold new; rewrite length_splice; lia).
    destruct (write_blocks (blk st) s new) as [[[[]|e] d]|] eqn:Hd; cbn; [| |done]; intros [= <- <-]; split_and!; try done.
    + destruct (write_blocks_ok _ _ _ _ Hd) as [_ Hfl]. cbn. rewrite Hfl. unfold new. rewrite splice_extract by lia. f_equal. lia.
    + intros i Hi Hout. apply (write_blocks_err _ _ _ _ _ Hd); [|done]. rewrite Hnew.
      unfold SECTOR_BYTES in *. Z.to_euclidean_division_equations. lia.
Qed.

(** The outcomes on any disk.  An acknowledged write has exactly its effect;
    a failed one changed no byte outside the sectors it touches.  A length is
    refused only beyond the disk.  A new length is a number: the bytes it brings
    into use are those that were on the disk, and bytes beyond it are read all
    the same. *)
Theorem block_storage_outcomes st :
  reached st →
  (∀ offset data r st', (0 ≤ offset)%Z → (offset + Z.of_nat (length data) ≤ capacity_bytes st)%Z →
     write heap st offset data = Some (r, st') →
     logical_len st' = logical_len st ∧ capacity_bytes st' = capacity_bytes st
     ∧ match r with
       | Ok _ => flat (blk st') = splice (flat (blk st)) offset data
       | Err _ => ∀ i, (0 ≤ i)%Z →
           (i / SECTOR_BYTES < offset / SECTOR_BYTES
            ∨ (offset + Z.of_nat (length data) - 1) / SECTOR_BYTES < i / SECTOR_BYTES)%Z →
           flat (blk st') !! Z.to_nat i = flat (blk st) !! Z.to_nat i
       end)
  ∧ (∀ l, ((set_len st l).1 = Err DisqueFull ∧ (set_len st l).2 = st ∧ capacity (blk st) * SECTOR_BYTES < l)%Z
      ∨ ((set_len st l).1 = Ok () ∧ logical_len (set_len st l).2 = l ∧ l ≤ capacity (blk st) * SECTOR_BYTES)%Z)
  ∧ (∀ l, healthy (blk st) → (0 ≤ logical_len st)%Z → (logical_len st ≤ l)%Z → (l ≤ capacity_bytes st)%Z →
      (l - logical_len st + 1024 ≤ heap)%Z →
      read heap (set_len st l).2 (logical_len st) (l - logical_len st)
        = Some (Ok (extract (flat (blk st)) (logical_len st) (l - logical_len st)))
      ∧ read heap st (logical_len st) (l - logical_len st)
        = Some (Ok (extract (flat (blk st)) (logical_len st) (l - logical_len st)))).
Proof.
  intros Hr. split_and!.
  - intros offset data r st' Ho Hl Hw. by apply (write_outcomes st offset data).
  - intros l. destruct Hr as [_ Hc]. unfold set_len. rewrite Hc. case_decide; [left|right]; split_and!; try done; lia.
  - intros l Hh Hp Hl Hc Hheap. unfold set_len. rewrite decide_False by lia. cbn [snd].
    split; [apply (read_spec (mkStorage (blk st) l (capacity_bytes st)))|apply read_spec]; try done; cbn; lia.
Qed.

End proofs.

(** * A disk in memory *)

Definition mem_read (d : bytes) (s n : Z) : option (result () bytes) :=
  if decide (n ≤ 0 ∨ n `mod` SECTOR_BYTES ≠ 0)%Z then None
  else if decide (0 ≤ s ∧ s * SECTOR_BYTES + n ≤ Z.of_nat (length d) / SECTOR_BYTES * SECTOR_BYTES)%Z
    then Some (Ok (extract d (s * SECTOR_BYTES) n)) else Some (Err ()).
Definition mem_write (d : bytes) (s : Z) (b : bytes) : option (result () () * bytes) :=
  let n := Z.of_nat (length b) in
  if decide (n ≤ 0 ∨ n `mod` SECTOR_BYTES ≠ 0)%Z then None
  else if decide (0 ≤ s ∧ s * SECTOR_BYTES + n ≤ Z.of_nat (length d) / SECTOR_BYTES * SECTOR_BYTES)%Z
    then Some (Ok (), splice d (s * SECTOR_BYTES) b) else Some (Err (), d).
#[global] Instance mem_disk : BlockDevice := {|
  dev := bytes; dev_err := (); capacity d := (Z.of_nat (length d) / SECTOR_BYTES)%Z;
  read_blocks := mem_read; write_blocks := mem_write |}.
Definition mem_flat (d : bytes) : bytes := take (Z.to_nat (Z.of_nat (length d) / SECTOR_BYTES * SECTOR_BYTES)%Z) d.

Lemma mem_flat_length d : Z.of_nat (length (mem_flat d)) = (Z.of_nat (length d) / SECTOR_BYTES * SECTOR_BYTES)%Z.
Proof. unfold mem_flat. rewrite length_take. unfold SECTOR_BYTES. Z.to_euclidean_division_equations. lia. Qed.
Lemma mem_flat_extract d a n :
  (0 ≤ a)%Z → (0 ≤ n)%Z → (a + n ≤ Z.of_nat (length d) / SECTOR_BYTES * SECTOR_BYTES)%Z →
  extract d a n = extract (mem_flat d) a n.
Proof.
  intros. unfold mem_flat. set (c := (Z.of_nat (length d) / SECTOR_BYTES * SECTOR_BYTES)%Z) in *.
  assert (take (Z.to_nat c) d = extract d 0 c) as -> by done. by rewrite extract_extract by lia.
Qed.
Lemma mem_flat_splice d a b :
  (0 ≤ a)%Z → (a + Z.of_nat (length b) ≤ Z.of_nat (length d) / SECTOR_BYTES * SECTOR_BYTES)%Z →
  mem_flat (splice d a b) = splice (mem_flat d) a b.
Proof.
  intros Ha Hl. assert (Z.of_nat (length d) / SECTOR_BYTES * SECTOR_BYTES ≤ Z.of_nat (length d))%Z
    by (unfold SECTOR_BYTES; Z.to_euclidean_division_equations; lia).
  unfold mem_flat. rewrite length_splice by lia.
  set (c := Z.to_nat (Z.of_nat (length d) / SECTOR_BYTES * SECTOR_BYTES)).
  unfold splice. rewrite take_take, take_app, take_app, take_take, length_take.
  rewrite (take_ge b) by lia. rewrite skipn_firstn_comm. f_equal; [f_equal; lia|]. f_equal. f_equal. lia.
Qed.
#[global] Instance mem_disk_laws : BlockLaws mem_disk.
Proof.
  refine {| flat := mem_flat; healthy := λ _, True |}.
  - apply mem_flat_length.
  - intros d s n b. cbn. unfold mem_read. repeat case_decide; try done. intros [= <-]. split; [tauto|].
    apply mem_flat_extract; unfold SECTOR_BYTES in *; lia.
  - intros d s b d'. cbn. unfold mem_write. repeat case_decide; try done. intros [= <-]. split; [tauto|].
    apply mem_flat_splice; unfold SECTOR_BYTES in *; lia.
  - intros d s b e d'. cbn. unfold mem_write. repeat case_decide; try done. by intros [= _ <-].
  - intros d s n _ Hs Hn Hm Hc. cbn in *. unfold mem_read. rewrite decide_False, decide_True by lia. eauto.
  - intros d s b _ Hs Hn Hm Hc. cbn in *. unfold mem_write. assert (length b ≠ 0) by by destruct b.
    rewrite decide_False, decide_True by lia. eauto.
Defined.

Definition demo_disk : @dev mem_disk := replicate 1024 Byte.x2e.
Definition zero_disk : @dev mem_disk := replicate 1024 Byte.x00.
Definition demo_ops : list BlockOp :=
  [OpSetLen 600; OpWrite 510 [Byte.x01; Byte.x02; Byte.x03]; OpRead 509 5; OpSetLen 511; OpSetLen 2000; OpLen]%Z.
(** A fresh disk of zeros follows the trait; on one with old bytes a read beyond
    the length is answered. *)
Lemma block_storage_refines_witness :
  (∃ st', block_run 4096 (new zero_disk) demo_ops
     = Some ([Done; Done; Bytes [Byte.x00; Byte.x01; Byte.x02; Byte.x03; Byte.x00]; Done; Fails DisqueFull; Value 511], st'))
  ∧ block_step 4096 (new demo_disk) (OpRead 3 2) = Some (Bytes [Byte.x2e; Byte.x2e], new demo_disk).
Proof.
  split.
  - destruct (block_storage_refines 4096 (new zero_disk) demo_ops) as [_ Hf].
    + exact I.
    + vm_compute. split; reflexivity.
    + unfold demo_ops. repeat apply Forall_cons_2; try exact I; try apply Forall_nil_2; vm_compute; repeat split; intros [=].
    + destruct Hf as [Hf _]; [vm_compute; split; intros [=]|].
      edestruct Hf as (st' & E & _); [| |exists st'; exact E].
      * vm_compute. repeat split; (left; reflexivity) || (right; reflexivity).
      * vm_compute. reflexivity.
  - destruct (block_storage_refines 4096 (new demo_disk) []) as [_ Hf].
    + exact I.
    + vm_compute. split; reflexivity.
    + apply Forall_nil_2.
    + destruct Hf as (_ & Hf & _); [vm_compute; split; intros [=]|].
      destruct (Hf 3%Z 2%Z) as [_ E]; [vm_compute; intros [=]..|vm_compute; split; [reflexivity|intros [=]]|].
      assert (extract (flat (blk (new demo_disk))) 3 2 = [Byte.x2e; Byte.x2e]) as Eb by (vm_compute; reflexivity).
      rewrite Eb in E. exact E.
Defined.
Lemma block_storage_outcomes_witness :
  read 4096 (set_len (new demo_disk) 3).2 0 3 = Some (Ok [Byte.x2e; Byte.x2e; Byte.x2e]).
Proof.
  destruct (block_storage_outcomes 4096 (new demo_disk)) as (_ & _ & Hs).
  - vm_compute. split; reflexivity.
  - destruct (Hs 3%Z) as [E _]; [exact I|vm_compute; intros [=]..|].
    change (read 4096 (set_len (new demo_disk) 3).2 0 3
      = Some (Ok (extract (flat (blk (new demo_disk))) 0 3))) in E.
    rewrite E. vm_compute. reflexivity.
Defined.
End Block.
