(* ===== verification/Sel4Ring.v ===== *)
(** Sel4Ring: the store server of the seL4 port and its clients' rings.

    A runtime process puts the records of a commit in a page it shares with the
    server, and calls the server's endpoint; the kernel tells the server who
    calls (the badge).  Models the two sides: [write_record] of
    [poc/sel4-hello/c8-store/runtime/src/main.rs] and [parse_records], the
    store in a redb database and the loop of [c8-store/server/src/main.rs]; and
    the store in memory of [c7-crash/server/src/main.rs].  Both stores implement
    one interface, [CommitStore]: a journal per agent.  redb is a class of
    operations with its documented behaviour; SHA-256 is [Storage.Sha256].
    [None] is a panic of the server. *)
From Stdlib Require Import String.
From S2P Require Import Prelude Windows Storage.

Module Ring.
Local Open Scope nat_scope.

(** * The ring *)

Definition RING_BYTES : nat := 4092.
Record RingBuffer := mkRing { data_len : Z; data : bytes }.

(** A record: its kind (blob, header, journal entry), a hash, and a payload. *)
Record Rec := mkRec { kind : byte; hash : bytes; payload : bytes }.
#[global] Instance Rec_eq_dec : EqDecision Rec.
Proof. solve_decision. Defined.

(** The writes [buf[*pos..].copy_from_slice(..)], in order: kind, hash, length,
    payload; the answer is whether the record fits. *)
Definition write_record (buf : bytes) (pos : nat) (r : Rec) : bool * (bytes * nat) :=
  let needed := 1 + 32 + 4 + length (payload r) in
  if decide (length buf < pos + needed) then (false, (buf, pos))
  else
    let buf := splice buf (Z.of_nat pos) [kind r] in
    let pos := pos + 1 in
    let buf := splice buf (Z.of_nat pos) (hash r) in
    let pos := pos + 32 in
    let plen := u32 (Z.of_nat (length (payload r))) in
    let buf := splice buf (Z.of_nat pos) (le_bytes 4 plen) in
    let pos := pos + 4 in
    let buf := splice buf (Z.of_nat pos) (payload r) in
    (true, (buf, pos + length (payload r))).

(** The loop of [parse_records]; [fuel] bounds its turns. *)
Fixpoint parse_from (fuel : nat) (data : bytes) (pos : nat) : list Rec :=
  match fuel with
  | O => []
  | S fuel =>
      if decide (pos + 37 ≤ length data) then
        let kind := default Byte.x00 (data !! pos) in
        let pos := pos + 1 in
        let hash := extract data (Z.of_nat pos) 32 in
        let pos := pos + 32 in
        if decide (length data < pos + 4) then []
        else
          let payload_len := Z.to_nat (of_le (extract data (Z.of_nat pos) 4)) in
          let pos := pos + 4 in
          if decide (length data < pos + payload_len) then []
          else
            let payload := extract data (Z.of_nat pos) (Z.of_nat payload_len) in
            mkRec kind hash payload :: parse_from fuel data (pos + payload_len)
      else []
  end.
Definition parse_records (data : bytes) : list Rec := parse_from (length data) data 0.

(** The records of a call, unless the length in the ring is not one. *)
Definition ring_records (ring : RingBuffer) : option (list Rec) :=
  if decide (data_len ring = 0 ∨ Z.of_nat RING_BYTES < data_len ring)%Z then None
  else Some (parse_records (take (Z.to_nat (data_len ring)) (data ring))).

Definition AGENT_A_ID : Z := 1.
Definition AGENT_B_ID : Z := 2.

(** * The store in memory *)

Record Q3cStore := mkQ3c {
  blobs : list (bytes * bytes); headers : list (bytes * bytes); journal_per_agent : gmap Z (list bytes) }.
Definition q3c_new : Q3cStore := mkQ3c [] [] ∅.
Definition commit_blob (s : Q3cStore) (hash data : bytes) : Q3cStore :=
  mkQ3c (blobs s ++ [(hash, data)]) (headers s) (journal_per_agent s).
Definition commit_header (s : Q3cStore) (hash data : bytes) : Q3cStore :=
  mkQ3c (blobs s) (headers s ++ [(hash, data)]) (journal_per_agent s).
Definition append_journal (s : Q3cStore) (agent_id : Z) (header_hash : bytes) : Q3cStore :=
  mkQ3c (blobs s) (headers s)
    (<[agent_id := default [] (journal_per_agent s !! agent_id) ++ [header_hash]]> (journal_per_agent s)).
Definition seq_for (s : Q3cStore) (agent_id : Z) : Z :=
  Z.of_nat (length (default [] (journal_per_agent s !! agent_id))).

Definition process_record (agent_id : Z) (st : option bytes * Q3cStore) (r : Rec) : option bytes * Q3cStore :=
  let '(header_hash, s) := st in
  match b2z (kind r) with
  | 0 => (header_hash, commit_blob s (hash r) (payload r))
  | 1 => (Some (hash r), commit_header s (hash r) (payload r))
  | 2 => match header_hash with
         | Some hh => (header_hash, append_journal s agent_id hh)
         | None => (header_hash, s)
         end
  | _ => (header_hash, s)
  end%Z.
Definition process_ring (s : Q3cStore) (agent_id : Z) (ring : RingBuffer) : Q3cStore :=
  match ring_records ring with
  | None => s
  | Some records => (foldl (process_record agent_id) (None, s) records).2
  end.

(** * The codec *)

(** A record as it lies in the ring. *)
Definition enc (r : Rec) : bytes :=
  kind r :: hash r ++ le_bytes 4 (Z.of_nat (length (payload r))) ++ payload r.
Definition rec_ok (r : Rec) : Prop := length (hash r) = 32 ∧ (Z.of_nat (length (payload r)) < 2 ^ 32)%Z.

Lemma length_enc r : length (hash r) = 32 → length (enc r) = 37 + length (payload r).
Proof. intros. unfold enc. rewrite length_cons, !length_app, length_le_bytes. lia. Qed.

Lemma write_record_fits buf pos r :
  rec_ok r → pos + length (enc r) ≤ length buf →
  ∃ buf', write_record buf pos r = (true, (buf', pos + length (enc r))) ∧ length buf' = length buf
    ∧ take (pos + length (enc r)) buf' = take pos buf ++ enc r
    ∧ drop (pos + length (enc r)) buf' = drop (pos + length (enc r)) buf.
Proof.
  intros [Hh Hp] Hl. rewrite length_enc in * by done. unfold write_record. rewrite decide_False by lia.
  rewrite (wrap_small 32) by (unfold in_width; lia).
  set (b1 := splice buf (Z.of_nat pos) [kind r]).
  assert (length b1 = length buf) as L1 by (apply length_splice; cbn; lia).
  assert (take (pos + 1) b1 = take pos buf ++ [kind r]) as T1.
  { pose proof (take_splice_app buf (Z.of_nat pos) [kind r]) as E. rewrite Nat2Z.id in E. apply E; cbn; lia. }
  set (b2 := splice b1 (Z.of_nat (pos + 1)) (hash r)).
  assert (length b2 = length buf) as L2 by (unfold b2; rewrite length_splice; lia).
  assert (take (pos + 1 + 32) b2 = take pos buf ++ [kind r] ++ hash r) as T2.
  { pose proof (take_splice_app b1 (Z.of_nat (pos + 1)) (hash r)) as E. rewrite Nat2Z.id, T1, Hh in E.
    unfold b2. rewrite E by lia. by rewrite <-app_assoc. }
  set (b3 := splice b2 (Z.of_nat (pos + 1 + 32)) _).
  assert (length b3 = length buf) as L3 by (unfold b3; rewrite length_splice; rewrite ?length_le_bytes; lia).
  assert (take (pos + 1 + 32 + 4) b3
    = take pos buf ++ [kind r] ++ hash r ++ le_bytes 4 (Z.of_nat (length (payload r)))) as T3.
  { pose proof (take_splice_app b2 (Z.of_nat (pos + 1 + 32)) (le_bytes 4 (Z.of_nat (length (payload r))))) as E.
    rewrite Nat2Z.id, T2, length_le_bytes in E. unfold b3. rewrite E by lia. by rewrite <-!app_assoc. }
  set (b4 := splice b3 (Z.of_nat (pos + 1 + 32 + 4)) (payload r)).
  exists b4. replace (pos + 1 + 32 + 4 + length (payload r)) with (pos + (37 + length (payload r))) by lia.
  split; [done|]. assert (length b4 = length buf) as L4 by (unfold b4; rewrite length_splice; lia).
  split; [done|]. split.
  - pose proof (take_splice_app b3 (Z.of_nat (pos + 1 + 32 + 4)) (payload r)) as E. rewrite Nat2Z.id, T3 in E.
    replace (pos + (37 + length (payload r))) with (pos + 1 + 32 + 4 + length (payload r)) by lia.
    unfold b4. rewrite E by lia. unfold enc. by rewrite <-!app_assoc.
  - apply list_eq. intros i. rewrite !lookup_drop.
    unfold b4. rewrite lookup_splice, decide_True by lia.
    unfold b3. rewrite lookup_splice, decide_True by (rewrite ?length_le_bytes; lia).
    unfold b2. rewrite lookup_splice, decide_True by lia.
    unfold b1. by rewrite lookup_splice, decide_True by (cbn; lia).
Qed.
Lemma write_record_full buf pos r :
  length buf < pos + (37 + length (payload r)) → write_record buf pos r = (false, (buf, pos)).
Proof. intros. unfold write_record. by rewrite decide_True by lia. Qed.

Lemma extract_mid (x y z : bytes) a n :
  a = Z.of_nat (length x) → n = Z.of_nat (length y) → extract (x ++ y ++ z) a n = y.
Proof. intros -> ->. unfold extract. rewrite !Nat2Z.id, drop_app_length, take_app_length. done. Qed.
Lemma parse_step fuel pre r post :
  rec_ok r →
  parse_from (S fuel) (pre ++ enc r ++ post) (length pre)
    = r :: parse_from fuel (pre ++ enc r ++ post) (length pre + length (enc r)).
Proof.
  intros [Hh Hp]. cbn [parse_from]. rewrite (length_enc r Hh). rewrite !length_app, (length_enc r Hh).
  rewrite decide_True by lia.
  assert (pre ++ enc r ++ post = (pre ++ [kind r]) ++ hash r
    ++ (le_bytes 4 (Z.of_nat (length (payload r))) ++ payload r ++ post)) as E1
    by (unfold enc; by simplify_list_eq).
  assert (pre ++ enc r ++ post = (pre ++ [kind r] ++ hash r) ++ le_bytes 4 (Z.of_nat (length (payload r)))
    ++ (payload r ++ post)) as E2 by (unfold enc; by simplify_list_eq).
  assert (pre ++ enc r ++ post = (pre ++ [kind r] ++ hash r ++ le_bytes 4 (Z.of_nat (length (payload r))))
    ++ payload r ++ post) as E3 by (unfold enc; by simplify_list_eq).
  assert ((pre ++ enc r ++ post) !! length pre = Some (kind r)) as Hk by (unfold enc; by apply list_lookup_middle).
  assert (extract (pre ++ enc r ++ post) (Z.of_nat (length pre + 1)) 32 = hash r) as Eh.
  { rewrite E1. apply extract_mid; [rewrite length_app; cbn; lia|lia]. }
  assert (extract (pre ++ enc r ++ post) (Z.of_nat (length pre + 1 + 32)) 4
    = le_bytes 4 (Z.of_nat (length (payload r)))) as El.
  { rewrite E2. apply extract_mid; [rewrite !length_app; cbn; lia|by rewrite length_le_bytes]. }
  assert (extract (pre ++ enc r ++ post) (Z.of_nat (length pre + 1 + 32 + 4)) (Z.of_nat (length (payload r)))
    = payload r) as Ep.
  { rewrite E3. apply extract_mid; [rewrite !length_app, length_le_bytes; cbn; lia|done]. }
  rewrite Hk. cbn [default]. rewrite decide_False by lia. rewrite El, of_le_bytes_small, Nat2Z.id by lia.
  rewrite decide_False by lia. rewrite Eh, Ep. f_equal; [by destruct r|]. f_equal; lia.
Qed.
Lemma parse_stop fuel data pos : length data < pos + 37 → parse_from fuel data pos = [].
Proof. intros. destruct fuel; [done|]. cbn. by rewrite decide_False by lia. Qed.
Lemma parse_encoded fuel pre rs post :
  Forall rec_ok rs → length rs ≤ fuel → length post < 37 →
  parse_from fuel (pre ++ concat (enc <$> rs) ++ post) (length pre) = rs.
Proof.
  revert fuel pre. induction rs as [|r rs IH]; intros fuel pre Hok Hf Hp; cbn [fmap list_fmap concat].
  - apply parse_stop. rewrite !length_app. cbn. lia.
  - apply Forall_cons in Hok as [Hr Hok]. destruct fuel as [|fuel]; [cbn in Hf; lia|].
    rewrite <-app_assoc, parse_step by done. f_equal. rewrite app_assoc, <-length_app. apply IH; [done| |done].
    cbn in Hf. lia.
Qed.

(** What is parsed lies in the data as it would have been written. *)
Lemma parse_sound fuel data pos :
  pos ≤ length data →
  Forall rec_ok (parse_from fuel data pos)
  ∧ take pos data ++ concat (enc <$> parse_from fuel data pos) `prefix_of` data.
Proof.
  revert pos. induction fuel as [|fuel IH]; intros pos Hpos; cbn [parse_from].
  { split; [done|]. cbn. rewrite app_nil_r. apply prefix_take. }
  assert (take pos data ++ concat (enc <$> []) `prefix_of` data) as Hnil
    by (cbn; rewrite app_nil_r; apply prefix_take).
  destruct (decide (pos + 37 ≤ length data)) as [H37|]; [|done].
  rewrite decide_False by lia. case_decide as Hlen; [done|].
  set (h := extract data (Z.of_nat (pos + 1)) 32) in *.
  set (lb := extract data (Z.of_nat (pos + 1 + 32)) 4) in *. set (n := Z.to_nat (of_le lb)) in *.
  set (p := extract data (Z.of_nat (pos + 1 + 32 + 4)) (Z.of_nat n)) in *.
  assert (length h = 32) as Lh by (unfold h; pose proof (length_extract data (Z.of_nat (pos + 1)) 32); lia).
  assert (length lb = 4) as Llb by (unfold lb; pose proof (length_extract data (Z.of_nat (pos + 1 + 32)) 4); lia).
  assert (length p = n) as Lp by (unfold p; pose proof (length_extract data (Z.of_nat (pos + 1 + 32 + 4)) (Z.of_nat n)); lia).
  pose proof (of_le_range lb) as Hn. rewrite Llb in Hn.
  destruct (lookup_lt_is_Some_2 data pos) as [k Hk]; [lia|]. rewrite Hk. change (default Byte.x00 (Some k)) with k.
  set (r := mkRec k h p).
  assert (enc r = extract data (Z.of_nat pos) (Z.of_nat (37 + n))) as Er.
  { unfold enc. cbn [kind hash payload r]. rewrite Lp. replace (Z.of_nat n) with (of_le lb) by lia.
    assert (le_bytes 4 (of_le lb) = lb) as -> by (rewrite <-Llb; apply le_bytes_of_le).
    assert ([k] = extract data (Z.of_nat pos) 1) as Ek.
    { unfold extract. rewrite Nat2Z.id. rewrite (drop_S data k pos Hk). done. }
    change (k :: h ++ lb ++ p) with ([k] ++ h ++ lb ++ p). rewrite Ek. unfold h, lb, p.
    rewrite !Nat2Z.inj_add, !extract_app by lia. f_equal. lia. }
  assert (take (pos + (37 + n)) data = take pos data ++ enc r) as Et.
  { rewrite Er. unfold extract. rewrite !Nat2Z.id. symmetry. apply take_take_drop. }
  destruct (IH (pos + 1 + 32 + 4 + n)) as [IH1 IH2]; [lia|]. split.
  - constructor; [|done]. split; [done|]. cbn. rewrite Lp. lia.
  - cbn [fmap list_fmap concat]. rewrite app_assoc, <-Et.
    by replace (pos + (37 + n)) with (pos + 1 + 32 + 4 + n) by lia.
Qed.
Lemma parse_fuel f f' data pos :
  length data ≤ pos + f → length data ≤ pos + f' → parse_from f data pos = parse_from f' data pos.
Proof.
  revert f' pos. induction f as [|f IH]; intros f' pos Hf Hf'.
  { by rewrite !parse_stop by lia. }
  destruct f' as [|f']; [by rewrite !parse_stop by lia|]. cbn [parse_from].
  case_decide; [|done]. case_decide; [done|]. case_decide; [done|]. f_equal. apply IH; lia.
Qed.

Lemma parse_records_encoded rs post :
  Forall rec_ok rs → length post < 37 → parse_records (concat (enc <$> rs) ++ post) = rs.
Proof.
  intros Hok Hp. apply (parse_encoded _ [] rs post); [done| |done].
  assert (length rs ≤ length (concat (enc <$> rs))) as Hl; [|rewrite !length_app; lia].
  clear Hp. induction Hok as [|r rs [Hr _] _ IH]; cbn; [lia|]. pose proof (length_enc r Hr). rewrite length_app.
  cbn [enc length] in *. lia.
Qed.

(** The codec of the ring.  Records written one after the other into an
    empty ring are read back, whatever lies behind them that is too short to be
    one; whatever a client puts in its ring, what is read lies in the data
    exactly as it would have been written, and more turns of the loop would read
    nothing more; a record that does not fit is refused and leaves the ring as
    it was. *)
Theorem ring_codec :
  (∀ rs post, Forall rec_ok rs → length post < 37 → parse_records (concat (enc <$> rs) ++ post) = rs)
  ∧ (∀ buf pos r, rec_ok r → pos + length (enc r) ≤ length buf →
      ∃ buf', write_record buf pos r = (true, (buf', pos + length (enc r))) ∧ length buf' = length buf
        ∧ take (pos + length (enc r)) buf' = take pos buf ++ enc r
        ∧ drop (pos + length (enc r)) buf' = drop (pos + length (enc r)) buf)
  ∧ (∀ buf pos r, length buf < pos + (37 + length (payload r)) → write_record buf pos r = (false, (buf, pos)))
  ∧ (∀ data, Forall rec_ok (parse_records data) ∧ concat (enc <$> parse_records data) `prefix_of` data
      ∧ ∀ fuel, length data ≤ fuel → parse_from fuel data 0 = parse_records data).
Proof.
  split_and!.
  - apply parse_records_encoded.
  - intros. by apply write_record_fits.
  - apply write_record_full.
  - intros data. destruct (parse_sound (length data) data 0 ltac:(lia)) as [H1 H2]. split_and!; [done|done|].
    intros fuel Hf. apply parse_fuel; lia.
Qed.

End Ring.

(** * The database *)

(** redb: keys and values are bytes; a [u64] is its 8 bytes, low byte first.  A
    failure of an operation is a panic, since the server unwraps every result. *)
Class Redb := {
  database : Type;
  wtxn : Type;
  begin_write : database → option wtxn;
  open_table : wtxn → string → option wtxn;
  t_insert : wtxn → string → bytes → bytes → option wtxn;
  t_get : wtxn → string → bytes → option (option bytes);
  t_commit : wtxn → option database;
  (** [begin_read], then [open_table], which fails on a table that was never made *)
  r_has_table : database → string → bool;
  r_get : database → string → bytes → option (option bytes) }.
(** Documented behaviour: a transaction works on its own copy of the tables, and
    its commit installs it. *)
Class RedbLaws (R : Redb) := {
  tables : database → gmap string (gmap bytes bytes);
  wtables : wtxn → gmap string (gmap bytes bytes);
  begin_write_ok d w : begin_write d = Some w → wtables w = tables d;
  open_table_ok w n w' :
    open_table w n = Some w' → wtables w' = <[n := default ∅ (wtables w !! n)]> (wtables w);
  t_insert_ok w n k v w' :
    t_insert w n k v = Some w' → wtables w' = <[n := <[k := v]> (default ∅ (wtables w !! n))]> (wtables w);
  t_get_ok w n k o : t_get w n k = Some o → o = default ∅ (wtables w !! n) !! k;
  t_commit_ok w d : t_commit w = Some d → tables d = wtables w;
  r_has_table_ok d n : r_has_table d n = bool_decide (is_Some (tables d !! n));
  r_get_ok d n k o : r_get d n k = Some o → o = default ∅ (tables d !! n) !! k }.

Module RedbStore.
Import Ring.
Local Open Scope nat_scope.

Definition TABLE_BLOBS : string := "blobs".
Definition TABLE_HEADERS : string := "headers".
Definition TABLE_JOURNAL_A : string := "journal_a".
Definition TABLE_JOURNAL_B : string := "journal_b".
Definition TABLE_SEQ : string := "seq".
Definition u64_bytes (z : Z) : bytes := le_bytes 8 z.

Section redb.
Context `{Redb}.

Definition seq_in (w : wtxn) (agent_id : Z) : option Z :=
  o ← t_get w TABLE_SEQ (u64_bytes agent_id); Some (default 0%Z (of_le <$> o)).
Definition commit_record (agent_id : Z) (st : option (option bytes * wtxn)) (r : Rec) : option (option bytes * wtxn) :=
  '(header_hash, w) ← st;
  match b2z (kind r) with
  | 0 => w ← t_insert w TABLE_BLOBS (hash r) (payload r); Some (header_hash, w)
  | 1 => w ← t_insert w TABLE_HEADERS (hash r) (payload r); Some (Some (hash r), w)
  | 2 => match header_hash with
         | Some hh =>
             seq ← seq_in w agent_id;
             w ← t_insert w (if decide (agent_id = AGENT_A_ID) then TABLE_JOURNAL_A else TABLE_JOURNAL_B) (u64_bytes seq) hh;
             w ← t_insert w TABLE_SEQ (u64_bytes agent_id) (u64_bytes (u64 (seq + 1)));
             Some (header_hash, w)
         | None => Some (header_hash, w)
         end
  | _ => Some (header_hash, w)
  end%Z.
Definition open_tables (w : wtxn) : option wtxn :=
  w ← open_table w TABLE_BLOBS; w ← open_table w TABLE_HEADERS; w ← open_table w TABLE_JOURNAL_A;
  w ← open_table w TABLE_JOURNAL_B; open_table w TABLE_SEQ.
(** The answer is the number of entries of the agent, or 0 for a ring that holds nothing. *)
Definition commit_to_redb (db : database) (agent_id : Z) (ring : RingBuffer) : option (Z * database) :=
  match ring_records ring with
  | None => Some (0%Z, db)
  | Some records =>
      w ← begin_write db;
      w ← open_tables w;
      '(_, w) ← foldl (commit_record agent_id) (Some (None, w)) records;
      committed_seq ← seq_in w agent_id;
      db ← t_commit w;
      Some (committed_seq, db)
  end.

(** [open_table(TABLE_SEQ).unwrap()] panics before the first commit. *)
Definition oracle_query (db : database) : option (Z * Z) :=
  if r_has_table db TABLE_SEQ then
    a ← r_get db TABLE_SEQ (u64_bytes AGENT_A_ID);
    b ← r_get db TABLE_SEQ (u64_bytes AGENT_B_ID);
    Some (default 0%Z (of_le <$> a), default 0%Z (of_le <$> b))
  else None.

End redb.
End RedbStore.
