(* ===== verification/Sel4Stores.v ===== *)
(** Sel4Stores: what the store server promises, and its two implementations.

    [CommitStore] is the server as its clients see it: a commit for the agent the
    kernel names, and the oracle's question.  Its laws say that a journal per
    agent is all there is to see: a commit appends to the journal of its agent
    what [journaled] reads in the ring.  The store in memory and the redb store of
    [Sel4Ring] are proved to satisfy them. *)
From Stdlib Require Import String.
From stdpp Require Import functions.
From S2P Require Import Prelude Windows Storage Sel4Ring.

Module Stores.
Import Ring RedbStore.
Local Open Scope nat_scope.

(** The header hashes that the records of a commit append to a journal: each
    journal record takes the hash of the last header record before it. *)
Fixpoint journaled (header : option bytes) (rs : list Rec) : list bytes :=
  match rs with
  | [] => []
  | r :: rs =>
      match b2z (kind r) with
      | 1 => journaled (Some (hash r)) rs
      | 2 => from_option (λ h, [h]) [] header ++ journaled header rs
      | _ => journaled header rs
      end%Z
  end.
Definition appended (ring : RingBuffer) : list bytes := from_option (journaled None) [] (ring_records ring).

(** * The interface *)

Definition agent (a : Z) : Prop := a = AGENT_A_ID ∨ a = AGENT_B_ID.
Abbreviation journals := (Z → list bytes).

Class CommitStore := {
  store : Type;
  serve : store → Z → RingBuffer → option store;
  oracle : store → option (Z * Z) }.
Class CommitStoreLaws (C : CommitStore) := {
  represents : store → journals → Prop;
  serve_ok s J a ring s' :
    represents s J → agent a → (Z.of_nat (length (J a ++ appended ring)) < 2 ^ 64)%Z →
    serve s a ring = Some s' → represents s' (<[a := J a ++ appended ring]> J);
  oracle_ok s J x y :
    represents s J → oracle s = Some (x, y) →
    x = Z.of_nat (length (J AGENT_A_ID)) ∧ y = Z.of_nat (length (J AGENT_B_ID)) }.

(** The loop of the server: one message, with the badge of its sender. *)
Definition ORACLE_BADGE : Z := 0xC8FE.
Inductive Reply := Seqs (seq_a seq_b : Z) | Empty.
Definition handle `{CommitStore} (ring_a ring_b : RingBuffer) (s : store) (badge : Z) : option (Reply * store) :=
  if decide (badge = ORACLE_BADGE) then
    '(seq_a, seq_b) ← oracle s; Some (Seqs seq_a seq_b, s)
  else if decide (badge = AGENT_A_ID) then s ← serve s AGENT_A_ID ring_a; Some (Empty, s)
  else if decide (badge = AGENT_B_ID) then s ← serve s AGENT_B_ID ring_b; Some (Empty, s)
  else Some (Empty, s).

(** * The store in memory *)

#[global] Instance q3c_store : CommitStore := {|
  store := Q3cStore; serve s a ring := Some (process_ring s a ring);
  oracle s := Some (seq_for s AGENT_A_ID, seq_for s AGENT_B_ID) |}.

Definition q3c_journals (s : Q3cStore) : journals := λ a, default [] (journal_per_agent s !! a).
Lemma process_records a rs h s :
  q3c_journals (foldl (process_record a) (h, s) rs).2 a = q3c_journals s a ++ journaled h rs
  ∧ ∀ b, b ≠ a → q3c_journals (foldl (process_record a) (h, s) rs).2 b = q3c_journals s b.
Proof.
  revert h s. induction rs as [|r rs IH]; intros h s; cbn [foldl journaled]; [by rewrite app_nil_r|].
  assert (∀ h' s', process_record a (h, s) r = (h', s') →
    q3c_journals s' a ++ journaled h' rs = q3c_journals s a ++ journaled h (r :: rs)
    ∧ ∀ b, b ≠ a → q3c_journals s' b = q3c_journals s b) as Hr.
  { intros h' s'. unfold process_record. cbn [journaled]. destruct (b2z (kind r)) as [|[[]|[[]|[]|]|]|].
    all: try (intros [= <- <-]; done).
    destruct h as [hh|]; intros [= <- <-]; [|done]. unfold append_journal, q3c_journals. cbn. split.
    - rewrite lookup_insert_eq. cbn. by rewrite <-app_assoc.
    - intros b Hb. by rewrite lookup_insert_ne. }
  destruct (process_record a (h, s) r) as [h' s'] eqn:E. destruct (Hr h' s' eq_refl) as [H1 H2].
  destruct (IH h' s') as [I1 I2]. split; [by rewrite I1, H1|]. intros b Hb. by rewrite I2, H2.
Qed.
#[global] Instance q3c_store_laws : CommitStoreLaws q3c_store.
Proof.
  refine {| represents (s : @store q3c_store) J := ∀ a, q3c_journals s a = J a |}.
  - intros s J a ring s' Hs _ _ [= <-] b. unfold process_ring, appended.
    destruct (ring_records ring) as [rs|]; cbn.
    + destruct (process_records a rs None s) as [H1 H2]. destruct (decide (a = b)) as [<-|Hb].
      * by rewrite fn_lookup_insert, H1, Hs.
      * by rewrite fn_lookup_insert_ne, H2, Hs.
    + rewrite app_nil_r, Hs. destruct (decide (a = b)) as [<-|Hb]; [by rewrite fn_lookup_insert|].
      by rewrite fn_lookup_insert_ne.
  - intros s J x y Hs [= <- <-]. unfold seq_for. by rewrite <-!Hs.
Defined.

(** * The store in redb *)

#[global] Instance redb_store `{Redb} : CommitStore := {|
  store := database; serve db a ring := snd <$> commit_to_redb db a ring; oracle := oracle_query |}.

Section redb.
Context `{R : Redb, RL : !RedbLaws R}.

(** The entries of a table of journal are those of the list, under their numbers,
    and the counter is its length. *)
Definition journal_table (a : Z) : string := if decide (a = AGENT_A_ID) then TABLE_JOURNAL_A else TABLE_JOURNAL_B.
Definition holds_journal (T : gmap string (gmap bytes bytes)) (a : Z) (l : list bytes) : Prop :=
  (∀ i, is_u64 i → default ∅ (T !! journal_table a) !! u64_bytes i = l !! Z.to_nat i)
  ∧ default 0%Z (of_le <$> default ∅ (T !! TABLE_SEQ) !! u64_bytes a) = Z.of_nat (length l)
  ∧ (Z.of_nat (length l) < 2 ^ 64)%Z.
Definition holds (T : gmap string (gmap bytes bytes)) (J : journals) : Prop := ∀ a, agent a → holds_journal T a (J a).

Lemma u64_bytes_inj x y : is_u64 x → is_u64 y → u64_bytes x = u64_bytes y → x = y.
Proof. intros Hx Hy E. rewrite <-(of_le_bytes_u64 x Hx), <-(of_le_bytes_u64 y Hy). unfold u64_bytes in E. by rewrite E. Qed.
Lemma agent_u64 a : agent a → is_u64 a.
Proof. intros [->| ->]; unfold in_width, AGENT_A_ID, AGENT_B_ID; lia. Qed.

(** A change of another table, or of the empty kind. *)
Lemma holds_insert_other T J n t :
  n ≠ TABLE_SEQ → n ≠ TABLE_JOURNAL_A → n ≠ TABLE_JOURNAL_B → holds T J → holds (<[n := t]> T) J.
Proof.
  intros H1 H2 H3 HT a Ha. destruct (HT a Ha) as (Hj & Hs & Hl). unfold holds_journal.
  assert (n ≠ journal_table a) by (unfold journal_table; by case_decide).
  by rewrite !lookup_insert_ne by done.
Qed.
Lemma holds_open T J n : holds T J → holds (<[n := default ∅ (T !! n)]> T) J.
Proof.
  intros HT a Ha. destruct (HT a Ha) as (Hj & Hs & Hl). unfold holds_journal.
  assert (∀ m, default ∅ (<[n := default ∅ (T !! n)]> T !! m) = default ∅ (T !! m)) as E.
  { intros m. destruct (decide (n = m)) as [<-|]; [by rewrite lookup_insert_eq|by rewrite lookup_insert_ne]. }
  by rewrite !E.
Qed.
Lemma open_tables_holds w w' J : holds (wtables w) J → open_tables w = Some w' → holds (wtables w') J.
Proof.
  intros HT. unfold open_tables.
  destruct (open_table w _) as [w1|] eqn:E1; [|done]; cbn. destruct (open_table w1 _) as [w2|] eqn:E2; [|done]; cbn.
  destruct (open_table w2 _) as [w3|] eqn:E3; [|done]; cbn. destruct (open_table w3 _) as [w4|] eqn:E4; [|done]; cbn.
  intros E5. apply open_table_ok in E1, E2, E3, E4, E5. rewrite E5, E4, E3, E2, E1.
  by repeat apply holds_open.
Qed.

(** An entry and the counter of an agent, together. *)
Lemma holds_append T J a hh :
  agent a → holds T J → (Z.of_nat (length (J a)) + 1 < 2 ^ 64)%Z →
  let T1 := <[journal_table a := <[u64_bytes (Z.of_nat (length (J a))) := hh]> (default ∅ (T !! journal_table a))]> T in
  holds (<[TABLE_SEQ := <[u64_bytes a := u64_bytes (u64 (Z.of_nat (length (J a)) + 1))]> (default ∅ (T1 !! TABLE_SEQ))]> T1)
    (<[a := J a ++ [hh]]> J).
Proof.
  intros Ha HT Hn T1 b Hb. destruct (HT b Hb) as (Hj & Hs & Hl). destruct (HT a Ha) as (Hja & Hsa & Hla).
  assert (∀ c, journal_table c ≠ TABLE_SEQ) as Hne by (intros c; unfold journal_table; by case_decide).
  rewrite (wrap_small 64) by (unfold in_width; lia).
  assert (default ∅ (T1 !! TABLE_SEQ) = default ∅ (T !! TABLE_SEQ)) as ES by (unfold T1; by rewrite lookup_insert_ne).
  rewrite ES. unfold holds_journal. rewrite lookup_insert_eq, lookup_insert_ne by done. cbn [from_option id].
  destruct (decide (a = b)) as [<-|Hab].
  - rewrite fn_lookup_insert. unfold T1. rewrite lookup_insert_eq. cbn [from_option id]. rewrite length_app. cbn [length].
    split_and!; [|rewrite lookup_insert_eq|lia].
    + intros i Hi. destruct (decide (i = Z.of_nat (length (J a)))) as [->|Hd].
      * rewrite lookup_insert_eq, Nat2Z.id. by rewrite lookup_app_r, Nat.sub_diag by lia.
      * rewrite lookup_insert_ne by (intros E; apply Hd; symmetry; apply u64_bytes_inj in E; [done|unfold in_width; lia|done]).
        rewrite Hja by done. unfold in_width in Hi. destruct (decide (Z.to_nat i < length (J a))).
        -- by rewrite lookup_app_l.
        -- rewrite lookup_ge_None_2 by lia. symmetry. apply lookup_ge_None. rewrite length_app. cbn. lia.
    + cbn [fmap option_fmap option_map from_option id]. unfold u64_bytes. rewrite of_le_bytes_u64 by (unfold in_width; lia). lia.
  - rewrite fn_lookup_insert_ne by done. split_and!; [|rewrite lookup_insert_ne|done].
    + assert (journal_table a ≠ journal_table b) by (destruct Ha as [->| ->], Hb as [->| ->]; done).
      unfold T1. by rewrite lookup_insert_ne by done.
    + done.
    + intros E. apply u64_bytes_inj in E; [done|by apply agent_u64..].
Qed.
Lemma seq_in_holds w J a z : agent a → holds (wtables w) J → seq_in w a = Some z → z = Z.of_nat (length (J a)).
Proof.
  intros Ha HT. unfold seq_in. destruct (t_get w TABLE_SEQ (u64_bytes a)) as [o|] eqn:E; [|done].
  intros [= <-]. apply t_get_ok in E as ->. by destruct (HT a Ha) as (_ & -> & _).
Qed.
Lemma holds_insert_same T J a : holds T J → holds T (<[a := J a]> J).
Proof.
  intros HT b Hb. destruct (decide (a = b)) as [<-|]; [rewrite fn_lookup_insert|rewrite fn_lookup_insert_ne by done]; by apply HT.
Qed.
Lemma holds_ext T J J' : (∀ a, J a = J' a) → holds T J → holds T J'.
Proof. intros E HT a Ha. rewrite <-E. by apply HT. Qed.
Lemma commit_none a rs : foldl (commit_record a) None rs = None.
Proof. by induction rs. Qed.
Lemma commit_records a rs h w J h' w' :
  agent a → holds (wtables w) J → (Z.of_nat (length (J a ++ journaled h rs)) < 2 ^ 64)%Z →
  foldl (commit_record a) (Some (h, w)) rs = Some (h', w') →
  holds (wtables w') (<[a := J a ++ journaled h rs]> J).
Proof.
  intros Ha. revert h w J. induction rs as [|r rs IH]; intros h w J HT Hn; cbn [foldl].
  { intros [= _ <-]. cbn [journaled]. rewrite app_nil_r. by apply holds_insert_same. }
  destruct (commit_record a (Some (h, w)) r) as [[h1 w1]|] eqn:E; [|by rewrite commit_none].
  assert (∃ new, journaled h (r :: rs) = new ++ journaled h1 rs ∧ holds (wtables w1) (<[a := J a ++ new]> J)) as (new & En & H1).
  { cbn [journaled] in Hn |- *. cbn in E. revert E Hn. destruct (b2z (kind r)) as [|[[]|[[]|[]|]|]|]; intros E Hn.
    all: try (injection E as <- <-; exists []; split; [done|]; rewrite app_nil_r; by apply holds_insert_same).
    - destruct (t_insert w _ _ _) as [w2|] eqn:E2; [|done]. injection E as <- <-. apply t_insert_ok in E2 as ->.
      exists []. split; [done|]. rewrite app_nil_r. apply holds_insert_same. by apply holds_insert_other.
    - destruct h as [hh|]; cycle 1.
      { injection E as <- <-. exists []. split; [done|]. rewrite app_nil_r. by apply holds_insert_same. }
      destruct (seq_in w a) as [z|] eqn:Ez; [|done]. apply (seq_in_holds w J) in Ez as ->; [|done..]. cbn in E.
      destruct (t_insert w _ _ _) as [w2|] eqn:E2; [|done]. cbn in E.
      destruct (t_insert w2 _ _ _) as [w3|] eqn:E3; [|done]. injection E as <- <-.
      apply t_insert_ok in E2, E3. exists [hh]. split; [done|]. rewrite E3, E2. apply holds_append; [done..|].
      rewrite !length_app in Hn. cbn in Hn. lia.
    - destruct (t_insert w _ _ _) as [w2|] eqn:E2; [|done]. injection E as <- <-. apply t_insert_ok in E2 as ->.
      exists []. split; [done|]. rewrite app_nil_r. apply holds_insert_same. by apply holds_insert_other. }
  rewrite En in Hn |- *. intros Ef. eapply (holds_ext _ (<[a := (<[a := J a ++ new]> J) a ++ journaled h1 rs]> (<[a := J a ++ new]> J))).
  { intros b. destruct (decide (a = b)) as [<-|]; [by rewrite !fn_lookup_insert, app_assoc|by rewrite !fn_lookup_insert_ne]. }
  apply (IH h1 w1); [done| |done]. rewrite fn_lookup_insert, <-app_assoc. done.
Qed.

#[global] Instance redb_store_laws : CommitStoreLaws redb_store.
Proof.
  refine {| represents (d : @store redb_store) J := holds (tables d) J |}.
  - intros d J a ring d' HT Ha Hn. cbn [serve redb_store]. unfold commit_to_redb, appended in *.
    destruct (ring_records ring) as [rs|]; cbn [from_option] in *.
    + destruct (begin_write d) as [w|] eqn:Eb; [|done]; cbn. destruct (open_tables w) as [w1|] eqn:Eo; [|done]; cbn.
      destruct (foldl _ _ rs) as [[h2 w2]|] eqn:Ef; [|done]; cbn. destruct (seq_in w2 a) as [z|]; [|done]; cbn.
      destruct (t_commit w2) as [d2|] eqn:Ec; [|done]; cbn. intros [= <-]. rewrite (t_commit_ok _ _ Ec).
      apply begin_write_ok in Eb. rewrite <-Eb in HT.
      exact (commit_records a rs None w1 J h2 w2 Ha (open_tables_holds w w1 J HT Eo) Hn Ef).
    + intros [= <-]. rewrite app_nil_r. by apply holds_insert_same.
  - intros d J x y HT. cbn [oracle redb_store]. unfold oracle_query. rewrite r_has_table_ok. case_bool_decide as Ht; [|done].
    destruct (r_get d TABLE_SEQ (u64_bytes AGENT_A_ID)) as [o1|] eqn:E1; [|done]; cbn [mbind option_bind].
    destruct (r_get d TABLE_SEQ (u64_bytes AGENT_B_ID)) as [o2|] eqn:E2; [|done]; cbn [mbind option_bind].
    intros [= <- <-]. apply r_get_ok in E1 as ->, E2 as ->.
    destruct (HT AGENT_A_ID ltac:(by left)) as (_ & Ea & _), (HT AGENT_B_ID ltac:(by right)) as (_ & Eb & _). done.
Defined.

(** The content tables after a commit: records of a kind, inserted in order. *)
Definition content (k : Z) (rs : list Rec) (m : gmap bytes bytes) : gmap bytes bytes :=
  foldl (λ m r, if decide (b2z (kind r) = k) then <[hash r := payload r]> m else m) m rs.
Lemma commit_contents a rs h w h' w' n k :
  n = TABLE_BLOBS ∧ k = 0%Z ∨ n = TABLE_HEADERS ∧ k = 1%Z →
  foldl (commit_record a) (Some (h, w)) rs = Some (h', w') →
  default ∅ (wtables w' !! n) = content k rs (default ∅ (wtables w !! n)).
Proof.
  intros Hnk. revert h w. unfold content. induction rs as [|r rs IH]; intros h w; cbn [foldl]; [by intros [= _ <-]|].
  destruct (commit_record a (Some (h, w)) r) as [[h1 w1]|] eqn:E; [|by rewrite commit_none].
  intros Ef. rewrite (IH _ _ Ef). f_equal. clear IH Ef. cbn in E. revert E.
  assert (∀ m t (T : gmap string (gmap bytes bytes)), n ≠ m → default ∅ (<[m := t]> T !! n) = default ∅ (T !! n)) as Hne
    by (intros; by rewrite lookup_insert_ne).
  destruct (decide (b2z (kind r) = k)) as [Ek|Ek].
  - destruct Hnk as [[-> ->]|[-> ->]]; rewrite Ek; destruct (t_insert w _ _ _) as [w2|] eqn:E2; try done; intros [= _ <-];
      rewrite (t_insert_ok _ _ _ _ _ E2); by rewrite lookup_insert_eq.
  - destruct (b2z (kind r)) as [|[[]|[[]|[]|]|]|].
    all: try (intros [= _ <-]; done).
    + destruct (t_insert w _ _ _) as [w2|] eqn:E2; [|done]; intros [= _ <-]. rewrite (t_insert_ok _ _ _ _ _ E2).
      apply Hne. destruct Hnk as [[-> ->]|[-> ->]]; done.
    + destruct h as [hh|]; [|by intros [= _ <-]]. destruct (seq_in w a) as [z|]; [|done]; cbn.
      destruct (t_insert w _ _ _) as [w2|] eqn:E2; [|done]; cbn. destruct (t_insert w2 _ _ _) as [w3|] eqn:E3; [|done].
      intros [= _ <-]. rewrite (t_insert_ok _ _ _ _ _ E3), (t_insert_ok _ _ _ _ _ E2).
      rewrite !Hne; [done|destruct Hnk as [[-> ->]|[-> ->]]; by case_decide..|by destruct Hnk as [[-> ->]|[-> ->]]].
    + destruct (t_insert w _ _ _) as [w2|] eqn:E2; [|done]; intros [= _ <-]. rewrite (t_insert_ok _ _ _ _ _ E2).
      apply Hne. destruct Hnk as [[-> ->]|[-> ->]]; done.
Qed.
Lemma open_tables_contents w w' n : open_tables w = Some w' → default ∅ (wtables w' !! n) = default ∅ (wtables w !! n).
Proof.
  assert (∀ w m w', open_table w m = Some w' → default ∅ (wtables w' !! n) = default ∅ (wtables w !! n)) as H1.
  { intros w0 m w1 E. rewrite (open_table_ok _ _ _ E). destruct (decide (m = n)) as [->|].
    - by rewrite lookup_insert_eq.
    - by rewrite lookup_insert_ne. }
  unfold open_tables. intros E.
  destruct (open_table w _) as [w1|] eqn:E1; [|done]; cbn in E. destruct (open_table w1 _) as [w2|] eqn:E2; [|done]; cbn in E.
  destruct (open_table w2 _) as [w3|] eqn:E3; [|done]; cbn in E. destruct (open_table w3 _) as [w4|] eqn:E4; [|done]; cbn in E.
  by rewrite (H1 _ _ _ E), (H1 _ _ _ E4), (H1 _ _ _ E3), (H1 _ _ _ E2), (H1 _ _ _ E1).
Qed.

(** What a commit leaves in the content tables: the payloads of its records
    under the hashes they announce, the last one for a hash.  The server checks
    no hash: one record of any agent replaces a blob of any other by any bytes.
    A ring without a valid length changes nothing. *)
Theorem commit_to_redb_contents d a ring v d' :
  commit_to_redb d a ring = Some (v, d') →
  match ring_records ring with
  | None => d' = d ∧ v = 0%Z
  | Some rs =>
      default ∅ (tables d' !! TABLE_BLOBS) = content 0 rs (default ∅ (tables d !! TABLE_BLOBS))
      ∧ default ∅ (tables d' !! TABLE_HEADERS) = content 1 rs (default ∅ (tables d !! TABLE_HEADERS))
      ∧ (∀ h q, rs = [mkRec Byte.x00 h q] → default ∅ (tables d' !! TABLE_BLOBS) !! h = Some q)
  end.
Proof.
  unfold commit_to_redb. destruct (ring_records ring) as [rs|]; [|by intros [= <- <-]].
  destruct (begin_write d) as [w|] eqn:Eb; [|done]; cbn. destruct (open_tables w) as [w1|] eqn:Eo; [|done]; cbn.
  destruct (foldl _ _ rs) as [[h2 w2]|] eqn:Ef; [|done]; cbn. destruct (seq_in w2 a) as [z|]; [|done]; cbn.
  destruct (t_commit w2) as [d2|] eqn:Ec; [|done]; cbn. intros [= _ <-]. rewrite (t_commit_ok _ _ Ec).
  apply begin_write_ok in Eb.
  pose proof (commit_contents a rs None w1 h2 w2 TABLE_BLOBS 0 ltac:(by left) Ef) as HB.
  pose proof (commit_contents a rs None w1 h2 w2 TABLE_HEADERS 1 ltac:(by right) Ef) as HH.
  rewrite (open_tables_contents _ _ TABLE_BLOBS Eo), Eb in HB. rewrite (open_tables_contents _ _ TABLE_HEADERS Eo), Eb in HH.
  split_and!; [done|done|].
  intros h q ->. rewrite HB. unfold content. cbn. apply lookup_insert_eq.
Qed.

End redb.

(** * Clients of the interface *)

Section clients.
Context `{C : CommitStore, CL : !CommitStoreLaws C}.

(** A message: the badge of its sender, and what the two rings hold then. *)
Definition message : Type := Z * RingBuffer * RingBuffer.
Fixpoint run_server (s : store) (ms : list message) : option (list Reply * store) :=
  match ms with
  | [] => Some ([], s)
  | (badge, ring_a, ring_b) :: ms =>
      '(r, s) ← handle ring_a ring_b s badge; '(rs, s) ← run_server s ms; Some (r :: rs, s)
  end.
(** What a message appends to the journal of an agent. *)
Definition contributes (a : Z) (m : message) : list bytes :=
  let '(badge, ring_a, ring_b) := m in
  if decide (badge = a) then appended (if decide (a = AGENT_A_ID) then ring_a else ring_b) else [].

Lemma handle_journals ring_a ring_b s badge r s' J :
  represents s J → (∀ a, agent a → Z.of_nat (length (J a ++ contributes a (badge, ring_a, ring_b))) < 2 ^ 64)%Z →
  handle ring_a ring_b s badge = Some (r, s') →
  ∃ J', represents s' J' ∧ (∀ a, agent a → J' a = J a ++ contributes a (badge, ring_a, ring_b))
    ∧ r = (if decide (badge = ORACLE_BADGE)
           then Seqs (Z.of_nat (length (J AGENT_A_ID))) (Z.of_nat (length (J AGENT_B_ID))) else Empty).
Proof.
  intros Hs Hn. unfold handle. destruct (decide (badge = ORACLE_BADGE)) as [->|Ho].
  { destruct (oracle s) as [[x y]|] eqn:E; [|done]. intros [= <- <-]. destruct (oracle_ok _ _ _ _ Hs E) as [-> ->].
    exists J. split_and!; [done| |done]. intros a [-> | ->]; cbn; by rewrite app_nil_r. }
  destruct (decide (badge = AGENT_A_ID)) as [->|Ha].
  { destruct (serve s AGENT_A_ID ring_a) as [s1|] eqn:E; [|done]. intros [= <- <-].
    pose proof (Hn AGENT_A_ID ltac:(by left)) as Hb. cbn in Hb.
    eexists. split_and!; [by apply (serve_ok _ _ _ _ _ Hs ltac:(by left) Hb E)| |done].
    intros a [-> | ->]; cbn; [done|]. by rewrite app_nil_r. }
  destruct (decide (badge = AGENT_B_ID)) as [->|Hb].
  { destruct (serve s AGENT_B_ID ring_b) as [s1|] eqn:E; [|done]. intros [= <- <-].
    pose proof (Hn AGENT_B_ID ltac:(by right)) as Hb. cbn in Hb.
    eexists. split_and!; [by apply (serve_ok _ _ _ _ _ Hs ltac:(by right) Hb E)| |done].
    intros a [-> | ->]; cbn; [|done]. by rewrite app_nil_r. }
  intros [= <- <-]. exists J. split_and!; [done| |done].
  intros a Hag. unfold contributes. rewrite decide_False by (destruct Hag; congruence). by rewrite app_nil_r.
Qed.

(** C20: the server keeps the journals of the agents apart, whatever they do:
    after any sequence of messages, with whatever the agents put in their rings,
    the journal of an agent is what it was followed by what its own messages
    appended, in order, and the oracle answers their lengths; the badge decides,
    which the kernel sets. *)
Theorem journals_isolated ms s J rs s' :
  represents s J →
  (∀ a, agent a → Z.of_nat (length (J a ++ mjoin (contributes a <$> ms))) < 2 ^ 64)%Z →
  run_server s ms = Some (rs, s') →
  ∃ J', represents s' J' ∧ (∀ a, agent a → J' a = J a ++ mjoin (contributes a <$> ms))
    ∧ ∀ ms1 badge ring_a ring_b ms2, ms = ms1 ++ (badge, ring_a, ring_b) :: ms2 → badge = ORACLE_BADGE →
        rs !! length ms1 = Some (Seqs (Z.of_nat (length (J AGENT_A_ID ++ mjoin (contributes AGENT_A_ID <$> ms1))))
                                      (Z.of_nat (length (J AGENT_B_ID ++ mjoin (contributes AGENT_B_ID <$> ms1))))).
Proof.
  revert s J rs. induction ms as [|[[badge ra] rb] ms IH]; intros s J rs Hs Hn; cbn [run_server].
  { intros [= <- <-]. exists J. split_and!; [done|intros; cbn; by rewrite app_nil_r|]. intros [] ????; done. }
  destruct (handle ra rb s badge) as [[r s1]|] eqn:E; [|done]; cbn.
  destruct (run_server s1 ms) as [[rs1 s2]|] eqn:E2; [|done]; cbn. intros [= <- <-].
  destruct (handle_journals ra rb s badge r s1 J Hs) as (J1 & H1 & HJ1 & Hr); [|exact E|].
  { intros a Ha. specialize (Hn a Ha). cbn [fmap list_fmap mjoin list_join] in Hn. rewrite !length_app in *. lia. }
  destruct (IH s1 J1 rs1 H1) as (J2 & H2 & HJ2 & Ho); [|done|].
  { intros a Ha. specialize (Hn a Ha). rewrite (HJ1 a Ha). cbn [fmap list_fmap mjoin list_join] in Hn.
    by rewrite <-app_assoc. }
  exists J2. split_and!; [done| |].
  - intros a Ha. rewrite (HJ2 a Ha), (HJ1 a Ha), <-app_assoc. done.
  - intros [|m ms1] b xa xb ms2 Eq Hb; cbn in Eq; simplify_eq.
    + cbn. by rewrite !app_nil_r.
    + transitivity (rs1 !! length ms1); [done|]. rewrite (Ho ms1 ORACLE_BADGE xa xb ms2 eq_refl eq_refl).
      rewrite (HJ1 AGENT_A_ID) by by left. rewrite (HJ1 AGENT_B_ID) by by right.
      cbn [fmap list_fmap mjoin list_join]. by rewrite <-!app_assoc.
Qed.

End clients.

(** * A database in memory *)

#[global] Instance mem_redb : Redb := {|
  database := gmap string (gmap bytes bytes); wtxn := gmap string (gmap bytes bytes);
  begin_write d := Some d;
  open_table w n := Some (<[n := default ∅ (w !! n)]> w);
  t_insert w n k v := Some (<[n := <[k := v]> (default ∅ (w !! n))]> w);
  t_get w n k := Some (default ∅ (w !! n) !! k);
  t_commit w := Some w;
  r_has_table d n := bool_decide (is_Some (d !! n));
  r_get d n k := Some (default ∅ (d !! n) !! k) |}.
#[global] Instance mem_redb_laws : RedbLaws mem_redb.
Proof.
  refine {| tables (d : @database mem_redb) := d; wtables (w : @wtxn mem_redb) := w |}.
  all: cbn; intros; simplify_eq; done.
Defined.

Definition demo_hash : bytes := replicate 32 Byte.x07.
Definition demo_records : list Rec := [mkRec Byte.x01 demo_hash [Byte.x01]; mkRec Byte.x02 demo_hash []].
Definition demo_ring : RingBuffer :=
  let d := concat (enc <$> demo_records) in mkRing (Z.of_nat (length d)) d.
Definition demo_blob_ring : RingBuffer :=
  let d := enc (mkRec Byte.x00 demo_hash [Byte.x2a]) in mkRing (Z.of_nat (length d)) d.
Definition demo_messages : list message :=
  [(AGENT_A_ID, demo_ring, demo_blob_ring); (AGENT_B_ID, demo_ring, demo_blob_ring); (ORACLE_BADGE, demo_ring, demo_ring)].

Lemma journals_isolated_witness :
  ∃ rs s' J', run_server (C := q3c_store) q3c_new demo_messages = Some (rs, s') ∧ represents s' J'
    ∧ J' AGENT_A_ID = [demo_hash] ∧ J' AGENT_B_ID = [] ∧ rs !! 2 = Some (Seqs 1 0).
Proof.
  assert (match run_server (C := q3c_store) q3c_new demo_messages with Some _ => true | None => false end = true)
    as Hr by (vm_compute; reflexivity).
  destruct (run_server (C := q3c_store) q3c_new demo_messages) as [[rs s']|] eqn:E; [clear Hr|discriminate Hr].
  destruct (journals_isolated demo_messages (q3c_new : @store q3c_store) (λ _, []) rs s') as (J' & HR & HJ & Ho).
  - intros a. reflexivity.
  - intros a [-> | ->]; vm_compute; reflexivity.
  - exact E.
  - exists rs, s', J'. split_and!; [reflexivity|exact HR| | |].
    + rewrite (HJ AGENT_A_ID) by (left; reflexivity). vm_compute. reflexivity.
    + rewrite (HJ AGENT_B_ID) by (right; reflexivity). vm_compute. reflexivity.
    + pose proof (Ho [(AGENT_A_ID, demo_ring, demo_blob_ring); (AGENT_B_ID, demo_ring, demo_blob_ring)]
        ORACLE_BADGE demo_ring demo_ring [] eq_refl eq_refl) as Hq.
      cbn [length] in Hq. rewrite Hq. vm_compute. reflexivity.
Defined.
Lemma commit_to_redb_contents_witness :
  ∃ v d', commit_to_redb (∅ : @database mem_redb) AGENT_B_ID demo_blob_ring = Some (v, d')
    ∧ default ∅ (tables d' !! TABLE_BLOBS) !! demo_hash = Some [Byte.x2a].
Proof.
  assert (match commit_to_redb (∅ : @database mem_redb) AGENT_B_ID demo_blob_ring with Some _ => true | None => false end = true)
    as Hr by (vm_compute; reflexivity).
  destruct (commit_to_redb (∅ : @database mem_redb) AGENT_B_ID demo_blob_ring) as [[v d']|] eqn:E; [clear Hr|discriminate Hr].
  exists v, d'. split; [reflexivity|].
  pose proof (commit_to_redb_contents (∅ : @database mem_redb) AGENT_B_ID demo_blob_ring v d' E) as Hc.
  assert (ring_records demo_blob_ring = Some [mkRec Byte.x00 demo_hash [Byte.x2a]]) as Er by (vm_compute; reflexivity).
  rewrite Er in Hc. destruct Hc as (_ & _ & Hc). exact (Hc demo_hash [Byte.x2a] eq_refl).
Defined.
End Stores.
