(* ===== verification/Sel4Crash.v ===== *)
(** Sel4Crash: the crash points of the seL4 agents.

    Two runtimes and the store server run at once; the first may stop at one of
    four points of its commit, the second runs to its end.  Models [emit] and
    [main] of [poc/sel4-hello/c8-store/runtime/src/main.rs], one step per write
    another process could see or fall between, the server through its interface
    [Stores.CommitStore], and the verdict of
    [c8-store/supervisor/src/main.rs].  The system is the interleaving of their
    steps.  A call of the endpoint is one step: the server is a single thread,
    which answers it before it takes another message. *)
From Stdlib Require Import String.
From stdpp Require Import functions relations.
From S2P Require Import Prelude Windows Storage Sel4Ring Sel4Stores.

Module Crash.
Import Ring Stores.
Local Open Scope nat_scope.

(** * A runtime *)

(** [parse_kill_point(option_env!("KILL_POINT"))]: the runtime's, and the supervisor's. *)
Definition kill_digit (v : string) : option Z :=
  match v with
  | "1" => Some 1%Z | "2" => Some 2%Z | "3" => Some 3%Z | "4" => Some 4%Z | _ => None
  end%string.
Definition parse_kill_point (s : option string) : Z := default 0%Z (s ≫= kill_digit).
Definition supervisor_kill_point (s : option string) : Z := default 1%Z (s ≫= kill_digit).

Lemma kill_digit_cases v :
  kill_digit v = None ∨ ∃ k, kill_digit v = Some k ∧ (k = 1 ∨ k = 2 ∨ k = 3 ∨ k = 4)%Z.
Proof.
  destruct v as [|[[] [] [] [] [] [] [] []] [|c v]]; cbn; (by left) || (right; eexists; split; [done|lia]).
Qed.

(** Where a runtime is: the parts of [main] and of [emit] between the points where
    it may stop; [Stopped None] after the end, [Stopped (Some kp)] at a point. *)
Inductive Pc := Start | Blob | Header | Entry | Publish | Call | Reset | Stopped (kp : option Z) | Refused.
#[global] Instance Pc_eq_dec : EqDecision Pc.
Proof. solve_decision. Defined.
Record Thread := mkThread { pc : Pc; pos : nat; ring : RingBuffer }.

Section runtime.
Context `{Sha256}.
Context (KILL_POINT : Z) (EMIT_PAYLOAD : bytes).

Definition blob_hash : bytes := sha256 EMIT_PAYLOAD.
Definition header_hash : bytes := sha256 blob_hash.
Definition blob_rec : Rec := mkRec Byte.x00 blob_hash EMIT_PAYLOAD.
Definition header_rec : Rec := mkRec Byte.x01 header_hash blob_hash.
Definition entry_rec : Rec := mkRec Byte.x02 header_hash [].

(** [if KILL_POINT == kp { self_suspend_at(kp) }] *)
Definition stop_at (kp : Z) (next : Pc) : Pc := if decide (KILL_POINT = kp) then Stopped (Some kp) else next.
Definition put (t : Thread) (r : Rec) (next : Pc) : Thread :=
  let '(ok, (buf, p)) := write_record (data (ring t)) (pos t) r in
  mkThread (if ok : bool then next else Refused) p (mkRing (data_len (ring t)) buf).
Definition local_step (t : Thread) : option Thread :=
  match pc t with
  | Start => Some (mkThread Blob 0 (mkRing 0 (data (ring t))))
  | Blob => Some (put t blob_rec (stop_at 1 Header))
  | Header => Some (put t header_rec (stop_at 2 Entry))
  | Entry => Some (put t entry_rec Publish)
  | Publish => Some (mkThread (stop_at 3 Call) (pos t) (mkRing (u32 (Z.of_nat (pos t))) (data (ring t))))
  | Reset => Some (mkThread (Stopped None) (pos t) (mkRing 0 (data (ring t))))
  | Call | Stopped _ | Refused => None
  end.
(** After the answer of the server. *)
Definition after_call (t : Thread) : Thread := mkThread (stop_at 4 Reset) (pos t) (ring t).

End runtime.

(** * The system *)

Section system.
Context `{Sha256, C : CommitStore}.
Context (kp_a : Z) (payload_a payload_b : bytes).

Record Sys := mkSys { th_a : Thread; th_b : Thread; st : store }.
Inductive step : Sys → Sys → Prop :=
| step_a s t : local_step kp_a payload_a (th_a s) = Some t → step s (mkSys t (th_b s) (st s))
| step_b s t : local_step 0 payload_b (th_b s) = Some t → step s (mkSys (th_a s) t (st s))
| call_a s st' :
    pc (th_a s) = Call → serve (st s) AGENT_A_ID (ring (th_a s)) = Some st' →
    step s (mkSys (after_call kp_a (th_a s)) (th_b s) st')
| call_b s st' :
    pc (th_b s) = Call → serve (st s) AGENT_B_ID (ring (th_b s)) = Some st' →
    step s (mkSys (th_a s) (after_call 0 (th_b s)) st').
(** One process at a time, chosen by a schedule: [true] for the first. *)
Definition turn (w : bool) (s : Sys) : option Sys :=
  if w then
    if decide (pc (th_a s) = Call) then mkSys (after_call kp_a (th_a s)) (th_b s) <$> serve (st s) AGENT_A_ID (ring (th_a s))
    else (λ t, mkSys t (th_b s) (st s)) <$> local_step kp_a payload_a (th_a s)
  else
    if decide (pc (th_b s) = Call) then mkSys (th_a s) (after_call 0 (th_b s)) <$> serve (st s) AGENT_B_ID (ring (th_b s))
    else (λ t, mkSys (th_a s) t (st s)) <$> local_step 0 payload_b (th_b s).
Fixpoint turns (ws : list bool) (s : Sys) : option Sys :=
  match ws with [] => Some s | w :: ws => turn w s ≫= turns ws end.
Lemma turns_steps ws s s' : turns ws s = Some s' → rtc step s s'.
Proof.
  revert s. induction ws as [|w ws IH]; intros s E; [by injection E as <-|].
  cbn in E. destruct (turn w s) as [s1|] eqn:Et; [|done]. apply rtc_l with s1; [|by apply IH].
  clear IH E. unfold turn in Et. destruct w, s; case_decide; apply fmap_Some in Et as (? & E & ->); by constructor.
Qed.
Definition stopped (t : Thread) : Prop := match pc t with Stopped _ | Refused => True | _ => False end.

(** The supervisor waits for both, asks the oracle, and prints PASS or FAIL. *)
Definition verdict (KILL_POINT : Z) (seqs : Z * Z) : bool :=
  let expected_seq_a := if decide (KILL_POINT = 4)%Z then 1%Z else 0%Z in
  bool_decide (seqs.1 = expected_seq_a) && bool_decide (seqs.2 = 1%Z).

End system.

(** * What the steps preserve *)

Section proofs.
Context `{S : Sha256, !Sha256Laws S} `{C : CommitStore, CL : !CommitStoreLaws C}.

Definition room (p : bytes) : Prop := length p + 143 ≤ RING_BYTES.
Lemma blob_ok p : room p → rec_ok (blob_rec p).
Proof. unfold room, RING_BYTES. intros. split; cbn; [apply sha256_len|lia]. Qed.
Lemma header_ok p : rec_ok (header_rec p).
Proof. split; cbn; [apply sha256_len|]. unfold blob_hash. by rewrite sha256_len. Qed.
Lemma entry_ok p : rec_ok (entry_rec p).
Proof. split; cbn; [apply sha256_len|done]. Qed.
Definition batch (p : bytes) : bytes := enc (blob_rec p) ++ enc (header_rec p) ++ enc (entry_rec p).
Lemma length_batch p : length (enc (blob_rec p)) = 37 + length p ∧ length (enc (header_rec p)) = 69
  ∧ length (enc (entry_rec p)) = 37.
Proof.
  rewrite !length_enc by apply sha256_len. cbn. unfold blob_hash. rewrite sha256_len. lia.
Qed.
(** What the server reads in a published ring. *)
Lemma batch_appended p len d :
  room p → len = Z.of_nat (length (batch p)) → take (length (batch p)) d = batch p → appended (mkRing len d) = [header_hash p].
Proof.
  intros Hp -> Hd. destruct (length_batch p) as (L1 & L2 & L3). unfold room in Hp.
  assert (length (batch p) = 143 + length p) as Lb by (unfold batch; rewrite !length_app; lia).
  unfold appended, ring_records. cbn [data_len data]. rewrite decide_False by lia.
  rewrite Nat2Z.id, Hd. cbn [from_option].
  pose proof (parse_records_encoded [blob_rec p; header_rec p; entry_rec p] []) as E.
  cbn [fmap list_fmap concat] in E. rewrite !app_nil_r in E. unfold batch. rewrite E; [done| |cbn; lia].
  repeat apply Forall_cons_2; [by apply blob_ok|apply header_ok|apply entry_ok|apply Forall_nil_2].
Qed.
Lemma not_published d : appended (mkRing 0 d) = [].
Proof. done. Qed.

(** The runtime is not to stop at a point up to the [n]th. *)
Definition past (kp n : Z) : Prop := (kp < 1 ∨ n < kp)%Z.
(** A runtime, and the entries it has in the journal: none before the answer of the
    server, one after it. *)
Definition thread_ok (kp : Z) (p : bytes) (t : Thread) (j : list bytes) : Prop :=
  length (data (ring t)) = RING_BYTES ∧
  match pc t with
  | Start => j = []
  | Blob => j = [] ∧ pos t = 0 ∧ data_len (ring t) = 0%Z
  | Header => j = [] ∧ past kp 1 ∧ pos t = length (enc (blob_rec p))
      ∧ take (pos t) (data (ring t)) = enc (blob_rec p) ∧ data_len (ring t) = 0%Z
  | Entry => j = [] ∧ past kp 2 ∧ pos t = length (enc (blob_rec p) ++ enc (header_rec p))
      ∧ take (pos t) (data (ring t)) = enc (blob_rec p) ++ enc (header_rec p) ∧ data_len (ring t) = 0%Z
  | Publish => j = [] ∧ past kp 2 ∧ pos t = length (batch p) ∧ take (pos t) (data (ring t)) = batch p
  | Call => j = [] ∧ past kp 3 ∧ appended (ring t) = [header_hash p]
  | Reset => j = [header_hash p] ∧ past kp 4
  | Stopped None => j = [header_hash p] ∧ past kp 4 ∧ appended (ring t) = []
  | Stopped (Some k) => k = kp ∧ (1 ≤ kp ≤ 4)%Z ∧ j = (if decide (kp = 4)%Z then [header_hash p] else [])
      ∧ ((kp ≤ 2)%Z → appended (ring t) = [])
  | Refused => False
  end.

Lemma put_fits t r next :
  rec_ok r → pos t + length (enc r) ≤ length (data (ring t)) →
  ∃ d, put t r next = mkThread next (pos t + length (enc r)) (mkRing (data_len (ring t)) d)
    ∧ length d = length (data (ring t)) ∧ take (pos t + length (enc r)) d = take (pos t) (data (ring t)) ++ enc r.
Proof.
  intros Hr Hl. destruct (write_record_fits _ _ _ Hr Hl) as (d & E & L & T & _). exists d. unfold put. by rewrite E.
Qed.
Lemma stop_at_cases kp n next :
  stop_at kp n next = Stopped (Some n) ∧ kp = n ∨ stop_at kp n next = next ∧ kp ≠ n.
Proof. unfold stop_at. case_decide; [by left|by right]. Qed.
Lemma local_ok kp p t j t' : room p → thread_ok kp p t j → local_step kp p t = Some t' → thread_ok kp p t' j.
Proof.
  intros Hp [Hlen Ht] E. destruct (length_batch p) as (L1 & L2 & L3). unfold local_step in E.
  assert (length (batch p) = 143 + length p) as Lb by (unfold batch; rewrite !length_app; lia). pose proof Hp as Hp'.
  unfold room, RING_BYTES in Hp'. unfold RING_BYTES in Hlen.
  destruct (pc t) eqn:Epc; try done; injection E as <-.
  - split; [done|]. cbn. by split_and!.
  - destruct Ht as (-> & H0 & Hd). destruct (put_fits t (blob_rec p) (stop_at kp 1 Header)) as (d & -> & Ld & Td);
      [by apply blob_ok|lia|]. split; [by cbn; rewrite Ld|]. cbn [pc pos ring data data_len]. rewrite H0 in *. cbn in Td.
    destruct (stop_at_cases kp 1 Header) as [[-> ->]|[-> Hk]].
    + split_and!; try done; intros _; by rewrite Hd.
    + split_and!; try done; unfold past; lia.
  - destruct Ht as (-> & Hk & H0 & HT & Hd). destruct (put_fits t (header_rec p) (stop_at kp 2 Entry)) as (d & -> & Ld & Td);
      [apply header_ok|lia|]. split; [by cbn; rewrite Ld|]. cbn [pc pos ring data data_len].
    rewrite HT in Td. destruct (stop_at_cases kp 2 Entry) as [[-> ->]|[-> Hk2]].
    + split_and!; try done; intros _; by rewrite Hd.
    + split_and!; try done; [unfold past in *; lia|by rewrite length_app, H0].
  - destruct Ht as (-> & Hk & H0 & HT & Hd). rewrite length_app in H0.
    destruct (put_fits t (entry_rec p) Publish) as (d & -> & Ld & Td);
      [apply entry_ok|lia|]. split; [by cbn; rewrite Ld|]. cbn [pc pos ring data data_len].
    rewrite HT, <-app_assoc in Td. split_and!; try done; unfold batch; rewrite !length_app; lia.
  - destruct Ht as (-> & Hk & H0 & HT). split; [done|]. cbn [pc pos ring data data_len].
    destruct (stop_at_cases kp 3 Call) as [[-> ->]|[-> Hk3]].
    + split_and!; try done; lia.
    + split_and!; [done|unfold past in *; lia|]. rewrite H0 in HT. apply batch_appended; [done| |done].
      rewrite H0. apply wrap_small. unfold in_width. lia.
  - destruct Ht as (-> & Hk). split; [done|]. by split_and!.
Qed.
Lemma after_call_ok kp p t :
  thread_ok kp p t [] → pc t = Call → thread_ok kp p (after_call kp t) [header_hash p] ∧ appended (ring t) = [header_hash p].
Proof.
  intros [Hlen Ht] Epc. rewrite Epc in Ht. destruct Ht as (_ & Hk & Ha). split; [|done]. split; [done|]. cbn.
  destruct (stop_at_cases kp 4 Reset) as [[-> ->]|[-> Hk4]]; [split_and!; try done; lia|].
  split; [done|]. unfold past in *. lia.
Qed.

Definition sys_ok (kp : Z) (pa pb : bytes) (J0 : journals) (s : Sys) : Prop :=
  ∃ J ja jb, represents (st s) J ∧ J AGENT_A_ID = J0 AGENT_A_ID ++ ja ∧ J AGENT_B_ID = J0 AGENT_B_ID ++ jb
    ∧ thread_ok kp pa (th_a s) ja ∧ thread_ok 0 pb (th_b s) jb.

Section run.
Context (kp : Z) (pa pb : bytes) (J0 : journals) (Hpa : room pa) (Hpb : room pb).
Context (Hsmall : ∀ a, agent a → (Z.of_nat (length (J0 a)) + 1 < 2 ^ 64)%Z).

Lemma step_ok s s' : sys_ok kp pa pb J0 s → step kp pa pb s s' → sys_ok kp pa pb J0 s'.
Proof.
  intros (J & ja & jb & HR & HA & HB & Ta & Tb) Hs. destruct Hs as [s t E|s t E|s st' Epc E|s st' Epc E]; cbn in *.
  - exists J, ja, jb. split_and!; try done. by eapply local_ok.
  - exists J, ja, jb. split_and!; try done. by eapply local_ok.
  - assert (ja = []) as -> by (destruct Ta as [_ Ta]; rewrite Epc in Ta; tauto). rewrite app_nil_r in HA.
    destruct (after_call_ok _ _ _ Ta Epc) as [Ta' Hap].
    exists (<[AGENT_A_ID := J AGENT_A_ID ++ [header_hash pa]]> J), [header_hash pa], jb. split_and!; try done.
    + rewrite <-Hap. apply (serve_ok (st s) J AGENT_A_ID (ring (th_a s))); [done|by left| |done].
      rewrite Hap, HA, length_app. pose proof (Hsmall AGENT_A_ID ltac:(by left)). cbn. lia.
    + by rewrite fn_lookup_insert, HA.
  - assert (jb = []) as -> by (destruct Tb as [_ Tb]; rewrite Epc in Tb; tauto). rewrite app_nil_r in HB.
    destruct (after_call_ok _ _ _ Tb Epc) as [Tb' Hap].
    exists (<[AGENT_B_ID := J AGENT_B_ID ++ [header_hash pb]]> J), ja, [header_hash pb]. split_and!; try done.
    + rewrite <-Hap. apply (serve_ok (st s) J AGENT_B_ID (ring (th_b s))); [done|by right| |done].
      rewrite Hap, HB, length_app. pose proof (Hsmall AGENT_B_ID ltac:(by right)). cbn. lia.
    + by rewrite fn_lookup_insert, HB.
Qed.
Lemma steps_ok s s' : sys_ok kp pa pb J0 s → rtc (step kp pa pb) s s' → sys_ok kp pa pb J0 s'.
Proof. intros Hs Hr. induction Hr as [|x y z Hxy _ IH]; [done|]. by apply IH, (step_ok x). Qed.

End run.

(** The initial state: both runtimes at their start. *)
Definition initial (s : Sys) : Prop :=
  pc (th_a s) = Start ∧ pc (th_b s) = Start
  ∧ length (data (ring (th_a s))) = RING_BYTES ∧ length (data (ring (th_b s))) = RING_BYTES.

(** C18: in every interleaving of two runtimes and the server, whatever point the
    first one is to stop at: its journal is at every moment what it was or what
    it was with its one complete entry (I3-N), the other's likewise, undisturbed
    (I4); when both have stopped, the first has its entry exactly if it was not
    stopped before the answer of the server, the second has its entry, and the
    verdict of the supervisor on empty journals is PASS exactly if the kill point
    was given to both by the environment. *)
Theorem kill_points_i3n_i4 kp pa pb J0 s0 s :
  room pa → room pb → (∀ a, agent a → (Z.of_nat (length (J0 a)) + 1 < 2 ^ 64)%Z) →
  initial s0 → represents (st s0) J0 → rtc (step kp pa pb) s0 s →
  ∃ J, represents (st s) J
    ∧ (J AGENT_A_ID = J0 AGENT_A_ID ∨ J AGENT_A_ID = J0 AGENT_A_ID ++ [header_hash pa])
    ∧ (J AGENT_B_ID = J0 AGENT_B_ID ∨ J AGENT_B_ID = J0 AGENT_B_ID ++ [header_hash pb])
    ∧ (stopped (th_a s) → stopped (th_b s) →
        J AGENT_A_ID = J0 AGENT_A_ID ++ (if decide (1 ≤ kp ≤ 3)%Z then [] else [header_hash pa])
        ∧ J AGENT_B_ID = J0 AGENT_B_ID ++ [header_hash pb]
        ∧ ∀ v x, J0 AGENT_A_ID = [] → J0 AGENT_B_ID = [] → kp = parse_kill_point v → oracle (st s) = Some x →
            verdict (supervisor_kill_point v) x = bool_decide (is_Some (v ≫= kill_digit))).
Proof.
  intros Hpa Hpb Hsm (Ea & Eb & La & Lb) HR Hs.
  destruct (steps_ok kp pa pb J0 Hpa Hpb Hsm s0 s) as (J & ja & jb & HJ & HA & HB & [_ Ta] & [_ Tb]); [|done|].
  { exists J0, [], []. rewrite !app_nil_r. split_and!; try done; split; try done; by rewrite ?Ea, ?Eb. }
  exists J. split_and!; [done| | |].
  - rewrite HA. destruct (pc (th_a s)) as [| | | | | | |[k|]|]; try tauto.
    all: destruct_and?; subst; rewrite ?app_nil_r; eauto.
    all: destruct (decide (kp = 4)%Z); rewrite ?app_nil_r; eauto.
  - rewrite HB. destruct (pc (th_b s)) as [| | | | | | |[k|]|]; try tauto.
    all: destruct_and?; subst; rewrite ?app_nil_r; eauto; lia.
  - unfold stopped. intros Sa Sb. assert (jb = [header_hash pb]) as ->.
    { destruct (pc (th_b s)) as [| | | | | | |[k|]|]; try done; [|tauto]. destruct Tb as (_ & Hk & _). lia. }
    assert (ja = if decide (1 ≤ kp ≤ 3)%Z then [] else [header_hash pa]) as ->.
    { destruct (pc (th_a s)) as [| | | | | | |[k|]|]; try done.
      - destruct Ta as (_ & Hk & -> & _). destruct (decide (kp = 4)%Z), (decide (1 ≤ kp ≤ 3)%Z); try done; lia.
      - destruct Ta as (-> & Hk & _). rewrite decide_False; [done|]. unfold past in Hk. lia. }
    split_and!; [done|done|]. intros v [x y] H1 H2 -> Ho. destruct (oracle_ok _ _ _ _ HJ Ho) as [-> ->].
    rewrite HA, HB, H1, H2. unfold verdict, parse_kill_point, supervisor_kill_point. cbn [fst snd].
    destruct v as [v|]; [|done]. cbn [mbind option_bind].
    destruct (kill_digit_cases v) as [->|(k & -> & [-> |[-> |[-> | ->]]])]; done.
Qed.

End proofs.

(** * A run *)

Definition demo_payload : bytes := [Byte.x43; Byte.x37].
Definition demo_ring0 : RingBuffer := mkRing 0 (replicate RING_BYTES Byte.x00).
Definition demo_sys : Sys (C := q3c_store) := mkSys (mkThread Start 0 demo_ring0) (mkThread Start 0 demo_ring0) q3c_new.
(** The first runtime stops after its blob, the second goes to its end. *)
Definition demo_schedule : list bool := [true; false; false; false; true; false; false; false; false].
Definition demo_turns : option Sys := turns (C := q3c_store) 1 demo_payload demo_payload demo_schedule demo_sys.
Lemma demo_ends :
  ∃ s, demo_turns = Some s ∧ pc (th_a s) = Stopped (Some 1%Z) ∧ pc (th_b s) = Stopped None.
Proof.
  assert (match demo_turns with
          | Some s => bool_decide (pc (th_a s) = Stopped (Some 1%Z)) && bool_decide (pc (th_b s) = Stopped None)
          | None => false end = true) as E by (vm_compute; reflexivity).
  destruct demo_turns as [s|]; [|by discriminate E]. apply andb_prop in E as [Ea Eb].
  exists s. split; [reflexivity|]. split; [exact (bool_decide_eq_true_1 _ Ea)|exact (bool_decide_eq_true_1 _ Eb)].
Qed.
Lemma demo_initial : initial demo_sys.
Proof. split_and!; [reflexivity|reflexivity|apply length_replicate|apply length_replicate]. Qed.
Lemma kill_points_i3n_i4_witness :
  ∃ s, demo_turns = Some s
    ∧ ∃ J, represents (CommitStoreLaws := q3c_store_laws) (st s) J
      ∧ J AGENT_A_ID = [] ∧ J AGENT_B_ID = [header_hash demo_payload].
Proof.
  destruct demo_ends as (s & Es & Ea & Eb). exists s. split; [exact Es|].
  destruct (kill_points_i3n_i4 (C := q3c_store) (CL := q3c_store_laws) 1 demo_payload demo_payload (λ _, []) demo_sys s)
    as (J & HJ & _ & _ & HE).
  - apply Nat.leb_le. vm_compute. reflexivity.
  - apply Nat.leb_le. vm_compute. reflexivity.
  - intros a _. reflexivity.
  - exact demo_initial.
  - intros a. reflexivity.
  - exact (turns_steps _ _ _ _ _ _ Es).
  - destruct HE as (HA & HB & _); [unfold stopped; rewrite Ea; exact I|unfold stopped; rewrite Eb; exact I|].
    rewrite decide_True in HA by lia. exists J. exact (conj HJ (conj HA HB)).
Defined.
End Crash.
