(* ===== verification/Sel4Kernel.v ===== *)
(** Sel4Kernel: the interface of the seL4 kernel to its programs.

    The programs under [poc/sel4-hello] are capability slots and kernel calls.
    [Kernel] lists the calls they make and what can be observed of their effect:
    the frame behind a slot, the entries of the page tables, the contents of
    frames, the untyped memory an object was taken from.  [KernelLaws] states the
    documented effect of each call on frames held with read and write rights;
    nothing is said of which calls succeed.
    [mem_kernel] is a small kernel with these laws, used by witnesses only. *)
From S2P Require Import Prelude Windows.
Local Open Scope Z_scope.

Definition GRANULE_SIZE : Z := 4096.
(** [n.next_multiple_of(g)], without the wrap-around of the word. *)
Definition align_up (n g : Z) : Z := (n + g - 1) / g * g.

(** [usize::next_multiple_of], as compiled for release: it wraps. *)
Definition next_multiple_of (n g : Z) : Z := if decide (n `mod` g = 0) then n else u64 (n + (g - n `mod` g)).

(** [CapRights], and the entry of a page table. *)
Record Rights := mkRights { can_read : bool; can_write : bool; can_grant : bool }.
Record Pte := mkPte { page_frame : Z; pte_read : bool; pte_write : bool; pte_xn : bool }.
(** [ObjectBlueprint]: the objects the programs create. *)
Inductive Blueprint := SmallPage | UntypedObject (size_bits : Z) | Table (level : Z) | VSpaceObject | Other (size_bits : Z).
#[global] Instance Pte_eq_dec : EqDecision Pte.
Proof. solve_decision. Defined.
#[global] Instance Rights_eq_dec : EqDecision Rights.
Proof. solve_decision. Defined.
#[global] Instance Blueprint_eq_dec : EqDecision Blueprint.
Proof. solve_decision. Defined.

(** The calls.  Slots, physical and virtual addresses are integers; a call that
    fails ([None]) changes nothing. *)
Class Kernel := {
  kstate : Type;
  untyped_retype : kstate → Z → Blueprint → Z → Z → option kstate;
  slot_delete : kstate → Z → option kstate;
  slot_move : kstate → Z → Z → option kstate;
  asid_assign : kstate → Z → option kstate;
  table_map : kstate → Z → Z → Z → Z → option kstate;
  frame_map : kstate → Z → Z → Z → Rights → bool → option kstate;
  frame_unmap : kstate → Z → option kstate;
  poke : kstate → Z → Z → bytes → option kstate;
  NUM_LEVELS : Z;
  span_bits : Z → Z;
  object_bits : Blueprint → Z;
  (** What can be observed. *)
  frame_of : kstate → Z → option Z;
  pte : kstate → Z → Z → option Pte;
  memory : kstate → Z → bytes;
  parent : kstate → Z → option Z;
  ut_base : Z → Z;
  ut_device : Z → bool;
  ut_free : kstate → Z → Z }.

Section observe.
Context `{Kernel}.
(** Nothing that can be observed of frames and page tables differs. *)
Definition same_memory (k k' : kstate) : Prop :=
  (∀ vs va, pte k' vs va = pte k vs va) ∧ (∀ f, memory k' f = memory k f).
(** A frame that no slot and no page table knows. *)
Definition unused (k : kstate) (f : Z) : Prop :=
  (∀ c, frame_of k c ≠ Some f) ∧ (∀ vs va p, pte k vs va = Some p → page_frame p ≠ f).
Definition used (k : kstate) (f : Z) : Prop :=
  (∃ c, frame_of k c = Some f) ∨ (∃ vs va p, pte k vs va = Some p ∧ page_frame p = f).
(** Where the next object taken from [ut] begins: the memory is taken in order, and
    all over again when no object is left. *)
Definition retype_start (k : kstate) (ut b start : Z) : Prop :=
  ((∃ c, parent k c = Some ut) → start = align_up (ut_free k ut) (2 ^ b))
  ∧ ((∀ c, parent k c ≠ Some ut) → start = align_up (ut_base ut) (2 ^ b)).
End observe.

Class KernelLaws (K : Kernel) := {
  object_bits_page : object_bits SmallPage = 12;
  object_bits_untyped b : 0 ≤ b → object_bits (UntypedObject b) = b;
  object_bits_pos b : 0 ≤ object_bits b;
  retype_ok k ut bp slot n k' :
    untyped_retype k ut bp slot n = Some k' →
    0 < n
    ∧ (∀ vs va, pte k' vs va = pte k vs va)
    ∧ (∀ f, used k f → memory k' f = memory k f)
    ∧ (∀ c, c < slot ∨ slot + n ≤ c → frame_of k' c = frame_of k c ∧ parent k' c = parent k c)
    ∧ (∀ i, 0 ≤ i < n → frame_of k (slot + i) = None ∧ parent k' (slot + i) = Some ut)
    ∧ (∀ ut', ut' ≠ ut → ut_free k' ut' = ut_free k ut')
    ∧ ∃ start, retype_start k ut (object_bits bp) start
      ∧ ut_free k' ut = start + n * 2 ^ object_bits bp
      ∧ (bp = SmallPage → ∀ i, 0 ≤ i < n → let f := start + i * GRANULE_SIZE in
          frame_of k' (slot + i) = Some f ∧ unused k f
          ∧ (ut_device ut = false → memory k' f = replicate (Z.to_nat GRANULE_SIZE) Byte.x00));
  slot_delete_ok k c k' :
    slot_delete k c = Some k' →
    parent k' c = None ∧ (∀ c', c' ≠ c → parent k' c' = parent k c' ∧ frame_of k' c' = frame_of k c')
    ∧ ∀ ut, ut_free k' ut = ut_free k ut;
  slot_move_ok k c d k' :
    slot_move k c d = Some k' →
    parent k' d = parent k c ∧ (c ≠ d → parent k' c = None)
    ∧ (∀ c', c' ≠ c → c' ≠ d → parent k' c' = parent k c' ∧ frame_of k' c' = frame_of k c')
    ∧ ∀ ut, ut_free k' ut = ut_free k ut;
  asid_assign_ok k vs k' : asid_assign k vs = Some k' → same_memory k k' ∧ ∀ c, frame_of k' c = frame_of k c;
  table_map_ok k c l vs va k' : table_map k c l vs va = Some k' → same_memory k k' ∧ ∀ c, frame_of k' c = frame_of k c;
  frame_map_ok k c vs va r xn k' :
    frame_map k c vs va r xn = Some k' →
    (∃ p, pte k' vs va = Some p ∧ frame_of k c = Some (page_frame p) ∧ pte_xn p = xn
      ∧ (pte_read p = true → can_read r = true) ∧ (pte_write p = true → can_write r = true)
      ∧ (can_read r = true → pte_read p = true ∧ pte_write p = can_write r))
    ∧ (∀ vs' va', (vs', va') ≠ (vs, va) → pte k' vs' va' = pte k vs' va')
    ∧ (∀ f, memory k' f = memory k f) ∧ ∀ c, frame_of k' c = frame_of k c;
  frame_unmap_ok k c k' :
    frame_unmap k c = Some k' →
    (∀ vs va, pte k' vs va = pte k vs va
      ∨ pte k' vs va = None ∧ ∃ p, pte k vs va = Some p ∧ frame_of k c = Some (page_frame p))
    ∧ (∀ f, memory k' f = memory k f) ∧ ∀ c, frame_of k' c = frame_of k c;
  poke_ok k vs va d k' :
    poke k vs va d = Some k' → va `mod` GRANULE_SIZE + Z.of_nat (length d) ≤ GRANULE_SIZE →
    (∃ p, pte k vs (va - va `mod` GRANULE_SIZE) = Some p
      ∧ memory k' (page_frame p) = splice (memory k (page_frame p)) (va `mod` GRANULE_SIZE) d
      ∧ ∀ f, f ≠ page_frame p → memory k' f = memory k f)
    ∧ (∀ vs va, pte k' vs va = pte k vs va) ∧ ∀ c, frame_of k' c = frame_of k c }.

(** * A small kernel *)

Record MemKernel := mkMemKernel {
  mk_frames : gmap Z Z; mk_parents : gmap Z Z; mk_free : gmap Z Z; mk_ptes : gmap (Z * Z) Pte; mk_mem : gmap Z bytes }.
Definition mem_bits (bp : Blueprint) : Z :=
  match bp with SmallPage => 12 | UntypedObject b => Z.max 0 b | _ => 12 end.
Definition mem_base (ut : Z) : Z := ut * 2 ^ 30.
Definition mem_memory (k : MemKernel) (f : Z) : bytes := default (replicate (Z.to_nat GRANULE_SIZE) Byte.x00) (mk_mem k !! f).
Definition has_value (m : gmap Z Z) (v : Z) : bool := existsb (λ p, p.2 =? v) (map_to_list m).
Definition mem_unused (k : MemKernel) (f : Z) : bool :=
  negb (has_value (mk_frames k) f) && negb (existsb (λ p, page_frame p.2 =? f) (map_to_list (mk_ptes k))).
Definition mem_start (k : MemKernel) (ut b : Z) : Z :=
  align_up (if has_value (mk_parents k) ut then default 0 (mk_free k !! ut) else mem_base ut) (2 ^ b).
Definition set_slots (m : gmap Z Z) (slot n : Z) (v : Z → Z) : gmap Z Z :=
  foldr (λ i m, <[slot + i := v i]> m) m (seqZ 0 n).
Definition mem_retype (k : MemKernel) (ut : Z) (bp : Blueprint) (slot n : Z) : option MemKernel :=
  let start := mem_start k ut (mem_bits bp) in
  let fs := (λ i, start + i * GRANULE_SIZE) <$> seqZ 0 n in
  if (0 <? n) && forallb (λ i, bool_decide (mk_frames k !! (slot + i) = None)) (seqZ 0 n) && forallb (mem_unused k) fs then
    Some (mkMemKernel
      (if decide (bp = SmallPage) then set_slots (mk_frames k) slot n (λ i, start + i * GRANULE_SIZE) else mk_frames k)
      (set_slots (mk_parents k) slot n (λ _, ut))
      (<[ut := start + n * 2 ^ mem_bits bp]> (mk_free k)) (mk_ptes k) (foldr delete (mk_mem k) fs))
  else None.
Definition mem_frame_map (k : MemKernel) (c vs va : Z) (r : Rights) (xn : bool) : option MemKernel :=
  f ← mk_frames k !! c;
  Some (mkMemKernel (mk_frames k) (mk_parents k) (mk_free k)
    (<[(vs, va) := mkPte f (can_read r) (can_read r && can_write r) xn]> (mk_ptes k)) (mk_mem k)).
Definition mem_frame_unmap (k : MemKernel) (c : Z) : option MemKernel :=
  f ← mk_frames k !! c;
  Some (mkMemKernel (mk_frames k) (mk_parents k) (mk_free k) (filter (λ p, page_frame p.2 ≠ f) (mk_ptes k)) (mk_mem k)).
Definition mem_poke (k : MemKernel) (vs va : Z) (d : bytes) : option MemKernel :=
  p ← mk_ptes k !! (vs, va - va `mod` GRANULE_SIZE);
  if pte_write p then
    Some (mkMemKernel (mk_frames k) (mk_parents k) (mk_free k) (mk_ptes k)
      (<[page_frame p := splice (mem_memory k (page_frame p)) (va `mod` GRANULE_SIZE) d]> (mk_mem k)))
  else None.
#[global] Instance mem_kernel : Kernel := {|
  kstate := MemKernel; untyped_retype := mem_retype;
  slot_delete k c := Some (mkMemKernel (mk_frames k) (delete c (mk_parents k)) (mk_free k) (mk_ptes k) (mk_mem k));
  slot_move k c d := p ← mk_parents k !! c;
    Some (mkMemKernel (mk_frames k) (<[d := p]> (delete c (mk_parents k))) (mk_free k) (mk_ptes k) (mk_mem k));
  asid_assign k _ := Some k; table_map k _ _ _ _ := Some k;
  frame_map := mem_frame_map; frame_unmap := mem_frame_unmap; poke := mem_poke;
  NUM_LEVELS := 4; span_bits l := 48 - 9 * l; object_bits := mem_bits;
  frame_of k c := mk_frames k !! c; pte k vs va := mk_ptes k !! (vs, va); memory := mem_memory;
  parent k c := mk_parents k !! c; ut_base := mem_base; ut_device := Z.odd; ut_free k ut := default 0 (mk_free k !! ut) |}.
Definition mem_boot : @kstate mem_kernel := mkMemKernel ∅ ∅ ∅ ∅ ∅.

Lemma has_value_true m v : has_value m v = true ↔ ∃ c, m !! c = Some v.
Proof.
  unfold has_value. rewrite existsb_exists. split.
  - intros ([c w] & Hin & E%Z.eqb_eq). cbn in E. subst w. exists c. apply elem_of_map_to_list. by apply list_elem_of_In.
  - intros [c Hc]. exists (c, v). split; [|apply Z.eqb_refl]. by apply list_elem_of_In, elem_of_map_to_list.
Qed.
Lemma mem_unused_ok k f : mem_unused k f = true → unused (H := mem_kernel) k f.
Proof.
  intros [H1%negb_true_iff H2%negb_true_iff]%andb_prop. split.
  - intros c Hc. assert (has_value (mk_frames k) f = true) by (apply has_value_true; exists c; exact Hc). congruence.
  - intros vs va p Hp <-. assert (existsb (λ q : Z * Z * Pte, page_frame q.2 =? page_frame p) (map_to_list (mk_ptes k)) = true); [|congruence].
    apply existsb_exists. exists ((vs, va), p). split; [|apply Z.eqb_refl]. by apply list_elem_of_In, elem_of_map_to_list.
Qed.
Lemma set_slots_out m slot n v c : c < slot ∨ slot + n ≤ c → set_slots m slot n v !! c = m !! c.
Proof.
  intros Hc. unfold set_slots. assert (∀ i, i ∈ seqZ 0 n → slot + i ≠ c) as Hi by (intros i Hin%elem_of_seqZ; lia).
  induction (seqZ 0 n) as [|i l IH]; [done|]. cbn. rewrite lookup_insert_ne by (apply Hi; set_solver).
  apply IH. intros j Hj. apply Hi. set_solver.
Qed.
Lemma set_slots_in m slot n v i : 0 ≤ i < n → set_slots m slot n v !! (slot + i) = Some (v i).
Proof.
  intros Hi. unfold set_slots. assert (i ∈ seqZ 0 n) as Hin by (apply elem_of_seqZ; lia).
  induction (seqZ 0 n) as [|j l IH]; [set_solver|]. cbn. destruct (decide (j = i)) as [->|Hne].
  - by rewrite lookup_insert_eq.
  - rewrite lookup_insert_ne by lia. apply IH. set_solver.
Qed.
Lemma mem_deleted (l : list Z) (m : gmap Z bytes) f : foldr delete m l !! f = if decide (f ∈ l) then None else m !! f.
Proof.
  induction l as [|g l IH]; [done|]. cbn. destruct (decide (g = f)) as [->|Hne].
  - rewrite lookup_delete_eq, decide_True by set_solver. done.
  - rewrite lookup_delete_ne, IH by done. repeat case_decide; try done; set_solver.
Qed.
#[global] Instance mem_kernel_laws : KernelLaws mem_kernel.
Proof.
  split.
  - done.
  - cbn. lia.
  - intros []; cbn; lia.
  - intros k ut bp slot n k' E. cbn [untyped_retype mem_kernel] in E. unfold mem_retype in E.
    set (start := mem_start k ut (mem_bits bp)) in *. cbv zeta in E. destruct (_ && _) eqn:Hg; [|done]. injection E as <-.
    apply andb_prop in Hg as [Hg Hf]. apply andb_prop in Hg as [Hn%Z.ltb_lt He].
    rewrite forallb_forall in Hf. rewrite forallb_forall in He.
    assert (∀ i, 0 ≤ i < n → unused (H := mem_kernel) k (start + i * GRANULE_SIZE)) as Hu.
    { intros i Hi. apply mem_unused_ok, Hf, list_elem_of_In, list_elem_of_fmap. exists i. by rewrite elem_of_seqZ. }
    split_and!; [done|done| | | | |].
    + intros f Hused. cbn. unfold mem_memory. cbn. rewrite mem_deleted, decide_False; [done|].
      intros (i & -> & Hi%elem_of_seqZ)%list_elem_of_fmap. destruct (Hu i ltac:(lia)) as [U1 U2].
      destruct Hused as [[c Hc]|(vs & va & p & Hp & Ep)]; [by apply (U1 c)|by apply (U2 vs va p)].
    + intros c Hc. cbn. rewrite set_slots_out by done. by case_decide; rewrite ?set_slots_out.
    + intros i Hi. cbn. split; [|by rewrite set_slots_in]. eapply bool_decide_eq_true_1, He, list_elem_of_In.
      by rewrite elem_of_seqZ.
    + intros ut' Hut. cbn. by rewrite lookup_insert_ne.
    + exists start. split_and!.
      * split; intros Hp; cbn; unfold start, mem_start.
        -- by rewrite (proj2 (has_value_true (mk_parents k) ut) Hp).
        -- destruct (has_value (mk_parents k) ut) eqn:Eh; [|done]. apply has_value_true in Eh as [c Hc]. by destruct (Hp c).
      * cbn. by rewrite lookup_insert_eq.
      * intros -> i Hi. cbn. split_and!; [rewrite decide_True by done; by rewrite set_slots_in|by apply Hu|].
        intros _. unfold mem_memory. cbn. rewrite mem_deleted, decide_True; [done|].
        apply list_elem_of_fmap. exists i. by rewrite elem_of_seqZ.
  - intros k c k' [= <-]. cbn. split_and!; [by rewrite lookup_delete_eq|intros c' Hc; split; [by rewrite lookup_delete_ne|done]|done].
  - intros k c d k' E. cbn in E |- *. destruct (mk_parents k !! c) as [p|] eqn:Ep; [|done]. injection E as <-. cbn.
    split_and!; [by rewrite lookup_insert_eq|intros Hc; by rewrite lookup_insert_ne, lookup_delete_eq| |done].
    intros c' H1 H2. split; [|done]. by rewrite lookup_insert_ne, lookup_delete_ne.
  - by intros k vs k' [= <-].
  - by intros k c l vs va k' [= <-].
  - intros k c vs va r xn k' E. cbn in E |- *. unfold mem_frame_map in E. destruct (mk_frames k !! c) as [f|] eqn:Ef; [|done].
    injection E as <-. cbn. split_and!; [|intros vs' va' Hne; by rewrite lookup_insert_ne|done|done].
    exists (mkPte f (can_read r) (can_read r && can_write r) xn). rewrite lookup_insert_eq. cbn.
    split_and!; try done; [by intros [? ?]%andb_prop|by intros ->].
  - intros k c k' E. cbn in E |- *. unfold mem_frame_unmap in E. destruct (mk_frames k !! c) as [f|] eqn:Ef; [|done].
    injection E as <-. cbn. split_and!; [|done|done]. intros vs va.
    destruct (mk_ptes k !! (vs, va)) as [p|] eqn:Ep; [|left; apply map_lookup_filter_None; by left].
    destruct (decide (page_frame p = f)) as [<-|Hne].
    + right. split; [|eauto]. apply map_lookup_filter_None. right. intros p' Hp'. rewrite Ep in Hp'. injection Hp' as <-. cbn. tauto.
    + left. apply map_lookup_filter_Some. by split.
  - intros k vs va d k' E Hl. cbn in E |- *. unfold mem_poke in E.
    destruct (mk_ptes k !! _) as [p|] eqn:Ep; [|done]. cbn in E. destruct (pte_write p); [|done]. injection E as <-. cbn.
    split_and!; [|done|done]. exists p. unfold mem_memory. cbn. split_and!; [done|by rewrite lookup_insert_eq|].
    intros f Hf. by rewrite lookup_insert_ne.
Qed.
