(* ===== verification/Sel4Jit.v ===== *)
(** Sel4Jit: the memory of compiled code in a runtime on seL4.

    Models [poc/sel4-hello/c10-crash/runtime/src/platform.rs], the functions
    Wasmtime asks of its platform ([c10-wx], [c11-untrusted] and [c11-prov] have the
    same without the crash): a pool of 128 frames from which memory is taken in
    order, and the change of the protection of its pages by unmapping and mapping
    their frames.  Every state of the kernel between two calls is recorded, since a
    crash can come there.  The theorems: no page of the pool is ever writable and
    executable, what a change of protection does, and that regions do not meet. *)
From S2P Require Import Prelude Windows Sel4Kernel.
Local Open Scope Z_scope.

Module Jit.

Definition JIT_POOL_VA_BASE : Z := 0x40000000.
Definition JIT_POOL_PAGES : Z := 128.
Definition PAGE_SIZE : Z := 4096.
Definition JIT_POOL_VSPACE_SLOT : Z := 4.
Definition JIT_POOL_FRAME_BASE : Z := 5.
Definition PROT_WRITE : Z := 2.
Definition PROT_EXEC : Z := 4.
Definition POOL_SIZE : Z := JIT_POOL_PAGES * PAGE_SIZE.
Definition read_only : Rights := mkRights true false false.
Definition read_write : Rights := mkRights true true false.

(** [(bump + PAGE_SIZE - 1) & !(PAGE_SIZE - 1)] *)
Definition page_aligned (bump : Z) : Z := Z.land (u64 (bump + PAGE_SIZE - 1)) (u64 (Z.lnot (PAGE_SIZE - 1))).

(** What a call does: it returns a code, and an address; or it ends the thread. *)
Inductive Outcome := Returned (code : Z) (ret : option Z) | Panicked | Suspended.

Section platform.
Context `{Kernel}.

Record Platform := mkPlatform { POOL_BUMP : Z; TLS_VALUE : Z; FIRST_RX_PAGE_VA : Z; kernel : kstate }.
#[global] Instance Platform_settable : Settable Platform := λ p,
  mkPlatform (POOL_BUMP p) (TLS_VALUE p) (FIRST_RX_PAGE_VA p) (kernel p).

Definition wasmtime_mmap_new (p : Platform) (size : Z) : Outcome * Platform :=
  let aligned := page_aligned (POOL_BUMP p) in
  let end_ := u64 (aligned + size) in
  if decide (POOL_SIZE < end_) then (Returned 1 None, p)
  else (Returned 0 (Some (JIT_POOL_VA_BASE + aligned)), p <| POOL_BUMP := end_ |>).

(** The loop over the pages; the list holds the states of the kernel it goes
    through.  It has at most as many turns as the pool has pages, and one. *)
Fixpoint protect_from (fuel : nat) (i n_pages page_idx_start : Z) (want_exec : bool) (p : Platform) :
    Outcome * Platform * list kstate :=
  match fuel with
  | O => (Returned 0 None, p, [])
  | S fuel =>
      if decide (n_pages ≤ i) then (Returned 0 None, p, []) else
      let page_idx := page_idx_start + i in
      if decide (JIT_POOL_PAGES ≤ page_idx) then (Returned 1 None, p, []) else
      let page_va := JIT_POOL_VA_BASE + page_idx * PAGE_SIZE in
      let frame_cap := JIT_POOL_FRAME_BASE + page_idx in
      match frame_unmap (kernel p) frame_cap with
      | None => (Panicked, p, [])
      | Some k1 =>
          match frame_map k1 frame_cap JIT_POOL_VSPACE_SLOT page_va
                  (if want_exec then read_only else read_write) (negb want_exec) with
          | None => (Panicked, p <| kernel := k1 |>, [k1])
          | Some k2 =>
              let p := p <| kernel := k2 |>
                <| FIRST_RX_PAGE_VA ::= λ v, if want_exec && bool_decide (v = 0) then page_va else v |> in
              let '(o, p, ks) := protect_from fuel (i + 1) n_pages page_idx_start want_exec p in
              (o, p, k1 :: k2 :: ks)
          end
      end
  end.
Definition wasmtime_mprotect (p : Platform) (va_start size prot_flags : Z) : Outcome * Platform * list kstate :=
  if decide (va_start < JIT_POOL_VA_BASE ∨ JIT_POOL_VA_BASE + POOL_SIZE ≤ va_start) then (Returned 0 None, p, [])
  else
    let page_idx_start := (va_start - JIT_POOL_VA_BASE) / PAGE_SIZE in
    let n_pages := next_multiple_of size PAGE_SIZE / PAGE_SIZE in
    let want_exec := negb (Z.land prot_flags PROT_EXEC =? 0) in
    protect_from (S (Z.to_nat JIT_POOL_PAGES)) 0 n_pages page_idx_start want_exec p.

(** The simulated crash: the first executable page is unmapped, and the thread ends. *)
Definition crash_in_remap_window (p : Platform) : Outcome * Platform * list kstate :=
  if decide (FIRST_RX_PAGE_VA p = 0) then (Suspended, p, [])
  else
    let frame_idx := (FIRST_RX_PAGE_VA p - JIT_POOL_VA_BASE) / PAGE_SIZE in
    match frame_unmap (kernel p) (JIT_POOL_FRAME_BASE + frame_idx) with
    | None => (Panicked, p, [])
    | Some k => (Suspended, p <| kernel := k |>, [k])
    end.

(** The calls Wasmtime and [main] can make, and a run of them until one does not
    return.  [wasmtime_longjmp] is a panic. *)
Inductive Call :=
| MmapNew (size : Z) | Mprotect (ptr size prot_flags : Z) | MmapRemap | Munmap | PageSize
| TlsSet (ptr : Z) | TlsGet | Longjmp | CrashInRemapWindow.
Definition platform_call (p : Platform) (c : Call) : Outcome * Platform * list kstate :=
  match c with
  | MmapNew size => (wasmtime_mmap_new p size, [])
  | Mprotect ptr size prot_flags => wasmtime_mprotect p ptr size prot_flags
  | MmapRemap | Munmap => (Returned 0 None, p, [])
  | PageSize => (Returned PAGE_SIZE None, p, [])
  | TlsSet ptr => (Returned 0 None, p <| TLS_VALUE := ptr |>, [])
  | TlsGet => (Returned 0 (Some (TLS_VALUE p)), p, [])
  | Longjmp => (Panicked, p, [])
  | CrashInRemapWindow => crash_in_remap_window p
  end.
Fixpoint platform_run (p : Platform) (cs : list Call) : list Outcome * Platform * list kstate :=
  match cs with
  | [] => ([], p, [])
  | c :: cs =>
      let '(o, p, ks) := platform_call p c in
      match o with
      | Returned _ _ => let '(os, p, ks') := platform_run p cs in (o :: os, p, ks ++ ks')
      | _ => ([o], p, ks)
      end
  end.

(** * What holds of the pool *)

Definition page_va (i : Z) : Z := JIT_POOL_VA_BASE + i * PAGE_SIZE.
Definition in_pool (i : Z) : Prop := 0 ≤ i < JIT_POOL_PAGES.
Definition pool_frame (k : kstate) (i f : Z) : Prop := in_pool i ∧ frame_of k (JIT_POOL_FRAME_BASE + i) = Some f.
(** The frames are different ones, each is mapped at most at its own page, a page
    maps nothing else, and a page that can be written cannot be executed. *)
Definition pool_ok (k : kstate) : Prop :=
  (∀ i j f, pool_frame k i f → pool_frame k j f → i = j)
  ∧ (∀ va p i, pte k JIT_POOL_VSPACE_SLOT va = Some p → pool_frame k i (page_frame p) → va = page_va i)
  ∧ (∀ i p, in_pool i → pte k JIT_POOL_VSPACE_SLOT (page_va i) = Some p →
      pool_frame k i (page_frame p) ∧ (pte_write p = true → pte_xn p = true)).
(** Between two states only entries of the pool differ. *)
Definition pool_only (k k' : kstate) : Prop :=
  (∀ c, frame_of k' c = frame_of k c) ∧ (∀ f, memory k' f = memory k f)
  ∧ ∀ va, (∀ i, in_pool i → va ≠ page_va i) → pte k' JIT_POOL_VSPACE_SLOT va = pte k JIT_POOL_VSPACE_SLOT va.
End platform.

Section proofs.
Context `{K : Kernel, KL : !KernelLaws K}.
Implicit Types (k : kstate) (p : Platform).

Lemma pool_only_refl k : pool_only k k.
Proof. done. Qed.
Lemma pool_only_trans k1 k2 k3 : pool_only k1 k2 → pool_only k2 k3 → pool_only k1 k3.
Proof.
  intros (F1 & M1 & P1) (F2 & M2 & P2). split_and!; intros; [by rewrite F2|by rewrite M2|].
  by rewrite P2, P1.
Qed.
Lemma page_va_inj i j : page_va i = page_va j → i = j.
Proof. unfold page_va, PAGE_SIZE. lia. Qed.
Lemma pool_frame_same k k' i f : (∀ c, frame_of k' c = frame_of k c) → pool_frame k' i f ↔ pool_frame k i f.
Proof. intros Hf. unfold pool_frame. by rewrite Hf. Qed.

(** The two calls of the kernel. *)
Lemma unmap_ok k i k' :
  pool_ok k → in_pool i → frame_unmap k (JIT_POOL_FRAME_BASE + i) = Some k' →
  pool_ok k' ∧ pool_only k k'
  ∧ ∀ j, in_pool j → j ≠ i → pte k' JIT_POOL_VSPACE_SLOT (page_va j) = pte k JIT_POOL_VSPACE_SLOT (page_va j).
Proof.
  intros (O1 & O2 & O3) Hi E. destruct (frame_unmap_ok _ _ _ E) as (U & M & F). split_and!.
  - split_and!.
    + intros a b f Ha Hb. apply (O1 a b f); by rewrite <-pool_frame_same by done.
    + intros va q a Hq Ha. destruct (U JIT_POOL_VSPACE_SLOT va) as [E'|[E' _]]; [|congruence].
      apply (O2 va q a); [congruence|]. by rewrite <-pool_frame_same by done.
    + intros a q Ha Hq. destruct (U JIT_POOL_VSPACE_SLOT (page_va a)) as [E'|[E' _]]; [|congruence].
      rewrite pool_frame_same by done. apply O3; congruence.
  - split_and!; [done|done|]. intros va Hva. destruct (U JIT_POOL_VSPACE_SLOT va) as [E'|(_ & q & Hq & Hf)]; [done|].
    destruct (Hva i Hi). by apply (O2 va q i).
  - intros j Hj Hji. destruct (U JIT_POOL_VSPACE_SLOT (page_va j)) as [E'|(_ & q & Hq & Hf)]; [done|].
    destruct Hji. apply page_va_inj. by apply (O2 (page_va j) q i).
Qed.
Lemma map_ok k i r xn k' :
  pool_ok k → in_pool i → (can_write r = true → xn = true) →
  frame_map k (JIT_POOL_FRAME_BASE + i) JIT_POOL_VSPACE_SLOT (page_va i) r xn = Some k' →
  pool_ok k' ∧ pool_only k k'
  ∧ (∀ j, in_pool j → j ≠ i → pte k' JIT_POOL_VSPACE_SLOT (page_va j) = pte k JIT_POOL_VSPACE_SLOT (page_va j))
  ∧ ∃ q, pte k' JIT_POOL_VSPACE_SLOT (page_va i) = Some q ∧ pool_frame k' i (page_frame q) ∧ pte_xn q = xn
      ∧ (can_read r = true → pte_read q = true ∧ pte_write q = can_write r).
Proof.
  intros (O1 & O2 & O3) Hi Hwx E. destruct (frame_map_ok _ _ _ _ _ _ _ E) as ((q & Eq & Ef & Ex & _ & Hw & Hrw) & Oth & M & F).
  assert (∀ va, va ≠ page_va i → pte k' JIT_POOL_VSPACE_SLOT va = pte k JIT_POOL_VSPACE_SLOT va) as Hoth
    by (intros va Hva; apply Oth; congruence).
  assert (pool_frame k i (page_frame q)) as Hpf by done.
  split_and!.
  - split_and!.
    + intros a b f Ha Hb. apply (O1 a b f); by rewrite <-pool_frame_same by done.
    + intros va q' a Hq Ha. rewrite pool_frame_same in Ha by done. destruct (decide (va = page_va i)) as [->|Hva].
      * rewrite Eq in Hq. injection Hq as <-. f_equal. by apply (O1 i a (page_frame q)).
      * rewrite Hoth in Hq by done. by apply (O2 va q' a).
    + intros a q' Ha Hq. rewrite pool_frame_same by done. destruct (decide (a = i)) as [->|Hai].
      * rewrite Eq in Hq. injection Hq as <-. split; [done|]. intros Hwr. rewrite Ex. by apply Hwx, Hw.
      * rewrite Hoth in Hq by (by intros ?%page_va_inj). by apply O3.
  - split_and!; [done|done|]. intros va Hva. apply Hoth. by apply Hva.
  - intros j Hj Hji. apply Hoth. by intros ?%page_va_inj.
  - exists q. rewrite pool_frame_same by done. by split_and!.
Qed.

(** A page with the protection asked for. *)
Definition protected k (j : Z) (exec : bool) : Prop :=
  ∃ q, pte k JIT_POOL_VSPACE_SLOT (page_va j) = Some q ∧ pool_frame k j (page_frame q)
    ∧ pte_read q = true ∧ pte_write q = negb exec ∧ pte_xn q = negb exec.
Definition first_rx_ok p : Prop :=
  FIRST_RX_PAGE_VA p = 0 ∨ ∃ i, in_pool i ∧ FIRST_RX_PAGE_VA p = page_va i.
Definition good (k0 k : kstate) : Prop := pool_ok k ∧ pool_only k0 k.
(** What every call keeps, and the states it goes through. *)
Definition call_ok (p : Platform) (r : Platform * list kstate) : Prop :=
  good (kernel p) (kernel r.1) ∧ first_rx_ok r.1 ∧ Forall (good (kernel p)) r.2.

Lemma call_ok_refl p : pool_ok (kernel p) → first_rx_ok p → call_ok p (p, []).
Proof. intros. split; [done|]. split; [done|apply Forall_nil_2]. Qed.
Lemma call_ok_same p p1 :
  kernel p1 = kernel p → FIRST_RX_PAGE_VA p1 = FIRST_RX_PAGE_VA p → pool_ok (kernel p) → first_rx_ok p → call_ok p (p1, []).
Proof. intros Ek Ef Hk Hrx. unfold call_ok, first_rx_ok. cbn. rewrite Ek, Ef. by apply call_ok_refl. Qed.

Lemma protect_spec fuel i n s exec p o p' ks :
  pool_ok (kernel p) → first_rx_ok p → 0 ≤ s + i → (Z.to_nat (JIT_POOL_PAGES - (s + i)) < fuel)%nat →
  protect_from fuel i n s exec p = (o, p', ks) →
  call_ok p (p', ks) ∧ POOL_BUMP p' = POOL_BUMP p
  ∧ (∀ j, in_pool j → (j < s + i ∨ s + n ≤ j) →
      pte (kernel p') JIT_POOL_VSPACE_SLOT (page_va j) = pte (kernel p) JIT_POOL_VSPACE_SLOT (page_va j))
  ∧ (o = Panicked
     ∨ o = Returned (if decide (n ≤ i ∨ s + n ≤ JIT_POOL_PAGES) then 0 else 1) None
       ∧ ∀ j, in_pool j → s + i ≤ j < s + n → protected (kernel p') j exec).
Proof.
  revert i p o p' ks. induction fuel as [|fuel IH]; intros i p o p' ks Hk Hrx Hi Hfuel E; [lia|]. cbn [protect_from] in E.
  case_decide as Hn.
  { injection E as <- <- <-. split_and!; [by apply call_ok_refl|done|done|]. right. rewrite decide_True by lia. split; [done|]. intros j _ ?. lia. }
  case_decide as Hp.
  { injection E as <- <- <-. split_and!; [by apply call_ok_refl|done|done|]. right. rewrite decide_False by lia. split; [done|].
    intros j [_ ?] ?. lia. }
  assert (in_pool (s + i)) as Hin by (unfold in_pool; lia).
  destruct (frame_unmap _ _) as [k1|] eqn:E1.
  2: { injection E as <- <- <-. split_and!; [by apply call_ok_refl|done|done|by left]. }
  destruct (unmap_ok _ _ _ Hk Hin E1) as (Hk1 & Ho1 & Hu1).
  destruct (frame_map _ _ _ _ _ _) as [k2|] eqn:E2.
  2: { injection E as <- <- <-. split_and!; [split; [done|]; split; [done|]; by apply Forall_singleton|done| |by left].
       intros j Hj Hout. cbn. apply Hu1; [done|lia]. }
  assert (can_write (if exec then read_only else read_write) = true → negb exec = true) as Hwx by (by destruct exec).
  destruct (map_ok _ _ _ _ _ Hk1 Hin Hwx E2) as (Hk2 & Ho2 & Hu2 & q & Hq & Hqf & Hqx & Hqr).
  pose proof (pool_only_trans _ _ _ Ho1 Ho2) as Ho12.
  set (p2 := upd FIRST_RX_PAGE_VA _ _) in E.
  destruct (protect_from fuel (i + 1) n s exec p2) as [[o3 p3] ks3] eqn:E3. injection E as <- <- <-.
  assert (kernel p2 = k2 ∧ POOL_BUMP p2 = POOL_BUMP p) as [Ek2 Eb2] by done.
  assert (first_rx_ok p2) as Hrx2.
  { unfold first_rx_ok, p2. cbn. destruct exec; cbn; [|done]. destruct (bool_decide _) eqn:Eb; [|done].
    right. by exists (s + i). }
  destruct (IH (i + 1) p2 o3 p3 ks3) as ((Hg3 & Hrx3 & Hks3) & Hb3 & Hu3 & Hr3); rewrite ?Ek2; [done|done|lia|lia|done|].
  rewrite Ek2 in *.
  assert (∀ k, good k2 k → good (kernel p) k) as Hgood by (intros k [G1 G2]; split; [done|by eapply pool_only_trans]).
  split_and!.
  - split; [by apply Hgood|]. split; [done|]. cbn. apply Forall_cons_2; [done|]. apply Forall_cons_2; [done|]. by eapply Forall_impl.
  - by rewrite Hb3.
  - intros j Hj Hout. rewrite Hu3 by (done || lia). rewrite Hu2, Hu1 by (done || lia). done.
  - destruct Hr3 as [->|[-> Hpr]]; [by left|right]. split.
    { repeat case_decide; try done; lia. }
    intros j Hj Hr. destruct (decide (j = s + i)) as [->|Hne]; [|apply Hpr; [done|lia]].
    exists q. rewrite Hu3 by (done || lia). split_and!; [done| | | |done].
    + destruct Hg3 as [_ [Hf3 _]]. by rewrite pool_frame_same by done.
    + apply Hqr. by destruct exec.
    + replace (negb exec) with (can_write (if exec then read_only else read_write)) by (by destruct exec). apply Hqr. by destruct exec.
Qed.

Lemma mprotect_spec p va size prot o p' ks :
  pool_ok (kernel p) → first_rx_ok p → JIT_POOL_VA_BASE ≤ va < JIT_POOL_VA_BASE + POOL_SIZE →
  wasmtime_mprotect p va size prot = (o, p', ks) →
  let s := (va - JIT_POOL_VA_BASE) / PAGE_SIZE in
  let n := next_multiple_of size PAGE_SIZE / PAGE_SIZE in
  call_ok p (p', ks) ∧ POOL_BUMP p' = POOL_BUMP p
  ∧ (∀ j, in_pool j → (j < s ∨ s + n ≤ j) →
      pte (kernel p') JIT_POOL_VSPACE_SLOT (page_va j) = pte (kernel p) JIT_POOL_VSPACE_SLOT (page_va j))
  ∧ (o = Panicked
     ∨ o = Returned (if decide (n ≤ 0 ∨ s + n ≤ JIT_POOL_PAGES) then 0 else 1) None
       ∧ ∀ j, in_pool j → s ≤ j < s + n → protected (kernel p') j (negb (Z.land prot PROT_EXEC =? 0))).
Proof.
  intros Hk Hrx Hva E s n. unfold wasmtime_mprotect in E. rewrite decide_False in E by lia.
  assert (0 ≤ s) by (apply Z.div_pos; [lia|done]).
  apply protect_spec in E; fold s in E |- *; rewrite ?Z.add_0_r in *; try done. unfold JIT_POOL_PAGES. lia.
Qed.

(** Every call, and every run. *)
Lemma call_keeps p c o p' ks :
  pool_ok (kernel p) → first_rx_ok p → platform_call p c = (o, p', ks) → call_ok p (p', ks).
Proof.
  intros Hk Hrx E. destruct c as [size|va size prot| | | |v| | |]; cbn [platform_call] in E.
  - unfold wasmtime_mmap_new in E. case_decide; injection E as _ <- <-; by apply call_ok_same.
  - destruct (decide (va < JIT_POOL_VA_BASE ∨ JIT_POOL_VA_BASE + POOL_SIZE ≤ va)) as [Hv|Hv].
    + unfold wasmtime_mprotect in E. rewrite decide_True in E by done. injection E as _ <- <-. by apply call_ok_refl.
    + apply mprotect_spec in E; [|done..|lia]. apply E.
  - injection E as _ <- <-. by apply call_ok_refl.
  - injection E as _ <- <-. by apply call_ok_refl.
  - injection E as _ <- <-. by apply call_ok_refl.
  - injection E as _ <- <-. by apply call_ok_same.
  - injection E as _ <- <-. by apply call_ok_refl.
  - injection E as _ <- <-. by apply call_ok_refl.
  - unfold crash_in_remap_window in E. case_decide as Hz; [injection E as _ <- <-; by apply call_ok_refl|].
    destruct Hrx as [?|(i & Hi & Ei)]; [done|]. rewrite Ei in E. unfold page_va in E.
    replace (JIT_POOL_VA_BASE + i * PAGE_SIZE - JIT_POOL_VA_BASE) with (i * PAGE_SIZE) in E by lia.
    rewrite Z.div_mul in E by done. destruct (frame_unmap _ _) as [k|] eqn:Eu; injection E as _ <- <-; [|apply call_ok_refl; [done|right; eauto]].
    destruct (unmap_ok _ _ _ Hk Hi Eu) as (Hk' & Ho & _).
    split; [done|]. split; [right; eauto|]. by apply Forall_singleton.
Qed.
Lemma run_keeps p cs os p' ks :
  pool_ok (kernel p) → first_rx_ok p → platform_run p cs = (os, p', ks) → call_ok p (p', ks).
Proof.
  revert p os p' ks. induction cs as [|c cs IH]; intros p os p' ks Hk Hrx E; cbn [platform_run] in E.
  { injection E as _ <- <-. by apply call_ok_refl. }
  destruct (platform_call p c) as [[o p1] ks1] eqn:Ec. apply call_keeps in Ec as ([Hk1 Ho1] & Hrx1 & Hks1); [|done..].
  cbn [fst snd] in *. destruct o as [code ret| |]; try (injection E as _ <- <-; done).
  destruct (platform_run p1 cs) as [[os2 p2] ks2] eqn:Er. injection E as _ <- <-.
  apply IH in Er as ([Hk2 Ho2] & Hrx2 & Hks2); [|done..]. split; [split; [done|by eapply pool_only_trans]|].
  split; [done|]. apply Forall_app_2; [done|]. eapply Forall_impl; [exact Hks2|].
  intros k [G1 G2]. split; [done|by eapply pool_only_trans].
Qed.

(** C19: whatever calls Wasmtime makes, with whatever arguments, and wherever the
    thread is stopped, in every state of the kernel: a frame of the pool that can
    be written somewhere can be executed nowhere; no mapping outside the pool and
    no byte of memory has changed. *)
Theorem jit_write_xor_execute p cs os p' ks k :
  pool_ok (kernel p) → first_rx_ok p → platform_run p cs = (os, p', ks) → k = kernel p' ∨ k ∈ ks →
  (∀ va1 va2 q1 q2 i,
     pte k JIT_POOL_VSPACE_SLOT va1 = Some q1 → pte k JIT_POOL_VSPACE_SLOT va2 = Some q2 →
     pool_frame k i (page_frame q1) → page_frame q2 = page_frame q1 → pte_write q1 = true → pte_xn q2 = true)
  ∧ (∀ va, (∀ i, in_pool i → va ≠ page_va i) → pte k JIT_POOL_VSPACE_SLOT va = pte (kernel p) JIT_POOL_VSPACE_SLOT va)
  ∧ (∀ f, memory k f = memory (kernel p) f).
Proof.
  intros Hk Hrx E Hin. apply run_keeps in E as (Hg & _ & Hks); [|done..].
  assert (good (kernel p) k) as [(O1 & O2 & O3) (_ & M & P)].
  { destruct Hin as [->|Hin]; [done|]. rewrite Forall_forall in Hks. by apply Hks. }
  split_and!; [|done|done]. intros va1 va2 q1 q2 i H1 H2 Hf Eq Hw.
  assert (va1 = page_va i) as -> by by eapply O2. assert (va2 = page_va i) as -> by (eapply O2; [done|by rewrite Eq]).
  rewrite H1 in H2. injection H2 as <-. eapply O3; [apply Hf|done|done].
Qed.

(** ** A change of protection *)

Lemma pages_of size :
  is_u64 size →
  next_multiple_of size PAGE_SIZE / PAGE_SIZE = if decide (size ≤ 2 ^ 64 - PAGE_SIZE) then (size + (PAGE_SIZE - 1)) / PAGE_SIZE else 0.
Proof.
  unfold next_multiple_of, in_width, PAGE_SIZE. intros Hs. pose proof (Z.mod_pos_bound size 4096 ltac:(lia)).
  pose proof (Z.div_mod size 4096 ltac:(lia)) as Hd. set (r := size `mod` 4096) in *. set (q := size / 4096) in *.
  case_decide as Hr; case_decide as Hl.
  - apply Z.div_unique with 4095; fold q; lia.
  - exfalso. lia.
  - rewrite wrap_small by (unfold in_width; lia).
    transitivity (q + 1); [symmetry; apply Z.div_unique with 0; lia|apply Z.div_unique with (r - 1); lia].
  - replace (size + (4096 - r)) with (2 ^ 64) by lia. done.
Qed.

(** [wasmtime_mprotect] does nothing outside the pool.  In the pool it gives
    exactly the pages from that of the address on, as many as the size needs, the
    protection asked for (executable and read-only, or else writable and not
    executable, whatever the other bits say), each with its own frame; when the
    range leaves the pool it answers 1 after it has changed the pages inside.  A
    size that does not fit the word once rounded up counts as no page at all. *)
Theorem jit_mprotect_spec p ptr size prot o p' ks :
  pool_ok (kernel p) → first_rx_ok p → is_u64 size →
  wasmtime_mprotect p ptr size prot = (o, p', ks) →
  (ptr < JIT_POOL_VA_BASE ∨ JIT_POOL_VA_BASE + POOL_SIZE ≤ ptr → o = Returned 0 None ∧ p' = p)
  ∧ (JIT_POOL_VA_BASE ≤ ptr < JIT_POOL_VA_BASE + POOL_SIZE →
     let s := (ptr - JIT_POOL_VA_BASE) / PAGE_SIZE in
     let n := if decide (size ≤ 2 ^ 64 - PAGE_SIZE) then (size + (PAGE_SIZE - 1)) / PAGE_SIZE else 0 in
     (∀ j, in_pool j → j < s ∨ s + n ≤ j →
        pte (kernel p') JIT_POOL_VSPACE_SLOT (page_va j) = pte (kernel p) JIT_POOL_VSPACE_SLOT (page_va j))
     ∧ (o = Panicked
        ∨ o = Returned (if decide (s + n ≤ JIT_POOL_PAGES) then 0 else 1) None
          ∧ ∀ j, in_pool j → s ≤ j < s + n → protected (kernel p') j (negb (Z.land prot PROT_EXEC =? 0)))).
Proof.
  intros Hk Hrx Hs E. split; intros Hp.
  - unfold wasmtime_mprotect in E. rewrite decide_True in E by done. by injection E as <- <- _.
  - apply mprotect_spec in E as (_ & _ & Hout & Hin); [|done..]. rewrite pages_of in Hout, Hin by done.
    set (n := if decide (size ≤ _) then _ else _) in *. intros s. fold s in Hout, Hin. split; [done|].
    destruct Hin as [->|[-> Hin]]; [by left|right; split; [|done]].
    assert (s < JIT_POOL_PAGES) by (apply Z.div_lt_upper_bound; [done|unfold POOL_SIZE in Hp; lia]).
    repeat case_decide; try done; lia.
Qed.

(** ** The regions *)

Lemma page_aligned_eq b : 0 ≤ b ≤ POOL_SIZE → page_aligned b = align_up b PAGE_SIZE.
Proof.
  unfold POOL_SIZE, JIT_POOL_PAGES, PAGE_SIZE. intros Hb. unfold page_aligned, align_up, PAGE_SIZE.
  rewrite wrap_small by (unfold in_width; lia).
  change (u64 (Z.lnot (4096 - 1))) with (Z.ldiff (Z.ones 64) (Z.ones 12)).
  rewrite (Z.ldiff_land (Z.ones 64)), Z.land_assoc, <-Z.ldiff_land, Z.land_ones, Z.mod_small by lia.
  rewrite Z.ldiff_ones_r, Z.shiftr_div_pow2, Z.shiftl_mul_pow2 by lia. done.
Qed.
Lemma align_up_bounds b : b ≤ align_up b PAGE_SIZE < b + PAGE_SIZE ∧ align_up b PAGE_SIZE `mod` PAGE_SIZE = 0.
Proof.
  unfold align_up, PAGE_SIZE. split; [|by rewrite Z.mod_mul].
  pose proof (Z.div_mod (b + 4096 - 1) 4096 ltac:(lia)). pose proof (Z.mod_pos_bound (b + 4096 - 1) 4096 ltac:(lia)). lia.
Qed.
Lemma align_up_pool b : 0 ≤ b ≤ POOL_SIZE → align_up b PAGE_SIZE ≤ POOL_SIZE.
Proof.
  intros Hb. unfold align_up. transitivity (POOL_SIZE / PAGE_SIZE * PAGE_SIZE); [|done].
  apply Z.mul_le_mono_nonneg_r; [done|]. apply Z.lt_succ_r, Z.div_lt_upper_bound; [done|].
  change (PAGE_SIZE * Z.succ (POOL_SIZE / PAGE_SIZE)) with (POOL_SIZE + PAGE_SIZE). lia.
Qed.
Lemma align_up_mono a b : a ≤ b → align_up a PAGE_SIZE ≤ align_up b PAGE_SIZE.
Proof. intros. unfold align_up. apply Z.mul_le_mono_nonneg_r; [done|]. apply Z.div_le_mono; unfold PAGE_SIZE; lia. Qed.
Lemma align_up_base a : align_up (JIT_POOL_VA_BASE + a) PAGE_SIZE = JIT_POOL_VA_BASE + align_up a PAGE_SIZE.
Proof.
  unfold align_up. replace (JIT_POOL_VA_BASE + a + PAGE_SIZE - 1) with (a + PAGE_SIZE - 1 + 262144 * PAGE_SIZE) by (unfold JIT_POOL_VA_BASE, PAGE_SIZE; lia).
  rewrite Z.div_add by done. unfold JIT_POOL_VA_BASE, PAGE_SIZE. lia.
Qed.
Lemma mmap_spec p size :
  0 ≤ POOL_BUMP p ≤ POOL_SIZE → is_u64 size →
  let a := align_up (POOL_BUMP p) PAGE_SIZE in
  wasmtime_mmap_new p size =
    (if decide (POOL_SIZE < a + size < 2 ^ 64) then (Returned 1 None, p)
     else (Returned 0 (Some (JIT_POOL_VA_BASE + a)),
           p <| POOL_BUMP := if decide (a + size < 2 ^ 64) then a + size else a + size - 2 ^ 64 |>)).
Proof.
  intros Hb Hs a. unfold wasmtime_mmap_new. rewrite page_aligned_eq by done. fold a.
  pose proof (align_up_bounds (POOL_BUMP p)) as [Ha _]. pose proof (align_up_pool _ Hb) as Ha'. fold a in Ha, Ha'.
  unfold in_width in Hs. assert (POOL_SIZE = 524288) as Ep by done.
  destruct (decide (a + size < 2 ^ 64)) as [Hw|Hw].
  - rewrite wrap_small by (unfold in_width; lia). by repeat case_decide; try lia.
  - assert (u64 (a + size) = a + size - 2 ^ 64) as -> by (unfold wrap; symmetry; apply Z.mod_unique with 1; lia).
    by repeat case_decide; try lia.
Qed.

(** The regions a run hands out: addresses and sizes, in order. *)
Definition region (c : Call) (o : Outcome) : option (Z * Z) :=
  match c, o with MmapNew size, Returned 0 (Some a) => Some (a, size) | _, _ => None end.
Fixpoint regions (cs : list Call) (os : list Outcome) : list (Z * Z) :=
  match cs, os with
  | c :: cs, o :: os => match region c o with Some r => r :: regions cs os | None => regions cs os end
  | _, _ => []
  end.
(** No size makes the end of a region wrap. *)
Definition size_ok (c : Call) : Prop := match c with MmapNew size => 0 ≤ size < 2 ^ 64 - POOL_SIZE | _ => True end.

Lemma protect_bump fuel i n s exec p o p' ks :
  protect_from fuel i n s exec p = (o, p', ks) → POOL_BUMP p' = POOL_BUMP p.
Proof.
  revert i p o p' ks. induction fuel as [|fuel IH]; intros i p o p' ks E; cbn [protect_from] in E; [by injection E as _ <- _|].
  repeat (case_decide; [by injection E as _ <- _|]). destruct (frame_unmap _ _); [|by injection E as _ <- _].
  destruct (frame_map _ _ _ _ _ _); [|by injection E as _ <- _].
  destruct (protect_from _ _ _ _ _ _) as [[o3 p3] ks3] eqn:E3. injection E as _ <- _. by apply IH in E3.
Qed.
Lemma call_bump p c o p' ks :
  0 ≤ POOL_BUMP p ≤ POOL_SIZE → size_ok c → platform_call p c = (o, p', ks) →
  POOL_BUMP p ≤ POOL_BUMP p' ≤ POOL_SIZE
  ∧ ∀ a n, region c o = Some (a, n) →
      a = JIT_POOL_VA_BASE + align_up (POOL_BUMP p) PAGE_SIZE ∧ JIT_POOL_VA_BASE + POOL_BUMP p' = a + n ∧ 0 ≤ n.
Proof.
  intros Hb Hc E. assert (∀ p', POOL_BUMP p' = POOL_BUMP p → POOL_BUMP p ≤ POOL_BUMP p' ≤ POOL_SIZE) as Hsame by (intros ? ->; lia).
  destruct c as [size|va size prot| | | |v| | |]; cbn [platform_call region] in *;
    try (injection E as <- <- _; split; [by apply Hsame|done]).
  - pose proof (align_up_bounds (POOL_BUMP p)) as [Ha _]. pose proof (align_up_pool _ Hb) as Ha'.
    cbn [size_ok] in Hc. rewrite mmap_spec in E by (unfold in_width; unfold POOL_SIZE, JIT_POOL_PAGES, PAGE_SIZE in *; lia).
    rewrite (decide_True (P := _ < 2 ^ 64)) in E by lia.
    case_decide as Hd; injection E as <- <- _; cbn; [split; [lia|done]|].
    split; [lia|]. intros a n [= <- <-]. lia.
  - split; [|by destruct o as [[] []| |]]. apply Hsame. unfold wasmtime_mprotect in E. case_decide; [by injection E as _ <- _|].
    by apply protect_bump in E.
  - split; [|by destruct o as [[] []| |]]. apply Hsame. unfold crash_in_remap_window in E. case_decide; [by injection E as _ <- _|].
    by destruct (frame_unmap _ _); injection E as _ <- _.
Qed.
Lemma regions_ok cs p os p' ks :
  0 ≤ POOL_BUMP p ≤ POOL_SIZE → Forall size_ok cs → platform_run p cs = (os, p', ks) →
  (∀ a n, (a, n) ∈ regions cs os →
     0 ≤ n ∧ a `mod` PAGE_SIZE = 0 ∧ JIT_POOL_VA_BASE + align_up (POOL_BUMP p) PAGE_SIZE ≤ a ∧ a + n ≤ JIT_POOL_VA_BASE + POOL_SIZE)
  ∧ (∀ i j a n b m, (i < j)%nat → regions cs os !! i = Some (a, n) → regions cs os !! j = Some (b, m) → align_up (a + n) PAGE_SIZE ≤ b).
Proof.
  revert p os p' ks. induction cs as [|c cs IH]; intros p os p' ks Hb Hc E; cbn [platform_run] in E.
  { injection E as <- _ _. cbn. split; [set_solver|done]. }
  apply Forall_cons in Hc as [Hc Hcs]. destruct (platform_call p c) as [[o p1] ks1] eqn:Ec.
  apply call_bump in Ec as [Hb1 Hreg]; [|done..].
  destruct o as [code ret| |].
  2, 3: injection E as <- _ _; cbn [regions]; replace (region c _) with (@None (Z * Z)) by (by destruct c);
    destruct cs; (split; [intros a n Hin; by apply elem_of_nil in Hin|done]).
  destruct (platform_run p1 cs) as [[os2 p2] ks2] eqn:Er. injection E as <- _ _.
  destruct (IH p1 os2 p2 ks2) as [IHin IHord]; [lia|done|done|].
  pose proof (align_up_mono (POOL_BUMP p) (POOL_BUMP p1) ltac:(lia)) as Hmono.
  cbn [regions]. destruct (region c (Returned code ret)) as [[a n]|] eqn:Ereg.
  2: { split; [|done]. intros b m Hin. destruct (IHin b m Hin) as (? & ? & ? & ?). split_and!; (done || lia). }
  destruct (Hreg a n eq_refl) as (Ea & En & Hn). pose proof (align_up_bounds (POOL_BUMP p)) as [Hal Hmod]. split.
  - intros b m [[= -> ->]|Hin]%elem_of_cons.
    + split_and!; [done| |lia|lia]. rewrite Ea. unfold JIT_POOL_VA_BASE. rewrite Z.add_mod, Hmod by done. done.
    + destruct (IHin b m Hin) as (? & ? & ? & ?). split_and!; (done || lia).
  - intros i j b m b' m' Hij Hi Hj. destruct j as [|j]; [lia|]. cbn in Hj. destruct i as [|i]; cbn in Hi; [|by eapply (IHord i j); [lia|..]].
    injection Hi as <- <-. rewrite <-En, align_up_base. apply list_elem_of_lookup_2 in Hj. by destruct (IHin _ _ Hj) as (_ & _ & ? & _).
Qed.

Lemma page_of a : a `mod` PAGE_SIZE = 0 → a = page_va ((a - JIT_POOL_VA_BASE) / PAGE_SIZE).
Proof.
  intros Ha. unfold page_va, PAGE_SIZE, JIT_POOL_VA_BASE in *. pose proof (Z.div_mod (a - 0x40000000) 4096 ltac:(lia)) as Hd.
  assert ((a - 0x40000000) `mod` 4096 = 0) as Hz by (rewrite Zminus_mod, Ha; done). lia.
Qed.
(** A change of protection of a region leaves the pages of another one. *)
Lemma protect_region p a n prot o p' ks l :
  pool_ok (kernel p) → first_rx_ok p → a `mod` PAGE_SIZE = 0 → JIT_POOL_VA_BASE ≤ a → 0 ≤ n → a + n ≤ JIT_POOL_VA_BASE + POOL_SIZE →
  wasmtime_mprotect p a n prot = (o, p', ks) → in_pool l → page_va l < a ∨ align_up (a + n) PAGE_SIZE ≤ page_va l →
  pte (kernel p') JIT_POOL_VSPACE_SLOT (page_va l) = pte (kernel p) JIT_POOL_VSPACE_SLOT (page_va l).
Proof.
  intros Hk Hrx Ha Hb Hn He E Hl Hout. assert (POOL_SIZE = 524288) as Ep by done. assert (JIT_POOL_VA_BASE = 1073741824) as Eb by done.
  destruct (decide (a = JIT_POOL_VA_BASE + POOL_SIZE)) as [Hend|Hend].
  { unfold wasmtime_mprotect in E. rewrite decide_True in E by lia. by injection E as _ <- _. }
  apply mprotect_spec in E as (_ & _ & Hsame & _); [|done..|lia].
  rewrite pages_of in Hsame by (unfold in_width; lia). rewrite decide_True in Hsame by (unfold PAGE_SIZE; lia).
  set (s := (a - JIT_POOL_VA_BASE) / PAGE_SIZE) in *. pose proof (page_of a Ha) as Es. fold s in Es.
  apply Hsame; [done|]. destruct Hout as [Hlt|Hge]; [left; rewrite Es in Hlt; unfold page_va, PAGE_SIZE in Hlt; lia|right].
  assert (align_up (a + n) PAGE_SIZE = a + (n + (PAGE_SIZE - 1)) / PAGE_SIZE * PAGE_SIZE) as Eal.
  { unfold align_up. assert (a = a / PAGE_SIZE * PAGE_SIZE) as Ea.
    { pose proof (Z.div_mod a PAGE_SIZE ltac:(done)). lia. }
    rewrite Ea at 1. replace (a / PAGE_SIZE * PAGE_SIZE + n + PAGE_SIZE - 1) with (n + (PAGE_SIZE - 1) + a / PAGE_SIZE * PAGE_SIZE) by lia.
    rewrite Z.div_add by done. lia. }
  rewrite Eal, Es in Hge. unfold page_va, PAGE_SIZE in *. lia.
Qed.

(** As long as no requested size makes the end of a region wrap, the regions
    handed out are in the pool, begin at a page, and follow one another without
    sharing a page, so that a change of protection of one leaves the others as
    they are.  The end is computed with a wrapping addition: a size big enough
    that it wraps is served, and the next region begins before its end. *)
Theorem jit_regions_disjoint p cs os p' ks :
  0 ≤ POOL_BUMP p ≤ POOL_SIZE → platform_run p cs = (os, p', ks) →
  (Forall size_ok cs →
    (∀ a n, (a, n) ∈ regions cs os →
       0 ≤ n ∧ a `mod` PAGE_SIZE = 0 ∧ JIT_POOL_VA_BASE ≤ a ∧ a + n ≤ JIT_POOL_VA_BASE + POOL_SIZE)
    ∧ (∀ i j a n b m, (i < j)%nat → regions cs os !! i = Some (a, n) → regions cs os !! j = Some (b, m) →
         align_up (a + n) PAGE_SIZE ≤ b)
    ∧ (∀ i j a n b m l q prot o q' ks', i ≠ j → regions cs os !! i = Some (a, n) → regions cs os !! j = Some (b, m) →
         pool_ok (kernel q) → first_rx_ok q → wasmtime_mprotect q a n prot = (o, q', ks') →
         in_pool l → b ≤ page_va l < b + m →
         pte (kernel q') JIT_POOL_VSPACE_SLOT (page_va l) = pte (kernel q) JIT_POOL_VSPACE_SLOT (page_va l)))
  ∧ (∀ size, is_u64 size → 2 ^ 64 ≤ align_up (POOL_BUMP p) PAGE_SIZE + size →
       ∃ a p2, wasmtime_mmap_new p size = (Returned 0 (Some (JIT_POOL_VA_BASE + a)), p2) ∧ POOL_BUMP p2 < a).
Proof.
  intros Hb E. split.
  - intros Hc. destruct (regions_ok _ _ _ _ _ Hb Hc E) as [Hin Hord]. pose proof (align_up_bounds (POOL_BUMP p)) as [Hal _].
    assert (∀ a n, (a, n) ∈ regions cs os →
      0 ≤ n ∧ a `mod` PAGE_SIZE = 0 ∧ JIT_POOL_VA_BASE ≤ a ∧ a + n ≤ JIT_POOL_VA_BASE + POOL_SIZE) as Hin'.
    { intros a n Han. destruct (Hin a n Han) as (? & ? & ? & ?). split_and!; (done || lia). }
    split_and!; [done|done|]. intros i j a n b m l q prot o q' ks' Hij Hi Hj Hk Hrx Em Hl Hp.
    destruct (Hin' a n (list_elem_of_lookup_2 _ _ _ Hi)) as (? & ? & ? & ?).
    eapply protect_region; [done..|]. destruct (decide (i < j)%nat) as [Hlt|Hge].
    + right. pose proof (Hord _ _ _ _ _ _ Hlt Hi Hj). lia.
    + left. assert (j < i)%nat as Hlt by lia. pose proof (Hord _ _ _ _ _ _ Hlt Hj Hi).
      pose proof (align_up_bounds (b + m)) as [? _]. lia.
  - intros size Hs Hw. rewrite mmap_spec by done. rewrite decide_False by lia. rewrite decide_False by lia.
    do 2 eexists. split; [done|]. cbn. unfold in_width in Hs. lia.
Qed.
End proofs.

(** * A run on the small kernel *)

Definition demo_kernel : @kstate mem_kernel :=
  mkMemKernel (set_slots ∅ JIT_POOL_FRAME_BASE JIT_POOL_PAGES (λ i, 2 ^ 31 + i * PAGE_SIZE)) ∅ ∅ ∅ ∅.
Definition demo_platform : Platform (H := mem_kernel) := mkPlatform 0 0 0 demo_kernel.
Definition demo_calls : list Call :=
  [MmapNew 5000; Mprotect 0x40000000 5000 3; Mprotect 0x40000000 5000 5; MmapNew 10; Mprotect 0x40002000 10 3; CrashInRemapWindow].
Lemma demo_pool_ok : pool_ok (H := mem_kernel) demo_kernel.
Proof.
  assert (∀ i f, pool_frame (H := mem_kernel) demo_kernel i f → f = 2 ^ 31 + i * PAGE_SIZE) as Hf.
  { intros i f [Hi E]. cbn in E. rewrite set_slots_in in E by exact Hi. by injection E as <-. }
  split; [|split].
  - intros i j f Hi%Hf Hj%Hf. unfold PAGE_SIZE in *. lia.
  - intros va q i E. cbn in E. by rewrite lookup_empty in E.
  - intros i q _ E. cbn in E. by rewrite lookup_empty in E.
Qed.
Lemma demo_first_rx : first_rx_ok (K := mem_kernel) demo_platform.
Proof. by left. Qed.
Definition demo_outcomes : list Outcome :=
  [Returned 0 (Some 0x40000000); Returned 0 None; Returned 0 None; Returned 0 (Some 0x40002000); Returned 0 None; Suspended].
Lemma demo_outcomes_ok : (platform_run demo_platform demo_calls).1.1 = demo_outcomes.
Proof. vm_compute. reflexivity. Qed.

Lemma demo_executable :
  match platform_run demo_platform demo_calls with (_, p', _) =>
    match pte (kernel p') JIT_POOL_VSPACE_SLOT 0x40001000 with
    | Some q => negb (pte_xn q) && bool_decide (frame_of (kernel p') (JIT_POOL_FRAME_BASE + 1) = Some (page_frame q))
    | None => false
    end end = true.
Proof. vm_compute. reflexivity. Qed.
Lemma jit_write_xor_execute_witness :
  ∃ os p' ks q, platform_run demo_platform demo_calls = (os, p', ks)
    ∧ pte (kernel p') JIT_POOL_VSPACE_SLOT 0x40001000 = Some q ∧ pte_xn q = false ∧ pte_write q = false.
Proof.
  pose proof demo_executable as Hd. destruct (platform_run demo_platform demo_calls) as [[os p'] ks] eqn:E.
  destruct (pte (kernel p') JIT_POOL_VSPACE_SLOT 0x40001000) as [q|] eqn:Eq; [|discriminate Hd].
  apply andb_prop in Hd as [Hx Hf]. apply negb_true_iff in Hx. apply bool_decide_eq_true in Hf.
  exists os, p', ks, q. split; [reflexivity|]. split; [exact Eq|]. split; [exact Hx|].
  destruct (jit_write_xor_execute (K := mem_kernel) demo_platform demo_calls os p' ks (kernel p')) as (W & _);
    [exact demo_pool_ok|exact demo_first_rx|exact E|left; reflexivity|].
  destruct (pte_write q) eqn:Ew; [|reflexivity]. rewrite <-Hx. symmetry.
  apply (W 0x40001000 0x40001000 q q 1); [exact Eq|exact Eq| |reflexivity|exact Ew].
  exact (conj (conj (Z.le_0_1) eq_refl) Hf).
Defined.
Lemma jit_mprotect_spec_witness :
  (wasmtime_mprotect demo_platform 0x40001000 5000 5).1.1 = Panicked
  ∨ protected (wasmtime_mprotect demo_platform 0x40001000 5000 5).1.2.(kernel) 2 true.
Proof.
  destruct (wasmtime_mprotect demo_platform 0x40001000 5000 5) as [[o p'] ks] eqn:E.
  destruct (jit_mprotect_spec (K := mem_kernel) demo_platform 0x40001000 5000 5 o p' ks) as [_ Hin];
    [exact demo_pool_ok|exact demo_first_rx|split; lia|exact E|].
  destruct Hin as [_ [-> |[_ Hp]]]; [split; [discriminate|reflexivity]|left; reflexivity|right].
  apply (Hp 2); [split; [discriminate|reflexivity]|]. split; [discriminate|reflexivity].
Defined.
Lemma jit_regions_disjoint_witness :
  regions demo_calls demo_outcomes = [(0x40000000, 5000); (0x40002000, 10)] ∧ align_up (0x40000000 + 5000) PAGE_SIZE ≤ 0x40002000.
Proof.
  split; [reflexivity|].
  destruct (platform_run demo_platform demo_calls) as [[os p'] ks] eqn:E.
  destruct (jit_regions_disjoint (K := mem_kernel) demo_platform demo_calls os p' ks) as [Hok _]; [split; discriminate|exact E|].
  pose proof demo_outcomes_ok as Eo. rewrite E in Eo. cbn [fst] in Eo. subst os.
  destruct Hok as (_ & Hord & _); [unfold demo_calls; repeat apply Forall_cons_2; try exact I; try apply Forall_nil_2; split; reflexivity || discriminate|].
  apply (Hord 0%nat 1%nat 0x40000000 5000 0x40002000 10); [lia|reflexivity|reflexivity].
Defined.
End Jit.
