(* ===== verification/Sel4Alloc.v ===== *)
(** Sel4Alloc: the allocator of the seL4 root tasks.

    Models [poc/sel4-hello/sel4-common/src/object_allocator.rs]: slots are taken
    in order from the empty ones of the root's capability space, objects from the
    largest untyped memory, or from that of a device.  The theorem: the memory for
    direct access by a device is contiguous from the physical address the server
    is told, and the trimming of a device's untyped memory ends exactly where the
    device is. *)
From S2P Require Import Prelude Windows Sel4Kernel.
Local Open Scope Z_scope.

(** [for x in l { f(x) }] *)
Fixpoint for_each {S A} (f : A → SM S ()) (l : list A) : SM S () :=
  match l with [] => mret () | x :: l => f x ;; for_each f l end.
Lemma wp_for_each {S A} (f : A → SM S ()) (I : list A → S → Prop) l s :
  I [] s → (∀ l1 x l2 s, l = l1 ++ x :: l2 → I l1 s → wp (f x) (λ _, I (l1 ++ [x])) s) → wp (for_each f l) (λ _, I l) s.
Proof.
  intros H0 Hs. assert (∀ l2 l1 s, l = l1 ++ l2 → I l1 s → wp (for_each f l2) (λ _, I l) s) as Hg; [|by apply (Hg l [])].
  induction l2 as [|x l2 IH]; intros l1 s1 El HI; cbn [for_each].
  - apply wp_ret. rewrite app_nil_r in El. by rewrite El.
  - apply wp_bind. eapply wp_mono; [by apply (Hs l1 x l2)|]. intros [] s2 HI2. cbn in *. apply (IH (l1 ++ [x])); [|done].
    by rewrite <-app_assoc.
Qed.

Module Alloc.

(** [sel4::BootInfo]: the empty slots, and the untyped memories with their slots. *)
Record UntypedDesc := mkDesc { is_device : bool; paddr : Z; size_bits : Z }.
Record BootInfo := mkBootInfo { empty : Z * Z; untyped : Z; untyped_list : list UntypedDesc }.

Section alloc.
Context `{Kernel}.

Record ObjectAllocator := mkAllocator { empty_slots : Z * Z; ut : Z; kern : kstate }.
#[global] Instance ObjectAllocator_settable : Settable ObjectAllocator := λ a, mkAllocator (empty_slots a) (ut a) (kern a).

(** A call of the kernel, [unwrap]ped; and one whose failure is ignored. *)
Definition kcall (f : kstate → option kstate) : SM ObjectAllocator () := λ a,
  match f (kern a) with Some k => Some ((), a <| kern := k |>) | None => None end.
Definition kcall_tolerant (f : kstate → option kstate) : SM ObjectAllocator () := λ a,
  Some ((), a <| kern ::= λ k, default k (f k) |>).
Definition panic {A} : SM ObjectAllocator A := λ _, None.

(** [filter(p).max_by_key(size_bits)] of the enumeration: the last of the largest. *)
Fixpoint largest (best : option (Z * UntypedDesc)) (ix : Z) (l : list UntypedDesc) : option (Z * UntypedDesc) :=
  match l with
  | [] => best
  | d :: l =>
      let best := if is_device d then best
        else match best with Some (_, b) => if decide (size_bits d < size_bits b) then best else Some (ix, d) | None => Some (ix, d) end in
      largest best (ix + 1) l
  end.
Definition find_largest_kernel_untyped (b : BootInfo) : option Z :=
  '(ix, _) ← largest None 0 (untyped_list b); Some (untyped b + ix).
Definition new (b : BootInfo) (k : kstate) : option ObjectAllocator :=
  u ← find_largest_kernel_untyped b; Some (mkAllocator (empty b) u k).

Definition next_slot : SM ObjectAllocator Z := λ a,
  if decide (fst (empty_slots a) < snd (empty_slots a)) then
    Some (fst (empty_slots a), a <| empty_slots := (fst (empty_slots a) + 1, snd (empty_slots a)) |>)
  else None.
Definition next_slots_batch (n : Z) : SM ObjectAllocator Z :=
  base ← next_slot;
  for_each (λ _, next_slot ;; mret ()) (seqZ 1 (n - 1)) ;;
  mret base.
Definition allocate (blueprint : Blueprint) : SM ObjectAllocator Z :=
  slot_index ← next_slot; u ← gets ut;
  kcall (λ k, untyped_retype k u blueprint slot_index 1) ;;
  mret slot_index.
Definition allocate_frames_batch (n_frames : Z) : SM ObjectAllocator (list Z) :=
  base_slot ← next_slots_batch n_frames; u ← gets ut;
  kcall (λ k, untyped_retype k u SmallPage base_slot n_frames) ;;
  mret (seqZ base_slot n_frames).
Definition allocate_dma_frames_first (b : BootInfo) (n_frames : Z) : SM ObjectAllocator (list Z * Z) :=
  match largest None 0 (untyped_list b) with
  | None => panic
  | Some (_, ut_desc) =>
      base_slot ← next_slots_batch n_frames; u ← gets ut;
      kcall (λ k, untyped_retype k u SmallPage base_slot n_frames) ;;
      mret (seqZ base_slot n_frames, paddr ut_desc)
  end.

(** The loop of [trim_untyped]: untyped objects of decreasing sizes are taken until
    the target; at any time the last one is kept, so that the kernel goes on
    behind it.  The distance loses its highest bit in every turn. *)
Fixpoint trim_from (fuel : nat) (u slot_a slot_b cur target_paddr : Z) : SM ObjectAllocator () :=
  if decide (target_paddr ≤ cur) then mret () else
  match fuel with
  | O => panic
  | S fuel =>
      let size_bits := Z.log2 (target_paddr - cur) in
      kcall (λ k, untyped_retype k u (UntypedObject size_bits) slot_b 1) ;;
      kcall_tolerant (λ k, slot_delete k slot_a) ;;
      kcall (λ k, slot_move k slot_b slot_a) ;;
      trim_from fuel u slot_a slot_b (cur + 2 ^ size_bits) target_paddr
  end.
Definition trim_untyped (u ut_paddr target_paddr : Z) : SM ObjectAllocator () :=
  slot_a ← next_slot; slot_b ← next_slot;
  trim_from 64 u slot_a slot_b ut_paddr target_paddr.

(** The first device memory that covers the frames. *)
Definition covers (target_paddr n_frames : Z) (d : UntypedDesc) : bool :=
  is_device d && bool_decide (paddr d ≤ target_paddr)
  && bool_decide (target_paddr + n_frames * GRANULE_SIZE ≤ paddr d + 2 ^ size_bits d).
Definition allocate_device_frames (b : BootInfo) (target_paddr n_frames : Z) : SM ObjectAllocator (list Z) :=
  match list_find (λ d, covers target_paddr n_frames d = true) (untyped_list b) with
  | None => panic
  | Some (ut_ix, ut_desc) =>
      let u := untyped b + Z.of_nat ut_ix in
      when (bool_decide (paddr ut_desc < target_paddr)) (trim_untyped u (paddr ut_desc) target_paddr) ;;
      base_slot ← next_slots_batch n_frames;
      kcall (λ k, untyped_retype k u SmallPage base_slot n_frames) ;;
      mret (seqZ base_slot n_frames)
  end.
End alloc.

Section proofs.
Context `{K : Kernel, KL : !KernelLaws K}.
Implicit Types (a : ObjectAllocator) (k : kstate).

(** ** Slots *)

Lemma wp_next_slot a :
  wp next_slot (λ s a', s = (empty_slots a).1 ∧ s < (empty_slots a).2 ∧ a' = a <| empty_slots := (s + 1, (empty_slots a).2) |>) a.
Proof. intros s a'. unfold next_slot. case_decide; [|done]. intros [= <- <-]. done. Qed.
Lemma wp_next_slots_batch n a :
  1 ≤ n →
  wp (next_slots_batch n) (λ s a', s = (empty_slots a).1 ∧ s + n ≤ (empty_slots a).2
    ∧ a' = a <| empty_slots := (s + n, (empty_slots a).2) |>) a.
Proof.
  intros Hn. unfold next_slots_batch. wp_step. eapply wp_mono; [apply wp_next_slot|]. cbn. intros s a1 (-> & Hs & Ha1).
  wp_step. eapply wp_mono.
  - apply (wp_for_each _ (λ l a2, (empty_slots a).1 + 1 + Z.of_nat (length l) ≤ (empty_slots a).2
      ∧ a2 = a <| empty_slots := ((empty_slots a).1 + 1 + Z.of_nat (length l), (empty_slots a).2) |>)).
    + cbn. split; [lia|]. by rewrite Z.add_0_r.
    + intros l1 x l2 a2 _ [H1 ->]. wp_step. eapply wp_mono; [apply wp_next_slot|]. cbn. intros s a3 (-> & Hs3 & ->).
      apply wp_ret. rewrite length_app. cbn. split; [lia|]. do 2 f_equal. lia.
  - cbn. intros [] a2 [H1 ->]. rewrite length_seqZ in *. apply wp_ret. split_and!; [done|lia|]. do 2 f_equal. lia.
Qed.

(** ** Kernel calls *)

Lemma wp_kcall f (Q : () → ObjectAllocator → Prop) a :
  (∀ k, f (kern a) = Some k → Q () (a <| kern := k |>)) → wp (kcall f) Q a.
Proof. intros HQ [] a'. unfold kcall. destruct (f (kern a)) as [k|]; [|done]. intros [= <-]. by apply HQ. Qed.
Lemma wp_kcall_tolerant f (Q : () → ObjectAllocator → Prop) a :
  Q () a → (∀ k, f (kern a) = Some k → Q () (a <| kern := k |>)) → wp (kcall_tolerant f) Q a.
Proof.
  intros H1 H2 [] a'. unfold kcall_tolerant, upd. cbn. destruct (f (kern a)) as [k|] eqn:E; intros [= <-]; [by apply H2|].
  by destruct a.
Qed.

(** Frames taken from [u], the next of which is at [p]. *)
Definition next_at k (u p : Z) : Prop :=
  (∀ c, parent k c ≠ Some u) ∧ ut_base u = p ∨ (∃ c, parent k c = Some u) ∧ ut_free k u = p.
Lemma align_up_id p g : 0 < g → (g | p) → align_up p g = p.
Proof.
  intros Hg [q ->]. unfold align_up. replace (q * g + g - 1) with (g - 1 + q * g) by lia.
  rewrite Z.div_add, Z.div_small by lia. lia.
Qed.
Lemma retype_at k u bp slot n k' p :
  untyped_retype k u bp slot n = Some k' → next_at k u p → (2 ^ object_bits bp | p) →
  (∀ c, c < slot ∨ slot + n ≤ c → frame_of k' c = frame_of k c ∧ parent k' c = parent k c)
  ∧ (∀ i, 0 ≤ i < n → parent k' (slot + i) = Some u)
  ∧ (∀ u', u' ≠ u → ut_free k' u' = ut_free k u')
  ∧ ut_free k' u = p + n * 2 ^ object_bits bp
  ∧ (bp = SmallPage → ∀ i, 0 ≤ i < n → frame_of k' (slot + i) = Some (p + i * GRANULE_SIZE)).
Proof.
  intros E Hn Hd. destruct (retype_ok _ _ _ _ _ _ E) as (_ & _ & _ & Hout & Hpar & Hfree & start & [Hs1 Hs2] & Hf & Hfr).
  assert (start = p) as ->.
  { pose proof (object_bits_pos bp). destruct Hn as [[Hno <-]|[Hyes <-]]; [rewrite Hs2 by done|rewrite Hs1 by done];
      apply align_up_id; (done || by apply Z.pow_pos_nonneg). }
  split_and!; try done; [intros i Hi; by apply Hpar|]. intros Hbp i Hi. by apply Hfr.
Qed.

(** What later allocations leave alone. *)
Definition keeps a a' : Prop :=
  ut a' = ut a ∧ (empty_slots a).1 ≤ (empty_slots a').1
  ∧ ∀ c, c < (empty_slots a).1 → frame_of (kern a') c = frame_of (kern a) c ∧ parent (kern a') c = parent (kern a) c.

(** ** Trimming *)

Lemma trim_ok fuel u sa sb cur target m a :
  sa ≠ sb → 0 ≤ m → target - cur < 2 ^ m → (2 ^ m | cur) → cur ≤ target →
  (next_at (kern a) u cur ∧ cur < target ∨ parent (kern a) sa = Some u ∧ ut_free (kern a) u = cur) →
  wp (trim_from fuel u sa sb cur target) (λ _ a',
    empty_slots a' = empty_slots a ∧ ut a' = ut a ∧ ut_free (kern a') u = target ∧ parent (kern a') sa = Some u
    ∧ ∀ c, c ≠ sa → c ≠ sb → frame_of (kern a') c = frame_of (kern a) c ∧ parent (kern a') c = parent (kern a) c) a.
Proof.
  intros Hne. revert cur m a. induction fuel as [|fuel IH]; intros cur m a Hm Hlt Hd Hle Hst; cbn [trim_from].
  { case_decide as Hc; [|by intros ?]. apply wp_ret. destruct Hst as [[_ ?]|[Hp <-]]; [lia|]. split_and!; (done || lia). }
  case_decide as Hc. { apply wp_ret. destruct Hst as [[_ ?]|[Hp <-]]; [lia|]. split_and!; (done || lia). }
  set (b := Z.log2 (target - cur)). pose proof (Z.log2_spec (target - cur) ltac:(lia)) as [Hb1 Hb2]. fold b in Hb1, Hb2.
  assert (0 ≤ b) as Hb by apply Z.log2_nonneg.
  assert (b < m) as Hbm by (apply (Z.pow_lt_mono_r_iff 2); lia).
  assert (2 ^ b | cur) as Hdb.
  { etransitivity; [|exact Hd]. exists (2 ^ (m - b)). rewrite <-Z.pow_add_r by lia. f_equal. lia. }
  assert (next_at (kern a) u cur) as Hn by (destruct Hst as [[? _]|[Hp Hf]]; [done|right; eauto]).
  wp_step. apply wp_kcall. intros k1 E1. pose proof (object_bits_untyped b Hb) as Eb.
  destruct (retype_at _ _ _ _ _ _ cur E1 Hn) as (Hout1 & Hpar1 & _ & Hf1 & _); [by rewrite Eb|]. rewrite Eb, Z.mul_1_l in Hf1.
  pose proof (Hpar1 0 ltac:(lia)) as Hp1. rewrite Z.add_0_r in Hp1.
  set (I := λ a2 : ObjectAllocator, empty_slots a2 = empty_slots a ∧ ut a2 = ut a ∧ ut_free (kern a2) u = cur + 2 ^ b
    ∧ parent (kern a2) sb = Some u
    ∧ ∀ c, c ≠ sa → c ≠ sb → frame_of (kern a2) c = frame_of (kern a) c ∧ parent (kern a2) c = parent (kern a) c).
  assert (I (a <| kern := k1 |>)) as HI1.
  { unfold I; cbn. split_and!; try done. intros c _ Hcb. apply Hout1. lia. }
  wp_step. apply (wp_mono _ (λ _, I)).
  { apply wp_kcall_tolerant; [done|]. cbn. intros k2 E2. destruct (slot_delete_ok _ _ _ E2) as (_ & Hoth & Hfree).
    destruct HI1 as (I1 & I2 & I3 & I4 & I5). unfold I; cbn in *. split_and!; [done|done|by rewrite Hfree| |].
    - by destruct (Hoth sb ltac:(done)) as [-> _].
    - intros c Ha Hcb. destruct (Hoth c Ha) as [-> ->]. by apply I5. }
  intros [] a2 (I1 & I2 & I3 & I4 & I5). wp_step. apply wp_kcall. intros k3 E3.
  destruct (slot_move_ok _ _ _ _ E3) as (Hmv & _ & Hoth & Hfree).
  eapply wp_mono; [apply (IH (cur + 2 ^ b) b); cbn|].
  - done.
  - rewrite Z.pow_succ_r in Hb2 by done. lia.
  - apply Z.divide_add_r; [done|reflexivity].
  - lia.
  - right. rewrite Hfree, Hmv. done.
  - cbn. intros [] a4 (J1 & J2 & J3 & J4 & J5). split_and!; [by rewrite J1|by rewrite J2|done|done|].
    intros c Ha Hcb. destruct (J5 c Ha Hcb) as [-> ->]. destruct (Hoth c Hcb Ha) as [-> ->]. by apply I5.
Qed.

(** 64 turns are enough: more would change nothing. *)
Lemma trim_enough fuel f u sa sb cur target a :
  target ≤ cur ∨ Z.log2 (target - cur) < Z.of_nat fuel →
  trim_from (fuel + f) u sa sb cur target a = trim_from fuel u sa sb cur target a.
Proof.
  revert cur a. induction fuel as [|fuel IH]; intros cur a Hf; cbn [trim_from Nat.add].
  { destruct Hf as [Hf|Hf]; [|pose proof (Z.log2_nonneg (target - cur)); lia]. destruct f; cbn [trim_from]; by case_decide. }
  case_decide as Hc; [done|]. set (b := Z.log2 (target - cur)) in *.
  pose proof (Z.log2_spec (target - cur) ltac:(lia)) as [Hb1 Hb2]. fold b in Hb1, Hb2. rewrite Z.pow_succ_r in Hb2 by apply Z.log2_nonneg.
  unfold mbind, SM_bind. destruct (kcall _ a) as [[? a1]|]; [|done]. destruct (kcall_tolerant _ a1) as [[? a2]|]; [|done].
  destruct (kcall _ a2) as [[? a3]|]; [|done]. apply IH.
  destruct (decide (target ≤ cur + 2 ^ b)) as [|Hlt]; [by left|right].
  assert (Z.log2 (target - (cur + 2 ^ b)) < b) as Hlog; [|unfold b in *; lia]. apply Z.log2_lt_pow2; lia.
Qed.

(** ** Frames for devices *)

Lemma frames_at n u a p :
  1 ≤ n → next_at (kern a) u p → (GRANULE_SIZE | p) →
  wp (base_slot ← next_slots_batch n; kcall (λ k, untyped_retype k u SmallPage base_slot n) ;; mret (seqZ base_slot n))
    (λ fs a', fs = seqZ (empty_slots a).1 n ∧ (empty_slots a').1 = (empty_slots a).1 + n ∧ keeps a a'
      ∧ (∀ c, parent (kern a') c = parent (kern a) c ∨ parent (kern a') c = Some u)
      ∧ ∀ i, 0 ≤ i < n → frame_of (kern a') ((empty_slots a).1 + i) = Some (p + i * GRANULE_SIZE)) a.
Proof.
  intros Hn Hat Hp. wp_step. eapply wp_mono; [by apply wp_next_slots_batch|]. cbn. intros s a1 (-> & Hs & ->).
  wp_step. apply wp_kcall. cbn. intros k' E. apply wp_ret. cbn.
  assert (2 ^ object_bits SmallPage = GRANULE_SIZE) as Eb by (by rewrite object_bits_page).
  destruct (retype_at _ _ _ _ _ _ p E Hat) as (Hout & Hpar & _ & _ & Hfr); [by rewrite Eb|].
  split_and!; [done|done| | |by apply Hfr].
  - split_and!; [done|cbn; lia|]. cbn. intros c Hc. apply Hout. lia.
  - intros c. destruct (decide (c < (empty_slots a).1 ∨ (empty_slots a).1 + n ≤ c)) as [Hc|Hc]; [left; by apply Hout|right].
    replace c with ((empty_slots a).1 + (c - (empty_slots a).1)) by lia. apply Hpar. lia.
Qed.
Lemma keeps_trans a1 a2 a3 : keeps a1 a2 → keeps a2 a3 → keeps a1 a3.
Proof.
  intros (U1 & E1 & K1) (U2 & E2 & K2). split_and!; [by rewrite U2|lia|].
  intros c Hc. destruct (K1 c Hc) as [<- <-]. apply K2. lia.
Qed.
Lemma trim_untyped_ok u p target m a :
  0 ≤ m → target - p < 2 ^ m → (2 ^ m | p) → p < target → (∀ c, parent (kern a) c ≠ Some u) → ut_base u = p →
  wp (trim_untyped u p target) (λ _ a', keeps a a' ∧ next_at (kern a') u target) a.
Proof.
  intros Hm Hlt Hd Hpt Hno Hb. unfold trim_untyped.
  wp_step. eapply wp_mono; [apply wp_next_slot|]. intros sa a1 (-> & Hsa & ->).
  wp_step. eapply wp_mono; [apply wp_next_slot|]. intros sb a2 (-> & Hsb & ->).
  eapply wp_mono; [apply (trim_ok _ _ _ _ _ _ m)|].
  - cbn. lia.
  - exact Hm.
  - exact Hlt.
  - exact Hd.
  - lia.
  - left. split; [by left|exact Hpt].
  - cbn. intros [] a3 (E1 & E2 & E3 & E4 & E5). split; [|right; eauto].
    split_and!; [done|rewrite E1; cbn; lia|]. intros c Hc. apply E5; lia.
Qed.

(** What the kernel says at the start: the base of every untyped memory is a
    multiple of its size, and nothing was taken from any. *)
Definition boot_ok (b : BootInfo) k : Prop :=
  (∀ ix d, untyped_list b !! ix = Some d →
     ut_base (untyped b + Z.of_nat ix) = paddr d ∧ 0 ≤ size_bits d ∧ (2 ^ size_bits d | paddr d))
  ∧ ∀ c (ix : nat), (ix < length (untyped_list b))%nat → parent k c ≠ Some (untyped b + Z.of_nat ix).
Lemma largest_ok l best ix r :
  largest best ix l = Some r →
  (Some r = best ∨ ∃ j, l !! j = Some r.2 ∧ r.1 = ix + Z.of_nat j ∧ is_device r.2 = false)
  ∧ (∀ d, d ∈ l → is_device d = false → size_bits d ≤ size_bits r.2)
  ∧ (∀ b, best = Some b → size_bits b.2 ≤ size_bits r.2).
Proof.
  revert best ix. induction l as [|d l IH]; intros best ix E; cbn [largest] in E.
  { subst best. split_and!; [by left|intros d Hd; by apply elem_of_nil in Hd|by intros b [= <-]]. }
  apply IH in E as (H1 & H2 & H3). destruct (is_device d) eqn:Ed.
  - split_and!; [|intros d' [-> |Hd']%elem_of_cons; [congruence|by apply H2]|done].
    destruct H1 as [?|(j & ? & -> & ?)]; [by left|right]. exists (S j). split_and!; [done|lia|done].
  - set (best' := match best with Some _ => _ | None => _ end) in *.
    assert (∃ b', best' = Some b' ∧ size_bits d ≤ size_bits b'.2 ∧ (∀ b, best = Some b → size_bits b.2 ≤ size_bits b'.2)
      ∧ (Some b' = best ∨ b' = (ix, d))) as (b' & Eb' & Hge & Hbest & Hor).
    { unfold best'. destruct best as [[jx b]|]; [case_decide|]; eexists; (split; [done|]); cbn; split_and!; try lia; try (by left); try (by right);
        intros b0 Hb0; (discriminate || (injection Hb0 as <-; cbn; lia)). }
    pose proof (H3 b' Eb') as Hb'. split_and!.
    + destruct H1 as [Hr|(j & ? & -> & ?)]; [|right; exists (S j); split_and!; [done|lia|done]].
      rewrite Eb' in Hr. injection Hr as ->. destruct Hor as [?| ->]; [by left|right]. exists 0%nat. cbn. split_and!; [done|lia|done].
    + intros d' [-> |Hd']%elem_of_cons Hnd; [lia|by apply H2].
    + intros b Hb. pose proof (Hbest b Hb). lia.
Qed.

(** The first allocations of every root task: the frames for the driver's queues,
    then those of the device. *)
Definition hardware_frames (b : BootInfo) (k : kstate) (dma_pages mmio_base mmio_pages : Z) :
    option ((list Z * Z) * list Z * ObjectAllocator) :=
  a ← new b k;
  (dma ← allocate_dma_frames_first b dma_pages; mmio ← allocate_device_frames b mmio_base mmio_pages; mret (dma, mmio)) a.

Lemma dma_ok b k n a :
  boot_ok b k → new b k = Some a → 1 ≤ n → (∃ d, d ∈ untyped_list b ∧ is_device d = false ∧ 12 ≤ size_bits d) →
  wp (allocate_dma_frames_first b n) (λ r a', r.1 = seqZ (empty b).1 n ∧ (empty_slots a').1 = (empty b).1 + n
      ∧ (∀ i, 0 ≤ i < n → frame_of (kern a') ((empty b).1 + i) = Some (r.2 + i * GRANULE_SIZE))
      ∧ ∀ ix d, untyped_list b !! ix = Some d → is_device d = true → ∀ c, parent (kern a') c ≠ Some (untyped b + Z.of_nat ix)) a.
Proof.
  intros [Hbase Hno] Hnew Hn (d & Hd & Hnd & H12). unfold new, find_largest_kernel_untyped in Hnew. unfold allocate_dma_frames_first.
  destruct (largest None 0 (untyped_list b)) as [[jx u]|] eqn:El; [|done]. injection Hnew as <-.
  destruct (largest_ok _ _ _ _ El) as ([?|(j & Hj & Ej & Hdev)] & Hmax & _); [done|]. cbn [fst snd] in *. subst jx.
  destruct (Hbase j u Hj) as (Hu & Hs & Hdiv). pose proof (Hmax d Hd Hnd).
  wp_step. eapply wp_mono; [by apply wp_next_slots_batch|]. cbn. intros s a1 (-> & Hslots & ->).
  wp_step. apply wp_gets. cbn. wp_step. apply wp_kcall. cbn. intros k' E. apply wp_ret. cbn.
  assert (2 ^ object_bits SmallPage = GRANULE_SIZE) as Eb by (by rewrite object_bits_page).
  assert (GRANULE_SIZE | paddr u) as Hpg.
  { etransitivity; [|exact Hdiv]. exists (2 ^ (size_bits u - 12)). unfold GRANULE_SIZE. change 4096 with (2 ^ 12).
    rewrite <-Z.pow_add_r by lia. f_equal. lia. }
  destruct (retype_at _ _ _ _ _ _ (paddr u) E) as (Hout & Hpar & _ & _ & Hfr).
  - left. split; [|exact Hu]. intros c. apply Hno. by apply lookup_lt_Some in Hj.
  - by rewrite Eb.
  - split_and!; [done|done|by apply Hfr|]. intros ix d' Hix Hdev' c Hc.
    destruct (decide (c < (empty b).1 ∨ (empty b).1 + n ≤ c)) as [Ho|Ho].
    + destruct (Hout c Ho) as [_ Hp]. rewrite Hp in Hc. apply (Hno c ix); [by apply lookup_lt_Some in Hix|done].
    + replace c with ((empty b).1 + (c - (empty b).1)) in Hc by lia. rewrite Hpar in Hc by lia. injection Hc as Hc.
      assert (j = ix) as -> by lia. congruence.
Qed.
Lemma device_ok b target m a :
  (∀ ix d, untyped_list b !! ix = Some d →
     ut_base (untyped b + Z.of_nat ix) = paddr d ∧ 0 ≤ size_bits d ∧ (2 ^ size_bits d | paddr d)) →
  (∀ ix d, untyped_list b !! ix = Some d → is_device d = true → ∀ c, parent (kern a) c ≠ Some (untyped b + Z.of_nat ix)) →
  1 ≤ m → (GRANULE_SIZE | target) →
  wp (allocate_device_frames b target m) (λ fs a', keeps a a' ∧ ∃ s, fs = seqZ s m ∧ (empty_slots a).1 ≤ s
      ∧ ∀ i, 0 ≤ i < m → frame_of (kern a') (s + i) = Some (target + i * GRANULE_SIZE)) a.
Proof.
  intros Hbase Hno Hm Hpg. unfold allocate_device_frames. destruct (list_find _ _) as [[ix d]|] eqn:Ef; [|by intros ?].
  apply list_find_Some in Ef as (Hix & Hc & _). unfold covers in Hc.
  apply andb_prop in Hc as [Hc Hfit%bool_decide_eq_true]. apply andb_prop in Hc as [Hdev Hle%bool_decide_eq_true].
  destruct (Hbase ix d Hix) as (Hu & Hs & Hdiv). pose proof (Hno ix d Hix Hdev) as Hnone.
  assert (GRANULE_SIZE = 4096) as Eg by done. wp_step.
  apply (wp_mono _ (λ _ a', keeps a a' ∧ next_at (kern a') (untyped b + Z.of_nat ix) target)).
  - apply wp_when; intros Hb; [apply bool_decide_eq_true in Hb|apply bool_decide_eq_false in Hb].
    + apply (trim_untyped_ok _ _ _ (size_bits d)); (done || lia).
    + split; [|left; split; [done|rewrite Hu; lia]]. split_and!; (done || lia).
  - intros [] a1 [Hk1 Hat]. eapply wp_mono; [by apply (frames_at m _ a1 target)|].
    intros fs a2 (-> & _ & Hk2 & _ & Hfr). split; [by eapply keeps_trans|]. exists (empty_slots a1).1.
    destruct Hk1 as (_ & ? & _). by split_and!.
Qed.

(** C23: the hardware the server is given.  The frames for its driver are
    contiguous from the physical address it is told, and the frames of the device
    are exactly those at the device's address: the untyped memory in front of it
    is taken away in at most 64 pieces, which reach its address exactly.  All of
    them are in slots of their own. *)
Theorem hardware_frames_spec b k n base m dma dma_paddr mmio a :
  boot_ok b k → 1 ≤ n → 1 ≤ m → (GRANULE_SIZE | base) →
  (∃ d, d ∈ untyped_list b ∧ is_device d = false ∧ 12 ≤ size_bits d) →
  hardware_frames b k n base m = Some ((dma, dma_paddr), mmio, a) →
  Z.of_nat (length dma) = n ∧ Z.of_nat (length mmio) = m ∧ NoDup (dma ++ mmio)
  ∧ (∀ i c, dma !! i = Some c → frame_of (kern a) c = Some (dma_paddr + Z.of_nat i * GRANULE_SIZE))
  ∧ (∀ i c, mmio !! i = Some c → frame_of (kern a) c = Some (base + Z.of_nat i * GRANULE_SIZE))
  ∧ (∀ f u sa sb cur target a', 0 ≤ cur → target < 2 ^ 64 →
       trim_from (64 + f) u sa sb cur target a' = trim_from 64 u sa sb cur target a').
Proof.
  intros Hboot Hn Hm Hpg Hd E. unfold hardware_frames in E.
  destruct (new b k) as [a0|] eqn:Enew; [|done]. cbn [mbind option_bind] in E.
  assert (wp (dma ← allocate_dma_frames_first b n; mmio ← allocate_device_frames b base m; mret (dma, mmio))
    (λ r a', r.1.1 = seqZ (empty b).1 n
      ∧ (∀ i, 0 ≤ i < n → frame_of (kern a') ((empty b).1 + i) = Some (r.1.2 + i * GRANULE_SIZE))
      ∧ ∃ s, r.2 = seqZ s m ∧ (empty b).1 + n ≤ s
        ∧ ∀ i, 0 ≤ i < m → frame_of (kern a') (s + i) = Some (base + i * GRANULE_SIZE)) a0) as Hwp.
  { wp_step. eapply wp_mono; [by apply (dma_ok b k)|]. intros r a1 (Er & Es & Hfr & Hnone).
    wp_step. eapply wp_mono; [apply device_ok; [by apply Hboot|done..]|].
    intros fs a2 ((_ & _ & Hk) & s & -> & Hs & Hfs). apply wp_ret. cbn. split_and!; [done| |exists s; split_and!; [done|lia|done]].
    intros i Hi. rewrite (proj1 (Hk ((empty b).1 + i) ltac:(lia))). by apply Hfr. }
  destruct (Hwp _ _ E) as (E1 & Hfr & s & E2 & Hs & Hfs). cbn [fst snd] in *. subst dma mmio.
  split_and!.
  - rewrite length_seqZ. lia.
  - rewrite length_seqZ. lia.
  - apply NoDup_app. split_and!; [apply NoDup_seqZ| |apply NoDup_seqZ]. intros c H1%elem_of_seqZ H2%elem_of_seqZ. lia.
  - intros i c [-> Hi]%lookup_seqZ. apply Hfr. lia.
  - intros i c [-> Hi]%lookup_seqZ. apply Hfs. lia.
  - intros f u sa sb cur target a' Hc Ht. apply trim_enough.
    destruct (decide (target ≤ cur)) as [|Hlt]; [by left|right]. change (Z.of_nat 64) with 64. apply Z.log2_lt_pow2; lia.
Qed.
End proofs.

(** * A start of the small kernel *)

Definition demo_boot : BootInfo := mkBootInfo (10, 100) 0 [mkDesc false 0 20; mkDesc true (2 ^ 30) 26].
Lemma demo_boot_ok : boot_ok (K := mem_kernel) demo_boot mem_boot.
Proof.
  split.
  - intros [|[|ix]] d Hd; cbn in Hd; [injection Hd as <-|injection Hd as <-|discriminate Hd].
    + split; [reflexivity|]. split; [cbn; lia|]. by exists 0.
    + split; [reflexivity|]. split; [cbn; lia|]. by exists 16.
  - intros c ix _ E. cbn in E. by rewrite lookup_empty in E.
Qed.
Definition demo_target : Z := 2 ^ 30 + 0x3000.
Lemma demo_slot_ok :
  match hardware_frames (K := mem_kernel) demo_boot mem_boot 16 demo_target 4 with
  | Some (_, mmio, _) => mmio !! 0%nat | None => None end = Some 28.
Proof. vm_compute. reflexivity. Qed.
Lemma hardware_frames_spec_witness :
  ∃ dma p mmio a, hardware_frames (K := mem_kernel) demo_boot mem_boot 16 demo_target 4 = Some ((dma, p), mmio, a)
    ∧ mmio !! 0%nat = Some 28 ∧ frame_of (kern a) 28 = Some demo_target.
Proof.
  pose proof demo_slot_ok as Hm.
  destruct (hardware_frames (K := mem_kernel) demo_boot mem_boot 16 demo_target 4) as [[[[dma p] mmio] a]|] eqn:E; [|discriminate Hm].
  exists dma, p, mmio, a. split; [reflexivity|]. split; [exact Hm|].
  destruct (hardware_frames_spec (K := mem_kernel) demo_boot mem_boot 16 demo_target 4 dma p mmio a) as (_ & _ & _ & _ & Hfr & _).
  - exact demo_boot_ok.
  - lia.
  - lia.
  - by exists 262147.
  - exists (mkDesc false 0 20). split; [apply list_elem_of_here|split; [reflexivity|cbn; lia]].
  - exact E.
  - rewrite (Hfr 0%nat 28 Hm). cbn [Z.of_nat]. by rewrite Z.mul_0_l, Z.add_0_r.
Defined.
End Alloc.
