(* ===== verification/Sel4Loader.v ===== *)
(** Sel4Loader: the address spaces of the processes on seL4.

    Models [poc/sel4-hello/sel4-common/src/child_vspace.rs]: a process gets a new
    address space with the pages of its image, a page for messages and the rings
    it shares; a runtime also the pool for compiled code and, in [c11-prov], the
    bytes of a module, which it reads with [get_module_bytes]
    ([c11-prov/runtime/src/main.rs]).  An image is what the [object] crate reads
    from an ELF file: its segments.  A page is filled through a free page of the
    root task, where its frame is mapped for the time of the copy. *)
From S2P Require Import Prelude Windows Sel4Kernel Sel4Jit Sel4Alloc.
Local Open Scope Z_scope.

Module Loader.
Import Alloc.

Record Segment := mkSegment { seg_address : Z; seg_size : Z; seg_data : bytes; seg_flags : Z }.
Definition PF_X : Z := 1.
Definition PF_W : Z := 2.
Definition PF_R : Z := 4.

Definition round_down (n b : Z) : Z := n - n `mod` b.
Definition coarsen_footprint (fp : Z * Z) (granularity : Z) : Z * Z :=
  (round_down fp.1 granularity, next_multiple_of fp.2 granularity).
(** [Range::len] *)
Definition range_len (fp : Z * Z) : Z := Z.max 0 (fp.2 - fp.1).
Definition seg_range (seg : Segment) : Z * Z := (seg_address seg, u64 (seg_address seg + seg_size seg)).

(** [iter.min()], [iter.max()]: [None] for no element. *)
Definition list_fold1 (f : Z → Z → Z) (l : list Z) : option Z :=
  match l with [] => None | x :: l => Some (foldl f x l) end.
Definition footprint (image : list Segment) : option (Z * Z) :=
  min ← list_fold1 Z.min (seg_address <$> image);
  max ← list_fold1 Z.max ((λ seg, (seg_range seg).2) <$> image);
  Some (coarsen_footprint (min, max) GRANULE_SIZE).

Definition no_rights : Rights := mkRights false false false.
Definition read_write : Rights := mkRights true true false.
Definition add_rights (r : Rights) (p_flags : Z) : Rights :=
  let r := if Z.land p_flags PF_R =? 0 then r else mkRights true (can_write r) (can_grant r) in
  let r := if Z.land p_flags PF_W =? 0 then r else mkRights (can_read r) true (can_grant r) in
  if Z.land p_flags PF_X =? 0 then r else mkRights (can_read r) (can_write r) true.

Section loader.
Context `{Kernel}.
Notation M := (SM ObjectAllocator).

Definition unwrap {A} (o : option A) : M A := λ a, x ← o; Some (x, a).

(** The tables of a range of addresses, level by level; [map_jit_frames_rw] and
    [provision_bytes_into_vspace] ignore the ones that exist. *)
Definition map_tables (call : (kstate → option kstate) → M ()) (vspace : Z) (fp : Z * Z) : M () :=
  for_each (λ level,
    let span_bytes := 2 ^ span_bits level in
    let fp := coarsen_footprint fp span_bytes in
    for_each (λ i,
      table ← allocate (Table level);
      call (λ k, table_map k table level vspace (fp.1 + i * span_bytes))) (seqZ 0 (range_len fp / span_bytes)))
    (seqZ 1 (NUM_LEVELS - 1)).
Definition map_intermediate_translation_tables := map_tables kcall.
Definition map_tables_tolerant := map_tables kcall_tolerant.

(** [pages[off..][..n]]: what comes before, the slice, what comes after. *)
Definition slice {A} (l : list A) (off n : Z) : option (list A * list A * list A) :=
  if decide (0 ≤ off ∧ 0 ≤ n ∧ off + n ≤ Z.of_nat (length l)) then
    Some (take (Z.to_nat off) l, take (Z.to_nat n) (drop (Z.to_nat off) l), drop (Z.to_nat off + Z.to_nat n) l)
  else None.

(** The bytes of a segment, page by page. *)
Fixpoint copy_pages (caller_vspace free_page_addr : Z) (caps : list Z) (data : bytes) (offset_into_page : Z) : M () :=
  match caps with
  | [] => mret ()
  | cap :: caps =>
      let data_len := Z.min (GRANULE_SIZE - offset_into_page) (Z.of_nat (length data)) in
      kcall (λ k, frame_map k cap caller_vspace free_page_addr read_write false) ;;
      kcall (λ k, poke k caller_vspace (free_page_addr + offset_into_page) (take (Z.to_nat data_len) data)) ;;
      kcall (λ k, frame_unmap k cap) ;;
      copy_pages caller_vspace free_page_addr caps (drop (Z.to_nat data_len) data) 0
  end.
Definition load_segment (fp : Z * Z) (caller_vspace free_page_addr : Z) (pages : list (Z * Rights)) (seg : Segment) :
    M (list (Z * Rights)) :=
  let segment_footprint := coarsen_footprint (seg_range seg) GRANULE_SIZE in
  let segment_data_footprint :=
    coarsen_footprint (seg_address seg, u64 (seg_address seg + Z.of_nat (length (seg_data seg)))) GRANULE_SIZE in
  let off := u64 (segment_footprint.1 - fp.1) / GRANULE_SIZE in
  '(before, spanned, after) ← unwrap (slice pages off (range_len segment_footprint / GRANULE_SIZE));
  let pages := before ++ ((λ p, (p.1, add_rights p.2 (seg_flags seg))) <$> spanned) ++ after in
  '(_, with_data, _) ← unwrap (slice pages off (range_len segment_data_footprint / GRANULE_SIZE));
  copy_pages caller_vspace free_page_addr with_data.*1 (seg_data seg) (seg_address seg `mod` GRANULE_SIZE) ;;
  mret pages.
Fixpoint load_segments (fp : Z * Z) (caller_vspace free_page_addr : Z) (pages : list (Z * Rights)) (image : list Segment) :
    M (list (Z * Rights)) :=
  match image with
  | [] => mret pages
  | seg :: image =>
      pages ← load_segment fp caller_vspace free_page_addr pages seg;
      load_segments fp caller_vspace free_page_addr pages image
  end.
(** One page after the other, from an address on. *)
Definition map_pages (execute_never : bool) (vspace start : Z) (pages : list (Z * Rights)) : M () :=
  for_each (λ '(i, (cap, rights)),
    kcall (λ k, frame_map k cap vspace (start + i * GRANULE_SIZE) rights execute_never))
    (zip (seqZ 0 (Z.of_nat (length pages))) pages).
Definition map_image (vspace : Z) (fp : Z * Z) (image : list Segment) (caller_vspace free_page_addr : Z) : M () :=
  caps ← mapM (λ _, allocate SmallPage) (seqZ 0 (range_len fp / GRANULE_SIZE));
  pages ← load_segments fp caller_vspace free_page_addr ((λ c, (c, no_rights)) <$> caps) image;
  map_pages false vspace fp.1 pages.

Definition create_child_vspace (image : list Segment) (caller_vspace free_page_addr : Z) (ring_frames : list Z) :
    M (Z * Z * Z * list Z) :=
  child_vspace ← allocate VSpaceObject;
  kcall (λ k, asid_assign k child_vspace) ;;
  image_footprint ← unwrap (footprint image);
  let extra := (1 + Z.of_nat (length ring_frames)) * GRANULE_SIZE in
  map_intermediate_translation_tables child_vspace (image_footprint.1, image_footprint.2 + extra) ;;
  map_image child_vspace image_footprint image caller_vspace free_page_addr ;;
  let ipc_buffer_addr := image_footprint.2 in
  ipc_buffer_cap ← allocate SmallPage;
  kcall (λ k, frame_map k ipc_buffer_cap child_vspace ipc_buffer_addr read_write false) ;;
  map_pages false child_vspace (image_footprint.2 + GRANULE_SIZE) ((λ r, (r, read_write)) <$> ring_frames) ;;
  mret (child_vspace, ipc_buffer_addr, ipc_buffer_cap,
        (λ i, image_footprint.2 + (1 + i) * GRANULE_SIZE) <$> seqZ 0 (Z.of_nat (length ring_frames))).

(** The address at which a process looks for a ring, after its end and the page for
    messages ([c8-store/server/src/main.rs]). *)
Definition get_ring_va_for_agent (end_ ring_index : Z) : Z :=
  let ipc_buf := next_multiple_of end_ GRANULE_SIZE in
  ipc_buf + (1 + ring_index) * GRANULE_SIZE.

(** The pool for compiled code: writable, not executable. *)
Definition map_jit_frames_rw (vspace : Z) (jit_frames : list Z) (base_va : Z) : M () :=
  let pool_end := base_va + Z.of_nat (length jit_frames) * GRANULE_SIZE in
  map_tables_tolerant vspace (base_va, pool_end) ;;
  map_pages true vspace base_va ((λ f, (f, read_write)) <$> jit_frames).

(** The pool of a new runtime. *)
Definition spawn_jit_pool (vspace : Z) : M (list Z) :=
  jit_frames ← allocate_frames_batch Jit.JIT_POOL_PAGES;
  map_jit_frames_rw vspace jit_frames Jit.JIT_POOL_VA_BASE ;;
  mret jit_frames.

(** The copies the supervisor makes for the runtime, slot of the runtime and
    capability of its own: the address space, then the frames of the pool. *)
Definition RUNTIME_SLOT_VSPACE : Z := 4.
Definition RUNTIME_JIT_FRAME_BASE : Z := 5.
Definition runtime_copies (vspace : Z) (jit_frames : list Z) : list (Z * Z) :=
  (RUNTIME_SLOT_VSPACE, vspace)
  :: zip_with (λ i frame, (RUNTIME_JIT_FRAME_BASE + i, frame)) (seqZ 0 (Z.of_nat (length jit_frames))) jit_frames.

(** The devices of the server: a missing table is made and the mapping tried again.
    Every turn takes a slot, so there are no more turns than slots. *)
Definition DMA_VA_BASE : Z := 0x10000000.
Definition SCAN_VA : Z := 0x20000000.
Fixpoint map_retry (fuel : nat) (frame vspace va : Z) : M () := λ a,
  match frame_map (kern a) frame vspace va read_write false with
  | Some k => Some ((), a <| kern := k |>)
  | None =>
      match fuel with
      | O => None
      | S fuel =>
          (pt ← allocate (Table (NUM_LEVELS - 1));
           kcall (λ k, table_map k pt (NUM_LEVELS - 1) vspace va) ;;
           map_retry fuel frame vspace va) a
      end
  end.
Definition map_frame_rw_retry (frame vspace va : Z) : M () := λ a,
  map_retry (Z.to_nat ((empty_slots a).2 - (empty_slots a).1)) frame vspace va a.
Definition map_hardware_into_vspace (vspace : Z) (dma_frames mmio_frames : list Z) : M () :=
  for_each (λ '(i, frame), map_frame_rw_retry frame vspace (DMA_VA_BASE + i * GRANULE_SIZE))
    (zip (seqZ 0 (Z.of_nat (length dma_frames))) dma_frames) ;;
  for_each (λ '(i, frame), map_frame_rw_retry frame vspace (SCAN_VA + i * GRANULE_SIZE))
    (zip (seqZ 0 (Z.of_nat (length mmio_frames))) mmio_frames).

(** A page of the module's region: the length, in its first eight bytes, then the
    data. *)
Definition fill_page (caller_vspace free_page_addr : Z) (data : bytes) (i : Z) : M () :=
  let len_bytes := le_bytes 8 (u64 (Z.of_nat (length data))) in
  let page_start := i * GRANULE_SIZE in
  let page_end := page_start + GRANULE_SIZE in
  kcall (λ k, poke k caller_vspace free_page_addr (replicate (Z.to_nat GRANULE_SIZE) Byte.x00)) ;;
  when (bool_decide (page_start < 8))
    (let h_end := Z.min page_end 8 in
     kcall (λ k, poke k caller_vspace (free_page_addr + page_start - page_start) (extract len_bytes page_start (h_end - page_start)))) ;;
  let d_start := Z.max page_start 8 in
  let d_end := Z.min page_end (8 + Z.of_nat (length data)) in
  when (bool_decide (d_start < d_end))
    (let in_page := d_start - page_start in
     let data_offset := d_start - 8 in
     kcall (λ k, poke k caller_vspace (free_page_addr + in_page) (extract data data_offset (d_end - d_start)))).
Definition provision_bytes_into_vspace (vspace caller_vspace free_page_addr : Z) (data : bytes) (base_va : Z) : M () :=
  let total_len := 8 + Z.of_nat (length data) in
  let n_frames := (total_len + GRANULE_SIZE - 1) / GRANULE_SIZE in
  let pool_end := base_va + n_frames * GRANULE_SIZE in
  map_tables_tolerant vspace (base_va, pool_end) ;;
  frames ← allocate_frames_batch n_frames;
  for_each (λ '(i, frame),
    kcall (λ k, frame_map k frame caller_vspace free_page_addr read_write false) ;;
    fill_page caller_vspace free_page_addr data i ;;
    kcall (λ k, frame_unmap k frame) ;;
    kcall (λ k, frame_map k frame vspace (base_va + i * GRANULE_SIZE) read_write true))
    (zip (seqZ 0 n_frames) frames).

(** What a process reads at an address: [None] is a fault. *)
Definition byte_at (k : kstate) (vspace va : Z) : option Byte.byte :=
  q ← pte k vspace (va - va `mod` GRANULE_SIZE);
  if pte_read q then memory k (page_frame q) !! Z.to_nat (va `mod` GRANULE_SIZE) else None.
Definition read_mem (k : kstate) (vspace va n : Z) : option bytes := mapM (byte_at k vspace) (seqZ va n).
Definition MODULE_VA_BASE : Z := 0x50000000.
Definition get_module_bytes (k : kstate) (vspace : Z) : option bytes :=
  len_bytes ← read_mem k vspace MODULE_VA_BASE 8;
  let module_len := of_le len_bytes in
  read_mem k vspace (MODULE_VA_BASE + 8) module_len.
End loader.

(** * Mapped pages *)

Section proofs.
Context `{K : Kernel, KL : !KernelLaws K}.
Implicit Types (a : ObjectAllocator) (k : kstate).

(** What allocations, tables and mappings elsewhere do not touch: the frames that
    are in use, and every entry but those at [P]. *)
Definition untouched (P : Z → Z → Prop) k k' : Prop :=
  (∀ vs va, ¬ P vs va → pte k' vs va = pte k vs va)
  ∧ (∀ f, used k f → memory k' f = memory k f).
(** Slots keep their frames. *)
Definition slots_kept a a' : Prop :=
  ut a' = ut a ∧ ∀ c f, frame_of (kern a) c = Some f → frame_of (kern a') c = Some f.
Definition nowhere (vs va : Z) : Prop := False.

Lemma slots_kept_refl a : slots_kept a a.
Proof. done. Qed.
Lemma slots_kept_trans a1 a2 a3 : slots_kept a1 a2 → slots_kept a2 a3 → slots_kept a1 a3.
Proof. intros (U1 & F1) (U2 & F2). split; [by rewrite U2|]. eauto. Qed.
(** The frame behind a slot is in use. *)
Lemma slot_used k c f : frame_of k c = Some f → used k f.
Proof. intros E. left. eauto. Qed.

Lemma wp_allocate bp a :
  wp (allocate bp) (λ c a', slots_kept a a' ∧ untouched nowhere (kern a) (kern a')
    ∧ (bp = SmallPage → ∃ f, frame_of (kern a') c = Some f ∧ unused (kern a) f
        ∧ (ut_device (ut a) = false → memory (kern a') f = replicate (Z.to_nat GRANULE_SIZE) Byte.x00))) a.
Proof.
  unfold allocate. wp_step. eapply wp_mono; [apply wp_next_slot|]. cbn. intros c a1 (-> & _ & ->).
  wp_step. apply wp_gets. cbn. wp_step. apply wp_kcall. cbn. intros k' E. apply wp_ret. cbn.
  destruct (retype_ok _ _ _ _ _ _ E) as (_ & Hpte & Hmem & Hout & Hin & _ & start & _ & _ & Hfr).
  split_and!.
  - split; [done|]. cbn. intros c f Hc. destruct (decide (c = (empty_slots a).1)) as [->|Hne].
    + destruct (Hin 0 ltac:(lia)) as [Hnone _]. rewrite Z.add_0_r in Hnone. congruence.
    + rewrite (proj1 (Hout c ltac:(lia))). done.
  - split; [intros vs va _; apply Hpte|done].
  - intros Hbp. destruct (Hfr Hbp 0 ltac:(lia)) as (F1 & F2 & F3). rewrite Z.add_0_r in F1. eauto.
Qed.
(** Two together: no entry and no frame in use has changed. *)
Definition harmless a a' : Prop := slots_kept a a' ∧ untouched nowhere (kern a) (kern a').
Lemma harmless_used a a' f : harmless a a' → used (kern a) f → used (kern a') f.
Proof.
  intros [(_ & F) (P & _)] [[c Hc]|(vs & va & q & Hq & Ef)]; [left; eauto|right].
  exists vs, va, q. by rewrite P by (intros []).
Qed.
Lemma harmless_refl a : harmless a a.
Proof. done. Qed.
Lemma harmless_trans a1 a2 a3 : harmless a1 a2 → harmless a2 a3 → harmless a1 a3.
Proof.
  intros H12 H23. pose proof (λ f, harmless_used _ _ f H12) as Hu. destruct H12 as [S1 (P1 & M1)], H23 as [S2 (P2 & M2)].
  split; [by eapply slots_kept_trans|]. split; [intros vs va Hn; by rewrite P2, P1|]. intros f Hf. rewrite M2 by by apply Hu. by apply M1.
Qed.

(** ** Frames for pages *)

Definition behind k : list Z → list Z → Prop := Forall2 (λ c f, frame_of k c = Some f).
Definition zeros (n : Z) : bytes := replicate (Z.to_nat n) Byte.x00.
Lemma behind_kept a a' caps fs : behind (kern a) caps fs → slots_kept a a' → behind (kern a') caps fs.
Proof. intros Hb [_ He]. eapply Forall2_impl; [exact Hb|]. cbn. intros c f. apply He. Qed.
Lemma behind_used k caps fs f : behind k caps fs → f ∈ fs → used k f.
Proof.
  intros Hb [i Hi]%list_elem_of_lookup_1. destruct (Forall2_lookup_r _ _ _ _ _ Hb Hi) as (c & _ & Hc). by eapply slot_used.
Qed.

Lemma wp_allocate_pages (l : list Z) a :
  ut_device (ut a) = false →
  wp (mapM (λ _ : Z, allocate SmallPage) l) (λ caps a', ∃ fs, behind (kern a') caps fs ∧ NoDup fs ∧ length caps = length l
    ∧ harmless a a'
    ∧ (∀ f, f ∈ fs → memory (kern a') f = zeros GRANULE_SIZE ∧ unused (kern a) f)) a.
Proof.
  revert a. induction l as [|x l IH]; intros a Hdev; cbn [mapM].
  { apply wp_ret. exists []. split_and!; try done; try (by intros ? ?%elem_of_nil); constructor. }
  wp_step. eapply wp_mono; [apply wp_allocate|]. intros c a1 (Hk1 & Hu1 & Hf1). destruct (Hf1 eq_refl) as (f & Ef & [Un1 Un2] & Hz).
  wp_step. eapply wp_mono; [apply IH; destruct Hk1 as (-> & _); done|].
  intros caps a2 (fs & Hb & Hnd & Hlen & Hh2 & Hf2). apply wp_ret. exists (f :: fs).
  pose proof Hh2 as [[_ Hk2] [_ Hm2]].
  assert (f ∉ fs) as Hnot by (intros Hin; destruct (Hf2 f Hin) as [_ [Hc _]]; by apply (Hc c)).
  split_and!.
  - constructor; [|done]. by apply Hk2.
  - by constructor.
  - cbn. by rewrite Hlen.
  - by eapply harmless_trans.
  - intros g [->|Hg]%elem_of_cons.
    + split; [|done]. rewrite Hm2 by by eapply slot_used. by apply Hz.
    + destruct (Hf2 g Hg) as [Hgz [G1 G2]]. split; [done|]. destruct Hk1 as [_ Hk1], Hu1 as [Hp1 _].
      split; [intros c' Hc'; by apply (G1 c'), Hk1|]. intros vs va q Hq. apply (G2 vs va). by rewrite Hp1 by (intros []).
Qed.

(** ** Copies through the free page *)

Section copy.
Context (caller_vspace free_page_addr : Z) (Hfree : free_page_addr `mod` GRANULE_SIZE = 0).
Context (fs : list Z) (Hnd : NoDup fs).

(** The frames of [fs] are mapped at most at the free page. *)
Definition only_free k : Prop :=
  ∀ vs va q, pte k vs va = Some q → page_frame q ∈ fs → vs = caller_vspace ∧ va = free_page_addr.
(** They hold the bytes of [flat], page by page. *)
Definition holds k (flat : bytes) : Prop :=
  Z.of_nat (length flat) = Z.of_nat (length fs) * GRANULE_SIZE
  ∧ ∀ i f, fs !! i = Some f → memory k f = extract flat (Z.of_nat i * GRANULE_SIZE) GRANULE_SIZE.
(** Nothing else changes. *)
Definition copying k k' : Prop :=
  (∀ c, frame_of k' c = frame_of k c)
  ∧ (∀ vs va, ¬ (vs = caller_vspace ∧ va = free_page_addr) → pte k' vs va = pte k vs va)
  ∧ (∀ f, f ∉ fs → memory k' f = memory k f).

Lemma copying_trans k1 k2 k3 : copying k1 k2 → copying k2 k3 → copying k1 k3.
Proof.
  intros (F1 & P1 & M1) (F2 & P2 & M2). split_and!; intros; [by rewrite F2|by rewrite P2, P1|by rewrite M2, M1].
Qed.
Lemma copy_map k c f xn k' :
  only_free k → f ∈ fs → frame_of k c = Some f → frame_map k c caller_vspace free_page_addr read_write xn = Some k' →
  copying k k' ∧ only_free k' ∧ (∀ g, memory k' g = memory k g)
  ∧ ∃ q, pte k' caller_vspace free_page_addr = Some q ∧ page_frame q = f.
Proof.
  intros Ho Hf Hc E. destruct (frame_map_ok _ _ _ _ _ _ _ E) as ((q & Hq & Hqf & _) & Hoth & M & F).
  rewrite Hc in Hqf. injection Hqf as Hqf. split_and!.
  - split_and!; [done| |done]. intros vs va Hn. apply Hoth. intros [= -> ->]. tauto.
  - intros vs va q' Hq' Hin. destruct (decide ((vs, va) = (caller_vspace, free_page_addr))) as [[= -> ->]|Hne]; [done|].
    rewrite Hoth in Hq' by done. by eapply Ho.
  - done.
  - eauto.
Qed.
Lemma copy_poke k j f off d flat q k' :
  holds k flat → pte k caller_vspace free_page_addr = Some q → page_frame q = f → fs !! j = Some f →
  0 ≤ off < GRANULE_SIZE → off + Z.of_nat (length d) ≤ GRANULE_SIZE →
  poke k caller_vspace (free_page_addr + off) d = Some k' →
  copying k k' ∧ (∀ vs va, pte k' vs va = pte k vs va) ∧ holds k' (splice flat (Z.of_nat j * GRANULE_SIZE + off) d).
Proof.
  intros [Hl Hh] Hq Hqf Hj Hoff Hd E.
  assert ((free_page_addr + off) `mod` GRANULE_SIZE = off) as Emod.
  { rewrite Z.add_mod, Hfree, Z.add_0_l, Z.mod_mod, Z.mod_small by done. done. }
  destruct (poke_ok _ _ _ _ _ E) as ((q' & Hq' & Hm & Hoth) & P & F); rewrite Emod in *; [lia|].
  replace (free_page_addr + off - off) with free_page_addr in Hq' by lia. rewrite Hq in Hq'. injection Hq' as <-. rewrite Hqf in *.
  assert (j < length fs)%nat as Hjl by by apply lookup_lt_Some in Hj.
  assert (Z.of_nat j * GRANULE_SIZE + off + Z.of_nat (length d) ≤ Z.of_nat (length flat)) as Hfit.
  { rewrite Hl. unfold GRANULE_SIZE in *. nia. }
  assert (0 ≤ Z.of_nat j * GRANULE_SIZE) by (unfold GRANULE_SIZE; lia).
  split_and!; [|done|split].
  - split_and!; [done|by intros; apply P|]. intros g Hg. apply Hoth. intros ->. apply Hg. by eapply list_elem_of_lookup_2.
  - by rewrite length_splice by lia.
  - intros i g Hi. destruct (decide (i = j)) as [->|Hij].
    + rewrite Hj in Hi. injection Hi as <-. rewrite Hm, (Hh j f Hj).
      assert (splice flat (Z.of_nat j * GRANULE_SIZE + off) d
        = splice flat (Z.of_nat j * GRANULE_SIZE) (splice (extract flat (Z.of_nat j * GRANULE_SIZE) GRANULE_SIZE) off d)) as ->.
      { rewrite splice_extract; (done || lia || (unfold GRANULE_SIZE in *; nia)). }
      set (w := splice (extract _ _ _) off d). assert (Z.of_nat (length w) = GRANULE_SIZE) as Hw.
      { unfold w. rewrite length_splice; rewrite ?length_extract; (lia || (unfold GRANULE_SIZE in *; nia)). }
      pose proof (extract_splice_same flat (Z.of_nat j * GRANULE_SIZE) w) as Hx. rewrite Hw in Hx. symmetry.
      apply Hx; [lia|]. rewrite Hl. unfold GRANULE_SIZE in *. nia.
    + rewrite Hoth by (intros ->; apply Hij; by eapply NoDup_lookup). rewrite (Hh i g Hi). symmetry.
      assert (i < length fs)%nat by by apply lookup_lt_Some in Hi.
      apply extract_splice_out; [lia|unfold GRANULE_SIZE; lia|done|lia|].
      unfold GRANULE_SIZE in *. destruct (decide (i < j)%nat); [left|right]; nia.
Qed.
Lemma copy_unmap k c f k' :
  only_free k → f ∈ fs → frame_of k c = Some f → frame_unmap k c = Some k' →
  copying k k' ∧ only_free k' ∧ ∀ g, memory k' g = memory k g.
Proof.
  intros Ho Hf Hc E. destruct (frame_unmap_ok _ _ _ E) as (U & M & F). split_and!; [|  |done].
  - split_and!; [done| |done]. intros vs va Hn. destruct (U vs va) as [?|(_ & q & Hq & Hqf)]; [done|].
    rewrite Hc in Hqf. injection Hqf as ->. destruct Hn. by eapply Ho.
  - intros vs va q Hq Hin. destruct (U vs va) as [Hu|[Hu _]]; [|congruence]. rewrite Hu in Hq. by eapply Ho.
Qed.
Lemma holds_same k k' flat : (∀ g, memory k' g = memory k g) → holds k flat → holds k' flat.
Proof. intros M [Hl Hh]. split; [done|]. intros i f Hi. rewrite M. by apply Hh. Qed.
Lemma holds_kept k k' flat : (∀ g, g ∈ fs → memory k' g = memory k g) → holds k flat → holds k' flat.
Proof. intros M [Hl Hh]. split; [done|]. intros i f Hi. rewrite M by (by eapply list_elem_of_lookup_2). by apply Hh. Qed.
Lemma only_free_same k k' : (∀ vs va, pte k' vs va = pte k vs va) → only_free k → only_free k'.
Proof. intros P Ho vs va q Hq. apply Ho. by rewrite <-P. Qed.

(** The step of the allocator's state that a copy is. *)
Definition copy_step a a' : Prop := empty_slots a' = empty_slots a ∧ ut a' = ut a ∧ copying (kern a) (kern a').
Lemma copy_pages_ok caps j data off flat a :
  only_free (kern a) → holds (kern a) flat →
  (∀ i c, caps !! i = Some c → ∃ f, fs !! (j + i)%nat = Some f ∧ frame_of (kern a) c = Some f) →
  0 ≤ off < GRANULE_SIZE → (data = [] ∨ off + Z.of_nat (length data) ≤ Z.of_nat (length caps) * GRANULE_SIZE) →
  wp (copy_pages caller_vspace free_page_addr caps data off)
    (λ _ a', copy_step a a' ∧ only_free (kern a') ∧ holds (kern a') (splice flat (Z.of_nat j * GRANULE_SIZE + off) data)) a.
Proof.
  revert j data off flat a. induction caps as [|c caps IH]; intros j data off flat a Ho Hh Hc Hoff Hfit; cbn [copy_pages].
  { apply wp_ret. destruct Hfit as [->|Hfit]; [|cbn in Hfit; destruct data; cbn in Hfit; [|lia]]; rewrite splice_nil; by split_and!. }
  destruct (Hc 0%nat c eq_refl) as (f & Hj & Ef). rewrite Nat.add_0_r in Hj. pose proof (list_elem_of_lookup_2 _ _ _ Hj) as Hin.
  set (n := Z.min _ _). set (d1 := take (Z.to_nat n) data). set (d2 := drop (Z.to_nat n) data).
  assert (0 ≤ n) as Hn0 by (unfold n; lia). assert (Z.of_nat (length d1) = n) as Hd1 by (unfold d1; rewrite length_take; unfold n in *; lia).
  wp_step. apply wp_kcall. intros k1 E1. destruct (copy_map _ _ _ _ _ Ho Hin Ef E1) as (C1 & O1 & M1 & q & Hq & Hqf).
  wp_step. apply wp_kcall. intros k2 E2. cbn in E2.
  destruct (copy_poke k1 j f off d1 flat q k2) as (C2 & P2 & H2); try done; [by eapply holds_same|unfold n in *; lia|].
  wp_step. apply wp_kcall. intros k3 E3. cbn in E3.
  assert (frame_of k2 c = Some f) as Ef2 by (destruct C1 as (F1 & _), C2 as (F2 & _); by rewrite F2, F1).
  destruct (copy_unmap k2 c f k3) as (C3 & O3 & M3); try done; [by eapply only_free_same|].
  set (a3 := upd kern _ _). assert (copy_step a a3) as Hs3 by (split_and!; [done|done|]; do 2 (eapply copying_trans; [done|]); done).
  eapply wp_mono; [apply (IH (S j) d2 0 (splice flat (Z.of_nat j * GRANULE_SIZE + off) d1))|].
  - done.
  - by eapply holds_same.
  - intros i c' Hi. destruct (Hc (S i) c' Hi) as (g & Hg & Eg). exists g. rewrite <-Nat.add_succ_comm in Hg. split; [done|].
    destruct Hs3 as (_ & _ & F3 & _). by rewrite F3.
  - unfold GRANULE_SIZE. lia.
  - destruct (decide (Z.of_nat (length data) ≤ GRANULE_SIZE - off)) as [Hsm|Hbig].
    + left. unfold d2. apply drop_ge. unfold n. lia.
    + right. unfold d2. rewrite length_drop. destruct Hfit as [->|Hfit]; [cbn in Hbig; unfold GRANULE_SIZE in *; lia|].
      cbn [length] in Hfit. unfold n. lia.
  - cbn beta. intros [] a4 ((S1 & S2 & S3) & O4 & H4). split_and!; [|done|].
    + destruct Hs3 as (T1 & T2 & T3). split_and!; [by rewrite S1|by rewrite S2|by eapply copying_trans].
    + rewrite <-(take_drop (Z.to_nat n) data). fold d1 d2.
      destruct (decide (d2 = [])) as [E|Hne]; [by rewrite E, splice_nil, app_nil_r in *|].
      assert (n = GRANULE_SIZE - off) as En.
      { unfold n. destruct (decide (Z.of_nat (length data) ≤ GRANULE_SIZE - off)); [|lia]. destruct Hne. apply drop_ge. unfold n. lia. }
      rewrite <-splice_splice_app.
      * rewrite Hd1, En. replace (Z.of_nat j * GRANULE_SIZE + off + (GRANULE_SIZE - off)) with (Z.of_nat (S j) * GRANULE_SIZE + 0) by lia. done.
      * unfold GRANULE_SIZE in *. lia.
      * destruct Hh as [Hl _]. rewrite Hl. assert (j < length fs)%nat by by apply lookup_lt_Some in Hj. unfold GRANULE_SIZE in *. lia.
Qed.
End copy.

(** ** Ranges of pages *)

Lemma wp_unwrap {A} (o : option A) (Q : A → ObjectAllocator → Prop) a :
  (∀ x, o = Some x → Q x a) → wp (unwrap o) Q a.
Proof. intros HQ x a'. unfold unwrap. destruct o as [y|]; [|done]. intros [= <- <-]. by apply HQ. Qed.
Lemma segment_slice_Some {A} (l : list A) off n b m e :
  slice l off n = Some (b, m, e) →
  l = b ++ m ++ e ∧ Z.of_nat (length b) = off ∧ Z.of_nat (length m) = n ∧ 0 ≤ off ∧ 0 ≤ n.
Proof.
  unfold slice. case_decide as Hr; [|done]. intros [= <- <- <-].
  split; [by rewrite <-drop_drop, take_drop, take_drop|]. rewrite !length_take, length_drop. lia.
Qed.
Lemma next_multiple_bounds n m :
  0 ≤ n → n ≤ m → m < 2 ^ 64 → m `mod` GRANULE_SIZE = 0 →
  n ≤ next_multiple_of n GRANULE_SIZE < n + GRANULE_SIZE ∧ next_multiple_of n GRANULE_SIZE ≤ m
  ∧ next_multiple_of n GRANULE_SIZE `mod` GRANULE_SIZE = 0.
Proof.
  unfold next_multiple_of, GRANULE_SIZE. intros Hn Hm Hw Hd.
  pose proof (Z.div_mod n 4096 ltac:(lia)). pose proof (Z.mod_pos_bound n 4096 ltac:(lia)). pose proof (Z.div_mod m 4096 ltac:(lia)).
  case_decide as Hz; [lia|]. assert (n `div` 4096 < m `div` 4096) by nia.
  assert (n + (4096 - n `mod` 4096) = (n `div` 4096 + 1) * 4096) as E by lia.
  rewrite wrap_small by (unfold in_width; lia). rewrite E. split_and!; try lia. by rewrite Z.mod_mul.
Qed.

Lemma round_down_bounds n : 0 ≤ n → n - GRANULE_SIZE < round_down n GRANULE_SIZE ≤ n ∧ round_down n GRANULE_SIZE `mod` GRANULE_SIZE = 0 ∧ 0 ≤ round_down n GRANULE_SIZE.
Proof.
  unfold round_down, GRANULE_SIZE. intros Hn.
  pose proof (Z.div_mod n 4096 ltac:(lia)). pose proof (Z.mod_pos_bound n 4096 ltac:(lia)).
  assert (n - n `mod` 4096 = n `div` 4096 * 4096) as E by lia. rewrite E, Z.mod_mul by done. split_and!; try lia.
Qed.
Lemma page_index n m : n `mod` GRANULE_SIZE = 0 → m `mod` GRANULE_SIZE = 0 → (n - m) / GRANULE_SIZE * GRANULE_SIZE = n - m.
Proof.
  unfold GRANULE_SIZE. intros Hn Hm. pose proof (Z.div_mod (n - m) 4096 ltac:(lia)) as E.
  assert ((n - m) `mod` 4096 = 0) as Hz by (rewrite Zminus_mod, Hn, Hm; done). lia.
Qed.

(** ** The segments *)

(** An image whose segments lie in its footprint and have at most the data they
    have room for. *)
Definition seg_ok (fp : Z * Z) (seg : Segment) : Prop :=
  fp.1 ≤ seg_address seg ∧ Z.of_nat (length (seg_data seg)) ≤ seg_size seg ∧ seg_address seg + seg_size seg ≤ fp.2.
Definition fp_ok (fp : Z * Z) : Prop :=
  0 ≤ fp.1 ∧ fp.2 < 2 ^ 64 ∧ fp.1 `mod` GRANULE_SIZE = 0 ∧ fp.2 `mod` GRANULE_SIZE = 0.
(** The segment has a byte in the page, or its bounds have. *)
Definition spans (fp : Z * Z) (seg : Segment) (i : Z) : bool :=
  let f := coarsen_footprint (seg_range seg) GRANULE_SIZE in
  (f.1 <=? fp.1 + i * GRANULE_SIZE) && (fp.1 + i * GRANULE_SIZE <? f.2).
Definition page_rights (fp : Z * Z) (image : list Segment) (r : Rights) (i : Z) : Rights :=
  foldl (λ r seg, if spans fp seg i then add_rights r (seg_flags seg) else r) r image.
(** The bytes of the image, from the start of the footprint. *)
Definition image_bytes (fp : Z * Z) (flat : bytes) (image : list Segment) : bytes :=
  foldl (λ flat seg, splice flat (seg_address seg - fp.1) (seg_data seg)) flat image.

Lemma mark_lookup {A} (f : A → A) (b m e : list A) i x :
  (b ++ m ++ e) !! i = Some x →
  (b ++ (f <$> m) ++ e) !! i = Some (if decide (length b ≤ i < length b + length m)%nat then f x else x).
Proof.
  intros Hi. destruct (decide (i < length b)%nat) as [Hb|Hb].
  { rewrite lookup_app_l in Hi |- * by done. rewrite decide_False by lia. done. }
  rewrite lookup_app_r in Hi |- * by lia. destruct (decide (i - length b < length m)%nat) as [Hm|Hm].
  - rewrite lookup_app_l in Hi |- * by (rewrite ?length_fmap; lia). rewrite decide_True by lia. by rewrite list_lookup_fmap, Hi.
  - rewrite lookup_app_r in Hi |- * by (rewrite ?length_fmap; lia). rewrite length_fmap, decide_False by lia. done.
Qed.

Section image.
Context (caller_vspace free_page_addr : Z) (Hfree : free_page_addr `mod` GRANULE_SIZE = 0).
Context (fs : list Z) (Hnd : NoDup fs).
Notation only_free := (only_free caller_vspace free_page_addr fs).
Notation copy_step := (copy_step caller_vspace free_page_addr fs).

Lemma load_segment_ok fp pages seg flat a :
  fp_ok fp → seg_ok fp seg → Z.of_nat (length fs) * GRANULE_SIZE = fp.2 - fp.1 →
  behind (kern a) pages.*1 fs → only_free (kern a) → holds fs (kern a) flat →
  wp (load_segment fp caller_vspace free_page_addr pages seg) (λ pages' a',
      copy_step a a' ∧ only_free (kern a') ∧ holds fs (kern a') (splice flat (seg_address seg - fp.1) (seg_data seg))
      ∧ pages'.*1 = pages.*1
      ∧ ∀ i c r, pages !! i = Some (c, r) →
          pages' !! i = Some (c, if spans fp seg (Z.of_nat i) then add_rights r (seg_flags seg) else r)) a.
Proof.
  intros (Hf0 & Hf64 & Hf1 & Hf2) (Hs1 & Hs2 & Hs3) Hlen Hb Ho Hh. unfold load_segment.
  assert (seg_range seg = (seg_address seg, seg_address seg + seg_size seg)) as Er.
  { unfold seg_range. rewrite wrap_small; [done|]. unfold in_width. lia. }
  rewrite (wrap_small 64 (_ + Z.of_nat (length (seg_data seg)))) by (unfold in_width; lia).
  destruct (round_down_bounds (seg_address seg) ltac:(lia)) as (R1 & R2 & R3).
  destruct (next_multiple_bounds (seg_address seg + seg_size seg) fp.2 ltac:(lia) ltac:(lia) Hf64 Hf2) as (N1 & N2 & N3).
  destruct (next_multiple_bounds (seg_address seg + Z.of_nat (length (seg_data seg))) fp.2 ltac:(lia) ltac:(lia) Hf64 Hf2) as (D1 & D2 & D3).
  set (rd := round_down (seg_address seg) GRANULE_SIZE) in *.
  assert (fp.1 ≤ rd) as Hrd.
  { pose proof (page_index rd fp.1 R2 Hf1). unfold GRANULE_SIZE in *. lia. }
  assert (coarsen_footprint (seg_range seg) GRANULE_SIZE = (rd, next_multiple_of (seg_address seg + seg_size seg) GRANULE_SIZE)) as Ecf by (by rewrite Er).
  rewrite Ecf. unfold coarsen_footprint, range_len. cbn [fst snd]. fold rd. rewrite (wrap_small 64 (rd - fp.1)) by (unfold in_width; lia).
  rewrite !Z.max_r by lia. pose proof (page_index rd fp.1 R2 Hf1) as Eoff. set (off := (rd - fp.1) / GRANULE_SIZE) in *.
  pose proof (page_index _ rd N3 R2) as En. set (n := (next_multiple_of _ _ - rd) / GRANULE_SIZE) in *.
  wp_step. apply wp_unwrap. intros [[b m] e] Hsl. apply segment_slice_Some in Hsl as (Ep & Eb & Em & _).
  set (pages' := b ++ _ ++ e).
  assert (pages'.*1 = pages.*1) as E1.
  { unfold pages'. rewrite Ep, !fmap_app. do 2 f_equal. rewrite <-list_fmap_compose. done. }
  wp_step. apply wp_unwrap. intros [[b' m'] e'] Hsl'. apply segment_slice_Some in Hsl' as (Ep' & Eb' & Em' & _).
  wp_step. eapply wp_mono; [apply (copy_pages_ok _ _ Hfree fs Hnd _ (Z.to_nat off) _ _ flat)|].
  - done.
  - done.
  - intros i c Hi. assert (pages.*1 !! (Z.to_nat off + i)%nat = Some c) as Hc.
    { rewrite <-E1, Ep', !fmap_app. rewrite lookup_app_r by (rewrite length_fmap; lia).
      rewrite length_fmap. replace (Z.to_nat off + i - length b')%nat with i by lia.
      by rewrite lookup_app_l by (by apply lookup_lt_Some in Hi). }
    destruct (Forall2_lookup_l _ _ _ _ _ Hb Hc) as (f & Hf & Ef). eauto.
  - apply Z.mod_pos_bound. done.
  - right. rewrite length_fmap, Em', page_index by done. unfold rd, round_down. lia.
  - intros [] a1 (Hst & Ho1 & Hh1). apply wp_ret. split_and!; [done|done| |done|].
    + replace (seg_address seg - fp.1) with (Z.of_nat (Z.to_nat off) * GRANULE_SIZE + seg_address seg `mod` GRANULE_SIZE); [done|].
      unfold rd, round_down in Eoff. assert (0 ≤ off) by lia. rewrite Z2Nat.id by done. lia.
    + intros i c r Hi. rewrite Ep in Hi. apply (mark_lookup (λ p, (p.1, add_rights p.2 (seg_flags seg)))) in Hi.
      unfold pages'. rewrite Hi. f_equal. unfold spans. rewrite Ecf. cbn [fst snd].
      case_decide as Hd.
      * rewrite (proj2 (Z.leb_le _ _)), (proj2 (Z.ltb_lt _ _)) by (unfold GRANULE_SIZE in *; lia). done.
      * destruct (_ && _) eqn:Eb2; [|done]. apply andb_prop in Eb2 as [B1%Z.leb_le B2%Z.ltb_lt].
        destruct Hd. unfold GRANULE_SIZE in *. lia.
Qed.
Lemma load_segments_ok fp image pages flat a :
  fp_ok fp → Forall (seg_ok fp) image → Z.of_nat (length fs) * GRANULE_SIZE = fp.2 - fp.1 →
  behind (kern a) pages.*1 fs → only_free (kern a) → holds fs (kern a) flat →
  wp (load_segments fp caller_vspace free_page_addr pages image) (λ pages' a',
      copy_step a a' ∧ only_free (kern a') ∧ holds fs (kern a') (image_bytes fp flat image)
      ∧ pages'.*1 = pages.*1
      ∧ ∀ i c r, pages !! i = Some (c, r) → pages' !! i = Some (c, page_rights fp image r (Z.of_nat i))) a.
Proof.
  intros Hfp Hok Hlen. revert pages flat a. induction Hok as [|seg image Hseg _ IH]; intros pages flat a Hb Ho Hh; cbn [load_segments].
  { apply wp_ret. by split_and!. }
  wp_step. eapply wp_mono; [by apply load_segment_ok|]. intros pages1 a1 ((S1 & S2 & S3) & O1 & H1 & E1 & L1).
  eapply wp_mono; [apply IH; [|done|done]|].
  - rewrite E1. eapply Forall2_impl; [exact Hb|]. cbn. intros c f Hc. destruct S3 as (F & _). by rewrite F.
  - intros pages2 a2 ((T1 & T2 & T3) & O2 & H2 & E2 & L2). split_and!; [|done|done|by rewrite E2|].
    + split_and!; [by rewrite T1|by rewrite T2|by eapply copying_trans].
    + intros i c r Hi. by rewrite (L2 i c _ (L1 i c r Hi)).
Qed.
End image.

(** ** Tables and pages *)

Lemma zip_seqZ {A} (l : list A) j x :
  zip (seqZ 0 (Z.of_nat (length l))) l !! j = Some x ↔ x.1 = Z.of_nat j ∧ l !! j = Some x.2.
Proof.
  rewrite lookup_zip_with_Some. split.
  - intros (i & y & -> & [-> Hi]%lookup_seqZ & Hy). cbn. split; [lia|done].
  - destruct x as [i y]. cbn. intros [-> Hy]. exists (Z.of_nat j), y. split_and!; [done| |done].
    apply lookup_seqZ. apply lookup_lt_Some in Hy. lia.
Qed.
Definition rights_ok (q : Pte) (r : Rights) : Prop :=
  (pte_read q = true → can_read r = true) ∧ (pte_write q = true → can_write r = true)
  ∧ (can_read r = true → pte_read q = true ∧ pte_write q = can_write r).
(** The frame of a slot, mapped. *)
Definition mapped k xn vspace va c r : Prop :=
  ∃ q, pte k vspace va = Some q ∧ frame_of k c = Some (page_frame q) ∧ pte_xn q = xn ∧ rights_ok q r.
Definition mapping_step (vspace start : Z) (n : nat) a a' : Prop :=
  empty_slots a' = empty_slots a ∧ ut a' = ut a ∧ (∀ c, frame_of (kern a') c = frame_of (kern a) c)
  ∧ (∀ f, memory (kern a') f = memory (kern a) f)
  ∧ ∀ vs va, ¬ (vs = vspace ∧ ∃ j, (j < n)%nat ∧ va = start + Z.of_nat j * GRANULE_SIZE) → pte (kern a') vs va = pte (kern a) vs va.
Lemma map_pages_ok xn vspace start pages a :
  wp (map_pages xn vspace start pages) (λ _ a', mapping_step vspace start (length pages) a a'
    ∧ ∀ i c r, pages !! i = Some (c, r) → mapped (kern a') xn vspace (start + Z.of_nat i * GRANULE_SIZE) c r) a.
Proof.
  unfold map_pages. set (l := zip _ _). assert (length l = length pages) as Hl.
  { unfold l. rewrite length_zip_with, length_seqZ. lia. }
  eapply wp_mono.
  - apply (wp_for_each _ (λ l1 a', mapping_step vspace start (length l1) a a'
      ∧ ∀ i c r, (i < length l1)%nat → pages !! i = Some (c, r) → mapped (kern a') xn vspace (start + Z.of_nat i * GRANULE_SIZE) c r)).
    + cbn. split; [by split_and!|lia].
    + intros l1 [i [c r]] l2 a1 El ((S1 & S2 & S3 & S4 & S5) & Hm).
      assert (l !! length l1 = Some (i, (c, r))) as Hlk by (rewrite El; by apply list_lookup_middle).
      apply zip_seqZ in Hlk as [Hi Hlk]. cbn in Hi, Hlk. subst i. cbn beta iota. apply wp_kcall. intros k' E.
      destruct (frame_map_ok _ _ _ _ _ _ _ E) as ((q & Hq & Hqf & Hx & Hr1 & Hr2 & Hr3) & Hoth & M & F).
      rewrite length_app. cbn [length]. rewrite Nat.add_1_r. split.
      * split_and!; [done|done|intros c'; cbn; by rewrite F|intros f; cbn; by rewrite M|].
        intros vs va Hn. cbn. rewrite Hoth; [apply S5|].
        -- intros [-> (j & Hj & ->)]. destruct Hn. split; [done|]. exists j. split; [lia|done].
        -- intros [= -> ->]. destruct Hn. split; [done|]. exists (length l1). split; [lia|done].
      * intros j c' r' Hj Hp. destruct (decide (j = length l1)) as [->|Hne].
        -- rewrite Hlk in Hp. injection Hp as <- <-. exists q. cbn. rewrite F. done.
        -- destruct (Hm j c' r' ltac:(lia) Hp) as (q' & Hq' & Hf' & Hx' & Hr'). exists q'. cbn. rewrite F.
           rewrite Hoth; [done|]. intros [= Hva]. unfold GRANULE_SIZE in Hva. lia.
  - intros [] a' [Hs Hm]. rewrite Hl in *. split; [done|]. intros i c r Hi. apply Hm; [|done]. by apply lookup_lt_Some in Hi.
Qed.

(** A call that changes no entry and no frame, [unwrap]ped or not. *)
Definition quiet (f : kstate → option kstate) : Prop :=
  ∀ k k', f k = Some k' → same_memory k k' ∧ ∀ c, frame_of k' c = frame_of k c.
Lemma quiet_harmless a k' : same_memory (kern a) k' → (∀ c, frame_of k' c = frame_of (kern a) c) → harmless a (a <| kern := k' |>).
Proof.
  intros [P M] F. split; [split; [done|]|split].
  - cbn. intros c f Hc. by rewrite F.
  - intros vs va _. apply P.
  - intros f _. apply M.
Qed.
Lemma kcall_quiet f a : quiet f → wp (kcall f) (λ _ a', harmless a a') a.
Proof. intros Hf. apply wp_kcall. intros k1 E. destruct (Hf _ _ E). by apply quiet_harmless. Qed.
Lemma kcall_tolerant_quiet f a : quiet f → wp (kcall_tolerant f) (λ _ a', harmless a a') a.
Proof. intros Hf. apply wp_kcall_tolerant; [apply harmless_refl|]. intros k1 E. destruct (Hf _ _ E). by apply quiet_harmless. Qed.
Lemma allocate_harmless bp a : wp (allocate bp) (λ _ a', harmless a a') a.
Proof. eapply wp_mono; [apply wp_allocate|]. intros c a' (S1 & U1 & _). by split. Qed.
Lemma map_tables_ok (call : (kstate → option kstate) → SM ObjectAllocator ()) vspace fp a :
  (∀ f a, quiet f → wp (call f) (λ _ a', harmless a a') a) → wp (map_tables call vspace fp) (λ _ a', harmless a a') a.
Proof.
  intros Hcall. unfold map_tables. apply (wp_for_each _ (λ _ a', harmless a a')); [apply harmless_refl|].
  intros _ level _ a1 _ H1. apply (wp_for_each _ (λ _ a', harmless a a')); [done|].
  intros _ i _ a2 _ H2. wp_step. eapply wp_mono; [apply allocate_harmless|]. intros table a3 H3.
  eapply wp_mono; [apply Hcall|].
  - intros k k' E. by eapply table_map_ok.
  - intros [] a4 H4. exact (harmless_trans _ _ _ H2 (harmless_trans _ _ _ H3 H4)).
Qed.

(** ** The footprint *)

Definition image_ok (image : list Segment) : Prop :=
  Forall (λ seg, 0 ≤ seg_address seg ∧ Z.of_nat (length (seg_data seg)) ≤ seg_size seg
    ∧ seg_address seg + seg_size seg ≤ 2 ^ 64 - 2 * GRANULE_SIZE) image.
Lemma fold1_spec (f : Z → Z → Z) (R : Z → Z → Prop) l m :
  (∀ x, R x x) → (∀ x y z, R x y → R y z → R x z) → (∀ x y, R (f x y) x ∧ R (f x y) y ∧ (f x y = x ∨ f x y = y)) →
  list_fold1 f l = Some m → m ∈ l ∧ ∀ x, x ∈ l → R m x.
Proof.
  intros Hr Ht Hf. unfold list_fold1. destruct l as [|y l]; [done|]. intros [= <-]. revert y.
  induction l as [|z l IH]; intros y; cbn [foldl].
  { split; [by left|]. intros x ->%list_elem_of_singleton. apply Hr. }
  destruct (IH (f y z)) as [Hin Hall]. destruct (Hf y z) as (H1 & H2 & H3). pose proof (Hall (f y z) ltac:(by left)) as Hm. split.
  - apply elem_of_cons in Hin as [Hin|Hin]; [|set_solver]. rewrite Hin. destruct H3 as [-> | ->]; set_solver.
  - intros x [->|[->|Hx]%elem_of_cons]%elem_of_cons; [by eapply Ht|by eapply Ht|]. apply Hall. set_solver.
Qed.
Lemma footprint_ok image fp :
  image_ok image → footprint image = Some fp →
  fp_ok fp ∧ Forall (seg_ok fp) image
  ∧ ∃ end_, list_fold1 Z.max ((λ seg, seg_address seg + seg_size seg) <$> image) = Some end_ ∧ fp.2 = next_multiple_of end_ GRANULE_SIZE.
Proof.
  intros Hok E. unfold footprint in E. rewrite (list_fmap_ext _ (λ seg, seg_address seg + seg_size seg) image) in E.
  2: { intros i seg Hi. unfold image_ok in Hok. rewrite Forall_lookup in Hok. destruct (Hok i seg Hi) as (? & ? & ?). cbn.
       apply wrap_small. unfold in_width, GRANULE_SIZE in *. lia. }
  destruct (list_fold1 Z.min _) as [mn|] eqn:Emin; [|done]. destruct (list_fold1 Z.max _) as [mx|] eqn:Emax; [|done].
  cbn [mbind option_bind] in E. injection E as <-.
  apply (fold1_spec Z.min Z.le) in Emin as [Hmin Hmin']; [|intros; lia..].
  pose proof Emax as Emax'. apply (fold1_spec Z.max Z.ge) in Emax as [Hmax Hmax']; [|intros; lia..].
  unfold image_ok in Hok. rewrite Forall_forall in Hok.
  apply list_elem_of_fmap in Hmin as (s1 & -> & Hs1), Hmax as (s2 & -> & Hs2).
  destruct (Hok _ Hs1) as (A1 & A2 & A3), (Hok _ Hs2) as (B1 & B2 & B3).
  destruct (round_down_bounds (seg_address s1) A1) as (R1 & R2 & R3).
  destruct (next_multiple_bounds (seg_address s2 + seg_size s2) (2 ^ 64 - GRANULE_SIZE)) as (N1 & N2 & N3); [lia|unfold GRANULE_SIZE in *; lia|done|done|].
  cbn [fst snd]. split_and!.
  - split_and!; cbn; try done. unfold GRANULE_SIZE in *. lia.
  - apply Forall_forall. intros seg Hseg. destruct (Hok _ Hseg) as (C1 & C2 & C3).
    pose proof (Hmin' (seg_address seg) ltac:(by apply list_elem_of_fmap_2)).
    pose proof (Hmax' (seg_address seg + seg_size seg) ltac:(apply list_elem_of_fmap; eauto)).
    split_and!; cbn; lia.
  - exists (seg_address s2 + seg_size s2). done.
Qed.

(** ** A new process *)

Lemma extract_zeros n b m : 0 ≤ b → 0 ≤ m → b + m ≤ n → extract (zeros n) b m = zeros m.
Proof. intros. unfold extract, zeros. rewrite drop_replicate, take_replicate. f_equal. lia. Qed.
(** The pages of a process: page [i] has the frame [i] of [fs]. *)
Definition has_pages k vspace start xn (fs : list Z) (rights : nat → Rights) : Prop :=
  ∀ i f, fs !! i = Some f → ∃ q, pte k vspace (start + Z.of_nat i * GRANULE_SIZE) = Some q ∧ page_frame q = f ∧ pte_xn q = xn ∧ rights_ok q (rights i).
Lemma map_image_ok vspace fp image caller_vspace free_page_addr a :
  free_page_addr `mod` GRANULE_SIZE = 0 → fp_ok fp → fp.1 ≤ fp.2 → Forall (seg_ok fp) image → ut_device (ut a) = false →
  wp (map_image vspace fp image caller_vspace free_page_addr) (λ _ a', ∃ fs,
      Z.of_nat (length fs) * GRANULE_SIZE = fp.2 - fp.1 ∧ (∀ f, f ∈ fs → used (kern a') f ∧ unused (kern a) f)
      ∧ holds fs (kern a') (image_bytes fp (zeros (fp.2 - fp.1)) image)
      ∧ has_pages (kern a') vspace fp.1 false fs (λ i, page_rights fp image no_rights (Z.of_nat i))
      ∧ slots_kept a a' ∧ (∀ f, used (kern a) f → memory (kern a') f = memory (kern a) f)
      ∧ ∀ vs va, vs ≠ vspace → ¬ (vs = caller_vspace ∧ va = free_page_addr) → pte (kern a') vs va = pte (kern a) vs va) a.
Proof.
  intros Hfree Hfp Hle Hsegs Hdev. unfold map_image. pose proof Hfp as (F1 & F2 & F3 & F4).
  pose proof (page_index fp.2 fp.1 F4 F3) as En. unfold range_len. rewrite Z.max_r by lia. set (n := (fp.2 - fp.1) / GRANULE_SIZE) in *.
  assert (0 ≤ n) as Hn by (unfold GRANULE_SIZE in *; lia).
  wp_step. eapply wp_mono; [by apply wp_allocate_pages|]. intros caps a1 (fs & Hb & Hnd & Hlen & [Hk1 [Hp1 Hm1]] & Hf1).
  rewrite length_seqZ in Hlen. pose proof (Forall2_length _ _ _ Hb) as Hlf.
  assert (Z.of_nat (length fs) * GRANULE_SIZE = fp.2 - fp.1) as Elen by (rewrite <-Hlf, Hlen, Z2Nat.id by done; done).
  wp_step. eapply wp_mono; [apply (load_segments_ok _ _ Hfree fs Hnd fp image _ (zeros (fp.2 - fp.1))); try done|].
  - rewrite <-list_fmap_compose. cbn. by rewrite list_fmap_id.
  - intros vs va q Hq Hin. destruct (Hf1 _ Hin) as [_ [_ Hun]]. exfalso. eapply (Hun vs va q); [|done]. rewrite <-Hp1 by (intros []). done.
  - split; [unfold zeros; rewrite length_replicate; lia|]. intros i f Hi. destruct (Hf1 f (list_elem_of_lookup_2 _ _ _ Hi)) as [-> _].
    assert (i < length fs)%nat by by apply lookup_lt_Some in Hi. rewrite extract_zeros; (done || unfold GRANULE_SIZE in *; lia).
  - intros pages a2 ((S1 & S2 & C1 & C2 & C3) & Ho & Hh & Epg & Hrt).
    assert (length pages = length fs) as Hlp by (rewrite <-Hlf, <-(length_fmap fst pages), Epg, !length_fmap; done).
    eapply wp_mono; [apply map_pages_ok|]. intros [] a3 ((T1 & T2 & T3 & T4 & T5) & Hmp). exists fs.
    assert (slots_kept a a3) as Hkept.
    { destruct Hk1 as [U1 K1]. split; [by rewrite T2, S2|]. intros c f Hc. rewrite T3, C1. by apply K1. }
    split_and!; [done| | | |done| |].
    + intros f Hf. split; [|by apply Hf1]. pose proof (behind_used _ _ _ _ Hb Hf) as Hu.
      apply list_elem_of_lookup_1 in Hf as [i Hi]. destruct (Forall2_lookup_r _ _ _ _ _ Hb Hi) as (c & _ & Hc).
      left. exists c. by rewrite T3, C1.
    + eapply holds_same; [|exact Hh]. done.
    + intros i f Hi. destruct (Forall2_lookup_r _ _ _ _ _ Hb Hi) as (c & Hci & Hc).
      assert (pages !! i = Some (c, page_rights fp image no_rights (Z.of_nat i))) as Hpi.
      { apply Hrt. by rewrite list_lookup_fmap, Hci. }
      destruct (Hmp i _ _ Hpi) as (q & Hq & Hqf & Hx & Hr). exists q. split_and!; try done.
      rewrite T3, C1, Hc in Hqf. by injection Hqf.
    + intros f Hf. rewrite T4, C3; [by apply Hm1|]. intros Hin. destruct (Hf1 f Hin) as [_ [U1 U2]].
      destruct Hf as [[c Hc]|(vs & va & q & Hq & <-)]; [by apply (U1 c)|by apply (U2 vs va q)].
    + intros vs va Hne Hnf. rewrite T5 by (intros [-> _]; done). rewrite C2 by done. apply Hp1. by intros [].
Qed.

Lemma footprint_nonempty image fp : Forall (seg_ok fp) image → footprint image = Some fp → fp.1 ≤ fp.2.
Proof. intros Hs E. destruct Hs as [|seg image (H1 & H2 & H3) _]; [done|]. lia. Qed.
(** One more frame mapped: the other pages stay. *)
Lemma map_one k c vspace va r xn k' :
  frame_map k c vspace va r xn = Some k' →
  mapped k' xn vspace va c r ∧ (∀ c, frame_of k' c = frame_of k c) ∧ (∀ f, memory k' f = memory k f)
  ∧ ∀ vs' va', (vs', va') ≠ (vspace, va) → pte k' vs' va' = pte k vs' va'.
Proof.
  intros E. destruct (frame_map_ok _ _ _ _ _ _ _ E) as ((q & Hq & Hqf & Hx & Hr1 & Hr2 & Hr3) & Hoth & M & F).
  split_and!; try done. exists q. rewrite F. by split_and!.
Qed.

Lemma create_child_ok image caller_vspace free_page_addr rings a :
  image_ok image → free_page_addr `mod` GRANULE_SIZE = 0 → ut_device (ut a) = false →
  wp (create_child_vspace image caller_vspace free_page_addr rings)
    (λ r a', ∃ fp end_ fs, footprint image = Some fp ∧ list_fold1 Z.max ((λ seg, seg_address seg + seg_size seg) <$> image) = Some end_
      ∧ Z.of_nat (length fs) * GRANULE_SIZE = fp.2 - fp.1 ∧ (∀ f, f ∈ fs → unused (kern a) f)
      ∧ holds fs (kern a') (image_bytes fp (zeros (fp.2 - fp.1)) image)
      ∧ has_pages (kern a') r.1.1.1 fp.1 false fs (λ i, page_rights fp image no_rights (Z.of_nat i))
      ∧ r.1.1.2 = next_multiple_of end_ GRANULE_SIZE ∧ mapped (kern a') false r.1.1.1 r.1.1.2 r.1.2 read_write
      ∧ (∀ i x, rings !! i = Some x → r.2 !! i = Some (get_ring_va_for_agent end_ (Z.of_nat i))
          ∧ mapped (kern a') false r.1.1.1 (get_ring_va_for_agent end_ (Z.of_nat i)) x read_write)
      ∧ (∀ c f, frame_of (kern a) c = Some f → memory (kern a') f = memory (kern a) f)
      ∧ ∀ vs' va, vs' ≠ r.1.1.1 → ¬ (vs' = caller_vspace ∧ va = free_page_addr) → pte (kern a') vs' va = pte (kern a) vs' va) a.
Proof.
  intros Himg Hfree Hdev.
  unfold create_child_vspace. wp_step. eapply wp_mono; [apply allocate_harmless|]. intros vs a1 H1.
  wp_step. eapply wp_mono; [apply kcall_quiet; intros k k' E; by eapply asid_assign_ok|]. intros [] a2 H2.
  wp_step. apply wp_unwrap. intros fp Efp. destruct (footprint_ok _ _ Himg Efp) as (Hfp & Hsegs & end_ & Eend & Efp2).
  pose proof (footprint_nonempty _ _ Hsegs Efp) as Hle.
  wp_step. eapply wp_mono; [apply map_tables_ok, kcall_quiet|]. intros [] a3 H3.
  assert (harmless a a3) as H13 by exact (harmless_trans _ _ _ H1 (harmless_trans _ _ _ H2 H3)).
  destruct H13 as [[U3 K3] [P3 M3]].
  wp_step. eapply wp_mono; [apply map_image_ok; try done; by rewrite U3|].
  intros [] a4 (fs & Elen & Hfs & Hh & Hpg & [U4 K4] & M4 & P4).
  wp_step. eapply wp_mono; [apply wp_allocate|]. intros cap a5 ([U5 K5] & [P5 M5] & Hcap).
  destruct (Hcap eq_refl) as (fc & Hfc & [_ Hun] & _).
  wp_step. apply wp_kcall. intros k6 E6. destruct (map_one _ _ _ _ _ _ _ E6) as (Hipc & F6 & M6 & P6).
  wp_step. eapply wp_mono; [apply map_pages_ok|]. intros [] a7 ((T1 & T2 & T3 & T4 & T5) & Hmp). cbn in T3, T4, T5. apply wp_ret.
  exists fp, end_, fs. cbn [fst snd]. rewrite length_fmap in T5.
  assert (∀ va, va < fp.2 + GRANULE_SIZE → pte (kern a7) vs va = pte k6 vs va) as Pva.
  { intros va Hva. apply T5. intros (_ & j & _ & ->). unfold GRANULE_SIZE in *. lia. }
  split_and!; try done.
  - intros f Hf. destruct (Hfs f Hf) as [_ [N1 N2]]. split; [intros c Hc; by apply (N1 c), K3|].
    intros vs' va q Hq. apply (N2 vs' va q). by rewrite P3 by (intros []).
  - eapply holds_kept; [|exact Hh]. intros f Hf. rewrite T4, M6. by apply M5, Hfs.
  - intros i f Hi. destruct (Hpg i f Hi) as (q & Hq & Hr). exists q. split; [|done].
    assert (i < length fs)%nat by by apply lookup_lt_Some in Hi.
    rewrite Pva, P6, P5; [done|by intros []| |]; unfold GRANULE_SIZE in *; [intros [= Hva]; lia|lia].
  - destruct Hipc as (q & Hq & Hqf & Hr). exists q. rewrite Pva by (unfold GRANULE_SIZE; lia). split; [done|]. by rewrite T3.
  - intros i x Hi. unfold get_ring_va_for_agent. rewrite <-Efp2. split.
    + rewrite list_lookup_fmap, lookup_seqZ_lt by (apply lookup_lt_Some in Hi; lia). done.
    + destruct (Hmp i x read_write) as (q & Hq & Hr); [by rewrite list_lookup_fmap, Hi|].
      exists q. replace (fp.2 + (1 + Z.of_nat i) * GRANULE_SIZE) with (fp.2 + GRANULE_SIZE + Z.of_nat i * GRANULE_SIZE) by lia. done.
  - intros c f Hf. rewrite T4, M6, M5 by (eapply slot_used, K4, K3, Hf). rewrite M4 by (eapply slot_used, K3, Hf).
    by eapply M3, slot_used.
  - intros vs' va Hne Hnf. rewrite T5 by (intros [-> _]; done). rewrite P6 by congruence. rewrite P5 by (intros []). rewrite P4 by done. apply P3. by intros [].
Qed.
(** C21: a new process.  Its pages have fresh frames that hold exactly the bytes of
    the image (zero where no segment has data), with the rights its segments ask
    for, each of them executable; the page for messages follows, then the rings, at
    the addresses where the process looks for them.  No frame in use changes, and
    no mapping of another address space but the root task's free page. *)
Theorem child_vspace_spec image caller_vspace free_page_addr rings a vs ipc cap ring_vas a' :
  image_ok image → free_page_addr `mod` GRANULE_SIZE = 0 → ut_device (ut a) = false →
  create_child_vspace image caller_vspace free_page_addr rings a = Some ((vs, ipc, cap, ring_vas), a') →
  ∃ fp end_ fs, footprint image = Some fp ∧ list_fold1 Z.max ((λ seg, seg_address seg + seg_size seg) <$> image) = Some end_
    ∧ Z.of_nat (length fs) * GRANULE_SIZE = fp.2 - fp.1 ∧ (∀ f, f ∈ fs → unused (kern a) f)
    ∧ holds fs (kern a') (image_bytes fp (zeros (fp.2 - fp.1)) image)
    ∧ has_pages (kern a') vs fp.1 false fs (λ i, page_rights fp image no_rights (Z.of_nat i))
    ∧ ipc = next_multiple_of end_ GRANULE_SIZE ∧ mapped (kern a') false vs ipc cap read_write
    ∧ (∀ i r, rings !! i = Some r → ring_vas !! i = Some (get_ring_va_for_agent end_ (Z.of_nat i))
        ∧ mapped (kern a') false vs (get_ring_va_for_agent end_ (Z.of_nat i)) r read_write)
    ∧ (∀ c f, frame_of (kern a) c = Some f → memory (kern a') f = memory (kern a) f)
    ∧ ∀ vs' va, vs' ≠ vs → ¬ (vs' = caller_vspace ∧ va = free_page_addr) → pte (kern a') vs' va = pte (kern a) vs' va.
Proof. intros Himg Hfree Hdev E. exact (create_child_ok _ _ _ _ _ Himg Hfree Hdev _ _ E). Qed.

(** ** Devices *)

(** A page mapped after others: what was mapped elsewhere stays. *)
Definition maps_one (vspace va : Z) a a' : Prop :=
  slots_kept a a' ∧ ∀ vs' va', (vs', va') ≠ (vspace, va) → pte (kern a') vs' va' = pte (kern a) vs' va'.
Lemma map_retry_ok fuel frame vspace va a :
  wp (map_retry fuel frame vspace va) (λ _ a', maps_one vspace va a a' ∧ mapped (kern a') false vspace va frame read_write) a.
Proof.
  revert a. induction fuel as [|fuel IH]; intros a [] a'; cbn [map_retry];
    destruct (frame_map (kern a) frame vspace va read_write false) as [k|] eqn:E; try done.
  1, 2: intros [= <-]; destruct (map_one _ _ _ _ _ _ _ E) as (Hm & F & _ & P); split; [split; [split; [done|]|done]|done];
    intros c f Hc; cbn; by rewrite F.
  revert a'. cut (wp (pt ← allocate (Table (NUM_LEVELS - 1)); kcall (λ k, table_map k pt (NUM_LEVELS - 1) vspace va) ;;
    map_retry fuel frame vspace va) (λ _ a', maps_one vspace va a a' ∧ mapped (kern a') false vspace va frame read_write) a).
  { intros Hwp a' E'. exact (Hwp _ _ E'). }
  wp_step. eapply wp_mono; [apply allocate_harmless|]. intros pt a1 H1.
  wp_step. eapply wp_mono; [apply kcall_quiet; intros k k' E'; by eapply table_map_ok|]. intros [] a2 H2.
  destruct (harmless_trans _ _ _ H1 H2) as [Hk [Hp _]]. eapply wp_mono; [apply IH|]. intros [] a3 [[Hk3 Hp3] Hm]. split; [|done].
  split; [exact (slots_kept_trans _ _ _ Hk Hk3)|]. intros vs' va' Hne. rewrite Hp3 by done. apply Hp. by intros [].
Qed.
Lemma map_retry_all vspace start frames a :
  wp (for_each (λ '(i, frame), map_frame_rw_retry frame vspace (start + i * GRANULE_SIZE)) (zip (seqZ 0 (Z.of_nat (length frames))) frames))
    (λ _ a', slots_kept a a'
      ∧ (∀ vs va, ¬ (vs = vspace ∧ ∃ j, 0 ≤ j < Z.of_nat (length frames) ∧ va = start + j * GRANULE_SIZE) → pte (kern a') vs va = pte (kern a) vs va)
      ∧ ∀ i c, frames !! i = Some c → ∃ q, pte (kern a') vspace (start + Z.of_nat i * GRANULE_SIZE) = Some q
          ∧ frame_of (kern a') c = Some (page_frame q) ∧ rights_ok q read_write) a.
Proof.
  eapply wp_mono; [apply (wp_for_each _ (λ l1 a', slots_kept a a'
      ∧ (∀ vs va, ¬ (vs = vspace ∧ ∃ j, 0 ≤ j < Z.of_nat (length frames) ∧ va = start + j * GRANULE_SIZE) → pte (kern a') vs va = pte (kern a) vs va)
      ∧ ∀ i c, (i < length l1)%nat → frames !! i = Some c → ∃ q, pte (kern a') vspace (start + Z.of_nat i * GRANULE_SIZE) = Some q
          ∧ frame_of (kern a') c = Some (page_frame q) ∧ rights_ok q read_write))|].
  - split_and!; [done|done|]. intros i c Hi. cbn in Hi. lia.
  - intros l1 [i c] l2 a1 El (Hk & Hp & Hm).
    assert (zip (seqZ 0 (Z.of_nat (length frames))) frames !! length l1 = Some (i, c)) as Hlk by (rewrite El; by apply list_lookup_middle).
    apply zip_seqZ in Hlk as [Hi Hc]. cbn in Hi, Hc. subst i. cbn beta iota.
    eapply wp_mono; [apply map_retry_ok|]. intros [] a2 [[Hk2 Hp2] (q & Hq & Hqf & _ & Hr)]. split_and!.
    + exact (slots_kept_trans _ _ _ Hk Hk2).
    + intros vs va Hn. rewrite Hp2; [by apply Hp|]. intros [= -> ->]. apply Hn. split; [done|]. exists (Z.of_nat (length l1)).
      apply lookup_lt_Some in Hc. lia.
    + intros i c' Hi Hc'. rewrite length_app in Hi. cbn in Hi. destruct (decide (i = length l1)) as [->|Hne].
      * rewrite Hc in Hc'. injection Hc' as <-. eauto.
      * destruct (Hm i c' ltac:(lia) Hc') as (q' & Hq' & Hqf' & Hr'). exists q'. rewrite Hp2 by (intros [= Hx]; unfold GRANULE_SIZE in Hx; lia).
        split_and!; [done| |done]. by apply Hk2.
  - intros [] a' (Hk & Hp & Hm). split_and!; [done|done|]. intros i c Hi. apply Hm; [|done].
    rewrite length_zip_with, length_seqZ. apply lookup_lt_Some in Hi. lia.
Qed.
(** Every frame is mapped, writable, where the server's driver looks for it. *)
Lemma map_hardware_ok vspace dma_frames mmio_frames a :
  Z.of_nat (length dma_frames) * GRANULE_SIZE ≤ SCAN_VA - DMA_VA_BASE →
  wp (map_hardware_into_vspace vspace dma_frames mmio_frames) (λ _ a',
    (∀ i c, dma_frames !! i = Some c → ∃ q, pte (kern a') vspace (DMA_VA_BASE + Z.of_nat i * GRANULE_SIZE) = Some q
      ∧ frame_of (kern a') c = Some (page_frame q) ∧ rights_ok q read_write)
    ∧ ∀ i c, mmio_frames !! i = Some c → ∃ q, pte (kern a') vspace (SCAN_VA + Z.of_nat i * GRANULE_SIZE) = Some q
      ∧ frame_of (kern a') c = Some (page_frame q) ∧ rights_ok q read_write) a.
Proof.
  intros Hle. unfold map_hardware_into_vspace. wp_step. eapply wp_mono; [apply map_retry_all|]. intros [] a1 (_ & _ & Hd).
  eapply wp_mono; [apply map_retry_all|]. intros [] a2 ([_ Hk] & Hp & Hs). split; [|done].
  intros i c Hi. destruct (Hd i c Hi) as (q & Hq & Hqf & Hr). exists q. rewrite Hp; [split_and!; [done|by apply Hk|done]|].
  intros (_ & j & Hj & Hx). apply lookup_lt_Some in Hi. unfold GRANULE_SIZE, SCAN_VA, DMA_VA_BASE in *. lia.
Qed.

(** ** Provisioned bytes *)

(** The region as the runtime reads it: the length, the data, zeros to the end of
    the last page. *)
Definition region (n : Z) (data : bytes) : bytes :=
  splice (splice (zeros (n * GRANULE_SIZE)) 0 (le_bytes 8 (u64 (Z.of_nat (length data))))) 8 data.
Definition region_page (n : Z) (data : bytes) (i : Z) : bytes := extract (region n data) (i * GRANULE_SIZE) GRANULE_SIZE.
Definition fits (n : Z) (data : bytes) : Prop := 8 + Z.of_nat (length data) ≤ n * GRANULE_SIZE.
Lemma length_header (data : bytes) : length (le_bytes 8 (u64 (Z.of_nat (length data)))) = 8%nat.
Proof. apply length_le_bytes. Qed.
Lemma length_zeros n : 0 ≤ n → Z.of_nat (length (zeros n)) = n.
Proof. intros. unfold zeros. rewrite length_replicate. lia. Qed.
Lemma length_region n data : fits n data → Z.of_nat (length (region n data)) = n * GRANULE_SIZE.
Proof.
  unfold fits, region. intros Hf. assert (0 ≤ n * GRANULE_SIZE) by lia.
  rewrite !length_splice; rewrite ?length_splice; rewrite ?length_header, ?length_zeros; lia.
Qed.

Lemma wp_poke caller_vspace free_page_addr va off d q f a :
  va = free_page_addr + off → free_page_addr `mod` GRANULE_SIZE = 0 → pte (kern a) caller_vspace free_page_addr = Some q → page_frame q = f →
  0 ≤ off < GRANULE_SIZE → off + Z.of_nat (length d) ≤ GRANULE_SIZE →
  wp (kcall (λ k, poke k caller_vspace va d)) (λ _ a', a' = a <| kern := kern a' |>
    ∧ memory (kern a') f = splice (memory (kern a) f) off d ∧ (∀ g, g ≠ f → memory (kern a') g = memory (kern a) g)
    ∧ (∀ vs va, pte (kern a') vs va = pte (kern a) vs va) ∧ ∀ c, frame_of (kern a') c = frame_of (kern a) c) a.
Proof.
  intros -> Hfree Hq Hqf Hoff Hd. apply wp_kcall. intros k' E.
  assert ((free_page_addr + off) `mod` GRANULE_SIZE = off) as Emod.
  { rewrite Z.add_mod, Hfree, Z.add_0_l, Z.mod_mod, Z.mod_small by done. done. }
  destruct (poke_ok _ _ _ _ _ E) as ((q' & Hq' & Hm & Hoth) & P & F); rewrite Emod in *; [lia|].
  replace (free_page_addr + off - off) with free_page_addr in Hq' by lia. rewrite Hq in Hq'. injection Hq' as <-. rewrite Hqf in *.
  by split_and!.
Qed.
(** A page is filled with what the region has there. *)
Lemma fill_page_ok caller_vspace free_page_addr n data i q f a :
  free_page_addr `mod` GRANULE_SIZE = 0 → fits n data → 0 ≤ i < n → Z.of_nat (length (memory (kern a) f)) = GRANULE_SIZE →
  pte (kern a) caller_vspace free_page_addr = Some q → page_frame q = f →
  wp (fill_page caller_vspace free_page_addr data i) (λ _ a', a' = a <| kern := kern a' |>
    ∧ memory (kern a') f = region_page n data i ∧ (∀ g, g ≠ f → memory (kern a') g = memory (kern a) g)
    ∧ (∀ vs va, pte (kern a') vs va = pte (kern a) vs va) ∧ ∀ c, frame_of (kern a') c = frame_of (kern a) c) a.
Proof.
  intros Hfree Hfits Hi Hm Hq Hqf. assert (GRANULE_SIZE = 4096) as Eg by done. unfold fits in Hfits.
  set (hdr := le_bytes 8 (u64 (Z.of_nat (length data)))). assert (length hdr = 8%nat) as Lh by apply length_header.
  assert (Z.of_nat (length (zeros (n * GRANULE_SIZE))) = n * GRANULE_SIZE) as Lz by (apply length_zeros; lia).
  assert (length (splice (zeros (n * GRANULE_SIZE)) 0 hdr) = length (zeros (n * GRANULE_SIZE))) as Lzh by (apply length_splice; lia).
  assert (Z.of_nat (length (zeros GRANULE_SIZE)) = GRANULE_SIZE) as Lg by (apply length_zeros; lia).
  unfold fill_page. fold hdr. wp_step. change (replicate _ _) with (zeros GRANULE_SIZE).
  eapply wp_mono; [apply (wp_poke _ free_page_addr _ 0 _ q f); [lia|done..|lia]|]. intros [] a1 (E1 & M1 & O1 & P1 & F1).
  assert (memory (kern a1) f = extract (zeros (n * GRANULE_SIZE)) (i * GRANULE_SIZE) GRANULE_SIZE) as M1'.
  { rewrite M1, extract_zeros by lia. unfold splice. cbn. rewrite drop_ge by lia. by rewrite app_nil_r. }
  wp_step. eapply (wp_mono _ (λ _ a2, a2 = a <| kern := kern a2 |>
    ∧ memory (kern a2) f = extract (splice (zeros (n * GRANULE_SIZE)) 0 hdr) (i * GRANULE_SIZE) GRANULE_SIZE
    ∧ (∀ g, g ≠ f → memory (kern a2) g = memory (kern a) g)
    ∧ (∀ vs va, pte (kern a2) vs va = pte (kern a) vs va) ∧ ∀ c, frame_of (kern a2) c = frame_of (kern a) c)).
  - apply wp_when; intros Hc; [apply bool_decide_eq_true in Hc|apply bool_decide_eq_false in Hc].
    + assert (Z.of_nat (length (extract hdr (i * GRANULE_SIZE) (Z.min (i * GRANULE_SIZE + GRANULE_SIZE) 8 - i * GRANULE_SIZE)))
        = Z.min (i * GRANULE_SIZE + GRANULE_SIZE) 8 - i * GRANULE_SIZE) as Le by (apply length_extract; lia).
      eapply wp_mono; [apply (wp_poke _ free_page_addr _ 0 _ q f); [lia|done|by rewrite P1|done|lia|lia]|].
      intros [] a2 (E2 & M2 & O2 & P2 & F2). split_and!.
      * by rewrite E2, E1.
      * rewrite M2, M1'. symmetry.
        rewrite (extract_splice_overlap _ _ _ _ _ (i * GRANULE_SIZE) (Z.min (i * GRANULE_SIZE + GRANULE_SIZE) 8)); try lia.
        by rewrite Z.sub_diag, Z.sub_0_r.
      * intros g Hg. by rewrite O2, O1.
      * intros vs va. by rewrite P2.
      * intros c. by rewrite F2.
    + split_and!; try done. rewrite M1'. symmetry. apply extract_splice_out; lia.
  - intros [] a2 (E2 & M2 & O2 & P2 & F2). unfold region_page, region. fold hdr.
    set (s := Z.max (i * GRANULE_SIZE) 8). set (e := Z.min (i * GRANULE_SIZE + GRANULE_SIZE) (8 + Z.of_nat (length data))).
    apply wp_when; intros Hc; [apply bool_decide_eq_true in Hc|apply bool_decide_eq_false in Hc].
    + assert (Z.of_nat (length (extract data (s - 8) (e - s))) = e - s) as Le by (apply length_extract; unfold s, e in *; lia).
      eapply wp_mono; [apply (wp_poke _ free_page_addr _ (s - i * GRANULE_SIZE) _ q f); [done|done|by rewrite P2|done|unfold s, e in *; lia|unfold s, e in *; lia]|].
      intros [] a3 (E3 & M3 & O3 & P3 & F3). split_and!.
      * by rewrite E3, E2.
      * rewrite M3, M2. symmetry. apply extract_splice_overlap; unfold s, e in *; lia.
      * intros g Hg. by rewrite O3, O2.
      * intros vs va. by rewrite P3.
      * intros c. by rewrite F3.
    + split_and!; try done. rewrite M2. destruct (decide (data = [])) as [->|Hne]; [by rewrite splice_nil|].
      assert (0 < Z.of_nat (length data)) by (destruct data; [done|cbn; lia]).
      symmetry. apply extract_splice_out; unfold s, e in *; lia.
Qed.

Lemma wp_allocate_frames_batch n a :
  1 ≤ n → ut_device (ut a) = false →
  wp (allocate_frames_batch n) (λ caps a', ∃ fs, behind (kern a') caps fs ∧ NoDup fs ∧ Z.of_nat (length caps) = n
    ∧ harmless a a' ∧ (∀ f, f ∈ fs → memory (kern a') f = zeros GRANULE_SIZE ∧ unused (kern a) f)) a.
Proof.
  intros Hn Hdev. unfold allocate_frames_batch. wp_step. eapply wp_mono; [by apply wp_next_slots_batch|].
  intros s a1 (-> & _ & ->). wp_step. apply wp_gets. wp_step. apply wp_kcall. cbn. intros k' E. apply wp_ret. cbn.
  destruct (retype_ok _ _ _ _ _ _ E) as (_ & Hpte & Hmem & Hout & Hin & _ & start & _ & _ & Hfr). specialize (Hfr eq_refl).
  set (s := (empty_slots a).1) in *. exists ((λ i, start + i * GRANULE_SIZE) <$> seqZ 0 n).
  assert (∀ f, f ∈ ((λ i, start + i * GRANULE_SIZE) <$> seqZ 0 n) → ∃ i, 0 ≤ i < n ∧ f = start + i * GRANULE_SIZE) as Hfs.
  { intros f (i & -> & Hi%elem_of_seqZ)%list_elem_of_fmap. exists i. split; [lia|done]. }
  split_and!.
  - apply Forall2_same_length_lookup_2; [by rewrite length_fmap, !length_seqZ|].
    intros i c f [-> Hi]%lookup_seqZ Hf. apply list_lookup_fmap_Some in Hf as (j & -> & [-> Hj]%lookup_seqZ).
    rewrite Z.add_0_l. apply (Hfr (Z.of_nat i)). lia.
  - apply NoDup_fmap_2; [|apply NoDup_seqZ]. intros x y E'. unfold GRANULE_SIZE in E'. lia.
  - rewrite length_seqZ. lia.
  - split; [split; [done|]|split].
    + cbn. intros c f Hc. destruct (decide (c < s ∨ s + n ≤ c)) as [Ho|Hi]; [by rewrite (proj1 (Hout c Ho))|].
      destruct (Hin (c - s) ltac:(lia)) as [Hnone _]. replace (s + (c - s)) with c in Hnone by lia. congruence.
    + intros vs va _. apply Hpte.
    + done.
  - intros f Hf. destruct (Hfs f Hf) as (i & Hi & ->). destruct (Hfr i Hi) as (_ & Hun & Hz). split; [by apply Hz|done].
Qed.

(** ** The pages of a module, one after the other *)

Section provision.
Context (vspace caller_vspace free_page_addr base_va n : Z) (data : bytes) (fs caps : list Z) (a0 : ObjectAllocator).
Context (Hfree : free_page_addr `mod` GRANULE_SIZE = 0) (Hvs : vspace ≠ caller_vspace) (Hfits : fits n data).
Context (Hb : behind (kern a0) caps fs) (Hnd : NoDup fs) (Hlen : Z.of_nat (length fs) = n).
Context (Hz : ∀ f, f ∈ fs → memory (kern a0) f = zeros GRANULE_SIZE).
Context (Hun : ∀ vs va q, pte (kern a0) vs va = Some q → page_frame q ∉ fs).

(** After [j] pages. *)
Definition provisioned (j : nat) a' : Prop :=
  ut a' = ut a0 ∧ (∀ c, frame_of (kern a') c = frame_of (kern a0) c)
  ∧ (∀ f, f ∉ fs → memory (kern a') f = memory (kern a0) f)
  ∧ (∀ i f, fs !! i = Some f → memory (kern a') f = if decide (i < j)%nat then region_page n data (Z.of_nat i) else zeros GRANULE_SIZE)
  ∧ (∀ i c, (i < j)%nat → caps !! i = Some c → mapped (kern a') true vspace (base_va + Z.of_nat i * GRANULE_SIZE) c read_write)
  ∧ (∀ vs va, ¬ (vs = caller_vspace ∧ va = free_page_addr) →
       ¬ (vs = vspace ∧ ∃ i, (i < n)%Z ∧ 0 ≤ i ∧ va = base_va + i * GRANULE_SIZE) → pte (kern a') vs va = pte (kern a0) vs va)
  ∧ (∀ i f, fs !! i = Some f → (j ≤ i)%nat → ∀ vs va q, pte (kern a') vs va = Some q → page_frame q ≠ f).

Lemma provision_step j c a1 :
  provisioned j a1 → caps !! j = Some c →
  wp (kcall (λ k, frame_map k c caller_vspace free_page_addr read_write false) ;;
      fill_page caller_vspace free_page_addr data (Z.of_nat j) ;;
      kcall (λ k, frame_unmap k c) ;;
      kcall (λ k, frame_map k c vspace (base_va + Z.of_nat j * GRANULE_SIZE) read_write true))
    (λ _, provisioned (S j)) a1.
Proof.
  intros (U1 & F1 & M1 & C1 & G1 & P1 & N1) Hc.
  destruct (Forall2_lookup_l _ _ _ _ _ Hb Hc) as (f & Hf & Ef). pose proof (list_elem_of_lookup_2 _ _ _ Hf) as Hin.
  assert (j < length fs)%nat as Hj by by apply lookup_lt_Some in Hf.
  wp_step. apply wp_kcall. intros k2 E2. destruct (map_one _ _ _ _ _ _ _ E2) as ((q & Hq & Hqf & _) & F2 & M2 & P2).
  rewrite F2, F1, Ef in Hqf. injection Hqf as Hqf.
  wp_step. eapply wp_mono; [apply (fill_page_ok _ _ n data _ q f); cbn; try done; [lia|]|].
  { rewrite M2, (C1 j f Hf), decide_False by lia. by apply length_zeros. }
  intros [] a3 (E3 & C3 & M3 & P3 & F3). cbn in M3, P3, F3.
  wp_step. apply wp_kcall. intros k4 E4. destruct (frame_unmap_ok _ _ _ E4) as (U4 & M4 & F4).
  apply wp_kcall. cbn. intros k5 E5. destruct (map_one _ _ _ _ _ _ _ E5) as (Hmap & F5 & M5 & P5).
  assert (∀ vs va q', pte (kern a3) vs va = Some q' → page_frame q' = f → vs = caller_vspace ∧ va = free_page_addr) as Honly.
  { intros vs va q' Hq' Hqf'. rewrite P3 in Hq'. destruct (decide ((vs, va) = (caller_vspace, free_page_addr))) as [[= -> ->]|Hne]; [done|].
    rewrite P2 in Hq' by done. by destruct (N1 j f Hf ltac:(lia) _ _ _ Hq'). }
  assert (∀ vs va, ¬ (vs = caller_vspace ∧ va = free_page_addr) → pte k4 vs va = pte (kern a1) vs va) as P14.
  { intros vs va Hn. destruct (U4 vs va) as [->|(_ & q' & Hq' & Hqf')]; [rewrite P3, P2; [done|intros [= -> ->]; tauto]|].
    rewrite F3, F2, F1, Ef in Hqf'. injection Hqf' as Hqf'. destruct Hn. by eapply Honly. }
  assert (∀ i, vspace = vspace ∧ (base_va + i * GRANULE_SIZE = base_va + Z.of_nat j * GRANULE_SIZE → i = Z.of_nat j)) as Hva
    by (intros i; split; [done|unfold GRANULE_SIZE; lia]).
  split_and!; cbn.
  - by rewrite E3.
  - intros c'. by rewrite F5, F4, F3, F2.
  - intros g Hg. rewrite M5, M4, M3, M2 by (by intros ->). by apply M1.
  - intros i g Hi. rewrite M5, M4. destruct (decide (i = j)) as [->|Hij].
    + rewrite Hf in Hi. injection Hi as <-. by rewrite decide_True by lia.
    + rewrite M3, M2 by (intros ->; apply Hij; by eapply NoDup_lookup). rewrite (C1 i g Hi).
      repeat case_decide; (done || lia).
  - intros i c' Hi Hc'. destruct (decide (i = j)) as [->|Hij]; [rewrite Hc in Hc'; by injection Hc' as <-|].
    destruct (G1 i c' ltac:(lia) Hc') as (q' & Hq' & Hqf' & Hr'). exists q'. rewrite P5, P14.
    + split; [done|]. by rewrite F5, F4, F3, F2.
    + intros [? _]. done.
    + intros [= Hx]. apply (Hva (Z.of_nat i)) in Hx. lia.
  - intros vs va Hn1 Hn2. rewrite P5, P14, P1; try done. intros [= -> ->]. apply Hn2. split; [done|]. exists (Z.of_nat j). lia.
  - intros i g Hi Hji vs va q' Hq' Hqg.
    assert (g ≠ f) as Hgf by (intros ->; assert (i = j) as -> by (by eapply NoDup_lookup); lia).
    destruct (decide ((vs, va) = (vspace, base_va + Z.of_nat j * GRANULE_SIZE))) as [[= -> ->]|Hne].
    + destruct Hmap as (q2 & Hq2 & Hqf2 & _). rewrite Hq' in Hq2. injection Hq2 as <-. rewrite F5, F4, F3, F2, F1, Ef in Hqf2. congruence.
    + rewrite P5 in Hq' by done. destruct (decide (vs = caller_vspace ∧ va = free_page_addr)) as [[-> ->]|Hnf].
      * destruct (U4 caller_vspace free_page_addr) as [Hu|[Hu _]]; rewrite Hu in Hq'; [|done]. rewrite P3, Hq in Hq'. congruence.
      * rewrite P14 in Hq' by done. by eapply (N1 i g Hi ltac:(lia)).
Qed.
End provision.

(** ** Reading *)

Lemma read_mem_ok k vs va n l :
  Z.of_nat (length l) = n → (∀ i, 0 ≤ i < n → byte_at k vs (va + i) = l !! Z.to_nat i) → read_mem k vs va n = Some l.
Proof.
  intros Hl Hb. unfold read_mem. apply mapM_Some_2. apply Forall2_same_length_lookup_2; [rewrite length_seqZ; lia|].
  intros i x y [-> Hi]%lookup_seqZ Hy. rewrite Hb by lia. by rewrite Nat2Z.id.
Qed.
(** A byte of provisioned pages. *)
Lemma byte_at_pages k vs base n flat fs x :
  base `mod` GRANULE_SIZE = 0 → 0 ≤ x < n * GRANULE_SIZE → Z.of_nat (length fs) = n →
  (∀ i f, fs !! i = Some f → memory k f = extract flat (Z.of_nat i * GRANULE_SIZE) GRANULE_SIZE) →
  (∀ i f, fs !! i = Some f → ∃ q, pte k vs (base + Z.of_nat i * GRANULE_SIZE) = Some q ∧ page_frame q = f ∧ pte_read q = true) →
  byte_at k vs (base + x) = flat !! Z.to_nat x.
Proof.
  intros Hb Hx Hlen Hm Hp. unfold byte_at. pose proof (Z.mod_pos_bound x GRANULE_SIZE ltac:(done)) as Hr.
  pose proof (Z.div_mod x GRANULE_SIZE ltac:(done)) as Hd.
  assert ((base + x) `mod` GRANULE_SIZE = x `mod` GRANULE_SIZE) as -> by (rewrite Z.add_mod, Hb, Z.add_0_l, Z.mod_mod by done; done).
  set (i := x / GRANULE_SIZE) in *. assert (0 ≤ i) by (apply Z.div_pos; [lia|done]).
  assert (i < n) by (unfold GRANULE_SIZE in *; nia).
  destruct (fs !! Z.to_nat i) as [f|] eqn:Hf; [|apply lookup_ge_None in Hf; lia].
  destruct (Hp _ _ Hf) as (q & Hq & Hqf & Hqr). rewrite Z2Nat.id in Hq by done.
  replace (base + x - x `mod` GRANULE_SIZE) with (base + i * GRANULE_SIZE) by lia. rewrite Hq. cbn [mbind option_bind]. rewrite Hqr, Hqf.
  rewrite (Hm _ _ Hf), lookup_extract, Z2Nat.id by (unfold GRANULE_SIZE in *; lia). rewrite decide_True by lia. f_equal. unfold GRANULE_SIZE in *. lia.
Qed.
Lemma region_header n data : fits n data → extract (region n data) 0 8 = le_bytes 8 (u64 (Z.of_nat (length data))).
Proof.
  intros Hf. unfold fits in Hf. pose proof (length_header data) as Hh. pose proof (length_zeros (n * GRANULE_SIZE) ltac:(lia)) as Hzl.
  set (hdr := le_bytes 8 (u64 (Z.of_nat (length data)))) in *. unfold region. fold hdr.
  rewrite extract_splice_out; rewrite ?length_splice by lia; try lia.
  pose proof (extract_splice_same (zeros (n * GRANULE_SIZE)) 0 hdr) as Hx. rewrite Hh in Hx. apply Hx; lia.
Qed.
Lemma region_data n data : fits n data → extract (region n data) 8 (Z.of_nat (length data)) = data.
Proof.
  intros Hf. unfold fits in Hf. pose proof (length_header data) as Hh. pose proof (length_zeros (n * GRANULE_SIZE) ltac:(lia)) as Hzl.
  unfold region. apply extract_splice_same; [lia|]. rewrite length_splice by lia. lia.
Qed.

(** The pages a module takes: a header of eight bytes, and its bytes. *)
Definition module_pages (data : bytes) : Z := (8 + Z.of_nat (length data) + GRANULE_SIZE - 1) / GRANULE_SIZE.
Lemma module_pages_fit data :
  fits (module_pages data) data ∧ 1 ≤ module_pages data
  ∧ ∀ i, 0 ≤ i * GRANULE_SIZE < 8 + Z.of_nat (length data) → 0 ≤ i < module_pages data.
Proof.
  unfold fits, module_pages, GRANULE_SIZE. pose proof (Z.div_mod (8 + Z.of_nat (length data) + 4096 - 1) 4096 ltac:(lia)).
  pose proof (Z.mod_pos_bound (8 + Z.of_nat (length data) + 4096 - 1) 4096 ltac:(lia)). split_and!; [lia|lia|]. intros i. lia.
Qed.
Lemma provision_bytes_ok vspace caller_vspace free_page_addr data a :
  vspace ≠ caller_vspace → free_page_addr `mod` GRANULE_SIZE = 0 → ut_device (ut a) = false →
  wp (provision_bytes_into_vspace vspace caller_vspace free_page_addr data MODULE_VA_BASE) (λ _ a', ∃ a0 fs caps,
    harmless a a0 ∧ behind (kern a0) caps fs ∧ Z.of_nat (length fs) = module_pages data ∧ (∀ f, f ∈ fs → unused (kern a) f)
    ∧ provisioned vspace caller_vspace free_page_addr MODULE_VA_BASE (module_pages data) data fs caps a0 (length fs) a') a.
Proof.
  intros Hvs Hfree Hdev. destruct (module_pages_fit data) as (Hfits & Hn & _).
  unfold provision_bytes_into_vspace. fold (module_pages data). set (n := module_pages data) in *. wp_step.
  eapply wp_mono; [apply map_tables_ok, kcall_tolerant_quiet|]. intros [] a1 H1. pose proof H1 as [[U1 K1] [P1 M1]].
  wp_step. eapply wp_mono; [apply wp_allocate_frames_batch; [done|by rewrite U1]|].
  intros caps a2 (fs & Hb & Hnd & Hlc & H2 & Hfs). pose proof (Forall2_length _ _ _ Hb) as Hlf.
  replace (seqZ 0 n) with (seqZ 0 (Z.of_nat (length caps))) by (by rewrite Hlc).
  assert (∀ vs va q, pte (kern a2) vs va = Some q → page_frame q ∉ fs) as Hun2.
  { intros vs va q Hq Hin. destruct (Hfs _ Hin) as [_ [_ Hno]]. destruct H2 as [_ [P2 _]]. rewrite P2 in Hq by (intros []). by apply (Hno vs va q). }
  eapply wp_mono.
  - apply (wp_for_each _ (λ l1 a', provisioned vspace caller_vspace free_page_addr MODULE_VA_BASE n data fs caps a2 (length l1) a')).
    + split_and!; try done.
      * intros i f Hi. rewrite decide_False by (cbn; lia). by apply Hfs, (list_elem_of_lookup_2 _ _ _ Hi).
      * intros i c Hi. cbn in Hi. lia.
      * intros i f Hi _ vs va q Hq Hqf. apply (Hun2 vs va q Hq). rewrite Hqf. by eapply list_elem_of_lookup_2.
    + intros l1 [i c] l2 a3 El Hp. assert (zip (seqZ 0 (Z.of_nat (length caps))) caps !! length l1 = Some (i, c)) as Hlk
        by (rewrite El; by apply list_lookup_middle).
      apply zip_seqZ in Hlk as [Hi Hc]. cbn in Hi, Hc. subst i. cbn beta iota. rewrite length_app, Nat.add_1_r.
      apply (provision_step _ _ _ _ _ _ _ _ a2); (done || lia || by apply Hfs).
  - intros [] a4 Hp. rewrite length_zip_with, length_seqZ, Nat2Z.id, Nat.min_id, Hlf in Hp.
    exists a2, fs, caps. split_and!; [by eapply harmless_trans|done|lia| |done].
    intros f Hf. destruct (Hfs f Hf) as [_ [N1 N2]]. split; [intros c Hc; by apply (N1 c), K1|].
    intros vs va q Hq. apply (N2 vs va q). by rewrite P1 by (intros []).
Qed.
Lemma provisioned_pages vspace caller_vspace free_page_addr base n data fs caps a0 a' :
  behind (kern a0) caps fs → provisioned vspace caller_vspace free_page_addr base n data fs caps a0 (length fs) a' →
  ∀ i f, fs !! i = Some f → ∃ q, pte (kern a') vspace (base + Z.of_nat i * GRANULE_SIZE) = Some q
    ∧ page_frame q = f ∧ pte_read q = true ∧ pte_write q = true ∧ pte_xn q = true.
Proof.
  intros Hb (_ & F & M & C & G & P & _) i f Hi. destruct (Forall2_lookup_r _ _ _ _ _ Hb Hi) as (c & Hc & Hcf).
  destruct (G i c ltac:(by apply lookup_lt_Some in Hi) Hc) as (q & Hq & Hqf & Hx & _ & _ & Hr).
  destruct (Hr eq_refl) as [R W]. rewrite F, Hcf in Hqf. injection Hqf as ->. exists q. by split_and!.
Qed.
(** What a runtime reads when the region of a module is at its place. *)
Lemma get_module_region k vspace n data :
  fits n data → Z.of_nat (length data) < 2 ^ 64 →
  (∀ x, 0 ≤ x < n * GRANULE_SIZE → byte_at k vspace (MODULE_VA_BASE + x) = region n data !! Z.to_nat x) →
  get_module_bytes k vspace = Some data.
Proof.
  intros Hfits Hlt Hbytes. pose proof Hfits as Hfits'. unfold fits in Hfits'.
  unfold get_module_bytes. rewrite (read_mem_ok _ _ _ _ (le_bytes 8 (u64 (Z.of_nat (length data))))).
  - cbn [mbind option_bind]. rewrite of_le_bytes_u64, wrap_small by (try apply wrap_in_width; unfold in_width; lia).
    apply read_mem_ok; [done|]. intros i Hi. rewrite <-Z.add_assoc, Hbytes by lia.
    transitivity (extract (region n data) 8 (Z.of_nat (length data)) !! Z.to_nat i); [|by rewrite region_data].
    rewrite lookup_extract, decide_True by lia. f_equal. lia.
  - by rewrite length_header.
  - intros i Hi. rewrite Hbytes by lia. rewrite <-(region_header n data Hfits), lookup_extract, decide_True by lia. done.
Qed.
(** The bytes provisioned for a module are the bytes the runtime reads, for
    every length; their pages can be read and written, not executed; and nothing
    else changes but the root task's free page. *)
Theorem provisioned_module_read vspace caller_vspace free_page_addr data a a' :
  vspace ≠ caller_vspace → free_page_addr `mod` GRANULE_SIZE = 0 → ut_device (ut a) = false →
  Z.of_nat (length data) < 2 ^ 64 →
  provision_bytes_into_vspace vspace caller_vspace free_page_addr data MODULE_VA_BASE a = Some ((), a') →
  get_module_bytes (kern a') vspace = Some data
  ∧ (∀ i, 0 ≤ i * GRANULE_SIZE < 8 + Z.of_nat (length data) → ∃ q, pte (kern a') vspace (MODULE_VA_BASE + i * GRANULE_SIZE) = Some q
      ∧ pte_read q = true ∧ pte_write q = true ∧ pte_xn q = true)
  ∧ (∀ c f, frame_of (kern a) c = Some f → frame_of (kern a') c = Some f ∧ memory (kern a') f = memory (kern a) f)
  ∧ (∀ vs va, vs ≠ vspace → ¬ (vs = caller_vspace ∧ va = free_page_addr) → pte (kern a') vs va = pte (kern a) vs va).
Proof.
  intros Hvs Hfree Hdev Hlt E. destruct (module_pages_fit data) as (Hfits & Hn & Hidx).
  destruct (provision_bytes_ok _ _ _ _ _ Hvs Hfree Hdev _ _ E) as (a0 & fs & caps & [[_ K0] [P0 M0]] & Hb & Hlen & Hun & Hp).
  pose proof (provisioned_pages _ _ _ _ _ _ _ _ _ _ Hb Hp) as Hpages. destruct Hp as (_ & F & M & C & _ & P & _).
  set (n := module_pages data) in *. split_and!.
  - apply (get_module_region _ _ n); [done|done|]. intros x Hx. apply (byte_at_pages _ _ _ n _ fs); [done|done|done| |].
    + intros i f Hi. rewrite (C i f Hi), decide_True by (by apply lookup_lt_Some in Hi). done.
    + intros i f Hi. destruct (Hpages i f Hi) as (q & ? & ? & ? & _). eauto.
  - intros i Hi. apply Hidx in Hi. destruct (fs !! Z.to_nat i) as [f|] eqn:Hf; [|apply lookup_ge_None in Hf; lia].
    destruct (Hpages _ _ Hf) as (q & Hq & _ & ? & ? & ?). exists q. rewrite Z2Nat.id in Hq by lia. by split_and!.
  - intros c f Hc. split; [by rewrite F; apply K0|]. rewrite M; [by eapply M0, slot_used|].
    intros Hin. destruct (Hun f Hin) as [U _]. by apply (U c).
  - intros vs va Hne Hnf. rewrite P by (tauto || by intros [? _]). apply P0. by intros [].
Qed.

(** ** The pool of a new runtime *)

(** What the runtime sees, once the supervisor made the copies: a copy names the
    object its original names. *)
Definition runtime_view (k r : kstate) (copies : list (Z * Z)) : Prop :=
  ∀ slot c, (slot, c) ∈ copies → frame_of r slot = frame_of k c ∧ ∀ va, pte r slot va = pte k c va.
Lemma runtime_view_vspace k r vspace jit_frames va :
  runtime_view k r (runtime_copies vspace jit_frames) → pte r Jit.JIT_POOL_VSPACE_SLOT va = pte k vspace va.
Proof. intros Hv. apply (Hv RUNTIME_SLOT_VSPACE vspace). by apply list_elem_of_here. Qed.
Lemma runtime_view_frame k r vspace jit_frames i c :
  runtime_view k r (runtime_copies vspace jit_frames) → jit_frames !! i = Some c →
  frame_of r (Jit.JIT_POOL_FRAME_BASE + Z.of_nat i) = frame_of k c.
Proof.
  intros Hv Hi. apply (Hv (RUNTIME_JIT_FRAME_BASE + Z.of_nat i) c). apply list_elem_of_further, list_elem_of_lookup.
  exists i. rewrite lookup_zip_with, lookup_seqZ_lt by (apply lookup_lt_Some in Hi; lia). cbn. by rewrite Hi.
Qed.

Lemma spawn_jit_pool_run vspace a :
  ut_device (ut a) = false →
  wp (spawn_jit_pool vspace) (λ caps a', ∃ a1 fs, behind (kern a1) caps fs ∧ NoDup fs
    ∧ (∀ f, f ∈ fs → unused (kern a) f ∧ memory (kern a1) f = zeros GRANULE_SIZE)
    ∧ length caps = 128%nat ∧ (∀ vs va q, pte (kern a1) vs va = Some q → page_frame q ∉ fs)
    ∧ (∀ vs va, pte (kern a1) vs va = pte (kern a) vs va)
    ∧ mapping_step vspace Jit.JIT_POOL_VA_BASE 128 a1 a'
    ∧ ∀ i c, caps !! i = Some c → mapped (kern a') true vspace (Jit.JIT_POOL_VA_BASE + Z.of_nat i * GRANULE_SIZE) c read_write) a.
Proof.
  intros Hdev. unfold spawn_jit_pool. wp_step. eapply wp_mono; [by apply wp_allocate_frames_batch|].
  intros caps a1 (fs & Hb & Hnd & Hlen & Hh & Hfs). unfold map_jit_frames_rw.
  wp_step. wp_step. eapply wp_mono; [apply map_tables_ok, kcall_tolerant_quiet|]. intros [] a2 H2.
  eapply wp_mono; [apply map_pages_ok|]. intros [] a3 [Hs Hm]. apply wp_ret. exists a2, fs.
  assert (length caps = 128%nat) as Hl by (change Jit.JIT_POOL_PAGES with 128 in Hlen; lia). rewrite length_fmap, Hl in Hs.
  assert (∀ vs va, pte (kern a2) vs va = pte (kern a) vs va) as Hp.
  { intros vs va. destruct Hh as [_ [P1 _]], H2 as [_ [P2 _]]. rewrite P2 by (intros []). apply P1. by intros []. }
  split_and!; try done.
  - eapply behind_kept; [done|apply H2].
  - intros f Hf. split; [by apply Hfs|]. destruct H2 as [_ [_ M2]]. rewrite M2 by (by eapply behind_used). by apply Hfs.
  - intros vs va q Hq Hin. rewrite Hp in Hq. destruct (Hfs _ Hin) as [_ [_ Hno]]. by apply (Hno vs va q).
  - intros i c Hi. apply Hm. by rewrite list_lookup_fmap, Hi.
Qed.
Section pool_view.
Context (k r : kstate) (vspace : Z) (caps fs : list Z).
Context (Hv : runtime_view k r (runtime_copies vspace caps)) (Hb : behind k caps fs) (Hl : length caps = 128%nat) (Hnd : NoDup fs).
Context (Hm : ∀ i c, caps !! i = Some c → mapped k true vspace (Jit.JIT_POOL_VA_BASE + Z.of_nat i * GRANULE_SIZE) c read_write).

Lemma pool_slot i : Jit.in_pool i →
  ∃ c f, caps !! Z.to_nat i = Some c ∧ fs !! Z.to_nat i = Some f ∧ frame_of k c = Some f ∧ Jit.pool_frame r i f.
Proof.
  intros [Hi0 Hi1]. change Jit.JIT_POOL_PAGES with 128 in Hi1. destruct (lookup_lt_is_Some_2 caps (Z.to_nat i) ltac:(lia)) as [c Hc].
  destruct (Forall2_lookup_l _ _ _ _ _ Hb Hc) as (f & Hf & Hcf). exists c, f. split_and!; try done.
  pose proof (runtime_view_frame _ _ _ _ _ _ Hv Hc) as Hr. rewrite Z2Nat.id, Hcf in Hr by done. done.
Qed.
Lemma pool_frame_at i f : Jit.pool_frame r i f → fs !! Z.to_nat i = Some f.
Proof.
  intros [Hi Hf]. destruct (pool_slot i Hi) as (c & g & _ & Hg & _ & [_ Hrg]). rewrite Hf in Hrg. by injection Hrg as ->.
Qed.
Lemma pool_page i : Jit.in_pool i →
  ∃ q, pte r Jit.JIT_POOL_VSPACE_SLOT (Jit.page_va i) = Some q ∧ Jit.pool_frame r i (page_frame q) ∧ pte_xn q = true ∧ rights_ok q read_write.
Proof.
  intros Hi. destruct (pool_slot i Hi) as (c & f & Hc & _ & Hcf & Hp). destruct (Hm _ c Hc) as (q & Hq & Hqf & Hx & Hr).
  rewrite Z2Nat.id, <-(runtime_view_vspace _ _ _ _ _ Hv) in Hq by apply Hi. exists q. rewrite Hcf in Hqf. injection Hqf as ->. by split_and!.
Qed.
Lemma pool_view_ok :
  (∀ va q i, pte r Jit.JIT_POOL_VSPACE_SLOT va = Some q → (∀ j, Jit.in_pool j → va ≠ Jit.page_va j) → ¬ Jit.pool_frame r i (page_frame q)) →
  Jit.pool_ok r ∧ ∀ i, Jit.in_pool i → Jit.protected r i false.
Proof.
  intros Hout. assert (∀ i i' f, Jit.pool_frame r i f → Jit.pool_frame r i' f → i = i') as Hinj.
  { intros i i' f H1 H2. pose proof (NoDup_lookup _ _ _ _ Hnd (pool_frame_at _ _ H1) (pool_frame_at _ _ H2)).
    destruct H1 as [[? _] _], H2 as [[? _] _]. lia. }
  split; [split_and!|].
  - exact Hinj.
  - intros va q i Hq Hf. set (j := (va - Jit.JIT_POOL_VA_BASE) / Jit.PAGE_SIZE).
    destruct (decide (0 ≤ j < Jit.JIT_POOL_PAGES ∧ va = Jit.page_va j)) as [[Hj Eva]|Hno].
    + destruct (pool_page j Hj) as (q' & Hq' & Hf' & _). rewrite <-Eva, Hq in Hq'. injection Hq' as <-.
      rewrite Eva. f_equal. by eapply Hinj.
    + destruct (Hout va q i Hq); [|done]. intros j' Hj' ->. apply Hno. unfold j, Jit.page_va.
      replace (Jit.JIT_POOL_VA_BASE + j' * Jit.PAGE_SIZE - Jit.JIT_POOL_VA_BASE) with (j' * Jit.PAGE_SIZE) by lia.
      by rewrite Z.div_mul.
  - intros i q Hi Hq. destruct (pool_page i Hi) as (q' & Hq' & Hf & Hx & _). rewrite Hq in Hq'. injection Hq' as <-. by split.
  - intros i Hi. destruct (pool_page i Hi) as (q & Hq & Hf & Hx & _ & _ & Hr). destruct (Hr eq_refl) as [R W].
    exists q. by rewrite R, W.
Qed.
End pool_view.

(** C22: a new runtime starts with a pool as the safety of its code needs it.
    When [spawn_jit_pool] succeeds and the supervisor's copies ([runtime_copies])
    are made, by a kernel in which a copy names the object of its original, the
    runtime's 128 pool slots name 128 different frames, all of them fresh: no
    capability named one and no address space had one mapped before, and each is
    filled with zeros.  Each frame is mapped at its own page only, writable and
    not executable, and every other address of the runtime's address space is as
    it was. *)
Theorem spawn_jit_pool_ok vspace a jit_frames a' r :
  ut_device (ut a) = false →
  spawn_jit_pool vspace a = Some (jit_frames, a') →
  runtime_view (kern a') r (runtime_copies vspace jit_frames) →
  (∃ fs, length fs = 128%nat ∧ NoDup fs
     ∧ (∀ i, Jit.in_pool i → ∃ f, fs !! Z.to_nat i = Some f ∧ Jit.pool_frame r i f)
     ∧ ∀ f, f ∈ fs → unused (kern a) f ∧ memory (kern a') f = zeros GRANULE_SIZE)
  ∧ Jit.pool_ok r ∧ (∀ i, Jit.in_pool i → Jit.protected r i false)
  ∧ ∀ va, (∀ i, Jit.in_pool i → va ≠ Jit.page_va i) → pte r Jit.JIT_POOL_VSPACE_SLOT va = pte (kern a) vspace va.
Proof.
  intros Hdev E Hv.
  destruct (spawn_jit_pool_run _ _ Hdev _ _ E) as (a1 & fs & Hb & Hnd & Hfr & Hl & Hun & Hp & (_ & _ & F & M & P) & Hm).
  assert (∀ va, (∀ i, Jit.in_pool i → va ≠ Jit.page_va i) → pte r Jit.JIT_POOL_VSPACE_SLOT va = pte (kern a) vspace va) as Hout.
  { intros va Hva. rewrite (runtime_view_vspace _ _ _ _ _ Hv), P; [apply Hp|]. intros (_ & j & Hj & ->).
    apply (Hva (Z.of_nat j)); [|done]. unfold Jit.in_pool. change Jit.JIT_POOL_PAGES with 128. lia. }
  assert (behind (kern a') jit_frames fs) as Hb' by (eapply Forall2_impl; [exact Hb|]; intros c f Hc; by rewrite F).
  destruct (pool_view_ok _ _ _ _ _ Hv Hb' Hl Hnd Hm) as [Hok Hpr].
  - intros va q i Hq Hva Hf. rewrite (Hout va Hva), <-Hp in Hq. destruct (Hun _ _ _ Hq).
    eapply list_elem_of_lookup_2, pool_frame_at; done.
  - split_and!; try done. exists fs. split_and!; try done.
    + by rewrite <-(Forall2_length _ _ _ Hb).
    + intros i Hi. destruct (pool_slot _ _ _ _ _ Hv Hb' Hl i Hi) as (c & f & _ & ? & _ & ?). by exists f.
    + intros f Hf. rewrite M. by apply Hfr.
Qed.
End proofs.

(** * Processes on the small kernel *)

Definition demo_root : ObjectAllocator (H := mem_kernel) :=
  mkAllocator (10, 400) 0 (default mem_boot (mem_retype mem_boot 0 SmallPage 5 1)).
Definition demo_image : list Segment :=
  [mkSegment 0x400100 0x1000 [Byte.x7f; Byte.x45; Byte.x4c; Byte.x46] 5; mkSegment 0x402000 16 [] 6].
Definition demo_free_page : Z := 0x10000.
Lemma demo_child_ok :
  match create_child_vspace (H := mem_kernel) demo_image 3 demo_free_page [5] demo_root with
  | Some (_, ipc, _, ring_vas, _) => bool_decide (ipc = 0x403000 ∧ ring_vas = [0x404000]) | None => false end = true.
Proof. vm_compute. reflexivity. Qed.
Lemma child_vspace_spec_witness :
  ∃ vs ipc cap ring_vas a', create_child_vspace (H := mem_kernel) demo_image 3 demo_free_page [5] demo_root
      = Some ((vs, ipc, cap, ring_vas), a')
    ∧ ipc = 0x403000 ∧ mapped (kern a') false vs 0x403000 cap read_write.
Proof.
  pose proof demo_child_ok as Hd.
  destruct (create_child_vspace (H := mem_kernel) demo_image 3 demo_free_page [5] demo_root)
    as [[[[[vs ipc] cap] ring_vas] a']|] eqn:E; [|discriminate Hd].
  exists vs, ipc, cap, ring_vas, a'. split; [reflexivity|]. apply bool_decide_eq_true in Hd as [Hi _]. split; [exact Hi|].
  destruct (child_vspace_spec (K := mem_kernel) demo_image 3 demo_free_page [5] demo_root vs ipc cap ring_vas a')
    as (fp & end_ & fs & _ & _ & _ & _ & _ & _ & _ & Hm & _).
  - unfold demo_image. apply Forall_cons_2; [split_and!; vm_compute; discriminate|].
    apply Forall_cons_2; [split_and!; vm_compute; discriminate|apply Forall_nil_2].
  - reflexivity.
  - reflexivity.
  - exact E.
  - rewrite <-Hi. exact Hm.
Defined.

Definition demo_module : bytes := [Byte.x00; Byte.x61; Byte.x73; Byte.x6d].
Lemma demo_provision_ok :
  match provision_bytes_into_vspace (H := mem_kernel) 7 3 demo_free_page demo_module MODULE_VA_BASE demo_root with
  | Some _ => true | None => false end = true.
Proof. vm_compute. reflexivity. Qed.
Lemma provisioned_module_read_witness :
  ∃ a', provision_bytes_into_vspace (H := mem_kernel) 7 3 demo_free_page demo_module MODULE_VA_BASE demo_root = Some ((), a')
    ∧ get_module_bytes (kern a') 7 = Some demo_module.
Proof.
  pose proof demo_provision_ok as Hd.
  destruct (provision_bytes_into_vspace (H := mem_kernel) 7 3 demo_free_page demo_module MODULE_VA_BASE demo_root)
    as [[[] a']|] eqn:E; [|discriminate Hd].
  exists a'. split; [reflexivity|].
  destruct (provisioned_module_read (K := mem_kernel) 7 3 demo_free_page demo_module demo_root a') as [Hr _].
  - discriminate.
  - reflexivity.
  - reflexivity.
  - reflexivity.
  - exact E.
  - exact Hr.
Defined.

(** A root whose slots happen to be those of the runtime. *)
Definition demo_runtime : ObjectAllocator (H := mem_kernel) := mkAllocator (5, 400) 0 mem_boot.
Lemma demo_jit_ok :
  match spawn_jit_pool (H := mem_kernel) Jit.JIT_POOL_VSPACE_SLOT demo_runtime with
  | Some (fs, _) => bool_decide (fs = seqZ 5 128) | None => false end = true.
Proof. vm_compute. reflexivity. Qed.
Lemma spawn_jit_pool_ok_witness :
  ∃ jit_frames a', spawn_jit_pool (H := mem_kernel) Jit.JIT_POOL_VSPACE_SLOT demo_runtime = Some (jit_frames, a')
    ∧ (∃ f, Jit.pool_frame (kern a') 7 f ∧ memory (kern a') f = zeros GRANULE_SIZE)
    ∧ Jit.pool_ok (kern a') ∧ Jit.protected (kern a') 7 false.
Proof.
  pose proof demo_jit_ok as Hd.
  destruct (spawn_jit_pool (H := mem_kernel) Jit.JIT_POOL_VSPACE_SLOT demo_runtime) as [[fs a']|] eqn:E; [|discriminate Hd].
  apply bool_decide_eq_true in Hd. exists fs, a'. split; [reflexivity|].
  destruct (spawn_jit_pool_ok (K := mem_kernel) Jit.JIT_POOL_VSPACE_SLOT demo_runtime fs a' (kern a'))
    as ((gs & _ & _ & Hpf & Hz) & Hp & Hq & _).
  - reflexivity.
  - exact E.
  - rewrite Hd. intros slot c Hin. assert (slot = c) as ->; [|split; reflexivity].
    apply elem_of_cons in Hin as [[= -> ->]|Hin]; [reflexivity|].
    apply list_elem_of_lookup in Hin as [i Hi]. rewrite lookup_zip_with in Hi.
    destruct (seqZ 0 (Z.of_nat (length (seqZ 5 128))) !! i) as [x|] eqn:Ex; [|discriminate Hi].
    destruct (seqZ 5 128 !! i) as [y|] eqn:Ey; [|discriminate Hi]. injection Hi as <- <-.
    apply lookup_seqZ in Ex as [-> _]. apply lookup_seqZ in Ey as [-> _]. reflexivity.
  - assert (Jit.in_pool 7) as H7 by (split; [discriminate|reflexivity]).
    destruct (Hpf 7 H7) as (f & Hf & Hpool). split; [exists f; split; [exact Hpool|]|].
    + apply Hz. apply list_elem_of_lookup. exists (Z.to_nat 7). exact Hf.
    + split; [exact Hp|]. apply Hq. exact H7.
Defined.
End Loader.
