(* ===== verification/RedbGroup.v ===== *)
(** RedbGroup: a bitmap in words of 64 bits, and the helpers of the page store.

    Models [U64GroupedBitmap] of [poc/redb-fork/src/tree_store/page_store/bitmap.rs],
    and the steps the file shares with [buddy_allocator.rs]: loops that may panic,
    ranges of bytes, and the format with a table of the ends of its parts.  [None]
    is a panic: an assertion, an index out of range, a value too big for its type.
    The hash of a bitmap is not modelled. *)
From S2P Require Import Prelude Windows.
Local Open Scope Z_scope.

(** [for x in l { a = f(a, x) }], where a turn may panic. *)
Fixpoint fold_opt {A B} (f : A → B → option A) (a : A) (l : list B) : option A :=
  match l with
  | [] => Some a
  | x :: l => f a x ≫= λ a, fold_opt f a l
  end.
(** [assert!(c)] *)
Definition check (c : bool) : option () := if c then Some () else None.
(** [&data[a..b]] *)
Definition byte_range (data : bytes) (a b : Z) : option bytes :=
  if (0 <=? a) && (a <=? b) && (b <=? Z.of_nat (length data)) then Some (extract data a (b - a)) else None.
(** [u32::from_le_bytes(data[a..a + 4])] and [try_into::<u32>().unwrap()] *)
Definition u32_at (data : bytes) (a : Z) : option Z := of_le <$> byte_range data a (a + 4).
Definition try_u32 (z : Z) : option Z := if (0 <=? z) && (z <? 2 ^ 32) then Some z else None.
Definition div_ceil (a b : Z) : Z := (a + b - 1) / b.

(** Two formats of the file write a table of the ends of their parts before the
    parts.  [write_ends] is the loop that fills it, [read_parts] the one that cuts
    the parts out again. *)
Fixpoint write_ends (data_offset : Z) (parts : list bytes) : option bytes :=
  match parts with
  | [] => Some []
  | serialized :: parts =>
      let data_offset := data_offset + Z.of_nat (length serialized) in
      offset_u32 ← try_u32 data_offset;
      rest ← write_ends data_offset parts;
      Some (le_bytes 4 offset_u32 ++ rest)
  end.
Fixpoint read_parts {A} (parse : bytes → option A) (n : nat) (metadata data_start : Z) (data : bytes) : option (list A) :=
  match n with
  | O => Some []
  | S n =>
      data_end ← u32_at data metadata;
      part ← byte_range data data_start data_end;
      x ← parse part;
      rest ← read_parts parse n (metadata + 4) data_end data;
      Some (x :: rest)
  end.

(** A loop over a range keeps an invariant. *)
Lemma fold_range {A} (f : A → Z → option A) (I : Z → A → Prop) start n a :
  0 ≤ n → I start a → (∀ i a, start ≤ i < start + n → I i a → ∃ a', f a i = Some a' ∧ I (i + 1) a') →
  ∃ a', fold_opt f a (seqZ start n) = Some a' ∧ I (start + n) a'.
Proof.
  intros Hn Ha Hstep. rewrite <-(Z2Nat.id n Hn) in Hstep |- *. clear Hn. revert start a Ha Hstep.
  induction (Z.to_nat n) as [|k IH]; intros start a Ha Hstep; [exists a; by rewrite Z.add_0_r|].
  rewrite seqZ_cons by lia. cbn [fold_opt]. destruct (Hstep start a ltac:(lia) Ha) as (a1 & -> & Ha1). cbn [mbind option_bind].
  replace (Z.pred (Z.of_nat (S k))) with (Z.of_nat k) by lia. replace (start + Z.of_nat (S k)) with (start + 1 + Z.of_nat k) by lia.
  apply IH; [done|]. intros i b Hi. apply Hstep. lia.
Qed.
Lemma byte_range_mid (a b c : bytes) (m n : Z) :
  m = Z.of_nat (length a) → n = m + Z.of_nat (length b) → byte_range (a ++ b ++ c) m n = Some b.
Proof.
  intros -> ->. unfold byte_range. rewrite !length_app.
  rewrite !(proj2 (Z.leb_le _ _)) by lia. cbn [andb]. f_equal. unfold extract.
  rewrite drop_app_length' by lia. rewrite take_app_length' by lia. done.
Qed.
Lemma u32_at_mid (a c : bytes) z m : m = Z.of_nat (length a) → 0 ≤ z < 2 ^ 32 → u32_at (a ++ le_bytes 4 z ++ c) m = Some z.
Proof.
  intros Hm Hz. unfold u32_at. rewrite byte_range_mid by (done || by rewrite length_le_bytes). cbn [fmap option_fmap option_map]. by rewrite of_le_bytes_small.
Qed.
Lemma try_u32_Some z : 0 ≤ z < 2 ^ 32 → try_u32 z = Some z.
Proof. intros. unfold try_u32. by rewrite (proj2 (Z.leb_le _ _)), (proj2 (Z.ltb_lt _ _)) by lia. Qed.
Lemma mjoin_cons {A} (x : list A) l : mjoin (x :: l) = x ++ mjoin l.
Proof. done. Qed.
Lemma write_ends_ok off parts : 0 ≤ off → off + Z.of_nat (length (mjoin parts)) < 2 ^ 32 →
  ∃ ends, write_ends off parts = Some ends ∧ length ends = (4 * length parts)%nat.
Proof.
  revert off. induction parts as [|v parts IH]; intros off Ho Hlt; cbn [write_ends]; [by exists []|].
  rewrite mjoin_cons, length_app in Hlt. rewrite try_u32_Some by lia. cbn [mbind option_bind].
  destruct (IH (off + Z.of_nat (length v))) as (ends & -> & Hl); [lia|lia|]. cbn [mbind option_bind].
  eexists. split; [done|]. rewrite length_app, length_le_bytes, Hl. cbn [length]. lia.
Qed.
Lemma read_parts_ok {A} (parse : bytes → option A) (pre ends mid : bytes) parts xs off :
  Forall2 (λ v x, parse v = Some x) parts xs → write_ends off parts = Some ends →
  off = Z.of_nat (length (pre ++ ends ++ mid)) →
  read_parts parse (length parts) (Z.of_nat (length pre)) off (pre ++ ends ++ mid ++ mjoin parts) = Some xs.
Proof.
  intros Hp. revert pre ends mid off. induction Hp as [|v x parts xs Hv _ IH]; intros pre ends mid off He Hoff; [done|].
  cbn [write_ends] in He. cbn [read_parts length].
  destruct (try_u32 _) as [e|] eqn:Ee; [|done]. cbn [mbind option_bind] in He.
  destruct (write_ends _ parts) as [ends'|] eqn:Ew; [|done]. cbn [mbind option_bind] in He. apply (inj Some) in He as <-.
  unfold try_u32 in Ee. destruct (_ && _) eqn:Hr; [|done]. injection Ee as <-. apply andb_prop in Hr as [Hr0%Z.leb_le Hr1%Z.ltb_lt].
  rewrite <-app_assoc, u32_at_mid by (done || lia). cbn [mbind option_bind].
  assert (pre ++ le_bytes 4 (off + Z.of_nat (length v)) ++ ends' ++ mid ++ mjoin (v :: parts)
    = (pre ++ (le_bytes 4 (off + Z.of_nat (length v)) ++ ends') ++ mid) ++ v ++ mjoin parts) as -> by (rewrite mjoin_cons, <-!app_assoc; done).
  rewrite byte_range_mid by (done || lia). cbn [mbind option_bind]. rewrite Hv. cbn [mbind option_bind].
  specialize (IH (pre ++ le_bytes 4 (off + Z.of_nat (length v))) ends' (mid ++ v) _ Ew).
  rewrite !length_app, length_le_bytes in IH. rewrite <-!app_assoc in IH. rewrite <-!app_assoc.
  replace (Z.of_nat (length pre) + 4) with (Z.of_nat (length pre + 4)) by lia. rewrite IH; [done|].
  rewrite !length_app, length_le_bytes in Hoff. rewrite ?length_app. lia.
Qed.
Lemma mapM_image {A B} (f : A → option B) (P : A → B → Prop) (l : list A) :
  (∀ x, x ∈ l → ∃ y, f x = Some y ∧ P x y) → ∃ k, mapM f l = Some k ∧ Forall2 P l k.
Proof.
  induction l as [|x l IH]; intros Hl; [by exists []|]. destruct (Hl x) as (y & E & Hy); [by left|].
  destruct IH as (k & Ek & Hk); [intros z Hz; apply Hl; by right|]. exists (y :: k). split; [|by constructor].
  apply mapM_Some. constructor; [done|]. by apply mapM_Some.
Qed.

(** * [U64GroupedBitmap]: a bitmap in words of 64 bits *)
Module Grouped.

Definition u64_MAX : Z := 2 ^ 64 - 1.

Record U64GroupedBitmap := mkGrouped { len : Z; data : list Z }.

Definition required_words (elements : Z) : Z := div_ceil elements 64.
Definition new_full (len capacity : Z) : U64GroupedBitmap :=
  mkGrouped len (replicate (Z.to_nat (required_words capacity)) u64_MAX).
Definition data_index_of (bit : Z) : Z * Z := (bit / 64, bit `mod` 64).
Definition select_mask (bit : Z) : Z := u64 (Z.shiftl 1 bit).
(** [!x] *)
Definition not64 (x : Z) : Z := Z.lxor x u64_MAX.

Definition get (g : U64GroupedBitmap) (bit : Z) : option bool :=
  check (bit <? len g);;
  let '(index, bit_index) := data_index_of bit in
  group ← data g !! Z.to_nat index;
  Some (negb (Z.land group (select_mask bit_index) =? 0)).
(** The answer says whether the group of the bit is all set. *)
Definition set (g : U64GroupedBitmap) (bit : Z) : option (bool * U64GroupedBitmap) :=
  check (bit <? len g);;
  let '(index, bit_index) := data_index_of bit in
  group ← data g !! Z.to_nat index;
  let group := Z.lor group (select_mask bit_index) in
  Some (group =? u64_MAX, mkGrouped (len g) (<[Z.to_nat index := group]> (data g))).
Definition clear (g : U64GroupedBitmap) (bit : Z) : option U64GroupedBitmap :=
  check (bit <? len g);;
  let '(index, bit_index) := data_index_of bit in
  group ← data g !! Z.to_nat index;
  Some (mkGrouped (len g) (<[Z.to_nat index := Z.land group (not64 (select_mask bit_index))]> (data g))).

(** [u64::trailing_ones] and [u64::count_zeros] *)
Fixpoint ones_from (n : nat) (i w : Z) : Z :=
  match n with
  | O => 0
  | S n => if Z.testbit w i then 1 + ones_from n (i + 1) w else 0
  end.
Definition trailing_ones (w : Z) : Z := ones_from 64 0 w.
Definition count_zeros (w : Z) : Z :=
  Z.of_nat (length (filter (λ i, Z.testbit w i = false) (seqZ 0 64))).

Definition first_unset (g : U64GroupedBitmap) (start_bit end_bit : Z) : option (option Z) :=
  check (end_bit =? start_bit - start_bit `mod` 64 + 64);;
  if len g =? 0 then Some None else
  let '(index, bit) := data_index_of start_bit in
  let mask := Z.shiftl 1 bit - 1 in
  group ← data g !! Z.to_nat index;
  let group := Z.lor group mask in
  let x := trailing_ones group in
  Some (if x =? 64 then None else Some (start_bit + x - bit)).
Definition count_unset (g : U64GroupedBitmap) : Z := foldr Z.add 0 (count_zeros <$> data g).
Definition any_unset (g : U64GroupedBitmap) : bool := existsb (λ x, 0 <? count_zeros x) (data g).

Definition resize (g : U64GroupedBitmap) (new_len : Z) (full : bool) : option U64GroupedBitmap :=
  let data' :=
    if Z.of_nat (length (data g)) <? required_words new_len then
      data g ++ replicate (Z.to_nat (required_words new_len) - length (data g)) (if full then u64_MAX else 0)
    else data g in
  fold_opt (λ g i, if full then snd <$> set g i else clear g i)
    (mkGrouped new_len data') (seqZ (len g) (new_len - len g)).

Definition to_vec (g : U64GroupedBitmap) : option bytes :=
  let words := required_words (len g) in
  check (words <=? Z.of_nat (length (data g)));;
  Some (le_bytes 4 (len g) ++ mjoin (le_bytes 8 <$> take (Z.to_nat words) (data g))).
Fixpoint words_of (n : nat) (serialized : bytes) : list Z :=
  match n with
  | O => []
  | S n => of_le (take 8 serialized) :: words_of n (drop 8 serialized)
  end.
Definition from_bytes (serialized : bytes) : option U64GroupedBitmap :=
  check (4 <=? Z.of_nat (length serialized));;
  check ((Z.of_nat (length serialized) - 4) `mod` 8 =? 0);;
  let words := (Z.of_nat (length serialized) - 4) / 8 in
  Some (mkGrouped (of_le (take 4 serialized)) (words_of (Z.to_nat words) (drop 4 serialized))).

(** ** Its bits *)

Definition unset (g : U64GroupedBitmap) (i : Z) : Prop :=
  0 ≤ i ∧ ∃ w, data g !! Z.to_nat (i / 64) = Some w ∧ Z.testbit w (i `mod` 64) = false.
(** The words cover the length, and what is past it counts as taken. *)
Definition level_ok (g : U64GroupedBitmap) : Prop :=
  0 ≤ len g ∧ Forall (in_width 64) (data g) ∧ required_words (len g) ≤ Z.of_nat (length (data g))
  ∧ ∀ i, unset g i → i < len g.

Lemma in_width_bits w z : 0 ≤ w → 0 ≤ z → (∀ k, w ≤ k → Z.testbit z k = false) → in_width w z.
Proof.
  intros Hw Hz Hb. assert (z `mod` 2 ^ w = z) as E.
  { apply Z.bits_inj_iff'. intros k Hk. destruct (decide (k < w)).
    - by rewrite Z.mod_pow2_bits_low.
    - by rewrite Z.mod_pow2_bits_high, Hb by lia. }
  split; [done|]. rewrite <-E. apply Z.mod_pos_bound. by apply Z.pow_pos_nonneg.
Qed.
Lemma width_bits w z k : in_width w z → 0 ≤ w ≤ k → Z.testbit z k = false.
Proof.
  intros [Hz Hlt] Hk. rewrite <-(Z.mod_small z (2 ^ w)) by done. apply Z.mod_pow2_bits_high. lia.
Qed.
Lemma max_bits k : Z.testbit u64_MAX k = bool_decide (0 ≤ k < 64).
Proof.
  change u64_MAX with (Z.ones 64). rewrite Z.testbit_ones by lia.
  destruct (Z.leb_spec 0 k), (Z.ltb_spec k 64); symmetry;
    (apply bool_decide_eq_true_2; lia) || (apply bool_decide_eq_false_2; lia).
Qed.
Lemma max_width : in_width 64 u64_MAX.
Proof. split; [discriminate|reflexivity]. Qed.
(** A word is full when all its bits are set. *)
Lemma word_full w : in_width 64 w → w = u64_MAX ↔ ∀ k, 0 ≤ k < 64 → Z.testbit w k = true.
Proof.
  intros Hw. split; [intros -> k Hk; rewrite max_bits; by apply bool_decide_eq_true_2|].
  intros Hb. apply Z.bits_inj_iff'. intros k Hk. rewrite max_bits. destruct (decide (k < 64)).
  - rewrite Hb by lia. symmetry. apply bool_decide_eq_true_2. lia.
  - rewrite (width_bits 64) by (done || lia). symmetry. apply bool_decide_eq_false_2. lia.
Qed.

Lemma mask_bits b k : 0 ≤ b < 64 → Z.testbit (select_mask b) k = bool_decide (k = b).
Proof.
  intros Hb. unfold select_mask. rewrite Z.shiftl_1_l.
  rewrite wrap_small by (split; [by apply Z.pow_nonneg|apply Z.pow_lt_mono_r; lia]).
  case_bool_decide as E; [subst; apply Z.pow2_bits_true; lia|apply Z.pow2_bits_false; lia].
Qed.
Lemma set_bits w b k : 0 ≤ b < 64 → Z.testbit (Z.lor w (select_mask b)) k = Z.testbit w k || bool_decide (k = b).
Proof. intros Hb. by rewrite Z.lor_spec, mask_bits. Qed.
Lemma clear_bits w b k : in_width 64 w → 0 ≤ b < 64 → 0 ≤ k →
  Z.testbit (Z.land w (not64 (select_mask b))) k = Z.testbit w k && bool_decide (k ≠ b).
Proof.
  intros Hw Hb Hk. unfold not64. rewrite Z.land_spec, Z.lxor_spec, mask_bits, max_bits by done.
  destruct (decide (k < 64)); [|by rewrite (width_bits 64 w) by (done || lia)].
  rewrite (bool_decide_eq_true_2 (0 ≤ k < 64)) by lia. f_equal.
  by case_bool_decide; case_bool_decide.
Qed.
Lemma set_width w b : in_width 64 w → 0 ≤ b < 64 → in_width 64 (Z.lor w (select_mask b)).
Proof.
  intros Hw Hb. apply in_width_bits; [lia| |].
  - apply Z.lor_nonneg. split; [apply Hw|]. unfold select_mask. apply wrap_in_width. lia.
  - intros k Hk. rewrite set_bits, (width_bits 64 w) by (done || lia). apply bool_decide_eq_false_2. lia.
Qed.
Lemma clear_width w b : in_width 64 w → 0 ≤ b < 64 → in_width 64 (Z.land w (not64 (select_mask b))).
Proof.
  intros Hw Hb. apply in_width_bits; [lia| |].
  - apply Z.land_nonneg. left. apply Hw.
  - intros k Hk. by rewrite clear_bits, (width_bits 64 w) by (done || lia).
Qed.

(** The word of a bit below the length. *)
Lemma word_at g i : level_ok g → 0 ≤ i < len g →
  ∃ w, data g !! Z.to_nat (i / 64) = Some w ∧ in_width 64 w.
Proof.
  intros (_ & Hw & Hl & _) Hi. destruct (lookup_lt_is_Some_2 (data g) (Z.to_nat (i / 64))) as [w E].
  - unfold required_words, div_ceil in Hl. pose proof (Z.div_le_mono (i + 64) (len g + 64 - 1) 64 ltac:(lia) ltac:(lia)) as Hd.
    rewrite <-(Z.mul_1_l 64), Z.div_add in Hd at 1 by done. pose proof (Z.div_pos i 64). lia.
  - exists w. split; [done|]. by eapply Forall_lookup_1.
Qed.
Lemma bit_index i : 0 ≤ i → i = 64 * (i / 64) + i `mod` 64 ∧ 0 ≤ i `mod` 64 < 64 ∧ 0 ≤ i / 64.
Proof.
  intros. pose proof (Z.div_mod i 64 ltac:(done)). pose proof (Z.mod_pos_bound i 64 ltac:(done)).
  pose proof (Z.div_pos i 64). lia.
Qed.
(** The bits of a bitmap after one of its words changed. *)
Lemma unset_update g i w w' j : 0 ≤ i → data g !! Z.to_nat (i / 64) = Some w →
  unset (mkGrouped (len g) (<[Z.to_nat (i / 64) := w']> (data g))) j
  ↔ 0 ≤ j ∧ if decide (j / 64 = i / 64) then Z.testbit w' (j `mod` 64) = false else unset g j.
Proof.
  intros Hi E. unfold unset. cbn [data]. split.
  - intros (Hj & v & Hv & Hb). split; [done|]. case_decide as D.
    + rewrite D, list_lookup_insert_eq in Hv by (by eapply lookup_lt_Some). by injection Hv as ->.
    + rewrite list_lookup_insert_ne in Hv; [by eauto|]. pose proof (bit_index i Hi). pose proof (bit_index j Hj). lia.
  - intros (Hj & Hb). split; [done|]. case_decide as D.
    + exists w'. rewrite D, list_lookup_insert_eq by (by eapply lookup_lt_Some). done.
    + destruct Hb as (_ & v & Hv & Hb). exists v. rewrite list_lookup_insert_ne; [done|].
      pose proof (bit_index i Hi). pose proof (bit_index j Hj). lia.
Qed.

Lemma get_ok g i : level_ok g → 0 ≤ i < len g → ∃ v, get g i = Some v ∧ (v = false ↔ unset g i).
Proof.
  intros Hg Hi. destruct (word_at g i Hg Hi) as (w & E & Hw). destruct (bit_index i ltac:(lia)) as (_ & Hm & _).
  unfold get, data_index_of. rewrite (proj2 (Z.ltb_lt i (len g))) by lia. cbn. rewrite E. cbn. eexists. split; [done|].
  assert (Z.land w (select_mask (i `mod` 64)) = 0 ↔ Z.testbit w (i `mod` 64) = false) as Hz.
  { split.
    - intros H0. pose proof (f_equal (λ z, Z.testbit z (i `mod` 64)) H0) as Hb. cbn beta in Hb.
      rewrite Z.land_spec, mask_bits, bool_decide_eq_true_2, andb_true_r, Z.bits_0 in Hb by done. done.
    - intros Hb. apply Z.bits_inj_iff'. intros k _. rewrite Z.land_spec, mask_bits, Z.bits_0 by done.
      case_bool_decide; [subst; by rewrite Hb|apply andb_false_r]. }
  rewrite negb_false_iff, Z.eqb_eq, Hz. unfold unset. split.
  - intros Hb. split; [lia|]. eauto.
  - intros (_ & v & Hv & Hb). rewrite E in Hv. by injection Hv as <-.
Qed.
(** A change of one bit keeps the words. *)
Lemma word_update_ok g i w w' : level_ok g → 0 ≤ i < len g → data g !! Z.to_nat (i / 64) = Some w → in_width 64 w' →
  let g' := mkGrouped (len g) (<[Z.to_nat (i / 64) := w']> (data g)) in
  (∀ j, unset g' j → unset g j ∨ j = i) → level_ok g'.
Proof.
  intros (H0 & Hw & Hl & Hu) Hi E Hw' g' Hun. split_and!; cbn; try done.
  - by apply Forall_insert.
  - by rewrite length_insert.
  - intros j Hj. destruct (Hun j Hj) as [?| ->]; [by apply Hu|lia].
Qed.
Lemma set_ok g i : level_ok g → 0 ≤ i < len g →
  ∃ full g', set g i = Some (full, g') ∧ level_ok g' ∧ len g' = len g
    ∧ (∀ j, unset g' j ↔ unset g j ∧ j ≠ i) ∧ (full = true ↔ ∀ j, j / 64 = i / 64 → ¬ unset g' j).
Proof.
  intros Hg Hi. destruct (word_at g i Hg Hi) as (w & E & Hw). destruct (bit_index i ltac:(lia)) as (Ei & Hm & _).
  set (w' := Z.lor w (select_mask (i `mod` 64))). set (g' := mkGrouped (len g) (<[Z.to_nat (i / 64) := w']> (data g))).
  exists (w' =? u64_MAX), g'. assert (in_width 64 w') as Hw' by by apply set_width.
  assert (∀ j, unset g' j ↔ unset g j ∧ j ≠ i) as Hun.
  { intros j. unfold g'. rewrite (unset_update g i w) by (done || lia). case_decide as D.
    - unfold w'. rewrite set_bits, orb_false_iff, bool_decide_eq_false by done. split.
      + intros (Hj & Hb & Hne). split; [split; [done|]; exists w; by rewrite D|intros ->; done].
      + intros [(Hj & v & Hv & Hb) Hne]. rewrite D, E in Hv. injection Hv as <-. split_and!; try done.
        destruct (bit_index j Hj) as (Ej & _). intros Em. lia.
    - split; [intros [_ Hb]; split; [done|intros ->; done]|intros [Hb _]; split; [apply Hb|done]]. }
  split_and!; try done.
  - unfold set, data_index_of. rewrite (proj2 (Z.ltb_lt i (len g))) by lia. cbn. rewrite E. done.
  - apply (word_update_ok g i w w'); try done. intros j Hj. left. by apply Hun.
  - rewrite Z.eqb_eq, word_full by done. split.
    + intros Hall j Hj Hu. unfold g' in Hu. rewrite (unset_update g i w), decide_True in Hu by (done || lia).
      destruct Hu as [Hj0 Hb]. rewrite Hall in Hb; [done|by apply bit_index].
    + intros Hno k Hk. destruct (Z.testbit w' k) eqn:Hb; [done|]. destruct (Hno (64 * (i / 64) + k)).
      * rewrite Z.mul_comm, Z.div_add_l, (Z.div_small k 64) by lia. lia.
      * unfold g'. assert ((64 * (i / 64) + k) / 64 = i / 64) as Ed by (rewrite Z.mul_comm, Z.div_add_l, (Z.div_small k 64) by lia; lia).
        assert ((64 * (i / 64) + k) `mod` 64 = k) as Em by (rewrite Z.mul_comm, Z.add_comm, Z.mod_add, Z.mod_small by lia; lia).
        rewrite (unset_update g i w), decide_True, Em by (done || lia). split; [lia|done].
Qed.
Lemma clear_ok g i : level_ok g → 0 ≤ i < len g →
  ∃ g', clear g i = Some g' ∧ level_ok g' ∧ len g' = len g ∧ ∀ j, unset g' j ↔ unset g j ∨ j = i.
Proof.
  intros Hg Hi. destruct (word_at g i Hg Hi) as (w & E & Hw). destruct (bit_index i ltac:(lia)) as (Ei & Hm & _).
  set (w' := Z.land w (not64 (select_mask (i `mod` 64)))). set (g' := mkGrouped (len g) (<[Z.to_nat (i / 64) := w']> (data g))).
  exists g'. assert (∀ j, unset g' j ↔ unset g j ∨ j = i) as Hun.
  { intros j. unfold g'. rewrite (unset_update g i w) by (done || lia). case_decide as D.
    - split.
      + intros (Hj & Hb). destruct (bit_index j Hj) as (Ej & Hmj & _). unfold w' in Hb.
        rewrite clear_bits in Hb by (done || lia). apply andb_false_iff in Hb as [Hb|Hb%bool_decide_eq_false].
        * left. split; [done|]. exists w. by rewrite D.
        * right. lia.
      + intros [(Hj & v & Hv & Hb)| ->].
        * split; [done|]. rewrite D, E in Hv. injection Hv as <-. destruct (bit_index j Hj) as (_ & Hmj & _).
          unfold w'. rewrite clear_bits, Hb by (done || lia). done.
        * split; [lia|]. unfold w'. rewrite clear_bits, bool_decide_eq_false_2, andb_false_r by (done || lia || tauto). done.
    - split; [by intros [_ Hb]; left|intros [Hb| ->]; [split; [apply Hb|done]|done]]. }
  split_and!; try done.
  - unfold clear, data_index_of. rewrite (proj2 (Z.ltb_lt i (len g))) by lia. cbn. rewrite E. done.
  - apply (word_update_ok g i w w'); try done; [by apply clear_width|]. intros j Hj. by apply Hun.
Qed.

(** The first bit that is not set, from a bit on. *)
Lemma ones_from_ok n i w : 0 ≤ ones_from n i w ≤ Z.of_nat n
  ∧ (∀ k, i ≤ k < i + ones_from n i w → Z.testbit w k = true)
  ∧ (ones_from n i w < Z.of_nat n → Z.testbit w (i + ones_from n i w) = false).
Proof.
  revert i. induction n as [|n IH]; intros i; cbn [ones_from]; [split_and!; intros; lia|].
  destruct (Z.testbit w i) eqn:Hb.
  - destruct (IH (i + 1)) as (H1 & H2 & H3). rewrite Nat2Z.inj_succ. split_and!; [lia|lia| |].
    + intros k Hk. destruct (decide (k = i)) as [->|]; [done|]. apply H2. lia.
    + intros Hlt. rewrite Z.add_assoc. apply H3. lia.
  - split_and!; [lia|lia|intros; lia|]. intros _. by rewrite Z.add_0_r.
Qed.
Lemma first_unset_ok g e : level_ok g → 0 ≤ e → len g = 0 ∨ e * 64 < len g →
  ∃ r, first_unset g (e * 64) (e * 64 + 64) = Some r
    ∧ match r with
      | Some x => unset g x ∧ x / 64 = e ∧ ∀ j, unset g j → j / 64 = e → x ≤ j
      | None => ∀ j, unset g j → j / 64 ≠ e
      end.
Proof.
  intros Hg He Hlen. unfold first_unset, data_index_of. rewrite Z.div_mul, Z_mod_mult by done.
  rewrite Z.sub_0_r, Z.eqb_refl. cbn [check mbind option_bind]. destruct (Z.eqb_spec (len g) 0) as [H0|H0].
  { exists None. split; [done|]. intros j Hj. destruct Hg as (_ & _ & _ & Hu). specialize (Hu j Hj). destruct Hj. lia. }
  destruct Hlen as [|Hlen]; [done|]. destruct (word_at g (e * 64) Hg ltac:(lia)) as (w & E & Hw).
  rewrite Z.div_mul in E by done. rewrite E. cbn [mbind option_bind].
  change (Z.shiftl 1 0 - 1) with 0. rewrite Z.lor_0_r.
  destruct (ones_from_ok 64 0 w) as (Hr & Hones & Hzero). unfold trailing_ones. set (x := ones_from 64 0 w) in *.
  assert (∀ j, unset g j → j / 64 = e → x ≤ j `mod` 64 < 64) as Hlow.
  { intros j (Hj & v & Hv & Hb) Ed. rewrite Ed, E in Hv. injection Hv as <-. destruct (bit_index j Hj) as (_ & Hm & _).
    destruct (decide (j `mod` 64 < x)); [|lia]. rewrite Hones in Hb by lia. done. }
  destruct (Z.eqb_spec x 64) as [Hx|Hx].
  - exists None. split; [done|]. intros j Hj Ed. specialize (Hlow j Hj Ed). lia.
  - exists (Some (e * 64 + x)). split; [by rewrite Z.sub_0_r|].
    assert ((e * 64 + x) / 64 = e) as Ed by (rewrite Z.div_add_l, Z.div_small; lia).
    assert ((e * 64 + x) `mod` 64 = x) as Em by (rewrite Z.add_comm, Z.mod_add, Z.mod_small; lia).
    split_and!; [|done|].
    + split; [lia|]. exists w. rewrite Ed, Em. split; [done|]. apply Hzero. lia.
    + intros j Hj Ej. specialize (Hlow j Hj Ej). destruct (bit_index j (proj1 Hj)). lia.
Qed.

(** The bits of a list of words that are not set, from an offset on. *)
Fixpoint unset_of (o : Z) (ws : list Z) : list Z :=
  match ws with
  | [] => []
  | w :: ws => (Z.add o <$> filter (λ i, Z.testbit w i = false) (seqZ 0 64)) ++ unset_of (o + 64) ws
  end.
Lemma elem_of_unset_of ws o i :
  i ∈ unset_of o ws ↔ o ≤ i ∧ ∃ w, ws !! Z.to_nat ((i - o) / 64) = Some w ∧ Z.testbit w ((i - o) `mod` 64) = false.
Proof.
  revert o. induction ws as [|w ws IH]; intros o; cbn [unset_of].
  { split; [by intros ?%elem_of_nil|]. intros (_ & w & E & _). by rewrite lookup_nil in E. }
  rewrite elem_of_app, IH, list_elem_of_fmap. clear IH. split.
  - intros [(k & -> & [Hb Hk%elem_of_seqZ]%list_elem_of_filter)|(Hi & v & Hv & Hb)].
    + split; [lia|]. exists w. replace (o + k - o) with k by lia. rewrite Z.div_small, Z.mod_small by lia. done.
    + split; [lia|]. exists v. replace (i - o) with (i - (o + 64) + 1 * 64) by lia.
      rewrite Z.div_add, Z.mod_add by done. split; [|done]. pose proof (Z.div_pos (i - (o + 64)) 64).
      rewrite Z2Nat.inj_add, Nat.add_1_r by lia. done.
  - intros (Hi & v & Hv & Hb). destruct (decide (i < o + 64)).
    + left. exists (i - o). rewrite Z.div_small, Z.mod_small in * by lia. injection Hv as ->. split; [lia|].
      apply list_elem_of_filter. split; [done|]. apply elem_of_seqZ. lia.
    + right. split; [lia|]. exists v. replace (i - o) with (i - (o + 64) + 1 * 64) in Hv, Hb by lia.
      rewrite Z.div_add in Hv by done. rewrite Z.mod_add in Hb by done. split; [|done].
      pose proof (Z.div_pos (i - (o + 64)) 64). rewrite Z2Nat.inj_add, Nat.add_1_r in Hv by lia. done.
Qed.
Lemma NoDup_unset_of ws o : NoDup (unset_of o ws).
Proof.
  revert o. induction ws as [|w ws IH]; intros o; cbn [unset_of]; [constructor|]. apply NoDup_app. split_and!; [| |done].
  - apply NoDup_fmap_2; [intros x y; lia|]. apply NoDup_filter, NoDup_seqZ.
  - intros i (k & -> & [_ Hk%elem_of_seqZ]%list_elem_of_filter)%list_elem_of_fmap (Hi & _)%elem_of_unset_of. lia.
Qed.
Lemma count_unset_of ws o : foldr Z.add 0 (count_zeros <$> ws) = Z.of_nat (length (unset_of o ws)).
Proof.
  revert o. induction ws as [|w ws IH]; intros o; [done|]. cbn [unset_of fmap list_fmap foldr].
  rewrite length_app, length_fmap. change (list_fmap Z Z count_zeros ws) with (count_zeros <$> ws).
  rewrite (IH (o + 64)). unfold count_zeros. lia.
Qed.
Lemma elem_of_bits g i : i ∈ unset_of 0 (data g) ↔ unset g i.
Proof. rewrite elem_of_unset_of, Z.sub_0_r. done. Qed.
Lemma count_unset_ok g (F : gset Z) : (∀ i, i ∈ F ↔ unset g i) → count_unset g = Z.of_nat (size F).
Proof.
  intros HF. unfold count_unset. rewrite (count_unset_of _ 0). f_equal.
  rewrite <-(size_list_to_set (C := gset Z)) by apply NoDup_unset_of. f_equal.
  apply set_eq. intros i. by rewrite elem_of_list_to_set, elem_of_bits, HF.
Qed.
Lemma any_unset_ok g : any_unset g = true ↔ ∃ i, unset g i.
Proof.
  unfold any_unset. rewrite existsb_exists. split.
  - intros (w & Hw & Hc%Z.ltb_lt). apply list_elem_of_In in Hw. apply list_elem_of_lookup in Hw as [k Hk].
    unfold count_zeros in Hc. destruct (filter _ _) as [|i l] eqn:Ef; [done|].
    assert (i ∈ filter (λ i, Z.testbit w i = false) (seqZ 0 64)) as Hi by (rewrite Ef; by left).
    apply list_elem_of_filter in Hi as [Hb Hi%elem_of_seqZ]. exists (Z.of_nat k * 64 + i). split; [lia|]. exists w.
    rewrite Z.div_add_l, Z.div_small, Z.add_0_r, Nat2Z.id by lia. split; [done|].
    by rewrite Z.add_comm, Z.mod_add, Z.mod_small by lia.
  - intros (i & Hi & w & Hw & Hb). exists w. split; [by apply list_elem_of_In; eapply list_elem_of_lookup_2|].
    apply Z.ltb_lt. unfold count_zeros. destruct (bit_index i Hi) as (_ & Hm & _).
    assert (i `mod` 64 ∈ filter (λ i, Z.testbit w i = false) (seqZ 0 64)) as Hin
      by (apply list_elem_of_filter; split; [done|apply elem_of_seqZ; lia]).
    destruct (filter _ _); [by apply elem_of_nil in Hin|cbn; lia].
Qed.

(** Growing or shrinking marks the new bits as taken. *)
Lemma set_all_ok l g : level_ok g → (∀ i, i ∈ l → 0 ≤ i < len g ∧ ¬ unset g i) →
  ∃ g', fold_opt (λ g i, snd <$> set g i) g l = Some g' ∧ level_ok g' ∧ len g' = len g ∧ ∀ j, unset g' j ↔ unset g j.
Proof.
  revert g. induction l as [|i l IH]; intros g Hg Hl; cbn [fold_opt]; [by exists g|].
  destruct (set_ok g i Hg) as (full & g1 & E & Hg1 & El & Hu & _); [by apply Hl; left|]. rewrite E. cbn.
  assert (∀ j, unset g1 j ↔ unset g j) as Hu1.
  { intros j. rewrite Hu. split; [tauto|]. intros Hj. split; [done|]. intros ->. by apply (Hl i); [left|]. }
  destruct (IH g1 Hg1) as (g' & E' & Hg' & El' & Hu'); [|exists g'; rewrite El', El; split_and!; try done; intros j; by rewrite Hu', Hu1].
  intros j Hj. rewrite El, Hu1. apply Hl. by right.
Qed.
Lemma required_words_mono a b : a ≤ b → required_words a ≤ required_words b.
Proof. intros. apply Z.div_le_mono; lia. Qed.
Lemma required_words_pos a : 0 ≤ a → 0 ≤ required_words a.
Proof. intros. apply Z.div_pos; lia. Qed.
Lemma resize_ok g new_len : level_ok g → 0 ≤ new_len → (∀ i, unset g i → i < new_len) →
  ∃ g', resize g new_len true = Some g' ∧ level_ok g' ∧ len g' = new_len ∧ ∀ j, unset g' j ↔ unset g j.
Proof.
  intros (H0 & Hw & Hl & Hu) Hn Hun. unfold resize.
  set (d := if Z.of_nat (length (data g)) <? required_words new_len then _ else _).
  assert (∀ j, unset (mkGrouped new_len d) j ↔ unset g j) as Hd.
  { intros j. unfold unset, d. cbn [data]. destruct (_ <? _); [|done]. split.
    - intros (Hj & w & Ew & Hb). split; [done|]. exists w. split; [|done].
      apply lookup_app_Some in Ew as [|[_ Ew]]; [done|]. apply lookup_replicate in Ew as [-> _].
      rewrite max_bits, bool_decide_eq_true_2 in Hb by by apply bit_index. done.
    - intros (Hj & w & Ew & Hb). split; [done|]. exists w. by rewrite (lookup_app_l_Some _ _ _ _ Ew). }
  assert (level_ok (mkGrouped new_len d)) as Hok.
  { split_and!; cbn; [done| | |intros j; rewrite Hd; apply Hun]; unfold d; destruct (Z.ltb_spec (Z.of_nat (length (data g))) (required_words new_len)); try done.
    - apply Forall_app. split; [done|]. apply Forall_replicate, max_width.
    - rewrite length_app, length_replicate. lia. }
  destruct (set_all_ok (seqZ (len g) (new_len - len g)) (mkGrouped new_len d) Hok) as (g' & E & Hg' & El & Hu').
  - intros i Hi%elem_of_seqZ. cbn. split; [lia|]. rewrite Hd. intros Hi'. specialize (Hu i Hi'). lia.
  - exists g'. split_and!; try done. intros j. by rewrite Hu', Hd.
Qed.
Lemma new_full_ok n capacity : 0 ≤ n ≤ capacity → level_ok (new_full n capacity) ∧ ∀ i, ¬ unset (new_full n capacity) i.
Proof.
  intros Hn. assert (∀ i, ¬ unset (new_full n capacity) i) as Hno.
  { intros i (Hi & w & [-> _]%lookup_replicate & Hb). rewrite max_bits, bool_decide_eq_true_2 in Hb by by apply bit_index. done. }
  split; [|done]. split_and!; cbn; [lia|apply Forall_replicate, max_width| |intros i Hi; by apply Hno in Hi].
  rewrite length_replicate, Z2Nat.id by (apply required_words_pos; lia). apply required_words_mono. lia.
Qed.

(** ** Stored and read back *)
Lemma words_of_bytes ws : Forall (in_width 64) ws → words_of (length ws) (mjoin (le_bytes 8 <$> ws)) = ws.
Proof.
  induction 1 as [|w ws Hw _ IH]; [done|]. cbn [length words_of fmap list_fmap]. rewrite mjoin_cons.
  rewrite take_app_length', drop_app_length' by (by rewrite length_le_bytes). rewrite of_le_bytes_u64 by done. by f_equal.
Qed.
Lemma length_words ws : length (mjoin (le_bytes 8 <$> ws)) = (8 * length ws)%nat.
Proof. induction ws as [|w ws IH]; [done|]. cbn [fmap list_fmap length]. rewrite mjoin_cons, length_app, length_le_bytes. rewrite IH. lia. Qed.
Lemma to_vec_ok g : level_ok g → len g < 2 ^ 32 →
  ∃ v, to_vec g = Some v ∧ Z.of_nat (length v) = 4 + 8 * required_words (len g)
    ∧ ∃ g', from_bytes v = Some g' ∧ level_ok g' ∧ len g' = len g ∧ ∀ i, unset g' i ↔ unset g i.
Proof.
  intros (H0 & Hw & Hl & Hu) Hlt. unfold to_vec. rewrite (proj2 (Z.leb_le _ _) Hl). cbn [check mbind option_bind].
  set (words := required_words (len g)) in *. set (ws := take (Z.to_nat words) (data g)).
  assert (0 ≤ words) as Hp by by apply required_words_pos.
  assert (length ws = Z.to_nat words) as Hlen by (unfold ws; rewrite length_take; lia).
  assert (Z.of_nat (length (le_bytes 4 (len g) ++ mjoin (le_bytes 8 <$> ws))) = 4 + 8 * words) as Hv
    by (rewrite length_app, length_le_bytes, length_words, Hlen; lia).
  eexists. split; [done|]. split; [done|]. unfold from_bytes. rewrite Hv.
  rewrite (proj2 (Z.leb_le _ _)) by lia. replace (4 + 8 * words - 4) with (words * 8) by lia.
  rewrite Z.mod_mul, Z.div_mul by done. cbn [check mbind option_bind Z.eqb]. rewrite take_app_length', drop_app_length' by (by rewrite length_le_bytes).
  rewrite of_le_bytes_small, <-Hlen, words_of_bytes by (done || by apply Forall_take).
  assert (∀ i, unset (mkGrouped (len g) ws) i ↔ unset g i) as Hun.
  { intros i. split; intros (Hi & w & Ew & Hb); (split; [done|]); exists w; (split; [|done]); cbn [data] in *.
    - unfold ws in Ew. apply lookup_take_Some in Ew. tauto.
    - unfold ws. apply lookup_take_Some. split; [done|]. assert (i < len g) by (apply Hu; split; eauto).
      apply Z2Nat.inj_lt; [by apply Z.div_pos|done|]. unfold words, required_words, div_ceil.
      pose proof (Z.div_le_mono (i + 64) (len g + 64 - 1) 64 ltac:(lia) ltac:(lia)) as Hd.
      rewrite <-(Z.mul_1_l 64), Z.div_add in Hd at 1 by done. lia. }
  eexists. split; [done|]. split; [|by split]. split_and!; cbn; try done.
  - by apply Forall_take.
  - fold words. lia.
  - intros i. rewrite Hun. apply Hu.
Qed.

End Grouped.
