(* ===== verification/RedbBitmap.v ===== *)
(** RedbBitmap: the sets of free ids of the database.

    Models [BtreeBitmap] of [poc/redb-fork/src/tree_store/page_store/bitmap.rs]: a
    tree of bitmaps in which a bit is set when its id is taken, or when the 64 bits
    below it all are; the first free id is found by walking down.  Ids are [u32]s
    below the limits of [base.rs], [2^20] pages of a region and [2^20] regions, so
    no sum of the file leaves its width.  [None] is a panic, as in [RedbGroup]. *)
From S2P Require Import Prelude Windows RedbGroup.
Local Open Scope Z_scope.
Import Grouped(U64GroupedBitmap).

(** * [BtreeBitmap]: the root first, the ids last *)
Module Bitmap.

Record BtreeBitmap := mkBtree { heights : list U64GroupedBitmap }.

Definition get_height (b : BtreeBitmap) : Z := Z.of_nat (length (heights b)).
Definition get_level (b : BtreeBitmap) (i : Z) : option U64GroupedBitmap :=
  check (i <? get_height b);; heights b !! Z.to_nat i.
(** [*self.get_level_mut(i) = g] *)
Definition set_level (b : BtreeBitmap) (i : Z) (g : U64GroupedBitmap) : BtreeBitmap :=
  mkBtree (<[Z.to_nat i := g]> (heights b)).
Definition leaf (b : BtreeBitmap) : option U64GroupedBitmap := get_level b (get_height b - 1).

Definition count_unset (b : BtreeBitmap) : option Z := Grouped.count_unset <$> leaf b.
Definition has_unset (b : BtreeBitmap) : option bool := Grouped.any_unset <$> leaf b.
Definition get (b : BtreeBitmap) (i : Z) : option bool := leaf b ≫= λ g, Grouped.get g i.
Definition len (b : BtreeBitmap) : option Z := Grouped.len <$> leaf b.

(** The loop of [find_first_unset] over the levels under the root.  The products and
    sums of the code are 32 bits wide; they could wrap only for ids from [2 ^ 32 - 64],
    far beyond the bitmaps of the program (at most [2 ^ 20] ids). *)
Fixpoint descend (entry : Z) (levels : list U64GroupedBitmap) : option Z :=
  match levels with
  | [] => Some entry
  | level :: levels =>
      let entry := entry * 64 in
      r ← Grouped.first_unset level entry (entry + 64);
      entry ← r;
      descend entry levels
  end.
Definition find_first_unset (b : BtreeBitmap) : option (option Z) :=
  root ← get_level b 0;
  r ← Grouped.first_unset root 0 64;
  match r with
  | Some entry => Some <$> descend entry (tail (heights b))
  | None => Some None
  end.

(** The loop of [update_to_root], from the parent of the changed level up. *)
Fixpoint update_loop (parent_height : nat) (parent_entry : Z) (full : bool) (b : BtreeBitmap) : option BtreeBitmap :=
  level ← get_level b (Z.of_nat parent_height);
  '(full, level) ← (if full then Grouped.set level parent_entry else pair false <$> Grouped.clear level parent_entry);
  let b := set_level b (Z.of_nat parent_height) level in
  match parent_height with
  | O => Some b
  | S parent_height => update_loop parent_height (parent_entry / 64) full b
  end.
Definition update_to_root (b : BtreeBitmap) (i : Z) (full : bool) : option BtreeBitmap :=
  if get_height b =? 1 then Some b else update_loop (Z.to_nat (get_height b - 2)) (i / 64) full b.
Definition set (b : BtreeBitmap) (i : Z) : option BtreeBitmap :=
  g ← leaf b;
  '(full, g) ← Grouped.set g i;
  update_to_root (set_level b (get_height b - 1) g) i full.
Definition clear (b : BtreeBitmap) (i : Z) : option BtreeBitmap :=
  g ← leaf b;
  g ← Grouped.clear g i;
  update_to_root (set_level b (get_height b - 1) g) i false.
Definition alloc (b : BtreeBitmap) : option (option Z * BtreeBitmap) :=
  r ← find_first_unset b;
  match r with
  | Some entry => b ← set b entry; Some (Some entry, b)
  | None => Some (None, b)
  end.

(** The loop of [new] from the leaf to the root, and the one of
    [height_for_capacity]: a unit of fuel per level. *)
Fixpoint new_levels (fuel : nat) (num_pages capacity : Z) : option (list U64GroupedBitmap) :=
  match fuel with
  | O => None
  | S fuel =>
      let level := Grouped.new_full num_pages capacity in
      if capacity <=? 64 then Some [level]
      else cons level <$> new_levels fuel (div_ceil num_pages 64) (div_ceil capacity 64)
  end.
Fixpoint height_loop (fuel : nat) (height capacity : Z) : option Z :=
  match fuel with
  | O => None
  | S fuel => if 64 <? capacity then height_loop fuel (height + 1) (div_ceil capacity 64) else Some height
  end.
Definition LEVELS : nat := 6.
Definition new (num_pages capacity : Z) : option BtreeBitmap :=
  (λ levels, mkBtree (reverse levels)) <$> new_levels LEVELS num_pages capacity.
Definition height_for_capacity (capacity : Z) : option Z := height_loop LEVELS 1 capacity.
(** [n] turns of the loop of [new_padded]. *)
Fixpoint pad (n : nat) (hs : list U64GroupedBitmap) : option (list U64GroupedBitmap) :=
  match n with
  | O => Some hs
  | S n =>
      root ← hs !! 0%nat;
      let parent_len := div_ceil (Grouped.len root) 64 in
      pad n (Grouped.new_full parent_len parent_len :: hs)
  end.
Definition new_padded (num_pages capacity max_capacity : Z) : option BtreeBitmap :=
  result ← new num_pages capacity;
  max_height ← height_for_capacity max_capacity;
  mkBtree <$> pad (Z.to_nat max_height - length (heights result)) (heights result).

(** The loop of [resize]: the levels from the last to the root. *)
Fixpoint resize_levels (levels : list U64GroupedBitmap) (new_len : Z) (full : bool) : option (list U64GroupedBitmap) :=
  match levels with
  | [] => Some []
  | level :: levels =>
      level ← Grouped.resize level new_len full;
      cons level <$> resize_levels levels (div_ceil new_len 64) full
  end.
Definition resize (b : BtreeBitmap) (new_len : Z) (full : bool) : option BtreeBitmap :=
  levels ← resize_levels (reverse (heights b)) new_len full;
  let b := mkBtree (reverse levels) in
  root ← get_level b 0;
  check (Grouped.len root <=? 64);;
  Some b.

Definition to_vec (b : BtreeBitmap) : option bytes :=
  height ← try_u32 (get_height b);
  vecs ← mapM Grouped.to_vec (heights b);
  ends ← write_ends (4 + 4 * get_height b) vecs;
  Some (le_bytes 4 height ++ ends ++ mjoin vecs).
Definition from_bytes (data : bytes) : option BtreeBitmap :=
  height ← u32_at data 0;
  mkBtree <$> read_parts Grouped.from_bytes (Z.to_nat height) 4 (4 + 4 * height) data.

(** ** What it represents: a set of free ids below a length *)

Abbreviation unset := Grouped.unset.
Abbreviation level_ok := Grouped.level_ok.

(** A bit of a level is not set when one of the 64 bits under it is not. *)
Definition linked (p c : U64GroupedBitmap) : Prop :=
  Grouped.len p = div_ceil (Grouped.len c) 64 ∧ ∀ i, unset p i ↔ ∃ j, j / 64 = i ∧ unset c j.
Definition chain (hs : list U64GroupedBitmap) : Prop :=
  ∀ k p c, hs !! k = Some p → hs !! S k = Some c → linked p c.
(** [cap] is the length the tree can grow to. *)
Definition tall (cap n : Z) (hs : list U64GroupedBitmap) : Prop :=
  n ≤ cap ∧ cap ≤ 64 ^ Z.of_nat (length hs) ∧ (length hs ≤ LEVELS)%nat.
Section represents.
Context {cap : Z}.
Definition bt_ok (b : BtreeBitmap) (n : Z) (F : gset Z) : Prop :=
  Forall level_ok (heights b) ∧ chain (heights b) ∧ tall cap n (heights b)
  ∧ (∃ root, heights b !! 0%nat = Some root ∧ Grouped.len root ≤ 64)
  ∧ ∃ g, last (heights b) = Some g ∧ Grouped.len g = n ∧ ∀ i, i ∈ F ↔ unset g i.

Lemma div_ceil_pos n i : 0 ≤ i < n → 0 ≤ i / 64 < div_ceil n 64.
Proof.
  intros Hi. split; [apply Z.div_pos; lia|]. unfold div_ceil.
  pose proof (Z.div_le_mono (i + 64) (n + 64 - 1) 64 ltac:(lia) ltac:(lia)) as Hd.
  rewrite <-(Z.mul_1_l 64), Z.div_add in Hd at 1 by done. lia.
Qed.
Lemma bt_bound b n F i : bt_ok b n F → i ∈ F → 0 ≤ i < n.
Proof.
  intros (Hl & _ & _ & _ & g & Eg & <- & HF) Hi%HF. split; [apply Hi|].
  rewrite last_lookup in Eg. by apply (Forall_lookup_1 _ _ _ _ Hl Eg).
Qed.
Lemma bt_ext b n F F' : F ≡ F' → bt_ok b n F → bt_ok b n F'.
Proof. by intros ->%leibniz_equiv. Qed.
Lemma leaf_ok b n F : bt_ok b n F →
  ∃ g, leaf b = Some g ∧ last (heights b) = Some g ∧ level_ok g ∧ Grouped.len g = n ∧ ∀ i, i ∈ F ↔ unset g i.
Proof.
  intros (Hl & _ & _ & _ & g & Eg & Hn & HF). exists g. pose proof Eg as Eg'. rewrite last_lookup in Eg'.
  split_and!; try done; [|by eapply Forall_lookup_1]. unfold leaf, get_level, get_height.
  pose proof (lookup_lt_Some _ _ _ Eg'). rewrite (proj2 (Z.ltb_lt _ _)) by lia.
  replace (Z.to_nat (Z.of_nat (length (heights b)) - 1)) with (pred (length (heights b))) by lia. done.
Qed.
Lemma bt_nonneg b n F : bt_ok b n F → 0 ≤ n.
Proof. intros H. destruct (leaf_ok _ _ _ H) as (g & _ & _ & (? & _) & <- & _). done. Qed.

(** Reading. *)
Lemma bt_len b n F : bt_ok b n F → len b = Some n.
Proof. intros H. destruct (leaf_ok _ _ _ H) as (g & E & _ & _ & <- & _). unfold len. by rewrite E. Qed.
Lemma bt_get b n F i : bt_ok b n F → 0 ≤ i < n → get b i = Some (bool_decide (i ∉ F)).
Proof.
  intros H Hi. destruct (leaf_ok _ _ _ H) as (g & E & _ & Hg & <- & HF). unfold get. rewrite E. cbn [mbind option_bind].
  destruct (Grouped.get_ok g i Hg Hi) as (v & -> & Hv). f_equal. rewrite <-HF in Hv. destruct v.
  - symmetry. apply bool_decide_eq_true_2. intros Hin%Hv. done.
  - symmetry. apply bool_decide_eq_false_2. intros Hn. by apply Hn, Hv.
Qed.
Lemma bt_count b n F : bt_ok b n F → count_unset b = Some (Z.of_nat (size F)).
Proof.
  intros H. destruct (leaf_ok _ _ _ H) as (g & E & _ & Hg & <- & HF). unfold count_unset. rewrite E. cbn.
  f_equal. by apply Grouped.count_unset_ok.
Qed.
Lemma bt_has b n F : bt_ok b n F → has_unset b = Some (bool_decide (F ≠ ∅)).
Proof.
  intros H. destruct (leaf_ok _ _ _ H) as (g & E & _ & Hg & <- & HF). unfold has_unset. rewrite E. cbn. f_equal.
  apply Bool.eq_iff_eq_true. rewrite bool_decide_eq_true, Grouped.any_unset_ok. split.
  - intros (i & Hi%HF) ->. set_solver.
  - intros (i & Hi%HF)%set_choose_L. by exists i.
Qed.

(** The walk down finds the first free id. *)
Lemma descend_ok hs p e : Forall level_ok (p :: hs) → chain (p :: hs) → unset p e → (∀ j, unset p j → e ≤ j) →
  ∃ x g, descend e hs = Some x ∧ last (p :: hs) = Some g ∧ unset g x ∧ ∀ j, unset g j → x ≤ j.
Proof.
  revert p e. induction hs as [|c hs IH]; intros p e Hl Hc He Hmin; cbn [descend]; [by exists e, p|].
  apply Forall_cons in Hl as [Hp Hl]. pose proof Hl as [Hcl _]%Forall_cons.
  destruct (Hc 0%nat p c eq_refl eq_refl) as [Hlen Hlink]. destruct (proj1 (Hlink e) He) as (j0 & Ej0 & Hj0).
  destruct (Grouped.first_unset_ok c e Hcl (proj1 He)) as (r & -> & Hr).
  { right. pose proof (proj2 (proj2 (proj2 Hcl)) j0 Hj0). destruct (Grouped.bit_index j0 (proj1 Hj0)). lia. }
  cbn [mbind option_bind]. destruct r as [x|]; [|by destruct (Hr j0 Hj0)]. destruct Hr as (Hx & Ex & Hxmin). cbn [mbind option_bind].
  apply (IH c); [done| |done|].
  - intros k p' c' H1 H2. by apply (Hc (S k)).
  - intros j Hj. assert (e ≤ j / 64) as Hle by (apply Hmin, Hlink; eauto).
    destruct (decide (j / 64 = e)) as [Ed|]; [by apply Hxmin|].
    destruct (Grouped.bit_index j (proj1 Hj)), (Grouped.bit_index x (proj1 Hx)). lia.
Qed.
Lemma chain_any hs p g : chain (p :: hs) → last (p :: hs) = Some g → (∃ j, unset g j) → ∃ j, unset p j.
Proof.
  revert p. induction hs as [|c hs IH]; intros p Hc Hlast Hj; [cbn in Hlast; by injection Hlast as ->|].
  destruct (Hc 0%nat p c eq_refl eq_refl) as [_ Hlink]. destruct (IH c) as [j Hj']; [|done..|].
  - intros k p' c' H1 H2. by apply (Hc (S k)).
  - exists (j / 64). apply Hlink. eauto.
Qed.
Lemma find_first_ok b n F : bt_ok b n F →
  ∃ r, find_first_unset b = Some r ∧ match r with Some x => x ∈ F ∧ ∀ j, j ∈ F → x ≤ j | None => F = ∅ end.
Proof.
  intros (Hl & Hc & _ & (root & Er & Hr64) & g & Eg & <- & HF). unfold find_first_unset, get_level, get_height.
  destruct (heights b) as [|p hs] eqn:Eb; [done|]. injection Er as ->.
  rewrite (proj2 (Z.ltb_lt _ _)) by (cbn [length]; lia). change ((root :: hs) !! Z.to_nat 0) with (Some root). cbn [check mbind option_bind tail].
  pose proof Hl as [Hp _]%Forall_cons.
  destruct (Grouped.first_unset_ok root 0 Hp ltac:(lia)) as (r & E & Hr); [destruct Hp as [? _]; lia|].
  change (0 * 64) with 0 in E. change (0 + 64) with 64 in E. rewrite E. cbn [mbind option_bind]. destruct r as [e|].
  - destruct Hr as (He & Ed & Hmin). destruct (descend_ok hs root e Hl Hc He) as (x & g' & Ex & Eg' & Hx & Hxmin).
    { intros j Hj. apply Hmin; [done|]. pose proof (proj2 (proj2 (proj2 Hp)) j Hj). apply Z.div_small. destruct Hj. lia. }
    rewrite Eg in Eg'. injection Eg' as <-. exists (Some x). rewrite Ex. split; [done|]. split; [by apply HF|].
    intros j Hj%HF. by apply Hxmin.
  - exists None. split; [done|]. apply set_eq. intros i. split; [|by intros ?%elem_of_empty]. intros Hi%HF.
    destruct (chain_any hs root g Hc Eg) as [j Hj]; [by exists i|]. exfalso. apply (Hr j Hj).
    pose proof (proj2 (proj2 (proj2 Hp)) j Hj). apply Z.div_small. destruct Hj. lia.
Qed.

(** While [update_to_root] is under way, only the bit [e] of the level [h] may
    disagree with the level below. *)
Definition updating (hs : list U64GroupedBitmap) (h : nat) (e : Z) (full : bool) : Prop :=
  Forall level_ok hs
  ∧ (∀ k p c, k ≠ h → hs !! k = Some p → hs !! S k = Some c → linked p c)
  ∧ ∃ p c, hs !! h = Some p ∧ hs !! S h = Some c ∧ Grouped.len p = div_ceil (Grouped.len c) 64
      ∧ 0 ≤ e < Grouped.len p ∧ (∀ i, i ≠ e → unset p i ↔ ∃ j, j / 64 = i ∧ unset c j)
      ∧ (full = true ↔ ∀ j, j / 64 = e → ¬ unset c j).
(** Two trees with levels of the same lengths, and the same ones under [h]. *)
Definition same_below (h : nat) (b b' : BtreeBitmap) : Prop :=
  (Grouped.len <$> heights b') = (Grouped.len <$> heights b) ∧ ∀ k, (h < k)%nat → heights b' !! k = heights b !! k.

Lemma lens_insert (hs : list U64GroupedBitmap) (k : nat) p p' : hs !! k = Some p → Grouped.len p' = Grouped.len p →
  Grouped.len <$> <[k := p']> hs = Grouped.len <$> hs.
Proof.
  intros E El. apply list_eq. intros i. rewrite !list_lookup_fmap. destruct (decide (i = k)) as [->|].
  - rewrite list_lookup_insert_eq, E by (by eapply lookup_lt_Some). cbn. by rewrite El.
  - by rewrite list_lookup_insert_ne.
Qed.
Lemma lens_length b b' : (Grouped.len <$> heights b') = (Grouped.len <$> heights b) → length (heights b') = length (heights b).
Proof. intros E. by rewrite <-(length_fmap Grouped.len), E, length_fmap. Qed.
(** The level of the update: afterwards it agrees with the level below. *)
Lemma level_update p c e full : level_ok p → 0 ≤ e < Grouped.len p → Grouped.len p = div_ceil (Grouped.len c) 64 →
  (∀ i, i ≠ e → unset p i ↔ ∃ j, j / 64 = i ∧ unset c j) → (full = true ↔ ∀ j, j / 64 = e → ¬ unset c j) →
  ∃ full' p', (if full then Grouped.set p e else pair false <$> Grouped.clear p e) = Some (full', p')
    ∧ level_ok p' ∧ Grouped.len p' = Grouped.len p ∧ linked p' c ∧ (∀ j, j ≠ e → unset p' j ↔ unset p j)
    ∧ (full' = true ↔ ∀ j, j / 64 = e / 64 → ¬ unset p' j).
Proof.
  intros Hp He Hlen Hoth Hfull. destruct full.
  - destruct (Grouped.set_ok p e Hp He) as (full' & p' & E & Hp' & El & Hu & Hf). exists full', p'.
    assert (∀ j, j / 64 = e → ¬ unset c j) as Hno by by apply Hfull.
    split_and!; try done; [split; [congruence|]|intros j Hj; rewrite Hu; tauto].
    intros i. rewrite Hu. destruct (decide (i = e)) as [->|Hne]; [|rewrite Hoth by done; tauto].
    split; [tauto|]. intros (j & Ej & Hj). by destruct (Hno j Ej).
  - destruct (Grouped.clear_ok p e Hp He) as (p' & E & Hp' & El & Hu). exists false, p'. rewrite E.
    split_and!; try done; [split; [congruence|]|intros j Hj; rewrite Hu; tauto|].
    + intros i. rewrite Hu. destruct (decide (i = e)) as [->|Hne]; [|rewrite Hoth by done; tauto].
      split; [intros _|by right]. destruct (decide (Exists (λ j, j / 64 = e) (Grouped.unset_of 0 (Grouped.data c)))) as [Hex|Hno].
      * apply Exists_exists in Hex as (j & Hj%Grouped.elem_of_bits & Ej). eauto.
      * assert (false = true); [|done]. apply Hfull. intros j Ej Hj. apply Hno, Exists_exists.
        exists j. split; [by apply Grouped.elem_of_bits|done].
    + split; [done|]. intros Hno. destruct (Hno e eq_refl). apply Hu. by right.
Qed.
Lemma update_loop_ok h e full b : updating (heights b) h e full →
  ∃ b', update_loop h e full b = Some b' ∧ Forall level_ok (heights b') ∧ chain (heights b') ∧ same_below h b b'.
Proof.
  revert e full b. induction h as [|h IH]; intros e full b (Hl & Hch & p & c & Ep & Ec & Hlen & He & Hoth & Hfull);
    destruct (level_update p c e full) as (full' & p' & E & Hp' & El & Hlk & Hu & Hf); try done; try (by eapply Forall_lookup_1);
    cbn [update_loop]; unfold get_level, get_height; pose proof (lookup_lt_Some _ _ _ Ep) as Hlt;
    (rewrite (proj2 (Z.ltb_lt _ _)) by lia); cbn [check mbind option_bind]; rewrite Nat2Z.id, Ep; cbn [mbind option_bind];
    rewrite E; cbn [mbind option_bind]; unfold set_level; rewrite Nat2Z.id.
  - eexists. split; [done|]. cbn [heights]. split_and!; [by apply Forall_insert| |split].
    + intros k q d Hq Hd. destruct k as [|k].
      * rewrite list_lookup_insert_eq in Hq by done. rewrite list_lookup_insert_ne, Ec in Hd by done. congruence.
      * rewrite list_lookup_insert_ne in Hq, Hd by done. by eapply (Hch (S k)).
    + by apply (lens_insert _ _ p).
    + intros k Hk. cbn. by rewrite list_lookup_insert_ne by lia.
  - destruct (lookup_lt_is_Some_2 (heights b) h ltac:(lia)) as [q Eq].
    destruct (Hch h q p ltac:(lia) Eq Ep) as [Hqlen Hqlink].
    destruct (IH (e / 64) full' (mkBtree (<[S h := p']> (heights b)))) as (b' & Eb & Hl' & Hc' & Hlens & Hsame).
    { cbn [heights]. split_and!; [by apply Forall_insert| |].
      - intros k x y Hk Hx Hy. destruct (decide (k = S h)) as [->|].
        + rewrite list_lookup_insert_eq in Hx by done. rewrite list_lookup_insert_ne, Ec in Hy by lia. congruence.
        + rewrite list_lookup_insert_ne in Hx, Hy by lia. by eapply (Hch k).
      - exists q, p'. rewrite list_lookup_insert_ne, list_lookup_insert_eq, El by (done || lia). split_and!; try done.
        + apply Z.div_pos; lia.
        + rewrite Hqlen. by apply div_ceil_pos.
        + intros i Hi. rewrite Hqlink. split; intros (j & Ej & Hj); exists j; (split; [done|]); apply Hu; try done; intros ->; done. }
    exists b'. split_and!; try done. split.
    + rewrite Hlens. cbn [heights]. by apply (lens_insert _ _ p).
    + intros k Hk. rewrite Hsame by lia. cbn [heights]. by rewrite list_lookup_insert_ne by lia.
Qed.
(** A changed leaf: the tree above is brought to agree with it. *)
Lemma update_ok b n F g' i full F' : bt_ok b n F → 0 ≤ i < n →
  level_ok g' → Grouped.len g' = n → (∀ j, j ∈ F' ↔ unset g' j) → (∀ j, j ≠ i → j ∈ F' ↔ j ∈ F) →
  (full = true ↔ ∀ j, j / 64 = i / 64 → ¬ unset g' j) →
  ∃ b', update_to_root (set_level b (get_height b - 1) g') i full = Some b' ∧ bt_ok b' n F'.
Proof.
  intros Hb Hi Hg' Hn HF' Hoth Hfull. pose proof Hb as (Hl & Hc & Ht & (root & Er & Hr) & g & Eg & Hgn & HF).
  rewrite last_lookup in Eg. pose proof (lookup_lt_Some _ _ _ Eg) as Hlt. unfold update_to_root, set_level, get_height in *. cbn [heights].
  set (m := length (heights b)) in *. replace (Z.to_nat (Z.of_nat m - 1)) with (pred m) by lia.
  rewrite length_insert. fold m. destruct (Z.eqb_spec (Z.of_nat m) 1) as [H1|H1].
  - eexists. split; [done|]. unfold bt_ok. cbn [heights]. assert (pred m = 0)%nat as Hm by lia. rewrite Hm in *. split_and!.
    + by apply Forall_insert.
    + intros k p c Hp Hc'. apply lookup_lt_Some in Hc'. rewrite length_insert in Hc'. fold m in Hc'. lia.
    + unfold tall in *. by rewrite length_insert.
    + exists g'. rewrite list_lookup_insert_eq by (fold m; lia). rewrite Eg in Er. injection Er as ->. split; [done|lia].
    + exists g'. rewrite last_lookup, length_insert. fold m. rewrite Hm, list_lookup_insert_eq by (fold m; lia). done.
  - replace (Z.to_nat (Z.of_nat m - 2)) with (pred (pred m)) by lia. set (h := pred (pred m)).
    assert (pred m = S h) as Em by lia. rewrite Em in *. destruct (lookup_lt_is_Some_2 (heights b) h ltac:(lia)) as [p Ep].
    destruct (Hc h p g Ep Eg) as [Hplen Hplink].
    destruct (update_loop_ok h (i / 64) full (mkBtree (<[S h := g']> (heights b)))) as (b' & E & Hl' & Hc' & Hlens & Hsame).
    { cbn [heights]. split_and!; [by apply Forall_insert| |].
      - intros k x y Hk Hx Hy. destruct (decide (k = S h)) as [->|].
        + apply lookup_lt_Some in Hy. rewrite length_insert in Hy. fold m in Hy. lia.
        + rewrite list_lookup_insert_ne in Hx, Hy by lia. by eapply (Hc k).
      - exists p, g'. rewrite list_lookup_insert_ne, list_lookup_insert_eq by (done || lia). split_and!; try done.
        + congruence.
        + apply Z.div_pos; lia.
        + rewrite Hplen. apply div_ceil_pos. lia.
        + intros e He. rewrite Hplink. split; intros (j & Ej & Hj); exists j; (split; [done|]).
          * apply HF', Hoth; [intros ->; done|]. by apply HF.
          * apply HF, Hoth; [intros ->; done|]. by apply HF'. }
    exists b'. split; [done|]. cbn [heights] in Hlens, Hsame. rewrite (lens_insert _ _ g) in Hlens by (done || congruence).
    pose proof (lens_length _ _ Hlens) as Hm'. split_and!; try done.
    + unfold tall in *. by rewrite Hm'.
    + destruct (lookup_lt_is_Some_2 (heights b') 0 ltac:(lia)) as [r Hr']. exists r. split; [done|].
      pose proof (f_equal (λ l, l !! 0%nat) Hlens) as Hx. cbn beta in Hx. rewrite !list_lookup_fmap, Hr', Er in Hx.
      cbn in Hx. injection Hx as ->. done.
    + exists g'. rewrite last_lookup, Hm'. fold m. rewrite Em, Hsame by lia.
      rewrite list_lookup_insert_eq by (fold m; lia). done.
Qed.

Lemma bt_set b n F i : bt_ok b n F → 0 ≤ i < n → ∃ b', set b i = Some b' ∧ bt_ok b' n (F ∖ {[i]}).
Proof.
  intros H Hi. destruct (leaf_ok _ _ _ H) as (g & E & _ & Hg & Hn & HF). unfold set. rewrite E. cbn [mbind option_bind].
  destruct (Grouped.set_ok g i Hg ltac:(lia)) as (full & g' & Es & Hg' & El & Hu & Hf). rewrite Es. cbn [mbind option_bind].
  apply (update_ok b n F); [done|done|done|congruence| |set_solver|done].
  intros j. rewrite Hu, <-HF. set_solver.
Qed.
Lemma bt_clear b n F i : bt_ok b n F → 0 ≤ i < n → ∃ b', clear b i = Some b' ∧ bt_ok b' n (F ∪ {[i]}).
Proof.
  intros H Hi. destruct (leaf_ok _ _ _ H) as (g & E & _ & Hg & Hn & HF). unfold clear. rewrite E. cbn [mbind option_bind].
  destruct (Grouped.clear_ok g i Hg ltac:(lia)) as (g' & Es & Hg' & El & Hu). rewrite Es. cbn [mbind option_bind].
  apply (update_ok b n F); [done|done|done|congruence| |set_solver|].
  - intros j. rewrite Hu, <-HF. set_solver.
  - split; [done|]. intros Hno. destruct (Hno i eq_refl). apply Hu. by right.
Qed.
Lemma bt_alloc b n F : bt_ok b n F →
  ∃ r b', alloc b = Some (r, b') ∧ match r with
    | Some x => x ∈ F ∧ (∀ j, j ∈ F → x ≤ j) ∧ bt_ok b' n (F ∖ {[x]})
    | None => F = ∅ ∧ b' = b
    end.
Proof.
  intros H. unfold alloc. destruct (find_first_ok _ _ _ H) as (r & -> & Hr). cbn [mbind option_bind]. destruct r as [x|].
  - destruct Hr as [Hx Hmin]. destruct (bt_set b n F x H) as (b' & -> & Hb'); [by eapply bt_bound|]. by exists (Some x), b'.
  - by exists None, b.
Qed.

End represents.
Arguments bt_ok cap b n F : clear implicits.

(** A new tree has no free id. *)
Definition upchain (l : list U64GroupedBitmap) : Prop :=
  ∀ k c p, l !! k = Some c → l !! S k = Some p → linked p c.
Lemma chain_reverse l : upchain l → chain (reverse l).
Proof.
  intros Hl k p c Hp Hc. apply lookup_lt_Some in Hc as Hlt. rewrite length_reverse in Hlt.
  rewrite reverse_lookup in Hp, Hc by lia. apply (Hl (length l - S (S k))%nat); [done|].
  rewrite <-Hp. f_equal. lia.
Qed.
Lemma upchain_reverse l : chain l → upchain (reverse l).
Proof.
  intros Hl k p c Hp Hc. apply lookup_lt_Some in Hc as Hlt. rewrite length_reverse in Hlt.
  rewrite reverse_lookup in Hp, Hc by lia. apply (Hl (length l - S (S k))%nat); [done|].
  rewrite <-Hp. f_equal. lia.
Qed.
Lemma upchain_cons g l : upchain l → (∀ p, l !! 0%nat = Some p → linked p g) → upchain (g :: l).
Proof. intros Hl Hg [|k] c p Hc Hp; cbn in Hc, Hp; [injection Hc as <-; by apply Hg|by eapply (Hl k)]. Qed.
Lemma div_ceil_mono a b : a ≤ b → div_ceil a 64 ≤ div_ceil b 64.
Proof. intros. apply Z.div_le_mono; lia. Qed.
Lemma div_ceil_nonneg a : 0 ≤ a → 0 ≤ div_ceil a 64.
Proof. intros. apply Z.div_pos; lia. Qed.
Lemma div_ceil_pow a n : a ≤ 64 ^ Z.of_nat (S n) → div_ceil a 64 ≤ 64 ^ Z.of_nat n.
Proof.
  rewrite Nat2Z.inj_succ, Z.pow_succ_r by lia. intros Ha. unfold div_ceil.
  pose proof (Z.div_le_mono (a + 64 - 1) (64 ^ Z.of_nat n * 64 + 63) 64 ltac:(lia) ltac:(lia)) as Hd.
  rewrite Z.div_add_l, (Z.div_small 63) in Hd by lia. lia.
Qed.
(** Levels of taken ids, the leaf first. *)
Definition taken (l : list U64GroupedBitmap) : Prop :=
  Forall (λ g, level_ok g ∧ ∀ i, ¬ unset g i) l ∧ upchain l.
Lemma linked_taken p c : Grouped.len p = div_ceil (Grouped.len c) 64 →
  (∀ i, ¬ unset p i) → (∀ i, ¬ unset c i) → linked p c.
Proof. intros El Hp Hc. split; [done|]. intros i. split; [by intros ?%Hp|by intros (j & _ & ?%Hc)]. Qed.
Lemma new_levels_ok fuel n c : 0 ≤ n ≤ c → c ≤ 64 ^ Z.of_nat fuel → (0 < fuel)%nat →
  ∃ l, new_levels fuel n c = Some l ∧ taken l ∧ (length l ≤ fuel)%nat ∧ n ≤ 64 ^ Z.of_nat (length l)
    ∧ (∃ g, l !! 0%nat = Some g ∧ Grouped.len g = n) ∧ ∃ r, last l = Some r ∧ Grouped.len r ≤ 64.
Proof.
  revert n c. induction fuel as [|fuel IH]; intros n c Hn Hc Hf; [lia|]. cbn [new_levels].
  destruct (Grouped.new_full_ok n c Hn) as [Hok Hno]. destruct (Z.leb_spec c 64) as [H64|H64].
  - eexists. split; [done|]. unfold taken. split_and!; cbn; [by apply Forall_cons_2, Forall_nil_2| |lia|lia|by eexists|eexists; split; [done|cbn; lia]].
    intros k x y Hx Hy. destruct k; done.
  - destruct fuel as [|fuel]; [cbn in Hc; lia|].
    destruct (IH (div_ceil n 64) (div_ceil c 64)) as (l & -> & [Hl Hup] & Hlen & Hpow & (g & Eg & Hg) & r & Er & Hr).
    { split; [by apply div_ceil_nonneg; lia|]. apply div_ceil_mono. lia. }
    { by apply div_ceil_pow. }
    { lia. }
    eexists. split; [done|]. unfold taken. split_and!; [by constructor| |cbn; lia| |by eexists|].
    + apply upchain_cons; [done|]. intros p Hp. rewrite Eg in Hp. injection Hp as <-.
      apply linked_taken; [done| |done]. by apply (Forall_lookup_1 _ _ _ _ Hl Eg).
    + cbn [length]. rewrite Nat2Z.inj_succ, Z.pow_succ_r by lia. unfold div_ceil in Hpow.
      pose proof (Z.div_mod (n + 64 - 1) 64 ltac:(lia)). pose proof (Z.mod_pos_bound (n + 64 - 1) 64 ltac:(lia)). lia.
    + exists r. destruct l; [done|]. done.
Qed.
Lemma height_loop_ok fuel h c : 0 ≤ h → c ≤ 64 ^ Z.of_nat fuel → (0 < fuel)%nat →
  ∃ k, height_loop fuel (h + 1) c = Some (h + Z.of_nat k) ∧ (0 < k ≤ fuel)%nat ∧ c ≤ 64 ^ Z.of_nat k.
Proof.
  revert h c. induction fuel as [|fuel IH]; intros h c Hh Hc Hf; [lia|]. cbn [height_loop].
  destruct (Z.ltb_spec 64 c) as [H64|H64].
  - destruct fuel as [|fuel]; [cbn in Hc; lia|].
    destruct (IH (h + 1) (div_ceil c 64)) as (k & -> & Hk & Hpow); [lia|by apply div_ceil_pow|lia|].
    exists (S k). split_and!; [f_equal; lia|lia|lia|]. rewrite Nat2Z.inj_succ, Z.pow_succ_r by lia. unfold div_ceil in Hpow.
    pose proof (Z.div_mod (c + 64 - 1) 64 ltac:(lia)). pose proof (Z.mod_pos_bound (c + 64 - 1) 64 ltac:(lia)). lia.
  - exists 1%nat. split_and!; [done|lia|lia|]. cbn. lia.
Qed.
Lemma pad_ok k hs g : taken (reverse hs) → last hs = Some g → (∃ r, hs !! 0%nat = Some r ∧ Grouped.len r ≤ 64) →
  ∃ hs', pad k hs = Some hs' ∧ taken (reverse hs') ∧ last hs' = Some g ∧ length hs' = (k + length hs)%nat
    ∧ ∃ r, hs' !! 0%nat = Some r ∧ Grouped.len r ≤ 64.
Proof.
  revert hs. induction k as [|k IH]; intros hs Ht Hg (r & Er & Hr); cbn [pad]; [by eauto 10|].
  rewrite Er. cbn [mbind option_bind]. set (n := div_ceil (Grouped.len r) 64). destruct hs as [|r' hs]; [done|]. injection Er as ->.
  destruct Ht as [Hl Hup]. assert (level_ok r ∧ ∀ i, ¬ unset r i) as [Hrok Hrno].
  { rewrite Forall_forall in Hl. apply Hl, elem_of_reverse. by left. }
  assert (0 ≤ n) as Hn by (apply div_ceil_nonneg; apply Hrok).
  destruct (Grouped.new_full_ok n n ltac:(lia)) as [Hok Hno].
  destruct (IH (Grouped.new_full n n :: r :: hs)) as (hs' & -> & Ht' & Hg' & Hlen & Hr'); [|done| |].
  - split.
    + apply Forall_reverse in Hl. rewrite reverse_involutive in Hl. by apply Forall_reverse, Forall_cons.
    + apply upchain_reverse. intros [|j] p c Hp Hc.
      * cbn in Hp, Hc. injection Hp as <-. injection Hc as <-. by apply linked_taken.
      * apply chain_reverse in Hup. rewrite reverse_involutive in Hup. by apply (Hup j).
  - exists (Grouped.new_full n n). split; [done|]. cbn. unfold n, div_ceil.
    pose proof (Z.div_le_mono (Grouped.len r + 64 - 1) (64 + 63) 64 ltac:(lia) ltac:(lia)) as Hd. change ((64 + 63) / 64) with 1 in Hd. lia.
  - exists hs'. split_and!; try done. rewrite Hlen. cbn. lia.
Qed.
Lemma new_padded_ok cap n : 0 ≤ n ≤ cap → cap < 2 ^ 32 → ∃ b, new_padded n n cap = Some b ∧ bt_ok cap b n ∅.
Proof.
  intros Hn Hcap. assert (2 ^ 32 ≤ 64 ^ Z.of_nat LEVELS) as Hpow by (vm_compute; discriminate).
  unfold new_padded, new, height_for_capacity.
  destruct (new_levels_ok LEVELS n n ltac:(lia) ltac:(lia) ltac:(unfold LEVELS; lia)) as (l & -> & Ht & Hlen & Hpn & (g & Eg & Hg) & r & Er & Hr).
  destruct (height_loop_ok LEVELS 0 cap ltac:(lia) ltac:(lia) ltac:(unfold LEVELS; lia)) as (k & Ek & Hk & Hpc).
  change (0 + 1) with 1 in Ek. rewrite Ek.
  cbn [fmap option_fmap option_map mbind option_bind heights]. rewrite length_reverse, Z.add_0_l, Nat2Z.id.
  pose proof (lookup_lt_Some _ _ _ Eg) as Hl0.
  destruct (pad_ok (k - length l) (reverse l) g) as (hs & -> & [Hl Hup] & Hlast & Hlh & r' & Er' & Hr').
  - by rewrite reverse_involutive.
  - rewrite last_reverse. by destruct l.
  - exists r. rewrite reverse_lookup by lia. rewrite last_lookup in Er. rewrite <-Er. split; [f_equal; lia|done].
  - rewrite length_reverse in Hlh. eexists. split; [done|]. unfold bt_ok. cbn [heights]. split_and!.
    + apply Forall_reverse in Hl. rewrite reverse_involutive in Hl. eapply Forall_impl; [exact Hl|]. by intros x [? _].
    + apply chain_reverse in Hup. by rewrite reverse_involutive in Hup.
    + unfold tall. split_and!; [lia| |lia]. etrans; [exact Hpc|]. apply Z.pow_le_mono_r; lia.
    + by exists r'.
    + exists g. split_and!; try done. intros i. split; [by intros ?%elem_of_empty|]. intros Hi. exfalso.
      apply last_Some in Hlast as [hs0 ->]. rewrite Forall_forall in Hl.
      destruct (Hl g) as [_ Hno]; [|by apply (Hno i)]. apply elem_of_reverse, elem_of_app. right. by left.
Qed.

(** Growing and shrinking keeps the free ids. *)
Lemma resize_levels_ok l m : Forall level_ok l → upchain l → 0 ≤ m → l ≠ [] → m ≤ 64 ^ Z.of_nat (length l) →
  (∀ c, l !! 0%nat = Some c → ∀ i, unset c i → i < m) →
  ∃ l', resize_levels l m true = Some l' ∧ length l' = length l ∧ Forall level_ok l' ∧ upchain l'
    ∧ (∃ c c', l !! 0%nat = Some c ∧ l' !! 0%nat = Some c' ∧ Grouped.len c' = m ∧ ∀ i, unset c' i ↔ unset c i)
    ∧ ∃ r, last l' = Some r ∧ Grouped.len r ≤ 64.
Proof.
  revert m. induction l as [|c l IH]; intros m Hl Hup Hm Hne Hpow Hun; [done|]. cbn [resize_levels].
  apply Forall_cons in Hl as [Hc Hl]. destruct (Grouped.resize_ok c m Hc Hm (Hun c eq_refl)) as (c' & -> & Hc' & El & Hu).
  cbn [mbind option_bind]. destruct l as [|p l].
  - cbn [resize_levels]. eexists. split; [done|]. split_and!; [done|by apply Forall_cons_2, Forall_nil_2| |by eexists _, _|].
    + intros [|k] x y Hx Hy; done.
    + exists c'. split; [done|]. rewrite El. cbn [length] in Hpow. lia.
  - destruct (Hup 0%nat c p eq_refl eq_refl) as [Hplen Hplink].
    destruct (IH (div_ceil m 64)) as (l' & -> & Hlen & Hl' & Hup' & (p0 & p' & Ep0 & Ep' & Hp' & Hpu) & Hr); try done.
    { intros k x y Hx Hy. by apply (Hup (S k)). }
    { by apply div_ceil_nonneg. }
    { by apply div_ceil_pow. }
    { intros x [= <-] i Hi. apply Hplink in Hi as (j & <- & Hj). apply div_ceil_pos. split; [apply Hj|by apply (Hun c)]. }
    injection Ep0 as <-. eexists. split; [done|]. split_and!; [cbn in *; lia|by constructor| |by eexists _, _|].
    + apply upchain_cons; [done|]. intros y Hy. rewrite Ep' in Hy. injection Hy as <-. split; [congruence|].
      intros i. rewrite Hpu, Hplink. split; intros (j & Ej & Hj); exists j; (split; [done|]); by apply Hu.
    + destruct Hr as (r & Er & Hr). exists r. split; [|done]. destruct l'; [done|]. done.
Qed.
Lemma bt_resize cap b n F m : bt_ok cap b n F → 0 ≤ m ≤ cap → (∀ i, i ∈ F → i < m) →
  ∃ b', resize b m true = Some b' ∧ bt_ok cap b' m F.
Proof.
  intros (Hl & Hc & (Hn & Hcap & HL) & (root & Er & Hr) & g & Eg & Hgn & HF) Hm Hun. unfold resize.
  pose proof (lookup_lt_Some _ _ _ Er) as Hlen0.
  assert (reverse (heights b) !! 0%nat = Some g) as Eg' by (rewrite reverse_lookup by lia; rewrite last_lookup in Eg; rewrite <-Eg; f_equal; lia).
  destruct (resize_levels_ok (reverse (heights b)) m) as (l' & -> & Hlen & Hl' & Hup & (c & c' & Ec & Ec' & Hcm & Hcu) & r & Elr & Hlr).
  - by apply Forall_reverse.
  - by apply upchain_reverse.
  - lia.
  - intros E. by rewrite E in Eg'.
  - rewrite length_reverse. lia.
  - intros c Hcg i Hi. rewrite Eg' in Hcg. injection Hcg as <-. by apply Hun, HF.
  - rewrite length_reverse in Hlen. rewrite Eg' in Ec. injection Ec as <-. cbn [mbind option_bind]. unfold get_level, get_height. cbn [heights].
    rewrite length_reverse, (proj2 (Z.ltb_lt _ _)) by lia. cbn [check mbind option_bind]. change (Z.to_nat 0) with 0%nat.
    assert (reverse l' !! 0%nat = Some r) as Er' by (rewrite reverse_lookup by lia; rewrite last_lookup in Elr; rewrite <-Elr; f_equal; lia).
    rewrite Er'. cbn [mbind option_bind]. rewrite (proj2 (Z.leb_le _ _)) by done. cbn [check mbind option_bind].
    eexists. split; [done|]. unfold bt_ok, tall. cbn [heights]. rewrite length_reverse. split_and!; try done; try lia.
    + by apply Forall_reverse.
    + by apply chain_reverse.
    + rewrite Hlen. lia.
    + by exists r.
    + exists c'. split_and!; [|done|intros i; by rewrite HF, Hcu]. rewrite last_reverse. by destruct l'.
Qed.

(** Stored and read back: the same set of free ids. *)
Lemma level_bounds hs g k c : Forall level_ok hs → chain hs → last hs = Some g → hs !! k = Some c → Grouped.len c ≤ Grouped.len g.
Proof.
  intros Hl Hc Hg Hk. rewrite last_lookup in Hg.
  assert (∀ j c, (j < length hs)%nat → hs !! (pred (length hs) - j)%nat = Some c → Grouped.len c ≤ Grouped.len g) as H.
  { intros j. induction j as [|j IH]; intros x Hj Hx; [rewrite Nat.sub_0_r in Hx; by simplify_eq|].
    destruct (lookup_lt_is_Some_2 hs (pred (length hs) - j)%nat ltac:(lia)) as [y Ey].
    specialize (IH y ltac:(lia) Ey). destruct (Hc (pred (length hs) - S j)%nat x y Hx) as [El _].
    { rewrite <-Ey. f_equal. lia. }
    pose proof (proj1 (Forall_lookup_1 _ _ _ _ Hl Ey)) as Hy. rewrite El. unfold div_ceil.
    pose proof (Z.div_mod (Grouped.len y + 64 - 1) 64 ltac:(lia)). pose proof (Z.mod_pos_bound (Grouped.len y + 64 - 1) 64 ltac:(lia)). lia. }
  pose proof (lookup_lt_Some _ _ _ Hk). apply (H (pred (length hs) - k)%nat); [lia|]. rewrite <-Hk. f_equal. lia.
Qed.
Lemma length_mjoin (parts : list bytes) m : Forall (λ v, Z.of_nat (length v) ≤ m) parts → Z.of_nat (length (mjoin parts)) ≤ Z.of_nat (length parts) * m.
Proof. induction 1 as [|v parts Hv _ IH]; [done|]. rewrite mjoin_cons, length_app. cbn [length]. lia. Qed.
Definition LARGEST : Z := 2 ^ 20.
Lemma bt_codec cap b n F : bt_ok cap b n F → cap ≤ LARGEST →
  ∃ v b', to_vec b = Some v ∧ from_bytes v = Some b' ∧ bt_ok cap b' n F ∧ Z.of_nat (length v) < 2 ^ 27.
Proof.
  intros Hb Hcap. pose proof (bt_nonneg _ _ _ Hb) as Hn0. destruct Hb as (Hl & Hc & (Hn & Ht & HL) & (root & Er & Hr) & g & Eg & <- & HF).
  assert (∀ x, x ∈ heights b → ∃ v, Grouped.to_vec x = Some v ∧ (Z.of_nat (length v) ≤ 2 ^ 24 ∧ ∃ x', Grouped.from_bytes v = Some x'
    ∧ level_ok x' ∧ Grouped.len x' = Grouped.len x ∧ ∀ i, unset x' i ↔ unset x i)) as Hvec.
  { intros x [k Hk]%list_elem_of_lookup. pose proof (level_bounds _ _ _ _ Hl Hc Eg Hk) as Hle. unfold LARGEST in Hcap.
    destruct (Grouped.to_vec_ok x) as (v & Ev & Hlen & Hx'); [by eapply Forall_lookup_1|lia|]. exists v. split_and!; [done| |done].
    rewrite Hlen. unfold Grouped.required_words, div_ceil. pose proof (Z.div_le_mono (Grouped.len x + 64 - 1) (2 ^ 20 + 63) 64 ltac:(lia) ltac:(lia)) as Hd.
    change ((2 ^ 20 + 63) / 64) with 16384 in Hd. lia. }
  destruct (mapM_image _ _ _ Hvec) as (vecs & Evecs & Hall). pose proof (Forall2_length _ _ _ Hall) as Hlv.
  assert (∃ hs, Forall2 (λ v x, Grouped.from_bytes v = Some x) vecs hs
    ∧ Forall2 (λ x x', level_ok x' ∧ Grouped.len x' = Grouped.len x ∧ ∀ i, unset x' i ↔ unset x i) (heights b) hs) as (hs & Hparse & Hsame).
  { clear -Hall. induction Hall as [|x v l vs (_ & x' & E & Hx') _ (hs & H1 & H2)]; [by exists []|]. exists (x' :: hs). split; by constructor. }
  assert (Forall (λ v, Z.of_nat (length v) ≤ 2 ^ 24) vecs) as Hsize.
  { clear -Hall. induction Hall as [|x v l vs [Hv _] _ IH]; by constructor. }
  apply length_mjoin in Hsize. unfold LEVELS in HL. unfold get_height, to_vec. unfold get_height.
  destruct (write_ends_ok (4 + 4 * Z.of_nat (length (heights b))) vecs) as (ends & Ee & Hle); [lia|lia|].
  rewrite try_u32_Some by lia. cbn [mbind option_bind]. rewrite Evecs. cbn [mbind option_bind]. rewrite Ee. cbn [mbind option_bind].
  eexists _, (mkBtree hs). split; [done|]. unfold from_bytes. split; [|split].
  - assert (u32_at (le_bytes 4 (Z.of_nat (length (heights b))) ++ ends ++ mjoin vecs) 0 = Some (Z.of_nat (length (heights b)))) as ->
      by (apply (u32_at_mid []); [done|lia]). cbn [mbind option_bind]. rewrite Nat2Z.id.
    pose proof (read_parts_ok Grouped.from_bytes (le_bytes 4 (Z.of_nat (length (heights b)))) ends [] vecs hs _ Hparse Ee) as Hrp.
    rewrite length_le_bytes in Hrp. cbn [app] in Hrp. change (Z.of_nat 4) with 4 in Hrp. rewrite <-Hlv in Hrp. rewrite Hrp; [done|].
    rewrite !length_app, length_le_bytes, Hle. cbn [length]. lia.
  - pose proof (Forall2_length _ _ _ Hsame) as Hlh. unfold bt_ok. cbn [heights]. split_and!.
    + clear -Hsame. induction Hsame as [|x x' l l' [? _] _ IH]; by constructor.
    + intros k p c Hp Hc'. destruct (Forall2_lookup_r _ _ _ _ _ Hsame Hp) as (p0 & Ep0 & _ & Elp & Hup).
      destruct (Forall2_lookup_r _ _ _ _ _ Hsame Hc') as (c0 & Ec0 & _ & Elc & Huc).
      destruct (Hc k p0 c0 Ep0 Ec0) as [Elen Hlink]. split; [congruence|]. intros i. rewrite Hup, Hlink.
      split; intros (j & Ej & Hj); exists j; (split; [done|]); by apply Huc.
    + unfold tall, LEVELS. rewrite <-Hlh. done.
    + destruct (Forall2_lookup_l _ _ _ _ _ Hsame Er) as (r' & Er' & _ & Elr & _). exists r'. split; [done|lia].
    + rewrite last_lookup in Eg |- *. rewrite <-Hlh. destruct (Forall2_lookup_l _ _ _ _ _ Hsame Eg) as (g' & Eg' & _ & Elg & Hug).
      exists g'. split_and!; try done. intros i. by rewrite Hug, HF.
  - rewrite !length_app, length_le_bytes, Hle. lia.
Qed.

(** * The tree against a plain set *)

Inductive Op := Get (i : Z) | Take (i : Z) | Free (i : Z) | Alloc | CountUnset | Resize (m : Z).
Inductive Outcome := Bit (v : bool) | Id (o : option Z) | Number (z : Z) | Done.
Definition bt_step (b : BtreeBitmap) (op : Op) : option (Outcome * BtreeBitmap) :=
  match op with
  | Get i => v ← get b i; Some (Bit v, b)
  | Take i => pair Done <$> set b i
  | Free i => pair Done <$> clear b i
  | Alloc => '(r, b) ← alloc b; Some (Id r, b)
  | CountUnset => z ← count_unset b; Some (Number z, b)
  | Resize m => pair Done <$> resize b m true
  end.
(** The reference: a length and the set of free ids, searched from the first id
    on.  [None] is a use outside the contract: an id past the length, a length
    past the capacity or below a free id. *)
Definition first_free (n : Z) (F : gset Z) : option Z := head (filter (.∈ F) (seqZ 0 n)).
Definition set_step (cap : Z) (s : Z * gset Z) (op : Op) : option (Outcome * (Z * gset Z)) :=
  let '(n, F) := s in
  match op with
  | Get i => if decide (0 ≤ i < n) then Some (Bit (bool_decide (i ∉ F)), (n, F)) else None
  | Take i => if decide (0 ≤ i < n) then Some (Done, (n, F ∖ {[i]})) else None
  | Free i => if decide (0 ≤ i < n) then Some (Done, (n, F ∪ {[i]})) else None
  | Alloc => let r := first_free n F in Some (Id r, (n, match r with Some x => F ∖ {[x]} | None => F end))
  | CountUnset => Some (Number (Z.of_nat (size F)), (n, F))
  | Resize m => if decide (0 ≤ m ≤ cap ∧ set_Forall (λ i, i < m) F) then Some (Done, (m, F)) else None
  end.
Fixpoint run {S} (step : S → Op → option (Outcome * S)) (s : S) (ops : list Op) : option (list Outcome) :=
  match ops with
  | [] => Some []
  | op :: ops => '(o, s) ← step s op; cons o <$> run step s ops
  end.

Lemma first_free_min n F x : (∀ j, j ∈ F → 0 ≤ j < n) → x ∈ F → (∀ j, j ∈ F → x ≤ j) → first_free n F = Some x.
Proof.
  intros HF Hx Hmin. unfold first_free. pose proof (HF x Hx) as Hr.
  replace n with (x + (1 + (n - x - 1))) by lia. rewrite !seqZ_app by lia. rewrite filter_app, (filter_nil_all _ (seqZ 0 x)).
  - cbn [app]. rewrite filter_app. rewrite Z.add_0_l. rewrite (seqZ_cons x 1) by lia. cbn [app].
    rewrite filter_cons_True by done. done.
  - apply Forall_forall. intros j Hj%elem_of_seqZ Hin. specialize (Hmin j Hin). lia.
Qed.
Lemma bt_step_ok cap b n F op o s' : bt_ok cap b n F → set_step cap (n, F) op = Some (o, s') →
  ∃ b', bt_step b op = Some (o, b') ∧ bt_ok cap b' s'.1 s'.2.
Proof.
  intros Hb. destruct op; cbn [set_step bt_step]; try case_decide as Hd; try done; intros [= <- <-].
  - rewrite (bt_get _ _ _ _ Hb Hd). by exists b.
  - destruct (bt_set _ _ _ _ Hb Hd) as (b' & -> & Hb'). by exists b'.
  - destruct (bt_clear _ _ _ _ Hb Hd) as (b' & -> & Hb'). by exists b'.
  - destruct (bt_alloc _ _ _ Hb) as (r & b' & -> & Hr). exists b'. cbn [mbind option_bind fst snd].
    assert (∀ j, j ∈ F → 0 ≤ j < n) as HF by (intros j; by eapply bt_bound). destruct r as [x|].
    + destruct Hr as (Hx & Hmin & Hb'). by rewrite (first_free_min n F x).
    + destruct Hr as [-> ->]. unfold first_free. rewrite filter_nil_all; [done|]. apply Forall_forall. set_solver.
  - rewrite (bt_count _ _ _ Hb). by exists b.
  - destruct Hd as [Hm HF]. destruct (bt_resize _ _ _ _ m Hb Hm HF) as (b' & -> & Hb'). by exists b'.
Qed.
Lemma run_ok cap b n F ops os : bt_ok cap b n F → run (set_step cap) (n, F) ops = Some os → run bt_step b ops = Some os.
Proof.
  revert b n F os. induction ops as [|op ops IH]; intros b n F os Hb; cbn [run]; [done|].
  destruct (set_step cap (n, F) op) as [[o [n' F']]|] eqn:E; [|done].
  destruct (bt_step_ok _ _ _ _ _ _ _ Hb E) as (b' & -> & Hb'). cbn [mbind option_bind].
  destruct (run _ (n', F') ops) as [os'|] eqn:Er; [|done]. cbn [fmap option_fmap option_map]. intros [= <-].
  by rewrite (IH _ _ _ _ Hb' Er).
Qed.

(** C32: the tree of bitmaps answers every sequence of operations as a plain set of
    free ids does that is searched from the first id on; in particular it never
    panics while its ids are in range, and allocation takes the lowest free id. *)
Theorem bitmap_tree_equivalent cap n ops os :
  0 ≤ n ≤ cap → cap < 2 ^ 32 → run (set_step cap) (n, ∅) ops = Some os →
  ∃ b, new_padded n n cap = Some b ∧ run bt_step b ops = Some os.
Proof.
  intros Hn Hcap Hr. destruct (new_padded_ok cap n Hn Hcap) as (b & Eb & Hb). exists b. split; [done|].
  by eapply run_ok.
Qed.

Definition demo_ops : list Op := [Free 129; Free 5; Get 5; CountUnset; Alloc; Get 5; Resize 200; Free 199; Alloc; Alloc; Alloc].
Lemma bitmap_tree_equivalent_witness :
  ∃ b, new_padded 130 130 1000000 = Some b
    ∧ run bt_step b demo_ops = Some [Done; Done; Bit false; Number 2; Id (Some 5); Bit true; Done; Done; Id (Some 129); Id (Some 199); Id None].
Proof.
  apply (bitmap_tree_equivalent 1000000 130 demo_ops); [lia|lia|]. vm_compute. reflexivity.
Defined.

End Bitmap.
