(* ===== verification/RedbBlocks.v ===== *)
(** RedbBlocks: aligned blocks of pages, and sets of them.

    The block [p] of order [o] is the pages [p * 2^o .. (p + 1) * 2^o - 1].  A
    family [A] gives for every order the free blocks; [family_ok] is what the
    buddy allocator keeps: no page is in two of them, and two buddies are never
    both in it.  Such a family is determined by its pages. *)
From S2P Require Import Prelude.
Local Open Scope Z_scope.

Definition family := Z → gset Z.
(** The buddy of a block, the other half of the block above. *)
Definition buddy (p : Z) : Z := Z.lxor p 1.
Definition covers (A : family) (x : Z) : Prop := ∃ o, x / 2 ^ o ∈ A o.
Definition family_ok (top : Z) (A : family) : Prop :=
  (∀ o p, p ∈ A o → 0 ≤ o ≤ top ∧ 0 ≤ p)
  ∧ (∀ x o1 o2, x / 2 ^ o1 ∈ A o1 → x / 2 ^ o2 ∈ A o2 → o1 = o2)
  ∧ ∀ o p, o < top → p ∈ A o → buddy p ∉ A o.
Definition update (A : family) (o : Z) (F : gset Z) : family := λ o', if decide (o' = o) then F else A o'.

Lemma update_same A o F : update A o F o = F.
Proof. unfold update. by rewrite decide_True. Qed.
Lemma update_other A o F o' : o' ≠ o → update A o F o' = A o'.
Proof. intros. unfold update. by rewrite decide_False. Qed.

(** ** Arithmetic of blocks *)
Lemma buddy_eq p : buddy p = p + 1 - 2 * (p `mod` 2).
Proof.
  assert (∀ q, Z.lxor (2 * q) 1 = 2 * q + 1) as He.
  { intros q. symmetry. apply Z.add_nocarry_lxor. change 1 with (Z.ones 1). rewrite Z.land_ones by lia.
    rewrite Z.mul_comm. apply Z.mod_mul. lia. }
  unfold buddy. pose proof (Z.div_mod p 2 ltac:(lia)) as Ep. pose proof (Z.mod_pos_bound p 2 ltac:(lia)).
  destruct (decide (p `mod` 2 = 0)) as [E|E].
  - rewrite E. rewrite Ep at 1. rewrite E, Z.add_0_r, He. lia.
  - assert (p `mod` 2 = 1) as E1 by lia. rewrite E1. rewrite Ep at 1. rewrite E1, <-He, Z.lxor_assoc, Z.lxor_nilpotent, Z.lxor_0_r. lia.
Qed.
Lemma buddy_half p : buddy p / 2 = p / 2 ∧ buddy p ≠ p ∧ buddy (buddy p) = p.
Proof.
  rewrite !buddy_eq. pose proof (Z.div_mod p 2 ltac:(lia)). pose proof (Z.mod_pos_bound p 2 ltac:(lia)).
  set (r := p `mod` 2) in *. set (q := p + 1 - 2 * r).
  pose proof (Z.div_mod q 2 ltac:(lia)). pose proof (Z.mod_pos_bound q 2 ltac:(lia)). unfold q in *. lia.
Qed.
Lemma half_cases p q : p / 2 = q ↔ p = 2 * q ∨ p = 2 * q + 1.
Proof.
  pose proof (Z.div_mod p 2 ltac:(lia)). pose proof (Z.mod_pos_bound p 2 ltac:(lia)). lia.
Qed.
Lemma siblings p q : p / 2 = q / 2 ↔ q = p ∨ q = buddy p.
Proof.
  rewrite buddy_eq. pose proof (Z.div_mod p 2 ltac:(lia)). pose proof (Z.mod_pos_bound p 2 ltac:(lia)).
  pose proof (Z.div_mod q 2 ltac:(lia)). pose proof (Z.mod_pos_bound q 2 ltac:(lia)). lia.
Qed.
Lemma pow_pos o : 0 ≤ o → 0 < 2 ^ o.
Proof. intros. by apply Z.pow_pos_nonneg. Qed.
Lemma pow_succ o : 0 ≤ o → 2 ^ (o + 1) = 2 * 2 ^ o.
Proof. intros. by rewrite Z.add_1_r, Z.pow_succ_r. Qed.
Lemma pow_split o k : 0 ≤ o ≤ k → 2 ^ k = 2 ^ o * 2 ^ (k - o).
Proof. intros. rewrite <-Z.pow_add_r by lia. f_equal. lia. Qed.
(** The block of a page, in steps. *)
Lemma block_up x o k : 0 ≤ o ≤ k → x / 2 ^ k = x / 2 ^ o / 2 ^ (k - o).
Proof. intros. rewrite (pow_split o k) by done. rewrite Z.div_div; [done|apply Z.pow_nonzero; lia|apply pow_pos; lia]. Qed.
Lemma block_succ x o : 0 ≤ o → x / 2 ^ (o + 1) = x / 2 ^ o / 2.
Proof. intros. rewrite (block_up x o) by lia. by replace (o + 1 - o) with 1 by lia. Qed.
Lemma block_range x o p : 0 ≤ o → x / 2 ^ o = p ↔ p * 2 ^ o ≤ x < (p + 1) * 2 ^ o.
Proof.
  intros Ho. pose proof (pow_pos o Ho). pose proof (Z.div_mod x (2 ^ o) ltac:(lia)).
  pose proof (Z.mod_pos_bound x (2 ^ o) ltac:(lia)). split; [intros <-; lia|].
  intros Hx. symmetry. apply (Z.div_unique x (2 ^ o) p (x - p * 2 ^ o)); lia.
Qed.
Lemma block_first o p : 0 ≤ o → p * 2 ^ o / 2 ^ o = p.
Proof. intros Ho. apply Z.div_mul. pose proof (pow_pos o Ho). lia. Qed.
Lemma block_last o p : 0 ≤ o → ((p + 1) * 2 ^ o - 1) / 2 ^ o = p.
Proof. intros Ho. apply block_range; [done|]. pose proof (pow_pos o Ho). lia. Qed.
(** Two blocks are nested or apart. *)
Lemma block_sub x y o k : 0 ≤ o ≤ k → x / 2 ^ o = y / 2 ^ o → x / 2 ^ k = y / 2 ^ k.
Proof. intros Hk E. by rewrite !(block_up _ o k), E by done. Qed.

(** ** Families *)
Lemma covers_update A o F x : covers (update A o F) x ↔ x / 2 ^ o ∈ F ∨ ∃ o', o' ≠ o ∧ x / 2 ^ o' ∈ A o'.
Proof.
  unfold covers, update. split.
  - intros (o' & Hx). case_decide; [subst; by left|right; eauto].
  - intros [Hx|(o' & Hne & Hx)]; [exists o; by rewrite decide_True|exists o'; by rewrite decide_False].
Qed.
Lemma covers_ext A B x : (∀ o, A o = B o) → covers A x ↔ covers B x.
Proof. intros E. unfold covers. by setoid_rewrite E. Qed.
(** A block whose pages are all covered lies in a block of the family. *)
Lemma covered top A o p : family_ok top A → 0 ≤ o ≤ top → (∀ x, x / 2 ^ o = p → covers A x) →
  ∃ k, o ≤ k ≤ top ∧ p / 2 ^ (k - o) ∈ A k.
Proof.
  intros HA Ho. pose proof HA as (Hr & Huniq & Hm). revert p. replace o with (Z.of_nat (Z.to_nat o)) in * by lia.
  generalize dependent (Z.to_nat o). clear o. intros n. induction n as [|n IH]; intros Ho p Hp.
  - destruct (Hp p) as [k Hk]; [apply Z.div_1_r|]. exists k. split; [apply (Hr k _ Hk)|]. by rewrite Z.sub_0_r.
  - rewrite Nat2Z.inj_succ in *. unfold Z.succ in *. set (o := Z.of_nat n) in *.
    assert (∀ q, q / 2 = p → ∃ k, o ≤ k ≤ top ∧ q / 2 ^ (k - o) ∈ A k) as Hhalf.
    { intros q Hq. apply IH; [lia|]. intros x Hx. apply Hp. rewrite block_succ by lia. by rewrite Hx. }
    destruct (Hhalf (2 * p)) as (k1 & Hk1 & H1); [apply half_cases; by left|].
    destruct (Hhalf (2 * p + 1)) as (k2 & Hk2 & H2); [apply half_cases; by right|].
    assert (∀ k q, o + 1 ≤ k → q / 2 = p → q / 2 ^ (k - o) = p / 2 ^ (k - (o + 1))) as Hup.
    { intros k q Hk <-. rewrite Z.div_div by (lia || apply pow_pos; lia). f_equal.
      replace (k - o) with (k - (o + 1) + 1) by lia. rewrite pow_succ by lia. done. }
    destruct (decide (k1 = o)) as [->|]; [|exists k1; split; [lia|]; rewrite <-(Hup k1 (2 * p)) by (lia || apply half_cases; lia); done].
    destruct (decide (k2 = o)) as [->|]; [|exists k2; split; [lia|]; rewrite <-(Hup k2 (2 * p + 1)) by (lia || apply half_cases; lia); done].
    rewrite Z.sub_diag, Z.div_1_r in H1, H2. destruct (Hm o (2 * p)); [lia|done|].
    rewrite buddy_eq, Z.mul_comm, Z.mod_mul by lia. replace (p * 2 + 1 - 2 * 0) with (2 * p + 1) by lia. done.
Qed.
(** A block whose pages are covered, as a set of pages. *)
Definition whole (A : family) (o p : Z) : Prop := ∀ x, x / 2 ^ o = p → covers A x.
Definition apart (A : family) (o p : Z) : Prop := ∀ x, x / 2 ^ o = p → ¬ covers A x.

Lemma whole_member top A o p : family_ok top A → p ∈ A o → whole A o p.
Proof. intros (Hr & _) Hp x <-. by exists o. Qed.
Lemma whole_nonneg top A o p : family_ok top A → 0 ≤ o → whole A o p → 0 ≤ p.
Proof.
  intros (Hr & _) Ho Hp. destruct (Hp (p * 2 ^ o)) as [k Hk]; [by apply block_first|].
  destruct (Hr k _ Hk) as [Hk0 Hq]. pose proof (pow_pos o Ho). pose proof (pow_pos k ltac:(lia)).
  pose proof (Z.div_mod (p * 2 ^ o) (2 ^ k) ltac:(lia)). pose proof (Z.mod_pos_bound (p * 2 ^ o) (2 ^ k) ltac:(lia)). nia.
Qed.
(** A member of a family that is whole in a smaller one is a member of that too. *)
Lemma canonical top A B i q : family_ok top A → family_ok top B → (∀ x, covers A x → covers B x) →
  q ∈ B i → whole A i q → q ∈ A i.
Proof.
  intros HA HB Hsub Hq Hw. pose proof (proj1 HB i q Hq) as [Hi Hq0].
  destruct (covered top A i q HA ltac:(lia) Hw) as (k & Hk & HqA).
  destruct (covered top B k (q / 2 ^ (k - i)) HB ltac:(lia)) as (l & Hl & HqB).
  { intros x Hx. apply Hsub. exists k. by rewrite Hx. }
  assert (q * 2 ^ i / 2 ^ i = q) as E by (apply block_first; lia).
  assert (i = l) as <-.
  { apply (proj1 (proj2 HB) (q * 2 ^ i)); [by rewrite E|]. rewrite (block_up _ i) by lia. rewrite E.
    rewrite Z.div_div, <-Z.pow_add_r in HqB by (lia || (apply Z.pow_nonzero; lia) || (apply pow_pos; lia)).
    by replace (k - i + (l - k)) with (l - i) in HqB by lia. }
  assert (k = i) as -> by lia. by rewrite Z.sub_diag, Z.div_1_r in HqA.
Qed.
(** A family is determined by its pages. *)
Lemma family_unique top A B : family_ok top A → family_ok top B → (∀ x, covers A x ↔ covers B x) → ∀ o, A o = B o.
Proof.
  intros HA HB E o. apply set_eq. intros q. split; intros Hq.
  - apply (canonical top B A o q HB HA); [by intros; apply E|done|]. intros x Hx. apply E. exists o. by rewrite Hx.
  - apply (canonical top A B o q HA HB); [by intros; apply E|done|]. intros x Hx. apply E. exists o. by rewrite Hx.
Qed.

(** ** Adding and removing a block *)
Lemma family_add top A o p : family_ok top A → 0 ≤ o ≤ top → 0 ≤ p → apart A o p → (o < top → buddy p ∉ A o) →
  let A' := update A o (A o ∪ {[p]}) in
  family_ok top A' ∧ ∀ x, covers A' x ↔ covers A x ∨ x / 2 ^ o = p.
Proof.
  intros (Hr & Hu & Hm) Ho Hp Hap Hb A'.
  assert (∀ k q, q ∈ A' k ↔ q ∈ A k ∨ (k = o ∧ q = p)) as HA'.
  { intros k q. unfold A', update. case_decide; [subst; set_solver|naive_solver]. }
  split.
  - split_and!.
    + intros k q [Hq|[-> ->]]%HA'; [by apply Hr|done].
    + intros x o1 o2 [H1|[-> H1]]%HA' [H2|[-> H2]]%HA'; [by apply (Hu x)| | |done].
      * destruct (Hap x H2). by exists o1.
      * destruct (Hap x H1). by exists o2.
    + intros k q Hk [Hq|[-> ->]]%HA' [Hq'|[E1 E2]]%HA'.
      * by apply (Hm k q).
      * subst k. apply Hb; [done|]. rewrite <-E2. by destruct (buddy_half q) as (_ & _ & ->).
      * by apply Hb.
      * by destruct (buddy_half p) as (_ & ? & _).
  - intros x. unfold covers. setoid_rewrite HA'. naive_solver.
Qed.
Lemma family_remove top A o p : family_ok top A → p ∈ A o →
  let A' := update A o (A o ∖ {[p]}) in
  family_ok top A' ∧ ∀ x, covers A' x ↔ covers A x ∧ x / 2 ^ o ≠ p.
Proof.
  intros (Hr & Hu & Hm) Hp A'.
  assert (∀ k q, q ∈ A' k ↔ q ∈ A k ∧ ¬ (k = o ∧ q = p)) as HA'.
  { intros k q. unfold A', update. case_decide; [subst; set_solver|naive_solver]. }
  split.
  - split_and!.
    + intros k q [Hq _]%HA'. by apply Hr.
    + intros x o1 o2 [H1 _]%HA' [H2 _]%HA'. by apply (Hu x).
    + intros k q Hk [Hq _]%HA' [Hq' _]%HA'. by apply (Hm k q).
  - intros x. unfold covers. setoid_rewrite HA'. split.
    + intros (k & Hk & Hne). split; [by exists k|]. intros E. apply Hne. split; [|].
      * apply (Hu x); [done|by rewrite E].
      * assert (k = o) as <- by (apply (Hu x); [done|by rewrite E]). done.
    + intros [[k Hk] Hne]. exists k. split; [done|]. intros [-> E]. done.
Qed.
Lemma family_empty top : family_ok top (λ _, ∅).
Proof. split_and!; set_solver. Qed.
