(* ===== verification/RedbBuddy.v ===== *)
(** RedbBuddy: the allocator of the pages of a region.

    Models [poc/redb-fork/src/tree_store/page_store/buddy_allocator.rs]: a bitmap of
    free blocks for every order, blocks of [2^order] pages, halves that are merged
    again when both are free.  The model is that of a build with debug assertions
    and overflow checks, [None] when one of them fires; the theorems show that none
    does, so that a release build computes the same.  The hash is not modelled. *)
From S2P Require Import Prelude Windows RedbGroup RedbBitmap RedbBlocks.
Local Open Scope Z_scope.

Module Buddy.
Import Bitmap(BtreeBitmap).

Definition MAX_MAX_PAGE_ORDER : Z := 20.

(** [u32::leading_zeros], [u32::trailing_zeros] and [try_into::<u8>().unwrap()] *)
Definition leading_zeros (p : Z) : Z := if p =? 0 then 32 else 31 - Z.log2 p.
Fixpoint zeros_from (n : nat) (i w : Z) : Z :=
  match n with
  | O => 0
  | S n => if Z.testbit w i then 0 else 1 + zeros_from n (i + 1) w
  end.
Definition trailing_zeros (p : Z) : Z := zeros_from 32 0 p.
Definition try_u8 (z : Z) : option Z := if (0 <=? z) && (z <? 256) then Some z else None.

Definition calculate_usable_order (pages : Z) : option Z :=
  max_order ← try_u8 (32 - leading_zeros pages - 1);
  Some (Z.min MAX_MAX_PAGE_ORDER max_order).
Definition next_higher_order (page_number : Z) : Z := page_number / 2.
Definition buddy_page (page_number : Z) : Z := Z.lxor page_number 1.

Record BuddyAllocator := mkBuddy { free : list BtreeBitmap; len : Z; max_order : Z }.

Definition get_order_free (b : BuddyAllocator) (order : Z) : option BtreeBitmap := free b !! Z.to_nat order.
(** [*self.get_order_free_mut(order) = bm] *)
Definition set_order_free (b : BuddyAllocator) (order : Z) (bm : BtreeBitmap) : BuddyAllocator :=
  mkBuddy (<[Z.to_nat order := bm]> (free b)) (len b) (max_order b).

(** [0..=max_order] and [(0..=max_order).rev()] *)
Definition orders (b : BuddyAllocator) : list Z := seqZ 0 (max_order b + 1).
Definition orders_rev (b : BuddyAllocator) : list Z := reverse (orders b).

(** The loops that hand the range up to [limit] block by block to [act], the
    highest orders first ([new], and the second half of [resize]). *)
Section fill.
Variable act : BuddyAllocator → Z → Z → option BuddyAllocator.
Variable limit : Z.
Fixpoint fill_order (fuel : nat) (order processed_pages : Z) (b : BuddyAllocator) : option (Z * BuddyAllocator) :=
  match fuel with
  | O => None
  | S fuel =>
      let order_size := 2 ^ order in
      if processed_pages + order_size <=? limit then
        let page := processed_pages / order_size in
        b ← act b page order;
        fill_order fuel order (processed_pages + order_size) b
      else Some (processed_pages, b)
  end.
Definition fill_orders (processed_pages : Z) (b : BuddyAllocator) : option (Z * BuddyAllocator) :=
  fold_opt (λ '(processed_pages, b) order,
    fill_order (S (Z.to_nat ((limit - processed_pages) / 2 ^ order))) order processed_pages b)
    (processed_pages, b) (orders_rev b).
(** The loop of [resize] before it, which goes up to a block of the highest order;
    the growing copy computes the size of the block before it looks at the order. *)
Fixpoint align_loop (fuel : nat) (size_first : bool) (processed_pages : Z) (b : BuddyAllocator) : option (Z * BuddyAllocator) :=
  match fuel with
  | O => None
  | S fuel =>
      if processed_pages <? limit then
        let order := trailing_zeros processed_pages in
        let order_size := 2 ^ order in
        check (negb size_first || (order <? 32));;
        if max_order b <=? order then Some (processed_pages, b) else
        check (processed_pages `mod` order_size =? 0);;
        let page := processed_pages / order_size in
        if limit <? processed_pages + order_size then Some (processed_pages, b) else
        b ← act b page order;
        align_loop fuel size_first (processed_pages + order_size) b
      else Some (processed_pages, b)
  end.
End fill.

Fixpoint new_bitmaps (n : nat) (pages_for_order capacity_for_order : Z) : option (list BtreeBitmap) :=
  match n with
  | O => Some []
  | S n =>
      bm ← Bitmap.new_padded pages_for_order pages_for_order capacity_for_order;
      rest ← new_bitmaps n (next_higher_order pages_for_order) (next_higher_order capacity_for_order);
      Some (bm :: rest)
  end.
Definition mark_free (b : BuddyAllocator) (page order : Z) : option BuddyAllocator :=
  bm ← get_order_free b order;
  set_order_free b order <$> Bitmap.clear bm page.
Definition new (num_pages max_page_capacity : Z) : option BuddyAllocator :=
  max_order ← calculate_usable_order max_page_capacity;
  free ← new_bitmaps (Z.to_nat (max_order + 1)) num_pages max_page_capacity;
  '(accounted_pages, b) ← fill_orders mark_free num_pages 0 (mkBuddy free num_pages max_order);
  check (accounted_pages =? num_pages);;
  Some b.

Definition to_vec (b : BuddyAllocator) : option bytes :=
  serialized ← mapM Bitmap.to_vec (free b);
  let header_bytes := 1 + 3 + 4 in
  let offsets_bytes := (max_order b + 1) * 4 in
  ends ← write_ends (header_bytes + offsets_bytes) serialized;
  Some ([z2b (max_order b)] ++ [Byte.x00; Byte.x00; Byte.x00] ++ le_bytes 4 (len b) ++ ends ++ mjoin serialized).
Definition from_bytes (data : bytes) : option BuddyAllocator :=
  max_order ← b2z <$> data !! 0%nat;
  num_pages ← u32_at data 4;
  free ← read_parts Bitmap.from_bytes (Z.to_nat (max_order + 1)) 8 (8 + (max_order + 1) * 4) data;
  Some (mkBuddy free num_pages max_order).

(** [None] in the answer is Rust's [None]. *)
Fixpoint highest_free (b : BuddyAllocator) (os : list Z) : option (option Z) :=
  match os with
  | [] => Some None
  | order :: os =>
      bm ← get_order_free b order;
      has ← Bitmap.has_unset bm;
      if has : bool then Some (Some order) else highest_free b os
  end.
Definition highest_free_order (b : BuddyAllocator) : option (option Z) := highest_free b (orders_rev b).
Definition count_free_pages (b : BuddyAllocator) : option Z :=
  fold_opt (λ pages order,
    bm ← get_order_free b order; n ← Bitmap.count_unset bm; Some (pages + n * 2 ^ order)) 0 (orders b).
Definition count_allocated_pages (b : BuddyAllocator) : option Z :=
  n ← count_free_pages b; check (n <=? len b);; Some (len b - n).
Definition get_max_order (b : BuddyAllocator) : Z := max_order b.

Fixpoint find_free (b : BuddyAllocator) (page : Z) (os : list Z) : option (option Z) :=
  match os with
  | [] => Some None
  | order :: os =>
      bm ← get_order_free b order;
      n ← Bitmap.len bm;
      found ← (if page <? n then negb <$> Bitmap.get bm page else Some false);
      if found : bool then Some (Some order) else find_free b (next_higher_order page) os
  end.
Definition find_free_order (b : BuddyAllocator) (page : Z) : option (option Z) := find_free b page (orders b).
Fixpoint trailing_loop (fuel : nat) (b : BuddyAllocator) (free_pages next_page : Z) : option Z :=
  match fuel with
  | O => None
  | S fuel =>
      r ← find_free_order b next_page;
      match r with
      | None => Some free_pages
      | Some order =>
          let order_size := 2 ^ order in
          let free_pages := free_pages + order_size in
          if next_page <? order_size then Some free_pages
          else trailing_loop fuel b free_pages (next_page - order_size)
      end
  end.
Definition trailing_free_pages (b : BuddyAllocator) : option Z :=
  check (0 <? len b);; trailing_loop (S (Z.to_nat (len b))) b 0 (len b - 1).

(** The two checks of a build with debug assertions: no page is free at two
    orders, and free buddies are merged below the highest order. *)
Fixpoint check_page (b : BuddyAllocator) (page : Z) (found : bool) (os : list Z) : option () :=
  match os with
  | [] => Some ()
  | order :: os =>
      allocator ← get_order_free b order;
      n ← Bitmap.len allocator;
      if n <=? page then Some () else
      taken ← Bitmap.get allocator page;
      check (taken || negb found);;
      check_page b (next_higher_order page) (found || negb taken) os
  end.
Definition check_merged (b : BuddyAllocator) (order page : Z) : option () :=
  allocator ← get_order_free b order;
  taken ← Bitmap.get allocator page;
  if (taken : bool) then Some () else
  let buddy := buddy_page page in
  n ← Bitmap.len allocator;
  if buddy <? n then buddy_allocated ← Bitmap.get allocator buddy; check buddy_allocated else Some ().
Definition debug_check_consistency (b : BuddyAllocator) : option () :=
  fold_opt (λ _ processed, check_page b processed false (orders b)) () (seqZ 0 (len b));;
  fold_opt (λ _ order, fold_opt (λ _ page, check_merged b order page) () (seqZ 0 (len b / 2 ^ order)))
    () (reverse (seqZ 0 (max_order b))).

(** The recursions go up by an order: a unit of fuel for each, and one to stop. *)
Definition ORDERS (b : BuddyAllocator) (order : Z) : nat := S (Z.to_nat (max_order b + 1 - order)).

(** [let (free1, free2) = (page * 2, page * 2 + 1)]: the halves of a block that is
    taken are taken; the second is freed. *)
Definition split (b : BuddyAllocator) (order upper_page : Z) : option BuddyAllocator :=
  let free1 := upper_page * 2 in
  let free2 := upper_page * 2 + 1 in
  allocator ← get_order_free b order;
  taken1 ← Bitmap.get allocator free1;
  check taken1;;
  taken2 ← Bitmap.get allocator free2;
  check taken2;;
  set_order_free b order <$> Bitmap.clear allocator free2.
Fixpoint alloc_loop (fuel : nat) (b : BuddyAllocator) (order : Z) : option (option Z * BuddyAllocator) :=
  match fuel with
  | O => None
  | S fuel =>
      if max_order b <? order then Some (None, b) else
      allocator ← get_order_free b order;
      '(r, allocator) ← Bitmap.alloc allocator;
      let b := set_order_free b order allocator in
      match r with
      | Some x => Some (Some x, b)
      | None =>
          '(r, b) ← alloc_loop fuel b (order + 1);
          match r with
          | None => Some (None, b)
          | Some upper_page => b ← split b order upper_page; Some (Some (upper_page * 2), b)
          end
      end
  end.
Definition alloc_inner (b : BuddyAllocator) (order : Z) : option (option Z * BuddyAllocator) :=
  alloc_loop (ORDERS b order) b order.
Definition alloc (b : BuddyAllocator) (order : Z) : option (option Z * BuddyAllocator) := alloc_inner b order.

Fixpoint record_loop (fuel : nat) (b : BuddyAllocator) (page_number order : Z) : option BuddyAllocator :=
  match fuel with
  | O => None
  | S fuel =>
      allocator ← get_order_free b order;
      taken ← Bitmap.get allocator page_number;
      if taken : bool then
        let upper_page := next_higher_order page_number in
        b ← record_loop fuel b upper_page (order + 1);
        allocator ← get_order_free b order;
        let free1 := upper_page * 2 in
        let free2 := upper_page * 2 + 1 in
        check ((free1 =? page_number) || (free2 =? page_number));;
        if free1 =? page_number then set_order_free b order <$> Bitmap.clear allocator free2
        else set_order_free b order <$> Bitmap.clear allocator free1
      else set_order_free b order <$> Bitmap.set allocator page_number
  end.
Definition record_alloc_inner (b : BuddyAllocator) (page_number order : Z) : option BuddyAllocator :=
  record_loop (ORDERS b order) b page_number order.
Definition record_alloc (b : BuddyAllocator) (page_number order : Z) : option BuddyAllocator :=
  check (order <=? max_order b);; record_alloc_inner b page_number order.

Fixpoint free_loop (fuel : nat) (b : BuddyAllocator) (page_number order : Z) : option BuddyAllocator :=
  match fuel with
  | O => None
  | S fuel =>
      allocator ← get_order_free b order;
      if order =? max_order b then set_order_free b order <$> Bitmap.clear allocator page_number else
      let buddy := buddy_page page_number in
      n ← Bitmap.len allocator;
      taken ← (if n <=? buddy then Some true else Bitmap.get allocator buddy);
      if taken : bool then set_order_free b order <$> Bitmap.clear allocator page_number
      else
        allocator ← Bitmap.set allocator buddy;
        free_loop fuel (set_order_free b order allocator) (next_higher_order page_number) (order + 1)
  end.
Definition free_inner (b : BuddyAllocator) (page_number order : Z) : option BuddyAllocator :=
  free_loop (ORDERS b order) b page_number order.
(** [BuddyAllocator::free] *)
Definition free_page (b : BuddyAllocator) (page_number order : Z) : option BuddyAllocator :=
  allocator ← get_order_free b order;
  taken ← Bitmap.get allocator page_number;
  check taken;;
  free_inner b page_number order.

(** The loop of [alloc_lowest] over the higher orders; its state is [self], the
    best block so far with its order, its index at the wanted order, and the
    multiplier. *)
Definition lowest_turn (st : BuddyAllocator * (Z * Z) * Z * Z) (i : Z) : option (BuddyAllocator * (Z * Z) * Z * Z) :=
  let '(b, best, best_index_at_order, multiplier) := st in
  '(r, b) ← alloc_inner b i;
  match r with
  | Some index =>
      let index_at_order := index * multiplier in
      if index_at_order <? best_index_at_order then
        b ← free_inner b best.1 best.2;
        Some (b, (index, i), index_at_order, multiplier * 2)
      else
        b ← free_inner b index i;
        Some (b, best, best_index_at_order, multiplier * 2)
  | None => Some (b, best, best_index_at_order, multiplier * 2)
  end.
(** [n] turns of the loop that splits the block found. *)
Fixpoint split_down (n : nat) (b : BuddyAllocator) (best : Z * Z) : option (BuddyAllocator * (Z * Z)) :=
  match n with
  | O => Some (b, best)
  | S n =>
      let '(best_index, best_order) := best in
      b ← split b (best_order - 1) best_index;
      split_down n b (best_index * 2, best_order - 1)
  end.
Definition alloc_lowest (b : BuddyAllocator) (order : Z) : option (option Z * BuddyAllocator) :=
  '(r, b) ← alloc_inner b order;
  match r with
  | None => Some (None, b)
  | Some best_index_at_order =>
      '(b, best, best_index_at_order, _) ←
        fold_opt lowest_turn (b, (best_index_at_order, order), best_index_at_order, 2)
          (seqZ (order + 1) (max_order b - order));
      '(b, best) ← split_down (Z.to_nat (best.2 - order)) b best;
      check (best.1 =? best_index_at_order);;
      Some (Some best.1, b)
  end.

Fixpoint resize_orders (pages_for_order : Z) (bms : list BtreeBitmap) : option (list BtreeBitmap) :=
  match bms with
  | [] => Some []
  | bm :: bms =>
      bm ← Bitmap.resize bm pages_for_order true;
      cons bm <$> resize_orders (next_higher_order pages_for_order) bms
  end.
Definition resize (b : BuddyAllocator) (new_size : Z) : option BuddyAllocator :=
  debug_check_consistency b;;
  b ← (if len b <? new_size then
    free ← resize_orders new_size (free b);
    let b := mkBuddy free (len b) (max_order b) in
    '(processed_pages, b) ← align_loop free_inner new_size (S (Z.to_nat (new_size - len b))) true (len b) b;
    '(processed_pages, b) ← fill_orders free_inner new_size processed_pages b;
    check (processed_pages =? new_size);;
    Some b
  else
    '(processed_pages, b) ← align_loop record_alloc_inner (len b) (S (Z.to_nat (len b - new_size))) false new_size b;
    '(processed_pages, b) ← fill_orders record_alloc_inner (len b) processed_pages b;
    check (processed_pages =? len b);;
    free ← resize_orders new_size (free b);
    Some (mkBuddy free (len b) (max_order b)));
  let b := mkBuddy (free b) new_size (max_order b) in
  debug_check_consistency b;;
  Some b.

(** * What the allocator keeps *)

(** The bitmaps of [b] are the levels of a family of free blocks of [n] pages that
    can grow to [cap].  [l] is the length it gives itself: another one only while
    [resize] is under way. *)
Definition buddy_ok (cap l n top : Z) (b : BuddyAllocator) (A : family) : Prop :=
  len b = l ∧ max_order b = top ∧ 0 ≤ n ≤ cap ∧ cap ≤ Bitmap.LARGEST ∧ 0 ≤ top ≤ MAX_MAX_PAGE_ORDER
  ∧ length (free b) = S (Z.to_nat top) ∧ family_ok top A
  ∧ ∀ o, 0 ≤ o ≤ top → ∃ bm, free b !! Z.to_nat o = Some bm ∧ Bitmap.bt_ok (cap / 2 ^ o) bm (n / 2 ^ o) (A o).

Section ok.
Context {cap l n top : Z}.
Implicit Types (b : BuddyAllocator) (A : family).

Lemma ok_family b A : buddy_ok cap l n top b A → family_ok top A.
Proof. by intros (_ & _ & _ & _ & _ & _ & ? & _). Qed.
Lemma ok_order b A o : buddy_ok cap l n top b A → 0 ≤ o ≤ top →
  ∃ bm, get_order_free b o = Some bm ∧ Bitmap.bt_ok (cap / 2 ^ o) bm (n / 2 ^ o) (A o).
Proof. intros (_ & _ & _ & _ & _ & _ & _ & H) Ho. by apply H. Qed.
Lemma ok_update b A o bm F : buddy_ok cap l n top b A → 0 ≤ o ≤ top →
  Bitmap.bt_ok (cap / 2 ^ o) bm (n / 2 ^ o) F → family_ok top (update A o F) →
  buddy_ok cap l n top (set_order_free b o bm) (update A o F).
Proof.
  intros (H1 & H2 & H3 & H4 & H5 & H6 & _ & H) Ho Hbm HF. unfold buddy_ok, set_order_free. cbn [len max_order free].
  rewrite length_insert. do 7 (split; [done|]). intros k Hk. destruct (decide (k = o)) as [->|Hne].
  - exists bm. rewrite list_lookup_insert_eq, update_same by lia. done.
  - rewrite list_lookup_insert_ne, update_other by (done || lia). by apply H.
Qed.
Lemma in_len o p : 0 ≤ o → (p + 1) * 2 ^ o ≤ n ↔ p < n / 2 ^ o.
Proof.
  intros Ho. pose proof (pow_pos o Ho). pose proof (Z.div_mod n (2 ^ o) ltac:(lia)).
  pose proof (Z.mod_pos_bound n (2 ^ o) ltac:(lia)). split; intros; nia.
Qed.
Lemma ok_covers b A x : buddy_ok cap l n top b A → covers A x → 0 ≤ x < n.
Proof.
  intros Hok [o Ho]. destruct (ok_family _ _ Hok) as (Hr & _). destruct (Hr _ _ Ho) as [Ho' Hx].
  destruct (ok_order _ _ o Hok Ho') as (bm & _ & Hbm). apply (Bitmap.bt_bound _ _ _ _ Hbm) in Ho as [_ Hlt].
  apply in_len in Hlt; [|lia]. pose proof (pow_pos o ltac:(lia)). pose proof (Z.div_mod x (2 ^ o) ltac:(lia)).
  pose proof (Z.mod_pos_bound x (2 ^ o) ltac:(lia)). nia.
Qed.
Lemma ok_whole b A o p : buddy_ok cap l n top b A → 0 ≤ o → whole A o p → 0 ≤ p ∧ p < n / 2 ^ o.
Proof.
  intros Hok Ho Hw. split; [by eapply whole_nonneg; [eapply ok_family|..]|]. apply in_len; [done|].
  destruct (ok_covers _ _ ((p + 1) * 2 ^ o - 1) Hok); [by apply Hw, block_last|lia].
Qed.
Lemma ok_member b A o p : buddy_ok cap l n top b A → p ∈ A o → 0 ≤ o ≤ top ∧ 0 ≤ p ∧ p < n / 2 ^ o.
Proof.
  intros Hok Hp. destruct (ok_family _ _ Hok) as (Hr & _). destruct (Hr _ _ Hp) as [Ho _]. split; [done|].
  apply (ok_whole b A); [done|lia|]. eapply whole_member; [by eapply ok_family|done].
Qed.

(** ** Splitting, allocating *)
Lemma get_taken b A o p : buddy_ok cap l n top b A → 0 ≤ o ≤ top → 0 ≤ p < n / 2 ^ o →
  ∃ bm, get_order_free b o = Some bm ∧ Bitmap.bt_ok (cap / 2 ^ o) bm (n / 2 ^ o) (A o)
    ∧ Bitmap.get bm p = Some (bool_decide (p ∉ A o)).
Proof.
  intros Hok Ho Hp. destruct (ok_order _ _ o Hok Ho) as (bm & E & Hbm). exists bm. split_and!; try done.
  by eapply Bitmap.bt_get.
Qed.
Lemma mark_clear_ok b A o p : buddy_ok cap l n top b A → 0 ≤ o ≤ top → 0 ≤ p < n / 2 ^ o → apart A o p → (o < top → buddy p ∉ A o) →
  ∃ bm, get_order_free b o = Some bm
    ∧ ∃ bm', Bitmap.clear bm p = Some bm'
    ∧ ∃ A', buddy_ok cap l n top (set_order_free b o bm') A' ∧ ∀ x, covers A' x ↔ covers A x ∨ x / 2 ^ o = p.
Proof.
  intros Hok Ho Hp Hap Hb. destruct (ok_order _ _ o Hok Ho) as (bm & E & Hbm). exists bm. split; [done|].
  destruct (Bitmap.bt_clear _ _ _ _ Hbm Hp) as (bm' & -> & Hbm'). exists bm'. split; [done|].
  destruct (family_add top A o p) as [HA' Hcov]; [by eapply ok_family|done|lia|done|done|].
  eexists. split; [by apply ok_update|done].
Qed.
Lemma mark_set_ok b A o p : buddy_ok cap l n top b A → p ∈ A o →
  ∃ bm, get_order_free b o = Some bm
    ∧ ∃ bm', Bitmap.set bm p = Some bm'
    ∧ ∃ A', buddy_ok cap l n top (set_order_free b o bm') A' ∧ ∀ x, covers A' x ↔ covers A x ∧ x / 2 ^ o ≠ p.
Proof.
  intros Hok Hp. destruct (ok_member _ _ _ _ Hok Hp) as [Ho Hlt]. destruct (ok_order _ _ o Hok Ho) as (bm & E & Hbm).
  exists bm. split; [done|]. destruct (Bitmap.bt_set _ _ _ _ Hbm Hlt) as (bm' & -> & Hbm'). exists bm'. split; [done|].
  destruct (family_remove top A o p) as [HA' Hcov]; [by eapply ok_family|done|].
  eexists. split; [by apply ok_update|done].
Qed.
Lemma halves o u x : 0 ≤ o → x / 2 ^ (o + 1) = u ↔ x / 2 ^ o = 2 * u ∨ x / 2 ^ o = 2 * u + 1.
Proof. intros. by rewrite block_succ, half_cases. Qed.
Lemma apart_half A o u p : 0 ≤ o → apart A (o + 1) u → p / 2 = u → apart A o p.
Proof. intros Ho Hap Hp x Hx. apply Hap. by rewrite block_succ, Hx by done. Qed.
Lemma split_ok b A o u : buddy_ok cap l n top b A → 0 ≤ o ≤ top → 0 ≤ u → (u + 1) * 2 ^ (o + 1) ≤ n → apart A (o + 1) u →
  ∃ b' A', split b o u = Some b' ∧ buddy_ok cap l n top b' A' ∧ ∀ x, covers A' x ↔ covers A x ∨ x / 2 ^ o = 2 * u + 1.
Proof.
  intros Hok Ho Hu Hlen Hap. rewrite pow_succ in Hlen by lia.
  assert (∀ p, p / 2 = u → 0 ≤ p < n / 2 ^ o ∧ p ∉ A o ∧ apart A o p) as Hhalf.
  { intros p Hp. assert (apart A o p) as Hap' by (eapply apart_half; (done || lia)). pose proof (proj1 (half_cases p u) Hp).
    split_and!; [lia|apply in_len; [lia|]; pose proof (pow_pos o ltac:(lia)); nia| |done].
    intros Hin. apply (Hap' (p * 2 ^ o)); [apply block_first; lia|]. exists o. by rewrite block_first by lia. }
  destruct (Hhalf (u * 2)) as (R1 & N1 & _); [apply half_cases; lia|].
  destruct (Hhalf (u * 2 + 1)) as (R2 & N2 & A2); [apply half_cases; lia|].
  destruct (mark_clear_ok b A o (u * 2 + 1)) as (bm & E & bm' & Ec & A' & Hok' & Hcov); try done.
  { intros _. rewrite buddy_eq. replace ((u * 2 + 1) `mod` 2) with 1 by (rewrite Z.add_comm, Z.mod_add by lia; done).
    by replace (u * 2 + 1 + 1 - 2 * 1) with (u * 2) by lia. }
  destruct (get_taken b A o (u * 2) Hok Ho R1) as (bm1 & E1 & _ & G1). rewrite E in E1. injection E1 as <-.
  destruct (get_taken b A o (u * 2 + 1) Hok Ho R2) as (bm2 & E2 & _ & G2). rewrite E in E2. injection E2 as <-.
  exists (set_order_free b o bm'), A'. unfold split. rewrite E. cbn [mbind option_bind].
  rewrite G1, bool_decide_eq_true_2 by done. cbn [mbind option_bind check].
  rewrite G2, bool_decide_eq_true_2 by done. cbn [mbind option_bind check]. rewrite Ec. split_and!; try done.
  intros x. rewrite Hcov. by replace (u * 2 + 1) with (2 * u + 1) by lia.
Qed.

(** [alloc_inner] takes the first block of the lowest order that has one. *)
Definition taken_block (A : family) (o p : Z) : Prop :=
  ∃ k m, o ≤ k ≤ top ∧ m ∈ A k ∧ p = m * 2 ^ (k - o) ∧ (∀ j, j ∈ A k → m ≤ j) ∧ ∀ i, o ≤ i < k → A i = ∅.
Lemma alloc_loop_ok fuel b A o : buddy_ok cap l n top b A → 0 ≤ o → Z.max 0 (top + 1 - o) < Z.of_nat fuel →
  ∃ r b', alloc_loop fuel b o = Some (r, b') ∧ match r with
    | Some p => taken_block A o p ∧ whole A o p
        ∧ ∃ A', buddy_ok cap l n top b' A' ∧ ∀ x, covers A' x ↔ covers A x ∧ x / 2 ^ o ≠ p
    | None => b' = b ∧ ∀ i, o ≤ i → A i = ∅
    end.
Proof.
  revert b A o. induction fuel as [|fuel IH]; intros b A o Hok Ho Hf; [lia|]. cbn [alloc_loop].
  pose proof Hok as (_ & Htop & _). rewrite Htop. destruct (Z.ltb_spec top o) as [Hlt|Hle].
  { exists None, b. split_and!; try done. intros i Hi. apply set_eq. intros p. split; [|by intros ?%elem_of_empty].
    intros Hp. destruct (ok_member _ _ _ _ Hok Hp). lia. }
  destruct (ok_order _ _ o Hok ltac:(lia)) as (bm & E & Hbm). rewrite E. cbn [mbind option_bind].
  destruct (Bitmap.bt_alloc _ _ _ Hbm) as (r & bm' & -> & Hr). cbn [mbind option_bind]. destruct r as [p|].
  - destruct Hr as (Hp & Hmin & Hbm'). exists (Some p). eexists. split; [done|]. split_and!.
    + exists o, p. rewrite Z.sub_diag, Z.mul_1_r. split_and!; try done; try lia.
    + eapply whole_member; [by eapply ok_family|done].
    + destruct (family_remove top A o p) as [HA' Hcov]; [by eapply ok_family|done|].
      eexists. split; [by apply ok_update|done].
  - destruct Hr as [Ho0 ->]. assert (set_order_free b o bm = b) as ->.
    { unfold set_order_free. rewrite list_insert_id by done. by destruct b. }
    destruct (IH b A (o + 1) Hok ltac:(lia) ltac:(lia)) as (r & b' & -> & Hr). cbn [mbind option_bind]. destruct r as [u|].
    + destruct Hr as ((k & m & Hk & Hm & Eu & Hmin & Hempty) & Hw & A' & Hok' & Hcov).
      destruct (ok_whole b A (o + 1) u Hok ltac:(lia) Hw) as [Hu Hul].
      destruct (split_ok b' A' o u) as (b2 & A2 & -> & Hok2 & Hcov2); [done|lia|done|by apply in_len; [lia|]| |].
      { intros x Hx Hc. by apply Hcov in Hc as [_ ?]. }
      cbn [mbind option_bind]. exists (Some (u * 2)), b2. split; [done|]. split_and!.
      * exists k, m. split_and!; try done; [lia|lia| |].
        -- rewrite Eu. replace (k - o) with (k - (o + 1) + 1) by lia. rewrite pow_succ by lia. lia.
        -- intros i Hi. destruct (decide (i = o)) as [->|]; [done|apply Hempty; lia].
      * intros x Hx. apply Hw, halves; [lia|]. lia.
      * exists A2. split; [done|]. intros x. rewrite Hcov2, Hcov, halves by lia. replace (u * 2) with (2 * u) by lia. split.
        -- intros [[Hc Hx]|Hx]; [split; [done|]; intros E2; apply Hx; by left|].
           split; [apply Hw, halves; [lia|by right]|lia].
        -- intros [Hc Hx]. destruct (decide (x / 2 ^ o = 2 * u + 1)); [by right|left]. split; [done|]. by intros [?|?].
    + destruct Hr as [-> Hempty]. exists None, b. split_and!; try done. intros i Hi.
      destruct (decide (i = o)) as [->|]; [done|apply Hempty; lia].
Qed.

(** ** Freeing, recording *)
Lemma free_loop_ok fuel b A o p : buddy_ok cap l n top b A → 0 ≤ o ≤ top → top + 1 - o < Z.of_nat fuel →
  0 ≤ p → (p + 1) * 2 ^ o ≤ n → apart A o p →
  ∃ b' A', free_loop fuel b p o = Some b' ∧ buddy_ok cap l n top b' A' ∧ ∀ x, covers A' x ↔ covers A x ∨ x / 2 ^ o = p.
Proof.
  revert b A o p. induction fuel as [|fuel IH]; intros b A o p Hok Ho Hf Hp Hlen Hap; [lia|]. cbn [free_loop].
  pose proof (proj1 (in_len o p ltac:(lia)) Hlen) as Hplen. pose proof Hok as (_ & Htop & _). rewrite Htop.
  destruct (ok_order _ _ o Hok Ho) as (bm & E & Hbm). rewrite E. cbn [mbind option_bind].
  assert ((o < top → buddy p ∉ A o) → ∃ b' A', set_order_free b o <$> Bitmap.clear bm p = Some b'
    ∧ buddy_ok cap l n top b' A' ∧ ∀ x, covers A' x ↔ covers A x ∨ x / 2 ^ o = p) as Hclear.
  { intros Hb. destruct (mark_clear_ok b A o p) as (bm1 & E1 & bm' & Ec & A' & Hok' & Hcov); try done.
    rewrite E in E1. injection E1 as <-. rewrite Ec. by exists (set_order_free b o bm'), A'. }
  destruct (Z.eqb_spec o top) as [->|Hne]; [apply Hclear; lia|].
  rewrite (Bitmap.bt_len _ _ _ Hbm). cbn [mbind option_bind]. change (buddy_page p) with (buddy p).
  destruct (buddy_half p) as (Hhalf & Hbne & Hbb). pose proof (proj1 (siblings p (buddy p)) (eq_sym Hhalf)) as _.
  assert (0 ≤ buddy p) as Hbp.
  { rewrite buddy_eq. pose proof (Z.div_mod p 2 ltac:(lia)). pose proof (Z.mod_pos_bound p 2 ltac:(lia)). pose proof (Z.div_pos p 2). lia. }
  destruct (Z.leb_spec (n / 2 ^ o) (buddy p)) as [Hout|Hin].
  { cbn [mbind option_bind]. apply Hclear. intros _ Hb. destruct (ok_member _ _ _ _ Hok Hb). lia. }
  rewrite (Bitmap.bt_get _ _ _ (buddy p) Hbm) by lia. cbn [mbind option_bind].
  case_bool_decide as Hb; [by apply Hclear|].
  destruct (mark_set_ok b A o (buddy p) Hok Hb) as (bm1 & E1 & bm' & Es & A1 & Hok1 & Hcov1).
  rewrite E in E1. injection E1 as <-. rewrite Es. cbn [mbind option_bind]. unfold next_higher_order.
  assert ((p / 2 + 1) * 2 ^ (o + 1) ≤ n) as Hup.
  { rewrite pow_succ by lia. apply in_len in Hin; [|lia]. rewrite buddy_eq in Hin.
    pose proof (Z.div_mod p 2 ltac:(lia)). pose proof (Z.mod_pos_bound p 2 ltac:(lia)).
    assert (p `mod` 2 = 0 ∨ p `mod` 2 = 1) as [Hr|Hr] by lia; rewrite Hr in *; nia. }
  destruct (IH (set_order_free b o bm') A1 (o + 1) (p / 2)) as (b' & A' & Ef & Hok' & Hcov'); [done|lia|lia|apply Z.div_pos; lia|done| |].
  { intros x Hx Hc. apply Hcov1 in Hc as [Hc Hxb]. rewrite block_succ in Hx by lia. symmetry in Hx.
    apply siblings in Hx as [Hx|Hx]; [|done]. by apply (Hap x). }
  exists b', A'. split_and!; try done. intros x. rewrite Hcov', Hcov1, block_succ by lia. split.
  - intros [[Hc _]|Hx]; [by left|]. symmetry in Hx. apply siblings in Hx as [Hx|Hx]; [by right|left]. exists o. by rewrite Hx.
  - intros [Hc| <-]; [|by right]. destruct (decide (x / 2 ^ o = buddy p)) as [Hx|]; [right|by left]. by rewrite Hx.
Qed.
Lemma free_inner_ok b A o p : buddy_ok cap l n top b A → 0 ≤ o ≤ top → 0 ≤ p → (p + 1) * 2 ^ o ≤ n → apart A o p →
  ∃ b' A', free_inner b p o = Some b' ∧ buddy_ok cap l n top b' A' ∧ ∀ x, covers A' x ↔ covers A x ∨ x / 2 ^ o = p.
Proof.
  intros Hok Ho. apply free_loop_ok; [done|done|]. unfold ORDERS. pose proof Hok as (_ & -> & _). lia.
Qed.
Lemma alloc_inner_ok b A o : buddy_ok cap l n top b A → 0 ≤ o →
  ∃ r b', alloc_inner b o = Some (r, b') ∧ match r with
    | Some p => taken_block A o p ∧ whole A o p
        ∧ ∃ A', buddy_ok cap l n top b' A' ∧ ∀ x, covers A' x ↔ covers A x ∧ x / 2 ^ o ≠ p
    | None => b' = b ∧ ∀ i, o ≤ i → A i = ∅
    end.
Proof.
  intros Hok Ho. apply alloc_loop_ok; [done|done|]. unfold ORDERS. pose proof Hok as (_ & -> & _). lia.
Qed.
Lemma record_loop_ok fuel b A o p : buddy_ok cap l n top b A → 0 ≤ o ≤ top → top + 1 - o < Z.of_nat fuel → whole A o p →
  ∃ b' A', record_loop fuel b p o = Some b' ∧ buddy_ok cap l n top b' A' ∧ ∀ x, covers A' x ↔ covers A x ∧ x / 2 ^ o ≠ p.
Proof.
  revert b A o p. induction fuel as [|fuel IH]; intros b A o p Hok Ho Hf Hw; [lia|]. cbn [record_loop].
  destruct (ok_whole b A o p Hok ltac:(lia) Hw) as [Hp Hlen].
  destruct (get_taken b A o p Hok Ho ltac:(lia)) as (bm & E & Hbm & G). rewrite E. cbn [mbind option_bind]. rewrite G. cbn [mbind option_bind].
  case_bool_decide as Hin.
  - destruct (covered top A o p) as (k & Hk & HpA); [by eapply ok_family|done|done|].
    assert (k ≠ o) as Hne by (intros ->; rewrite Z.sub_diag, Z.div_1_r in HpA; done).
    assert (whole A (o + 1) (p / 2)) as Hw'.
    { intros x Hx. exists k. rewrite (block_up x (o + 1) k), Hx by lia. rewrite Z.div_div by (lia || apply pow_pos; lia).
      replace (2 * 2 ^ (k - (o + 1))) with (2 ^ (k - o)); [done|]. rewrite <-pow_succ by lia. f_equal. lia. }
    unfold next_higher_order.
    destruct (ok_whole b A (o + 1) (p / 2) Hok ltac:(lia) Hw') as [_ Hup].
    destruct (IH b A (o + 1) (p / 2) Hok ltac:(lia) ltac:(lia) Hw') as (b1 & A1 & -> & Hok1 & Hcov1). cbn [mbind option_bind].
    assert (∀ q, q / 2 = p / 2 → q ≠ p → ∃ b' A', (allocator ← get_order_free b1 o; set_order_free b1 o <$> Bitmap.clear allocator q) = Some b'
      ∧ buddy_ok cap l n top b' A' ∧ ∀ x, covers A' x ↔ covers A x ∧ x / 2 ^ o ≠ p) as Hadd.
    { intros q Hq Hqp. assert (q = buddy p) as -> by (symmetry in Hq; apply siblings in Hq; tauto). destruct (buddy_half p) as (_ & _ & Hbb).
      assert (apart A1 o (buddy p)) as Hap by (intros x Hx Hc; apply Hcov1 in Hc as [_ Hc]; apply Hc; by rewrite block_succ, Hx by lia).
      assert (whole A o (buddy p)) as Hwb by (intros x Hx; apply Hw'; by rewrite block_succ, Hx by lia).
      destruct (ok_whole b A o (buddy p) Hok ltac:(lia) Hwb) as [Hb0 Hblen].
      destruct (mark_clear_ok b1 A1 o (buddy p)) as (bm1 & -> & bm' & Ec & A' & Hok' & Hcov'); try done.
      { intros _ Hin'. rewrite Hbb in Hin'. assert (covers A1 (p * 2 ^ o)) as Hc by (exists o; by rewrite block_first by lia).
        apply Hcov1 in Hc as [_ Hc]. apply Hc. by rewrite block_succ, block_first by lia. }
      cbn [mbind option_bind]. rewrite Ec. eexists _, A'. split_and!; [done|done|]. intros x. rewrite Hcov', Hcov1, block_succ by lia. split.
      - intros [[Hc Hx]|Hx]; [split; [done|]; intros E0; apply Hx; by rewrite E0|]. split; [by apply Hwb|]. rewrite Hx. by destruct (buddy_half p) as (_ & ? & _).
      - intros [Hc Hx]. destruct (decide (x / 2 ^ o = buddy p)) as [|Hxb]; [by right|left]. split; [done|].
        intros Hh. symmetry in Hh. apply siblings in Hh as [|]; done. }
    pose proof (proj1 (half_cases p (p / 2)) eq_refl) as Hcases.
    destruct (Z.eqb_spec (p / 2 * 2) p) as [E1|E1].
    + destruct (Hadd (p / 2 * 2 + 1)) as (b' & A' & Eb & Hok'); [apply half_cases; lia|lia|]. exists b', A'.
      destruct (get_order_free b1 o) as [a|]; [|done]. cbn [mbind option_bind] in *. cbn [orb check mbind option_bind]. done.
    + destruct (Hadd (p / 2 * 2)) as (b' & A' & Eb & Hok'); [apply half_cases; lia|lia|]. exists b', A'.
      destruct (get_order_free b1 o) as [a|]; [|done]. cbn [mbind option_bind] in *.
      rewrite (proj2 (Z.eqb_eq _ _)) by lia. cbn [orb check mbind option_bind]. done.
  - destruct (mark_set_ok b A o p Hok Hin) as (bm1 & E1 & bm' & Es & A' & Hok' & Hcov'). rewrite E in E1. injection E1 as <-.
    rewrite Es. by exists (set_order_free b o bm'), A'.
Qed.
Lemma record_alloc_inner_ok b A o p : buddy_ok cap l n top b A → 0 ≤ o ≤ top → whole A o p →
  ∃ b' A', record_alloc_inner b p o = Some b' ∧ buddy_ok cap l n top b' A' ∧ ∀ x, covers A' x ↔ covers A x ∧ x / 2 ^ o ≠ p.
Proof.
  intros Hok Ho. apply record_loop_ok; [done|done|]. unfold ORDERS. pose proof Hok as (_ & -> & _). lia.
Qed.
Lemma free_page_ok b A o p : buddy_ok cap l n top b A → 0 ≤ o ≤ top → 0 ≤ p → (p + 1) * 2 ^ o ≤ n → apart A o p →
  ∃ b' A', free_page b p o = Some b' ∧ buddy_ok cap l n top b' A' ∧ ∀ x, covers A' x ↔ covers A x ∨ x / 2 ^ o = p.
Proof.
  intros Hok Ho Hp Hlen Hap. unfold free_page.
  destruct (get_taken b A o p Hok Ho) as (bm & E & _ & G); [split; [done|by apply in_len; [lia|]]|].
  rewrite E. cbn [mbind option_bind]. rewrite G, bool_decide_eq_true_2.
  - cbn [mbind option_bind check]. by apply free_inner_ok.
  - intros Hin. apply (Hap (p * 2 ^ o)); [apply block_first; lia|]. exists o. by rewrite block_first by lia.
Qed.

(** ** The lowest block: the search over the orders *)

(** [Ac] is [A] without the block [idx] of order [ib]. *)
Definition without (A Ac : family) (ib idx : Z) : Prop := ∀ x, covers Ac x ↔ covers A x ∧ x / 2 ^ ib ≠ idx.
(** The block starts where a block of [A] does. *)
Definition starts (A : family) (ib idx : Z) : Prop := ∃ k m, ib ≤ k ∧ m ∈ A k ∧ idx * 2 ^ ib = m * 2 ^ k.
Definition lowest_inv A o i (st : BuddyAllocator * (Z * Z) * Z * Z) : Prop :=
  let '(b, (idx, ib), at_order, multiplier) := st in
  multiplier = 2 ^ (i - o) ∧ o ≤ ib < i ∧ at_order = idx * 2 ^ (ib - o) ∧ whole A ib idx ∧ starts A ib idx
  ∧ (∀ j q, o ≤ j < i → q ∈ A j → idx * 2 ^ ib ≤ q * 2 ^ j)
  ∧ ∃ Ac, buddy_ok cap l n top b Ac ∧ without A Ac ib idx.

(** A block of [A] is still there, or the one taken is at its start. *)
Lemma block_kept A Ac ib idx i q : family_ok top A → family_ok top Ac → 0 ≤ ib ≤ i → without A Ac ib idx →
  starts A ib idx → q ∈ A i → q ∈ Ac i ∨ idx * 2 ^ ib = q * 2 ^ i.
Proof.
  intros HA HAc Hi Hwo (k & m & Hk & Hm & Es) Hq. destruct (decide (idx * 2 ^ ib / 2 ^ i = q)) as [Hs|Hs].
  - right. rewrite Es in Hs |- *. assert (k = i) as <-.
    { apply (proj1 (proj2 HA) (m * 2 ^ k)); [by rewrite block_first by lia|by rewrite Hs]. }
    rewrite block_first in Hs by lia. by rewrite Hs.
  - left. apply (canonical top Ac A); [done..|by intros x [? _]%Hwo|done|]. intros x Hx. apply Hwo. split; [exists i; by rewrite Hx|].
    intros Hxb. apply Hs. rewrite <-Hx. symmetry. apply (block_sub _ _ ib); [done|]. by rewrite Hxb, block_first by lia.
Qed.
(** A block of what is left that starts lower starts where a block of [A] does. *)
Lemma starts_lower A Ac ib idx i index : family_ok top A → family_ok top Ac → 0 ≤ ib → 0 ≤ i → without A Ac ib idx →
  starts A ib idx → starts Ac i index → index * 2 ^ i < idx * 2 ^ ib → starts A i index.
Proof.
  intros HA HAc Hib Hi Hwo (k & m & Hk & Hm & Es) (k' & m' & Hk' & Hm' & Et) Hlt. set (t := index * 2 ^ i) in *.
  assert (covers A t) as [k0 Hk0] by (apply Hwo; exists k'; by rewrite Et, block_first by lia).
  pose proof (proj1 (proj1 HA _ _ Hk0)) as Hk00.
  assert (idx * 2 ^ ib / 2 ^ k0 ≠ t / 2 ^ k0) as Hs.
  { intros E. assert (k0 = k) as -> by (apply (proj1 (proj2 HA) (idx * 2 ^ ib)); [by rewrite E|by rewrite Es, block_first by lia]).
    rewrite Es, block_first in E by lia. pose proof (proj1 (block_range t k m ltac:(lia)) (eq_sym E)). lia. }
  assert (t / 2 ^ k0 ∈ Ac k0) as Hc.
  { apply (canonical top Ac A); [done..|by intros x [? _]%Hwo|done|]. intros x Hx. apply Hwo. split; [exists k0; by rewrite Hx|].
    intros Hxb. assert (x / 2 ^ k = m) as Hxm.
    { rewrite (block_up x ib k), Hxb by lia. rewrite <-(block_first ib idx), <-block_up, Es by lia. apply block_first. lia. }
    assert (k0 = k) as -> by (apply (proj1 (proj2 HA) x); [by rewrite Hx|by rewrite Hxm]).
    apply Hs. by rewrite Es, block_first, <-Hxm, Hx by lia. }
  assert (k0 = k') as -> by (apply (proj1 (proj2 HAc) t); [done|by rewrite Et, block_first by lia]).
  exists k', m'. split_and!; [done| |done]. rewrite Et, block_first in Hk0 by lia. done.
Qed.
Lemma taken_starts A o p : 0 ≤ o → taken_block A o p → starts A o p.
Proof.
  intros Ho (k & m & Hk & Hm & -> & _). exists k, m. split_and!; [lia|done|]. rewrite (pow_split o k) by lia. ring.
Qed.
Lemma lowest_turn_ok b0 A o i st : buddy_ok cap l n top b0 A → 0 ≤ o → i ≤ top → lowest_inv A o i st →
  ∃ st', lowest_turn st i = Some st' ∧ lowest_inv A o (i + 1) st'.
Proof.
  intros Hok0 Ho Hi. destruct st as [[[b [idx ib]] at_order] mult].
  intros (-> & Hib & -> & Hw & Hst & Hmin & Ac & Hok & Hwo). pose proof (ok_family _ _ Hok0) as HA. pose proof (ok_family _ _ Hok) as HAc.
  assert (2 ^ (i - o) * 2 = 2 ^ (i + 1 - o)) as Hmult by (replace (i + 1 - o) with (i - o + 1) by lia; rewrite pow_succ by lia; lia).
  destruct (ok_whole b0 A ib idx Hok0 ltac:(lia) Hw) as [Hidx Hilen]. apply in_len in Hilen; [|lia].
  unfold lowest_turn. destruct (alloc_inner_ok b Ac i Hok ltac:(lia)) as (r & b1 & -> & Hr). cbn [mbind option_bind fst snd].
  destruct r as [index|].
  2:{ destruct Hr as [-> Hempty]. eexists. split; [done|]. rewrite Hmult. split_and!; try done; try lia; [|by exists Ac].
      intros j q Hj Hq. destruct (decide (j = i)) as [->|]; [|apply Hmin; [lia|done]].
      destruct (block_kept A Ac ib idx i q) as [Hin| ->]; try done; try lia. rewrite Hempty in Hin by lia. set_solver. }
  destruct Hr as (Htb & Hwi & A1 & Hok1 & Hcov1). destruct (ok_whole b Ac i index Hok ltac:(lia) Hwi) as [Hx0 Hxlen].
  apply in_len in Hxlen; [|lia]. assert (starts Ac i index) as Hsti by (apply taken_starts; [lia|done]).
  assert (index * 2 ^ (i - o) < idx * 2 ^ (ib - o) ↔ index * 2 ^ i < idx * 2 ^ ib) as Hcmp.
  { rewrite (pow_split o i), (pow_split o ib) by lia. rewrite !(Z.mul_comm (2 ^ o)), !Z.mul_assoc.
    apply Z.mul_lt_mono_pos_r. by apply pow_pos. }
  assert (∀ q, q ∈ A i → q ∈ Ac i → index * 2 ^ i ≤ q * 2 ^ i) as Hle.
  { intros q _ Hq. destruct Htb as (k & m & Hk & Hm & -> & Hmin' & Hempty). destruct (decide (k = i)) as [->|].
    - rewrite Z.sub_diag, Z.mul_1_r. specialize (Hmin' q Hq). pose proof (pow_pos i ltac:(lia)). nia.
    - rewrite (Hempty i) in Hq by lia. set_solver. }
  destruct (Z.ltb_spec (index * 2 ^ (i - o)) (idx * 2 ^ (ib - o))) as [Hlt|Hge].
  - apply Hcmp in Hlt. destruct (free_inner_ok b1 A1 ib idx) as (b2 & A2 & -> & Hok2 & Hcov2); [done|lia|done|done| |].
    { intros x Hx Hc. apply Hcov1 in Hc as [Hc _]. apply Hwo in Hc as [_ Hc]. done. }
    cbn [mbind option_bind]. eexists. split; [done|]. rewrite Hmult. split_and!; try done; try lia.
    + intros x Hx. by apply Hwo, Hwi.
    + by apply (starts_lower A Ac ib idx); try lia.
    + intros j q Hj Hq. destruct (decide (j = i)) as [->|]; [|specialize (Hmin j q ltac:(lia) Hq); lia].
      destruct (block_kept A Ac ib idx i q) as [Hin|E]; try done; try lia. by apply Hle.
    + exists A2. split; [done|]. intros x. rewrite Hcov2, Hcov1. pose proof (Hwo x) as Hwox. split.
      * intros [[Hc Hne]|Hx]; [split; [tauto|done]|]. split; [by apply Hw|]. intros Hxi. apply Hwi in Hxi. tauto.
      * intros [Hc Hne]. destruct (decide (x / 2 ^ ib = idx)); [by right|left; tauto].
  - destruct (free_inner_ok b1 A1 i index) as (b2 & A2 & -> & Hok2 & Hcov2); [done|lia|done|done| |].
    { intros x Hx Hc. by apply Hcov1 in Hc as [_ ?]. }
    cbn [mbind option_bind]. eexists. split; [done|]. rewrite Hmult. split_and!; try done; try lia.
    + intros j q Hj Hq. destruct (decide (j = i)) as [->|]; [|apply Hmin; [lia|done]].
      destruct (block_kept A Ac ib idx i q) as [Hin|E]; try done; try lia. specialize (Hle q Hq Hin). lia.
    + exists A2. split; [done|]. intros x. rewrite Hcov2, Hcov1, <-(Hwo x). split.
      * intros [[Hc _]|Hx]; [done|by apply Hwi].
      * intros Hc. destruct (decide (x / 2 ^ i = index)); [by right|by left].
Qed.
Lemma lowest_turns_ok b0 A o os i st : buddy_ok cap l n top b0 A → 0 ≤ o → os = seqZ i (top + 1 - i) → i ≤ top + 1 → lowest_inv A o i st →
  ∃ st', fold_opt lowest_turn st os = Some st' ∧ lowest_inv A o (top + 1) st'.
Proof.
  intros Hok Ho. revert i st. induction os as [|j os IH]; intros i st El Hi Hst.
  - assert (i = top + 1) as ->; [|by exists st]. destruct (decide (i ≤ top)); [|lia]. by rewrite seqZ_cons in El by lia.
  - destruct (decide (i ≤ top)); [|by rewrite seqZ_nil in El by lia]. rewrite seqZ_cons in El by lia. injection El as -> El.
    cbn [fold_opt]. destruct (lowest_turn_ok b0 A o i st) as (st1 & -> & Hst1); try done. cbn [mbind option_bind].
    apply (IH (i + 1)); [|lia|done]. rewrite El. f_equal; lia.
Qed.
Lemma split_down_ok A o k b Ac idx : 0 ≤ o → o + Z.of_nat k ≤ top → buddy_ok cap l n top b Ac → 0 ≤ idx →
  (idx + 1) * 2 ^ (o + Z.of_nat k) ≤ n → whole A (o + Z.of_nat k) idx → without A Ac (o + Z.of_nat k) idx →
  ∃ b' A', split_down k b (idx, o + Z.of_nat k) = Some (b', (idx * 2 ^ Z.of_nat k, o))
    ∧ buddy_ok cap l n top b' A' ∧ without A A' o (idx * 2 ^ Z.of_nat k).
Proof.
  intros Ho. revert b Ac idx. induction k as [|k IH]; intros b Ac idx Hk Hok Hx Hlen Hw Hwo.
  - exists b, Ac. rewrite Z.add_0_r in *. cbn [split_down]. change (2 ^ Z.of_nat 0) with 1. rewrite Z.mul_1_r. by split_and!.
  - cbn [split_down]. rewrite Nat2Z.inj_succ in *. replace (o + Z.succ (Z.of_nat k) - 1) with (o + Z.of_nat k) by lia.
    set (j := o + Z.of_nat k) in *. replace (o + Z.succ (Z.of_nat k)) with (j + 1) in * by lia.
    destruct (split_ok b Ac j idx) as (b1 & A1 & -> & Hok1 & Hcov1); [done|lia|done|done| |].
    { intros x E Hc. by apply Hwo in Hc as [_ ?]. }
    cbn [mbind option_bind]. destruct (IH b1 A1 (idx * 2)) as (b' & A' & E & Hok' & Hwo'); [lia|done|lia| | | |].
    + rewrite pow_succ in Hlen by lia. pose proof (pow_pos j ltac:(lia)). nia.
    + intros x E. apply Hw, halves; lia.
    + intros x. rewrite Hcov1, (Hwo x), halves by lia. replace (idx * 2) with (2 * idx) by lia. split.
      * intros [[Hc Hne]|E]; [split; [done|]; intros E; apply Hne; by left|]. split; [apply Hw, halves; [lia|by right]|lia].
      * intros [Hc Hne]. destruct (decide (x / 2 ^ j = 2 * idx + 1)); [by right|left]. split; [done|]. by intros [?|?].
    + exists b', A'. rewrite Z.pow_succ_r, Z.mul_assoc by lia. by rewrite E.
Qed.
Lemma alloc_lowest_ok b A o : buddy_ok cap l n top b A → 0 ≤ o →
  ∃ r b', alloc_lowest b o = Some (r, b') ∧ match r with
    | Some p => whole A o p ∧ (∀ q, whole A o q → p ≤ q) ∧ ∃ A', buddy_ok cap l n top b' A' ∧ without A A' o p
    | None => b' = b ∧ ∀ i, o ≤ i → A i = ∅
    end.
Proof.
  intros Hok Ho. unfold alloc_lowest. destruct (alloc_inner_ok b A o Hok Ho) as (r & b1 & -> & Hr). cbn [mbind option_bind].
  destruct r as [p|]; [|by exists None, b1]. destruct Hr as (Htb & Hw & A1 & Hok1 & Hwo1).
  assert (o ≤ top) as Hot by (destruct Htb as (k & m & Hk & _); lia). pose proof Hok1 as (_ & -> & _).
  destruct (lowest_turns_ok b A o (seqZ (o + 1) (top - o)) (o + 1) (b1, (p, o), p, 2)) as ([[[b2 [idx ib]] at_order] mult] & -> & Hinv); try done; try lia.
  { f_equal; lia. }
  { split_and!; try done; try lia.
    - by replace (o + 1 - o) with 1 by lia.
    - by rewrite Z.sub_diag, Z.mul_1_r.
    - by apply taken_starts.
    - intros j q Hj Hq. assert (j = o) as -> by lia. destruct Htb as (k & m & Hk & Hm & -> & Hmin & Hempty).
      destruct (decide (k = o)) as [->|]; [|rewrite (Hempty o) in Hq by lia; set_solver].
      rewrite Z.sub_diag, Z.mul_1_r. specialize (Hmin q Hq). pose proof (pow_pos o Ho). nia.
    - by exists A1. }
  destruct Hinv as (_ & Hib & -> & Hwi & Hst & Hmin & Ac & Hokc & Hwo). cbn [mbind option_bind snd].
  destruct (ok_whole b A ib idx Hok ltac:(lia) Hwi) as [Hx0 Hxlen]. apply in_len in Hxlen; [|lia].
  destruct (split_down_ok A o (Z.to_nat (ib - o)) b2 Ac idx) as (b3 & A3 & E & Hok3 & Hwo3); try done; try lia;
    rewrite ?Z2Nat.id in * by lia; replace (o + (ib - o)) with ib in * by lia; try done.
  rewrite E. cbn [mbind option_bind fst]. rewrite Z.eqb_refl. cbn [check mbind option_bind].
  exists (Some (idx * 2 ^ (ib - o))), b3. split; [done|]. split_and!; [| |by exists A3].
  - intros x Hx. apply Hwi. by rewrite (block_up x o ib), Hx, Z.div_mul by (lia || (apply Z.pow_nonzero; lia)).
  - intros q Hq. destruct (covered top A o q) as (k & Hk & Hqk); [by eapply ok_family|lia|done|].
    specialize (Hmin k _ ltac:(lia) Hqk). rewrite (pow_split o ib), (pow_split o k) in Hmin by lia. pose proof (pow_pos o Ho).
    pose proof (pow_pos (k - o) ltac:(lia)). pose proof (Z.div_mod q (2 ^ (k - o)) ltac:(lia)). pose proof (Z.mod_pos_bound q (2 ^ (k - o)) ltac:(lia)).
    assert (idx * 2 ^ (ib - o) * 2 ^ o ≤ q / 2 ^ (k - o) * 2 ^ (k - o) * 2 ^ o) as Hm by lia. apply Z.mul_le_mono_pos_r in Hm; [|done]. lia.
Qed.

(** ** Queries *)
Lemma level_pages o (F : gset Z) : 0 ≤ o → ∃ P : gset Z, (∀ x, x ∈ P ↔ x / 2 ^ o ∈ F) ∧ Z.of_nat (size P) = Z.of_nat (size F) * 2 ^ o.
Proof.
  intros Ho. pattern F. apply set_ind; clear F; [by intros F F' ->%leibniz_equiv| |].
  - exists ∅. rewrite !size_empty. split; [set_solver|lia].
  - intros p F Hp (P & HP & Hs). set (B := list_to_set (seqZ (p * 2 ^ o) (2 ^ o)) : gset Z).
    assert (∀ x, x ∈ B ↔ x / 2 ^ o = p) as HB.
    { intros x. unfold B. rewrite elem_of_list_to_set, elem_of_seqZ, block_range by done. lia. }
    exists (B ∪ P). split; [intros x; set_solver|].
    rewrite !size_union by (set_solver || (intros x [Hx1%HB Hx2%HP]%elem_of_intersection; congruence) || (intros x Hx1%HB Hx2%HP; congruence)).
    rewrite size_singleton. unfold B. rewrite size_list_to_set, length_seqZ by apply NoDup_seqZ.
    pose proof (pow_pos o Ho). lia.
Qed.
Lemma fold_opt_app {X Y} (f : X → Y → option X) a l1 l2 : fold_opt f a (l1 ++ l2) = fold_opt f a l1 ≫= λ a, fold_opt f a l2.
Proof. revert a. induction l1 as [|y l1 IH]; intros a; [done|]. cbn [fold_opt app]. destruct (f a y); cbn [mbind option_bind]; [apply IH|done]. Qed.
Lemma fold_opt_checks {Y} (f : () → Y → option ()) ys : (∀ y, y ∈ ys → f () y = Some ()) → fold_opt f () ys = Some ().
Proof.
  induction ys as [|y ys IH]; intros Hl; [done|]. cbn [fold_opt]. rewrite Hl by by left. cbn [mbind option_bind]. apply IH. intros z Hz. apply Hl. by right.
Qed.
Lemma count_levels b A k : buddy_ok cap l n top b A → Z.of_nat k ≤ top + 1 →
  ∃ P : gset Z, (∀ x, x ∈ P ↔ ∃ o, 0 ≤ o < Z.of_nat k ∧ x / 2 ^ o ∈ A o)
    ∧ fold_opt (λ pages order, bm ← get_order_free b order; n ← Bitmap.count_unset bm; Some (pages + n * 2 ^ order)) 0 (seqZ 0 (Z.of_nat k))
      = Some (Z.of_nat (size P)).
Proof.
  intros Hok. induction k as [|k IH]; intros Hk.
  - exists ∅. split; [intros x; split; [set_solver|lia || (intros (o & ? & _); lia)]|]. rewrite seqZ_nil by lia. by rewrite size_empty.
  - destruct IH as (P & HP & E); [lia|]. destruct (ok_order b A (Z.of_nat k) Hok ltac:(lia)) as (bm & Eb & Hbm).
    destruct (level_pages (Z.of_nat k) (A (Z.of_nat k)) ltac:(lia)) as (P' & HP' & Hs). exists (P ∪ P'). split.
    + intros x. rewrite elem_of_union, HP, HP'. split.
      * intros [(o & Ho & Hx)|Hx]; [exists o; split; [lia|done]|exists (Z.of_nat k); split; [lia|done]].
      * intros (o & Ho & Hx). destruct (decide (o = Z.of_nat k)) as [->|]; [by right|left]. exists o. split; [lia|done].
    + replace (Z.of_nat (S k)) with (Z.of_nat k + 1) by lia. rewrite seqZ_app, fold_opt_app, E by lia. cbn [mbind option_bind].
      rewrite (seqZ_cons _ 1), (seqZ_nil _ (Z.pred 1)) by lia. cbn [fold_opt]. rewrite Z.add_0_l, Eb. cbn [mbind option_bind].
      rewrite (Bitmap.bt_count _ _ _ Hbm). cbn [mbind option_bind]. f_equal. rewrite size_union, Nat2Z.inj_add, Hs; [done|].
      intros x (o & Ho & Hx)%HP Hx'%HP'. assert (o = Z.of_nat k); [|lia]. by apply (proj1 (proj2 (ok_family _ _ Hok)) x).
Qed.
Lemma count_ok b A (P : gset Z) : buddy_ok cap l n top b A → (∀ x, x ∈ P ↔ covers A x) → count_free_pages b = Some (Z.of_nat (size P)).
Proof.
  intros Hok HP. pose proof Hok as (_ & Htop & _ & _ & Ht & _). unfold count_free_pages, orders. rewrite Htop.
  destruct (count_levels b A (S (Z.to_nat top)) Hok ltac:(lia)) as (P' & HP' & E).
  replace (Z.of_nat (S (Z.to_nat top))) with (top + 1) in * by lia. rewrite E. do 3 f_equal. apply set_eq. intros x.
  rewrite HP', HP. split; [intros (o & _ & Hx); by exists o|]. intros [o Hx]. exists o. split; [|done].
  pose proof (proj1 (proj1 (ok_family _ _ Hok) _ _ Hx)). lia.
Qed.
Lemma find_free_ok b A p o k : buddy_ok cap l n top b A → 0 ≤ p → 0 ≤ o → o + Z.of_nat k = top + 1 →
  ∃ r, find_free b (p / 2 ^ o) (seqZ o (Z.of_nat k)) = Some r ∧ match r with
    | Some j => p / 2 ^ j ∈ A j
    | None => ∀ j, o ≤ j → p / 2 ^ j ∉ A j
    end.
Proof.
  intros Hok Hp. revert o. induction k as [|k IH]; intros o Ho Hk.
  - rewrite seqZ_nil by lia. exists None. split; [done|]. intros j Hj Hin. destruct (ok_member _ _ _ _ Hok Hin). lia.
  - rewrite seqZ_cons by lia. cbn [find_free]. replace (Z.pred (Z.of_nat (S k))) with (Z.of_nat k) by lia.
    change (Z.succ o) with (o + 1). destruct (ok_order b A o Hok ltac:(lia)) as (bm & -> & Hbm). cbn [mbind option_bind].
    rewrite (Bitmap.bt_len _ _ _ Hbm). cbn [mbind option_bind].
    assert ((if p / 2 ^ o <? n / 2 ^ o then negb <$> Bitmap.get bm (p / 2 ^ o) else Some false) = Some (bool_decide (p / 2 ^ o ∈ A o))) as ->.
    { destruct (Z.ltb_spec (p / 2 ^ o) (n / 2 ^ o)).
      - rewrite (Bitmap.bt_get _ _ _ _ Hbm) by (split; [apply Z.div_pos; [done|by apply pow_pos]|done]). cbn. by case_bool_decide as H1; case_bool_decide as H2.
      - symmetry. f_equal. apply bool_decide_eq_false_2. intros Hin. destruct (ok_member _ _ _ _ Hok Hin). lia. }
    cbn [mbind option_bind]. case_bool_decide as Hin; [by exists (Some o)|]. unfold next_higher_order. rewrite <-block_succ by done.
    destruct (IH (o + 1)) as (r & -> & Hr); [lia|lia|]. exists r. split; [done|]. destruct r; [done|].
    intros j Hj. destruct (decide (j = o)) as [->|]; [done|apply Hr; lia].
Qed.
Lemma find_free_order_ok b A p : buddy_ok cap l n top b A → 0 ≤ p →
  ∃ r, find_free_order b p = Some r ∧ match r with Some j => p / 2 ^ j ∈ A j | None => ¬ covers A p end.
Proof.
  intros Hok Hp. pose proof Hok as (_ & Htop & _ & _ & Ht & _). unfold find_free_order, orders. rewrite Htop.
  destruct (find_free_ok b A p 0 (S (Z.to_nat top)) Hok Hp ltac:(lia) ltac:(lia)) as (r & E & Hr).
  rewrite Z.div_1_r in E. replace (Z.of_nat (S (Z.to_nat top))) with (top + 1) in E by lia. exists r. split; [done|].
  destruct r; [done|]. intros [j Hj]. apply (Hr j); [|done]. by apply (ok_member _ _ _ _ Hok Hj).
Qed.
(** The pages at the end that are free. *)
Definition trailing A (t : Z) : Prop := 0 ≤ t ≤ n ∧ (∀ x, n - t ≤ x < n → covers A x) ∧ (t < n → ¬ covers A (n - t - 1)).
Lemma trailing_loop_ok fuel b A t : buddy_ok cap l n top b A → 0 ≤ t < n → n - t < Z.of_nat fuel →
  (∀ x, n - t ≤ x < n → covers A x) → (t = 0 ∨ ∃ o p, p ∈ A o ∧ p * 2 ^ o = n - t) →
  ∃ t', trailing_loop fuel b t (n - 1 - t) = Some t' ∧ trailing A t'.
Proof.
  intros Hok. revert t. induction fuel as [|fuel IH]; intros t Ht Hf Hcov Hstart; [lia|]. cbn [trailing_loop].
  destruct (find_free_order_ok b A (n - 1 - t) Hok ltac:(lia)) as (r & -> & Hr). cbn [mbind option_bind]. destruct r as [o|].
  2:{ exists t. split; [done|]. split_and!; [lia|lia|done|]. intros _. by replace (n - t - 1) with (n - 1 - t) by lia. }
  destruct (ok_member _ _ _ _ Hok Hr) as (Ho & Hq & _). set (q := (n - 1 - t) / 2 ^ o) in *. pose proof (pow_pos o ltac:(lia)).
  pose proof (proj1 (block_range (n - 1 - t) o q ltac:(lia)) eq_refl) as Hrange.
  assert ((q + 1) * 2 ^ o = n - t) as Hend.
  { destruct (decide (n - t < (q + 1) * 2 ^ o)) as [Hlt|]; [exfalso|lia].
    assert ((n - t) / 2 ^ o = q) as E by (apply block_range; lia).
    destruct Hstart as [->|(o' & p' & Hp' & Ep')].
    - assert (covers A n) as Hc by (exists o; by rewrite Z.sub_0_r in E; rewrite E). apply (ok_covers _ _ _ Hok) in Hc. lia.
    - destruct (ok_member _ _ _ _ Hok Hp') as (Ho' & _).
      assert (o' = o) as -> by (apply (proj1 (proj2 (ok_family _ _ Hok)) (n - t)); [by rewrite <-Ep', block_first by lia|by rewrite E]).
      rewrite <-Ep', block_first in E by lia. subst p'. lia. }
  assert (∀ x, n - (t + 2 ^ o) ≤ x < n → covers A x) as Hcov'.
  { intros x Hx. destruct (decide (n - t ≤ x)); [apply Hcov; lia|]. exists o. replace (x / 2 ^ o) with q; [done|]. symmetry. apply block_range; lia. }
  assert (0 ≤ q * 2 ^ o) by (apply Z.mul_nonneg_nonneg; lia).
  destruct (Z.ltb_spec (n - 1 - t) (2 ^ o)).
  - exists (t + 2 ^ o). split; [done|]. split_and!; [lia|lia|done|lia].
  - replace (n - 1 - t - 2 ^ o) with (n - 1 - (t + 2 ^ o)) by lia. apply IH; [lia|lia|done|].
    right. exists o, q. split; [done|lia].
Qed.
Lemma trailing_ok b A : buddy_ok cap l n top b A → l = n → 0 < n → ∃ t, trailing_free_pages b = Some t ∧ trailing A t.
Proof.
  intros Hok El Hn. pose proof Hok as (Hlen & _). unfold trailing_free_pages. rewrite Hlen, El, (proj2 (Z.ltb_lt _ _)) by done.
  cbn [check mbind option_bind]. replace (n - 1) with (n - 1 - 0) by lia.
  apply (trailing_loop_ok _ b A 0); [done|lia|lia|lia|by left].
Qed.
Lemma highest_ok b A : buddy_ok cap l n top b A →
  ∃ r, highest_free_order b = Some r ∧ match r with
    | Some o => 0 ≤ o ≤ top ∧ A o ≠ ∅ ∧ ∀ k, o < k → A k = ∅
    | None => ∀ k, A k = ∅
    end.
Proof.
  intros Hok. pose proof Hok as (_ & Htop & _ & _ & Ht & _). unfold highest_free_order, orders_rev, orders. rewrite Htop.
  assert (∀ k, Z.of_nat k ≤ top + 1 → (∀ j, Z.of_nat k ≤ j → A j = ∅) → ∃ r, highest_free b (reverse (seqZ 0 (Z.of_nat k))) = Some r ∧ match r with
    | Some o => 0 ≤ o ≤ top ∧ A o ≠ ∅ ∧ ∀ k, o < k → A k = ∅ | None => ∀ k, A k = ∅ end) as H.
  { intros k. induction k as [|k IH]; intros Hk He.
    - exists None. rewrite seqZ_nil by lia. split; [done|]. intros j. destruct (decide (0 ≤ j)); [by apply He; lia|].
      apply set_eq. intros p. split; [|by intros ?%elem_of_empty]. intros Hp. destruct (ok_member _ _ _ _ Hok Hp). lia.
    - replace (Z.of_nat (S k)) with (Z.of_nat k + 1) in * by lia. rewrite seqZ_app, (seqZ_cons _ 1), (seqZ_nil _ (Z.pred 1)), reverse_app by lia.
      cbn [reverse rev_append app highest_free]. rewrite Z.add_0_l. change (reverse [Z.of_nat k]) with [Z.of_nat k]. cbn [app highest_free].
      destruct (ok_order b A (Z.of_nat k) Hok ltac:(lia)) as (bm & -> & Hbm). cbn [mbind option_bind].
      rewrite (Bitmap.bt_has _ _ _ Hbm). cbn [mbind option_bind]. case_bool_decide as Hne.
      + exists (Some (Z.of_nat k)). split_and!; [done|lia|lia|done|]. intros j Hj. apply He. lia.
      + apply IH; [lia|]. intros j Hj. destruct (decide (j = Z.of_nat k)) as [->|]; [|apply He; lia]. done. }
  destruct (H (S (Z.to_nat top))) as (r & E & Hr); [lia| |].
  - intros j Hj. apply set_eq. intros p. split; [|by intros ?%elem_of_empty]. intros Hp. destruct (ok_member _ _ _ _ Hok Hp). lia.
  - replace (Z.of_nat (S (Z.to_nat top))) with (top + 1) in E by lia. eauto.
Qed.

(** ** The debug assertions hold *)
Lemma check_page_ok b A p o k found : buddy_ok cap l n top b A → 0 ≤ p → 0 ≤ o → o + Z.of_nat k = top + 1 →
  (found = true → ∃ j, j < o ∧ p / 2 ^ j ∈ A j) → check_page b (p / 2 ^ o) found (seqZ o (Z.of_nat k)) = Some ().
Proof.
  intros Hok Hp. revert o found. induction k as [|k IH]; intros o found Ho Hk Hf; [by rewrite seqZ_nil by lia|].
  rewrite seqZ_cons by lia. cbn [check_page]. replace (Z.pred (Z.of_nat (S k))) with (Z.of_nat k) by lia. change (Z.succ o) with (o + 1).
  destruct (ok_order b A o Hok ltac:(lia)) as (bm & -> & Hbm). cbn [mbind option_bind]. rewrite (Bitmap.bt_len _ _ _ Hbm). cbn [mbind option_bind].
  destruct (Z.leb_spec (n / 2 ^ o) (p / 2 ^ o)); [done|].
  rewrite (Bitmap.bt_get _ _ _ _ Hbm) by (split; [apply Z.div_pos; [done|by apply pow_pos]|done]). cbn [mbind option_bind].
  unfold next_higher_order. rewrite <-block_succ by done. case_bool_decide as Hin.
  - cbn [orb check mbind option_bind negb]. rewrite orb_false_r. apply IH; [lia|lia|]. intros Hfd. destruct (Hf Hfd) as (j & ? & ?). exists j. split; [lia|done].
  - destruct found.
    { destruct (Hf eq_refl) as (j & Hj & Hin'). assert (j = o); [|lia]. by apply (proj1 (proj2 (ok_family _ _ Hok)) p). }
    cbn [orb check mbind option_bind negb]. apply IH; [lia|lia|]. intros _. exists o. split; [lia|done].
Qed.
Lemma check_merged_ok b A o p : buddy_ok cap l n top b A → 0 ≤ o < top → 0 ≤ p < n / 2 ^ o → check_merged b o p = Some ().
Proof.
  intros Hok Ho Hp. unfold check_merged. destruct (ok_order b A o Hok ltac:(lia)) as (bm & -> & Hbm). cbn [mbind option_bind].
  rewrite (Bitmap.bt_get _ _ _ p Hbm Hp). cbn [mbind option_bind]. case_bool_decide as Hin; [done|].
  rewrite (Bitmap.bt_len _ _ _ Hbm). cbn [mbind option_bind]. change (buddy_page p) with (buddy p).
  destruct (Z.ltb_spec (buddy p) (n / 2 ^ o)); [|done].
  assert (0 ≤ buddy p).
  { rewrite buddy_eq. pose proof (Z.div_mod p 2 ltac:(lia)). pose proof (Z.mod_pos_bound p 2 ltac:(lia)). pose proof (Z.div_pos p 2). lia. }
  rewrite (Bitmap.bt_get _ _ _ (buddy p) Hbm) by done. cbn [mbind option_bind]. rewrite bool_decide_eq_true_2; [done|].
  apply (ok_family _ _ Hok); [lia|done].
Qed.
Lemma consistent b A : buddy_ok cap l n top b A → l = n → debug_check_consistency b = Some ().
Proof.
  intros Hok El. pose proof Hok as (Hlen & Htop & _ & _ & Ht & _). unfold debug_check_consistency, orders. rewrite Hlen, El, Htop.
  rewrite fold_opt_checks; [rewrite fold_opt_checks; [done|]|].
  - intros p Hp%elem_of_seqZ. rewrite <-(Z.div_1_r p). change 1 with (2 ^ 0) at 1. replace (top + 1) with (Z.of_nat (S (Z.to_nat top))) by lia.
    apply (check_page_ok b A); [done|lia|lia|lia|done].
  - intros o Ho. apply elem_of_reverse, elem_of_seqZ in Ho.
    apply fold_opt_checks. intros p Hp%elem_of_seqZ. apply (check_merged_ok b A); [done|lia|lia].
Qed.

End ok.

(** ** Filling a range block by block *)
Lemma mod_sub x i j : 0 ≤ i ≤ j → x `mod` 2 ^ j = 0 → x `mod` 2 ^ i = 0.
Proof.
  intros Hij Hx. pose proof (pow_pos i ltac:(lia)). pose proof (pow_pos j ltac:(lia)). apply Z.mod_divide in Hx; [|lia].
  apply Z.mod_divide; [lia|]. etrans; [|exact Hx]. rewrite (pow_split i j) by done. apply Z.divide_factor_l.
Qed.
Lemma mod_add x i : 0 ≤ i → x `mod` 2 ^ i = 0 → (x + 2 ^ i) `mod` 2 ^ i = 0.
Proof. intros Hi Hx. pose proof (pow_pos i Hi). rewrite <-(Z.mul_1_l (2 ^ i)) at 1. by rewrite Z.mod_add by lia. Qed.
Lemma aligned_eq x o : 0 ≤ o → x `mod` 2 ^ o = 0 → x / 2 ^ o * 2 ^ o = x.
Proof. intros Ho Hx. pose proof (pow_pos o Ho). pose proof (Z.div_mod x (2 ^ o) ltac:(lia)). lia. Qed.
Lemma zeros_from_ok k i w : 0 ≤ zeros_from k i w ≤ Z.of_nat k
  ∧ (∀ j, i ≤ j < i + zeros_from k i w → Z.testbit w j = false)
  ∧ (zeros_from k i w = Z.of_nat k → ∀ j, i ≤ j < i + Z.of_nat k → Z.testbit w j = false).
Proof.
  revert i. induction k as [|k IH]; intros i; cbn [zeros_from]; [split_and!; intros; lia|].
  destruct (IH (i + 1)) as (H1 & H2 & H3). rewrite Nat2Z.inj_succ. destruct (Z.testbit w i) eqn:Hb; [split_and!; intros; lia|].
  split_and!; [lia|lia| |]; intros; (destruct (decide (j = i)) as [->|]; [done|]); [apply H2|apply H3]; lia.
Qed.
Lemma low_bits_zero x k : 0 ≤ k → (∀ j, 0 ≤ j < k → Z.testbit x j = false) → x `mod` 2 ^ k = 0.
Proof.
  intros Hk Hb. apply Z.bits_inj_iff'. intros j Hj. rewrite Z.bits_0. destruct (decide (j < k)).
  - rewrite Z.mod_pow2_bits_low by done. apply Hb. lia.
  - by rewrite Z.mod_pow2_bits_high by lia.
Qed.
Lemma trailing_zeros_ok x : 0 ≤ x → 0 ≤ trailing_zeros x ∧ x `mod` 2 ^ trailing_zeros x = 0 ∧ (0 < x < 2 ^ 32 → trailing_zeros x < 32).
Proof.
  intros Hx. unfold trailing_zeros. destruct (zeros_from_ok 32 0 x) as (H1 & H2 & H3). split_and!; [lia| |].
  - apply low_bits_zero; [lia|]. intros j Hj. apply H2. lia.
  - intros Hlt. destruct (decide (zeros_from 32 0 x = 32)) as [E|]; [|lia]. specialize (H3 E).
    assert (x `mod` 2 ^ 32 = 0) as E0 by (apply low_bits_zero; [lia|]; intros j Hj; apply H3; lia). rewrite Z.mod_small in E0 by lia. lia.
Qed.

Section fill_spec.
Variable act : BuddyAllocator → Z → Z → option BuddyAllocator.
Variables limit top : Z.
Variable P : Z → BuddyAllocator → Prop.
Hypothesis Ptop : ∀ x b, P x b → max_order b = top.
Hypothesis act_ok : ∀ x o b, P x b → 0 ≤ o ≤ top → 0 ≤ x → x `mod` 2 ^ o = 0 → x + 2 ^ o ≤ limit →
  (o = top ∨ limit < x + 2 ^ (o + 1)) → ∃ b', act b (x / 2 ^ o) o = Some b' ∧ P (x + 2 ^ o) b'.

Lemma fill_order_ok fuel o x b : 0 ≤ o ≤ top → 0 ≤ x ≤ limit → P x b → (o = top ∨ limit < x + 2 ^ (o + 1)) →
  x `mod` 2 ^ o = 0 ∨ limit < x + 2 ^ o → (limit - x) / 2 ^ o < Z.of_nat fuel →
  ∃ x' b', fill_order act limit fuel o x b = Some (x', b') ∧ P x' b' ∧ x ≤ x' ≤ limit ∧ limit < x' + 2 ^ o
    ∧ (x `mod` 2 ^ o = 0 → x' `mod` 2 ^ o = 0) ∧ (limit < x + 2 ^ o → x' = x).
Proof.
  revert x b. induction fuel as [|fuel IH]; intros x b Ho Hx HP Hup Hal Hf; pose proof (pow_pos o ltac:(lia)) as Hpow.
  { pose proof (Z.div_pos (limit - x) (2 ^ o)). lia. }
  cbn [fill_order]. destruct (Z.leb_spec (x + 2 ^ o) limit) as [Hle|Hgt]; [|exists x, b; split_and!; (done || lia)].
  destruct Hal as [Hal|]; [|lia]. destruct (act_ok x o b HP Ho ltac:(lia) Hal Hle Hup) as (b1 & -> & HP1). cbn [mbind option_bind].
  destruct (IH (x + 2 ^ o) b1) as (x' & b' & -> & HP' & Hx' & Hend & Hal' & _); try done; try lia.
  - left. apply mod_add; [lia|done].
  - replace (limit - x) with (limit - (x + 2 ^ o) + 1 * 2 ^ o) in Hf by lia. rewrite Z.div_add in Hf by lia. lia.
  - exists x', b'. split_and!; try done; try lia. intros _. apply Hal', mod_add; [lia|done].
Qed.
(** How far a position is aligned: to the order before [k], or to a block that does
    not fit any more. *)
Definition aligned_for (k x : Z) : Prop := ∃ j, 0 ≤ j ∧ x `mod` 2 ^ j = 0 ∧ (k - 1 ≤ j ∨ limit < x + 2 ^ j).
Lemma fill_orders_ok x b : 0 ≤ top → 0 ≤ x ≤ limit → P x b → aligned_for (top + 1) x →
  ∃ b', fill_orders act limit x b = Some (limit, b') ∧ P limit b'.
Proof.
  intros Ht. unfold fill_orders, orders_rev, orders. intros Hx HP. rewrite (Ptop _ _ HP).
  set (turn := λ '(processed_pages, b) order, fill_order act limit (S (Z.to_nat ((limit - processed_pages) / 2 ^ order))) order processed_pages b).
  assert (∀ k x b, Z.of_nat k ≤ top + 1 → 0 ≤ x ≤ limit → P x b → (Z.of_nat k = top + 1 ∨ limit < x + 2 ^ Z.of_nat k) → aligned_for (Z.of_nat k) x →
    ∃ b', fold_opt turn (x, b) (reverse (seqZ 0 (Z.of_nat k))) = Some (limit, b') ∧ P limit b') as H.
  { clear x b Hx HP. intros k. induction k as [|k IH]; intros x b Hk Hx HP Hup Hal.
    - exists b. rewrite seqZ_nil by lia. destruct Hup as [|Hup]; [lia|]. change (2 ^ Z.of_nat 0) with 1 in Hup. assert (x = limit) as -> by lia. done.
    - replace (Z.of_nat (S k)) with (Z.of_nat k + 1) in * by lia. set (o := Z.of_nat k) in *. pose proof (pow_pos o ltac:(lia)) as Hpow.
      rewrite seqZ_app, (seqZ_cons _ 1), (seqZ_nil _ (Z.pred 1)), reverse_app by lia. rewrite Z.add_0_l. change (reverse [o]) with [o]. cbn [app fold_opt].
      destruct Hal as (j & Hj & Hxj & Hcase).
      assert (x `mod` 2 ^ o = 0 ∨ limit < x + 2 ^ o) as Hal.
      { destruct (decide (o ≤ j)); [left; apply (mod_sub x o j); [lia|done]|right]. destruct Hcase; [lia|].
        pose proof (Z.pow_le_mono_r 2 j o ltac:(lia) ltac:(lia)). lia. }
      destruct (fill_order_ok (S (Z.to_nat ((limit - x) / 2 ^ o))) o x b) as (x' & b' & E & HP' & Hx' & Hend & Hal' & Hstay); try done; try lia.
      change (turn (x, b) o) with (fill_order act limit (S (Z.to_nat ((limit - x) / 2 ^ o))) o x b). rewrite E. cbn [mbind option_bind]. apply IH; try done; try lia.
      destruct (decide (o ≤ j)) as [Hoj|Hoj].
      + exists o. split_and!; [lia| |lia]. apply Hal', (mod_sub x o j); [lia|done].
      + destruct Hcase as [|Hlim]; [lia|]. pose proof (Z.pow_le_mono_r 2 j o ltac:(lia) ltac:(lia)).
        rewrite Hstay by lia. exists j. split_and!; [done|done|by right]. }
  intros Hal. destruct (H (S (Z.to_nat top)) x b) as (b' & E & HP'); rewrite ?Nat2Z.inj_succ, ?Z2Nat.id in * by lia; unfold Z.succ in *; try done; try lia.
  by exists b'.
Qed.
Lemma align_loop_ok fuel first x b : 0 ≤ x ≤ limit → P x b → (first = true → 0 < x) → limit < 2 ^ 32 → limit - x < Z.of_nat fuel →
  (∀ x o b, P x b → 0 ≤ o < top → 0 ≤ x → x `mod` 2 ^ o = 0 → x + 2 ^ o ≤ limit → ∃ b', act b (x / 2 ^ o) o = Some b' ∧ P (x + 2 ^ o) b') →
  ∃ x' b', align_loop act limit fuel first x b = Some (x', b') ∧ P x' b' ∧ 0 ≤ x' ≤ limit ∧ aligned_for (top + 1) x'.
Proof.
  intros Hx HP Hfirst Hlim Hf Hact. revert x b Hx HP Hfirst Hf. induction fuel as [|fuel IH]; intros x b Hx HP Hfirst Hf; [lia|]. cbn [align_loop].
  destruct (Z.ltb_spec x limit) as [Hlt|Hge].
  2:{ exists x, b. split_and!; try done; try lia. exists 0. rewrite Z.mod_1_r. split_and!; [done|done|right; change (2 ^ 0) with 1; lia]. }
  destruct (trailing_zeros_ok x ltac:(lia)) as (Ho & Hal & H32). set (o := trailing_zeros x) in *. pose proof (pow_pos o Ho).
  assert (negb first || (o <? 32) = true) as ->.
  { destruct first; [|done]. cbn. apply Z.ltb_lt, H32. specialize (Hfirst eq_refl). lia. }
  cbn [check mbind option_bind]. rewrite (Ptop _ _ HP). destruct (Z.leb_spec top o) as [Hle|Hlo].
  { exists x, b. split_and!; try done; try lia. exists o. split_and!; [done|done|left; lia]. }
  rewrite (proj2 (Z.eqb_eq _ _) Hal). cbn [check mbind option_bind]. destruct (Z.ltb_spec limit (x + 2 ^ o)) as [Hout|Hin].
  { exists x, b. split_and!; try done; try lia. exists o. split_and!; [done|done|by right]. }
  destruct (Hact x o b HP ltac:(lia) ltac:(lia) Hal Hin) as (b1 & -> & HP1). cbn [mbind option_bind].
  apply IH; try done; try lia.
Qed.
End fill_spec.

(** ** A new allocator *)
Lemma bitmaps_new k n cap : 0 ≤ n ≤ cap → cap < 2 ^ 32 →
  ∃ l, new_bitmaps k n cap = Some l ∧ length l = k
    ∧ ∀ o, (o < k)%nat → ∃ bm, l !! o = Some bm ∧ Bitmap.bt_ok (cap / 2 ^ Z.of_nat o) bm (n / 2 ^ Z.of_nat o) ∅.
Proof.
  revert n cap. induction k as [|k IH]; intros n cap Hn Hcap; cbn [new_bitmaps]; [exists []; split_and!; [done|done|lia]|].
  destruct (Bitmap.new_padded_ok cap n Hn Hcap) as (bm & -> & Hbm). cbn [mbind option_bind]. unfold next_higher_order.
  assert (n / 2 ≤ cap / 2) by (apply Z.div_le_mono; lia).
  destruct (IH (n / 2) (cap / 2)) as (l & -> & Hl & Hall); [split; [apply Z.div_pos; lia|done]|pose proof (Z.div_le_upper_bound cap 2 cap); lia|].
  cbn [mbind option_bind]. exists (bm :: l). split_and!; [done|cbn; lia|]. intros [|o] Ho.
  - exists bm. change (2 ^ Z.of_nat 0) with 1. rewrite !Z.div_1_r. done.
  - destruct (Hall o ltac:(lia)) as (bm' & E & Hbm'). exists bm'. split; [done|].
    rewrite !Z.div_div in Hbm' by (lia || (apply pow_pos; lia)). by rewrite Nat2Z.inj_succ, Z.pow_succ_r by lia.
Qed.
Lemma usable_order cap : 0 < cap ≤ Bitmap.LARGEST → calculate_usable_order cap = Some (Z.log2 cap) ∧ 0 ≤ Z.log2 cap ≤ 20.
Proof.
  intros Hcap. unfold Bitmap.LARGEST in Hcap. assert (0 ≤ Z.log2 cap ≤ 20) as Hl.
  { split; [apply Z.log2_nonneg|]. change 20 with (Z.log2 (2 ^ 20)). apply Z.log2_le_mono. lia. }
  split; [|done]. unfold calculate_usable_order, leading_zeros. rewrite (proj2 (Z.eqb_neq _ _)) by lia.
  replace (32 - (31 - Z.log2 cap) - 1) with (Z.log2 cap) by lia. unfold try_u8.
  rewrite (proj2 (Z.leb_le _ _)), (proj2 (Z.ltb_lt _ _)) by lia. cbn [andb mbind option_bind]. f_equal. unfold MAX_MAX_PAGE_ORDER. lia.
Qed.
(** The blocks below the highest order that a new allocator has are the last ones. *)
Definition filled n top x (A : family) : Prop :=
  (∀ y, covers A y ↔ 0 ≤ y < x) ∧ ∀ o q, o < top → q ∈ A o → n < q * 2 ^ o + 2 ^ (o + 1).
Lemma mark_free_ok cap n top x o b : (∃ A, buddy_ok cap n n top b A ∧ filled n top x A) → 0 ≤ o ≤ top → 0 ≤ x →
  x `mod` 2 ^ o = 0 → x + 2 ^ o ≤ n → o = top ∨ n < x + 2 ^ (o + 1) →
  ∃ b', mark_free b (x / 2 ^ o) o = Some b' ∧ ∃ A, buddy_ok cap n n top b' A ∧ filled n top (x + 2 ^ o) A.
Proof.
  intros (A & Hok & Hcov & Hlast) Ho Hx Hal Hle Hup. set (p := x / 2 ^ o). pose proof (pow_pos o ltac:(lia)).
  assert (p * 2 ^ o = x) as Ep by (apply aligned_eq; [lia|done]). assert (0 ≤ p) by (apply Z.div_pos; lia).
  assert (o < top → buddy p ∉ A o) as Hb.
  { intros Hot Hin. assert (covers A (buddy p * 2 ^ o)) as [_ Hc]%Hcov by (exists o; by rewrite block_first by lia).
    destruct Hup as [|Hup]; [lia|]. specialize (Hlast o _ Hot Hin). rewrite buddy_eq in *. rewrite pow_succ in * by lia.
    pose proof (Z.mod_pos_bound p 2 ltac:(lia)). assert (p `mod` 2 = 0 ∨ p `mod` 2 = 1) as [E|E] by lia; rewrite E in *; nia. }
  assert (apart A o p) as Hap.
  { intros y Hy Hc%Hcov. pose proof (proj1 (block_range y o p ltac:(lia)) Hy). lia. }
  destruct (mark_clear_ok b A o p Hok Ho) as (bm & E & bm' & Ec & _); [split; [done|apply in_len; lia]|done|done|].
  unfold mark_free. rewrite E. cbn [mbind option_bind]. rewrite Ec. eexists. split; [done|].
  destruct (family_add top A o p (ok_family _ _ Hok) Ho ltac:(done) Hap Hb) as [HA' Hcov'].
  destruct (ok_order b A o Hok Ho) as (bm1 & E1 & Hbm). rewrite E in E1. injection E1 as <-.
  destruct (Bitmap.bt_clear _ _ _ p Hbm) as (bm2 & Ec2 & Hbm2); [split; [done|apply in_len; lia]|]. rewrite Ec in Ec2. injection Ec2 as <-.
  eexists. split; [apply ok_update; [exact Hok|done|exact Hbm2|exact HA']|]. split.
  - intros y. rewrite Hcov', Hcov, block_range by lia. lia.
  - intros k q Hk Hq. unfold update in Hq. case_decide as D; [subst k|by apply Hlast].
    apply elem_of_union in Hq as [Hq| ->%elem_of_singleton]; [by apply Hlast|]. lia.
Qed.
Lemma new_ok cap n : 0 < cap ≤ Bitmap.LARGEST → 0 ≤ n ≤ cap →
  ∃ b A, new n cap = Some b ∧ buddy_ok cap n n (Z.log2 cap) b A ∧ ∀ x, covers A x ↔ 0 ≤ x < n.
Proof.
  intros Hcap Hn. destruct (usable_order cap Hcap) as [Eo Htop]. set (top := Z.log2 cap) in *. unfold new. rewrite Eo. cbn [mbind option_bind].
  destruct (bitmaps_new (Z.to_nat (top + 1)) n cap Hn) as (l & -> & Hl & Hall); [unfold Bitmap.LARGEST in Hcap; lia|]. cbn [mbind option_bind].
  destruct (fill_orders_ok mark_free n top (λ x b, ∃ A, buddy_ok cap n n top b A ∧ filled n top x A)) with (x := 0) (b := mkBuddy l n top)
    as (b & -> & A & Hok & Hcov & _).
  - intros x b (A & (_ & ? & _) & _). done.
  - intros x o b H. by apply mark_free_ok.
  - lia.
  - lia.
  - exists (λ _, ∅). split.
    + unfold buddy_ok, MAX_MAX_PAGE_ORDER. cbn [len max_order free]. do 5 (split; [done || lia|]). split; [lia|]. split; [apply family_empty|].
      intros o Ho. destruct (Hall (Z.to_nat o) ltac:(lia)) as (bm & E & Hbm). exists bm. by rewrite Z2Nat.id in Hbm by lia.
    + split; [intros y; split; [intros [o Ho]; set_solver|lia]|set_solver].
  - exists top. split_and!; [lia|by rewrite Z.mod_0_l by (apply Z.pow_nonzero; lia)|left; lia].
  - cbn [mbind option_bind]. rewrite Z.eqb_refl. exists b, A. done.
Qed.

(** ** Resizing *)
Lemma resize_orders_ok cap n m o bms A : 0 ≤ o → 0 ≤ m ≤ cap →
  (∀ k bm, bms !! k = Some bm → Bitmap.bt_ok (cap / 2 ^ (o + Z.of_nat k)) bm (n / 2 ^ (o + Z.of_nat k)) (A (o + Z.of_nat k))) →
  (∀ j i, i ∈ A j → i < m / 2 ^ j) →
  ∃ l, resize_orders (m / 2 ^ o) bms = Some l ∧ length l = length bms
    ∧ ∀ k bm, l !! k = Some bm → Bitmap.bt_ok (cap / 2 ^ (o + Z.of_nat k)) bm (m / 2 ^ (o + Z.of_nat k)) (A (o + Z.of_nat k)).
Proof.
  intros Ho Hm Hbms HA. revert o Ho Hbms. induction bms as [|bm bms IH]; intros o Ho Hbms; cbn [resize_orders]; [exists []; by split_and!|].
  pose proof (Hbms 0%nat bm eq_refl) as Hbm. rewrite Z.add_0_r in Hbm. pose proof (pow_pos o Ho).
  destruct (Bitmap.bt_resize _ _ _ _ (m / 2 ^ o) Hbm) as (bm' & -> & Hbm').
  { split; [apply Z.div_pos; lia|]. apply Z.div_le_mono; lia. }
  { intros i Hi. by apply HA. }
  cbn [mbind option_bind]. unfold next_higher_order. rewrite <-block_succ by done.
  destruct (IH (o + 1)) as (l & -> & Hl & Hall); [lia| |].
  { intros k bm1 Hk. pose proof (Hbms (S k) bm1 Hk) as H1. by replace (o + 1 + Z.of_nat k) with (o + Z.of_nat (S k)) by lia. }
  exists (bm' :: l). split_and!; [done|cbn; lia|]. intros [|k] bm1 Hk.
  - injection Hk as <-. by rewrite Z.add_0_r.
  - pose proof (Hall k bm1 Hk) as H1. by replace (o + Z.of_nat (S k)) with (o + 1 + Z.of_nat k) by lia.
Qed.
Lemma resized cap l n m top b A : buddy_ok cap l n top b A → 0 ≤ m ≤ cap → (∀ x, covers A x → x < m) →
  ∃ bms, resize_orders m (free b) = Some bms ∧ ∀ l', buddy_ok cap l' m top (mkBuddy bms l' (max_order b)) A.
Proof.
  intros Hok Hm Hcov. pose proof Hok as (Hl & Htop & Hn & Hcap & Ht & Hlen & HA & Hbms).
  destruct (resize_orders_ok cap n m 0 (free b) A) as (bms & E & Hlb & Hall); [lia|done| | |].
  - intros k bm Hk. pose proof (lookup_lt_Some _ _ _ Hk). destruct (Hbms (Z.of_nat k) ltac:(lia)) as (bm1 & E1 & H1).
    rewrite Nat2Z.id, Hk in E1. by injection E1 as <-.
  - intros j i Hi. destruct (ok_member _ _ _ _ Hok Hi) as (Hj & _). apply in_len; [lia|].
    assert (covers A ((i + 1) * 2 ^ j - 1)) as Hc by (exists j; by rewrite block_last by lia). apply Hcov in Hc. lia.
  - rewrite Z.div_1_r in E. exists bms. split; [done|]. intros l'. unfold buddy_ok. cbn [len max_order free]. split_and!; try done; try lia.
    intros o Ho. destruct (lookup_lt_is_Some_2 bms (Z.to_nat o) ltac:(lia)) as [bm Eb]. exists bm. split; [done|].
    pose proof (Hall _ _ Eb) as H1. rewrite Z.add_0_l, Z2Nat.id in H1 by lia. done.
Qed.
Lemma block_in x o p : 0 ≤ o → x / 2 ^ o = p → p * 2 ^ o ≤ x < p * 2 ^ o + 2 ^ o.
Proof. intros Ho E. pose proof (proj1 (block_range x o p Ho) E). lia. Qed.
(** A range that is extended by a block. *)
Lemma extend_range (C : Prop) n x o y : 0 ≤ o → n ≤ x → x `mod` 2 ^ o = 0 →
  ((C ∨ n ≤ y < x) ∨ y / 2 ^ o = x / 2 ^ o ↔ C ∨ n ≤ y < x + 2 ^ o)
  ∧ ((C ∧ ¬ n ≤ y < x) ∧ y / 2 ^ o ≠ x / 2 ^ o ↔ C ∧ ¬ n ≤ y < x + 2 ^ o).
Proof.
  intros Ho Hx Hal. pose proof (aligned_eq x o Ho Hal) as Ex. pose proof (pow_pos o Ho).
  assert (y / 2 ^ o = x / 2 ^ o ↔ x ≤ y < x + 2 ^ o) as -> by (rewrite block_range by done; lia).
  assert (n ≤ y < x + 2 ^ o ↔ n ≤ y < x ∨ x ≤ y < x + 2 ^ o) as -> by lia. tauto.
Qed.
(** Growing frees the new pages. *)
Lemma grow_ok cap n m top b A : buddy_ok cap n n top b A → 0 < n < m → m ≤ cap →
  ∃ b' A', resize b m = Some b' ∧ buddy_ok cap m m top b' A' ∧ ∀ x, covers A' x ↔ covers A x ∨ n ≤ x < m.
Proof.
  intros Hok Hn Hm. pose proof Hok as (Hlen & Htop & _ & Hcap & Ht & _). unfold Bitmap.LARGEST in Hcap.
  unfold resize. rewrite (consistent b A Hok eq_refl), Hlen, (proj2 (Z.ltb_lt n m)) by lia. cbn [mbind option_bind].
  assert (∀ x, covers A x → x < n) as Hbound by (intros x Hc; by apply (ok_covers _ _ _ Hok) in Hc as [_ ?]).
  destruct (resized cap n n m top b A Hok ltac:(lia)) as (bms & -> & Hok1); [intros x Hc%Hbound; lia|]. cbn [mbind option_bind].
  set (P := λ x b', ∃ A', buddy_ok cap n m top b' A' ∧ ∀ y, covers A' y ↔ covers A y ∨ n ≤ y < x).
  assert (∀ x o b', P x b' → 0 ≤ o ≤ top → 0 ≤ x → x `mod` 2 ^ o = 0 → x + 2 ^ o ≤ m → n ≤ x →
    ∃ b2, free_inner b' (x / 2 ^ o) o = Some b2 ∧ P (x + 2 ^ o) b2) as Hact.
  { intros x o b' (A' & Hok' & Hcov') Ho Hx Hal Hle Hnx. pose proof (aligned_eq x o ltac:(lia) Hal) as Ex. pose proof (pow_pos o ltac:(lia)).
    destruct (free_inner_ok b' A' o (x / 2 ^ o) Hok' Ho) as (b2 & A2 & -> & Hok2 & Hcov2); [by apply Z.div_pos|lia| |].
    - intros y Hy%block_in Hc; [|lia]. apply Hcov' in Hc as [Hc%Hbound|]; lia.
    - exists b2. split; [done|]. exists A2. split; [done|]. intros y. rewrite Hcov2, Hcov'. apply extend_range; (done || lia). }
  destruct (align_loop_ok free_inner m top (λ x b', n ≤ x ∧ P x b')) with (fuel := S (Z.to_nat (m - n))) (first := true) (x := n)
    (b := mkBuddy bms n (max_order b)) as (x1 & b1 & E1 & (Hx1 & HP1) & Hr1 & Hal1); try done; try lia.
  { intros x b' (_ & A' & (_ & ? & _) & _). done. }
  { split; [lia|]. exists A. split; [apply Hok1|]. intros y. split; [by left|]. intros [?|?]; [done|lia]. }
  { intros x o b' [Hx HP] Ho Hx0 Hal Hle. destruct (Hact x o b') as (b2 & -> & HP2); try done; try lia.
    exists b2. split_and!; [done| |done]. pose proof (pow_pos o ltac:(lia)). lia. }
  cbn [len]. rewrite E1. cbn [mbind option_bind].
  destruct (fill_orders_ok free_inner m top (λ x b', n ≤ x ∧ P x b')) with (x := x1) (b := b1) as (b2 & E2 & _ & A2 & Hok2 & Hcov2); try done; try lia.
  { intros x b' (_ & A' & (_ & ? & _) & _). done. }
  { intros x o b' [Hx HP] Ho Hx0 Hal Hle _. destruct (Hact x o b') as (b2 & -> & HP2); try done.
    exists b2. split_and!; [done| |done]. pose proof (pow_pos o ltac:(lia)). lia. }
  rewrite E2. cbn [mbind option_bind]. rewrite Z.eqb_refl. cbn [check mbind option_bind].
  assert (buddy_ok cap m m top (mkBuddy (free b2) m (max_order b2)) A2) as Hok3 by (destruct Hok2 as (_ & H2); by split).
  rewrite (consistent _ A2 Hok3 eq_refl). cbn [mbind option_bind]. by eexists _, A2.
Qed.
(** Shrinking takes the pages that go; they must be free. *)
Lemma shrink_ok cap n m top b A : buddy_ok cap n n top b A → 0 ≤ m ≤ n → (∀ x, m ≤ x < n → covers A x) →
  ∃ b' A', resize b m = Some b' ∧ buddy_ok cap m m top b' A' ∧ ∀ x, covers A' x ↔ covers A x ∧ x < m.
Proof.
  intros Hok Hm Hfree. pose proof Hok as (Hlen & Htop & Hn & Hcap & Ht & _). unfold Bitmap.LARGEST in Hcap.
  unfold resize. rewrite (consistent b A Hok eq_refl), Hlen, (proj2 (Z.ltb_ge n m)) by lia. cbn [mbind option_bind].
  set (P := λ x b', ∃ A', buddy_ok cap n n top b' A' ∧ ∀ y, covers A' y ↔ covers A y ∧ ¬ m ≤ y < x).
  assert (∀ x o b', P x b' → 0 ≤ o ≤ top → 0 ≤ x → x `mod` 2 ^ o = 0 → x + 2 ^ o ≤ n → m ≤ x →
    ∃ b2, record_alloc_inner b' (x / 2 ^ o) o = Some b2 ∧ P (x + 2 ^ o) b2) as Hact.
  { intros x o b' (A' & Hok' & Hcov') Ho Hx Hal Hle Hnx. pose proof (aligned_eq x o ltac:(lia) Hal) as Ex. pose proof (pow_pos o ltac:(lia)).
    destruct (record_alloc_inner_ok b' A' o (x / 2 ^ o) Hok' Ho) as (b2 & A2 & -> & Hok2 & Hcov2).
    - intros y Hy%block_in; [|lia]. apply Hcov'. split; [apply Hfree|]; lia.
    - exists b2. split; [done|]. exists A2. split; [done|]. intros y. rewrite Hcov2, Hcov'. apply extend_range; (done || lia). }
  destruct (align_loop_ok record_alloc_inner n top (λ x b', m ≤ x ∧ P x b')) with (fuel := S (Z.to_nat (n - m))) (first := false) (x := m)
    (b := b) as (x1 & b1 & E1 & (Hx1 & HP1) & Hr1 & Hal1); try done; try lia.
  { intros x b' (_ & A' & (_ & ? & _) & _). done. }
  { split; [lia|]. exists A. split; [done|]. intros y. split; [intros; split; [done|lia]|by intros [? _]]. }
  { intros x o b' [Hx HP] Ho Hx0 Hal Hle. destruct (Hact x o b') as (b2 & -> & HP2); try done; try lia.
    exists b2. split_and!; [done| |done]. pose proof (pow_pos o ltac:(lia)). lia. }
  rewrite E1. cbn [mbind option_bind]. assert (len b1 = n) as -> by (destruct HP1 as (A1 & (? & _) & _); done).
  destruct (fill_orders_ok record_alloc_inner n top (λ x b', m ≤ x ∧ P x b')) with (x := x1) (b := b1) as (b2 & E2 & _ & A2 & Hok2 & Hcov2); try done; try lia.
  { intros x b' (_ & A' & (_ & ? & _) & _). done. }
  { intros x o b' [Hx HP] Ho Hx0 Hal Hle _. destruct (Hact x o b') as (b2 & -> & HP2); try done.
    exists b2. split_and!; [done| |done]. pose proof (pow_pos o ltac:(lia)). lia. }
  rewrite E2. cbn [mbind option_bind]. pose proof Hok2 as (-> & _). rewrite Z.eqb_refl. cbn [check mbind option_bind].
  assert (∀ x, covers A2 x ↔ covers A x ∧ x < m) as Hcov.
  { intros x. rewrite Hcov2. split; intros [Hc Hx]; (split; [done|]); apply (ok_covers _ _ _ Hok) in Hc; lia. }
  destruct (resized cap n n m top b2 A2 Hok2 ltac:(lia)) as (bms & -> & Hok3); [by intros x [_ ?]%Hcov|]. cbn [mbind option_bind].
  cbn [free max_order]. rewrite (consistent _ A2 (Hok3 m) eq_refl). cbn [mbind option_bind]. by eexists _, A2.
Qed.

(** ** Stored and read back *)
Lemma codec_ok cap n top b A : buddy_ok cap n n top b A →
  ∃ v b', to_vec b = Some v ∧ from_bytes v = Some b' ∧ buddy_ok cap n n top b' A.
Proof.
  intros (Hlen & Htop & Hn & Hcap & Ht & Hl & HA & Hbms). unfold to_vec, MAX_MAX_PAGE_ORDER in *.
  assert (∀ bm, bm ∈ free b → ∃ v, Bitmap.to_vec bm = Some v ∧ (Z.of_nat (length v) ≤ 2 ^ 27 ∧ ∃ bm', Bitmap.from_bytes v = Some bm'
    ∧ ∀ c k F, c ≤ Bitmap.LARGEST → Bitmap.bt_ok c bm k F → Bitmap.bt_ok c bm' k F)) as Hvec.
  { intros bm [k Hk]%list_elem_of_lookup. pose proof (lookup_lt_Some _ _ _ Hk). destruct (Hbms (Z.of_nat k) ltac:(lia)) as (bm1 & E1 & H1).
    rewrite Nat2Z.id, Hk in E1. injection E1 as <-. assert (cap / 2 ^ Z.of_nat k ≤ Bitmap.LARGEST) as Hc.
    { etrans; [|exact Hcap]. apply Z.div_le_upper_bound; [apply pow_pos; lia|]. pose proof (pow_pos (Z.of_nat k) ltac:(lia)). nia. }
    destruct (Bitmap.bt_codec _ _ _ _ H1 Hc) as (v & bm' & Ev & Ef & _ & Hv). exists v. split_and!; [done|lia|]. exists bm'. split; [done|].
    intros c m F Hc' Hbm. destruct (Bitmap.bt_codec _ _ _ _ Hbm Hc') as (v2 & bm2 & Ev2 & Ef2 & Hbm2 & _). simplify_eq. done. }
  destruct (mapM_image _ _ _ Hvec) as (vecs & Evecs & Hall). pose proof (Forall2_length _ _ _ Hall) as Hlv. rewrite Evecs. cbn [mbind option_bind].
  assert (∃ bms, Forall2 (λ v bm, Bitmap.from_bytes v = Some bm) vecs bms
    ∧ Forall2 (λ bm bm', ∀ c k F, c ≤ Bitmap.LARGEST → Bitmap.bt_ok c bm k F → Bitmap.bt_ok c bm' k F) (free b) bms) as (bms & Hparse & Hsame).
  { clear -Hall. induction Hall as [|x v l vs (_ & x' & E & Hx') _ (hs & H1 & H2)]; [by exists []|]. exists (x' :: hs). split; by constructor. }
  assert (Forall (λ v, Z.of_nat (length v) ≤ 2 ^ 27) vecs) as Hsize.
  { clear -Hall. induction Hall as [|x v l vs [Hv _] _ IH]; by constructor. }
  apply Bitmap.length_mjoin in Hsize. rewrite Htop, Hlen.
  destruct (write_ends_ok (1 + 3 + 4 + (top + 1) * 4) vecs) as (ends & Ee & Hle); [lia|lia|]. rewrite Ee. cbn [mbind option_bind].
  eexists _, (mkBuddy bms n top). split; [done|]. split.
  - unfold from_bytes. assert (∀ l, ([z2b top] ++ l) !! 0%nat = Some (z2b top)) as -> by done.
    cbn [fmap option_fmap option_map mbind option_bind]. rewrite b2z_z2b, Z.mod_small by lia.
    assert (u32_at ([z2b top] ++ [Byte.x00; Byte.x00; Byte.x00] ++ le_bytes 4 n ++ ends ++ mjoin vecs) 4 = Some n) as ->.
    { apply (u32_at_mid [z2b top; Byte.x00; Byte.x00; Byte.x00]); [done|unfold Bitmap.LARGEST in Hcap; lia]. }
    cbn [mbind option_bind].
    pose proof (read_parts_ok Bitmap.from_bytes ([z2b top] ++ [Byte.x00; Byte.x00; Byte.x00] ++ le_bytes 4 n) ends [] vecs bms _ Hparse Ee) as Hrp.
    rewrite !length_app, length_le_bytes in Hrp. change (Z.of_nat (length [z2b top] + (length [Byte.x00; Byte.x00; Byte.x00] + 4))) with 8 in Hrp.
    change (8 + (top + 1) * 4) with (1 + 3 + 4 + (top + 1) * 4). replace (Z.to_nat (top + 1)) with (length vecs) by lia.
    rewrite <-!app_assoc in Hrp. cbn [app] in Hrp |- *. rewrite Hrp; [done|].
    rewrite Hle. cbn [length]. lia.
  - pose proof (Forall2_length _ _ _ Hsame). unfold buddy_ok, MAX_MAX_PAGE_ORDER. cbn [len max_order free]. split_and!; try done; try lia.
    intros o Ho. destruct (Hbms o Ho) as (bm & E & Hbm). destruct (Forall2_lookup_l _ _ _ _ _ Hsame E) as (bm' & E' & Himp).
    exists bm'. split; [done|]. apply Himp; [|done]. pose proof (pow_pos o ltac:(lia)).
    etrans; [|exact Hcap]. apply Z.div_le_upper_bound; [done|nia].
Qed.

(** * The allocator as a set of free pages *)

Inductive Op :=
| Alloc (order : Z) | AllocLowest (order : Z) | Free (page order : Z) | RecordAlloc (page order : Z) | Resize (m : Z)
| CountFree | CountAllocated | TrailingFree | Reload.
Inductive Outcome := Block (o : option Z) | Number (z : Z) | Done.
Definition buddy_step (b : BuddyAllocator) (op : Op) : option (Outcome * BuddyAllocator) :=
  match op with
  | Alloc o => '(r, b) ← alloc b o; Some (Block r, b)
  | AllocLowest o => '(r, b) ← alloc_lowest b o; Some (Block r, b)
  | Free p o => pair Done <$> free_page b p o
  | RecordAlloc p o => pair Done <$> record_alloc b p o
  | Resize m => pair Done <$> resize b m
  | CountFree => z ← count_free_pages b; Some (Number z, b)
  | CountAllocated => z ← count_allocated_pages b; Some (Number z, b)
  | TrailingFree => z ← trailing_free_pages b; Some (Number z, b)
  | Reload => v ← to_vec b; pair Done <$> from_bytes v
  end.

(** The number of pages, and the free ones. *)
Definition pages := (Z * gset Z)%type.
Definition in_block (o p x : Z) : Prop := x / 2 ^ o = p.
Definition all_free (P : gset Z) (o p : Z) : Prop := ∀ x, in_block o p x → x ∈ P.
Definition none_free (P : gset Z) (o p : Z) : Prop := ∀ x, in_block o p x → x ∉ P.
(** What a caller must respect. *)
Definition allowed (cap : Z) (s : pages) (op : Op) : Prop :=
  let '(n, P) := s in let top := Z.log2 cap in
  match op with
  | Alloc o | AllocLowest o => 0 ≤ o
  | Free p o => 0 ≤ o ≤ top ∧ 0 ≤ p ∧ (p + 1) * 2 ^ o ≤ n ∧ none_free P o p
  | RecordAlloc p o => 0 ≤ o ≤ top ∧ all_free P o p
  | Resize m => 0 < n < m ∧ m ≤ cap ∨ 0 ≤ m ≤ n ∧ ∀ x, m ≤ x < n → x ∈ P
  | TrailingFree => 0 < n
  | CountFree | CountAllocated | Reload => True
  end.
(** What the answer says, and the pages afterwards. *)
Definition answers (cap : Z) (s : pages) (op : Op) (out : Outcome) (s' : pages) : Prop :=
  let '(n, P) := s in let '(n', P') := s' in
  match op, out with
  | Alloc o, Block (Some p) => n' = n ∧ all_free P o p ∧ ∀ x, x ∈ P' ↔ x ∈ P ∧ ¬ in_block o p x
  | AllocLowest o, Block (Some p) =>
      n' = n ∧ all_free P o p ∧ (∀ q, all_free P o q → p ≤ q) ∧ ∀ x, x ∈ P' ↔ x ∈ P ∧ ¬ in_block o p x
  | (Alloc o | AllocLowest o), Block None => n' = n ∧ P' = P ∧ (o ≤ Z.log2 cap → ∀ p, ¬ all_free P o p)
  | Free p o, Done => n' = n ∧ ∀ x, x ∈ P' ↔ x ∈ P ∨ in_block o p x
  | RecordAlloc p o, Done => n' = n ∧ ∀ x, x ∈ P' ↔ x ∈ P ∧ ¬ in_block o p x
  | Resize m, Done => n' = m ∧ ∀ x, x ∈ P' ↔ (x ∈ P ∨ n ≤ x) ∧ 0 ≤ x < m
  | CountFree, Number z => n' = n ∧ P' = P ∧ z = Z.of_nat (size P)
  | CountAllocated, Number z => n' = n ∧ P' = P ∧ z = n - Z.of_nat (size P)
  | TrailingFree, Number z => n' = n ∧ P' = P ∧ 0 ≤ z ≤ n ∧ (∀ x, n - z ≤ x < n → x ∈ P) ∧ (z < n → n - z - 1 ∉ P)
  | Reload, Done => n' = n ∧ P' = P
  | _, _ => False
  end.
Definition implements (cap : Z) (b : BuddyAllocator) (s : pages) : Prop :=
  ∃ A, buddy_ok cap s.1 s.1 (Z.log2 cap) b A ∧ ∀ x, x ∈ s.2 ↔ covers A x.

Lemma free_pages_of cap n top b A : buddy_ok cap n n top b A → ∃ P : gset Z, ∀ x, x ∈ P ↔ covers A x.
Proof.
  intros Hok. exists (list_to_set (filter (λ x, Exists (λ o, x / 2 ^ o ∈ A o) (seqZ 0 (top + 1))) (seqZ 0 n))).
  intros x. rewrite elem_of_list_to_set, list_elem_of_filter, elem_of_seqZ, Exists_exists. split.
  - intros [(o & _ & Hx) _]. by exists o.
  - intros Hc. pose proof (ok_covers _ _ _ Hok Hc). split; [|lia]. destruct Hc as [o Ho]. exists o.
    destruct (ok_member _ _ _ _ Hok Ho) as [? _]. split; [apply elem_of_seqZ; lia|done].
Qed.
Lemma implements_intro cap n b A : buddy_ok cap n n (Z.log2 cap) b A → ∃ P, implements cap b (n, P) ∧ ∀ x, x ∈ P ↔ covers A x.
Proof. intros Hok. destruct (free_pages_of _ _ _ _ _ Hok) as [P HP]. exists P. split; [by exists A|done]. Qed.
Lemma size_bound n (P : gset Z) : 0 ≤ n → (∀ x, x ∈ P → 0 ≤ x < n) → Z.of_nat (size P) ≤ n.
Proof.
  intros Hn HP. assert (P ⊆ list_to_set (seqZ 0 n)) as Hs by (intros x Hx%HP; apply elem_of_list_to_set, elem_of_seqZ; lia).
  apply subseteq_size in Hs. rewrite size_list_to_set, length_seqZ in Hs by apply NoDup_seqZ. lia.
Qed.
Lemma no_whole_block top A o : family_ok top A → 0 ≤ o ≤ top → (∀ i, o ≤ i → A i = ∅) → ∀ p, ¬ whole A o p.
Proof. intros HA Ho He p Hp. destruct (covered top A o p HA Ho Hp) as (k & Hk & Hin). rewrite He in Hin by lia. set_solver. Qed.
(** The operations that allocate, free or change the length. *)
Lemma step_updates cap b s op : implements cap b s → allowed cap s op →
  match op with Alloc _ | AllocLowest _ | Free _ _ | RecordAlloc _ _ | Resize _ => True | _ => False end →
  ∃ out b' s', buddy_step b op = Some (out, b') ∧ answers cap s op out s' ∧ implements cap b' s'.
Proof.
  destruct s as [n P]. intros (A & Hok & HP) Hal Hop. cbn [fst snd] in *.
  assert (∀ o p, all_free P o p ↔ whole A o p) as Hw by (intros o p; unfold all_free; by setoid_rewrite HP).
  destruct op as [o|o|p o|p o|m| | | |]; try done; cbn [allowed buddy_step answers] in *; clear Hop.
  - unfold alloc. destruct (alloc_inner_ok b A o Hok Hal) as (r & b' & -> & Hr). cbn [mbind option_bind]. destruct r as [p|].
    + destruct Hr as (_ & Hp & A' & Hok' & Hcov). destruct (implements_intro _ _ _ _ Hok') as (P' & Himp & HP').
      exists (Block (Some p)), b', (n, P'). split_and!; try done; [by apply Hw|]. intros x. by rewrite HP', Hcov, HP.
    + destruct Hr as [-> He]. exists (Block None), b, (n, P). split_and!; try done; [|by exists A].
      intros Ho p Hp%Hw. by apply (no_whole_block _ A o (ok_family _ _ Hok) ltac:(lia) He p).
  - destruct (alloc_lowest_ok b A o Hok Hal) as (r & b' & -> & Hr). cbn [mbind option_bind]. destruct r as [p|].
    + destruct Hr as (Hp & Hmin & A' & Hok' & Hcov). destruct (implements_intro _ _ _ _ Hok') as (P' & Himp & HP').
      exists (Block (Some p)), b', (n, P'). split_and!; try done; [by apply Hw|intros q Hq; by apply Hmin, Hw|]. intros x. by rewrite HP', (Hcov x), HP.
    + destruct Hr as [-> He]. exists (Block None), b, (n, P). split_and!; try done; [|by exists A].
      intros Ho p Hp%Hw. by apply (no_whole_block _ A o (ok_family _ _ Hok) ltac:(lia) He p).
  - destruct Hal as (Ho & Hp & Hlen & Hno). destruct (free_page_ok b A o p Hok Ho Hp Hlen) as (b' & A' & -> & Hok' & Hcov).
    { intros x Hx Hc%HP. by apply (Hno x). }
    destruct (implements_intro _ _ _ _ Hok') as (P' & Himp & HP').
    exists Done, b', (n, P'). split_and!; try done. intros x. by rewrite HP', Hcov, HP.
  - destruct Hal as (Ho & Hp%Hw). destruct (record_alloc_inner_ok b A o p Hok Ho Hp) as (b' & A' & E & Hok' & Hcov).
    unfold record_alloc. pose proof Hok as (_ & -> & _). rewrite (proj2 (Z.leb_le _ _)) by lia. cbn [check mbind option_bind]. rewrite E.
    destruct (implements_intro _ _ _ _ Hok') as (P' & Himp & HP').
    exists Done, b', (n, P'). split_and!; try done. intros x. by rewrite HP', Hcov, HP.
  - assert (∃ b' A', resize b m = Some b' ∧ buddy_ok cap m m (Z.log2 cap) b' A'
      ∧ ∀ x, covers A' x ↔ (covers A x ∨ n ≤ x) ∧ 0 ≤ x < m) as (b' & A' & -> & Hok' & Hcov).
    { destruct Hal as [[Hn Hm]|[Hm Hf]].
      - destruct (grow_ok cap n m _ b A Hok Hn Hm) as (b' & A' & E & Hok' & Hcov). exists b', A'. split_and!; try done.
        intros x. rewrite Hcov. split; [intros [Hc|]; [pose proof (ok_covers _ _ _ Hok Hc)|]; split; (tauto || lia)|intros [[?|?] ?]; [by left|right; lia]].
      - destruct (shrink_ok cap n m _ b A Hok Hm) as (b' & A' & E & Hok' & Hcov); [intros x Hx; by apply HP, Hf|].
        exists b', A'. split_and!; try done. intros x. rewrite Hcov. split; [|intros [[?|?] ?]; [split; [done|]|]; lia].
        intros [Hc ?]. pose proof (ok_covers _ _ _ Hok Hc). split; [by left|lia]. }
    destruct (implements_intro _ _ _ _ Hok') as (P' & Himp & HP').
    exists Done, b', (m, P'). split_and!; try done. intros x. by rewrite HP', Hcov, HP.
Qed.
(** The operations that only look, and the reload. *)
Lemma step_queries cap b s op : implements cap b s → allowed cap s op →
  match op with CountFree | CountAllocated | TrailingFree | Reload => True | _ => False end →
  ∃ out b' s', buddy_step b op = Some (out, b') ∧ answers cap s op out s' ∧ implements cap b' s'.
Proof.
  destruct s as [n P]. intros (A & Hok & HP) Hal Hop. cbn [fst snd] in *.
  destruct op as [o|o|p o|p o|m| | | |]; try done; cbn [allowed buddy_step answers] in *; clear Hop.
  - rewrite (count_ok b A P Hok HP). cbn [mbind option_bind]. exists (Number (Z.of_nat (size P))), b, (n, P). split_and!; try done. by exists A.
  - unfold count_allocated_pages. rewrite (count_ok b A P Hok HP). cbn [mbind option_bind]. pose proof Hok as (-> & _ & Hn & _).
    rewrite (proj2 (Z.leb_le _ _)) by (apply size_bound; [lia|intros x Hx%HP; by apply (ok_covers _ _ _ Hok)]). cbn [check mbind option_bind].
    eexists _, b, (n, P). split_and!; try done. by exists A.
  - destruct (trailing_ok b A Hok eq_refl Hal) as (t & -> & Ht & Hin & Hout). cbn [mbind option_bind].
    exists (Number t), b, (n, P). split_and!; try done; try lia; [|rewrite HP; tauto|by exists A]. intros x Hx. by apply HP, Hin.
  - destruct (codec_ok _ _ _ _ _ Hok) as (v & b' & -> & E & Hok'). cbn [mbind option_bind]. rewrite E.
    exists Done, b', (n, P). split_and!; try done. by exists A.
Qed.

(** C24: the buddy allocator is a set of free pages.  A new one has all its pages
    free.  As long as its caller frees what is taken and takes what is free, no
    operation panics (the assertions of a debug build included); allocation gives
    an aligned block whose pages were all free, and fails only when there is
    none; [alloc_lowest] gives the lowest such block; freeing, recording, resizing
    and storing change exactly the pages they name. *)
Theorem buddy_allocator_refines cap n :
  0 < cap ≤ Bitmap.LARGEST → 0 ≤ n ≤ cap →
  (∃ b, new n cap = Some b ∧ implements cap b (n, list_to_set (seqZ 0 n)))
  ∧ ∀ b s op, implements cap b s → allowed cap s op →
      ∃ out b' s', buddy_step b op = Some (out, b') ∧ answers cap s op out s' ∧ implements cap b' s'.
Proof.
  intros Hcap Hn. split.
  - destruct (new_ok cap n Hcap Hn) as (b & A & E & Hok & Hcov). exists b. split; [done|]. exists A. split; [done|].
    intros x. cbn [snd]. rewrite elem_of_list_to_set, elem_of_seqZ, Hcov. lia.
  - intros b s op Hs Hal. destruct op; (by apply step_updates) || (by apply step_queries).
Qed.
Lemma buddy_allocator_refines_witness :
  ∃ b b' P', new 13 16 = Some b ∧ buddy_step b (RecordAlloc 1 1) = Some (Done, b') ∧ implements 16 b' (13, P')
    ∧ 2 ∉ P' ∧ 3 ∉ P' ∧ 4 ∈ P'.
Proof.
  destruct (buddy_allocator_refines 16 13) as [(b & E & Hb) Hstep]; [unfold Bitmap.LARGEST; lia|lia|].
  destruct (Hstep b _ (RecordAlloc 1 1) Hb) as (out & b' & [n' P'] & Es & Ha & Hb').
  - split; [split; discriminate|]. intros x Hx. apply elem_of_list_to_set, elem_of_seqZ. apply block_range in Hx; lia.
  - destruct out; cbn in Ha; try contradiction. destruct Ha as [-> Hp]. exists b, b', P'. split; [exact E|]. split; [exact Es|]. split; [exact Hb'|].
    rewrite !Hp. split; [|split]; [intros [_ Hx]; apply Hx; reflexivity|intros [_ Hx]; apply Hx; reflexivity|].
    split; [apply elem_of_list_to_set, elem_of_seqZ; lia|discriminate].
Defined.

End Buddy.
