(* ===== verification/RedbLayout.v ===== *)
(** RedbLayout: where the pages of the database lie in its file.

    Models [layout.rs] of [poc/redb-fork/src/tree_store/page_store/] and the page
    numbers of [base.rs].  A file is a page for the header, then regions of one
    size, the last of which may be shorter.  A page of order [o] is [2^o]
    consecutive base pages of a region.  Under the limits of [base.rs] ([2^20] pages
    of a region, [2^20] regions) and pages of less than 16 MiB no sum leaves 64
    bits.  [None] is a panic, an assertion of a debug build included. *)
From S2P Require Import Prelude Windows RedbGroup RedbBlocks RedbBuddy.
Local Open Scope Z_scope.

Module Layout.

Definition round_up_to_multiple_of (value multiple : Z) : option Z :=
  check (negb (multiple =? 0));;
  Some (if value `mod` multiple =? 0 then value else value + multiple - value `mod` multiple).

(** * Regions *)
Record RegionLayout := mkRegion { num_pages : Z; header_pages : Z; page_size : Z }.
#[export] Instance RegionLayout_eq_dec : EqDecision RegionLayout.
Proof. solve_decision. Defined.

Definition region_new (num_pages header_pages page_size : Z) : option RegionLayout :=
  check (0 <? num_pages);; Some (mkRegion num_pages header_pages page_size).
Definition region_calculate (desired_usable_bytes page_capacity region_header_pages page_size : Z) : option RegionLayout :=
  check (desired_usable_bytes <=? page_capacity * page_size);;
  rounded ← round_up_to_multiple_of desired_usable_bytes page_size;
  num_pages ← try_u32 (rounded / page_size);
  Some (mkRegion num_pages region_header_pages page_size).
Definition region_usable_bytes (r : RegionLayout) : Z := page_size r * num_pages r.
Definition data_section (r : RegionLayout) : Z * Z :=
  let header_bytes := header_pages r * page_size r in
  (header_bytes, header_bytes + region_usable_bytes r).
Definition region_len (r : RegionLayout) : Z := header_pages r * page_size r + region_usable_bytes r.

(** * The file *)
Record DatabaseLayout := mkLayout {
  full_region_layout : RegionLayout;
  num_full_regions : Z;
  trailing_partial_region : option RegionLayout;
}.
Definition database_new (full_regions : Z) (full_region : RegionLayout) (trailing_region : option RegionLayout) : DatabaseLayout :=
  mkLayout full_region full_regions trailing_region.
Definition trailing_region_layout (l : DatabaseLayout) : option RegionLayout := trailing_partial_region l.
Definition num_regions (l : DatabaseLayout) : Z :=
  match trailing_partial_region l with Some _ => num_full_regions l + 1 | None => num_full_regions l end.
Definition region_base_address (l : DatabaseLayout) (region : Z) : option Z :=
  check (region <? num_regions l);;
  Some (page_size (full_region_layout l) + region * region_len (full_region_layout l)).
Definition region_layout (l : DatabaseLayout) (region : Z) : option RegionLayout :=
  check (region <? num_regions l);;
  if region =? num_full_regions l then trailing_partial_region l else Some (full_region_layout l).
Definition database_len (l : DatabaseLayout) : option Z :=
  check (0 <? num_regions l);;
  let last := num_regions l - 1 in
  base ← region_base_address l last;
  r ← region_layout l last;
  Some (base + region_len r).
Definition usable_bytes (l : DatabaseLayout) : Z :=
  let trailing := match trailing_partial_region l with Some r => region_usable_bytes r | None => 0 end in
  num_full_regions l * region_usable_bytes (full_region_layout l) + trailing.

Definition reduce_last_region (l : DatabaseLayout) (pages : Z) : option DatabaseLayout :=
  let full_layout := full_region_layout l in
  match trailing_partial_region l with
  | Some trailing =>
      check (pages <=? num_pages trailing);;
      let n := num_pages trailing - pages in
      Some (mkLayout full_layout (num_full_regions l)
        (if n =? 0 then None else Some (mkRegion n (header_pages trailing) (page_size trailing))))
  | None =>
      check (0 <? num_full_regions l);;
      trailing ← (if pages <? num_pages full_layout
        then Some <$> region_new (num_pages full_layout - pages) (header_pages full_layout) (page_size full_layout)
        else Some None);
      Some (mkLayout full_layout (num_full_regions l - 1) trailing)
  end.

Definition recalculate (file_len region_header_pages region_max_data_pages page_size : Z) : option DatabaseLayout :=
  check (page_size <=? file_len);;
  let remaining := file_len - page_size in
  let full_region_size := (region_header_pages + region_max_data_pages) * page_size in
  check (negb (full_region_size =? 0));;
  let full_regions := remaining / full_region_size in
  let remaining := remaining - full_regions * full_region_size in
  trailing ← (if (region_header_pages + 1) * page_size <=? remaining then
      remaining ← try_u32 (remaining - region_header_pages * page_size);
      let data_pages := remaining / page_size in
      check (data_pages <? region_max_data_pages);;
      Some <$> region_new data_pages region_header_pages page_size
    else Some None);
  full_layout ← region_new region_max_data_pages region_header_pages page_size;
  full_regions ← try_u32 full_regions;
  Some (mkLayout full_layout full_regions trailing).

Definition calculate (desired_usable_bytes page_capacity region_header_pages page_size : Z) : option DatabaseLayout :=
  full_region_layout ← region_new page_capacity region_header_pages page_size;
  if desired_usable_bytes <=? region_usable_bytes full_region_layout then
    region_layout ← region_calculate desired_usable_bytes page_capacity region_header_pages page_size;
    Some (mkLayout full_region_layout 0 (Some region_layout))
  else
    check (negb (region_usable_bytes full_region_layout =? 0));;
    let full_regions := desired_usable_bytes / region_usable_bytes full_region_layout in
    let remaining_desired := desired_usable_bytes - full_regions * region_usable_bytes full_region_layout in
    check (0 <? full_regions);;
    trailing_region ← (if 0 <? remaining_desired
      then Some <$> region_calculate remaining_desired page_capacity region_header_pages page_size
      else Some None);
    check (match trailing_region with Some region => header_pages region =? header_pages full_region_layout | None => true end);;
    full_regions ← try_u32 full_regions;
    Some (mkLayout full_region_layout full_regions trailing_region).

(** * Page numbers *)
Record PageNumber := mkPage { region : Z; page_index : Z; page_order : Z }.
#[export] Instance PageNumber_eq_dec : EqDecision PageNumber.
Proof. solve_decision. Defined.

Definition MAX_PAGE_INDEX : Z := 0xFFFFF.
Definition MAX_REGIONS : Z := 0x100000.
Definition page_new (region page_index page_order : Z) : option PageNumber :=
  check (region <=? 0xFFFFF);; check (page_index <=? MAX_PAGE_INDEX);; check (page_order <=? Buddy.MAX_MAX_PAGE_ORDER);;
  Some (mkPage region page_index page_order).
Definition to_le_bytes (p : PageNumber) : bytes :=
  let temp := Z.land 0xFFFFF (page_index p) in
  let temp := Z.lor temp (Z.shiftl (Z.land 0xFFFFF (region p)) 20) in
  let temp := Z.lor temp (Z.shiftl (Z.land 0x1F (page_order p)) 59) in
  le_bytes 8 temp.
Definition from_le_bytes (b : bytes) : option PageNumber :=
  let temp := of_le b in
  let order := Z.land (Z.shiftr temp 59) 0xFF in
  index ← try_u32 (Z.land temp (Z.shiftr 0xFFFFF order));
  let region := Z.land (Z.shiftr temp 20) 0xFFFFF in
  Some (mkPage region index order).
(** [Ord::cmp] *)
Definition page_cmp (p q : PageNumber) : option comparison :=
  match region p ?= region q with
  | Eq =>
      let self_order0 := page_index p * 2 ^ page_order p in
      let other_order0 := page_index q * 2 ^ page_order q in
      check (negb (self_order0 =? other_order0) || (page_order p =? page_order q));;
      Some (self_order0 ?= other_order0)
  | c => Some c
  end.
Definition page_size_bytes (p : PageNumber) (page_size : Z) : Z := Z.shiftl 1 (page_order p) * page_size.
Definition address_range (p : PageNumber) (data_section_offset region_size region_pages_start page_size : Z) : option (Z * Z) :=
  let regional_start := region_pages_start + page_index p * page_size_bytes p page_size in
  check (regional_start <? region_size);;
  let region_base := region p * region_size in
  let start := data_section_offset + region_base + regional_start in
  Some (start, start + page_size_bytes p page_size).
(** As the memory manager calls it: the header takes the first page. *)
Definition page_range (l : DatabaseLayout) (p : PageNumber) : option (Z * Z) :=
  let full := full_region_layout l in
  address_range p (page_size full) (region_len full) (data_section full).1 (page_size full).

(** * Pages lie in the file, apart from each other *)

(** Every region has pages, and the same header and page size. *)
Definition layout_ok (l : DatabaseLayout) : Prop :=
  let full := full_region_layout l in
  0 < page_size full ∧ 0 ≤ header_pages full ∧ 0 < num_pages full ∧ 0 ≤ num_full_regions l ∧
  match trailing_partial_region l with
  | Some r => page_size r = page_size full ∧ header_pages r = header_pages full ∧ 0 < num_pages r ≤ num_pages full
  | None => 0 < num_full_regions l
  end.
(** The pages of a layout. *)
Definition page_ok (l : DatabaseLayout) (p : PageNumber) : Prop :=
  0 ≤ region p ∧ 0 ≤ page_index p ∧ 0 ≤ page_order p ∧
  ∃ r, region_layout l (region p) = Some r ∧ (page_index p + 1) * 2 ^ page_order p ≤ num_pages r.
(** Some base page belongs to both. *)
Definition meets (p q : PageNumber) : Prop :=
  region p = region q ∧ ∃ x, x / 2 ^ page_order p = page_index p ∧ x / 2 ^ page_order q = page_index q.

Lemma layout_regions l : layout_ok l → 0 < num_regions l.
Proof. intros (_ & _ & _ & Hf & Ht). unfold num_regions. destruct (trailing_partial_region l); lia. Qed.
Lemma region_layout_Some l i r : layout_ok l → region_layout l i = Some r →
  i < num_regions l ∧ page_size r = page_size (full_region_layout l) ∧ header_pages r = header_pages (full_region_layout l)
  ∧ 0 < num_pages r ≤ num_pages (full_region_layout l).
Proof.
  intros (Hp & Hh & Hn & Hf & Ht). unfold region_layout. destruct (i <? num_regions l) eqn:E; [|done]. apply Z.ltb_lt in E.
  cbn [check mbind option_bind]. destruct (i =? num_full_regions l).
  - intros Er. rewrite Er in Ht. tauto.
  - intros [= <-]. split_and!; try done; lia.
Qed.
Lemma region_layout_lt l i : layout_ok l → i < num_regions l → is_Some (region_layout l i).
Proof.
  intros (_ & _ & _ & _ & Ht) Hi. unfold region_layout. rewrite (proj2 (Z.ltb_lt _ _) Hi). cbn [check mbind option_bind].
  destruct (i =? num_full_regions l) eqn:E; [|done]. apply Z.eqb_eq in E. unfold num_regions in Hi.
  destruct (trailing_partial_region l); [done|lia].
Qed.
Lemma database_len_Some l : layout_ok l → ∃ r, region_layout l (num_regions l - 1) = Some r ∧
  database_len l = Some (page_size (full_region_layout l) + (num_regions l - 1) * region_len (full_region_layout l) + region_len r).
Proof.
  intros Hl. pose proof (layout_regions _ Hl). destruct (region_layout_lt l (num_regions l - 1) Hl ltac:(lia)) as [r Er].
  exists r. split; [done|]. unfold database_len, region_base_address. rewrite (proj2 (Z.ltb_lt 0 _)) by lia.
  cbn [check mbind option_bind]. rewrite (proj2 (Z.ltb_lt _ _)) by lia. cbn [check mbind option_bind]. by rewrite Er.
Qed.
Lemma region_len_le l r : layout_ok l → page_size r = page_size (full_region_layout l) → header_pages r = header_pages (full_region_layout l) →
  0 < num_pages r ≤ num_pages (full_region_layout l) → 0 < region_len r ≤ region_len (full_region_layout l).
Proof.
  intros (Hp & Hh & Hn & _) E1 E2 Hr. unfold region_len, region_usable_bytes. rewrite E1, E2.
  set (ps := page_size _) in *. set (h := header_pages _) in *. nia.
Qed.

(** The first and last byte of a page, in its region. *)
Lemma page_range_Some l p : layout_ok l → page_ok l p →
  ∃ r s, region_layout l (region p) = Some r ∧ page_range l p = Some (s, s + 2 ^ page_order p * page_size (full_region_layout l))
    ∧ s = page_size (full_region_layout l) + region p * region_len (full_region_layout l)
        + (header_pages (full_region_layout l) + page_index p * 2 ^ page_order p) * page_size (full_region_layout l)
    ∧ s + 2 ^ page_order p * page_size (full_region_layout l)
        ≤ page_size (full_region_layout l) + region p * region_len (full_region_layout l) + region_len r.
Proof.
  intros Hl (Hreg & Hi & Ho & r & Er & Hle). destruct (region_layout_Some _ _ _ Hl Er) as (_ & Eps & Ehp & Hn).
  pose proof Hl as (Hp & Hh & _). exists r. unfold page_range, address_range, page_size_bytes, data_section. cbn [fst].
  rewrite Z.shiftl_mul_pow2, Z.mul_1_l by done. pose proof (Z.pow_pos_nonneg 2 (page_order p) ltac:(lia) Ho) as H2.
  unfold region_len, region_usable_bytes. rewrite Eps, Ehp.
  set (ps := page_size (full_region_layout l)) in *. set (h := header_pages (full_region_layout l)) in *. set (b := 2 ^ page_order p) in *.
  set (i := page_index p) in *. set (N := num_pages (full_region_layout l)) in *.
  assert (i * (b * ps) + b * ps ≤ num_pages r * ps) as Hend by nia. assert (num_pages r * ps ≤ N * ps) by nia.
  rewrite (proj2 (Z.ltb_lt _ _)) by nia. cbn [check mbind option_bind]. eexists. split_and!; [done|done|nia|nia].
Qed.

Lemma intervals_apart a b c d : a < b → c < d → (∀ x, a ≤ x < b → c ≤ x < d → False) → b ≤ c ∨ d ≤ a.
Proof. intros Hb Hd H. destruct (Z.le_gt_cases b c); [by left|]. destruct (Z.le_gt_cases d a); [by right|]. destruct (H (Z.max a c)); lia. Qed.
Lemma same_region_apart l p q : page_ok l p → page_ok l q → region p = region q → ¬ meets p q →
  (page_index p + 1) * 2 ^ page_order p ≤ page_index q * 2 ^ page_order q
  ∨ (page_index q + 1) * 2 ^ page_order q ≤ page_index p * 2 ^ page_order p.
Proof.
  intros (_ & _ & Ho & _) (_ & _ & Ho' & _) Er Hm. pose proof (Z.pow_pos_nonneg 2 (page_order p) ltac:(lia) Ho).
  pose proof (Z.pow_pos_nonneg 2 (page_order q) ltac:(lia) Ho'). apply intervals_apart; [lia|lia|].
  intros x Hx Hy. apply Hm. split; [done|]. exists x. split; by apply block_range.
Qed.

(** C28: pages lie in the file, apart from each other.  In every layout, the bytes
    of a page are whole base pages after the file's header and after the header of
    its region, and end before the end of the file; pages that share no base page
    share no byte; and page numbers are ordered as their bytes are: the comparison
    panics on pages of different sizes that start together, and on no others. *)
Theorem pages_lie_apart l p q : layout_ok l → page_ok l p → page_ok l q →
  let ps := page_size (full_region_layout l) in
  ∃ n base s s', database_len l = Some n ∧ region_base_address l (region p) = Some base
    ∧ page_range l p = Some (s, s + 2 ^ page_order p * ps) ∧ page_range l q = Some (s', s' + 2 ^ page_order q * ps)
    ∧ ps ≤ base ∧ base + header_pages (full_region_layout l) * ps ≤ s ∧ s `mod` ps = 0 ∧ s + 2 ^ page_order p * ps ≤ n
    ∧ (¬ meets p q → s + 2 ^ page_order p * ps ≤ s' ∨ s' + 2 ^ page_order q * ps ≤ s)
    ∧ page_cmp p q = (if bool_decide (s = s') && negb (page_order p =? page_order q) then None else Some (s ?= s')).
Proof.
  intros Hl Hp Hq ps. destruct (page_range_Some l p Hl Hp) as (r & s & Er & Ep & Es & Hend).
  destruct (page_range_Some l q Hl Hq) as (r' & s' & Er' & Eq & Es' & Hend'). destruct (database_len_Some l Hl) as (rl & El & En).
  pose proof Hl as (Hps & Hh & Hn & _). fold ps in Hps, Ep, Eq, En, Es, Es', Hend, Hend'.
  destruct (region_layout_Some _ _ _ Hl Er) as (Hlt & E1 & E2 & E3). destruct (region_layout_Some _ _ _ Hl Er') as (Hlt' & E1' & E2' & E3').
  pose proof (region_len_le l r Hl E1 E2 E3) as Hlen. pose proof (region_len_le l r' Hl E1' E2' E3') as Hlen'.
  pose proof Hp as (Hr0 & Hi0 & Ho0 & _). pose proof Hq as (Hr0' & Hi0' & Ho0' & _).
  pose proof (Z.pow_pos_nonneg 2 (page_order p) ltac:(lia) Ho0) as Hb. pose proof (Z.pow_pos_nonneg 2 (page_order q) ltac:(lia) Ho0') as Hb'.
  set (FL := region_len (full_region_layout l)) in *. set (h := header_pages (full_region_layout l)) in *.
  set (b := 2 ^ page_order p) in *. set (b' := 2 ^ page_order q) in *.
  eexists _, _, s, s'. split; [done|]. split; [unfold region_base_address; by rewrite (proj2 (Z.ltb_lt _ _) Hlt)|]. fold FL ps.
  assert (region p < region q → s + b * ps ≤ s') as Hbefore by nia.
  assert (region q < region p → s' + b' * ps ≤ s) as Hafter by nia.
  split_and!; try done.
  - nia.
  - nia.
  - assert (FL = (h + num_pages (full_region_layout l)) * ps) as EF by (unfold FL, region_len, region_usable_bytes; fold h ps; lia).
    rewrite Es, EF. apply Z.mod_divide; [lia|].
    exists (1 + region p * (h + num_pages (full_region_layout l)) + (h + page_index p * b)). lia.
  - destruct (Z.eq_dec (region p) (num_regions l - 1)) as [E|E].
    + rewrite E in Er. rewrite Er in El. injection El as <-. rewrite <-E. lia.
    + destruct (region_layout_Some _ _ _ Hl El) as (_ & F1 & F2 & F3). pose proof (region_len_le l rl Hl F1 F2 F3). fold FL. nia.
  - intros Hm. destruct (Z.lt_trichotomy (region p) (region q)) as [?|[E|?]]; [left; by apply Hbefore| |right; by apply Hafter].
    destruct (same_region_apart l p q Hp Hq E Hm) as [H|H]; fold b b' in H; [left|right]; rewrite Es, Es', E; nia.
  - unfold page_cmp. fold b b'. destruct (Z.compare_spec (region p) (region q)) as [E|E|E].
    + assert (s - s' = (page_index p * b - page_index q * b') * ps) as Ed by (rewrite Es, Es', E; lia).
      assert ((page_index p * b ?= page_index q * b') = (s ?= s')) as ->.
      { destruct (Z.compare_spec (page_index p * b) (page_index q * b')); symmetry; [apply Z.compare_eq_iff|apply Z.compare_lt_iff|apply Z.compare_gt_iff]; nia. }
      assert ((page_index p * b =? page_index q * b') = bool_decide (s = s')) as ->.
      { destruct (Z.eqb_spec (page_index p * b) (page_index q * b')); symmetry; [apply bool_decide_eq_true|apply bool_decide_eq_false]; nia. }
      by destruct (bool_decide _), (page_order p =? page_order q).
    + specialize (Hbefore E). rewrite bool_decide_eq_false_2 by nia. cbn [andb]. f_equal. symmetry. apply Z.compare_lt_iff. nia.
    + specialize (Hafter E). rewrite bool_decide_eq_false_2 by nia. cbn [andb]. f_equal. symmetry. apply Z.compare_gt_iff. nia.
Qed.
Definition demo_layout : DatabaseLayout := mkLayout (mkRegion 16 0 4096) 2 (Some (mkRegion 5 0 4096)).
Lemma pages_lie_apart_witness : ∃ n s s', database_len demo_layout = Some n
  ∧ page_range demo_layout (mkPage 1 2 1) = Some (s, s + 8192) ∧ page_range demo_layout (mkPage 2 0 2) = Some (s', s' + 16384)
  ∧ s + 8192 ≤ s' ∧ s + 8192 ≤ n ∧ page_cmp (mkPage 1 2 1) (mkPage 2 0 2) = Some Lt.
Proof.
  assert (layout_ok demo_layout) as Hl by (unfold layout_ok; cbn; lia).
  assert (page_ok demo_layout (mkPage 1 2 1)) as Hp by (unfold page_ok; cbn; split_and!; try lia; eexists; split; [reflexivity|cbn; lia]).
  assert (page_ok demo_layout (mkPage 2 0 2)) as Hq by (unfold page_ok; cbn; split_and!; try lia; eexists; split; [reflexivity|cbn; lia]).
  destruct (pages_lie_apart demo_layout _ _ Hl Hp Hq) as (n & base & s & s' & En & Eb & Es & Es' & H1 & H2 & H3 & H4 & H5 & H6).
  exists n, s, s'. split; [exact En|]. split; [exact Es|]. split; [exact Es'|].
  assert (s = 86016 ∧ s' = 135168) as [-> ->] by (split; [injection Es as <-|injection Es' as <-]; reflexivity).
  split; [lia|]. split; [exact H4|exact H6].
Defined.

(** * A layout and the length of its file *)

(** The data pages of the last region. *)
Definition last_pages (l : DatabaseLayout) : Z :=
  match trailing_partial_region l with Some r => num_pages r | None => num_pages (full_region_layout l) end.
Definition same_regions (l l' : DatabaseLayout) : Prop :=
  num_regions l = num_regions l' ∧ ∀ i, region_layout l i = region_layout l' i.

Lemma region_eq r n h p : num_pages r = n → header_pages r = h → page_size r = p → r = mkRegion n h p.
Proof. destruct r; cbn. congruence. Qed.
Lemma layout_shape l cap h ps : layout_ok l → full_region_layout l = mkRegion cap h ps →
  0 < last_pages l ≤ cap ∧ database_len l = Some (ps + (num_regions l - 1) * ((h + cap) * ps) + (h + last_pages l) * ps)
  ∧ usable_bytes l = ((num_regions l - 1) * cap + last_pages l) * ps
  ∧ ∀ i, region_layout l i =
      if i <? num_regions l then Some (mkRegion (if i =? num_regions l - 1 then last_pages l else cap) h ps) else None.
Proof.
  intros Hl Ef. assert (0 < last_pages l ≤ cap ∧ ∀ i, region_layout l i =
      if i <? num_regions l then Some (mkRegion (if i =? num_regions l - 1 then last_pages l else cap) h ps) else None) as [Hlast Hreg].
  { pose proof Hl as (_ & _ & HN & _ & Ht). unfold last_pages, region_layout, num_regions. rewrite Ef in *. cbn [num_pages header_pages page_size] in *.
    destruct (trailing_partial_region l) as [r|].
    - split; [tauto|]. intros i. replace (num_full_regions l + 1 - 1) with (num_full_regions l) by lia.
      destruct (i <? _); [|done]. cbn [check mbind option_bind]. destruct (i =? _); [|done]. f_equal. apply region_eq; tauto.
    - split; [lia|]. intros i. destruct (i <? _) eqn:E; [|done]. apply Z.ltb_lt in E. cbn [check mbind option_bind].
      rewrite (proj2 (Z.eqb_neq i (num_full_regions l))) by lia. by destruct (i =? _). }
  split; [done|]. split; [|split; [|done]].
  - destruct (database_len_Some l Hl) as (r & Er & ->). rewrite Hreg in Er. pose proof (layout_regions _ Hl).
    rewrite (proj2 (Z.ltb_lt _ _)), Z.eqb_refl in Er by lia. injection Er as <-. f_equal. rewrite Ef.
    unfold region_len, region_usable_bytes. cbn [num_pages header_pages page_size]. lia.
  - unfold usable_bytes, last_pages, num_regions, region_usable_bytes. rewrite Ef. cbn [num_pages page_size].
    destruct Hl as (_ & _ & _ & _ & Ht). rewrite Ef in Ht. cbn [page_size] in Ht. destruct (trailing_partial_region l) as [r|]; [|lia].
    destruct Ht as (-> & _). lia.
Qed.

(** The length says the regions: it has one form [q * D + a] with [0 < a <= D]. *)
Lemma remainder_unique D q q' a a' : 0 < a ≤ D → 0 < a' ≤ D → q * D + a = q' * D + a' → q = q' ∧ a = a'.
Proof. intros. assert (q = q') by nia. lia. Qed.
Lemma same_length l l' cap h ps : layout_ok l → layout_ok l' → full_region_layout l = mkRegion cap h ps → full_region_layout l' = mkRegion cap h ps →
  database_len l = database_len l' → same_regions l l'.
Proof.
  intros Hl Hl' Ef Ef' E. destruct (layout_shape l _ _ _ Hl Ef) as (HL & En & _ & Hr). destruct (layout_shape l' _ _ _ Hl' Ef') as (HL' & En' & _ & Hr').
  pose proof Hl as (Hp & Hh & _). rewrite Ef in Hp, Hh. cbn [page_size header_pages] in Hp, Hh. rewrite En, En' in E. apply (inj Some) in E.
  destruct (remainder_unique ((h + cap) * ps) (num_regions l - 1) (num_regions l' - 1) ((h + last_pages l) * ps) ((h + last_pages l') * ps)) as [E1 E2]; [nia|nia|lia|].
  assert (num_regions l = num_regions l') as ER by lia. assert (last_pages l = last_pages l') as EL by nia.
  split; [done|]. intros i. by rewrite Hr, Hr', ER, EL.
Qed.

Lemma round_up_spec d ps : 0 < d → 0 < ps → ∃ k, round_up_to_multiple_of d ps = Some (k * ps) ∧ d ≤ k * ps < d + ps ∧ 0 < k.
Proof.
  intros Hd Hp. unfold round_up_to_multiple_of. rewrite (proj2 (Z.eqb_neq ps 0)) by lia. cbn [negb check mbind option_bind].
  pose proof (Z.div_mod d ps ltac:(lia)). pose proof (Z.mod_pos_bound d ps Hp). destruct (Z.eqb_spec (d `mod` ps) 0) as [E|E].
  - exists (d / ps). split; [f_equal; lia|]. split; [lia|]. nia.
  - exists (d / ps + 1). split; [f_equal; lia|]. split; [lia|]. nia.
Qed.
Lemma region_calculate_ok d cap h ps : 0 < d ≤ cap * ps → 0 < ps → cap ≤ MAX_REGIONS →
  ∃ k, region_calculate d cap h ps = Some (mkRegion k h ps) ∧ 0 < k ≤ cap ∧ d ≤ k * ps < d + ps.
Proof.
  intros Hd Hp Hc. unfold region_calculate. rewrite (proj2 (Z.leb_le _ _)) by lia. cbn [check mbind option_bind].
  destruct (round_up_spec d ps ltac:(lia) Hp) as (k & -> & Hk & Hk0). cbn [mbind option_bind]. rewrite Z.div_mul by lia.
  assert (k ≤ cap) by nia. unfold MAX_REGIONS in Hc. rewrite try_u32_Some by lia. exists k. done.
Qed.
Lemma region_new_Some n h ps : 0 < n → region_new n h ps = Some (mkRegion n h ps).
Proof. intros. unfold region_new. by rewrite (proj2 (Z.ltb_lt _ _)). Qed.

Lemma pages_fit h ps L k r : 0 < ps → (h + L) * ps ≤ r → r < (h + k + 1) * ps → (h + L) * ps ≤ (h + k) * ps.
Proof. intros Hp H1 H2. apply Z.mul_le_mono_nonneg_r; [lia|]. assert (h + L < h + k + 1); [|lia]. apply (Z.mul_lt_mono_pos_r ps); lia. Qed.

Section limits.
Context (cap h ps : Z) (Hcap : 0 < cap ≤ MAX_REGIONS) (Hspace : cap * ps ≤ 2 ^ 32) (Hh : 0 ≤ h) (Hps : 0 < ps).

Lemma calculate_ok d : 0 < d → d < 2 ^ 32 * (cap * ps) →
  ∃ l, calculate d cap h ps = Some l ∧ layout_ok l ∧ full_region_layout l = mkRegion cap h ps ∧ d ≤ usable_bytes l < d + ps ∧ usable_bytes l `mod` ps = 0.
Proof.
  intros Hd Hmax. unfold calculate. rewrite region_new_Some by lia. cbn [mbind option_bind]. unfold region_usable_bytes at 1. cbn [num_pages page_size].
  destruct (Z.leb_spec d (ps * cap)) as [Hle|Hgt].
  - destruct (region_calculate_ok d cap h ps) as (k & -> & Hk & Hdk); [lia..|]. cbn [mbind option_bind]. eexists. split; [done|].
    assert (layout_ok (mkLayout (mkRegion cap h ps) 0 (Some (mkRegion k h ps)))) as Hl by (unfold layout_ok; cbn; lia).
    split; [done|]. split; [done|]. unfold usable_bytes, region_usable_bytes. cbn [trailing_partial_region num_full_regions full_region_layout num_pages page_size].
    split; [lia|]. apply Z.mod_divide; [lia|]. exists k. lia.
  - unfold region_usable_bytes. cbn [num_pages page_size header_pages]. rewrite (proj2 (Z.eqb_neq _ _)) by nia. cbn [negb check mbind option_bind].
    pose proof (Z.div_mod d (ps * cap) ltac:(nia)) as Hdm. pose proof (Z.mod_pos_bound d (ps * cap) ltac:(nia)) as Hmod.
    assert (0 < d / (ps * cap)) by (apply Z.div_str_pos; split; [apply Z.mul_pos_pos|]; lia). assert (d / (ps * cap) < 2 ^ 32) by (apply Z.div_lt_upper_bound; nia).
    set (q := d / (ps * cap)) in *. rewrite (proj2 (Z.ltb_lt 0 q)) by lia. cbn [check mbind option_bind].
    destruct (Z.ltb_spec 0 (d - q * (ps * cap))) as [Hr|Hr].
    + destruct (region_calculate_ok (d - q * (ps * cap)) cap h ps) as (k & -> & Hk & Hdk); [lia..|]. cbn [fmap option_fmap option_map mbind option_bind header_pages].
      rewrite Z.eqb_refl. cbn [check mbind option_bind]. rewrite try_u32_Some by lia. cbn [mbind option_bind]. eexists. split; [done|].
      split; [unfold layout_ok; cbn; lia|]. split; [done|]. unfold usable_bytes, region_usable_bytes. cbn [trailing_partial_region num_full_regions full_region_layout num_pages page_size].
      split; [lia|]. apply Z.mod_divide; [lia|]. exists (q * cap + k). lia.
    + cbn [mbind option_bind check]. rewrite try_u32_Some by lia. cbn [mbind option_bind]. eexists. split; [done|].
      split; [unfold layout_ok; cbn; lia|]. split; [done|]. unfold usable_bytes, region_usable_bytes. cbn [trailing_partial_region num_full_regions full_region_layout num_pages page_size].
      split; [lia|]. apply Z.mod_divide; [lia|]. exists (q * cap). lia.
Qed.

Lemma recalculate_ok len : (h + 2) * ps ≤ len → len < 2 ^ 32 * ((h + cap) * ps) →
  ∃ l m, recalculate len h cap ps = Some l ∧ layout_ok l ∧ full_region_layout l = mkRegion cap h ps ∧ database_len l = Some m ∧ m ≤ len
    ∧ ∀ l' m', layout_ok l' → full_region_layout l' = mkRegion cap h ps → database_len l' = Some m' → m' ≤ len → m' ≤ m.
Proof.
  intros Hlen Hmax. unfold recalculate. rewrite (proj2 (Z.leb_le ps len)) by nia. cbn [check mbind option_bind]. rewrite (proj2 (Z.eqb_neq ((h + cap) * ps) 0)) by nia. cbn [negb check mbind option_bind].
  pose proof (Z.div_mod (len - ps) ((h + cap) * ps) ltac:(nia)) as Hdm. pose proof (Z.mod_pos_bound (len - ps) ((h + cap) * ps) ltac:(nia)) as Hmod.
  assert (0 ≤ (len - ps) / ((h + cap) * ps)) by (apply Z.div_pos; nia).
  assert ((len - ps) / ((h + cap) * ps) < 2 ^ 32) by (apply Z.div_lt_upper_bound; nia).
  set (q := (len - ps) / ((h + cap) * ps)) in *. set (D := (h + cap) * ps) in *. set (r := (len - ps) `mod` D) in *.
  replace (len - ps - q * D) with r by lia.
  assert (∀ l' m', layout_ok l' → full_region_layout l' = mkRegion cap h ps → database_len l' = Some m' → m' ≤ len →
    0 < last_pages l' ∧ (num_regions l' - 1 < q ∧ m' ≤ ps + q * D ∨ m' = ps + q * D + (h + last_pages l') * ps ∧ (h + last_pages l') * ps ≤ r)) as Hfit.
  { intros l' m' Hl' Ef' Em' Hm'. destruct (layout_shape l' _ _ _ Hl' Ef') as (HL' & En' & _). rewrite En' in Em'. injection Em' as <-. fold D in Hm' |- *.
    split; [lia|]. assert ((h + last_pages l') * ps ≤ D) by nia. set (R := num_regions l' - 1) in *.
    destruct (Z.lt_trichotomy R q) as [?|[->|?]]; [left; pose proof (Z.mul_le_mono_nonneg_r (R + 1) q D); lia|right; lia|].
    exfalso. pose proof (Z.mul_le_mono_nonneg_r (q + 1) R D). pose proof (Z.mul_pos_pos (h + last_pages l') ps). lia. }
  destruct (Z.leb_spec ((h + 1) * ps) r) as [Hr|Hr].
  - pose proof (Z.div_mod (r - h * ps) ps ltac:(lia)) as Hk. pose proof (Z.mod_pos_bound (r - h * ps) ps Hps) as Hkm. set (k := (r - h * ps) / ps) in *.
    assert (0 < k) by nia. assert (k < cap) by nia. assert (cap * ps = D - h * ps) by lia.
    rewrite (try_u32_Some (r - h * ps)) by lia. cbn [mbind option_bind]. fold k. rewrite (proj2 (Z.ltb_lt k cap)) by lia. cbn [check mbind option_bind]. rewrite !region_new_Some by lia. cbn [fmap option_fmap option_map mbind option_bind].
    rewrite try_u32_Some by lia. cbn [mbind option_bind].
    assert (layout_ok (mkLayout (mkRegion cap h ps) q (Some (mkRegion k h ps)))) as Hl by (unfold layout_ok; cbn; lia).
    destruct (layout_shape _ _ _ _ Hl eq_refl) as (_ & En & _). fold D in En. unfold num_regions, last_pages in En. cbn [trailing_partial_region num_full_regions num_pages] in En.
    eexists _, _. split; [done|]. split; [done|]. split; [done|]. split; [exact En|]. split; [nia|].
    intros l' m' Hl' Ef' Em' Hm'. assert (0 ≤ (h + k) * ps) by (apply Z.mul_nonneg_nonneg; lia).
    destruct (Hfit l' m' Hl' Ef' Em' Hm') as [HL [[_ ?]|[-> Hfl]]]; [lia|]. apply (pages_fit _ _ _ k) in Hfl; lia.
  - assert (0 < q) by nia. cbn [mbind option_bind]. rewrite region_new_Some by lia. cbn [mbind option_bind]. rewrite try_u32_Some by lia. cbn [mbind option_bind].
    assert (layout_ok (mkLayout (mkRegion cap h ps) q None)) as Hl by (unfold layout_ok; cbn; lia).
    destruct (layout_shape _ _ _ _ Hl eq_refl) as (_ & En & _). fold D in En. unfold num_regions, last_pages in En. cbn [trailing_partial_region num_full_regions full_region_layout num_pages] in En.
    fold D in En. eexists _, _. split; [done|]. split; [done|]. split; [done|]. split; [exact En|]. split; [nia|].
    intros l' m' Hl' Ef' Em' Hm'. destruct (Hfit l' m' Hl' Ef' Em' Hm') as [HL [[_ ?]|[-> Hfl]]]; [lia|].
    pose proof (Z.mul_le_mono_nonneg_r (h + 1) (h + last_pages l') ps). lia.
Qed.

Lemma reduce_ok l n : layout_ok l → full_region_layout l = mkRegion cap h ps → 0 < n ≤ last_pages l → (n < last_pages l ∨ 1 < num_regions l) →
  ∃ l', reduce_last_region l n = Some l' ∧ layout_ok l' ∧ full_region_layout l' = mkRegion cap h ps ∧ usable_bytes l' = usable_bytes l - n * ps
    ∧ ∀ i, i < num_regions l - 1 → region_layout l' i = region_layout l i.
Proof.
  intros Hl Ef Hn Hlast. destruct (layout_shape l _ _ _ Hl Ef) as (HL & _ & Hu & Hr). pose proof Hl as (_ & _ & _ & Hnf & Ht).
  assert (∃ l', reduce_last_region l n = Some l' ∧ layout_ok l' ∧ full_region_layout l' = mkRegion cap h ps
    ∧ (num_regions l' = num_regions l ∧ last_pages l' = last_pages l - n ∨ num_regions l' = num_regions l - 1 ∧ n = last_pages l ∧ last_pages l' = cap))
    as (l' & E & Hl' & Ef' & Hshape).
  { unfold reduce_last_region, last_pages, num_regions, layout_ok in *. rewrite Ef in *. cbn [num_pages header_pages page_size] in *.
    destruct (trailing_partial_region l) as [t|].
    - rewrite (proj2 (Z.leb_le _ _)) by lia. cbn [check mbind option_bind]. destruct Ht as (-> & -> & Ht). destruct (Z.eqb_spec (num_pages t - n) 0).
      + eexists. split; [done|]. cbn. split_and!; try done; try lia; right; split_and!; try done; lia.
      + eexists. split; [done|]. cbn. split_and!; try done; try lia; by left.
    - rewrite (proj2 (Z.ltb_lt 0 (num_full_regions l))) by lia. cbn [check mbind option_bind]. destruct (Z.ltb_spec n cap).
      + rewrite region_new_Some by lia. cbn [fmap option_fmap option_map mbind option_bind]. eexists. split; [done|]. cbn. split_and!; try done; try lia.
      + cbn [mbind option_bind]. eexists. split; [done|]. cbn. split_and!; try done; try lia; right; split_and!; try done; lia. }
  exists l'. destruct (layout_shape l' _ _ _ Hl' Ef') as (_ & _ & Hu' & Hr'). split_and!; try done.
  - rewrite Hu, Hu'. destruct Hshape as [[-> ->]|(-> & -> & ->)]; lia.
  - intros i Hi. rewrite Hr, Hr'. destruct Hshape as [[-> _]|(-> & _ & ->)]; rewrite !(proj2 (Z.ltb_lt _ _)) by lia; rewrite !(proj2 (Z.eqb_neq i (num_regions l - 1))) by lia; [done|].
    by destruct (i =? _).
Qed.
End limits.

(** C29: a layout and a length determine each other.  The layout calculated for a
    number of bytes offers them, rounded up to a page; the one recalculated from the
    length of a file is the longest that fits in it; layouts of one length have
    the same regions; and taking pages off the last region takes exactly them. *)
Theorem layouts_are_exact cap h ps :
  0 < cap ≤ MAX_REGIONS → cap * ps ≤ 2 ^ 32 → 0 ≤ h → 0 < ps →
  let of_size l := layout_ok l ∧ full_region_layout l = mkRegion cap h ps in
  (∀ d, 0 < d < 2 ^ 32 * (cap * ps) →
    ∃ l, calculate d cap h ps = Some l ∧ of_size l ∧ d ≤ usable_bytes l < d + ps ∧ usable_bytes l `mod` ps = 0)
  ∧ (∀ len, (h + 2) * ps ≤ len < 2 ^ 32 * ((h + cap) * ps) →
    ∃ l m, recalculate len h cap ps = Some l ∧ of_size l ∧ database_len l = Some m ∧ m ≤ len
      ∧ ∀ l' m', of_size l' → database_len l' = Some m' → m' ≤ len → m' ≤ m)
  ∧ (∀ l l', of_size l → of_size l' → database_len l = database_len l' → same_regions l l')
  ∧ (∀ l n, of_size l → 0 < n ≤ last_pages l → (n < last_pages l ∨ 1 < num_regions l) →
    ∃ l', reduce_last_region l n = Some l' ∧ of_size l' ∧ usable_bytes l' = usable_bytes l - n * ps
      ∧ ∀ i, i < num_regions l - 1 → region_layout l' i = region_layout l i).
Proof.
  intros Hc Hs Hh Hp of_size. split_and!.
  - intros d [Hd Hmax]. destruct (calculate_ok cap h ps Hc Hh Hp d Hd Hmax) as (l & ? & ? & ? & ?). by exists l.
  - intros len [Hlen Hmax]. destruct (recalculate_ok cap h ps Hc Hs Hh Hp len Hlen Hmax) as (l & m & ? & ? & ? & ? & ? & Hbest).
    exists l, m. split_and!; try done. intros l' m' [? ?]. by apply Hbest.
  - intros l l' [Hl Ef] [Hl' Ef']. by apply (same_length l l' cap h ps).
  - intros l n [Hl Ef] Hn Hlast. destruct (reduce_ok cap h ps Hc Hh Hp l n Hl Ef Hn Hlast) as (l' & ? & ? & ? & ? & ?). by exists l'.
Qed.
(** A file of 300000 bytes, in pages of 4096 and regions of 32. *)
Lemma layouts_are_exact_witness : ∃ l m, recalculate 300000 0 32 4096 = Some l ∧ database_len l = Some m ∧ m = 299008
  ∧ ∀ l', layout_ok l' → full_region_layout l' = mkRegion 32 0 4096 → database_len l' = Some m → same_regions l l'.
Proof.
  destruct (layouts_are_exact 32 0 4096) as (_ & Hre & Hsame & _); [unfold MAX_REGIONS; lia|lia|lia|lia|].
  destruct (Hre 300000) as (l & m & E & Hl & Em & _); [lia|]. exists l, m. split; [exact E|]. split; [exact Em|].
  split; [cbv in E; injection E as <-; cbv in Em; injection Em as <-; reflexivity|].
  intros l' Hl' Ef' Em'. apply Hsame; [exact Hl|split; [exact Hl'|exact Ef']|]. rewrite Em. symmetry. exact Em'.
Defined.

(** * Page numbers in the file *)

(** The bits of a word that are read for a page of order [order]. *)
Definition read_bits (order : Z) : Z := Z.lor (Z.lor (Z.ones (20 - order)) (Z.shiftl (Z.ones 20) 20)) (Z.shiftl (Z.ones 5) 59).
Definition number_ok (p : PageNumber) : Prop :=
  0 ≤ page_order p ≤ Buddy.MAX_MAX_PAGE_ORDER ∧ 0 ≤ region p < MAX_REGIONS ∧ 0 ≤ page_index p < 2 ^ (20 - page_order p).

Lemma small_bits n k i : 0 ≤ k → 0 ≤ n < 2 ^ k → k ≤ i → Z.testbit n i = false.
Proof. intros Hk Hn Hi. apply (proj1 (Z.bounded_iff_bits_nonneg k n Hk (proj1 Hn)) (proj2 Hn) i Hi). Qed.
Lemma bits_small n k : 0 ≤ k → 0 ≤ n → (∀ i, k ≤ i → Z.testbit n i = false) → n < 2 ^ k.
Proof. intros Hk Hn Hi. by apply Z.bounded_iff_bits_nonneg. Qed.
Definition word (p : PageNumber) : Z :=
  Z.lor (Z.lor (Z.land 0xFFFFF (page_index p)) (Z.shiftl (Z.land 0xFFFFF (region p)) 20)) (Z.shiftl (Z.land 0x1F (page_order p)) 59).
Lemma word_bit p i : number_ok p → 0 ≤ i → Z.testbit (word p) i =
  if i <? 20 then Z.testbit (page_index p) i else if i <? 40 then Z.testbit (region p) (i - 20)
  else if i <? 59 then false else Z.testbit (page_order p) (i - 59).
Proof.
  unfold number_ok, Buddy.MAX_MAX_PAGE_ORDER, MAX_REGIONS. intros (Ho & Hr & Hi) H. unfold word.
  change 0xFFFFF with (Z.ones 20). change 0x1F with (Z.ones 5).
  assert (2 ^ (20 - page_order p) ≤ 2 ^ 20) by (apply Z.pow_le_mono_r; lia).
  pose proof (λ j, small_bits (page_index p) 20 j ltac:(lia) ltac:(lia)) as Hix. pose proof (λ j, small_bits (region p) 20 j ltac:(lia) ltac:(lia)) as Hrx.
  pose proof (λ j, small_bits (page_order p) 5 j ltac:(lia) ltac:(lia)) as Hox.
  rewrite !Z.lor_spec, !Z.shiftl_spec, !Z.land_spec, !Z.testbit_ones by lia.
  destruct (Z.ltb_spec i 20); [|destruct (Z.ltb_spec i 40); [|destruct (Z.ltb_spec i 59)]];
    repeat match goal with |- context [?a <=? ?b] => destruct (Z.leb_spec a b) | |- context [?a <? ?b] => destruct (Z.ltb_spec a b) end;
    cbn [andb orb]; rewrite ?orb_false_r; try lia; try done.
  all: rewrite ?Hix, ?Hrx, ?Hox by lia; try done.
Qed.
Lemma word_width p : number_ok p → is_u64 (word p).
Proof.
  intros Hp. assert (0 ≤ word p).
  { destruct Hp as (? & ? & ?). unfold word. rewrite !Z.lor_nonneg, !Z.shiftl_nonneg, !Z.land_nonneg. lia. }
  split; [done|]. apply bits_small; [lia|done|]. intros i Hi. rewrite word_bit by (done || lia).
  rewrite !(proj2 (Z.ltb_ge _ _)) by lia. destruct Hp as (Ho & _). unfold Buddy.MAX_MAX_PAGE_ORDER in Ho. apply (small_bits _ 5); lia.
Qed.
Lemma garbage_bit g o i : 0 ≤ o ≤ 20 → Z.land g (read_bits o) = 0 → 0 ≤ i < 20 - o ∨ 20 ≤ i < 40 ∨ 59 ≤ i < 64 → Z.testbit g i = false.
Proof.
  intros Ho Hg Hi. assert (Z.testbit (Z.land g (read_bits o)) i = false) as H by (rewrite Hg; apply Z.bits_0).
  unfold read_bits in H. rewrite Z.land_spec, !Z.lor_spec, !Z.shiftl_spec, !Z.testbit_ones in H by lia.
  apply andb_false_iff in H as [H|H]; [done|]. exfalso.
  rewrite !orb_false_iff, !andb_false_iff, !Z.leb_gt, !Z.ltb_ge in H. lia.
Qed.

(** The order, the index and the region read from a stored word. *)
Lemma read_back p g : number_ok p → is_u64 g → Z.land g (read_bits (page_order p)) = 0 →
  from_le_bytes (le_bytes 8 (Z.lor (of_le (to_le_bytes p)) g)) = Some p.
Proof.
  intros Hp Hg Hz. change (to_le_bytes p) with (le_bytes 8 (word p)). pose proof (word_width p Hp) as Hw. rewrite (of_le_bytes_u64 (word p)) by done.
  pose proof Hp as (Ho & Hr & Hi). unfold Buddy.MAX_MAX_PAGE_ORDER, MAX_REGIONS in Ho, Hr.
  assert (∀ i, 64 ≤ i → Z.testbit (Z.lor (word p) g) i = false) as Hhigh.
  { intros i ?. rewrite Z.lor_spec, (small_bits (word p) 64), (small_bits g 64); done || lia. }
  assert (is_u64 (Z.lor (word p) g)) as Hlor.
  { assert (0 ≤ Z.lor (word p) g) by (apply Z.lor_nonneg; unfold in_width in *; lia). split; [done|]. by apply bits_small. }
  unfold from_le_bytes. rewrite of_le_bytes_u64 by done.
  assert (Z.land (Z.shiftr (Z.lor (word p) g) 59) 0xFF = page_order p) as ->.
  { apply Z.bits_inj'. intros i H. change 0xFF with (Z.ones 8). rewrite Z.land_spec, Z.shiftr_spec, Z.testbit_ones by lia.
    rewrite (proj2 (Z.leb_le 0 i)) by lia. cbn [andb]. destruct (Z.ltb_spec i 8) as [Hi8|Hi8]; cycle 1.
    { rewrite andb_false_r. symmetry. apply (small_bits _ 5); lia. }
    rewrite andb_true_r. destruct (Z.ltb_spec i 5) as [Hi5|Hi5]; [|rewrite Hhigh by lia; symmetry; apply (small_bits _ 5); lia].
    rewrite Z.lor_spec, (garbage_bit g _ (i + 59) Ho Hz) by lia. rewrite orb_false_r, word_bit by (done || lia).
    rewrite !(proj2 (Z.ltb_ge _ _)) by lia. f_equal. lia. }
  assert (Z.land (Z.lor (word p) g) (Z.shiftr 0xFFFFF (page_order p)) = page_index p) as ->.
  { apply Z.bits_inj'. intros i H. change 0xFFFFF with (Z.ones 20). rewrite Z.land_spec, Z.shiftr_spec, Z.testbit_ones by lia.
    rewrite (proj2 (Z.leb_le 0 _)) by lia. cbn [andb]. destruct (Z.ltb_spec (i + page_order p) 20) as [Hi20|Hi20]; cycle 1.
    { rewrite andb_false_r. symmetry. apply (small_bits _ (20 - page_order p)); lia. }
    rewrite andb_true_r, Z.lor_spec, (garbage_bit g _ i Ho Hz) by lia. rewrite orb_false_r, word_bit by (done || lia).
    by rewrite (proj2 (Z.ltb_lt _ _)) by lia. }
  assert (2 ^ (20 - page_order p) ≤ 2 ^ 20) by (apply Z.pow_le_mono_r; lia). rewrite try_u32_Some by lia. cbn [mbind option_bind].
  assert (Z.land (Z.shiftr (Z.lor (word p) g) 20) 0xFFFFF = region p) as ->.
  { apply Z.bits_inj'. intros i H'. change 0xFFFFF with (Z.ones 20). rewrite Z.land_spec, Z.shiftr_spec, Z.testbit_ones by lia.
    rewrite (proj2 (Z.leb_le 0 _)) by lia. cbn [andb]. destruct (Z.ltb_spec i 20) as [Hi20|Hi20]; cycle 1.
    { rewrite andb_false_r. symmetry. apply (small_bits _ 20); lia. }
    rewrite andb_true_r, Z.lor_spec, (garbage_bit g _ (i + 20) Ho Hz) by lia. rewrite orb_false_r, word_bit by (done || lia).
    rewrite (proj2 (Z.ltb_ge _ 20)), (proj2 (Z.ltb_lt _ 40)) by lia. f_equal. lia. }
  by destruct p.
Qed.
Lemma read_any b : length b = 8%nat → ∃ p, from_le_bytes b = Some p ∧ 0 ≤ page_order p < 32 ∧ 0 ≤ region p < MAX_REGIONS
  ∧ 0 ≤ page_index p < MAX_REGIONS ∧ (page_order p ≤ Buddy.MAX_MAX_PAGE_ORDER → number_ok p).
Proof.
  intros Hb. pose proof (of_le_range b) as Ht. rewrite Hb in Ht. change (256 ^ Z.of_nat 8) with (2 ^ 59 * 32) in Ht. unfold from_le_bytes. set (t := of_le b) in *.
  assert (0 ≤ Z.shiftr t 59 < 32) as Hs by (rewrite Z.shiftr_div_pow2 by lia; split; [apply Z.div_pos|apply Z.div_lt_upper_bound]; lia).
  assert (Z.land (Z.shiftr t 59) 0xFF = Z.shiftr t 59) as -> by (change 0xFF with (Z.ones 8); rewrite Z.land_ones by lia; apply Z.mod_small; lia).
  set (o := Z.shiftr t 59) in *. change 0xFFFFF with (Z.ones 20).
  assert (0 ≤ Z.land t (Z.shiftr (Z.ones 20) o) < 2 ^ Z.max 0 (20 - o)) as Hix.
  { assert (0 ≤ Z.land t (Z.shiftr (Z.ones 20) o)) by (apply Z.land_nonneg; lia). split; [done|]. apply bits_small; [lia|done|].
    intros i Hi. rewrite Z.land_spec, Z.shiftr_spec, Z.testbit_ones by lia. rewrite (proj2 (Z.ltb_ge (i + o) 20)) by lia. by rewrite !andb_false_r. }
  assert (2 ^ Z.max 0 (20 - o) ≤ 2 ^ 20) by (apply Z.pow_le_mono_r; lia). rewrite try_u32_Some by lia. cbn [mbind option_bind].
  assert (0 ≤ Z.land (Z.shiftr t 20) (Z.ones 20) < 2 ^ 20) as Hr by (rewrite Z.land_ones by lia; apply Z.mod_pos_bound; lia).
  eexists. split; [done|]. cbn [page_order region page_index]. unfold number_ok, Buddy.MAX_MAX_PAGE_ORDER, MAX_REGIONS. cbn [page_order region page_index].
  split_and!; try lia. intros Ho. rewrite Z.max_r in Hix by lia. split_and!; lia.
Qed.

(** A page number survives its storage.  What is written is read back, for the
    pages of every order, whatever the bits are that the format leaves unused; and
    any eight bytes are read without a panic, as a page number within its limits if
    their order is one of those in use. *)
Theorem page_number_codec :
  (∀ p, number_ok p → from_le_bytes (to_le_bytes p) = Some p)
  ∧ (∀ p g, number_ok p → is_u64 g → Z.land g (read_bits (page_order p)) = 0 →
      from_le_bytes (le_bytes 8 (Z.lor (of_le (to_le_bytes p)) g)) = Some p)
  ∧ (∀ b, length b = 8%nat → ∃ p, from_le_bytes b = Some p ∧ 0 ≤ page_order p < 32 ∧ 0 ≤ region p < MAX_REGIONS
      ∧ 0 ≤ page_index p < MAX_REGIONS ∧ (page_order p ≤ Buddy.MAX_MAX_PAGE_ORDER → number_ok p)).
Proof.
  split_and!; [|exact read_back|exact read_any].
  intros p Hp. pose proof (read_back p 0 Hp) as H. rewrite Z.lor_0_r in H. change (to_le_bytes p) with (le_bytes 8 (word p)) in *.
  rewrite of_le_bytes_u64 in H by (by apply word_width). apply H; [done|]. apply Z.land_0_l.
Qed.
Lemma page_number_codec_witness : from_le_bytes (to_le_bytes (mkPage 7 3 2)) = Some (mkPage 7 3 2)
  ∧ from_le_bytes (le_bytes 8 (Z.lor (of_le (to_le_bytes (mkPage 7 3 2))) (Z.shiftl 5 42))) = Some (mkPage 7 3 2)
  ∧ is_Some (from_le_bytes (replicate 8 Byte.xff)).
Proof.
  assert (number_ok (mkPage 7 3 2)) as Hp by (unfold number_ok, Buddy.MAX_MAX_PAGE_ORDER, MAX_REGIONS; cbn [page_order region page_index]; lia).
  destruct page_number_codec as (H1 & H2 & H3). split; [by apply H1|]. split; [apply H2; [exact Hp|split; [vm_compute; discriminate|vm_compute; reflexivity]|vm_compute; reflexivity]|].
  destruct (H3 (replicate 8 Byte.xff) eq_refl) as (p & E & _). exists p. exact E.
Defined.

End Layout.
