(* ===== verification/RedbHeader.v ===== *)
(** RedbHeader: the header of a database file, its two commit slots and the
    protocol that switches between them.

    Models [header.rs] of [poc/redb-fork/src/tree_store/page_store/], the
    [BtreeHeader] of [btree_base.rs], and the steps of [page_manager.rs] that write
    the header: the opening of a file, the beginning of a write transaction, a
    commit and the end of a repair.  The checksum of a slot is any function of bytes
    to 128 bits: [xxh3.rs] is not modelled.  [None] is a panic; an error of the code is
    a value.  The disk keeps what was flushed; of the writes since then a crash may
    keep any bytes. *)
From S2P Require Import Prelude Windows RedbGroup RedbLayout.
Import Layout.
Local Open Scope Z_scope.

(** The hash of [xxh3.rs]. *)
Class Checksum := {
  xxh3_checksum : bytes → Z;
  xxh3_width : ∀ data, in_width 128 (xxh3_checksum data);
}.

Module Header.

Inductive DatabaseError := UpgradeRequired (version : Z) | Corrupted | RepairAborted | InvalidData.

(** * The root of a tree *)
Record BtreeHeader := mkRoot { root : PageNumber; checksum : Z; length_ : Z }.
#[export] Instance BtreeHeader_eq_dec : EqDecision BtreeHeader.
Proof. solve_decision. Defined.

Definition root_to_le_bytes (h : BtreeHeader) : bytes :=
  let result := replicate 32 Byte.x00 in
  let result := splice result 0 (to_le_bytes (root h)) in
  let result := splice result 8 (le_bytes 16 (checksum h)) in
  splice result 24 (le_bytes 8 (length_ h)).
Definition root_from_le_bytes (b : bytes) : option BtreeHeader :=
  root ← byte_range b 0 8 ≫= from_le_bytes;
  checksum ← of_le <$> byte_range b 8 24;
  length ← of_le <$> byte_range b 24 32;
  Some (mkRoot root checksum length).

(** * A commit slot *)
Definition FILE_FORMAT_VERSION1 : Z := 1.
Definition FILE_FORMAT_VERSION2 : Z := 2.
Definition FILE_FORMAT_VERSION3 : Z := 3.
Definition VERSION_OFFSET : Z := 0.
Definition USER_ROOT_NON_NULL_OFFSET : Z := 1.
Definition SYSTEM_ROOT_NON_NULL_OFFSET : Z := 2.
Definition USER_ROOT_OFFSET : Z := 8.
Definition SYSTEM_ROOT_OFFSET : Z := 40.
Definition TRANSACTION_ID_OFFSET : Z := 104.
Definition SLOT_CHECKSUM_OFFSET : Z := 112.
Definition TRANSACTION_SIZE : nat := 128.

Record TransactionHeader := mkSlot {
  version : Z;
  user_root : option BtreeHeader;
  system_root : option BtreeHeader;
  transaction_id : Z;
}.
#[export] Instance TransactionHeader_eq_dec : EqDecision TransactionHeader.
Proof. solve_decision. Defined.

Definition transaction_new (transaction_id : Z) : TransactionHeader := mkSlot FILE_FORMAT_VERSION3 None None transaction_id.

Section checksum.
Context {CS : Checksum}.

(** One of the two roots of a slot: a byte that says it is there, and its place. *)
Definition read_root (data : bytes) (non_null_offset offset : Z) : option (option BtreeHeader) :=
  non_null ← b2z <$> data !! Z.to_nat non_null_offset;
  if non_null =? 0 then Some None else Some <$> (byte_range data offset (offset + 32) ≫= root_from_le_bytes).
Definition write_root (result : bytes) (non_null_offset offset : Z) (h : option BtreeHeader) : bytes :=
  match h with
  | Some h => splice (splice result non_null_offset [z2b 1]) offset (root_to_le_bytes h)
  | None => result
  end.
(** The flag says whether the checksum was wrong. *)
Definition transaction_from_bytes (data : bytes) : option (result DatabaseError (TransactionHeader * bool)) :=
  version ← b2z <$> data !! Z.to_nat VERSION_OFFSET;
  if (version =? FILE_FORMAT_VERSION1) || (version =? FILE_FORMAT_VERSION2) then Some (Err (UpgradeRequired version))
  else if negb (version =? FILE_FORMAT_VERSION3) then Some (Err Corrupted) else
  checksum ← of_le <$> byte_range data SLOT_CHECKSUM_OFFSET (SLOT_CHECKSUM_OFFSET + 16);
  body ← byte_range data 0 SLOT_CHECKSUM_OFFSET;
  let corrupted := negb (checksum =? xxh3_checksum body) in
  user_root ← read_root data USER_ROOT_NON_NULL_OFFSET USER_ROOT_OFFSET;
  system_root ← read_root data SYSTEM_ROOT_NON_NULL_OFFSET SYSTEM_ROOT_OFFSET;
  transaction_id ← of_le <$> byte_range data TRANSACTION_ID_OFFSET (TRANSACTION_ID_OFFSET + 8);
  Some (Ok (mkSlot version user_root system_root transaction_id, corrupted)).
Definition transaction_to_bytes (t : TransactionHeader) : option bytes :=
  check (version t =? FILE_FORMAT_VERSION3);;
  let result := replicate TRANSACTION_SIZE Byte.x00 in
  let result := splice result VERSION_OFFSET [z2b (version t)] in
  let result := write_root result USER_ROOT_NON_NULL_OFFSET USER_ROOT_OFFSET (user_root t) in
  let result := write_root result SYSTEM_ROOT_NON_NULL_OFFSET SYSTEM_ROOT_OFFSET (system_root t) in
  let result := splice result TRANSACTION_ID_OFFSET (le_bytes 8 (transaction_id t)) in
  let checksum := xxh3_checksum (take (Z.to_nat SLOT_CHECKSUM_OFFSET) result) in
  Some (splice result SLOT_CHECKSUM_OFFSET (le_bytes 16 checksum)).

(** * The header *)
Definition MAGICNUMBER : bytes := z2b <$> [0x72; 0x65; 0x64; 0x62; 0x1A; 0x0A; 0xA9; 0x0D; 0x0A].
Definition GOD_BYTE_OFFSET : Z := 9.
Definition PAGE_SIZE_OFFSET : Z := 12.
Definition REGION_HEADER_PAGES_OFFSET : Z := 16.
Definition REGION_MAX_DATA_PAGES_OFFSET : Z := 20.
Definition NUM_FULL_REGIONS_OFFSET : Z := 24.
Definition TRAILING_REGION_DATA_PAGES_OFFSET : Z := 28.
Definition TRANSACTION_0_OFFSET : Z := 64.
Definition TRANSACTION_1_OFFSET : Z := 192.
Definition DB_HEADER_SIZE : nat := 320.
Definition PRIMARY_BIT : Z := 1.
Definition RECOVERY_REQUIRED : Z := 2.
Definition TWO_PHASE_COMMIT : Z := 4.

Record HeaderRepairInfo := mkRepair { invalid_magic_number : bool; primary_corrupted : bool; secondary_corrupted : bool }.
Record DatabaseHeader := mkHeader {
  primary_index : Z;
  recovery_required : bool;
  two_phase_commit : bool;
  header_page_size : Z;
  region_header_pages : Z;
  region_max_data_pages : Z;
  full_regions : Z;
  trailing_partial_region_pages : Z;
  transaction_slots : list TransactionHeader;
}.
#[export] Instance DatabaseHeader_settable : Settable DatabaseHeader := λ h,
  mkHeader (primary_index h) (recovery_required h) (two_phase_commit h) (header_page_size h) (region_header_pages h)
    (region_max_data_pages h) (full_regions h) (trailing_partial_region_pages h) (transaction_slots h).

Definition header_new (layout : DatabaseLayout) (transaction_id : Z) : DatabaseHeader :=
  let slot := transaction_new transaction_id in
  let full := full_region_layout layout in
  mkHeader 0 true false (page_size full) (header_pages full) (num_pages full) (num_full_regions layout)
    (match trailing_region_layout layout with Some x => num_pages x | None => 0 end) [slot; slot].
Definition header_layout (h : DatabaseHeader) : option DatabaseLayout :=
  full_layout ← region_new (region_max_data_pages h) (region_header_pages h) (header_page_size h);
  trailing ← (if 0 <? trailing_partial_region_pages h
    then Some <$> region_new (trailing_partial_region_pages h) (region_header_pages h) (header_page_size h)
    else Some None);
  Some (database_new (full_regions h) full_layout trailing).
Definition set_layout (h : DatabaseHeader) (layout : DatabaseLayout) : option DatabaseHeader :=
  own ← header_layout h;
  check (bool_decide (full_region_layout own = full_region_layout layout));;
  pages ← (match trailing_region_layout layout with
    | Some trailing =>
        check (header_pages trailing =? region_header_pages h);;
        check (page_size trailing =? header_page_size h);;
        Some (num_pages trailing)
    | None => Some 0
    end);
  Some (h <| trailing_partial_region_pages := pages |> <| full_regions := num_full_regions layout |>).

Definition primary_slot (h : DatabaseHeader) : option TransactionHeader := transaction_slots h !! Z.to_nat (primary_index h).
Definition secondary_slot (h : DatabaseHeader) : option TransactionHeader :=
  transaction_slots h !! Z.to_nat (Z.lxor (primary_index h) 1).
(** [*self.secondary_slot_mut() = slot] *)
Definition set_secondary_slot (h : DatabaseHeader) (slot : TransactionHeader) : DatabaseHeader :=
  h <| transaction_slots := <[Z.to_nat (Z.lxor (primary_index h) 1) := slot]> (transaction_slots h) |>.
Definition swap_primary_slot (h : DatabaseHeader) : DatabaseHeader := h <| primary_index ::= λ i, Z.lxor i 1 |>.

(** The flag says whether the slot that was primary is kept. *)
Definition pick_primary_for_repair (h : DatabaseHeader) (repair_info : HeaderRepairInfo)
    : option (result DatabaseError (bool * DatabaseHeader)) :=
  if two_phase_commit h then
    Some (if primary_corrupted repair_info then Err Corrupted else Ok (true, h))
  else if primary_corrupted repair_info then
    Some (if secondary_corrupted repair_info then Err Corrupted else Ok (false, swap_primary_slot h))
  else
    secondary ← secondary_slot h;
    primary ← primary_slot h;
    let secondary_newer := transaction_id primary <? transaction_id secondary in
    Some (Ok (if secondary_newer && negb (secondary_corrupted repair_info) then (false, swap_primary_slot h) else (true, h))).

Definition get_u32 (data : bytes) (offset : Z) : option Z := u32_at data offset.
Definition header_from_bytes (data : bytes) : option (result DatabaseError (DatabaseHeader * HeaderRepairInfo)) :=
  magic ← byte_range data 0 (Z.of_nat (length MAGICNUMBER));
  let invalid_magic_number := negb (bool_decide (magic = MAGICNUMBER)) in
  god ← b2z <$> data !! Z.to_nat GOD_BYTE_OFFSET;
  let primary_index := if Z.land god PRIMARY_BIT =? 0 then 0 else 1 in
  let recovery_required := negb (Z.land god RECOVERY_REQUIRED =? 0) in
  let two_phase_commit := negb (Z.land god TWO_PHASE_COMMIT =? 0) in
  page_size ← get_u32 data PAGE_SIZE_OFFSET;
  region_header_pages ← get_u32 data REGION_HEADER_PAGES_OFFSET;
  region_max_data_pages ← get_u32 data REGION_MAX_DATA_PAGES_OFFSET;
  full_regions ← get_u32 data NUM_FULL_REGIONS_OFFSET;
  trailing_data_pages ← get_u32 data TRAILING_REGION_DATA_PAGES_OFFSET;
  r0 ← byte_range data TRANSACTION_0_OFFSET (TRANSACTION_0_OFFSET + Z.of_nat TRANSACTION_SIZE) ≫= transaction_from_bytes;
  match r0 with
  | Err e => Some (Err e)
  | Ok (slot0, slot0_corrupted) =>
      r1 ← byte_range data TRANSACTION_1_OFFSET (TRANSACTION_1_OFFSET + Z.of_nat TRANSACTION_SIZE) ≫= transaction_from_bytes;
      match r1 with
      | Err e => Some (Err e)
      | Ok (slot1, slot1_corrupted) =>
          let '(primary_corrupted, secondary_corrupted) :=
            if primary_index =? 0 then (slot0_corrupted, slot1_corrupted) else (slot1_corrupted, slot0_corrupted) in
          Some (Ok (mkHeader primary_index recovery_required two_phase_commit page_size region_header_pages
                      region_max_data_pages full_regions trailing_data_pages [slot0; slot1],
                    mkRepair invalid_magic_number primary_corrupted secondary_corrupted))
      end
  end.
Definition god_byte (h : DatabaseHeader) : Z :=
  let god := primary_index h in
  let god := if recovery_required h then Z.lor god RECOVERY_REQUIRED else god in
  if two_phase_commit h then Z.lor god TWO_PHASE_COMMIT else god.
Definition header_to_bytes (h : DatabaseHeader) (include_magic_number : bool) : option bytes :=
  let result := replicate DB_HEADER_SIZE Byte.x00 in
  let result := if include_magic_number then splice result 0 MAGICNUMBER else result in
  let result := splice result GOD_BYTE_OFFSET [z2b (god_byte h)] in
  let result := splice result PAGE_SIZE_OFFSET (le_bytes 4 (header_page_size h)) in
  let result := splice result REGION_HEADER_PAGES_OFFSET (le_bytes 4 (region_header_pages h)) in
  let result := splice result REGION_MAX_DATA_PAGES_OFFSET (le_bytes 4 (region_max_data_pages h)) in
  let result := splice result NUM_FULL_REGIONS_OFFSET (le_bytes 4 (full_regions h)) in
  let result := splice result TRAILING_REGION_DATA_PAGES_OFFSET (le_bytes 4 (trailing_partial_region_pages h)) in
  slot0 ← transaction_slots h !! 0%nat ≫= transaction_to_bytes;
  let result := splice result TRANSACTION_0_OFFSET slot0 in
  slot1 ← transaction_slots h !! 1%nat ≫= transaction_to_bytes;
  Some (splice result TRANSACTION_1_OFFSET slot1).

(** * Writing it *)

(** What the memory manager asks of the file: the header in its buffers, a flush
    of the buffers, another length. *)
Inductive HeaderIo := WriteHeader (data : bytes) | Flush | Resize (len : Z).

Definition write_header (h : DatabaseHeader) : option (list HeaderIo) :=
  data ← header_to_bytes h true; Some [WriteHeader data].
(** A new database: the magic number is written when the rest is on the disk. *)
Definition initialize_header (layout : DatabaseLayout) : option (list HeaderIo) :=
  let header := header_new layout 0 <| recovery_required := false |> <| two_phase_commit := true |> in
  without_magic ← header_to_bytes header false;
  with_magic ← header_to_bytes header true;
  Some [WriteHeader without_magic; Flush; WriteHeader with_magic; Flush].
(** The opening of a file of [file_len] bytes, not empty, whose header is [data]; a
    file with another magic number is refused first.  The flag of the answer says
    whether the database needs a repair. *)
Definition open_header (data : bytes) (file_len page_size : Z) (read_only : bool)
    : option (result DatabaseError (DatabaseHeader * bool * list HeaderIo)) :=
  check (bool_decide (page_size = 2 ^ Z.log2 page_size));;
  check (Z.of_nat DB_HEADER_SIZE <=? page_size);;
  magic ← (if Z.of_nat (length MAGICNUMBER) <=? file_len then byte_range data 0 (Z.of_nat (length MAGICNUMBER))
    else Some (replicate (length MAGICNUMBER) Byte.x00));
  if negb (bool_decide (magic = MAGICNUMBER)) then Some (Err InvalidData) else
  r ← header_from_bytes data;
  match r with
  | Err e => Some (Err e)
  | Ok (header, repair_info) =>
      check (header_page_size header =? page_size);;
      len ← header_layout header ≫= database_len;
      check (len <=? file_len);;
      let needs_recovery := recovery_required header || negb (len =? file_len) in
      if negb needs_recovery then
        Some (Ok (header, false, []))
      else if read_only then Some (Err RepairAborted) else
      layout ← header_layout header;
      let full := full_region_layout layout in
      recalculated ← recalculate file_len (header_pages full) (num_pages full) page_size;
      header ← set_layout header recalculated;
      r ← pick_primary_for_repair header repair_info;
      match r with
      | Err e => Some (Err e)
      | Ok (_, header) =>
          check (negb (invalid_magic_number repair_info));;
          io ← write_header header;
          len ← header_layout header ≫= database_len;
          check (len =? file_len);;
          Some (Ok (header, true, io ++ [Flush]))
      end
  end.
Definition begin_writable (h : DatabaseHeader) : option (DatabaseHeader * list HeaderIo) :=
  check (negb (recovery_required h));;
  let h := h <| recovery_required := true |> in
  io ← write_header h;
  Some (h, io ++ [Flush]).
Definition end_repair (h : DatabaseHeader) : option (DatabaseHeader * list HeaderIo) :=
  let h := h <| recovery_required := false |> in
  io ← write_header h;
  Some (h, io ++ [Flush]).
(** What [commit_inner] does with the header once it tried to shrink the file:
    [shrunk] says whether the layout was reduced, and with it the file at the end. *)
Definition commit_header (h : DatabaseHeader) (shrunk : bool) (data_root system_root : option BtreeHeader) (transaction_id : Z) (two_phase : bool)
    : option (DatabaseHeader * list HeaderIo) :=
  secondary ← secondary_slot h;
  let header := set_secondary_slot h (mkSlot (version secondary) data_root system_root transaction_id) in
  io ← write_header header;
  let header := swap_primary_slot header <| two_phase_commit := two_phase |> in
  io' ← write_header header;
  resize ← (if shrunk then (λ len, [Resize len]) <$> (header_layout header ≫= database_len) else Some []);
  Some (header, io ++ (if two_phase then [Flush] else []) ++ io' ++ [Flush] ++ resize).
Definition non_durable_commit (h : DatabaseHeader) (data_root system_root : option BtreeHeader) (transaction_id : Z) : option DatabaseHeader :=
  secondary ← secondary_slot h;
  Some (set_secondary_slot h (mkSlot (version secondary) data_root system_root transaction_id)).

(** ** The disk *)

(** What is on the disk, header and length of the file, and what was asked since
    the last flush. *)
Record Disk := mkDisk { durable : bytes; pending : list bytes; durable_len : Z; pending_lens : list Z }.
Definition disk_step (d : Disk) (io : HeaderIo) : Disk :=
  match io with
  | WriteHeader data => mkDisk (durable d) (pending d ++ [data]) (durable_len d) (pending_lens d)
  | Resize len => mkDisk (durable d) (pending d) (durable_len d) (pending_lens d ++ [len])
  | Flush => mkDisk (default (durable d) (last (pending d))) [] (default (durable_len d) (last (pending_lens d))) []
  end.
Definition disk_run (d : Disk) (ios : list HeaderIo) : Disk := fold_left disk_step ios d.
(** After a crash every byte is the durable one or one written since, and so is the
    length. *)
Definition torn (candidates : list bytes) (data : bytes) : Prop :=
  (∀ w, w ∈ candidates → length w = length data) ∧
  ∀ i b, data !! i = Some b → ∃ w, w ∈ candidates ∧ w !! i = Some b.
Definition crashes_to (d : Disk) (data : bytes) (len : Z) : Prop :=
  torn (durable d :: pending d) data ∧ len ∈ durable_len d :: pending_lens d.

(** * The header read back *)

Lemma byte_range_Some l a b : 0 ≤ a → a ≤ b → b ≤ Z.of_nat (length l) → byte_range l a b = Some (extract l a (b - a)).
Proof. intros. unfold byte_range. by rewrite !(proj2 (Z.leb_le _ _)) by lia. Qed.
Lemma byte_range_length l a b x : byte_range l a b = Some x → Z.of_nat (length x) = b - a.
Proof.
  unfold byte_range. destruct (_ && _) eqn:E; [|done]. intros [= <-]. apply andb_prop in E as [[H1%Z.leb_le H2%Z.leb_le]%andb_prop H3%Z.leb_le].
  apply length_extract; lia.
Qed.
Lemma byte_range_splice l a d b : 0 ≤ a → b = a + Z.of_nat (length d) → b ≤ Z.of_nat (length l) → byte_range (splice l a d) a b = Some d.
Proof.
  intros Ha -> Hl. rewrite byte_range_Some by (rewrite ?length_splice; lia). f_equal.
  replace (a + Z.of_nat (length d) - a) with (Z.of_nat (length d)) by lia. by apply extract_splice_same.
Qed.
Lemma byte_range_splice_out l a d b e : 0 ≤ a → a + Z.of_nat (length d) ≤ Z.of_nat (length l) → 0 ≤ b → b ≤ e → e ≤ Z.of_nat (length l) →
  (e ≤ a ∨ a + Z.of_nat (length d) ≤ b) → byte_range (splice l a d) b e = byte_range l b e.
Proof.
  intros. rewrite !byte_range_Some by (rewrite ?length_splice; lia). f_equal. apply extract_splice_out; lia.
Qed.
Lemma lookup_byte_range l a b x : byte_range l a b = Some [x] → l !! Z.to_nat a = Some x.
Proof.
  intros E. pose proof (byte_range_length _ _ _ _ E) as Hn. cbn [length] in Hn. unfold byte_range in E. destruct (_ && _) eqn:Hc; [|done].
  apply (inj Some) in E. apply andb_prop in Hc as [[H1%Z.leb_le H2%Z.leb_le]%andb_prop H3%Z.leb_le].
  replace (b - a) with 1 in E by lia. unfold extract in E. change (Z.to_nat 1) with 1%nat in E.
  assert (take 1 (drop (Z.to_nat a) l) !! 0%nat = Some x) as Hz by by rewrite E. rewrite lookup_take_lt, lookup_drop in Hz by lia.
  by rewrite Nat.add_0_r in Hz.
Qed.
Lemma byte_range_lookup l a x : 0 ≤ a → l !! Z.to_nat a = Some x → byte_range l a (a + 1) = Some [x].
Proof.
  intros Ha Hx. pose proof (lookup_lt_Some _ _ _ Hx). rewrite byte_range_Some by lia. f_equal. replace (a + 1 - a) with 1 by lia. unfold extract.
  rewrite (drop_S _ _ _ Hx). done.
Qed.
(** A chain of writes at places apart from each other: each is read back, and
    what lies outside of them has not changed. *)
Definition write_all (l : bytes) (ws : list (Z * bytes)) : bytes := fold_left (λ l w, splice l w.1 w.2) ws l.
Definition fit (n : Z) (ws : list (Z * bytes)) : Prop := Forall (λ w, 0 ≤ w.1 ∧ w.1 + Z.of_nat (length w.2) ≤ n) ws.
Definition outside (a b : Z) (ws : list (Z * bytes)) : Prop := Forall (λ w, b ≤ w.1 ∨ w.1 + Z.of_nat (length w.2) ≤ a) ws.
Lemma length_write_all l ws : fit (Z.of_nat (length l)) ws → length (write_all l ws) = length l.
Proof.
  revert l. induction ws as [|w ws IH]; intros l; [done|]. intros [Hw Hws]%Forall_cons. cbn [write_all fold_left]. fold (write_all (splice l w.1 w.2) ws).
  assert (length (splice l w.1 w.2) = length l) as E by (apply length_splice; lia). rewrite IH; [done|]. by rewrite E.
Qed.
Lemma write_all_out l ws a b : fit (Z.of_nat (length l)) ws → outside a b ws → 0 ≤ a → a ≤ b → b ≤ Z.of_nat (length l) →
  byte_range (write_all l ws) a b = byte_range l a b.
Proof.
  revert l. induction ws as [|w ws IH]; intros l; [done|]. intros [Hw Hws]%Forall_cons [Ho Hos]%Forall_cons ? ? ?.
  assert (length (splice l w.1 w.2) = length l) as E by (apply length_splice; lia).
  cbn [write_all fold_left]. fold (write_all (splice l w.1 w.2) ws). rewrite IH by (done || by rewrite E). apply byte_range_splice_out; lia.
Qed.
Lemma write_all_at l ws (i : nat) o d : ws !! i = Some (o, d) → fit (Z.of_nat (length l)) ws → outside o (o + Z.of_nat (length d)) (drop (S i) ws) →
  byte_range (write_all l ws) o (o + Z.of_nat (length d)) = Some d.
Proof.
  intros Hi Hfit Hout. rewrite <-(take_drop_middle _ _ _ Hi) in Hfit |- *. unfold write_all. rewrite fold_left_app. cbn [fold_left fst snd].
  fold (write_all l (take i ws)). set (l' := write_all l (take i ws)). fold (write_all (splice l' o d) (drop (S i) ws)).
  apply Forall_app in Hfit as [H1 [H2 H3]%Forall_cons]. cbn [fst snd] in H2. assert (length l' = length l) as E by by apply length_write_all.
  assert (length (splice l' o d) = length l) as E' by (rewrite length_splice; lia).
  rewrite write_all_out by (try done; rewrite ?E'; (done || lia)). apply byte_range_splice; lia.
Qed.
Ltac lengths := autorewrite with len; repeat match goal with E : length _ = _ |- _ => rewrite !E end; cbn [length]; lia.
Ltac apart := unfold fit, outside; repeat (apply Forall_nil_2 || apply Forall_cons_2); cbn [fst snd]; try split; lengths.
(** [field i]: the range is what the write number [i] wrote. *)
Tactic Notation "field" constr(i) :=
  lazymatch goal with |- byte_range (write_all ?l ?ws) ?a ?b = Some ?d =>
    let E := fresh in assert (byte_range (write_all l ws) a (a + Z.of_nat (length d)) = Some d) as E
      by (apply (write_all_at l ws i a d); [reflexivity|apart|cbn [drop]; apart]);
    replace (a + Z.of_nat (length d)) with b in E by lengths; exact E end.
Ltac not_written := rewrite write_all_out; [reflexivity|apart|apart|lia|lia|lengths].
Lemma length_to_le_bytes p : length (to_le_bytes p) = 8%nat.
Proof. apply length_le_bytes. Qed.
#[local] Hint Rewrite length_to_le_bytes length_le_bytes @length_replicate : len.

Definition root_ok (h : BtreeHeader) : Prop := number_ok (root h) ∧ in_width 128 (checksum h) ∧ is_u64 (length_ h).
Definition root_writes (h : BtreeHeader) : list (Z * bytes) := [(0, to_le_bytes (root h)); (8, le_bytes 16 (checksum h)); (24, le_bytes 8 (length_ h))].
Lemma root_to_writes h : root_to_le_bytes h = write_all (replicate 32 Byte.x00) (root_writes h).
Proof. done. Qed.
Lemma length_root h : length (root_to_le_bytes h) = 32%nat.
Proof. rewrite root_to_writes, length_write_all; [done|]. unfold fit, root_writes. apart. Qed.
#[local] Hint Rewrite length_root : len.
Lemma root_codec h : root_ok h → root_from_le_bytes (root_to_le_bytes h) = Some h.
Proof.
  intros (Hp & Hc & Hl). unfold root_from_le_bytes. rewrite root_to_writes. set (w := write_all _ _).
  assert (byte_range w 0 8 = Some (to_le_bytes (root h))) as -> by (unfold w, root_writes; field 0%nat).
  assert (byte_range w 8 24 = Some (le_bytes 16 (checksum h))) as -> by (unfold w, root_writes; field 1%nat).
  assert (byte_range w 24 32 = Some (le_bytes 8 (length_ h))) as -> by (unfold w, root_writes; field 2%nat).
  cbn [mbind option_bind fmap option_fmap option_map].
  pose proof (read_back (root h) 0 Hp) as Hr. rewrite Z.lor_0_r in Hr. change (to_le_bytes (root h)) with (le_bytes 8 (word (root h))) in *.
  rewrite (of_le_bytes_u64 (word _)) in Hr by (by apply word_width). rewrite Hr by (done || apply Z.land_0_l). cbn [mbind option_bind].
  rewrite !of_le_bytes_small by (apply Hc || apply Hl). by destruct h.
Qed.
Lemma root_from_any b : length b = 32%nat → is_Some (root_from_le_bytes b).
Proof.
  intros Hb. unfold root_from_le_bytes. rewrite !byte_range_Some by lia. cbn [mbind option_bind fmap option_fmap option_map].
  destruct (read_any (extract b 0 (8 - 0))) as (p & -> & _); [apply Nat2Z.inj; rewrite length_extract; lia|]. done.
Qed.

Definition slot_ok (t : TransactionHeader) : Prop :=
  version t = FILE_FORMAT_VERSION3 ∧ is_u64 (transaction_id t)
  ∧ (∀ h, user_root t = Some h → root_ok h) ∧ ∀ h, system_root t = Some h → root_ok h.

Ltac offsets := unfold VERSION_OFFSET, USER_ROOT_NON_NULL_OFFSET, USER_ROOT_OFFSET, SYSTEM_ROOT_NON_NULL_OFFSET, SYSTEM_ROOT_OFFSET, TRANSACTION_ID_OFFSET, SLOT_CHECKSUM_OFFSET in *; lia.
(** The parts of a slot as they lie in its bytes. *)
Definition valid_checksum (v : bytes) : bool := of_le (extract v 112 16) =? xxh3_checksum (take 112 v).
Lemma read_root_fields v a b h : 0 ≤ a →
  byte_range v a (a + 1) = Some [z2b (match h with Some _ => 1 | None => 0 end)] →
  (∀ r, h = Some r → root_ok r ∧ byte_range v b (b + 32) = Some (root_to_le_bytes r)) → read_root v a b = Some h.
Proof.
  intros Ha Hn Hr. unfold read_root. rewrite (lookup_byte_range _ _ _ _ Hn). cbn [fmap option_fmap option_map mbind option_bind].
  destruct h as [r|]; [|done]. change (b2z (z2b 1) =? 0) with false. destruct (Hr r eq_refl) as [Hok ->]. cbn [mbind option_bind].
  by rewrite (root_codec r Hok).
Qed.
Definition flag_writes (a b : Z) (h : option BtreeHeader) : list (Z * bytes) :=
  match h with Some h => [(a, [z2b 1]); (b, root_to_le_bytes h)] | None => [] end.
Definition slot_writes (t : TransactionHeader) : list (Z * bytes) :=
  (0, [z2b 3]) :: flag_writes 1 8 (user_root t) ++ flag_writes 2 40 (system_root t) ++ [(104, le_bytes 8 (transaction_id t))].
Lemma slot_fields t v : slot_ok t → transaction_to_bytes t = Some v →
  length v = 128%nat ∧ v !! 0%nat = Some (z2b 3) ∧ read_root v 1 8 = Some (user_root t) ∧ read_root v 2 40 = Some (system_root t)
  ∧ byte_range v 104 112 = Some (le_bytes 8 (transaction_id t)) ∧ valid_checksum v = true.
Proof.
  intros (Hv & Hid & Hu & Hs). unfold transaction_to_bytes. rewrite Hv, Z.eqb_refl. cbn [check mbind option_bind]. intros E. apply (inj Some) in E as <-.
  change (splice (write_root _ _ _ _) _ _) with (splice (write_root (write_root (splice (replicate 128 Byte.x00) 0 [z2b 3]) 1 8 (user_root t)) 2 40 (system_root t)) 104 (le_bytes 8 (transaction_id t))).
  unfold SLOT_CHECKSUM_OFFSET. set (r := splice _ 104 _). assert (r = write_all (replicate 128 Byte.x00) (slot_writes t)) as Er.
  { unfold r, slot_writes. by destruct (user_root t), (system_root t). }
  assert (fit 128 (slot_writes t)) as Hfit by (unfold fit, slot_writes; destruct (user_root t), (system_root t); cbn [flag_writes app]; apart).
  assert (length r = 128%nat) as Hr by (rewrite Er; by apply length_write_all).
  assert (take (Z.to_nat 112) (splice r 112 (le_bytes 16 (xxh3_checksum (take (Z.to_nat 112) r)))) = take (Z.to_nat 112) r) as Htake by (apply take_splice; lia).
  assert (valid_checksum (splice r 112 (le_bytes 16 (xxh3_checksum (take (Z.to_nat 112) r)))) = true) as Hck.
  { unfold valid_checksum. change 112%nat with (Z.to_nat 112). rewrite Htake. change 16 with (Z.of_nat 16) at 1.
    rewrite <-(length_le_bytes 16 (xxh3_checksum (take (Z.to_nat 112) r))) at 1. rewrite extract_splice_same by (rewrite ?length_le_bytes; lia).
    rewrite of_le_bytes_small by apply xxh3_width. apply Z.eqb_refl. }
  set (ck := xxh3_checksum _) in *. split; [rewrite length_splice by (rewrite ?length_le_bytes; lia); done|].
  assert (∀ a b, 0 ≤ a → a ≤ b → b ≤ 112 → byte_range (splice r 112 (le_bytes 16 ck)) a b = byte_range r a b) as Hout.
  { intros a b ? ? ?. apply byte_range_splice_out; rewrite ?length_le_bytes, ?Hr; lia. }
  clearbody r. subst r. split_and!; try done.
  - apply (lookup_byte_range _ 0 1). rewrite Hout by lia. unfold slot_writes. destruct (user_root t), (system_root t); cbn [flag_writes app]; field 0%nat.
  - apply read_root_fields; [lia|rewrite Hout by lia|intros h Eh; split; [by apply Hu|]; rewrite Hout by lia]; unfold slot_writes.
    + destruct (user_root t), (system_root t); cbn [flag_writes app]; (field 1%nat) || not_written.
    + rewrite Eh. destruct (system_root t); cbn [flag_writes app]; field 2%nat.
  - apply read_root_fields; [lia|rewrite Hout by lia|intros h Eh; split; [by apply Hs|]; rewrite Hout by lia]; unfold slot_writes.
    + destruct (user_root t), (system_root t); cbn [flag_writes app]; (field 3%nat) || (field 1%nat) || not_written.
    + rewrite Eh. destruct (user_root t); cbn [flag_writes app]; (field 4%nat) || (field 2%nat).
  - rewrite Hout by lia. unfold slot_writes. destruct (user_root t), (system_root t); cbn [flag_writes app]; (field 5%nat) || (field 3%nat) || (field 1%nat).
Qed.
Lemma slot_to_bytes_Some t : version t = FILE_FORMAT_VERSION3 → is_Some (transaction_to_bytes t).
Proof. intros Hv. unfold transaction_to_bytes. by rewrite Hv, Z.eqb_refl. Qed.
(** Any bytes with the version of the format are read, valid or not. *)
Lemma slot_from_any v : length v = 128%nat → v !! 0%nat = Some (z2b 3) →
  ∃ t, transaction_from_bytes v = Some (Ok (t, negb (valid_checksum v))) ∧ version t = FILE_FORMAT_VERSION3.
Proof.
  intros Hl Hv. unfold transaction_from_bytes, VERSION_OFFSET, SLOT_CHECKSUM_OFFSET. change (Z.to_nat 0) with 0%nat. rewrite Hv. cbn [fmap option_fmap option_map mbind option_bind].
  change (b2z (z2b 3)) with 3. cbn [Z.eqb FILE_FORMAT_VERSION1 FILE_FORMAT_VERSION2 FILE_FORMAT_VERSION3 orb negb].
  change (3 =? FILE_FORMAT_VERSION1) with false. change (3 =? FILE_FORMAT_VERSION2) with false. change (3 =? FILE_FORMAT_VERSION3) with true. cbn [orb negb].
  assert (∀ a b, 0 ≤ a < 128 → 0 ≤ b → b + 32 ≤ 128 → is_Some (read_root v a b)) as Hread.
  { intros a b Ha Hb0 Hb. unfold read_root. destruct (lookup_lt_is_Some_2 v (Z.to_nat a)) as [x ->]; [lia|]. cbn [fmap option_fmap option_map mbind option_bind].
    destruct (_ =? 0); [done|]. rewrite byte_range_Some by lia. cbn [mbind option_bind].
    destruct (root_from_any (extract v b (b + 32 - b))) as [r ->]; [apply Nat2Z.inj; rewrite length_extract; lia|]. done. }
  rewrite !byte_range_Some by (unfold TRANSACTION_ID_OFFSET; lia). cbn [fmap option_fmap option_map mbind option_bind].
  destruct (Hread USER_ROOT_NON_NULL_OFFSET USER_ROOT_OFFSET) as [u ->]; [offsets..|].
  destruct (Hread SYSTEM_ROOT_NON_NULL_OFFSET SYSTEM_ROOT_OFFSET) as [s ->]; [offsets..|].
  cbn [mbind option_bind]. eexists. split; [unfold valid_checksum; reflexivity|done].
Qed.
Lemma slot_codec t v : slot_ok t → transaction_to_bytes t = Some v → transaction_from_bytes v = Some (Ok (t, false)).
Proof.
  intros Ht E. destruct (slot_fields t v Ht E) as (Hl & Hv & Hu & Hs & Hid & Hck). pose proof Ht as (Hver & Hidw & _).
  unfold transaction_from_bytes, VERSION_OFFSET, SLOT_CHECKSUM_OFFSET. change (Z.to_nat 0) with 0%nat. rewrite Hv. cbn [fmap option_fmap option_map mbind option_bind].
  change (b2z (z2b 3)) with 3. change (3 =? FILE_FORMAT_VERSION1) with false. change (3 =? FILE_FORMAT_VERSION2) with false. change (3 =? FILE_FORMAT_VERSION3) with true. cbn [orb negb].
  rewrite (byte_range_Some v 112), (byte_range_Some v 0) by lia. cbn [fmap option_fmap option_map mbind option_bind].
  unfold USER_ROOT_NON_NULL_OFFSET, USER_ROOT_OFFSET, SYSTEM_ROOT_NON_NULL_OFFSET, SYSTEM_ROOT_OFFSET, TRANSACTION_ID_OFFSET. rewrite Hu. cbn [mbind option_bind]. rewrite Hs. cbn [mbind option_bind].
  change (104 + 8) with 112. rewrite Hid. cbn [fmap option_fmap option_map mbind option_bind]. rewrite of_le_bytes_u64 by done.
  replace (112 + 16 - 112) with 16 by lia. change (extract v 0 (112 - 0)) with (take 112 v). unfold valid_checksum in Hck. rewrite Hck.
  destruct t as [tv tu ts ti]. cbn in Hver |- *. by rewrite Hver.
Qed.

Definition header_ok (h : DatabaseHeader) : Prop :=
  (primary_index h = 0 ∨ primary_index h = 1)
  ∧ in_width 32 (header_page_size h) ∧ in_width 32 (region_header_pages h) ∧ in_width 32 (region_max_data_pages h)
  ∧ in_width 32 (full_regions h) ∧ in_width 32 (trailing_partial_region_pages h)
  ∧ ∃ a b, transaction_slots h = [a; b] ∧ slot_ok a ∧ slot_ok b.
(** The bytes [c] hold the god byte of [g], the numbers of [h] and these slots. *)
Definition shows (c : bytes) (g h : DatabaseHeader) (s0 s1 : bytes) : Prop :=
  byte_range c 0 9 = Some MAGICNUMBER ∧ byte_range c 9 10 = Some [z2b (god_byte g)]
  ∧ byte_range c 12 16 = Some (le_bytes 4 (header_page_size h)) ∧ byte_range c 16 20 = Some (le_bytes 4 (region_header_pages h))
  ∧ byte_range c 20 24 = Some (le_bytes 4 (region_max_data_pages h)) ∧ byte_range c 24 28 = Some (le_bytes 4 (full_regions h))
  ∧ byte_range c 28 32 = Some (le_bytes 4 (trailing_partial_region_pages h))
  ∧ byte_range c 64 192 = Some s0 ∧ byte_range c 192 320 = Some s1.
Definition header_writes (h : DatabaseHeader) (s0 s1 : bytes) : list (Z * bytes) :=
  [(0, MAGICNUMBER); (9, [z2b (god_byte h)]); (12, le_bytes 4 (header_page_size h)); (16, le_bytes 4 (region_header_pages h));
   (20, le_bytes 4 (region_max_data_pages h)); (24, le_bytes 4 (full_regions h)); (28, le_bytes 4 (trailing_partial_region_pages h));
   (64, s0); (192, s1)].
Lemma header_to_bytes_shows h d a b : transaction_slots h = [a; b] → header_to_bytes h true = Some d → slot_ok a → slot_ok b →
  ∃ s0 s1, transaction_to_bytes a = Some s0 ∧ transaction_to_bytes b = Some s1 ∧ length d = 320%nat ∧ shows d h h s0 s1.
Proof.
  intros Es. unfold header_to_bytes. rewrite Es. cbn [lookup list_lookup mbind option_bind].
  destruct (transaction_to_bytes a) as [s0|] eqn:E0; [|done]. destruct (transaction_to_bytes b) as [s1|] eqn:E1; [|done]. cbn [mbind option_bind].
  intros E Ha Hb. apply (inj Some) in E as <-. pose proof (proj1 (slot_fields a s0 Ha E0)) as H0. pose proof (proj1 (slot_fields b s1 Hb E1)) as H1.
  exists s0, s1. split; [done|]. split; [done|]. set (d := splice _ _ s1).
  assert (d = write_all (replicate 320 Byte.x00) (header_writes h s0 s1)) as -> by done.
  assert (length MAGICNUMBER = 9%nat) as Hm by done. split.
  - rewrite length_write_all; [done|]. unfold fit, header_writes. apart.
  - unfold shows, header_writes. split_and!; [field 0%nat|field 1%nat|field 2%nat|field 3%nat|field 4%nat|field 5%nat|field 6%nat|field 7%nat|field 8%nat].
Qed.

(** The god byte in its three bits. *)
Lemma god_byte_bits h : primary_index h = 0 ∨ primary_index h = 1 →
  let god := b2z (z2b (god_byte h)) in
  (if Z.land god PRIMARY_BIT =? 0 then 0 else 1) = primary_index h ∧ negb (Z.land god RECOVERY_REQUIRED =? 0) = recovery_required h
  ∧ negb (Z.land god TWO_PHASE_COMMIT =? 0) = two_phase_commit h.
Proof. unfold god_byte. intros [-> | ->]; by destruct (recovery_required h), (two_phase_commit h). Qed.
Definition with_fields (g h : DatabaseHeader) (slots : list TransactionHeader) : DatabaseHeader :=
  mkHeader (primary_index g) (recovery_required g) (two_phase_commit g) (header_page_size h) (region_header_pages h)
    (region_max_data_pages h) (full_regions h) (trailing_partial_region_pages h) slots.
Lemma header_from_shows c g h s0 s1 t0 k0 t1 k1 : shows c g h s0 s1 → header_ok h → primary_index g = 0 ∨ primary_index g = 1 →
  transaction_from_bytes s0 = Some (Ok (t0, k0)) → transaction_from_bytes s1 = Some (Ok (t1, k1)) →
  header_from_bytes c = Some (Ok (with_fields g h [t0; t1],
    mkRepair false (if primary_index g =? 0 then k0 else k1) (if primary_index g =? 0 then k1 else k0))).
Proof.
  intros (Hm & Hg & H12 & H16 & H20 & H24 & H28 & H64 & H192) (_ & W1 & W2 & W3 & W4 & W5 & _) Hp E0 E1. unfold header_from_bytes.
  change (Z.of_nat (length MAGICNUMBER)) with 9. rewrite Hm. cbn [mbind option_bind]. rewrite bool_decide_eq_true_2 by done. cbn [negb].
  unfold GOD_BYTE_OFFSET, PAGE_SIZE_OFFSET, REGION_HEADER_PAGES_OFFSET, REGION_MAX_DATA_PAGES_OFFSET, NUM_FULL_REGIONS_OFFSET,
    TRAILING_REGION_DATA_PAGES_OFFSET, TRANSACTION_0_OFFSET, TRANSACTION_1_OFFSET, TRANSACTION_SIZE, get_u32, u32_at.
  rewrite (lookup_byte_range _ _ _ _ Hg). cbn [mbind option_bind fmap option_fmap option_map].
  destruct (god_byte_bits g Hp) as (-> & -> & ->).
  change (12 + 4) with 16. change (16 + 4) with 20. change (20 + 4) with 24. change (24 + 4) with 28. change (28 + 4) with 32.
  change (64 + Z.of_nat 128) with 192. change (192 + Z.of_nat 128) with 320.
  rewrite H12, H16, H20, H24, H28, H64, H192. cbn [mbind option_bind fmap option_fmap option_map]. rewrite E0, E1. cbn [mbind option_bind].
  rewrite !of_le_bytes_small by done. unfold with_fields. by destruct Hp as [-> | ->].
Qed.

(** ** Torn bytes *)
Lemma torn_range (ws xs : list bytes) (c : bytes) a b : torn ws c → 0 ≤ a → a ≤ b → b ≤ Z.of_nat (length c) →
  (∀ w, w ∈ ws → ∃ x, x ∈ xs ∧ byte_range w a b = Some x) → ∃ y, byte_range c a b = Some y ∧
    ∀ i z, y !! i = Some z → ∃ x, x ∈ xs ∧ x !! i = Some z.
Proof.
  intros [Hlen Hc] Ha Hab Hb Hws. eexists. split; [by apply byte_range_Some|]. intros i z Hi. unfold extract in Hi.
  assert (i < Z.to_nat (b - a))%nat as Hlt. { apply lookup_lt_Some in Hi. rewrite length_take in Hi. lia. }
  rewrite lookup_take_lt, lookup_drop in Hi by lia. destruct (Hc _ _ Hi) as (w & Hw & Hz). destruct (Hws w Hw) as (x & Hx & Ex).
  exists x. split; [done|]. rewrite byte_range_Some in Ex by (rewrite ?(Hlen w Hw); lia). apply (inj Some) in Ex as <-.
  unfold extract. by rewrite lookup_take_lt, lookup_drop by lia.
Qed.
Lemma torn_same (ws : list bytes) (x c : bytes) a b : torn ws c → 0 ≤ a → a ≤ b → b ≤ Z.of_nat (length c) → ws ≠ [] →
  (∀ w, w ∈ ws → byte_range w a b = Some x) → byte_range c a b = Some x.
Proof.
  intros Ht Ha Hab Hb Hne Hws. destruct (torn_range ws [x] c a b Ht Ha Hab Hb) as (y & Ey & Hy).
  { intros w Hw. exists x. split; [by left|by apply Hws]. }
  rewrite Ey. f_equal. destruct ws as [|w ws]; [done|]. pose proof (byte_range_length _ _ _ _ Ey) as L1.
  pose proof (byte_range_length _ _ _ _ (Hws w ltac:(by left))) as L2. apply list_eq_same_length with (length y); [lia|lia|].
  intros i z1 z2 Hi H1 H2. destruct (Hy i z1 H1) as (x' & ->%list_elem_of_singleton & Hx). congruence.
Qed.

(** * Opening a file after a crash *)

Lemma header_layout_of h R : layout_ok R → full_region_layout R = mkRegion (region_max_data_pages h) (region_header_pages h) (header_page_size h) →
  full_regions h = num_full_regions R →
  trailing_partial_region_pages h = (match trailing_partial_region R with Some r => num_pages r | None => 0 end) → header_layout h = Some R.
Proof.
  intros (_ & _ & Hn & _ & Ht) Ef E1 E2. rewrite Ef in Hn, Ht. cbn [num_pages header_pages page_size] in Hn, Ht. unfold header_layout.
  rewrite (region_new_Some (region_max_data_pages h)) by done. cbn [mbind option_bind]. rewrite E1, E2. destruct R as [full nf [r|]]; cbn in *.
  - destruct Ht as (Ep & Eh & Hr). rewrite (proj2 (Z.ltb_lt _ _)) by lia. rewrite region_new_Some by lia. cbn. unfold database_new. rewrite Ef. do 3 f_equal.
    symmetry. by apply region_eq.
  - unfold database_new. by rewrite Ef.
Qed.
Lemma set_layout_ok h L R : header_layout h = Some L → layout_ok R → full_region_layout R = full_region_layout L →
  ∃ h', set_layout h R = Some h' ∧ header_layout h' = Some R ∧ transaction_slots h' = transaction_slots h ∧ primary_index h' = primary_index h
    ∧ two_phase_commit h' = two_phase_commit h.
Proof.
  intros EL HR Ef. unfold set_layout. rewrite EL. cbn [mbind option_bind]. rewrite bool_decide_eq_true_2 by done. cbn [check mbind option_bind].
  unfold header_layout, region_new in EL. destruct (0 <? region_max_data_pages h); [|done]. cbn [check mbind option_bind] in EL.
  assert (full_region_layout L = mkRegion (region_max_data_pages h) (region_header_pages h) (header_page_size h)) as EfL.
  { destruct (0 <? _) in EL; cbn in EL; by injection EL as <-. }
  rewrite EfL in Ef. pose proof HR as (_ & _ & _ & _ & Ht). rewrite Ef in Ht. cbn [header_pages page_size] in Ht. unfold trailing_region_layout.
  destruct (trailing_partial_region R) as [r|] eqn:Et.
  - destruct Ht as (-> & -> & _). rewrite !Z.eqb_refl. cbn [check mbind option_bind]. eexists. split; [done|]. split; [|done].
    apply header_layout_of; [done|done|done|]. cbn. by rewrite Et.
  - cbn [mbind option_bind]. eexists. split; [done|]. split; [|done]. apply header_layout_of; [done|done|done|]. cbn. by rewrite Et.
Qed.
(** The header with another number of full regions and of trailing pages. *)
Definition relaid (h : DatabaseHeader) (f t : Z) : DatabaseHeader := h <| full_regions := f |> <| trailing_partial_region_pages := t |>.
(** The layout of the header ends within the file. *)
Definition fits (h : DatabaseHeader) (file_len : Z) : Prop := ∃ len, header_layout h ≫= database_len = Some len ∧ len ≤ file_len.
(** The length of a file: the one of some layout of its regions, within limits. *)
Definition length_ok (h : DatabaseHeader) (file_len : Z) : Prop :=
  ∃ L', layout_ok L' ∧ full_region_layout L' = mkRegion (region_max_data_pages h) (region_header_pages h) (header_page_size h)
    ∧ database_len L' = Some file_len
    ∧ header_page_size h = 2 ^ Z.log2 (header_page_size h) ∧ Z.of_nat DB_HEADER_SIZE ≤ header_page_size h
    ∧ region_max_data_pages h ≤ MAX_REGIONS ∧ region_max_data_pages h * header_page_size h ≤ 2 ^ 32
    ∧ file_len < 2 ^ 32 * ((region_header_pages h + region_max_data_pages h) * header_page_size h).
(** A header and the length of its file, at least that of its layout. *)
Definition file_ok (h : DatabaseHeader) (file_len : Z) : Prop :=
  (∃ L len, header_layout h = Some L ∧ layout_ok L ∧ database_len L = Some len ∧ len ≤ file_len) ∧ length_ok h file_len.
Lemma header_full_region h L : header_layout h = Some L →
  full_region_layout L = mkRegion (region_max_data_pages h) (region_header_pages h) (header_page_size h).
Proof.
  unfold header_layout, region_new. destruct (0 <? region_max_data_pages h); [|done]. cbn [check mbind option_bind].
  destruct (0 <? _); cbn; by intros [= <-].
Qed.
Lemma length_ok_min h file_len : length_ok h file_len → (region_header_pages h + 2) * header_page_size h ≤ file_len ∧ 640 ≤ file_len
  ∧ 0 < header_page_size h ∧ 0 ≤ region_header_pages h ∧ 0 < region_max_data_pages h.
Proof.
  intros (L' & HL' & Ef' & Elen' & _ & Hps & _). pose proof HL' as (Hp & Hh & Hn & _). rewrite Ef' in Hp, Hh, Hn. cbn [num_pages header_pages page_size] in *.
  unfold DB_HEADER_SIZE in Hps.
  destruct (layout_shape L' _ _ _ HL' Ef') as (Hl & E' & _). rewrite E' in Elen'. injection Elen' as <-.
  pose proof (layout_regions L' HL'). assert (0 ≤ (num_regions L' - 1) * ((region_header_pages h + region_max_data_pages h) * header_page_size h)) by (repeat apply Z.mul_nonneg_nonneg; lia).
  pose proof (Z.mul_le_mono_nonneg_r (region_header_pages h + 1) (region_header_pages h + last_pages L') (header_page_size h)).
  pose proof (Z.mul_le_mono_nonneg_r 1 (region_header_pages h + 1) (header_page_size h)). lia.
Qed.
Lemma file_ok_fits h file_len : file_ok h file_len → fits h file_len.
Proof. intros [(L & len & E & _ & El & Hle) _]. exists len. by rewrite E. Qed.
(** A file cut to its layout. *)
Lemma file_ok_cut h file_len : file_ok h file_len → ∃ len, header_layout h ≫= database_len = Some len ∧ file_ok h len.
Proof.
  intros [(L & len & E & HL & El & Hle) (L' & _ & Ef & _ & H1 & H2 & H3 & H4 & H5)]. exists len. rewrite E. split; [done|].
  split; [by exists L, len|]. exists L. split_and!; try done; [by apply header_full_region|lia].
Qed.
(** The first steps of an opening. *)
Lemma open_starts c h info file_len : byte_range c 0 9 = Some MAGICNUMBER → header_from_bytes c = Some (Ok (h, info)) → length_ok h file_len →
  open_header c file_len (header_page_size h) false = (
      len ← header_layout h ≫= database_len;
      check (len <=? file_len);;
      let needs_recovery := recovery_required h || negb (len =? file_len) in
      if negb needs_recovery then
        Some (Ok (h, false, []))
      else
      layout ← header_layout h;
      let full := full_region_layout layout in
      recalculated ← recalculate file_len (header_pages full) (num_pages full) (header_page_size h);
      header ← set_layout h recalculated;
      r ← pick_primary_for_repair header info;
      match r with
      | Err e => Some (Err e)
      | Ok (_, header) =>
          check (negb (invalid_magic_number info));;
          io ← write_header header;
          len ← header_layout header ≫= database_len;
          check (len =? file_len);;
          Some (Ok (header, true, io ++ [Flush]))
      end).
Proof.
  intros Em E Hlen. pose proof (length_ok_min h file_len Hlen) as (_ & H9 & _). destruct Hlen as (_ & _ & _ & _ & Hp2 & Hps & _).
  unfold open_header. rewrite bool_decide_eq_true_2 by done. cbn [check mbind option_bind]. rewrite (proj2 (Z.leb_le _ _) Hps). cbn [check mbind option_bind].
  change (Z.of_nat (length MAGICNUMBER)) with 9. rewrite (proj2 (Z.leb_le 9 file_len)) by lia. rewrite Em. cbn [mbind option_bind].
  rewrite bool_decide_eq_true_2 by done. cbn [negb]. rewrite E. cbn [mbind option_bind]. rewrite Z.eqb_refl. done.
Qed.
(** A header whose layout ends beyond the file is a panic. *)
Lemma open_panics c h info file_len : byte_range c 0 9 = Some MAGICNUMBER → header_from_bytes c = Some (Ok (h, info)) → length_ok h file_len →
  ¬ fits h file_len → open_header c file_len (header_page_size h) false = None.
Proof.
  intros Em E Hlen Hno. rewrite (open_starts c h info file_len Em E Hlen). destruct (header_layout h ≫= database_len) as [len|] eqn:El; [|done].
  cbn [mbind option_bind]. destruct (Z.leb_spec len file_len) as [Hle|]; [|done]. destruct Hno. by exists len.
Qed.
Lemma open_ok c h info file_len a b : byte_range c 0 9 = Some MAGICNUMBER → header_from_bytes c = Some (Ok (h, info)) →
  invalid_magic_number info = false → recovery_required h = true →
  length_ok h file_len → fits h file_len → transaction_slots h = [a; b] → version a = FILE_FORMAT_VERSION3 → version b = FILE_FORMAT_VERSION3 →
  (∀ h1, transaction_slots h1 = [a; b] → primary_index h1 = primary_index h → two_phase_commit h1 = two_phase_commit h →
    ∃ kept, pick_primary_for_repair h1 info = Some (Ok (kept, if kept : bool then h1 else swap_primary_slot h1))) →
  ∃ h' io, open_header c file_len (header_page_size h) false = Some (Ok (h', true, io))
    ∧ ∃ h1 kept, transaction_slots h1 = [a; b] ∧ primary_index h1 = primary_index h ∧ two_phase_commit h1 = two_phase_commit h
      ∧ pick_primary_for_repair h1 info = Some (Ok (kept, h')).
Proof.
  intros Em E Hm Hrec Hlen (len & Elen & Hle) Es Va Vb Hpick. rewrite (open_starts c h info file_len Em E Hlen). rewrite Elen. cbn [mbind option_bind].
  rewrite (proj2 (Z.leb_le _ _) Hle). cbn [check mbind option_bind]. rewrite Hrec. cbn [orb negb].
  destruct (header_layout h) as [L|] eqn:EL; [|done]. cbn [mbind option_bind]. pose proof (header_full_region h L EL) as EfL.
  destruct (length_ok_min h file_len Hlen) as (Hmin & _ & Hp & Hh & Hn). destruct Hlen as (L' & HL' & Ef' & Elen' & _ & _ & Hcap & Hsp & Hmax).
  rewrite EfL. cbn [num_pages header_pages page_size].
  destruct (recalculate_ok (region_max_data_pages h) (region_header_pages h) (header_page_size h) ltac:(lia) Hsp Hh Hp file_len Hmin Hmax)
    as (R & m & ER & HR & EfR & Erm & Hmle & Hbest).
  rewrite ER. cbn [mbind option_bind]. assert (m = file_len) as -> by (pose proof (Hbest L' file_len HL' Ef' Elen' ltac:(lia)); lia).
  destruct (set_layout_ok h L R EL HR) as (h1 & -> & EL1 & Es1 & Ep1 & E2). { by rewrite EfR, EfL. } cbn [mbind option_bind].
  destruct (Hpick h1) as (kept & Ek); [congruence|done|done|]. rewrite Ek. cbn [mbind option_bind]. rewrite Hm. cbn [negb check mbind option_bind].
  set (h2 := if kept then h1 else swap_primary_slot h1) in *.
  assert (header_layout h2 = Some R ∧ transaction_slots h2 = [a; b]) as [EL2 Es2] by (unfold h2; destruct kept; (split; [exact EL1|change (transaction_slots h1 = [a; b]); congruence])).
  destruct (slot_to_bytes_Some a Va) as [sa Ea]. destruct (slot_to_bytes_Some b Vb) as [sb Eb].
  unfold write_header, header_to_bytes. rewrite Es2. cbn [lookup list_lookup mbind option_bind]. rewrite Ea. cbn [mbind option_bind]. rewrite Eb. cbn [mbind option_bind].
  rewrite EL2. cbn [mbind option_bind]. rewrite Erm. cbn [mbind option_bind]. rewrite Z.eqb_refl. cbn [check mbind option_bind].
  eexists _, _. split; [done|]. exists h1, kept. split_and!; try done; congruence.
Qed.

Lemma pick_spec h info a b : primary_slot h = Some a → secondary_slot h = Some b →
  (primary_corrupted info = true → two_phase_commit h = false ∧ secondary_corrupted info = false) →
  let kept := two_phase_commit h || negb (primary_corrupted info) && negb ((transaction_id a <? transaction_id b) && negb (secondary_corrupted info)) in
  pick_primary_for_repair h info = Some (Ok (kept, if kept then h else swap_primary_slot h)).
Proof.
  intros Ea Eb Hc. unfold pick_primary_for_repair. destruct (primary_corrupted info).
  - destruct (Hc eq_refl) as [-> ->]. done.
  - destruct (two_phase_commit h); [done|]. rewrite Ea, Eb. cbn [mbind option_bind orb negb andb]. by destruct (_ && _).
Qed.
(** The slots, or their bytes, by the index of the one that is primary. *)
Definition slots_at {A} (p : Z) (x y : A) : list A := if p =? 0 then [x; y] else [y; x].
Lemma slots_of h P old : header_ok h → primary_slot h = Some P → secondary_slot h = Some old →
  transaction_slots h = slots_at (primary_index h) P old ∧ slot_ok P ∧ slot_ok old.
Proof.
  intros (Hp & _ & _ & _ & _ & _ & a & b & Es & Ha & Hb). unfold primary_slot, secondary_slot, slots_at. rewrite Es. by destruct Hp as [-> | ->]; intros [= ->] [= ->].
Qed.

Section crash.
(** The disk holds [hd], whose slot [P] is primary; the other one, [old], is older
    or the same (a new database).  Commits without durability may have changed the
    other slot in memory.  The slot to be committed is [new].  The checksum tells a
    slot that mixes the old bytes with the new ones from both.  No checksum covers
    the numbers of the layout. *)
Context (hd : DatabaseHeader) (P old new : TransactionHeader) (two_phase : bool) (file_len : Z).
Context (Hok : header_ok hd) (Hrec : recovery_required hd = true).
Context (HP : primary_slot hd = Some P) (Hold : secondary_slot hd = Some old) (Hage : transaction_id old < transaction_id P ∨ old = P).
Context (Hnew : slot_ok new) (Hnewer : transaction_id P < transaction_id new) (Hlen : length_ok hd file_len).
Definition torn_detected : Prop := ∀ so sn y, transaction_to_bytes old = Some so → transaction_to_bytes new = Some sn →
  torn [so; sn] y → valid_checksum y = true → y = so ∨ y = sn.
Context (Htorn : torn_detected).

(** The header after the commit. *)
Definition committed_header : DatabaseHeader := swap_primary_slot (set_secondary_slot hd new) <| two_phase_commit := two_phase |>.

Lemma slot_is t : t = old ∨ t = new → slot_ok t.
Proof. destruct (slots_of hd P old Hok HP Hold) as (_ & _ & Ho). by intros [-> | ->]. Qed.
(** What a crash leaves is opened at [P] or at [new]. *)
(** A header with the slots [P] and [t], where the checksum of [t] may be wrong. *)
Definition repair_of (g : DatabaseHeader) (k : bool) : HeaderRepairInfo :=
  if primary_index g =? primary_index hd then mkRepair false false k else mkRepair false k false.
Lemma committed_index : primary_index committed_header = Z.lxor (primary_index hd) 1.
Proof. done. Qed.
Lemma relaid_ok f u : in_width 32 f → in_width 32 u → header_ok (relaid hd f u).
Proof. intros Hf Hu. destruct Hok as (? & ? & ? & ? & _ & _ & ?). by split_and!. Qed.
Lemma view_header c g sP y t k f u : in_width 32 f → in_width 32 u → transaction_to_bytes P = Some sP → g = hd ∨ g = committed_header →
  transaction_from_bytes y = Some (Ok (t, k)) → (∀ s0 s1, slots_at (primary_index hd) sP y = [s0; s1] → shows c g (relaid hd f u) s0 s1) →
  header_from_bytes c = Some (Ok (with_fields g (relaid hd f u) (slots_at (primary_index hd) P t), repair_of g k)).
Proof.
  intros Wf Wu. pose proof (relaid_ok f u Wf Wu) as Hokn. intros EP Hg Et Hshows. destruct (slots_of hd P old Hok HP Hold) as (_ & HokP & _). pose proof (slot_codec P sP HokP EP) as EfP.
  pose proof Hok as (Hp & _). assert (primary_index g = 0 ∨ primary_index g = 1) as Hpg.
  { destruct Hg as [-> | ->]; [done|]. rewrite committed_index. by destruct Hp as [-> | ->]; [right|left]. }
  assert (primary_index g = primary_index hd ∨ primary_index g = Z.lxor (primary_index hd) 1) as Hgi by (destruct Hg as [-> | ->]; [by left|by right]).
  unfold repair_of, slots_at in *. destruct Hp as [E|E]; rewrite E in *; cbn [Z.eqb] in *.
  - rewrite (header_from_shows c g _ sP y P false t k (Hshows _ _ eq_refl) Hokn Hpg EfP Et). by destruct Hgi as [-> | ->].
  - rewrite (header_from_shows c g _ y sP t k P false (Hshows _ _ eq_refl) Hokn Hpg Et EfP). by destruct Hgi as [-> | ->].
Qed.
(** A layout that does not fit the file is a panic. *)
Lemma view_panics c g sP y t k f u : in_width 32 f → in_width 32 u → transaction_to_bytes P = Some sP → g = hd ∨ g = committed_header →
  transaction_from_bytes y = Some (Ok (t, k)) → (∀ s0 s1, slots_at (primary_index hd) sP y = [s0; s1] → shows c g (relaid hd f u) s0 s1) →
  ¬ fits (relaid hd f u) file_len → open_header c file_len (header_page_size hd) false = None.
Proof.
  intros Wf Wu EP Hg Et Hshows Hno. pose proof (view_header c g sP y t k f u Wf Wu EP Hg Et Hshows) as Ehead.
  apply (open_panics c _ _ file_len) in Ehead; [exact Ehead| |exact Hlen|exact Hno].
  unfold slots_at in Hshows. destruct (_ =? 0); by apply (Hshows _ _ eq_refl).
Qed.
(** What a crash leaves is opened at [P] or at [new] when its layout fits. *)
Lemma view_opens c g sP y t k f u : in_width 32 f → in_width 32 u → fits (relaid hd f u) file_len → transaction_to_bytes P = Some sP → g = hd ∨ g = committed_header →
  transaction_from_bytes y = Some (Ok (t, k)) → version t = FILE_FORMAT_VERSION3 → (k = false → t = old ∨ t = new) →
  (g = committed_header → two_phase = true → k = false ∧ t = new) →
  (∀ s0 s1, slots_at (primary_index hd) sP y = [s0; s1] → shows c g (relaid hd f u) s0 s1) →
  ∃ h' io, open_header c file_len (header_page_size hd) false = Some (Ok (h', true, io))
    ∧ (primary_slot h' = Some P ∨ primary_slot h' = Some new) ∧ (g = committed_header → k = false → t = new → primary_slot h' = Some new).
Proof.
  intros Wf Wu Hfit EP Hg Et Hvt Ht H2pc Hshows. pose proof (view_header c g sP y t k f u Wf Wu EP Hg Et Hshows) as Ehead.
  assert (byte_range c 0 9 = Some MAGICNUMBER) as Emagic by (unfold slots_at in Hshows; destruct (_ =? 0); by apply (Hshows _ _ eq_refl)).
  destruct (slots_of hd P old Hok HP Hold) as (_ & HokP & _). pose proof Hok as (Hp & _). pose proof HokP as (HvP & _).
  assert (∃ a b, slots_at (primary_index hd) P t = [a; b] ∧ version a = FILE_FORMAT_VERSION3 ∧ version b = FILE_FORMAT_VERSION3) as (a & b & Eab & Va & Vb).
  { unfold slots_at. destruct (_ =? 0); by eexists _, _. }
  rewrite Eab in Ehead. assert (recovery_required g = true) as Hrg by by destruct Hg as [-> | ->].
  assert (∀ h1, transaction_slots h1 = [a; b] → primary_index h1 = primary_index g →
    primary_slot h1 = Some (if primary_index g =? primary_index hd then P else t) ∧ secondary_slot h1 = Some (if primary_index g =? primary_index hd then t else P)) as Hslots.
  { intros h1 Es Ei. unfold primary_slot, secondary_slot. rewrite Es, Ei, <-Eab. unfold slots_at.
    assert (primary_index g = primary_index hd ∨ primary_index g = Z.lxor (primary_index hd) 1) as Hgi by (destruct Hg as [-> | ->]; [by left|by right]).
    destruct Hp as [E|E]; rewrite E; destruct Hgi as [F|F]; rewrite F, ?E; done. }
  assert (primary_corrupted (repair_of g k) = true → two_phase_commit g = false ∧ secondary_corrupted (repair_of g k) = false) as Hc.
  { unfold repair_of. destruct (Z.eqb_spec (primary_index g) (primary_index hd)) as [|Hne]; [done|]. cbn. intros ->. split; [|done].
    destruct Hg as [-> | ->]; [done|]. cbn. destruct two_phase; [|done]. by destruct (H2pc eq_refl eq_refl). }
  destruct (open_ok c (with_fields g (relaid hd f u) [a; b]) (repair_of g k) file_len a b Emagic Ehead) as (h' & io & Eo & h1 & kept & Es1 & Ei1 & E2 & Ek); try done.
  { unfold repair_of. by destruct (_ =? _). }
  { intros h1 Es Ei E2. destruct (Hslots h1 Es Ei) as [E1 E3]. eexists. apply (pick_spec h1 _ _ _ E1 E3). cbn in E2. by rewrite E2. }
  exists h', io. split; [exact Eo|]. destruct (Hslots h1 Es1 Ei1) as [E1 E3]. cbn in E2. rewrite (pick_spec h1 _ _ _ E1 E3) in Ek by by rewrite E2.
  injection Ek as <- <-. rewrite E2 in *. unfold repair_of in *.
  destruct (Z.eqb_spec (primary_index g) (primary_index hd)) as [Heq|Hne]; cbn [primary_corrupted secondary_corrupted negb andb] in *.
  - assert (g ≠ committed_header) as Hgn. { intros ->. rewrite committed_index in Heq. by destruct Hp as [Hp|Hp]; rewrite Hp in Heq. }
    split; [|done]. destruct (two_phase_commit g); cbn [orb]; [by left|]. destruct (Z.ltb_spec (transaction_id P) (transaction_id t)) as [Hlt|]; cbn [andb negb]; [|by left].
    destruct k; cbn [negb]; [by left|]. right. change (secondary_slot h1 = Some new). rewrite E3. f_equal.
    destruct (Ht eq_refl) as [->|]; [|done]. exfalso. destruct Hage as [?|Heqs]; [lia|]. rewrite Heqs in Hlt. lia.
  - assert (g = committed_header) as -> by (destruct Hg as [->|]; done). clear Hg.
    destruct (two_phase_commit committed_header) eqn:E2p; cbn [orb].
    + destruct (H2pc eq_refl E2p) as [-> ->]. split; [by right|done].
    + destruct k; cbn [negb andb orb].
      * split; [left; change (secondary_slot h1 = Some P); by rewrite E3|done].
      * destruct (Z.ltb_spec (transaction_id t) (transaction_id P)) as [Hlt|Hge]; cbn [negb andb orb].
        -- split; [left; change (secondary_slot h1 = Some P); by rewrite E3|]. intros _ _ ->. lia.
        -- split; [|by intros _ _ <-]. rewrite E1. destruct (Ht eq_refl) as [-> | ->]; [|by right]. left. destruct Hage as [?| ->]; [lia|done].
Qed.

(** Bytes that mix candidates, all of which hold [P] and the limits of [hd]: a god
    byte, the bytes of a slot and two numbers, each mixed from the candidates'. *)
Definition mixed (xs : list Z) (x : Z) : Prop := in_width 32 x ∧ torn (le_bytes 4 <$> xs) (le_bytes 4 x).
Lemma torn_number ws (xs : list Z) c a : torn ws c → 0 ≤ a → a + 4 ≤ Z.of_nat (length c) →
  (∀ w, w ∈ ws → ∃ x, x ∈ xs ∧ byte_range w a (a + 4) = Some (le_bytes 4 x)) →
  ∃ x, mixed xs x ∧ byte_range c a (a + 4) = Some (le_bytes 4 x).
Proof.
  intros Ht Ha Hl Hws. destruct (torn_range ws (le_bytes 4 <$> xs) c a (a + 4) Ht) as (y & Ey & Hy); [lia..| |].
  { intros w Hw. destruct (Hws w Hw) as (x & Hx & E). exists (le_bytes 4 x). split; [|done]. apply list_elem_of_fmap. by exists x. }
  pose proof (byte_range_length _ _ _ _ Ey) as Hly. assert (length y = 4%nat) as Hl4 by lia.
  assert (le_bytes 4 (of_le y) = y) as Eb by (rewrite <-Hl4; apply le_bytes_of_le).
  exists (of_le y). rewrite Eb. split; [|done]. split; [|rewrite Eb; split; [|exact Hy]].
  - pose proof (of_le_range y) as Hr. rewrite Hl4 in Hr. exact Hr.
  - intros w (x & -> & _)%list_elem_of_fmap. by rewrite length_le_bytes.
Qed.
Lemma torn_view (ws ss : list bytes) (gs : list DatabaseHeader) (ns : list (Z * Z)) (c sP : bytes) :
  torn ws c → ws ≠ [] → length sP = 128%nat → (∀ s, s ∈ ss → length s = 128%nat) →
  (∀ w, w ∈ ws → length w = 320%nat ∧ ∃ g s n, g ∈ gs ∧ s ∈ ss ∧ n ∈ ns
     ∧ ∀ s0 s1, slots_at (primary_index hd) sP s = [s0; s1] → shows w g (relaid hd n.1 n.2) s0 s1) →
  ∃ g y f u, g ∈ gs ∧ length y = 128%nat ∧ torn ss y ∧ mixed ns.*1 f ∧ mixed ns.*2 u
    ∧ ∀ s0 s1, slots_at (primary_index hd) sP y = [s0; s1] → shows c g (relaid hd f u) s0 s1.
Proof.
  intros Ht Hne HlP Hls Hws. assert (length c = 320%nat) as Hlc.
  { destruct ws as [|w ws']; [done|]. destruct (Hws w ltac:(by left)) as [Hw _]. destruct Ht as [Hl _]. rewrite <-(Hl w); [done|by left]. }
  assert (∀ w, w ∈ ws → ∃ g s n s0 s1, g ∈ gs ∧ s ∈ ss ∧ n ∈ ns ∧ slots_at (primary_index hd) sP s = [s0; s1] ∧ shows w g (relaid hd n.1 n.2) s0 s1) as Hw1.
  { intros w Hw. destruct (Hws w Hw) as (_ & g & s & n & ? & ? & ? & Hs). exists g, s, n.
    unfold slots_at in *. destruct (_ =? 0); (eexists _, _; do 4 (split; [done|]); by apply Hs). }
  assert (∀ a b x, 0 ≤ a → a ≤ b → b ≤ 320 → (∀ w g n s0 s1, shows w g (relaid hd n.1 n.2) s0 s1 → byte_range w a b = Some x) → byte_range c a b = Some x) as Hfield.
  { intros a b x ? ? ? Hx. apply (torn_same ws); try done; [lia|]. intros w Hw. destruct (Hw1 w Hw) as (g & s & n & s0 & s1 & _ & _ & _ & _ & Hs). by eapply Hx. }
  destruct (torn_range ws ((λ g, [z2b (god_byte g)]) <$> gs) c 9 10 Ht) as (y9 & Ey9 & Hy9); [lia..| |].
  { intros w Hw. destruct (Hw1 w Hw) as (g & s & n & s0 & s1 & Hg & _ & _ & _ & Hs). exists [z2b (god_byte g)]. split; [apply list_elem_of_fmap; by exists g|apply Hs]. }
  pose proof (byte_range_length _ _ _ _ Ey9) as Hl9. destruct y9 as [|b9 [|]]; cbn in Hl9; try lia.
  destruct (Hy9 0%nat b9 eq_refl) as (x9 & (g & -> & Hg)%list_elem_of_fmap & E9). injection E9 as <-.
  destruct (torn_number ws ns.*1 c 24 Ht) as (f & Hf & E24); [lia..| |].
  { intros w Hw. destruct (Hw1 w Hw) as (g' & s & n & s0 & s1 & _ & _ & Hn & _ & Hs). exists n.1. split; [apply list_elem_of_fmap; by exists n|apply Hs]. }
  destruct (torn_number ws ns.*2 c 28 Ht) as (u & Hu & E28); [lia..| |].
  { intros w Hw. destruct (Hw1 w Hw) as (g' & s & n & s0 & s1 & _ & _ & Hn & _ & Hs). exists n.2. split; [apply list_elem_of_fmap; by exists n|apply Hs]. }
  assert (∃ y, byte_range c (if primary_index hd =? 0 then 192 else 64) (if primary_index hd =? 0 then 320 else 192) = Some y
    ∧ ∀ i z, y !! i = Some z → ∃ x, x ∈ ss ∧ x !! i = Some z) as (y & Ey & Hy).
  { apply (torn_range ws ss c); [done|by destruct (_ =? 0)|by destruct (_ =? 0)|rewrite Hlc; by destruct (_ =? 0)|].
    intros w Hw. destruct (Hw1 w Hw) as (g' & s & n & s0 & s1 & _ & Hs & _ & E01 & Hsh). exists s. split; [done|].
    unfold slots_at in E01. destruct (_ =? 0); injection E01 as <- <-; apply Hsh. }
  assert (length y = 128%nat) as Hly by (apply byte_range_length in Ey; destruct (_ =? 0); lia).
  assert (byte_range c (if primary_index hd =? 0 then 64 else 192) (if primary_index hd =? 0 then 192 else 320) = Some sP) as EsP.
  { apply (torn_same ws); [done|by destruct (_ =? 0)|by destruct (_ =? 0)|rewrite Hlc; by destruct (_ =? 0)|done|].
    intros w Hw. destruct (Hw1 w Hw) as (g' & s & n & s0 & s1 & _ & _ & _ & E01 & Hsh).
    unfold slots_at in E01. destruct (_ =? 0); injection E01 as <- <-; apply Hsh. }
  exists g, y, f, u. split; [done|]. split; [done|]. split; [split; [intros s Hs; rewrite Hly; by apply Hls|done]|]. split; [done|]. split; [done|].
  intros s0 s1 E01. unfold shows. split_and!; try (apply Hfield; [lia..|]; intros w g' n s0' s1' Hsh; apply Hsh); [done|exact E24|exact E28| |].
  all: unfold slots_at in E01; destruct (_ =? 0); by injection E01 as <- <-.
Qed.
Lemma torn_opens (ws ss : list bytes) (gs : list DatabaseHeader) (ns : list (Z * Z)) (c sP so sn : bytes) :
  transaction_to_bytes P = Some sP → transaction_to_bytes old = Some so → transaction_to_bytes new = Some sn → torn ws c → ws ≠ [] →
  (∀ s, s ∈ ss → s = so ∨ s = sn) → (∀ g, g ∈ gs → g = hd ∨ g = committed_header) → (committed_header ∈ gs → two_phase = true → ss = [sn]) →
  (∀ w, w ∈ ws → length w = 320%nat ∧ ∃ g s n, g ∈ gs ∧ s ∈ ss ∧ n ∈ ns
     ∧ ∀ s0 s1, slots_at (primary_index hd) sP s = [s0; s1] → shows w g (relaid hd n.1 n.2) s0 s1) →
  ∃ f u, get_u32 c NUM_FULL_REGIONS_OFFSET = Some f ∧ get_u32 c TRAILING_REGION_DATA_PAGES_OFFSET = Some u ∧ mixed ns.*1 f ∧ mixed ns.*2 u
    ∧ (¬ fits (relaid hd f u) file_len → open_header c file_len (header_page_size hd) false = None)
    ∧ (fits (relaid hd f u) file_len →
       ∃ h' io, open_header c file_len (header_page_size hd) false = Some (Ok (h', true, io))
         ∧ (primary_slot h' = Some P ∨ primary_slot h' = Some new) ∧ (gs = [committed_header] → ss = [sn] → primary_slot h' = Some new)).
Proof.
  intros EP Eo En Ht Hne Hss Hgs H2pc Hws. destruct (slots_of hd P old Hok HP Hold) as (_ & HokP & Hoko).
  destruct (slot_fields P sP HokP EP) as (HlP & _). destruct (slot_fields old so Hoko Eo) as (Hlo & Ho3 & _). destruct (slot_fields new sn Hnew En) as (Hln & Hn3 & _).
  destruct (torn_view ws ss gs ns c sP Ht Hne HlP) as (g & y & f & u & Hg & Hly & Hty & Hf & Hu & Hsh); [|done|].
  { intros s Hs. by destruct (Hss s Hs) as [-> | ->]. }
  assert (y !! 0%nat = Some (z2b 3)) as Hy3.
  { destruct (lookup_lt_is_Some_2 y 0) as [x Ex]; [lia|]. rewrite Ex. destruct Hty as [_ Hy]. destruct (Hy _ _ Ex) as (s & Hs & E).
    destruct (Hss s Hs) as [-> | ->]; congruence. }
  destruct (slot_from_any y Hly Hy3) as (t & Et & Hvt).
  assert (ss = [sn] → y = sn) as Hone.
  { intros ->. destruct Hty as [_ Hy]. apply list_eq_same_length with 128%nat; [done|done|]. intros i z1 z2 _ H1 H2.
    destruct (Hy i z1 H1) as (x & ->%list_elem_of_singleton & E). congruence. }
  assert (y = sn → t = new ∧ negb (valid_checksum y) = false) as Hsn.
  { intros ->. pose proof (slot_codec new sn Hnew En) as E. rewrite Et in E. injection E as <- <-. done. }
  exists f, u. assert (byte_range c 24 28 = Some (le_bytes 4 f) ∧ byte_range c 28 32 = Some (le_bytes 4 u)) as [E24 E28].
  { unfold slots_at in Hsh. destruct (_ =? 0); split; by apply (Hsh _ _ eq_refl). }
  pose proof Hf as [Wf _]. pose proof Hu as [Wu _]. unfold get_u32, u32_at, NUM_FULL_REGIONS_OFFSET, TRAILING_REGION_DATA_PAGES_OFFSET.
  change (24 + 4) with 28. change (28 + 4) with 32. rewrite E24, E28. cbn [fmap option_fmap option_map]. rewrite !of_le_bytes_small by done.
  split_and!; try done; [by apply (view_panics c g sP y t (negb (valid_checksum y)) f u Wf Wu EP (Hgs g Hg) Et)|intros Hfit].
  destruct (view_opens c g sP y t (negb (valid_checksum y)) f u Wf Wu Hfit EP (Hgs g Hg) Et Hvt) as (h' & io & E & Hpn & Hfin).
  - rewrite negb_false_iff. intros Hv. destruct (Htorn so sn y Eo En) as [-> | ->]; [|done| |].
    + destruct Hty as [_ Hy]. split; [intros w [-> | ->%list_elem_of_singleton]%elem_of_cons; lia|].
      intros i z Hz. destruct (Hy i z Hz) as (x & Hx & Ex). exists x. split; [|done]. destruct (Hss x Hx) as [-> | ->]; [by left|right; by left].
    + left. pose proof (slot_codec old so Hoko Eo) as E'. rewrite Et in E'. by injection E' as <- _.
    + right. by destruct (Hsn eq_refl).
  - intros -> H2. destruct (Hsn (Hone (H2pc Hg H2))) as [-> ->]. done.
  - done.
  - exists h', io. split_and!; [done..|]. intros Egs Ess. destruct (Hsn (Hone Ess)) as [-> Hk]. apply Hfin; [|done|done].
    rewrite Egs in Hg. by apply list_elem_of_singleton in Hg.
Qed.
Lemma written_shows h x (sP sx : bytes) : transaction_slots h = slots_at (primary_index hd) P x → slot_ok x →
  transaction_to_bytes P = Some sP → transaction_to_bytes x = Some sx →
  ∃ d, header_to_bytes h true = Some d ∧ length d = 320%nat ∧ ∀ s0 s1, slots_at (primary_index hd) sP sx = [s0; s1] → shows d h h s0 s1.
Proof.
  intros Es Hx EP Ex. destruct (slots_of hd P old Hok HP Hold) as (_ & HokP & _). unfold slots_at in *.
  assert (is_Some (header_to_bytes h true)) as [d Ed].
  { unfold header_to_bytes. rewrite Es. destruct (_ =? 0); cbn [lookup list_lookup mbind option_bind]; by rewrite EP, ?Ex; cbn [mbind option_bind]; rewrite ?EP, ?Ex. }
  exists d. split; [done|]. destruct (primary_index hd =? 0).
  - destruct (header_to_bytes_shows h d P x Es Ed HokP Hx) as (s0 & s1 & E0 & E1 & Hl & Hsh). split; [done|]. intros ? ? [= <- <-]. congruence.
  - destruct (header_to_bytes_shows h d x P Es Ed Hx HokP) as (s0 & s1 & E0 & E1 & Hl & Hsh). split; [done|]. intros ? ? [= <- <-]. congruence.
Qed.
End crash.

Lemma mixed_one x y : in_width 32 x → mixed [x] y → y = x.
Proof.
  intros Hx [Hy [_ Ht]]. rewrite <-(of_le_bytes_small 4 y), <-(of_le_bytes_small 4 x) by done. f_equal.
  apply list_eq_same_length with 4%nat; [by rewrite length_le_bytes..|]. intros i z1 z2 _ H1 H2.
  destruct (Ht i z1 H1) as (w & ->%list_elem_of_singleton & E). congruence.
Qed.
Lemma mixed_more xs ys x : xs ⊆ ys → mixed xs x → mixed ys x.
Proof.
  intros Hs [Hx [_ Ht]]. split; [done|]. split; [intros w (v & -> & _)%list_elem_of_fmap; by rewrite !length_le_bytes|].
  intros i z Hi. destruct (Ht i z Hi) as (w & (v & -> & Hv)%list_elem_of_fmap & E). exists (le_bytes 4 v). split; [|done].
  apply list_elem_of_fmap. exists v. split; [done|by apply Hs].
Qed.
(** Of two headers on their way, a crash can leave the first with one number of the
    other. *)
Lemma torn_layout d0 d1 g0 g1 h0 h1 s0 s1 s0' s1' : length d0 = 320%nat → length d1 = 320%nat →
  in_width 32 (full_regions h1) → in_width 32 (trailing_partial_region_pages h0) →
  shows d0 g0 h0 s0 s1 → shows d1 g1 h1 s0' s1' →
  ∃ c, torn [d0; d1] c ∧ get_u32 c NUM_FULL_REGIONS_OFFSET = Some (full_regions h1)
    ∧ get_u32 c TRAILING_REGION_DATA_PAGES_OFFSET = Some (trailing_partial_region_pages h0).
Proof.
  intros L0 L1 W1 W0 (_ & _ & _ & _ & _ & _ & H28 & _) (_ & _ & _ & _ & _ & H24 & _).
  set (x := le_bytes 4 (full_regions h1)) in *. assert (length x = 4%nat) as Lx by apply length_le_bytes.
  assert (length (splice d0 24 x) = 320%nat) as Lc by (rewrite length_splice; lia).
  exists (splice d0 24 x). unfold get_u32, u32_at, NUM_FULL_REGIONS_OFFSET, TRAILING_REGION_DATA_PAGES_OFFSET. split; [split|split].
  - intros w [-> | ->%list_elem_of_singleton]%elem_of_cons; lia.
  - intros i z Hi. destruct (decide (24 ≤ i < 28)%nat) as [Hin|Hout].
    + exists d1. split; [right; by left|]. rewrite <-Hi. rewrite byte_range_Some in H24 by lia. injection H24 as E.
      transitivity (extract d1 24 4 !! (i - 24)%nat).
      * rewrite lookup_extract, decide_True by lia. f_equal. lia.
      * assert (extract (splice d0 24 x) 24 4 = x) as Ec by (change 4 with (Z.of_nat 4); rewrite <-Lx; apply extract_splice_same; lia).
        change (28 - 24) with 4 in E. rewrite E. transitivity (extract (splice d0 24 x) 24 4 !! (i - 24)%nat); [by rewrite Ec|].
        rewrite lookup_extract, decide_True by lia. f_equal. lia.
    + exists d0. split; [by left|]. rewrite <-Hi. symmetry. rewrite lookup_splice, decide_True by lia. done.
  - rewrite byte_range_splice by lia. cbn [fmap option_fmap option_map]. unfold x. by rewrite of_le_bytes_small.
  - rewrite byte_range_splice_out by lia. change (28 + 4) with 32. rewrite H28. cbn [fmap option_fmap option_map]. by rewrite of_le_bytes_small.
Qed.

(** What a crash leaves of a commit: two numbers for the layout, each mixed from those
    of the layout on the disk and of the layout in memory.  [flushed]: the last flush
    has returned. *)
Definition left_by_crash (hd : DatabaseHeader) (P new : TransactionHeader) (fr tr : Z) (flushed : Prop) (c : bytes) (len : Z) : Prop :=
  ∃ f t, get_u32 c NUM_FULL_REGIONS_OFFSET = Some f ∧ get_u32 c TRAILING_REGION_DATA_PAGES_OFFSET = Some t
    ∧ mixed [full_regions hd; fr] f ∧ mixed [trailing_partial_region_pages hd; tr] t
    ∧ (flushed ∨ fr = full_regions hd ∧ tr = trailing_partial_region_pages hd → f = fr ∧ t = tr)
    ∧ (f = full_regions hd ∧ t = trailing_partial_region_pages hd ∨ f = fr ∧ t = tr → fits (relaid hd f t) len)
    ∧ (fits (relaid hd f t) len →
        ∃ h io, open_header c len (header_page_size hd) false = Some (Ok (h, true, io))
          ∧ (primary_slot h = Some P ∨ primary_slot h = Some new) ∧ (flushed → primary_slot h = Some new))
    ∧ (¬ fits (relaid hd f t) len → open_header c len (header_page_size hd) false = None).
Lemma relaid_same h : relaid h (full_regions h) (trailing_partial_region_pages h) = h.
Proof. by destruct h. Qed.
Lemma torn_leaves hd P old new two_phase fr tr file_len cut len flushed c sP so sn ws ss gs ns :
  let o := (full_regions hd, trailing_partial_region_pages hd) in let n := (fr, tr) in let g2 := committed_header hd new two_phase in
  header_ok hd → recovery_required hd = true → primary_slot hd = Some P → secondary_slot hd = Some old →
  (transaction_id old < transaction_id P ∨ old = P) → slot_ok new → transaction_id P < transaction_id new →
  in_width 32 fr → in_width 32 tr → file_ok hd file_len → file_ok (relaid hd fr tr) file_len → file_ok (relaid hd fr tr) cut → torn_detected old new →
  transaction_to_bytes P = Some sP → transaction_to_bytes old = Some so → transaction_to_bytes new = Some sn →
  torn ws c → ws ≠ [] → (∀ x, x ∈ ss → x = so ∨ x = sn) → (∀ g, g ∈ gs → g = hd ∨ g = g2) → (g2 ∈ gs → two_phase = true → ss = [sn]) →
  (∀ w, w ∈ ws → length w = 320%nat ∧ ∃ g s n, g ∈ gs ∧ s ∈ ss ∧ n ∈ ns
     ∧ ∀ s0 s1, slots_at (primary_index hd) sP s = [s0; s1] → shows w g (relaid hd n.1 n.2) s0 s1) →
  (flushed → gs = [g2] ∧ ss = [sn] ∧ ns = [n]) → (ns = [o] ∨ ns = [o; n] ∨ ns = [n]) → (len = file_len ∨ ns = [n] ∧ len = cut) →
  left_by_crash hd P new fr tr flushed c len.
Proof.
  intros o n g2 Hok Hrec HP Hold Hage Hnew Hnewer Wf Wt Hfile Hlaid Hcut Htorn EP Eo En Ht Hne Hss Hgs H2pc Hws Hfin Hns Hlen.
  assert (length_ok hd len) as Hlo by (destruct Hlen as [-> |[_ ->]]; [apply Hfile|apply Hcut]).
  assert (in_width 32 (full_regions hd) ∧ in_width 32 (trailing_partial_region_pages hd)) as [Wf0 Wt0] by (destruct Hok as (_ & _ & _ & _ & ? & ? & _); done).
  destruct (torn_opens hd P old new two_phase len Hok Hrec HP Hold Hage Hnew Hnewer Hlo Htorn ws ss gs ns c sP so sn EP Eo En Ht Hne Hss Hgs H2pc Hws)
    as (f & u & Ef & Eu & Hf & Hu & Hno & Hyes).
  assert (ns = [n] → f = fr ∧ u = tr) as Hone by (intros ->; split; by apply mixed_one).
  assert (ns.*1 ⊆ [full_regions hd; fr] ∧ ns.*2 ⊆ [trailing_partial_region_pages hd; tr]) as [Hs1 Hs2].
  { destruct Hns as [-> |[-> | ->]]; split; intros x; cbn; rewrite !elem_of_cons; tauto. }
  pose proof (mixed_more _ _ _ Hs1 Hf) as Mf. pose proof (mixed_more _ _ _ Hs2 Hu) as Mu.
  exists f, u. split; [done|]. split; [done|]. split; [done|]. split; [done|]. split; [|split; [|split; [|done]]].
  - intros [Hfl|[-> ->]]; [apply Hone; by apply Hfin|]. split; (apply mixed_one; [done|]); (eapply mixed_more; [|done]); intros x; rewrite !elem_of_cons; tauto.
  - assert (fits (relaid hd fr tr) len) as Hfn by (apply file_ok_fits; by destruct Hlen as [-> |[_ ->]]).
    destruct Hlen as [-> |[En1 _]]; [|destruct (Hone En1) as [-> ->]; done].
    intros [[-> ->]|[-> ->]]; [|done]. rewrite relaid_same. by apply file_ok_fits.
  - intros Hfit. destruct (Hyes Hfit) as (h & io & E & Hp & Hlast). exists h, io. split; [done|]. split; [done|]. intros Hfl. apply Hlast; by apply Hfin.
Qed.

(** The candidates of a crash, one by one. *)
Ltac one_of H := repeat (apply elem_of_cons in H as [H|H]); try (apply elem_of_nil in H; contradiction).
Ltac candidates :=
  [> done | intros ? Hin; one_of Hin; subst; tauto | intros ? Hin; one_of Hin; subst; tauto | intros Hin; one_of Hin; (congruence || done)
   | intros ? Hin; one_of Hin; subst; rewrite !elem_of_cons; tauto
   | intros Hno; first [done | exfalso; apply Hno; rewrite !elem_of_cons; tauto]
   | tauto
   | repeat match goal with H : (_ : Z) ∈ _ |- _ => one_of H end; tauto ].
(** C26: a commit is atomic across crashes, as far as its layout is.  The disk holds a
    header whose primary slot is [P]; in memory commits without durability may have
    changed the other slot ([s]), and the file may have grown or is to be cut, so
    that the layout to be written is that of [fr] full regions and [tr] trailing
    pages.  Whether in one or two phases, and wherever the process stops, any mixture
    of the bytes on their way holds two numbers [f] and [t] for the layout, mixed from
    the old and the new.  If the layout they make ends within the file, the file is
    opened again, without a panic or an error, at [P] or at the new slot; once the
    last flush has returned it is the new one.  The old and the new layout always end
    within the file, hence it opens whenever the commit does not change the layout,
    and after the last flush.  But no checksum covers the two numbers: if a mixture
    of them ends beyond the file, the opening is a panic; and the mixture of the new
    full regions with the old trailing pages does occur.  This takes that the
    checksum tells a slot that mixes old and new bytes from both, that the file has
    the length of a layout, and that transaction numbers grow. *)
Theorem commit_crash_safe hd P old s fr tr shrunk data_root sys_root id two_phase file_len :
  let new := mkSlot FILE_FORMAT_VERSION3 data_root sys_root id in
  let laid := relaid hd fr tr in
  header_ok hd → recovery_required hd = true → primary_slot hd = Some P → secondary_slot hd = Some old →
  (transaction_id old < transaction_id P ∨ old = P) → slot_ok s → slot_ok new → transaction_id P < id →
  in_width 32 fr → in_width 32 tr → file_ok hd file_len → file_ok laid file_len → torn_detected old new →
  ∃ d0 h' ios, header_to_bytes hd true = Some d0
    ∧ commit_header (set_secondary_slot laid s) shrunk data_root sys_root id two_phase = Some (h', ios)
    ∧ primary_slot h' = Some new ∧ header_layout h' = header_layout laid
    ∧ (∀ ios1 ios2 c len, ios = ios1 ++ ios2 → crashes_to (disk_run (mkDisk d0 [] file_len []) ios1) c len →
        left_by_crash hd P new fr tr (Flush ∉ ios2) c len)
    ∧ ∃ io rest c, ios = io :: rest ∧ crashes_to (disk_run (mkDisk d0 [] file_len []) [io]) c file_len
        ∧ get_u32 c NUM_FULL_REGIONS_OFFSET = Some fr
        ∧ get_u32 c TRAILING_REGION_DATA_PAGES_OFFSET = Some (trailing_partial_region_pages hd).
Proof.
  intros new laid Hok Hrec HP Hold Hage Hs Hnew Hnewer Wf Wt Hfile Hlaid Htorn. destruct (slots_of hd P old Hok HP Hold) as (Es & HokP & Hoko).
  destruct (slot_to_bytes_Some P (proj1 HokP)) as [sP EP]. destruct (slot_to_bytes_Some old (proj1 Hoko)) as [so Eo]. destruct (slot_to_bytes_Some new eq_refl) as [sn En].
  set (h1 := set_secondary_slot laid new). set (h2 := swap_primary_slot h1 <| two_phase_commit := two_phase |>).
  set (g2 := committed_header hd new two_phase). destruct (file_ok_cut laid file_len Hlaid) as (cut & Ecut & Hcut).
  assert (transaction_slots h1 = slots_at (primary_index hd) P new) as Es1.
  { unfold h1, set_secondary_slot. cbn. rewrite Es. unfold slots_at. by destruct (proj1 Hok) as [-> | ->]. }
  destruct (written_shows hd P old Hok HP Hold hd old sP so Es Hoko EP Eo) as (d0 & E0 & L0 & S0).
  destruct (written_shows hd P old Hok HP Hold h1 new sP sn Es1 Hnew EP En) as (d1 & E1 & L1 & S1).
  destruct (written_shows hd P old Hok HP Hold h2 new sP sn Es1 Hnew EP En) as (d2 & E2 & L2 & S2).
  set (resize := if shrunk then [Resize cut] else []).
  exists d0, h2, ([WriteHeader d1] ++ (if two_phase then [Flush] else []) ++ [WriteHeader d2] ++ [Flush] ++ resize). split; [done|].
  assert (set_secondary_slot (set_secondary_slot laid s) new = h1) as Eh1.
  { unfold h1, set_secondary_slot. cbn. by rewrite list_insert_insert_eq. }
  split; [|split; [|split; [done|split]]].
  - unfold commit_header. assert (secondary_slot (set_secondary_slot laid s) = Some s) as ->.
    { unfold secondary_slot, set_secondary_slot. cbn. rewrite Es. unfold slots_at. by destruct (proj1 Hok) as [-> | ->]. }
    cbn [mbind option_bind]. destruct Hs as (-> & _). fold new. rewrite Eh1. unfold write_header. rewrite E1. cbn [mbind option_bind].
    fold h2. rewrite E2. cbn [mbind option_bind]. change (header_layout h2) with (header_layout laid). rewrite Ecut. unfold resize. by destruct shrunk.
  - unfold primary_slot. assert (transaction_slots h2 = transaction_slots h1) as -> by done.
    assert (primary_index h2 = Z.lxor (primary_index hd) 1) as -> by done. rewrite Es1. unfold slots_at. by destruct (proj1 Hok) as [-> | ->].
  - intros ios1 ios2 c len Eios [Hc Hlen]. set (o := (full_regions hd, trailing_partial_region_pages hd)). set (n := (fr, tr)).
    assert (∀ ws ss gs ns, torn ws c → ws ≠ [] → (∀ x, x ∈ ss → x = so ∨ x = sn) → (∀ g, g ∈ gs → g = hd ∨ g = g2) → (g2 ∈ gs → two_phase = true → ss = [sn]) →
      (∀ w, w ∈ ws → w = d0 ∧ hd ∈ gs ∧ so ∈ ss ∧ o ∈ ns ∨ w = d1 ∧ hd ∈ gs ∧ sn ∈ ss ∧ n ∈ ns ∨ w = d2 ∧ g2 ∈ gs ∧ sn ∈ ss ∧ n ∈ ns) →
      (Flush ∉ ios2 → gs = [g2] ∧ ss = [sn] ∧ ns = [n]) → (ns = [o] ∨ ns = [o; n] ∨ ns = [n]) → (len = file_len ∨ ns = [n] ∧ len = cut) →
      left_by_crash hd P new fr tr (Flush ∉ ios2) c len) as Hcase.
    { intros ws ss gs ns Ht Hne Hss Hgs H2pc Hws Hfin Hns Hl.
      apply (torn_leaves hd P old new two_phase fr tr file_len cut len (Flush ∉ ios2) c sP so sn ws ss gs ns); try done.
      intros w Hw. destruct (Hws w Hw) as [(-> & Hg & Hx & Hy)|[(-> & Hg & Hx & Hy)|(-> & Hg & Hx & Hy)]]; (split; [done|]);
        eexists _, _, _; (split; [exact Hg|split; [exact Hx|split; [exact Hy|]]]).
      + unfold o. cbn [fst snd]. rewrite relaid_same. exact S0.
      + exact S1.
      + exact S2. }
    assert (g2 ≠ hd) as Hne2 by (intros E; apply (f_equal primary_index) in E; unfold g2 in E; rewrite committed_index in E; by destruct (proj1 Hok) as [Ep|Ep]; rewrite Ep in E).
    unfold resize in Eios. destruct two_phase, shrunk; cbn [app] in Eios.
    + destruct ios1 as [|? [|? [|? [|? [|? [|? ?]]]]]]; cbn [app] in Eios; simplify_eq Eios; intros; subst; cbn in Hc, Hlen.
      * apply (Hcase [d0] [so] [hd] [o] Hc); candidates.
      * apply (Hcase [d0; d1] [so; sn] [hd] [o; n] Hc); candidates.
      * apply (Hcase [d1] [sn] [hd] [n] Hc); candidates.
      * apply (Hcase [d1; d2] [sn] [hd; g2] [n] Hc); candidates.
      * apply (Hcase [d2] [sn] [g2] [n] Hc); candidates.
      * apply (Hcase [d2] [sn] [g2] [n] Hc); candidates.
    + destruct ios1 as [|? [|? [|? [|? [|? ?]]]]]; cbn [app] in Eios; simplify_eq Eios; intros; subst; cbn in Hc, Hlen.
      * apply (Hcase [d0] [so] [hd] [o] Hc); candidates.
      * apply (Hcase [d0; d1] [so; sn] [hd] [o; n] Hc); candidates.
      * apply (Hcase [d1] [sn] [hd] [n] Hc); candidates.
      * apply (Hcase [d1; d2] [sn] [hd; g2] [n] Hc); candidates.
      * apply (Hcase [d2] [sn] [g2] [n] Hc); candidates.
    + destruct ios1 as [|? [|? [|? [|? [|? ?]]]]]; cbn [app] in Eios; simplify_eq Eios; intros; subst; cbn in Hc, Hlen.
      * apply (Hcase [d0] [so] [hd] [o] Hc); candidates.
      * apply (Hcase [d0; d1] [so; sn] [hd] [o; n] Hc); candidates.
      * apply (Hcase [d0; d1; d2] [so; sn] [hd; g2] [o; n] Hc); candidates.
      * apply (Hcase [d2] [sn] [g2] [n] Hc); candidates.
      * apply (Hcase [d2] [sn] [g2] [n] Hc); candidates.
    + destruct ios1 as [|? [|? [|? [|? ?]]]]; cbn [app] in Eios; simplify_eq Eios; intros; subst; cbn in Hc, Hlen.
      * apply (Hcase [d0] [so] [hd] [o] Hc); candidates.
      * apply (Hcase [d0; d1] [so; sn] [hd] [o; n] Hc); candidates.
      * apply (Hcase [d0; d1; d2] [so; sn] [hd; g2] [o; n] Hc); candidates.
      * apply (Hcase [d2] [sn] [g2] [n] Hc); candidates.
  - assert (∃ s0 s1 s0' s1', shows d0 hd hd s0 s1 ∧ shows d1 h1 h1 s0' s1') as (s0 & s1 & s0' & s1' & Sh0 & Sh1).
    { unfold slots_at in S0, S1. destruct (_ =? 0); eexists _, _, _, _; (split; [by apply S0|by apply S1]). }
    destruct (torn_layout d0 d1 hd h1 hd h1 s0 s1 s0' s1' L0 L1 Wf (proj1 (proj2 (proj2 (proj2 (proj2 (proj2 Hok)))))) Sh0 Sh1) as (c & Hc & E24 & E28).
    eexists _, _, c. split; [reflexivity|]. split; [split; [exact Hc|by left]|]. by split.
Qed.

Lemma slot_from_bytes_version v : length v = 128%nat → ∃ r, transaction_from_bytes v = Some r
  ∧ (is_ok r = true ↔ v !! 0%nat = Some (z2b 3)) ∧ ∀ t k, r = Ok (t, k) → k = negb (valid_checksum v).
Proof.
  intros Hl. destruct (lookup_lt_is_Some_2 v 0) as [x Ex]; [lia|]. destruct (decide (x = z2b 3)) as [->|Hne].
  - destruct (slot_from_any v Hl Ex) as (t & E & _). eexists. split; [exact E|]. rewrite Ex. split; [done|]. by intros ? ? [= _ <-].
  - assert (b2z x ≠ 3) as Hb by (intros E; apply Hne; by rewrite <-(z2b_b2z x), E).
    unfold transaction_from_bytes, VERSION_OFFSET. change (Z.to_nat 0) with 0%nat. rewrite Ex. cbn [fmap option_fmap option_map mbind option_bind].
    destruct (_ || _); [eexists; split; [done|]; split; [split; [done|congruence]|done]|]. unfold FILE_FORMAT_VERSION3. rewrite (proj2 (Z.eqb_neq _ _) Hb). cbn [negb].
    eexists. split; [done|]. split; [split; [done|congruence]|done].
Qed.
(** The bytes of slot [i] of a header. *)
Definition slot_bytes (c : bytes) (i : Z) : bytes := extract c (TRANSACTION_0_OFFSET + i * Z.of_nat TRANSACTION_SIZE) (Z.of_nat TRANSACTION_SIZE).
(** What a header read from the bytes [c] must be: its flags are the bits of the god
    byte, its numbers lie at their places, its slots are those read from their bytes;
    a slot is reported corrupt exactly if the checksum at its end is not that of the
    bytes before, and the magic number invalid exactly if it is another one. *)
Definition read_from (c : bytes) (h : DatabaseHeader) (info : HeaderRepairInfo) : Prop :=
  (∃ god, c !! Z.to_nat GOD_BYTE_OFFSET = Some god ∧ primary_index h = b2z god `mod` 2
     ∧ recovery_required h = Z.testbit (b2z god) 1 ∧ two_phase_commit h = Z.testbit (b2z god) 2)
  ∧ header_page_size h = of_le (extract c PAGE_SIZE_OFFSET 4) ∧ region_header_pages h = of_le (extract c REGION_HEADER_PAGES_OFFSET 4)
  ∧ region_max_data_pages h = of_le (extract c REGION_MAX_DATA_PAGES_OFFSET 4) ∧ full_regions h = of_le (extract c NUM_FULL_REGIONS_OFFSET 4)
  ∧ trailing_partial_region_pages h = of_le (extract c TRAILING_REGION_DATA_PAGES_OFFSET 4)
  ∧ (∃ t0 t1, transaction_slots h = [t0; t1] ∧ (∃ k, transaction_from_bytes (slot_bytes c 0) = Some (Ok (t0, k)))
       ∧ ∃ k, transaction_from_bytes (slot_bytes c 1) = Some (Ok (t1, k)))
  ∧ (invalid_magic_number info = true ↔ take 9 c ≠ MAGICNUMBER)
  ∧ primary_corrupted info = negb (valid_checksum (slot_bytes c (primary_index h)))
  ∧ secondary_corrupted info = negb (valid_checksum (slot_bytes c (1 - primary_index h))).
Lemma god_bits (god : Byte.byte) :
  (if Z.land (b2z god) PRIMARY_BIT =? 0 then 0 else 1) = b2z god `mod` 2
  ∧ negb (Z.land (b2z god) RECOVERY_REQUIRED =? 0) = Z.testbit (b2z god) 1
  ∧ negb (Z.land (b2z god) TWO_PHASE_COMMIT =? 0) = Z.testbit (b2z god) 2.
Proof. by destruct god. Qed.
(** C31: the header survives its storage.  What is written is read back, its two slots
    with valid checksums.  Any 320 bytes are read without a panic, as a header exactly
    if both slots have the version of the format; and what is read is what the bytes
    hold, field by field: a slot is reported corrupt exactly if its checksum is not
    that of its bytes. *)
Theorem header_codec :
  (∀ h, header_ok h → ∃ d, header_to_bytes h true = Some d ∧ length d = DB_HEADER_SIZE
    ∧ header_from_bytes d = Some (Ok (h, mkRepair false false false)))
  ∧ (∀ c, length c = DB_HEADER_SIZE → ∃ r, header_from_bytes c = Some r
    ∧ (is_ok r = true ↔ c !! Z.to_nat TRANSACTION_0_OFFSET = Some (z2b FILE_FORMAT_VERSION3)
        ∧ c !! Z.to_nat TRANSACTION_1_OFFSET = Some (z2b FILE_FORMAT_VERSION3))
    ∧ ∀ h info, r = Ok (h, info) → read_from c h info).
Proof.
  split.
  - intros h Hh. pose proof Hh as (Hp & _ & _ & _ & _ & _ & a & b & Es & Ha & Hb).
    destruct (slot_to_bytes_Some a (proj1 Ha)) as [sa Ea]. destruct (slot_to_bytes_Some b (proj1 Hb)) as [sb Eb].
    assert (is_Some (header_to_bytes h true)) as [d Ed].
    { unfold header_to_bytes. rewrite Es. cbn [lookup list_lookup mbind option_bind]. rewrite Ea. cbn [mbind option_bind]. by rewrite Eb. }
    destruct (header_to_bytes_shows h d a b Es Ed Ha Hb) as (s0 & s1 & E0 & E1 & Hl & Hsh). exists d. split; [done|]. split; [done|].
    rewrite (header_from_shows d h h s0 s1 a false b false Hsh Hh Hp (slot_codec a s0 Ha E0) (slot_codec b s1 Hb E1)).
    unfold with_fields. rewrite <-Es. destruct h. by destruct (_ =? 0).
  - intros c Hl. unfold DB_HEADER_SIZE in Hl. unfold header_from_bytes, get_u32, u32_at. change (Z.of_nat (length MAGICNUMBER)) with 9.
    unfold GOD_BYTE_OFFSET, PAGE_SIZE_OFFSET, REGION_HEADER_PAGES_OFFSET, REGION_MAX_DATA_PAGES_OFFSET, NUM_FULL_REGIONS_OFFSET,
      TRAILING_REGION_DATA_PAGES_OFFSET, TRANSACTION_0_OFFSET, TRANSACTION_1_OFFSET, TRANSACTION_SIZE, FILE_FORMAT_VERSION3.
    destruct (lookup_lt_is_Some_2 c (Z.to_nat 9)) as [g Eg]; [lia|]. rewrite !byte_range_Some by lia. rewrite Eg. cbn [fmap option_fmap option_map mbind option_bind].
    change (64 + Z.of_nat 128 - 64) with 128. change (192 + Z.of_nat 128 - 192) with 128. change (extract c 64 128) with (slot_bytes c 0). change (extract c 192 128) with (slot_bytes c 1).
    set (v0 := slot_bytes c 0). set (v1 := slot_bytes c 1).
    assert (length v0 = 128%nat ∧ length v1 = 128%nat) as [L0 L1] by (split; apply Nat2Z.inj; unfold v0, v1, slot_bytes, TRANSACTION_0_OFFSET, TRANSACTION_SIZE; rewrite length_extract; lia).
    assert (v0 !! 0%nat = c !! 64%nat ∧ v1 !! 0%nat = c !! 192%nat) as [F0 F1].
    { unfold v0, v1, slot_bytes, extract. rewrite !lookup_take_lt, !lookup_drop by (unfold TRANSACTION_SIZE; lia). done. }
    destruct (slot_from_bytes_version v0 L0) as (r0 & E0 & V0 & K0). destruct (slot_from_bytes_version v1 L1) as (r1 & E1 & V1 & K1).
    rewrite F0 in V0. rewrite F1 in V1. change (Z.to_nat 64) with 64%nat. change (Z.to_nat 192) with 192%nat. rewrite E0. cbn [mbind option_bind].
    destruct r0 as [[t0 k0]|e0]; [|eexists; split; [done|]; split; [rewrite <-V0; cbn; naive_solver|done]]. rewrite E1. cbn [mbind option_bind].
    destruct r1 as [[t1 k1]|e1]; [|eexists; split; [done|]; split; [rewrite <-V1; cbn; naive_solver|done]].
    destruct (god_bits g) as (B0 & B1 & B2). set (p := if Z.land (b2z g) PRIMARY_BIT =? 0 then 0 else 1) in *.
    destruct (if p =? 0 then (k0, k1) else (k1, k0)) as [pc sc] eqn:Ek. eexists. split; [done|]. split; [rewrite <-V0, <-V1; done|].
    intros h info [= <- <-]. unfold read_from. cbn. split; [exists g; split_and!; [exact Eg|exact B0|exact B1|exact B2]|]. do 5 (split; [done|]). split; [|split].
    + exists t0, t1. split; [done|]. split; [by exists k0|by exists k1].
    + rewrite negb_true_iff, bool_decide_eq_false. done.
    + rewrite (K0 t0 k0 eq_refl), (K1 t1 k1 eq_refl) in Ek. unfold p in *. clear B0. destruct (_ =? 0); by injection Ek as <- <-.
Qed.
End checksum.

(** ** A concrete case: a checksum that is the transaction number *)
Definition number_checksum : Checksum.
Proof.
  refine {| xxh3_checksum := λ data, of_le (take 8 (drop 104 data)) |}.
  intros data. pose proof (of_le_range (take 8 (drop 104 data))) as Hr. split; [apply Hr|].
  eapply Z.lt_le_trans; [apply Hr|]. etransitivity; [apply (Z.pow_le_mono_r 256 _ 16); [lia|rewrite length_take; lia]|done].
Defined.
Definition demo_header : DatabaseHeader := mkHeader 0 true false 4096 0 32 1 10 [mkSlot 3 None None 5; mkSlot 3 None None 4].
Definition demo_new : TransactionHeader := mkSlot 3 None None 9.

Definition demo_old : TransactionHeader := mkSlot 3 None None 4.
Definition demo_bytes (t : TransactionHeader) : bytes := default [] (transaction_to_bytes (CS := number_checksum) t).
(** The two slots differ at the number and at the checksum; a mixture of them has the
    checksum of one and the number of the other. *)
Lemma demo_differ : Forall (λ i, i = 104%nat ∨ i = 112%nat ∨ demo_bytes demo_old !! i = demo_bytes demo_new !! i) (seq 0 128).
Proof. apply (bool_decide_unpack _). vm_compute. exact I. Qed.
Lemma demo_detected : torn_detected (CS := number_checksum) demo_old demo_new.
Proof.
  intros so sn y Eo En [Hlen Hy] Hv.
  assert (so = demo_bytes demo_old) as -> by (unfold demo_bytes; by rewrite Eo). assert (sn = demo_bytes demo_new) as -> by (unfold demo_bytes; by rewrite En).
  clear Eo En. assert (length y = 128%nat) as Hl by (rewrite <-(Hlen (demo_bytes demo_old)); [vm_compute; reflexivity|by left]).
  assert (∀ i, i ∈ seq 0 128 → y !! i = demo_bytes demo_old !! i ∨ y !! i = demo_bytes demo_new !! i) as Hone.
  { intros i Hi. destruct (lookup_lt_is_Some_2 y i) as [x Ex]; [apply elem_of_seq in Hi; lia|]. rewrite Ex. destruct (Hy i x Ex) as (w & Hw & Ew).
    apply elem_of_cons in Hw as [->|Hw]; [by left|]. apply list_elem_of_singleton in Hw as ->. by right. }
  assert (∃ a b, (a = z2b 4 ∨ a = z2b 9) ∧ (b = z2b 4 ∨ b = z2b 9) ∧ y = <[104%nat := a]> (<[112%nat := b]> (demo_bytes demo_old))) as (a & b & Ha & Hb & ->).
  { destruct (lookup_lt_is_Some_2 y 104) as [a Ea]; [lia|]. destruct (lookup_lt_is_Some_2 y 112) as [b Eb]; [lia|]. exists a, b. split; [|split].
    - destruct (Hone 104%nat) as [E|E]; [by apply elem_of_seq; lia| |]; rewrite Ea in E; vm_compute in E; injection E as ->; [by left|by right].
    - destruct (Hone 112%nat) as [E|E]; [by apply elem_of_seq; lia| |]; rewrite Eb in E; vm_compute in E; injection E as ->; [by left|by right].
    - assert (length (demo_bytes demo_old) = 128%nat) as Hlo by (vm_compute; reflexivity).
      apply list_eq. intros i. destruct (decide (i < 128)%nat) as [Hi|Hi].
      + destruct (decide (i = 104%nat)) as [->|H1]; [by rewrite list_lookup_insert_eq by (rewrite length_insert; lia)|]. rewrite list_lookup_insert_ne by done.
        destruct (decide (i = 112%nat)) as [->|H2]; [by rewrite list_lookup_insert_eq by lia|]. rewrite list_lookup_insert_ne by done.
        assert (i ∈ seq 0 128) as His by (apply elem_of_seq; lia). pose proof demo_differ as Hd. rewrite Forall_forall in Hd.
        destruct (Hd i His) as [?|[?|E]]; [done..|]. destruct (Hone i His) as [?|E']; [done|congruence].
      + rewrite !lookup_ge_None_2; [done|rewrite !length_insert; lia|lia]. }
  destruct Ha as [-> | ->], Hb as [-> | ->]; vm_compute in Hv; try discriminate; [left|right]; vm_compute; reflexivity.
Qed.
Lemma empty_slot_ok n : is_u64 n → slot_ok (mkSlot FILE_FORMAT_VERSION3 None None n).
Proof. by intros Hn. Qed.
Lemma demo_header_ok : header_ok demo_header.
Proof.
  split; [by left|]. do 5 (split; [split; [discriminate|reflexivity]|]). exists (mkSlot 3 None None 5), demo_old.
  split; [reflexivity|]. split; apply empty_slot_ok; split; discriminate || reflexivity.
Qed.
Lemma header_codec_witness : ∃ d, header_to_bytes (CS := number_checksum) demo_header true = Some d
  ∧ header_from_bytes (CS := number_checksum) d = Some (Ok (demo_header, mkRepair false false false)).
Proof.
  destruct (proj1 (header_codec (CS := number_checksum)) demo_header demo_header_ok) as (d & E & _ & E'). exists d. split; [exact E|exact E'].
Defined.
(** The file grows by 22 pages: from a full region and ten pages to two full regions. *)
Definition demo_region : RegionLayout := mkRegion 32 0 4096.
Lemma demo_length : length_ok demo_header 266240.
Proof.
  assert (layout_ok (mkLayout demo_region 2 None)) as Hl by (unfold layout_ok; cbn; lia).
  exists (mkLayout demo_region 2 None). split_and!; try exact Hl; try reflexivity; vm_compute; discriminate.
Qed.
Lemma demo_file_ok L : layout_ok L → ∀ f t len, header_layout (relaid demo_header f t) = Some L → database_len L = Some len → len ≤ 266240 →
  file_ok (relaid demo_header f t) 266240.
Proof. intros HL f t len E El Hle. split; [by exists L, len|exact demo_length]. Qed.
Lemma commit_crash_safe_witness : ∃ d0 h' ios,
  header_to_bytes (CS := number_checksum) demo_header true = Some d0
  ∧ commit_header (CS := number_checksum) (set_secondary_slot (relaid demo_header 2 0) demo_old) false None None 9 false = Some (h', ios)
  ∧ (∀ c len, crashes_to (disk_run (mkDisk d0 [] 266240 []) ios) c len → fits (relaid demo_header 2 0) len → ∃ h'' io,
      open_header (CS := number_checksum) c len 4096 false = Some (Ok (h'', true, io)) ∧ primary_slot h'' = Some demo_new)
  ∧ ∃ io rest c, ios = io :: rest ∧ crashes_to (disk_run (mkDisk d0 [] 266240 []) [io]) c 266240
      ∧ open_header (CS := number_checksum) c 266240 4096 false = None.
Proof.
  destruct (commit_crash_safe (CS := number_checksum) demo_header (mkSlot 3 None None 5) demo_old demo_old 2 0 false None None 9 false 266240)
    as (d0 & h' & ios & E0 & Ec & _ & _ & Hcrash & io & rest & c & Eio & Hc & E24 & E28); try (exact demo_header_ok || reflexivity).
  - left. reflexivity.
  - apply empty_slot_ok. split; [discriminate|reflexivity].
  - apply empty_slot_ok. split; [discriminate|reflexivity].
  - split; [discriminate|reflexivity].
  - split; [discriminate|reflexivity].
  - apply (demo_file_ok (mkLayout demo_region 1 (Some (mkRegion 10 0 4096)))) with (f := 1) (t := 10) (len := 176128); [unfold layout_ok; cbn; lia|reflexivity|reflexivity|lia].
  - apply (demo_file_ok (mkLayout demo_region 2 None)) with (len := 266240); [unfold layout_ok; cbn; lia|reflexivity|reflexivity|lia].
  - exact demo_detected.
  - exists d0, h', ios. split; [exact E0|]. split; [exact Ec|]. split.
    + intros c' len Hc' Hfit. destruct (Hcrash ios [] c' len) as (f & t & _ & _ & _ & _ & Hlast & _ & Hopen & _); [by rewrite app_nil_r|exact Hc'|].
      destruct Hlast as [-> ->]; [left; intros Hin; by apply elem_of_nil in Hin|].
      destruct (Hopen Hfit) as (h'' & io' & E & _ & Hp). exists h'', io'. split; [exact E|apply Hp]. intros Hin. by apply elem_of_nil in Hin.
    + exists io, rest, c. split; [exact Eio|]. split; [exact Hc|].
      destruct (Hcrash [io] rest c 266240) as (f & t & Ef & Et & _ & _ & _ & _ & _ & Hpanic); [exact Eio|exact Hc|].
      rewrite E24 in Ef. rewrite E28 in Et. injection Ef as <-. injection Et as <-. apply Hpanic. intros (len & E & Hle).
      vm_compute in E. injection E as <-. by apply Hle.
Defined.
End Header.
