(* ===== verification/RedbLeaf.v ===== *)
(** RedbLeaf: the leaves of a tree, as bytes of a page.

    Models the leaves of [poc/redb-fork/src/tree_store/btree_base.rs]: the accessor,
    the two builders, the mutator and the checksum.  A leaf is four bytes with the
    number of its pairs, the ends of its keys and of its values unless all have one
    size, the keys and the values.  The trait [Key] and the memory manager are
    classes of operations with their contract; the guards that hold a page while its
    data is in use, and printing, are not modelled.  [None] is a panic, an assertion
    of a debug build included. *)
From S2P Require Import Prelude Windows RedbGroup RedbLayout RedbHeader.
Import Layout Header.
Local Open Scope Z_scope.

(** [page[a..a + data.len()].copy_from_slice(data)] and [page.copy_within(a..b, dest)] *)
Definition store (page : bytes) (a : Z) (data : bytes) : option bytes :=
  check ((0 <=? a) && (a + Z.of_nat (length data) <=? Z.of_nat (length page)));; Some (splice page a data).
Definition copy_within (page : bytes) (a b dest : Z) : option bytes :=
  data ← byte_range page a b; store page dest data.
(** [u16::from_le_bytes(page[a..a + 2])], [try_into::<u16>().unwrap()] and a
    subtraction of a [usize] *)
Definition u16_at (page : bytes) (a : Z) : option Z := of_le <$> byte_range page a (a + 2).
Definition try_u16 (z : Z) : option Z := check ((0 <=? z) && (z <? 2 ^ 16));; Some z.
Definition sub_usize (a b : Z) : option Z := check (b <=? a);; Some (a - b).

(** The order of the keys of a table, [K::compare]. *)
Class Key := {
  key_compare : bytes → bytes → comparison;
  key_compare_swap a b : key_compare b a = CompOpp (key_compare a b);
  key_compare_trans a b c : key_compare a b ≠ Gt → key_compare b c ≠ Gt → key_compare a c ≠ Gt;
}.
(** The memory manager as the builders use it: a page of at least the bytes asked
    for, whatever they hold, or an error of the storage. *)
Class PageMemory (S : Type) := {
  allocate : S → Z → result () (PageNumber * bytes) * S;
  allocate_size s size p mem s' : allocate s size = (Ok (p, mem), s') → size ≤ Z.of_nat (length mem);
}.
(** The message of [StorageError::Corrupted]. *)
Inductive PageCorrupted := NoEntries | NoOffset (entry : Z) | BeyondEnd (offset len : Z).

Definition LEAF : Z := 1.
Definition BRANCH : Z := 2.

Module Leaf.

(** * Reading *)
Record LeafAccessor := mkLeaf { page : bytes; fixed_key_size : option Z; fixed_value_size : option Z; num_pairs : Z }.

Definition accessor_new (page : bytes) (fixed_key_size fixed_value_size : option Z) : option LeafAccessor :=
  kind ← page !! 0%nat;
  check (b2z kind =? LEAF);;
  num_pairs ← u16_at page 2;
  Some (mkLeaf page fixed_key_size fixed_value_size num_pairs).
(** The bytes of a pointer to an end: none when the size is fixed. *)
Definition pointer_size (fixed : option Z) : Z := match fixed with Some _ => 0 | None => 4 end.
Definition key_section_start (a : LeafAccessor) : Z :=
  let offset := 4 in
  let offset := offset + pointer_size (fixed_key_size a) * num_pairs a in
  offset + pointer_size (fixed_value_size a) * num_pairs a.
Definition key_end (a : LeafAccessor) (n : Z) : option Z :=
  if num_pairs a <=? n then None else
  match fixed_key_size a with
  | Some fixed => Some (key_section_start a + fixed * (n + 1))
  | None => u32_at (page a) (4 + 4 * n)
  end.
Definition key_start (a : LeafAccessor) (n : Z) : option Z :=
  if n =? 0 then Some (key_section_start a) else key_end a (n - 1).
Definition value_end (a : LeafAccessor) (n : Z) : option Z :=
  if num_pairs a <=? n then None else
  match fixed_value_size a with
  | Some fixed => last ← sub_usize (num_pairs a) 1; start ← key_end a last; Some (start + fixed * (n + 1))
  | None => u32_at (page a) (4 + 4 * n + pointer_size (fixed_key_size a) * num_pairs a)
  end.
(** [None] is also the panic of an empty leaf. *)
Definition value_start (a : LeafAccessor) (n : Z) : option Z :=
  if n =? 0 then sub_usize (num_pairs a) 1 ≫= key_end a else value_end a (n - 1).
Definition value_range (a : LeafAccessor) (n : Z) : option (Z * Z) :=
  s ← value_start a n; e ← value_end a n; Some (s, e).
Definition length_of_values (a : LeafAccessor) (start stop : Z) : option Z :=
  if stop =? 0 then Some 0 else
  end_offset ← value_end a (stop - 1); start_offset ← value_start a start; sub_usize end_offset start_offset.
Definition length_of_keys (a : LeafAccessor) (start stop : Z) : option Z :=
  if stop =? 0 then Some 0 else
  end_offset ← key_end a (stop - 1); start_offset ← key_start a start; sub_usize end_offset start_offset.
Definition length_of_pairs (a : LeafAccessor) (start stop : Z) : option Z :=
  v ← length_of_values a start stop; k ← length_of_keys a start stop; Some (v + k).
Definition total_length (a : LeafAccessor) : option Z := sub_usize (num_pairs a) 1 ≫= value_end a.
Definition key_unchecked (a : LeafAccessor) (n : Z) : option bytes :=
  s ← key_start a n; e ← key_end a n; byte_range (page a) s e.
(** The answer of the code is the inner option. *)
Definition entry (a : LeafAccessor) (n : Z) : option (option (bytes * bytes)) :=
  match key_start a n, key_end a n with
  | Some s, Some e =>
      key ← byte_range (page a) s e;
      match value_start a n, value_end a n with
      | Some s, Some e => value ← byte_range (page a) s e; Some (Some (key, value))
      | _, _ => Some None
      end
  | _, _ => Some None
  end.
Definition last_entry (a : LeafAccessor) : option (bytes * bytes) :=
  n ← sub_usize (num_pairs a) 1; r ← entry a n; r.

(** The loop of [position]. *)
Fixpoint search `{Key} (fuel : nat) (a : LeafAccessor) (query : bytes) (min_entry max_entry : Z) : option (Z * bool) :=
  match fuel with
  | O => None
  | S fuel =>
      if min_entry <? max_entry then
        let mid := (min_entry + max_entry) / 2 in
        key ← key_unchecked a mid;
        match key_compare query key with
        | Lt => search fuel a query min_entry mid
        | Eq => Some (mid, true)
        | Gt => search fuel a query (mid + 1) max_entry
        end
      else Some (min_entry, false)
  end.
Definition position `{Key} (a : LeafAccessor) (query : bytes) : option (Z * bool) :=
  search (S (Z.to_nat (num_pairs a))) a query 0 (num_pairs a).
Definition find_key `{Key} (a : LeafAccessor) (query : bytes) : option (option Z) :=
  r ← position a query; Some (if r.2 : bool then Some r.1 else None).

Definition leaf_checksum `{CS : Checksum} (page : bytes) (fixed_key_size fixed_value_size : option Z) : option (result PageCorrupted Z) :=
  accessor ← accessor_new page fixed_key_size fixed_value_size;
  match sub_usize (num_pairs accessor) 1 with
  | None => Some (Err NoEntries)
  | Some last_pair =>
      match value_end accessor last_pair with
      | None => Some (Err (NoOffset last_pair))
      | Some stop =>
          if Z.of_nat (length page) <? stop then Some (Err (BeyondEnd stop (Z.of_nat (length page))))
          else data ← byte_range page 0 stop; Some (Ok (xxh3_checksum data))
      end
  end.

(** * Building *)
Definition required_bytes (num_pairs keys_values_bytes : Z) (key_size value_size : option Z) : Z :=
  let result := 4 in
  let result := result + num_pairs * pointer_size key_size in
  let result := result + num_pairs * pointer_size value_size in
  result + keys_values_bytes.

Record RawLeafBuilder := mkRaw {
  raw_page : bytes;
  raw_key_size : option Z;
  raw_value_size : option Z;
  raw_num_pairs : Z;
  provisioned_key_bytes : Z;
  pairs_written : Z;
}.
Definition raw_new (page : bytes) (num_pairs : Z) (fixed_key_size fixed_value_size : option Z) (key_bytes : Z) : option RawLeafBuilder :=
  page ← store page 0 [z2b LEAF];
  n ← try_u16 num_pairs;
  page ← store page 2 (le_bytes 2 n);
  let last := 4 + pointer_size fixed_key_size * num_pairs + pointer_size fixed_value_size * num_pairs in
  page ← store page 4 (replicate (Z.to_nat (last - 4)) Byte.xff);
  Some (mkRaw page fixed_key_size fixed_value_size num_pairs key_bytes 0).
Definition raw_key_section_start (b : RawLeafBuilder) : Z :=
  let offset := 4 in
  let offset := offset + pointer_size (raw_key_size b) * raw_num_pairs b in
  offset + pointer_size (raw_value_size b) * raw_num_pairs b.
Definition raw_key_end (b : RawLeafBuilder) (n : Z) : option Z :=
  match raw_key_size b with
  | Some fixed => Some (raw_key_section_start b + fixed * (n + 1))
  | None => u32_at (raw_page b) (4 + 4 * n)
  end.
Definition raw_value_end (b : RawLeafBuilder) (n : Z) : option Z :=
  match raw_value_size b with
  | Some fixed => Some (raw_key_section_start b + provisioned_key_bytes b + fixed * (n + 1))
  | None => u32_at (raw_page b) (4 + 4 * n + pointer_size (raw_key_size b) * raw_num_pairs b)
  end.
Definition has_width (fixed : option Z) (data : bytes) : bool :=
  match fixed with Some width => width =? Z.of_nat (length data) | None => true end.
(** [if fixed.is_none() { write the end at [offset] }] *)
Definition store_end (fixed : option Z) (page : bytes) (offset stop : Z) : option bytes :=
  match fixed with
  | Some _ => Some page
  | None => e ← try_u32 stop; store page offset (le_bytes 4 e)
  end.
Definition append (b : RawLeafBuilder) (key value : bytes) : option RawLeafBuilder :=
  check (has_width (raw_key_size b) key);;
  check (has_width (raw_value_size b) value);;
  let n := pairs_written b in
  key_offset ← (if n =? 0 then Some (raw_key_section_start b) else raw_key_end b (n - 1));
  value_offset ← (if n =? 0 then Some (raw_key_section_start b + provisioned_key_bytes b) else raw_value_end b (n - 1));
  let page := raw_page b in
  page ← store_end (raw_key_size b) page (4 + 4 * n) (key_offset + Z.of_nat (length key));
  page ← store page key_offset key;
  written_key_len ← sub_usize (key_offset + Z.of_nat (length key)) (raw_key_section_start b);
  check (written_key_len <=? provisioned_key_bytes b);;
  page ← store_end (raw_value_size b) page (4 + 4 * n + pointer_size (raw_key_size b) * raw_num_pairs b) (value_offset + Z.of_nat (length value));
  page ← store page value_offset value;
  Some (mkRaw page (raw_key_size b) (raw_value_size b) (raw_num_pairs b) (provisioned_key_bytes b) (n + 1)).
(** The end of the builder checks that it is complete. *)
Definition raw_drop (b : RawLeafBuilder) : option bytes :=
  check (pairs_written b =? raw_num_pairs b);;
  last ← sub_usize (raw_num_pairs b) 1;
  e ← raw_key_end b last;
  check (raw_key_section_start b + provisioned_key_bytes b =? e);;
  Some (raw_page b).

Record LeafBuilder := mkBuilder {
  pairs : list (bytes * bytes);
  key_size : option Z;
  value_size : option Z;
  total_key_bytes : Z;
  total_value_bytes : Z;
}.
Definition builder_new (fixed_key_size fixed_value_size : option Z) : LeafBuilder := mkBuilder [] fixed_key_size fixed_value_size 0 0.
Definition push (b : LeafBuilder) (key value : bytes) : LeafBuilder :=
  mkBuilder (pairs b ++ [(key, value)]) (key_size b) (value_size b)
    (total_key_bytes b + Z.of_nat (length key)) (total_value_bytes b + Z.of_nat (length value)).
Definition push_all_except (b : LeafBuilder) (a : LeafAccessor) (except : option Z) : option LeafBuilder :=
  fold_opt (λ b i, if bool_decide (except = Some i) then Some b else
    r ← entry a i; '(key, value) ← r; Some (push b key value)) b (seqZ 0 (num_pairs a)).
Definition should_split (b : LeafBuilder) (page_size : Z) : bool :=
  let n := Z.of_nat (length (pairs b)) in
  let required_size := required_bytes n (total_key_bytes b + total_value_bytes b) (key_size b) (value_size b) in
  (page_size <? required_size) && (1 <? n).
(** The page that holds [pairs], whose keys have [key_bytes] bytes, written in [mem]. *)
Definition build_page (mem : bytes) (b : LeafBuilder) (pairs : list (bytes * bytes)) (key_bytes : Z) : option bytes :=
  builder ← raw_new mem (Z.of_nat (length pairs)) (key_size b) (value_size b) key_bytes;
  builder ← fold_opt (λ builder pair, append builder pair.1 pair.2) builder pairs;
  raw_drop builder.
Definition build {S} `{PageMemory S} (b : LeafBuilder) (s : S) : option (result () (PageNumber * bytes) * S) :=
  let required_size := required_bytes (Z.of_nat (length (pairs b))) (total_key_bytes b + total_value_bytes b) (key_size b) (value_size b) in
  match allocate s required_size with
  | (Err e, s) => Some (Err e, s)
  | (Ok (p, mem), s) => page ← build_page mem b (pairs b) (total_key_bytes b); Some (Ok (p, page), s)
  end.
(** The loop of [build_split]: the number of pairs of the first page, and the bytes
    of their keys and values. *)
Fixpoint divide (total_size : Z) (pairs : list (bytes * bytes)) (division key_bytes value_bytes : Z) : Z * Z * Z :=
  match pairs with
  | [] => (division, key_bytes, value_bytes)
  | (key, value) :: pairs =>
      let key_bytes := key_bytes + Z.of_nat (length key) in
      let value_bytes := value_bytes + Z.of_nat (length value) in
      let division := division + 1 in
      if total_size / 2 <=? key_bytes + value_bytes then (division, key_bytes, value_bytes)
      else divide total_size pairs division key_bytes value_bytes
  end.
Definition build_split {S} `{PageMemory S} (b : LeafBuilder) (s : S)
    : option (result () ((PageNumber * bytes) * bytes * (PageNumber * bytes)) * S) :=
  let n := Z.of_nat (length (pairs b)) in
  let total_size := total_key_bytes b + total_value_bytes b in
  m ← sub_usize n 1;
  let '(division, first_split_key_bytes, first_split_value_bytes) := divide total_size (take (Z.to_nat m) (pairs b)) 0 0 0 in
  let required_size := required_bytes division (first_split_key_bytes + first_split_value_bytes) (key_size b) (value_size b) in
  match allocate s required_size with
  | (Err e, s) => Some (Err e, s)
  | (Ok (p1, mem1), s) =>
      page1 ← build_page mem1 b (take (Z.to_nat division) (pairs b)) first_split_key_bytes;
      rest ← sub_usize (total_key_bytes b + total_value_bytes b) first_split_key_bytes ≫= λ x, sub_usize x first_split_value_bytes;
      let required_size := required_bytes (n - division) rest (key_size b) (value_size b) in
      match allocate s required_size with
      | (Err e, s) => Some (Err e, s)
      | (Ok (p2, mem2), s) =>
          key_bytes ← sub_usize (total_key_bytes b) first_split_key_bytes;
          page2 ← build_page mem2 b (drop (Z.to_nat division) (pairs b)) key_bytes;
          last ← sub_usize division 1;
          division_pair ← pairs b !! Z.to_nat last;
          Some (Ok ((p1, page1), division_pair.1, (p2, page2)), s)
      end
  end.

(** * Changing in place *)
Definition sufficient_replace_inplace_space (mem : bytes) (position : Z) (fixed_key_size fixed_value_size : option Z) (new_value : bytes) : option bool :=
  accessor ← accessor_new mem fixed_key_size fixed_value_size;
  total ← total_length accessor;
  remaining ← sub_usize (Z.of_nat (length mem)) total;
  existing_value_len ← (match value_range accessor position with Some (s, e) => sub_usize e s | None => Some 0 end);
  Some (Z.of_nat (length new_value) - existing_value_len <=? remaining).
Definition sufficient_insert_inplace_space (page_number : PageNumber) (mem : bytes) (position : Z) (fixed_key_size fixed_value_size : option Z)
    (new_key new_value : bytes) : option bool :=
  accessor ← accessor_new mem fixed_key_size fixed_value_size;
  if (0 <? page_order page_number) && (position <? num_pairs accessor) then Some false else
  total ← total_length accessor;
  remaining ← sub_usize (Z.of_nat (length mem)) total;
  let required_delta := Z.of_nat (length new_key) + Z.of_nat (length new_value) + pointer_size fixed_key_size + pointer_size fixed_value_size in
  Some (required_delta <=? remaining).

(** [update_key_end] and [update_value_end] of the mutator: [delta] is added to an end. *)
Definition bump (page : bytes) (offset delta : Z) : option bytes :=
  ptr ← u32_at page offset;
  ptr ← try_u32 (ptr + delta);
  store page offset (le_bytes 4 ptr).
Definition update_key_end (fixed_key_size : option Z) (page : bytes) (i delta : Z) : option bytes :=
  match fixed_key_size with
  | Some _ => Some page
  | None => bump page (4 + 4 * i) delta
  end.
Definition update_value_end (fixed_key_size fixed_value_size : option Z) (page : bytes) (i delta : Z) : option bytes :=
  match fixed_value_size with
  | Some _ => Some page
  | None =>
      accessor ← accessor_new page fixed_key_size fixed_value_size;
      bump page (4 + 4 * i + pointer_size fixed_key_size * num_pairs accessor) delta
  end.
(** A turn of the loops that move both ends of a pair. *)
Definition update_ends (fixed_key_size fixed_value_size : option Z) (key_delta value_delta : Z) (page : bytes) (j : Z) : option bytes :=
  page ← update_key_end fixed_key_size page j key_delta;
  update_value_end fixed_key_size fixed_value_size page j value_delta.
(** [LeafMutator::new] *)
Definition mutator_new (page : bytes) : option () := kind ← page !! 0%nat; check (b2z kind =? LEAF).

Definition replace (fixed_key_size fixed_value_size : option Z) (page : bytes) (i : Z) (value : bytes) : option bytes :=
  accessor ← accessor_new page fixed_key_size fixed_value_size;
  let n := num_pairs accessor in
  last ← sub_usize n 1;
  last_value_end ← value_end accessor last;
  let shift_value_start := default last_value_end (value_start accessor (i + 1)) in
  existing_value_len ← (match value_range accessor i with Some (s, e) => sub_usize e s | None => Some 0 end);
  let value_delta := Z.of_nat (length value) - existing_value_len in
  total ← total_length accessor;
  check (total + value_delta <=? Z.of_nat (length page));;
  page ← fold_opt (λ page j, update_value_end fixed_key_size fixed_value_size page j value_delta) page (seqZ i (n - i));
  dest ← sub_usize (shift_value_start + value_delta) 0;
  page ← copy_within page shift_value_start last_value_end dest;
  dest ← sub_usize dest (Z.of_nat (length value));
  store page dest value.

(** The part of [insert] that moves the ranges of the page of [n] pairs, the last
    first, and fills the gaps. *)
Definition insert_moves (fixed_key_size fixed_value_size : option Z) (page : bytes) (n i shift_key_start shift_value_start last_value_end : Z)
    (key value : bytes) : option bytes :=
  let key_len := Z.of_nat (length key) in let value_len := Z.of_nat (length value) in
  let key_ptr_size := pointer_size fixed_key_size in let value_ptr_size := pointer_size fixed_value_size in
  let new_num_pairs := n + 1 in
  let dest := shift_value_start + key_ptr_size + value_ptr_size + key_len + value_len in
  page ← copy_within page shift_value_start last_value_end dest;
  inserted_value_end ← try_u32 dest;
  dest ← sub_usize dest value_len;
  page ← store page dest value;
  gap ← sub_usize shift_value_start shift_key_start;
  dest ← sub_usize dest gap;
  page ← copy_within page shift_key_start shift_value_start dest;
  inserted_key_end ← try_u32 dest;
  dest ← sub_usize dest key_len;
  page ← store page dest key;
  let start := 4 + key_ptr_size * n + value_ptr_size * i in
  gap ← sub_usize shift_key_start start;
  dest ← sub_usize dest gap;
  check (dest =? 4 + key_ptr_size * new_num_pairs + value_ptr_size * (i + 1));;
  page ← copy_within page start shift_key_start dest;
  '(dest, page) ← (match fixed_value_size with
    | Some _ => Some (dest, page)
    | None => dest ← sub_usize dest 4; page ← store page dest (le_bytes 4 inserted_value_end); Some (dest, page)
    end);
  let start := 4 + key_ptr_size * i in
  let stop := 4 + key_ptr_size * n + value_ptr_size * i in
  gap ← sub_usize stop start;
  dest ← sub_usize dest gap;
  check (dest =? 4 + key_ptr_size * (i + 1));;
  page ← copy_within page start stop dest;
  '(dest, page) ← (match fixed_key_size with
    | Some _ => Some (dest, page)
    | None => dest ← sub_usize dest 4; page ← store page dest (le_bytes 4 inserted_key_end); Some (dest, page)
    end);
  check (dest =? 4 + key_ptr_size * i);;
  Some page.
Definition insert (fixed_key_size fixed_value_size : option Z) (page : bytes) (i : Z) (key value : bytes) : option bytes :=
  accessor ← accessor_new page fixed_key_size fixed_value_size;
  let key_len := Z.of_nat (length key) in let value_len := Z.of_nat (length value) in
  let key_ptr_size := pointer_size fixed_key_size in let value_ptr_size := pointer_size fixed_value_size in
  total ← total_length accessor;
  check (total + (key_len + value_len + key_ptr_size + value_ptr_size) <=? Z.of_nat (length page));;
  let n := num_pairs accessor in
  last ← sub_usize n 1;
  last_key_end ← key_end accessor last;
  last_value_end ← value_end accessor last;
  let shift_key_start := default last_key_end (key_start accessor i) in
  let shift_value_start := default last_value_end (value_start accessor i) in
  page ← fold_opt (update_ends fixed_key_size fixed_value_size (key_ptr_size + value_ptr_size) (key_ptr_size + value_ptr_size + key_len)) page (seqZ 0 i);
  page ← fold_opt (update_ends fixed_key_size fixed_value_size (key_ptr_size + value_ptr_size + key_len)
    (key_ptr_size + value_ptr_size + key_len + value_len)) page (seqZ i (n - i));
  let new_num_pairs := n + 1 in
  m ← try_u16 new_num_pairs;
  page ← store page 2 (le_bytes 2 m);
  insert_moves fixed_key_size fixed_value_size page n i shift_key_start shift_value_start last_value_end key value.

(** The part of [remove] that moves the ranges of the page, the first first. *)
Definition remove_moves (fixed_key_size fixed_value_size : option Z) (page : bytes) (n i key_start key_end value_start value_stop last_value_end : Z) : option bytes :=
  let key_ptr_size := pointer_size fixed_key_size in let value_ptr_size := pointer_size fixed_value_size in
  let new_num_pairs := n - 1 in
  key_len ← sub_usize key_end key_start;
  let dest := 4 + key_ptr_size * i in
  let start := 4 + key_ptr_size * (i + 1) in
  let stop := 4 + key_ptr_size * n + value_ptr_size * i in
  page ← copy_within page start stop dest;
  gap ← sub_usize stop start;
  let dest := dest + gap in
  check (dest =? 4 + key_ptr_size * new_num_pairs + value_ptr_size * i);;
  let start := 4 + key_ptr_size * n + value_ptr_size * (i + 1) in
  page ← copy_within page start key_start dest;
  gap ← sub_usize key_start start;
  let dest := dest + gap in
  preceding_key_len ← sub_usize key_start (4 + (key_ptr_size + value_ptr_size) * n);
  check (dest =? 4 + (key_ptr_size + value_ptr_size) * new_num_pairs + preceding_key_len);;
  page ← copy_within page key_end value_start dest;
  gap ← sub_usize value_start key_end;
  let dest := dest + gap in
  preceding_data_len ← sub_usize value_start (4 + (key_ptr_size + value_ptr_size) * n) ≫= λ x, sub_usize x key_len;
  check (dest =? 4 + (key_ptr_size + value_ptr_size) * new_num_pairs + preceding_data_len);;
  copy_within page value_stop last_value_end dest.
Definition remove (fixed_key_size fixed_value_size : option Z) (page : bytes) (i : Z) : option bytes :=
  accessor ← accessor_new page fixed_key_size fixed_value_size;
  let n := num_pairs accessor in
  check (i <? n);;
  check (1 <? n);;
  key_start ← key_start accessor i;
  key_end ← key_end accessor i;
  value_start ← value_start accessor i;
  value_stop ← value_end accessor i;
  last_value_end ← value_end accessor (n - 1);
  let key_ptr_size := pointer_size fixed_key_size in let value_ptr_size := pointer_size fixed_value_size in
  key_len ← sub_usize key_end key_start;
  value_len ← sub_usize value_stop value_start;
  let pointers := - (key_ptr_size + value_ptr_size) in
  page ← fold_opt (update_ends fixed_key_size fixed_value_size pointers (pointers - key_len)) page (seqZ 0 i);
  page ← fold_opt (update_ends fixed_key_size fixed_value_size (pointers - key_len) (pointers - key_len - value_len)) page (seqZ (i + 1) (n - (i + 1)));
  let new_num_pairs := n - 1 in
  m ← try_u16 new_num_pairs;
  page ← store page 2 (le_bytes 2 m);
  remove_moves fixed_key_size fixed_value_size page n i key_start key_end value_start value_stop last_value_end.

(** * Keys in order *)
Section key_order.
Context `{Key}.

Lemma key_flip a b : key_compare a b = Gt ↔ key_compare b a = Lt.
Proof. rewrite (key_compare_swap b a). by destruct (key_compare b a). Qed.
Lemma key_lt_trans a b c : key_compare a b = Lt → key_compare b c = Lt → key_compare a c = Lt.
Proof.
  intros Hab Hbc. assert (key_compare a c ≠ Gt) as Hle by (apply (key_compare_trans a b c); congruence).
  destruct (key_compare a c) eqn:Hac; [|done|done]. exfalso. assert (key_compare c b ≠ Gt) as Hcb.
  { apply (key_compare_trans c a b); [|congruence]. by rewrite (key_compare_swap a c), Hac. }
  by apply Hcb, key_flip.
Qed.
Lemma key_eq_lt a b c : key_compare a b = Eq → key_compare c b = Lt → key_compare a c = Gt.
Proof.
  intros Hab Hcb. destruct (key_compare a c) eqn:Hac; [..|done]; exfalso; apply key_flip in Hcb; apply (key_compare_trans b a c); try done.
  all: by rewrite ?(key_compare_swap a b), ?Hab, ?Hac.
Qed.
(** The keys grow from left to right. *)
Definition ascending (ks : list bytes) : Prop :=
  ∀ i j a b, (i < j)%nat → ks !! i = Some a → ks !! j = Some b → key_compare a b = Lt.
(** Where a key is or belongs among ascending keys. *)
Definition located (ks : list bytes) (query : bytes) (i : nat) (found : bool) : Prop :=
  (i ≤ length ks)%nat ∧ (∀ j k, (j < i)%nat → ks !! j = Some k → key_compare query k = Gt) ∧
  if found then ∃ k, ks !! i = Some k ∧ key_compare query k = Eq
  else ∀ j k, (i ≤ j)%nat → ks !! j = Some k → key_compare query k = Lt.
Lemma located_unique ks query i found i' found' : located ks query i found → located ks query i' found' → i = i' ∧ found = found'.
Proof.
  assert (∀ i found i' found', located ks query i found → located ks query i' found' → (i < i')%nat → False) as Hlt.
  { intros x f x' f' (Hx & _ & Hf) (Hx' & Hlo & _) Hxx. destruct (lookup_lt_is_Some_2 ks x) as [k Ek]; [lia|]. specialize (Hlo x k Hxx Ek).
    destruct f; [destruct Hf as (k' & E' & Hk'); congruence|]. rewrite (Hf x k) in Hlo; done. }
  intros H1 H2. destruct (Nat.lt_trichotomy i i') as [?|[->|?]]; [by destruct (Hlt i found i' found')| |by destruct (Hlt i' found' i found)].
  split; [done|]. destruct H1 as (_ & _ & H1), H2 as (_ & _ & H2). destruct found, found'; try done.
  - destruct H1 as (k & Ek & Hk). rewrite (H2 i' k) in Hk; done.
  - destruct H2 as (k & Ek & Hk). rewrite (H1 i' k) in Hk; done.
Qed.
End key_order.

(** * A leaf holds a list of pairs *)

(** The ends of parts that lie one after the other from [off] on. *)
Fixpoint ends (off : Z) (parts : list bytes) : list Z :=
  match parts with
  | [] => []
  | part :: parts => let e := off + Z.of_nat (length part) in e :: ends e parts
  end.
Definition size (parts : list bytes) : Z := Z.of_nat (length (mjoin parts)).
Definition table (fixed : option Z) (es : list Z) : bytes :=
  match fixed with Some _ => [] | None => mjoin (le_bytes 4 <$> es) end.
Definition widths (fixed : option Z) (parts : list bytes) : Prop :=
  match fixed with Some w => Forall (λ p : bytes, Z.of_nat (length p) = w) parts | None => True end.
Definition preamble (r : Byte.byte) (n : Z) : bytes := z2b LEAF :: r :: le_bytes 2 n.

Lemma size_nil : size [] = 0.
Proof. done. Qed.
Lemma size_cons p ps : size (p :: ps) = Z.of_nat (length p) + size ps.
Proof. unfold size. rewrite mjoin_cons, length_app. lia. Qed.
Lemma mjoin_app {A} (l k : list (list A)) : mjoin (l ++ k) = mjoin l ++ mjoin k.
Proof. induction l as [|x l IH]; [done|]. cbn [app]. by rewrite !mjoin_cons, IH, app_assoc. Qed.
Lemma size_app ps qs : size (ps ++ qs) = size ps + size qs.
Proof. unfold size. rewrite mjoin_app, length_app. lia. Qed.
Lemma size_nonneg ps : 0 ≤ size ps.
Proof. unfold size. lia. Qed.
Lemma length_mjoin_size ps : Z.of_nat (length (mjoin ps)) = size ps.
Proof. done. Qed.
Lemma length_ends off ps : length (ends off ps) = length ps.
Proof. revert off. induction ps as [|p ps IH]; intros off; [done|]. cbn. by rewrite IH. Qed.
Lemma ends_app off ps qs : ends off (ps ++ qs) = ends off ps ++ ends (off + size ps) qs.
Proof.
  revert off. induction ps as [|p ps IH]; intros off; cbn [app ends]; [by rewrite size_nil, Z.add_0_r|].
  rewrite IH, size_cons. cbn [app]. do 3 f_equal. lia.
Qed.
Lemma ends_shift off d ps : ends (off + d) ps = (λ e, e + d) <$> ends off ps.
Proof.
  revert off. induction ps as [|p ps IH]; intros off; [done|]. cbn [ends fmap list_fmap]. fold (fmap (M:=list) (λ e, e + d)).
  replace (off + d + Z.of_nat (length p)) with (off + Z.of_nat (length p) + d) by lia. by rewrite IH.
Qed.
Lemma ends_lookup off ps j : (j < length ps)%nat → ends off ps !! j = Some (off + size (take (S j) ps)).
Proof.
  intros Hj. destruct (lookup_lt_is_Some_2 _ _ Hj) as [p Hp]. rewrite <-(take_drop_middle _ _ _ Hp) at 1. rewrite ends_app, lookup_app_r; rewrite length_ends, length_take; [|lia].
  replace (j - j `min` length ps)%nat with 0%nat by lia. cbn. rewrite (take_S_r _ _ _ Hp), size_app, size_cons, size_nil. f_equal. lia.
Qed.
Lemma ends_bounds off ps e : e ∈ ends off ps → off ≤ e ≤ off + size ps.
Proof.
  intros [j Hj]%list_elem_of_lookup. pose proof (lookup_lt_Some _ _ _ Hj) as Hlt. rewrite length_ends in Hlt. rewrite ends_lookup in Hj by done. injection Hj as <-.
  rewrite <-(take_drop (S j) ps) at 3. rewrite size_app. pose proof (size_nonneg (take (S j) ps)). pose proof (size_nonneg (drop (S j) ps)). lia.
Qed.
Lemma widths_take fixed ps j : widths fixed ps → widths fixed (take j ps).
Proof. destruct fixed; [|done]. apply Forall_take. Qed.
Lemma widths_app fixed ps qs : widths fixed (ps ++ qs) ↔ widths fixed ps ∧ widths fixed qs.
Proof. destruct fixed; [apply Forall_app|cbn; tauto]. Qed.
Lemma widths_size w ps : widths (Some w) ps → size ps = w * Z.of_nat (length ps).
Proof. cbn [widths]. induction 1 as [|p ps Hp _ IH]; [by rewrite Z.mul_0_r|]. rewrite size_cons, IH. cbn [length]. lia. Qed.
Lemma length_table fixed es : Z.of_nat (length (table fixed es)) = pointer_size fixed * Z.of_nat (length es).
Proof.
  destruct fixed; [done|]. cbn [table pointer_size]. induction es as [|e es IH]; [done|]. cbn [fmap list_fmap]. rewrite mjoin_cons, length_app, length_le_bytes. cbn [length].
  fold (fmap (M:=list) (le_bytes 4)). lia.
Qed.
Lemma table_app fixed es fs : table fixed (es ++ fs) = table fixed es ++ table fixed fs.
Proof. destruct fixed; [done|]. cbn [table]. by rewrite fmap_app, mjoin_app. Qed.
Lemma length_preamble r n : length (preamble r n) = 4%nat.
Proof. unfold preamble. cbn [length]. by rewrite length_le_bytes. Qed.

(** What lies in the middle of a page. *)
Lemma table_at (a b : bytes) es j e m : es !! j = Some e → m = Z.of_nat (length a) + 4 * Z.of_nat j → 0 ≤ e < 2 ^ 32 →
  u32_at (a ++ table None es ++ b) m = Some e.
Proof.
  intros He -> Hlt. pose proof (lookup_lt_Some _ _ _ He). rewrite <-(take_drop_middle _ _ _ He), table_app.
  change (table None (e :: drop (S j) es)) with (le_bytes 4 e ++ table None (drop (S j) es)). rewrite <-!app_assoc, app_assoc. apply u32_at_mid; [|done].
  rewrite length_app, Nat2Z.inj_add, length_table, length_take. cbn [pointer_size]. lia.
Qed.
Lemma part_at (a b : bytes) parts j p s e : parts !! j = Some p → s = Z.of_nat (length a) + size (take j parts) →
  e = Z.of_nat (length a) + size (take (S j) parts) → byte_range (a ++ mjoin parts ++ b) s e = Some p.
Proof.
  intros Hp -> ->. rewrite (take_S_r _ _ _ Hp), size_app, size_cons, size_nil. rewrite <-(take_drop_middle _ _ _ Hp) at 1. rewrite mjoin_app, mjoin_cons, <-!app_assoc, app_assoc.
  apply byte_range_mid; rewrite ?length_app; unfold size; lia.
Qed.

(** Writing in the middle of a page. *)
Lemma try_u16_Some z : 0 ≤ z < 2 ^ 16 → try_u16 z = Some z.
Proof. intros. unfold try_u16. by rewrite (proj2 (Z.leb_le _ _)), (proj2 (Z.ltb_lt _ _)) by lia. Qed.
Lemma sub_usize_Some a b : b ≤ a → sub_usize a b = Some (a - b).
Proof. intros. unfold sub_usize. by rewrite (proj2 (Z.leb_le _ _)) by lia. Qed.
Lemma store_mid (a g b d : bytes) m : m = Z.of_nat (length a) → (length d ≤ length g)%nat →
  store (a ++ g ++ b) m d = Some (a ++ d ++ drop (length d) g ++ b).
Proof.
  intros -> Hd. unfold store. rewrite !length_app. rewrite (proj2 (Z.leb_le _ _)), (proj2 (Z.leb_le _ _)) by lia. cbn [andb check mbind option_bind].
  f_equal. unfold splice. rewrite Nat2Z.id, take_app_length, <-drop_drop, drop_app_length. f_equal. f_equal. by rewrite drop_app_le by done.
Qed.
Lemma store_length p a d p' : store p a d = Some p' → length p' = length p.
Proof.
  unfold store. destruct (_ && _) eqn:E; [|done]. cbn [check mbind option_bind]. intros [= <-]. apply andb_prop in E as [H1%Z.leb_le H2%Z.leb_le]. by apply length_splice.
Qed.

Lemma store_end_length fixed p a e p' : store_end fixed p a e = Some p' → length p' = length p.
Proof. destruct fixed; [by intros [= <-]|]. intros (x & _ & E)%bind_Some. by eapply store_length. Qed.
Lemma append_length b k v b' : append b k v = Some b' → length (raw_page b') = length (raw_page b).
Proof.
  unfold append. intros E. repeat (apply bind_Some in E as (? & ? & E)). injection E as <-. cbn [raw_page].
  repeat match goal with H : store _ _ _ = Some _ |- _ => apply store_length in H | H : store_end _ _ _ _ = Some _ |- _ => apply store_end_length in H end. congruence.
Qed.
Lemma store_end_ok fixed (a j b : bytes) es off e c : Z.of_nat (length j) = pointer_size fixed * c → 1 ≤ c → 0 ≤ e < 2 ^ 32 →
  off = Z.of_nat (length a) + 4 * Z.of_nat (length es) →
  ∃ j', store_end fixed (a ++ table fixed es ++ j ++ b) off e = Some (a ++ table fixed (es ++ [e]) ++ j' ++ b) ∧ Z.of_nat (length j') = pointer_size fixed * (c - 1).
Proof.
  intros Hj Hc He Hoff. destruct fixed as [w|]; cbn [store_end].
  - exists j. cbn [table pointer_size] in *. split; [done|lia].
  - rewrite try_u32_Some by lia. cbn [mbind option_bind]. rewrite (app_assoc a), store_mid.
    + exists (drop (length (le_bytes 4 e)) j). split; [|rewrite length_drop, length_le_bytes; cbn [pointer_size] in *; lia].
      rewrite table_app. change (table None [e]) with (le_bytes 4 e ++ []). by rewrite app_nil_r, <-!app_assoc.
    + rewrite length_app, Nat2Z.inj_add, length_table. cbn [pointer_size]. lia.
    + rewrite length_le_bytes. cbn [pointer_size] in Hj. lia.
Qed.

(** Moving a range to the right or to the left over a gap, and filling the end of one. *)
Lemma copy_right (a b g c : bytes) s e dest : s = Z.of_nat (length a) → e = s + Z.of_nat (length b) → dest = s + Z.of_nat (length g) →
  ∃ g', copy_within (a ++ b ++ g ++ c) s e dest = Some (a ++ g' ++ b ++ c) ∧ length g' = length g.
Proof.
  intros -> -> ->. unfold copy_within. rewrite byte_range_mid by lia. cbn [mbind option_bind]. exists (take (length g) (b ++ g)). split; [|rewrite length_take, length_app; lia].
  assert (a ++ b ++ g ++ c = (a ++ take (length g) (b ++ g)) ++ drop (length g) (b ++ g) ++ c) as ->.
  { rewrite <-app_assoc. f_equal. rewrite !app_assoc. f_equal. by rewrite take_drop. }
  assert (length (drop (length g) (b ++ g)) = length b) as Hl by (rewrite length_drop, length_app; lia).
  rewrite store_mid; [|rewrite length_app, length_take, length_app; lia|lia]. rewrite drop_ge by lia. cbn [app]. by rewrite <-!app_assoc.
Qed.
Lemma copy_left (a g b c : bytes) s e dest : s = Z.of_nat (length a + length g) → e = s + Z.of_nat (length b) → dest = Z.of_nat (length a) →
  ∃ g', copy_within (a ++ g ++ b ++ c) s e dest = Some (a ++ b ++ g' ++ c) ∧ length g' = length g.
Proof.
  intros -> -> ->. unfold copy_within. rewrite (app_assoc a), byte_range_mid by (rewrite ?length_app; lia). cbn [mbind option_bind].
  exists (drop (length b) (g ++ b)). split; [|rewrite length_drop, length_app; lia]. rewrite <-app_assoc, (app_assoc g), store_mid by (rewrite ?length_app; lia). done.
Qed.
Lemma store_right (a g c d : bytes) m k : m = Z.of_nat (length a + k) → length g = (k + length d)%nat →
  ∃ g', store (a ++ g ++ c) m d = Some (a ++ g' ++ d ++ c) ∧ length g' = k.
Proof.
  intros -> Hg. exists (take k g). split; [|rewrite length_take; lia]. rewrite <-(take_drop k g) at 1. rewrite <-app_assoc, (app_assoc a).
  assert (length (drop k g) = length d) as Hl by (rewrite length_drop; lia). rewrite store_mid by (rewrite ?length_app, ?length_take; lia). rewrite drop_ge by lia. cbn [app]. by rewrite <-!app_assoc.
Qed.
Lemma bump_table (a b : bytes) es j e d m : es !! j = Some e → m = Z.of_nat (length a) + 4 * Z.of_nat j → 0 ≤ e < 2 ^ 32 → 0 ≤ e + d < 2 ^ 32 →
  bump (a ++ table None es ++ b) m d = Some (a ++ table None (<[j := e + d]> es) ++ b).
Proof.
  intros He Hm Hlt Hlt'. unfold bump. rewrite (table_at a b es j e) by done. cbn [mbind option_bind]. rewrite try_u32_Some by done. cbn [mbind option_bind].
  pose proof (lookup_lt_Some _ _ _ He). rewrite (insert_take_drop es j) by done. rewrite <-(take_drop_middle _ _ _ He) at 1. rewrite !table_app.
  change (table None (e :: drop (S j) es)) with (le_bytes 4 e ++ table None (drop (S j) es)). change (table None (e + d :: drop (S j) es)) with (le_bytes 4 (e + d) ++ table None (drop (S j) es)).
  rewrite <-!app_assoc, (app_assoc a), store_mid.
  - rewrite drop_ge by (rewrite !length_le_bytes; lia). cbn [app]. by rewrite <-!app_assoc.
  - rewrite length_app, Nat2Z.inj_add, length_table, length_take. cbn [pointer_size]. lia.
  - rewrite !length_le_bytes. lia.
Qed.

Section leaf.
Context (kf vf : option Z).
Abbreviation keys l := (fst <$> l) (only parsing).
Abbreviation vals l := (snd <$> l) (only parsing).

(** Where the keys of [n] pairs start, and the end of everything. *)
Definition start_of (n : Z) : Z := 4 + pointer_size kf * n + pointer_size vf * n.
Definition leaf_size (l : list (bytes * bytes)) : Z := start_of (Z.of_nat (length l)) + size (fst <$> l) + size (snd <$> l).
Definition leaf_bytes (r : Byte.byte) (l : list (bytes * bytes)) (rest : bytes) : bytes :=
  let s := start_of (Z.of_nat (length l)) in
  preamble r (Z.of_nat (length l)) ++ table kf (ends s (fst <$> l)) ++ table vf (ends (s + size (fst <$> l)) (snd <$> l))
    ++ mjoin (fst <$> l) ++ mjoin (snd <$> l) ++ rest.
Definition leaf_fits (l : list (bytes * bytes)) : Prop :=
  0 < Z.of_nat (length l) < 2 ^ 16 ∧ widths kf (fst <$> l) ∧ widths vf (snd <$> l) ∧ leaf_size l < 2 ^ 32.
Definition leaf_is (p : bytes) (l : list (bytes * bytes)) : Prop := leaf_fits l ∧ ∃ r rest, p = leaf_bytes r l rest.

Lemma pointer_size_nonneg fixed : 0 ≤ pointer_size fixed.
Proof. destruct fixed; cbn; lia. Qed.
Lemma accessor_preamble r n rest : 0 ≤ n < 2 ^ 16 → accessor_new (preamble r n ++ rest) kf vf = Some (mkLeaf (preamble r n ++ rest) kf vf n).
Proof.
  intros Hn. unfold accessor_new. change ((preamble r n ++ rest) !! 0%nat) with (Some (z2b LEAF)). cbn [mbind option_bind].
  change (b2z (z2b LEAF) =? LEAF) with true. cbn [check mbind option_bind].
  assert (u16_at (preamble r n ++ rest) 2 = Some n) as ->; [|done]. unfold u16_at, preamble.
  change (z2b LEAF :: r :: le_bytes 2 n) with ([z2b LEAF; r] ++ le_bytes 2 n). rewrite <-app_assoc.
  rewrite byte_range_mid by (rewrite ?length_le_bytes; cbn [length]; lia). cbn [fmap option_fmap option_map]. f_equal. apply of_le_bytes_small. lia.
Qed.
Lemma accessor_ok p l : leaf_is p l → accessor_new p kf vf = Some (mkLeaf p kf vf (Z.of_nat (length l))).
Proof. intros ((Hn & _) & r & rest & ->). apply accessor_preamble. lia. Qed.
Lemma leaf_tables r l : Z.of_nat (length (preamble r (Z.of_nat (length l)) ++ table kf (ends (start_of (Z.of_nat (length l))) (fst <$> l))
  ++ table vf (ends (start_of (Z.of_nat (length l)) + size (fst <$> l)) (snd <$> l)))) = start_of (Z.of_nat (length l)).
Proof. rewrite !length_app, !Nat2Z.inj_add, !length_table, !length_ends, !length_fmap, length_preamble. unfold start_of. lia. Qed.

Lemma length_leaf r l rest : Z.of_nat (length (leaf_bytes r l rest)) = leaf_size l + Z.of_nat (length rest).
Proof. unfold leaf_bytes, leaf_size. pose proof (leaf_tables r l) as Ht. rewrite !length_app, !Nat2Z.inj_add in Ht. rewrite !length_app, !Nat2Z.inj_add, !length_mjoin_size. lia. Qed.

(** ** Reading a leaf *)
Definition key_off (l : list (bytes * bytes)) (j : nat) : Z := start_of (Z.of_nat (length l)) + size (take j (fst <$> l)).
Definition value_off (l : list (bytes * bytes)) (j : nat) : Z := start_of (Z.of_nat (length l)) + size (fst <$> l) + size (take j (snd <$> l)).
Abbreviation access p l := (mkLeaf p kf vf (Z.of_nat (length l))).

Lemma size_take_le j ps : 0 ≤ size (take j ps) ≤ size ps.
Proof. rewrite <-(take_drop j ps) at 3. rewrite size_app. pose proof (size_nonneg (take j ps)). pose proof (size_nonneg (drop j ps)). lia. Qed.
Lemma start_of_nonneg n : 0 ≤ n → 4 ≤ start_of n.
Proof. intros. unfold start_of. destruct kf, vf; cbn [pointer_size]; lia. Qed.
Lemma key_off_bounds l j : leaf_fits l → 4 ≤ key_off l j ≤ key_off l (length l) ∧ key_off l (length l) = value_off l 0 ∧ value_off l 0 ≤ value_off l j ≤ leaf_size l
  ∧ value_off l (length l) = leaf_size l ∧ leaf_size l < 2 ^ 32.
Proof.
  intros (Hn & _ & _ & Hs). unfold key_off, value_off, leaf_size in *. pose proof (start_of_nonneg (Z.of_nat (length l)) ltac:(lia)).
  pose proof (size_take_le j (fst <$> l)). pose proof (size_take_le j (snd <$> l)). rewrite !(firstn_all2 (n:=length l)) by (rewrite length_fmap; lia).
  rewrite !take_0, size_nil. lia.
Qed.
Lemma key_off_fixed l w j : leaf_fits l → kf = Some w → (j ≤ length l)%nat → key_off l j = start_of (Z.of_nat (length l)) + w * Z.of_nat j.
Proof.
  intros (_ & Hk & _) E Hj. rewrite E in Hk. unfold key_off. rewrite (widths_size w) by by apply widths_take. rewrite length_take, length_fmap, Nat.min_l by lia. done.
Qed.
Lemma value_off_fixed l w j : leaf_fits l → vf = Some w → (j ≤ length l)%nat → value_off l j = value_off l 0 + w * Z.of_nat j.
Proof.
  intros (_ & _ & Hv & _) E Hj. rewrite E in Hv. unfold value_off. rewrite (widths_size w (take j _)) by by apply widths_take. rewrite length_take, length_fmap, Nat.min_l, take_0, size_nil by lia. lia.
Qed.
Lemma key_end_ok p l j : leaf_is p l → (j < length l)%nat → key_end (access p l) (Z.of_nat j) = Some (key_off l (S j)).
Proof.
  intros (Hfit & r & rest & ->) Hj. unfold key_end. cbn [num_pairs fixed_key_size page]. rewrite (proj2 (Z.leb_gt _ _)) by lia.
  pose proof (key_off_bounds l (S j) Hfit) as Hb. destruct kf as [w|] eqn:Ek.
  - f_equal. rewrite (key_off_fixed l w (S j) Hfit) by (done || lia). unfold key_section_start, start_of. rewrite Ek. cbn [fixed_key_size fixed_value_size num_pairs]. lia.
  - unfold leaf_bytes. rewrite Ek. apply (table_at _ _ _ j); [rewrite ends_lookup by (rewrite length_fmap; lia); done|rewrite length_preamble; lia|lia].
Qed.
Lemma key_start_ok p l j : leaf_is p l → (j ≤ length l)%nat → key_start (access p l) (Z.of_nat j) = Some (key_off l j).
Proof.
  intros Hl Hj. unfold key_start. destruct j as [|j].
  - cbn [Z.of_nat Z.eqb]. f_equal. unfold key_off, key_section_start, start_of. cbn [num_pairs fixed_key_size fixed_value_size]. rewrite take_0, size_nil. lia.
  - rewrite (proj2 (Z.eqb_neq _ _)) by lia. replace (Z.of_nat (S j) - 1) with (Z.of_nat j) by lia. apply key_end_ok; [done|lia].
Qed.
Lemma value_end_ok p l j : leaf_is p l → (j < length l)%nat → value_end (access p l) (Z.of_nat j) = Some (value_off l (S j)).
Proof.
  intros Hl Hj. pose proof Hl as (Hfit & r & rest & E). unfold value_end. cbn [num_pairs fixed_key_size fixed_value_size page]. rewrite (proj2 (Z.leb_gt _ _)) by lia.
  pose proof (key_off_bounds l (S j) Hfit) as Hb. destruct vf as [w|] eqn:Ev.
  - unfold sub_usize. rewrite (proj2 (Z.leb_le _ _)) by lia. cbn [check mbind option_bind]. replace (Z.of_nat (length l) - 1) with (Z.of_nat (pred (length l))) by lia.
    rewrite <-Ev at 1. rewrite key_end_ok by (done || lia). cbn [mbind option_bind]. replace (S (pred (length l))) with (length l) by lia. f_equal.
    rewrite (value_off_fixed l w (S j) Hfit) by (done || lia). lia.
  - rewrite E. unfold leaf_bytes. rewrite Ev, (app_assoc (preamble _ _)). apply (table_at _ _ _ j).
    + rewrite ends_lookup by (rewrite length_fmap; lia). done.
    + rewrite length_app, Nat2Z.inj_add, length_table, length_ends, length_fmap, length_preamble. lia.
    + lia.
Qed.
Lemma value_start_ok p l j : leaf_is p l → (j ≤ length l)%nat → value_start (access p l) (Z.of_nat j) = Some (value_off l j).
Proof.
  intros Hl Hj. pose proof Hl as (Hfit & _). destruct (key_off_bounds l 0 Hfit) as (_ & E & _). pose proof Hfit as (Hn & _). unfold value_start. destruct j as [|j].
  - cbn [Z.of_nat Z.eqb num_pairs]. unfold sub_usize. rewrite (proj2 (Z.leb_le _ _)) by lia. cbn [check mbind option_bind].
    replace (Z.of_nat (length l) - 1) with (Z.of_nat (pred (length l))) by lia. rewrite key_end_ok by (done || lia). replace (S (pred (length l))) with (length l) by lia. by f_equal.
  - rewrite (proj2 (Z.eqb_neq _ _)) by lia. replace (Z.of_nat (S j) - 1) with (Z.of_nat j) by lia. apply value_end_ok; [done|lia].
Qed.
Lemma last_ok l : leaf_fits l → sub_usize (Z.of_nat (length l)) 1 = Some (Z.of_nat (pred (length l))) ∧ S (pred (length l)) = length l.
Proof. intros (Hn & _). unfold sub_usize. rewrite (proj2 (Z.leb_le _ _)) by lia. cbn [check mbind option_bind]. split; [f_equal|]; lia. Qed.
Lemma total_length_ok p l : leaf_is p l → total_length (access p l) = Some (leaf_size l) ∧ leaf_size l ≤ Z.of_nat (length p).
Proof.
  intros Hl. pose proof Hl as (Hfit & r & rest & E). destruct (last_ok l Hfit) as [El Es]. destruct (key_off_bounds l 0 Hfit) as (_ & _ & _ & Ev & _). split.
  - unfold total_length. cbn [num_pairs]. rewrite El. cbn [mbind option_bind]. rewrite value_end_ok by (done || lia). by rewrite Es, Ev.
  - rewrite E, length_leaf. lia.
Qed.
(** The key and the value of a pair, where its ends say. *)
Lemma pair_at p l j k v : leaf_is p l → l !! j = Some (k, v) →
  byte_range p (key_off l j) (key_off l (S j)) = Some k ∧ byte_range p (value_off l j) (value_off l (S j)) = Some v.
Proof.
  intros (Hfit & r & rest & ->) Hj. unfold leaf_bytes, key_off, value_off. pose proof (leaf_tables r l) as Ht.
  rewrite !app_assoc in Ht. rewrite !app_assoc. rewrite <-(app_assoc _ (mjoin (snd <$> l)) rest).
  split.
  - rewrite <-app_assoc. apply (part_at _ _ _ j); [by rewrite list_lookup_fmap, Hj|lia|lia].
  - apply (part_at _ _ _ j); [by rewrite list_lookup_fmap, Hj|..]; rewrite length_app, Nat2Z.inj_add, Ht, length_mjoin_size; lia.
Qed.
Lemma leaf_entry_ok p l j : leaf_is p l → entry (access p l) (Z.of_nat j) = Some (l !! j).
Proof.
  intros Hl. destruct (l !! j) as [[k v]|] eqn:Ej.
  - pose proof (lookup_lt_Some _ _ _ Ej). destruct (pair_at p l j k v Hl Ej) as [Hk Hv]. unfold entry.
    rewrite key_start_ok, key_end_ok, value_start_ok, value_end_ok by (done || lia). cbn [page]. rewrite Hk. cbn [mbind option_bind]. by rewrite Hv.
  - apply lookup_ge_None in Ej. unfold entry. assert (key_end (access p l) (Z.of_nat j) = None) as ->.
    { unfold key_end. cbn [num_pairs]. by rewrite (proj2 (Z.leb_le _ _)) by lia. }
    by destruct (key_start _ _).
Qed.
Lemma key_unchecked_ok p l j k v : leaf_is p l → l !! j = Some (k, v) → key_unchecked (access p l) (Z.of_nat j) = Some k.
Proof.
  intros Hl Ej. pose proof (lookup_lt_Some _ _ _ Ej). unfold key_unchecked. rewrite key_start_ok, key_end_ok by (done || lia). cbn [mbind option_bind page].
  by apply (pair_at p l j k v).
Qed.

(** ** The search of a key *)
Section position.
Context `{Key}.
Lemma search_ok p l query fuel lo hi : leaf_is p l → ascending (fst <$> l) → (lo ≤ hi ≤ length l)%nat → (hi - lo < fuel)%nat →
  (∀ j k, (j < lo)%nat → (fst <$> l) !! j = Some k → key_compare query k = Gt) →
  (∀ j k, (hi ≤ j)%nat → (fst <$> l) !! j = Some k → key_compare query k = Lt) →
  ∃ i found, search fuel (access p l) query (Z.of_nat lo) (Z.of_nat hi) = Some (Z.of_nat i, found) ∧ located (fst <$> l) query i found.
Proof.
  intros Hl Hasc. revert lo hi. induction fuel as [|fuel IH]; intros lo hi Hr Hfuel Hlo Hhi; [lia|]. cbn [search].
  destruct (Z.ltb_spec (Z.of_nat lo) (Z.of_nat hi)) as [Hlt|Hge].
  2: { assert (lo = hi) as <- by lia. exists lo, false. split; [done|]. split; [rewrite length_fmap; lia|done]. }
  set (mid := ((lo + hi) / 2)%nat). assert ((Z.of_nat lo + Z.of_nat hi) / 2 = Z.of_nat mid) as -> by (unfold mid; by rewrite Nat2Z.inj_div, Nat2Z.inj_add).
  assert (lo ≤ mid < hi)%nat as Hmid.
  { unfold mid. pose proof (Nat.div_le_lower_bound (lo + hi) 2 lo). pose proof (Nat.div_lt_upper_bound (lo + hi) 2 hi). lia. }
  clearbody mid. destruct (lookup_lt_is_Some_2 l mid) as [[k v] Ek]; [lia|]. rewrite (key_unchecked_ok p l mid k v Hl Ek). cbn [mbind option_bind].
  assert ((fst <$> l) !! mid = Some k) as Ekk by by rewrite list_lookup_fmap, Ek.
  destruct (key_compare query k) eqn:Hc.
  - exists mid, true. split; [done|]. split; [rewrite length_fmap; lia|]. split; [|by exists k].
    intros j k' Hj Ej. apply (key_eq_lt query k); [done|]. by apply (Hasc j mid).
  - destruct (IH lo mid) as (i & found & E & Hi); [lia|lia|done| |by exists i, found].
    intros j k' Hj Ej. destruct (decide (j = mid)) as [->|]; [congruence|]. apply (key_lt_trans query k); [done|]. apply (Hasc mid j); [lia|done|done].
  - replace (Z.of_nat mid + 1) with (Z.of_nat (S mid)) by lia. destruct (IH (S mid) hi) as (i & found & E & Hi); [lia|lia| |done|by exists i, found].
    intros j k' Hj Ej. destruct (decide (j = mid)) as [->|]; [congruence|]. apply key_flip. apply (key_lt_trans k' k); [apply (Hasc j mid); [lia|done|done]|by apply key_flip].
Qed.
Lemma position_ok p l query : leaf_is p l → ascending (fst <$> l) →
  ∃ i found, position (access p l) query = Some (Z.of_nat i, found) ∧ located (fst <$> l) query i found.
Proof.
  intros Hl Hasc. unfold position. cbn [num_pairs]. rewrite Nat2Z.id. apply (search_ok p l query _ 0 (length l)); [done|done|lia|lia|intros; lia|].
  intros j k Hj E. apply lookup_lt_Some in E. rewrite length_fmap in E. lia.
Qed.
End position.

(** ** Building a leaf *)

(** The builder after [m] of the pairs [l]: what is not written yet is anything. *)
Definition raw_is (l : list (bytes * bytes)) (m : nat) (b : RawLeafBuilder) : Prop :=
  let n := Z.of_nat (length l) in let s := start_of n in let ks := fst <$> l in let vs := snd <$> l in
  raw_key_size b = kf ∧ raw_value_size b = vf ∧ raw_num_pairs b = n ∧ provisioned_key_bytes b = size ks ∧ pairs_written b = Z.of_nat m
  ∧ ∃ r j1 j2 jk rest, raw_page b = preamble r n ++ table kf (ends s (take m ks)) ++ j1 ++ table vf (ends (s + size ks) (take m vs)) ++ j2
      ++ mjoin (take m ks) ++ jk ++ mjoin (take m vs) ++ rest
    ∧ Z.of_nat (length j1) = pointer_size kf * (n - Z.of_nat m) ∧ Z.of_nat (length j2) = pointer_size vf * (n - Z.of_nat m)
    ∧ Z.of_nat (length jk) = size (drop m ks) ∧ size (drop m vs) ≤ Z.of_nat (length rest).

Lemma raw_new_ok mem l : leaf_fits l → leaf_size l ≤ Z.of_nat (length mem) →
  ∃ b, raw_new mem (Z.of_nat (length l)) kf vf (size (fst <$> l)) = Some b ∧ raw_is l 0 b ∧ length (raw_page b) = length mem.
Proof.
  intros (Hn & _) Hmem. unfold leaf_size in Hmem. set (n := Z.of_nat (length l)) in *. pose proof (size_nonneg (fst <$> l)) as Hk. pose proof (size_nonneg (snd <$> l)) as Hv.
  pose proof (pointer_size_nonneg kf) as Hkp. pose proof (pointer_size_nonneg vf) as Hvp. assert (0 ≤ pointer_size kf * n) as Hkn by nia. assert (0 ≤ pointer_size vf * n) as Hvn by nia.
  unfold start_of in Hmem. destruct mem as [|c0 [|c1 [|c2 [|c3 T]]]]; cbn [length] in Hmem; try lia.
  unfold raw_new. pose proof (store_mid [] [c0] (c1 :: c2 :: c3 :: T) [z2b LEAF] 0) as E0. cbn [app] in E0. rewrite E0 by (cbn [length]; lia). clear E0. cbn [mbind option_bind app length drop].
  rewrite try_u16_Some by lia. cbn [mbind option_bind].
  pose proof (store_mid [z2b LEAF; c1] [c2; c3] T (le_bytes 2 n) 2) as E0. cbn [app] in E0. rewrite E0 by (cbn [length]; rewrite ?length_le_bytes; cbn; lia). clear E0.
  cbn [mbind option_bind]. rewrite length_le_bytes. change (drop 2 [c2; c3]) with (@nil Byte.byte). cbn [app].
  change (z2b LEAF :: c1 :: le_bytes 2 n ++ T) with (preamble c1 n ++ T). set (k := Z.to_nat (4 + pointer_size kf * n + pointer_size vf * n - 4)).
  assert (k ≤ length T)%nat as HkT by (unfold k; lia). pose proof (store_mid (preamble c1 n) (take k T) (drop k T) (replicate k Byte.xff) 4) as E0.
  rewrite take_drop, length_preamble, length_replicate, length_take in E0. rewrite E0 by lia. clear E0. rewrite (drop_ge (take k T)) by (rewrite length_take; lia).
  cbn [app mbind option_bind].
  eexists. split; [done|]. split; [|cbn [raw_page]; rewrite !length_app, length_preamble, length_replicate, length_drop; cbn [length]; lia].
  unfold raw_is. cbn [raw_key_size raw_value_size raw_num_pairs provisioned_key_bytes pairs_written raw_page]. split_and!; try done.
  - exists c1, (replicate (Z.to_nat (pointer_size kf * n)) Byte.xff), (replicate (Z.to_nat (pointer_size vf * n)) Byte.xff),
      (take (Z.to_nat (size (fst <$> l))) (drop k T)), (drop (Z.to_nat (size (fst <$> l))) (drop k T)).
    rewrite !take_0, !drop_0. cbn [ends]. assert (∀ fixed, table fixed [] = []) as Ht by by destruct fixed. rewrite !Ht. cbn [mjoin list_join app]. rewrite !length_replicate, length_take, !length_drop.
    split_and!; [|lia|lia|lia|lia]. f_equal. rewrite take_drop, app_assoc, <-replicate_add. do 2 f_equal. unfold k. lia.
Qed.
Lemma raw_offsets l m b : leaf_fits l → raw_is l m b → (m < length l)%nat →
  (if pairs_written b =? 0 then Some (raw_key_section_start b) else raw_key_end b (pairs_written b - 1)) = Some (key_off l m)
  ∧ (if pairs_written b =? 0 then Some (raw_key_section_start b + provisioned_key_bytes b) else raw_value_end b (pairs_written b - 1)) = Some (value_off l m)
  ∧ raw_key_section_start b = start_of (Z.of_nat (length l)).
Proof.
  intros Hfit (Ek & Ev & En & Ep & Ew & r & j1 & j2 & jk & rest & Epage & Hj1 & Hj2 & _) Hm.
  assert (raw_key_section_start b = start_of (Z.of_nat (length l))) as Es by (unfold raw_key_section_start, start_of; rewrite Ek, Ev, En; done).
  rewrite Ew, Es, Ep. pose proof (key_off_bounds l m Hfit) as Hb. destruct m as [|m].
  { cbn [Z.of_nat Z.eqb]. unfold key_off, value_off. rewrite !take_0, size_nil, !Z.add_0_r. done. }
  rewrite (proj2 (Z.eqb_neq _ _)) by lia. replace (Z.of_nat (S m) - 1) with (Z.of_nat m) by lia. split; [|split; [|done]].
  - unfold raw_key_end. rewrite Ek, Es. destruct kf as [w|] eqn:E.
    + rewrite (key_off_fixed l w (S m) Hfit) by (done || lia). f_equal. lia.
    + rewrite Epage. apply (table_at _ _ _ m); [|rewrite length_preamble; lia|lia].
      rewrite ends_lookup by (rewrite length_take, length_fmap; lia). rewrite take_take, Nat.min_id. done.
  - unfold raw_value_end. rewrite Ek, Ev, Es, Ep, En. destruct vf as [w|] eqn:E.
    + rewrite (value_off_fixed l w (S m) Hfit) by (done || lia). unfold value_off. rewrite take_0, size_nil. f_equal. lia.
    + rewrite Epage, (app_assoc (preamble _ _)), (app_assoc _ j1). apply (table_at _ _ _ m); [| |lia].
      * rewrite ends_lookup by (rewrite length_take, length_fmap; lia). rewrite take_take, Nat.min_id. done.
      * rewrite !length_app, !Nat2Z.inj_add, length_preamble, length_table, length_ends, length_take, length_fmap, Nat.min_l, Hj1 by lia. lia.
Qed.
Lemma length_part l m k v : l !! m = Some (k, v) → key_off l (S m) = key_off l m + Z.of_nat (length k) ∧ value_off l (S m) = value_off l m + Z.of_nat (length v).
Proof.
  intros E. unfold key_off, value_off. rewrite (take_S_r (fst <$> l) m k), (take_S_r (snd <$> l) m v) by by rewrite list_lookup_fmap, E.
  rewrite !size_app, !size_cons, size_nil. lia.
Qed.
Lemma size_drop_S ps m p : ps !! m = Some p → size (drop m ps) = Z.of_nat (length p) + size (drop (S m) ps).
Proof. intros E. by rewrite (drop_S _ _ _ E), size_cons. Qed.
Lemma fixed_width fixed ps m p : widths fixed ps → ps !! m = Some p → has_width fixed p = true.
Proof. destruct fixed as [w|]; [|done]. intros Hw E. apply Z.eqb_eq. symmetry. exact (proj1 (Forall_lookup _ _) Hw m p E). Qed.
Lemma append_ok l m b k v : leaf_fits l → raw_is l m b → l !! m = Some (k, v) → ∃ b', append b k v = Some b' ∧ raw_is l (S m) b'.
Proof.
  intros Hfit Hb Elv. pose proof (lookup_lt_Some _ _ _ Elv) as Hm. destruct (raw_offsets l m b Hfit Hb Hm) as (Eko & Evo & Es).
  destruct Hb as (Ek & Ev & En & Ep & Ew & r & j1 & j2 & jk & rest & Epage & Hj1 & Hj2 & Hjk & Hrest).
  destruct (length_part l m k v Elv) as [Lk Lv]. pose proof (key_off_bounds l (S m) Hfit) as Hbk. pose proof (key_off_bounds l m Hfit) as Hbm. pose proof Hfit as (Hn & Hwk & Hwv & Hsz).
  assert ((fst <$> l) !! m = Some k) as Elk by by rewrite list_lookup_fmap, Elv. assert ((snd <$> l) !! m = Some v) as Elvv by by rewrite list_lookup_fmap, Elv.
  rewrite (size_drop_S _ _ _ Elk) in Hjk. rewrite (size_drop_S _ _ _ Elvv) in Hrest. pose proof (size_nonneg (drop (S m) (fst <$> l))). pose proof (size_nonneg (drop (S m) (snd <$> l))).
  set (n := Z.of_nat (length l)) in *. set (s := start_of n) in *. set (ks := fst <$> l) in *. set (vs := snd <$> l) in *.
  assert (key_off l m = s + size (take m ks)) as Eko' by done. assert (value_off l m = s + size ks + size (take m vs)) as Evo' by done.
  assert (size (take (S m) ks) = size (take m ks) + Z.of_nat (length k)) as Esk by (rewrite (take_S_r ks m k), size_app, size_cons, size_nil by done; lia).
  pose proof (size_take_le m ks). pose proof (size_take_le (S m) ks). pose proof (size_take_le m vs).
  assert (size ks = size (take (S m) ks) + size (drop (S m) ks)) as Esum by (by rewrite <-size_app, take_drop).
  unfold append. rewrite Ek, Ev, (fixed_width kf ks m k), (fixed_width vf vs m v) by done. cbn [check mbind option_bind]. rewrite Eko. cbn [mbind option_bind]. rewrite Evo. cbn [mbind option_bind].
  rewrite Ew, Ep, En, Es, Epage.
  destruct (store_end_ok kf (preamble r n) j1 (table vf (ends (s + size ks) (take m vs)) ++ j2 ++ mjoin (take m ks) ++ jk ++ mjoin (take m vs) ++ rest) (ends s (take m ks))
    (4 + 4 * Z.of_nat m) (key_off l m + Z.of_nat (length k)) (n - Z.of_nat m) Hj1) as (j1' & -> & Hj1'); [lia|lia|rewrite length_ends, length_take, length_preamble; unfold ks; rewrite length_fmap; lia|].
  cbn [mbind option_bind]. set (tk := table kf (ends s (take m ks) ++ _)). set (tv := table vf (ends (s + size ks) (take m vs))).
  assert (Z.of_nat (length (preamble r n ++ tk ++ j1' ++ tv ++ j2)) = s) as Hpre.
  { unfold tk, tv. rewrite !length_app, !Nat2Z.inj_add, !length_table, Hj1', Hj2, length_app, !length_ends, !length_take, length_preamble. unfold ks, vs. rewrite !length_fmap. cbn [length].
    rewrite !Nat.min_l by lia. unfold s, start_of. lia. }
  assert (preamble r n ++ tk ++ j1' ++ tv ++ j2 ++ mjoin (take m ks) ++ jk ++ mjoin (take m vs) ++ rest
    = (preamble r n ++ tk ++ j1' ++ tv ++ j2 ++ mjoin (take m ks)) ++ jk ++ mjoin (take m vs) ++ rest) as -> by by rewrite <-!app_assoc.
  rewrite store_mid by (rewrite ?(app_assoc j2), ?(app_assoc tv), ?(app_assoc j1'), ?(app_assoc tk), ?(app_assoc (preamble r n)) in *; rewrite ?length_app, ?Nat2Z.inj_add in *; unfold key_off, size in *; fold n s ks; lia).
  cbn [mbind option_bind].
  rewrite sub_usize_Some by lia. cbn [mbind option_bind]. rewrite (proj2 (Z.leb_le _ _)) by lia. cbn [check mbind option_bind].
  set (jk' := drop (length k) jk). assert (Z.of_nat (length jk') = size (drop (S m) ks)) as Hjk' by (unfold jk'; rewrite length_drop; lia).
  assert ((preamble r n ++ tk ++ j1' ++ tv ++ j2 ++ mjoin (take m ks)) ++ k ++ jk' ++ mjoin (take m vs) ++ rest
    = (preamble r n ++ tk ++ j1') ++ tv ++ j2 ++ mjoin (take m ks) ++ k ++ jk' ++ mjoin (take m vs) ++ rest) as -> by by rewrite <-!app_assoc.
  destruct (store_end_ok vf (preamble r n ++ tk ++ j1') j2 (mjoin (take m ks) ++ k ++ jk' ++ mjoin (take m vs) ++ rest) (ends (s + size ks) (take m vs))
    (4 + 4 * Z.of_nat m + pointer_size kf * n) (value_off l m + Z.of_nat (length v)) (n - Z.of_nat m) Hj2) as (j2' & E2 & Hj2'); [lia|lia| |].
  { unfold tk. rewrite !length_app, !Nat2Z.inj_add, length_table, length_app, !length_ends, !length_take, length_preamble, Hj1'. unfold ks, vs. rewrite !length_fmap. cbn [length]. rewrite !Nat.min_l by lia. lia. }
  fold tv in E2. rewrite E2. cbn [mbind option_bind]. clear E2. set (tv' := table vf (ends (s + size ks) (take m vs) ++ _)).
  assert ((preamble r n ++ tk ++ j1') ++ tv' ++ j2' ++ mjoin (take m ks) ++ k ++ jk' ++ mjoin (take m vs) ++ rest
    = (preamble r n ++ tk ++ j1' ++ tv' ++ j2' ++ mjoin (take m ks) ++ k ++ jk' ++ mjoin (take m vs)) ++ rest ++ []) as Epg by by rewrite app_nil_r, <-!app_assoc.
  assert (Z.of_nat (length (preamble r n ++ tk ++ j1' ++ tv' ++ j2')) = s) as Hpre'.
  { unfold tk, tv'. rewrite !length_app, !Nat2Z.inj_add, !length_table, Hj1', Hj2', !length_app, !length_ends, !length_take, length_preamble. unfold ks, vs. rewrite !length_fmap. cbn [length].
    rewrite !Nat.min_l by lia. unfold s, start_of. lia. }
  rewrite Epg, store_mid.
  2: { rewrite !length_app, !Nat2Z.inj_add in *. rewrite !length_mjoin_size. lia. }
  2: lia.
  cbn [mbind option_bind]. eexists. split; [done|].
  unfold raw_is. cbn [raw_key_size raw_value_size raw_num_pairs provisioned_key_bytes pairs_written raw_page]. fold n s ks vs. split_and!; [done|done|done|done|lia|].
  exists r, j1', j2', jk', (drop (length v) rest). rewrite (take_S_r ks m k), (take_S_r vs m v), !ends_app, !mjoin_app, !mjoin_cons by done. cbn [ends mjoin list_join].
  rewrite <-Eko', <-Evo', !app_nil_r, <-!app_assoc, length_drop. split_and!; [done|lia|lia|lia|lia].
Qed.
Lemma appends_ok l m b : leaf_fits l → raw_is l m b → (m ≤ length l)%nat →
  ∃ b', fold_opt (λ b pair, append b pair.1 pair.2) b (drop m l) = Some b' ∧ raw_is l (length l) b' ∧ length (raw_page b') = length (raw_page b).
Proof.
  intros Hfit. remember (length l - m)%nat as d eqn:Ed. revert m b Ed. induction d as [|d IH]; intros m b Ed Hb Hm.
  - rewrite drop_ge by lia. assert (m = length l) as -> by lia. by exists b.
  - destruct (lookup_lt_is_Some_2 l m) as [[k v] E]; [lia|]. rewrite (drop_S _ _ _ E). cbn [fold_opt fst snd].
    destruct (append_ok l m b k v Hfit Hb E) as (b1 & E1 & Hb1). rewrite E1. cbn [mbind option_bind].
    destruct (IH (S m) b1) as (b' & E' & Hb' & Hl); [lia|done|lia|]. exists b'. split; [done|]. split; [done|]. rewrite Hl. by eapply append_length.
Qed.
Lemma raw_drop_ok l b : leaf_fits l → raw_is l (length l) b → raw_drop b = Some (raw_page b) ∧ leaf_is (raw_page b) l.
Proof.
  intros Hfit Hb. pose proof Hb as (Ek & Ev & En & Ep & Ew & r & j1 & j2 & jk & rest & Epage & Hj1 & Hj2 & Hjk & Hrest).
  rewrite !(firstn_all2 (n:=length l)) in Epage by (rewrite length_fmap; lia). rewrite (drop_ge (fst <$> l)) in Hjk by (rewrite length_fmap; lia).
  rewrite size_nil in Hjk. destruct j1; [|cbn in Hj1; lia]. destruct j2; [|cbn in Hj2; lia]. destruct jk; [|cbn in Hjk; lia]. cbn [app] in Epage.
  assert (leaf_is (raw_page b) l) as Hl by (split; [done|]; by exists r, rest). split; [|done].
  unfold raw_drop. rewrite Ew, En, Z.eqb_refl. cbn [check mbind option_bind]. destruct (last_ok l Hfit) as [El Es]. rewrite El. cbn [mbind option_bind].
  assert (raw_key_end b (Z.of_nat (pred (length l))) = key_end (access (raw_page b) l) (Z.of_nat (pred (length l)))) as ->.
  { unfold raw_key_end, key_end, raw_key_section_start, key_section_start. rewrite Ek, Ev, En. cbn [num_pairs fixed_key_size fixed_value_size page].
    rewrite (proj2 (Z.leb_gt _ _)) by lia. done. }
  rewrite key_end_ok by (done || lia). cbn [mbind option_bind]. rewrite Es. destruct (key_off_bounds l 0 Hfit) as (_ & E & _).
  assert (raw_key_section_start b + provisioned_key_bytes b =? key_off l (length l) = true) as ->; [|done].
  apply Z.eqb_eq. unfold raw_key_section_start. rewrite Ek, Ev, En, Ep, E. unfold value_off, start_of. rewrite take_0, size_nil. lia.
Qed.
Lemma build_page_ok mem b l : key_size b = kf → value_size b = vf → leaf_fits l → leaf_size l ≤ Z.of_nat (length mem) →
  ∃ p, build_page mem b l (size (fst <$> l)) = Some p ∧ leaf_is p l ∧ length p = length mem.
Proof.
  intros Ek Ev Hfit Hmem. unfold build_page. rewrite Ek, Ev. destruct (raw_new_ok mem l Hfit Hmem) as (b0 & -> & Hb0 & Hl0). cbn [mbind option_bind].
  destruct (appends_ok l 0 b0 Hfit Hb0) as (b1 & E1 & Hb1 & Hl1); [lia|]. rewrite drop_0 in E1. rewrite E1. cbn [mbind option_bind].
  destruct (raw_drop_ok l b1 Hfit Hb1) as [-> Hl]. exists (raw_page b1). split; [done|]. split; [done|congruence].
Qed.

Definition builder_is (b : LeafBuilder) (l : list (bytes * bytes)) : Prop :=
  pairs b = l ∧ key_size b = kf ∧ value_size b = vf ∧ total_key_bytes b = size (fst <$> l) ∧ total_value_bytes b = size (snd <$> l).
Lemma builder_new_ok : builder_is (builder_new kf vf) [].
Proof. done. Qed.
Lemma push_ok b l k v : builder_is b l → builder_is (push b k v) (l ++ [(k, v)]).
Proof.
  intros (E & Ek & Ev & Etk & Etv). unfold builder_is, push. cbn [pairs key_size value_size total_key_bytes total_value_bytes].
  rewrite E, !fmap_app, !size_app, Etk, Etv. cbn [fmap list_fmap fst snd]. rewrite !size_cons, size_nil. split_and!; try done; lia.
Qed.
Definition all_except (except : option nat) (k : list (bytes * bytes)) : list (bytes * bytes) :=
  match except with Some i => delete i k | None => k end.
Lemma push_all_except_ok b l p k except : builder_is b l → leaf_is p k →
  ∃ b', push_all_except b (access p k) (Z.of_nat <$> except) = Some b' ∧ builder_is b' (l ++ all_except except k).
Proof.
  intros Hb Hk. unfold push_all_except. cbn [num_pairs].
  set (kept := λ j, match except with Some i => take (i `min` j) k ++ drop (S i) (take j k) | None => take j k end).
  match goal with |- context [fold_opt ?f _ _] => destruct (fold_range f (λ i b, builder_is b (l ++ kept (Z.to_nat i))) 0 (Z.of_nat (length k)) b) as (b' & E & Hb') end.
  - lia.
  - assert (kept 0%nat = []) as E by (unfold kept; destruct except; rewrite ?Nat.min_0_r, take_0, ?drop_nil; done). change (Z.to_nat 0) with 0%nat. by rewrite E, app_nil_r.
  - intros i b1 Hi Hb1. rewrite <-(Z2Nat.id i) in Hi |- * by lia. set (j := Z.to_nat i) in *. replace (Z.to_nat (Z.of_nat j + 1)) with (S j) by lia. clearbody j.
    destruct (lookup_lt_is_Some_2 k j) as [[key value] Ej]; [lia|]. destruct (bool_decide_reflect (Z.of_nat <$> except = Some (Z.of_nat j))) as [He|He].
    + exists b1. split; [done|]. destruct except as [x|]; [|done]. apply (inj Some) in He. assert (x = j) as -> by lia. unfold kept in *.
      rewrite !Nat.min_l, !(drop_ge (take _ k)) in * by (rewrite ?length_take; lia). done.
    + rewrite leaf_entry_ok, Ej by done. cbn [mbind option_bind]. eexists. split; [done|]. assert (kept (S j) = kept j ++ [(key, value)]) as ->; [|rewrite app_assoc; by apply push_ok].
      unfold kept. destruct except as [x|]; [|by apply take_S_r]. rewrite (take_S_r _ _ _ Ej). assert (x ≠ j) by (intros ->; done). destruct (decide (j < x)%nat).
      * rewrite !Nat.min_r, !(drop_ge (_ ++ _)), !(drop_ge (take _ k)), !app_nil_r by (rewrite ?length_app, ?length_take; cbn [length]; lia). by apply take_S_r.
      * rewrite !Nat.min_l, drop_app_le by (rewrite ?length_take; lia). by rewrite app_assoc.
  - exists b'. split; [done|]. rewrite Z.add_0_l, Nat2Z.id in Hb'. assert (kept (length k) = all_except except k) as <-; [|done].
    unfold kept, all_except. destruct except as [x|]; [|by rewrite firstn_all]. rewrite delete_take_drop, firstn_all. f_equal.
    destruct (decide (x ≤ length k)%nat); [by rewrite Nat.min_l by lia|by rewrite Nat.min_r, firstn_all, (take_ge k x) by lia].
Qed.
Lemma required_ok l b : builder_is b l → required_bytes (Z.of_nat (length l)) (total_key_bytes b + total_value_bytes b) (key_size b) (value_size b) = leaf_size l.
Proof. intros (_ & -> & -> & -> & ->). unfold required_bytes, leaf_size, start_of. lia. Qed.
Section memory.
Context {S : Type} `{PageMemory S}.
Lemma build_ok b l s : builder_is b l → leaf_fits l → ∃ out s', build b s = Some (out, s')
  ∧ match out with Ok (p, page) => leaf_is page l ∧ ∃ mem, allocate s (leaf_size l) = (Ok (p, mem), s') ∧ length page = length mem
    | Err e => allocate s (leaf_size l) = (Err e, s') end.
Proof.
  intros Hb Hfit. pose proof Hb as (E & Ek & Ev & Etk & Etv). unfold build. rewrite E, (required_ok l b Hb).
  destruct (allocate s (leaf_size l)) as [[[p mem]|e] s'] eqn:Ea; [|by exists (Err e), s'].
  pose proof (allocate_size _ _ _ _ _ Ea) as Hsize. rewrite Etk. destruct (build_page_ok mem b l Ek Ev Hfit Hsize) as (page & -> & Hp & Hl).
  cbn [mbind option_bind]. exists (Ok (p, page)), s'. split; [done|]. split; [done|]. by exists mem.
Qed.
(** How many bytes the first [j] pairs have. *)
Definition bytes_of (l : list (bytes * bytes)) : Z := size (fst <$> l) + size (snd <$> l).
Lemma bytes_of_snoc l k v : bytes_of (l ++ [(k, v)]) = bytes_of l + Z.of_nat (length k) + Z.of_nat (length v).
Proof. unfold bytes_of. rewrite !fmap_app, !size_app. cbn [fmap list_fmap fst snd]. rewrite !size_cons, size_nil. lia. Qed.
Lemma divide_ok total pre todo : todo ≠ [] → (∀ j, (0 < j ≤ length pre)%nat → bytes_of (take j pre) < total / 2) →
  ∃ j, (0 < j ≤ length todo)%nat
    ∧ divide total todo (Z.of_nat (length pre)) (size (fst <$> pre)) (size (snd <$> pre))
      = (Z.of_nat (length pre + j), size (fst <$> take (length pre + j) (pre ++ todo)), size (snd <$> take (length pre + j) (pre ++ todo)))
    ∧ ∀ i, (0 < i < length pre + j)%nat → bytes_of (take i (pre ++ todo)) < total / 2.
Proof.
  revert pre. induction todo as [|[k v] todo IH]; intros pre Hne Hdone; [done|]. clear Hne. cbn [divide].
  set (pre' := pre ++ [(k, v)]). assert (size (fst <$> pre) + Z.of_nat (length k) = size (fst <$> pre')) as ->.
  { unfold pre'. rewrite fmap_app, size_app. cbn [fmap list_fmap fst]. rewrite size_cons, size_nil. lia. }
  assert (size (snd <$> pre) + Z.of_nat (length v) = size (snd <$> pre')) as ->.
  { unfold pre'. rewrite fmap_app, size_app. cbn [fmap list_fmap snd]. rewrite size_cons, size_nil. lia. }
  assert (length pre' = Datatypes.S (length pre)) as Hl' by (unfold pre'; rewrite length_app; cbn; lia).
  replace (Z.of_nat (length pre) + 1) with (Z.of_nat (length pre')) by lia.
  assert (pre ++ (k, v) :: todo = pre' ++ todo) as -> by (unfold pre'; by rewrite <-app_assoc).
  assert (∀ i, (i ≤ length pre)%nat → take i (pre' ++ todo) = take i pre) as Htake.
  { intros i Hi. unfold pre'. by rewrite <-app_assoc, take_app_le. }
  assert (∀ j, todo = [] ∨ total / 2 ≤ bytes_of pre' → j = 1%nat → (0 < j ≤ length ((k, v) :: todo))%nat
    ∧ (Z.of_nat (length pre'), size (fst <$> pre'), size (snd <$> pre'))
      = (Z.of_nat (length pre + j), size (fst <$> take (length pre + j) (pre' ++ todo)), size (snd <$> take (length pre + j) (pre' ++ todo)))
    ∧ ∀ i, (0 < i < length pre + j)%nat → bytes_of (take i (pre' ++ todo)) < total / 2) as Hstop.
  { intros j _ ->. cbn [length]. split; [lia|]. replace (length pre + 1)%nat with (length pre') by lia. rewrite take_app_length. split; [done|].
    intros i Hi. rewrite Htake by lia. apply Hdone. lia. }
  destruct (Z.leb_spec (total / 2) (size (fst <$> pre') + size (snd <$> pre'))) as [Hge|Hlt].
  - exists 1%nat. apply Hstop; [by right|done].
  - destruct todo as [|x todo]; [exists 1%nat; apply Hstop; [by left|done]|]. destruct (IH pre') as (j & Hj & E & Hall); [done| |].
    + intros i Hi. destruct (decide (i ≤ length pre)%nat); [|rewrite firstn_all2 by lia; exact Hlt].
      unfold pre'. rewrite take_app_le by done. apply Hdone. lia.
    + exists (Datatypes.S j). cbn [length] in *. split; [lia|]. replace (length pre + Datatypes.S j)%nat with (length pre' + j)%nat by lia. split; [exact E|exact Hall].
Qed.
Lemma fits_part l1 l2 : leaf_fits (l1 ++ l2) → (l1 ≠ [] → leaf_fits l1) ∧ (l2 ≠ [] → leaf_fits l2).
Proof.
  unfold leaf_fits, leaf_size, start_of. rewrite !fmap_app, !size_app, length_app. intros (Hn & Hk & Hv & Hs).
  pose proof (size_nonneg (fst <$> l1)). pose proof (size_nonneg (fst <$> l2)). pose proof (size_nonneg (snd <$> l1)). pose proof (size_nonneg (snd <$> l2)).
  apply widths_app in Hk as [Hk1 Hk2]. apply widths_app in Hv as [Hv1 Hv2].
  split; intros Hne; (split_and!; [destruct (nil_or_length_pos l1), (nil_or_length_pos l2); try done; lia|lia|done|done|destruct kf, vf; cbn [pointer_size] in *; lia]).
Qed.
Lemma build_split_ok b l s : builder_is b l → leaf_fits l → (1 < length l)%nat → ∃ out s', build_split b s = Some (out, s')
  ∧ match out with
    | Ok ((p1, page1), key, (p2, page2)) => ∃ l1 l2 value, l = (l1 ++ [(key, value)]) ++ l2 ∧ l2 ≠ [] ∧ leaf_is page1 (l1 ++ [(key, value)]) ∧ leaf_is page2 l2
        ∧ (∀ i, (0 < i ≤ length l1)%nat → bytes_of (take i l1) < bytes_of l / 2)
    | Err e => ∃ s1 size, allocate s1 size = (Err e, s')
    end.
Proof.
  intros Hb Hfit Hn. pose proof Hb as (E & Ek & Ev & Etk & Etv). unfold build_split. rewrite E, Ek, Ev, Etk, Etv, sub_usize_Some by lia. cbn [mbind option_bind].
  replace (Z.to_nat (Z.of_nat (length l) - 1)) with (pred (length l)) by lia. fold (bytes_of l).
  destruct (divide_ok (bytes_of l) [] (take (pred (length l)) l)) as (d & Hd & Ediv & Hall).
  { intros Hnil%(f_equal length). rewrite length_take in Hnil. cbn in Hnil. lia. }
  { cbn. intros; lia. }
  cbn [length app Nat.add] in *. rewrite length_take in Hd. assert (∀ i, (i ≤ d)%nat → take i (take (pred (length l)) l) = take i l) as Htt by (intros i Hi; rewrite take_take; f_equal; lia).
  rewrite !Htt in Ediv by lia. change (size (fst <$> [])) with 0 in Ediv. change (size (snd <$> [])) with 0 in Ediv. change (Z.of_nat 0) with 0 in Ediv. rewrite Ediv.
  set (l1 := take d l) in *. set (l2 := drop d l). assert (l = l1 ++ l2) as El by (unfold l1, l2; by rewrite take_drop). assert (length l1 = d) as Hl1 by (unfold l1; rewrite length_take; lia).
  destruct (fits_part l1 l2) as [Hfit1 Hfit2]; [by rewrite <-El|]. assert (l1 ≠ []) as Hne1 by (intros Hx; rewrite Hx in Hl1; cbn in Hl1; lia).
  assert (l2 ≠ []) as Hne2 by (intros Hx%(f_equal length); unfold l2 in Hx; rewrite length_drop in Hx; cbn in Hx; lia). specialize (Hfit1 Hne1). specialize (Hfit2 Hne2).
  assert (required_bytes (Z.of_nat d) (size (fst <$> l1) + size (snd <$> l1)) kf vf = leaf_size l1) as -> by (unfold required_bytes, leaf_size, start_of; rewrite Hl1; lia).
  destruct (allocate s (leaf_size l1)) as [[[p1 mem1]|e] s1] eqn:Ea1; [|exists (Err e), s1; split; [done|by exists s, (leaf_size l1)]].
  pose proof (allocate_size _ _ _ _ _ Ea1) as Hsize1. rewrite Nat2Z.id. fold l1. destruct (build_page_ok mem1 b l1 Ek Ev Hfit1 Hsize1) as (page1 & -> & Hp1 & _). cbn [mbind option_bind].
  assert (size (fst <$> l) = size (fst <$> l1) + size (fst <$> l2) ∧ size (snd <$> l) = size (snd <$> l1) + size (snd <$> l2)) as [EK EV] by (clearbody l1 l2; by rewrite El, !fmap_app, !size_app).
  pose proof (size_nonneg (fst <$> l2)). pose proof (size_nonneg (snd <$> l2)). pose proof (size_nonneg (snd <$> l1)).
  rewrite (sub_usize_Some (bytes_of l) (size (fst <$> l1))) by (unfold bytes_of; lia). cbn [mbind option_bind]. rewrite (sub_usize_Some _ (size (snd <$> l1))) by (unfold bytes_of; lia). cbn [mbind option_bind].
  assert (required_bytes (Z.of_nat (length l) - Z.of_nat d) (bytes_of l - size (fst <$> l1) - size (snd <$> l1)) kf vf = leaf_size l2) as ->.
  { unfold required_bytes, leaf_size, start_of, bytes_of. rewrite EK, EV. assert (length l2 = length l - d)%nat as -> by apply length_drop. rewrite Nat2Z.inj_sub by lia. lia. }
  destruct (allocate s1 (leaf_size l2)) as [[[p2 mem2]|e] s2] eqn:Ea2; [|exists (Err e), s2; split; [done|by exists s1, (leaf_size l2)]].
  pose proof (allocate_size _ _ _ _ _ Ea2) as Hsize2. rewrite (sub_usize_Some (size (fst <$> l))) by lia. cbn [mbind option_bind]. replace (size (fst <$> l) - size (fst <$> l1)) with (size (fst <$> l2)) by lia.
  fold l2. destruct (build_page_ok mem2 b l2 Ek Ev Hfit2 Hsize2) as (page2 & -> & Hp2 & _). cbn [mbind option_bind]. rewrite (sub_usize_Some (Z.of_nat d)) by lia. cbn [mbind option_bind].
  replace (Z.to_nat (Z.of_nat d - 1)) with (pred d) by lia. destruct (lookup_lt_is_Some_2 l (pred d)) as [[key value] Ekv]; [lia|]. rewrite Ekv. cbn [mbind option_bind fst].
  assert (l1 = take (pred d) l ++ [(key, value)]) as El1 by (rewrite <-(take_S_r _ _ _ Ekv); unfold l1; f_equal; lia).
  exists (Ok ((p1, page1), key, (p2, page2))), s2. split; [done|]. exists (take (pred d) l), l2, value. rewrite <-El1. split_and!; try done.
  intros i Hi. rewrite length_take in Hi. rewrite take_take, Nat.min_l by lia. rewrite <-Htt by lia. apply Hall. lia.
Qed.
End memory.

(** ** Changing a leaf in place *)
Definition with_tables (r : Byte.byte) (n : Z) (kes ves : list Z) (rest : bytes) : bytes := preamble r n ++ table kf kes ++ table vf ves ++ rest.
Definition u32_ok (d e : Z) : Prop := 0 ≤ e < 2 ^ 32 ∧ 0 ≤ e + d < 2 ^ 32.

Lemma update_key_end_ok r n k1 e k2 ves rest d : u32_ok d e →
  update_key_end kf (with_tables r n (k1 ++ e :: k2) ves rest) (Z.of_nat (length k1)) d = Some (with_tables r n (k1 ++ e + d :: k2) ves rest).
Proof.
  intros [He Hd]. unfold update_key_end, with_tables. destruct kf as [w|]; [done|].
  rewrite (bump_table _ _ _ (length k1) e) by (done || (rewrite ?length_preamble; lia) || by apply list_lookup_middle).
  by rewrite insert_app_r_alt, Nat.sub_diag by lia.
Qed.
Lemma update_value_end_ok r n kes v1 e v2 rest d : 0 ≤ n < 2 ^ 16 → Z.of_nat (length kes) = n → u32_ok d e →
  update_value_end kf vf (with_tables r n kes (v1 ++ e :: v2) rest) (Z.of_nat (length v1)) d = Some (with_tables r n kes (v1 ++ e + d :: v2) rest).
Proof.
  intros Hn Hkes [He Hd]. unfold update_value_end. destruct vf as [w|] eqn:Ev; [unfold with_tables; rewrite Ev; done|]. rewrite <-Ev. unfold with_tables.
  rewrite accessor_preamble by done. cbn [mbind option_bind num_pairs]. rewrite Ev, !(app_assoc (preamble r n)). rewrite (bump_table _ _ _ (length v1) e).
  - by rewrite insert_app_r_alt, Nat.sub_diag by lia.
  - by apply list_lookup_middle.
  - rewrite length_app, Nat2Z.inj_add, length_preamble, length_table. lia.
  - done.
  - done.
Qed.
(** A loop over the pairs [a..a + c] that changes their ends one by one. *)
Lemma ends_loop (f : bytes → Z → option bytes) (g h : Z → Z) r n rest k2 v2 : 
  (∀ k1 x k3 v1 y v3, x ∈ k2 → y ∈ v2 → length k1 = length v1 → Z.of_nat (length (k1 ++ x :: k3)) = n →
    f (with_tables r n (k1 ++ x :: k3) (v1 ++ y :: v3) rest) (Z.of_nat (length k1)) = Some (with_tables r n (k1 ++ g x :: k3) (v1 ++ h y :: v3) rest)) →
  ∀ k1 k3 v1 v3, length k1 = length v1 → length k2 = length v2 → Z.of_nat (length (k1 ++ k2 ++ k3)) = n →
  fold_opt f (with_tables r n (k1 ++ k2 ++ k3) (v1 ++ v2 ++ v3) rest) (seqZ (Z.of_nat (length k1)) (Z.of_nat (length k2)))
    = Some (with_tables r n (k1 ++ (g <$> k2) ++ k3) (v1 ++ (h <$> v2) ++ v3) rest).
Proof.
  revert v2. induction k2 as [|x k2 IH]; intros [|y v2] Hf k1 k3 v1 v3 Hl Hl2 Hn; try done. cbn [length] in *. rewrite seqZ_cons by lia. cbn [fold_opt app].
  rewrite Hf by (done || by left). cbn [mbind option_bind]. replace (Z.pred (Z.of_nat (S (length k2)))) with (Z.of_nat (length k2)) by lia.
  assert (Z.succ (Z.of_nat (length k1)) = Z.of_nat (length (k1 ++ [g x]))) as -> by (rewrite length_app; cbn; lia).
  assert (∀ A (a : A) l m, l ++ a :: m = (l ++ [a]) ++ m) as Hsnoc by (intros; by rewrite <-app_assoc).
  rewrite (Hsnoc _ (g x)), (Hsnoc _ (h y)), IH.
  - cbn [fmap list_fmap app]. by rewrite <-!Hsnoc.
  - intros. apply Hf; try done; by right.
  - rewrite !length_app. cbn [length]. lia.
  - lia.
  - rewrite !length_app in *. cbn [length] in *. lia.
Qed.
Lemma update_ends_loop r n rest kd vd k1 k2 k3 v1 v2 v3 : 0 ≤ n < 2 ^ 16 → Forall (u32_ok kd) k2 → Forall (u32_ok vd) v2 →
  length k1 = length v1 → length k2 = length v2 → Z.of_nat (length (k1 ++ k2 ++ k3)) = n →
  fold_opt (update_ends kf vf kd vd) (with_tables r n (k1 ++ k2 ++ k3) (v1 ++ v2 ++ v3) rest) (seqZ (Z.of_nat (length k1)) (Z.of_nat (length k2)))
    = Some (with_tables r n (k1 ++ ((λ e, e + kd) <$> k2) ++ k3) (v1 ++ ((λ e, e + vd) <$> v2) ++ v3) rest).
Proof.
  intros Hn Hk Hv. apply ends_loop. intros a x c b y d Hx Hy Hl Hlen. unfold update_ends. rewrite update_key_end_ok by (rewrite Forall_forall in Hk; by apply Hk).
  cbn [mbind option_bind]. rewrite Hl. apply update_value_end_ok; [done| |rewrite Forall_forall in Hv; by apply Hv].
  rewrite length_app in *. cbn [length] in *. lia.
Qed.
(** Both loops of [insert] and [remove]: the pairs before and those after. *)
Lemma both_loops r n rest kd1 vd1 kd2 vd2 a1 am a2 b1 bm b2 : 0 ≤ n < 2 ^ 16 → length a1 = length b1 → length am = length bm → length a2 = length b2 →
  Z.of_nat (length (a1 ++ am ++ a2)) = n → Forall (u32_ok kd1) a1 → Forall (u32_ok vd1) b1 → Forall (u32_ok kd2) a2 → Forall (u32_ok vd2) b2 →
  (p ← fold_opt (update_ends kf vf kd1 vd1) (with_tables r n (a1 ++ am ++ a2) (b1 ++ bm ++ b2) rest) (seqZ 0 (Z.of_nat (length a1)));
   fold_opt (update_ends kf vf kd2 vd2) p (seqZ (Z.of_nat (length a1 + length am)) (Z.of_nat (length a2))))
  = Some (with_tables r n (((λ e, e + kd1) <$> a1) ++ am ++ ((λ e, e + kd2) <$> a2)) (((λ e, e + vd1) <$> b1) ++ bm ++ ((λ e, e + vd2) <$> b2)) rest).
Proof.
  intros Hn H1 Hm H2 Hl Ha1 Hb1 Ha2 Hb2.
  pose proof (update_ends_loop r n rest kd1 vd1 [] a1 (am ++ a2) [] b1 (bm ++ b2) Hn Ha1 Hb1 eq_refl H1) as E1. cbn [app length Z.of_nat] in E1. change (Z.of_nat 0) with 0 in E1. rewrite E1 by done. cbn [mbind option_bind].
  set (a1' := (λ e, e + kd1) <$> a1). set (b1' := (λ e, e + vd1) <$> b1). assert (length a1' = length a1 ∧ length b1' = length b1) as [La Lb] by (split; apply length_fmap).
  pose proof (update_ends_loop r n rest kd2 vd2 (a1' ++ am) a2 [] (b1' ++ bm) b2 [] Hn Ha2 Hb2) as E2. rewrite !app_nil_r, <-!app_assoc, !length_app, La, Lb in E2.
  rewrite E2; [done|lia|done|]. rewrite <-Hl, !length_app. lia.
Qed.
Lemma ends_u32 off ps d : 0 ≤ off → off + size ps < 2 ^ 32 → 0 ≤ off + d → off + d + size ps < 2 ^ 32 → Forall (u32_ok d) (ends off ps).
Proof. intros ? ? ? ?. apply Forall_forall. intros e He%ends_bounds. unfold u32_ok. lia. Qed.
Lemma leaf_parts r l1 l2 rest : let n := Z.of_nat (length (l1 ++ l2)) in let s := start_of n in
  let k1 := fst <$> l1 in let k2 := fst <$> l2 in let v1 := snd <$> l1 in let v2 := snd <$> l2 in
  leaf_bytes r (l1 ++ l2) rest = with_tables r n (ends s k1 ++ ends (s + size k1) k2) (ends (s + size k1 + size k2) v1 ++ ends (s + size k1 + size k2 + size v1) v2)
    (mjoin k1 ++ mjoin k2 ++ mjoin v1 ++ mjoin v2 ++ rest).
Proof.
  cbn zeta. unfold leaf_bytes, with_tables. rewrite !fmap_app, !mjoin_app, !ends_app, !size_app. rewrite <-!app_assoc. by rewrite !Z.add_assoc.
Qed.
Lemma store_count r n m rest : 0 ≤ m < 2 ^ 16 → store (preamble r n ++ rest) 2 (le_bytes 2 m) = Some (preamble r m ++ rest).
Proof.
  intros Hm. unfold preamble. change ((z2b LEAF :: r :: le_bytes 2 n) ++ rest) with ([z2b LEAF; r] ++ le_bytes 2 n ++ rest).
  rewrite store_mid by (rewrite ?length_le_bytes; done). rewrite drop_ge by (rewrite !length_le_bytes; lia). done.
Qed.
(** The steps that move and fill the ranges of a page, in the goal. *)
Ltac lens := rewrite ?length_app, ?Nat2Z.inj_add, ?length_mjoin_size in *; lia.
Ltac move_right a b g c :=
  lazymatch goal with |- context [copy_within ?p ?s ?e ?d] =>
    let g' := fresh "gap" in let E := fresh in let H := fresh "Hgap" in
    destruct (copy_right a b g c s e d) as (g' & E & H); [lens|lens|lens|];
    replace p with (a ++ b ++ g ++ c) by (rewrite <-!app_assoc; done); rewrite E; clear E; cbn [mbind option_bind] end.
Ltac move_left a g b c :=
  lazymatch goal with |- context [copy_within ?p ?s ?e ?d] =>
    let g' := fresh "gap" in let E := fresh in let H := fresh "Hgap" in
    destruct (copy_left a g b c s e d) as (g' & E & H); [lens|lens|lens|];
    replace p with (a ++ g ++ b ++ c) by (rewrite <-!app_assoc; done); rewrite E; clear E; cbn [mbind option_bind] end.
Ltac fill_right a g c k :=
  lazymatch goal with |- context [store ?p ?m ?d] =>
    let g' := fresh "gap" in let E := fresh in let H := fresh "Hgap" in
    destruct (store_right a g c d m (Z.to_nat k)) as (g' & E & H); [lens|lens|];
    replace p with (a ++ g ++ c) by (rewrite <-!app_assoc; done); rewrite E; clear E; cbn [mbind option_bind] end.

(** The pointer of the new pair, where the table has one. *)
Lemma fill_end fixed (a g c : bytes) dest e k : Z.of_nat (length g) = k + pointer_size fixed → 0 ≤ k → dest = Z.of_nat (length a) + k + pointer_size fixed →
  ∃ g', (match fixed with Some _ => Some (dest, a ++ g ++ c)
    | None => d ← sub_usize dest 4; p ← store (a ++ g ++ c) d (le_bytes 4 e); Some (d, p) end)
    = Some (dest - pointer_size fixed, a ++ g' ++ table fixed [e] ++ c) ∧ Z.of_nat (length g') = k.
Proof.
  intros Hg Hk ->. destruct fixed as [w|]; cbn [pointer_size] in *.
  - exists g. rewrite !Z.add_0_r, Z.sub_0_r. split; [done|lia].
  - rewrite sub_usize_Some by lia. cbn [mbind option_bind]. replace (Z.of_nat (length a) + k + 4 - 4) with (Z.of_nat (length a + Z.to_nat k)) by lia.
    destruct (store_right a g c (le_bytes 4 e) _ (Z.to_nat k) eq_refl) as (g' & -> & Hg'); [rewrite length_le_bytes; lia|]. cbn [mbind option_bind].
    exists g'. change (table None [e]) with (le_bytes 4 e ++ []). rewrite app_nil_r. split; [done|lia].
Qed.
Ltac fill_pointer fixed a g c e k :=
  lazymatch goal with |- context [match fixed with Some _ => Some (?dest, ?p) | None => _ end] =>
    let g' := fresh "gap" in let E := fresh in let H := fresh "Hgap" in
    destruct (fill_end fixed a g c dest e k) as (g' & E & H); [lens|lens|lens|];
    replace p with (a ++ g ++ c) by (rewrite <-!app_assoc; done); rewrite E; clear E; cbn [mbind option_bind] end.

Lemma insert_moves_ok (pre tk1 tk2 tv1 tv2 k1 k2 v1 v2 rest key value : bytes) n i m ks vs ve :
  let kp := pointer_size kf in let vp := pointer_size vf in let lk := Z.of_nat (length key) in let lv := Z.of_nat (length value) in
  length pre = 4%nat → 0 ≤ i → 0 ≤ m → n = i + m → Z.of_nat (length tk1) = kp * i → Z.of_nat (length tk2) = kp * m → Z.of_nat (length tv1) = vp * i → Z.of_nat (length tv2) = vp * m →
  ks = 4 + kp * n + vp * n + Z.of_nat (length k1) → vs = ks + Z.of_nat (length k2) + Z.of_nat (length v1) → ve = vs + Z.of_nat (length v2) →
  kp + vp + lk + lv ≤ Z.of_nat (length rest) → ve + kp + vp + lk + lv < 2 ^ 32 →
  ∃ rest', insert_moves kf vf (pre ++ tk1 ++ tk2 ++ tv1 ++ tv2 ++ k1 ++ k2 ++ v1 ++ v2 ++ rest) n i ks vs ve key value
    = Some (pre ++ tk1 ++ table kf [ks + kp + vp + lk] ++ tk2 ++ tv1 ++ table vf [vs + kp + vp + lk + lv] ++ tv2 ++ k1 ++ key ++ k2 ++ v1 ++ value ++ v2 ++ rest').
Proof.
  cbn zeta. set (kp := pointer_size kf). set (vp := pointer_size vf). set (lk := Z.of_nat (length key)). set (lv := Z.of_nat (length value)).
  intros Hpre Hi Hm Hn Htk1 Htk2 Htv1 Htv2 Hks Hvs Hve Hrest Hmax. pose proof (pointer_size_nonneg kf) as Hkp. pose proof (pointer_size_nonneg vf) as Hvp. fold kp in Hkp. fold vp in Hvp.
  assert (Z.of_nat (length pre) = 4) as Hpre' by lia. clear Hpre. assert (0 ≤ kp * i ∧ 0 ≤ kp * m ∧ 0 ≤ vp * i ∧ 0 ≤ vp * m) as (? & ? & ? & ?) by nia.
  rewrite <-(take_drop (Z.to_nat (kp + vp + lk + lv)) rest). set (g := take _ rest). set (rest' := drop _ rest).
  assert (Z.of_nat (length g) = kp + vp + lk + lv) as Hg by (unfold g; rewrite length_take; lia). clearbody g rest'.
  unfold insert_moves. fold kp vp lk lv.
  move_right (pre ++ tk1 ++ tk2 ++ tv1 ++ tv2 ++ k1 ++ k2 ++ v1) v2 g rest'.
  rewrite (try_u32_Some (vs + kp + vp + lk + lv)) by lens. cbn [mbind option_bind]. rewrite (sub_usize_Some _ lv) by lens. cbn [mbind option_bind].
  fill_right (pre ++ tk1 ++ tk2 ++ tv1 ++ tv2 ++ k1 ++ k2 ++ v1) gap (v2 ++ rest') (kp + vp + lk).
  rewrite (sub_usize_Some vs ks) by lens. cbn [mbind option_bind]. rewrite (sub_usize_Some _ (vs - ks)) by lens. cbn [mbind option_bind].
  move_right (pre ++ tk1 ++ tk2 ++ tv1 ++ tv2 ++ k1) (k2 ++ v1) gap0 (value ++ v2 ++ rest').
  match goal with |- context [try_u32 ?d] => replace d with (ks + kp + vp + lk) by lia end.
  rewrite (try_u32_Some (ks + kp + vp + lk)) by lens. cbn [mbind option_bind]. rewrite (sub_usize_Some _ lk) by lens. cbn [mbind option_bind].
  fill_right (pre ++ tk1 ++ tk2 ++ tv1 ++ tv2 ++ k1) gap1 ((k2 ++ v1) ++ value ++ v2 ++ rest') (kp + vp).
  set (st := 4 + kp * n + vp * i). rewrite (sub_usize_Some ks st) by lens. cbn [mbind option_bind]. rewrite (sub_usize_Some _ (ks - st)) by lens. cbn [mbind option_bind].
  rewrite (proj2 (Z.eqb_eq _ _)) by lia. cbn [check mbind option_bind].
  move_right (pre ++ tk1 ++ tk2 ++ tv1) (tv2 ++ k1) gap2 (key ++ (k2 ++ v1) ++ value ++ v2 ++ rest').
  fill_pointer vf (pre ++ tk1 ++ tk2 ++ tv1) gap3 ((tv2 ++ k1) ++ key ++ (k2 ++ v1) ++ value ++ v2 ++ rest') (vs + kp + vp + lk + lv) kp.
  rewrite (sub_usize_Some st (4 + kp * i)) by lens. cbn [mbind option_bind]. rewrite (sub_usize_Some _ (st - (4 + kp * i))) by lens. cbn [mbind option_bind].
  rewrite (proj2 (Z.eqb_eq _ _)) by lia. cbn [check mbind option_bind].
  move_right (pre ++ tk1) (tk2 ++ tv1) gap4 (table vf [vs + kp + vp + lk + lv] ++ (tv2 ++ k1) ++ key ++ (k2 ++ v1) ++ value ++ v2 ++ rest').
  fill_pointer kf (pre ++ tk1) gap5 ((tk2 ++ tv1) ++ table vf [vs + kp + vp + lk + lv] ++ (tv2 ++ k1) ++ key ++ (k2 ++ v1) ++ value ++ v2 ++ rest') (ks + kp + vp + lk) 0.
  rewrite (proj2 (Z.eqb_eq _ _)) by lia. cbn [check mbind option_bind]. destruct gap6; [|cbn in *; lia]. exists rest'. by rewrite <-!app_assoc.
Qed.
Lemma table_cons fixed e es : table fixed (e :: es) = table fixed [e] ++ table fixed es.
Proof. by rewrite <-table_app. Qed.
(** A leaf around one of its pairs. *)
Lemma leaf_middle r l1 key value l2 rest : let n := Z.of_nat (length (l1 ++ (key, value) :: l2)) in let s := start_of n in
  let k1 := fst <$> l1 in let k2 := fst <$> l2 in let v1 := snd <$> l1 in let v2 := snd <$> l2 in
  let lk := Z.of_nat (length key) in let lv := Z.of_nat (length value) in let e := s + size k1 + lk + size k2 in
  leaf_bytes r (l1 ++ (key, value) :: l2) rest = with_tables r n (ends s k1 ++ [s + size k1 + lk] ++ ends (s + size k1 + lk) k2)
    (ends e v1 ++ [e + size v1 + lv] ++ ends (e + size v1 + lv) v2) (mjoin k1 ++ key ++ mjoin k2 ++ mjoin v1 ++ value ++ mjoin v2 ++ rest).
Proof.
  cbn zeta. unfold leaf_bytes, with_tables. rewrite !fmap_app, !mjoin_app, !ends_app, !size_app. cbn [fmap list_fmap fst snd]. rewrite !mjoin_cons, !size_cons. cbn [ends].
  rewrite <-!app_assoc. cbn [app]. by rewrite !Z.add_assoc.
Qed.
Lemma start_of_S n : start_of (n + 1) = start_of n + (pointer_size kf + pointer_size vf).
Proof. unfold start_of. lia. Qed.
(** Where the parts of a leaf end, around a place. *)
Lemma offs_around l1 l2 : let s := start_of (Z.of_nat (length (l1 ++ l2))) in
  key_off (l1 ++ l2) (length l1) = s + size (fst <$> l1)
  ∧ value_off (l1 ++ l2) (length l1) = s + size (fst <$> l1) + size (fst <$> l2) + size (snd <$> l1)
  ∧ leaf_size (l1 ++ l2) = s + size (fst <$> l1) + size (fst <$> l2) + size (snd <$> l1) + size (snd <$> l2).
Proof.
  cbn zeta. unfold key_off, value_off, leaf_size. rewrite !fmap_app, !size_app, !take_app_length' by (by rewrite length_fmap). lia.
Qed.
Lemma size_middle l1 key value l2 : leaf_size (l1 ++ (key, value) :: l2)
  = leaf_size (l1 ++ l2) + (Z.of_nat (length key) + Z.of_nat (length value) + pointer_size kf + pointer_size vf).
Proof. unfold leaf_size, start_of. rewrite !fmap_app, !size_app, !length_app. cbn [fmap list_fmap length fst snd]. rewrite !size_cons. lia. Qed.
Lemma insert_ok p l1 l2 key value : leaf_is p (l1 ++ l2) → leaf_fits (l1 ++ (key, value) :: l2) → leaf_size (l1 ++ (key, value) :: l2) ≤ Z.of_nat (length p) →
  ∃ p', insert kf vf p (Z.of_nat (length l1)) key value = Some p' ∧ leaf_is p' (l1 ++ (key, value) :: l2).
Proof.
  intros Hl Hfit' Hsize. pose proof Hl as (Hfit & r & rest & Ep). destruct (total_length_ok _ _ Hl) as [Etot Htot]. destruct (last_ok _ Hfit) as [Elast Hlast].
  destruct (key_off_bounds _ (length l1) Hfit) as (Hko & _ & Hvo & Evo & _). 
  assert (leaf_size (l1 ++ (key, value) :: l2) ≤ leaf_size (l1 ++ l2) + Z.of_nat (length rest)) as Hroom by (by rewrite <-length_leaf with (r := r), <-Ep).
  unfold insert. rewrite (accessor_ok p _ Hl). cbn [mbind option_bind num_pairs]. rewrite Etot. cbn [mbind option_bind].
  set (kp := pointer_size kf) in *. set (vp := pointer_size vf) in *. set (lk := Z.of_nat (length key)) in *. set (lv := Z.of_nat (length value)) in *.
  pose proof (size_middle l1 key value l2) as Esize. fold kp vp lk lv in Esize.
  rewrite (proj2 (Z.leb_le _ _)) by lia. cbn [check mbind option_bind]. rewrite Elast. cbn [mbind option_bind].
  rewrite key_end_ok, value_end_ok by (done || lia). cbn [mbind option_bind]. rewrite Hlast, Evo.
  assert (length l1 ≤ length (l1 ++ l2))%nat as Hle by (rewrite length_app; lia). rewrite key_start_ok, value_start_ok by done. cbn [default]. unfold id.
  assert (Z.of_nat (length (l1 ++ (key, value) :: l2)) = Z.of_nat (length (l1 ++ l2)) + 1) as En' by (rewrite !length_app; cbn [length]; lia).
  pose proof Hfit' as (Hn' & _ & _ & Hmax). pose proof (leaf_middle r l1 key value l2) as Emid. cbn zeta in Emid. rewrite En', start_of_S in Emid. fold kp vp lk lv in Emid.
  pose proof (leaf_parts r l1 l2 rest) as Eparts. cbn zeta in Eparts. rewrite Eparts in Ep. clear Eparts.
  destruct (offs_around l1 l2) as (Eko & Evo1 & Els).
  assert (Z.of_nat (length (l1 ++ l2)) - Z.of_nat (length l1) = Z.of_nat (length l2)) as Elen by (rewrite length_app; lia).
  rewrite Elen, Eko, Evo1, Els. clear Eko Evo1 Elen. pose proof Hfit as (Hn & _). pose proof (start_of_nonneg (Z.of_nat (length (l1 ++ l2))) ltac:(lia)) as Hs0.
  set (n := Z.of_nat (length (l1 ++ l2))) in *. set (s := start_of n) in *. set (k1 := fst <$> l1) in *. set (k2 := fst <$> l2) in *. set (v1 := snd <$> l1) in *. set (v2 := snd <$> l2) in *.
  assert (length k1 = length l1 ∧ length k2 = length l2 ∧ length v1 = length l1 ∧ length v2 = length l2) as (Lk1 & Lk2 & Lv1 & Lv2) by (unfold k1, k2, v1, v2; by rewrite !length_fmap).
  assert (n = Z.of_nat (length l1) + Z.of_nat (length l2)) as En by (unfold n; rewrite length_app; lia).
  pose proof (size_nonneg k1). pose proof (size_nonneg k2). pose proof (size_nonneg v1). pose proof (size_nonneg v2).
  pose proof (pointer_size_nonneg kf) as Hkp. pose proof (pointer_size_nonneg vf) as Hvp. fold kp in Hkp. fold vp in Hvp. rewrite Esize, Els in Hmax.
  pose proof (both_loops r n (mjoin k1 ++ mjoin k2 ++ mjoin v1 ++ mjoin v2 ++ rest) (kp + vp) (kp + vp + lk) (kp + vp + lk) (kp + vp + lk + lv)
    (ends s k1) [] (ends (s + size k1) k2) (ends (s + size k1 + size k2) v1) [] (ends (s + size k1 + size k2 + size v1) v2)) as Hloops.
  rewrite !length_ends, Lk1, Lk2 in Hloops. cbn [app] in Hloops. rewrite <-Ep in Hloops. rewrite Nat.add_0_r in Hloops.
  apply bind_Some in Hloops as (p1 & E1 & E2); [|lia|congruence|done|congruence|rewrite length_app, !length_ends; lia|apply ends_u32; lia..].
  rewrite E1. cbn [mbind option_bind]. rewrite E2. cbn [mbind option_bind]. clear E1 E2. rewrite <-!ends_shift, try_u16_Some by lia. cbn [mbind option_bind].
  unfold with_tables. rewrite store_count by lia. cbn [mbind option_bind]. rewrite !table_app, <-!app_assoc.
  edestruct (insert_moves_ok (preamble r (n + 1))) with (n := n) (i := Z.of_nat (length l1)) (m := Z.of_nat (length l2)) as (rest' & ->).
  all: try (rewrite ?length_table, ?length_ends, ?length_preamble, ?length_mjoin_size; fold kp vp lk lv; first [done|lia]).
  eexists. split; [done|]. split; [done|]. exists r, rest'. rewrite Emid. unfold with_tables. rewrite !table_app, <-!app_assoc. fold kp vp lk lv.
  repeat (f_equal; try lia).
Qed.
Lemma remove_moves_ok (pre tk1 ek tk2 tv1 ev tv2 k1 key k2 v1 value v2 rest : bytes) n i m ks ke vs vt ve :
  let kp := pointer_size kf in let vp := pointer_size vf in let lk := Z.of_nat (length key) in let lv := Z.of_nat (length value) in
  length pre = 4%nat → 0 ≤ i → 0 ≤ m → n = i + 1 + m → Z.of_nat (length tk1) = kp * i → Z.of_nat (length ek) = kp → Z.of_nat (length tk2) = kp * m →
  Z.of_nat (length tv1) = vp * i → Z.of_nat (length ev) = vp → Z.of_nat (length tv2) = vp * m →
  ks = 4 + kp * n + vp * n + Z.of_nat (length k1) → ke = ks + lk → vs = ke + Z.of_nat (length k2) + Z.of_nat (length v1) → vt = vs + lv → ve = vt + Z.of_nat (length v2) →
  ∃ rest', remove_moves kf vf (pre ++ tk1 ++ ek ++ tk2 ++ tv1 ++ ev ++ tv2 ++ k1 ++ key ++ k2 ++ v1 ++ value ++ v2 ++ rest) n i ks ke vs vt ve
    = Some (pre ++ tk1 ++ tk2 ++ tv1 ++ tv2 ++ k1 ++ k2 ++ v1 ++ v2 ++ rest').
Proof.
  cbn zeta. set (kp := pointer_size kf). set (vp := pointer_size vf). set (lk := Z.of_nat (length key)). set (lv := Z.of_nat (length value)).
  intros Hpre Hi Hm Hn Htk1 Hek Htk2 Htv1 Hev Htv2 Hks -> Hvs -> ->. pose proof (pointer_size_nonneg kf) as Hkp. pose proof (pointer_size_nonneg vf) as Hvp. fold kp in Hkp. fold vp in Hvp.
  assert (Z.of_nat (length pre) = 4) as Hpre' by lia. clear Hpre. assert (0 ≤ kp * i ∧ 0 ≤ kp * m ∧ 0 ≤ vp * i ∧ 0 ≤ vp * m) as (? & ? & ? & ?) by nia.
  unfold remove_moves. fold kp vp. rewrite (sub_usize_Some (ks + lk) ks) by lia. cbn [mbind option_bind]. replace (ks + lk - ks) with lk by lia.
  move_left (pre ++ tk1) ek (tk2 ++ tv1) (ev ++ tv2 ++ k1 ++ key ++ k2 ++ v1 ++ value ++ v2 ++ rest).
  set (st := 4 + kp * n + vp * i). rewrite (sub_usize_Some st (4 + kp * (i + 1))) by lens. cbn [mbind option_bind]. rewrite (proj2 (Z.eqb_eq _ _)) by lia. cbn [check mbind option_bind].
  move_left (pre ++ tk1 ++ tk2 ++ tv1) (gap ++ ev) (tv2 ++ k1) (key ++ k2 ++ v1 ++ value ++ v2 ++ rest).
  set (st2 := 4 + kp * n + vp * (i + 1)). rewrite (sub_usize_Some ks st2) by lens. cbn [mbind option_bind]. rewrite (sub_usize_Some ks (4 + _)) by lens. cbn [mbind option_bind].
  rewrite (proj2 (Z.eqb_eq _ _)) by lens. cbn [check mbind option_bind].
  move_left (pre ++ tk1 ++ tk2 ++ tv1 ++ tv2 ++ k1) (gap0 ++ key) (k2 ++ v1) (value ++ v2 ++ rest).
  rewrite (sub_usize_Some vs (ks + lk)) by lens. cbn [mbind option_bind]. rewrite (sub_usize_Some vs (4 + _)) by lens. cbn [mbind option_bind]. rewrite (sub_usize_Some _ lk) by lens. cbn [mbind option_bind].
  rewrite (proj2 (Z.eqb_eq _ _)) by lens. cbn [check mbind option_bind].
  match goal with |- context [copy_within ?p ?s ?e ?d] =>
    destruct (copy_left (pre ++ tk1 ++ tk2 ++ tv1 ++ tv2 ++ k1 ++ k2 ++ v1) (gap1 ++ value) v2 rest s e d) as (gap2 & E & _); [lens|lens|lens|] end.
  exists (gap2 ++ rest). rewrite <-!app_assoc in E. rewrite <-!app_assoc. exact E.
Qed.
Lemma fits_without l1 key value l2 : leaf_fits (l1 ++ (key, value) :: l2) → (1 < length (l1 ++ (key, value) :: l2))%nat → leaf_fits (l1 ++ l2).
Proof.
  intros (Hn & Hk & Hv & Hs) H1. rewrite size_middle in Hs. pose proof (pointer_size_nonneg kf). pose proof (pointer_size_nonneg vf).
  rewrite length_app in *. cbn [length] in *. split; [rewrite length_app; lia|]. split; [|split; [|lia]].
  - rewrite fmap_app in *. rewrite fmap_cons, (cons_middle (fst _)), !widths_app in Hk. apply widths_app. tauto.
  - rewrite fmap_app in *. rewrite fmap_cons, (cons_middle (snd _)), !widths_app in Hv. apply widths_app. tauto.
Qed.
Lemma remove_ok p l1 key value l2 : leaf_is p (l1 ++ (key, value) :: l2) → (1 < length (l1 ++ (key, value) :: l2))%nat →
  ∃ p', remove kf vf p (Z.of_nat (length l1)) = Some p' ∧ leaf_is p' (l1 ++ l2).
Proof.
  intros Hl H1. pose proof Hl as (Hfit & r & rest & Ep). pose proof (fits_without _ _ _ _ Hfit H1) as Hfit'. pose proof Hfit as (Hn & _ & _ & Hmax).
  set (l := l1 ++ (key, value) :: l2) in *. assert (l !! length l1 = Some (key, value)) as El by by apply list_lookup_middle. assert (length l1 < length l)%nat as Hlt by by eapply lookup_lt_Some.
  destruct (length_part l (length l1) key value El) as [Lk Lv]. destruct (key_off_bounds l (length l1) Hfit) as (_ & _ & _ & Evo & _).
  destruct (last_ok l Hfit) as [_ Hlast]. unfold remove. rewrite (accessor_ok p l Hl). cbn [mbind option_bind num_pairs].
  rewrite !(proj2 (Z.ltb_lt _ _)) by lia. cbn [check mbind option_bind]. rewrite key_start_ok, key_end_ok, value_start_ok, value_end_ok by (done || lia). cbn [mbind option_bind].
  assert (value_end (access p l) (Z.of_nat (length l) - 1) = Some (leaf_size l)) as ->.
  { replace (Z.of_nat (length l) - 1) with (Z.of_nat (pred (length l))) by lia. by rewrite value_end_ok, Hlast, Evo by (done || lia). }
  cbn [mbind option_bind]. rewrite Lk, Lv, (sub_usize_Some (_ + _)) by lia. cbn [mbind option_bind]. rewrite (sub_usize_Some (_ + _)) by lia. cbn [mbind option_bind].
  rewrite !Z.add_simpl_l. destruct (offs_around l1 ((key, value) :: l2)) as (Eko & Evo1 & Els). rewrite !fmap_cons, !size_cons in Evo1, Els. rewrite fmap_cons, size_cons in Els. fold l in Eko, Evo1, Els. cbn [fst snd] in Evo1, Els.
  rewrite Eko, Evo1.
  pose proof (leaf_middle r l1 key value l2 rest) as Emid. pose proof (leaf_parts r l1 l2) as Eparts. cbn zeta in Emid, Eparts. fold l in Emid. rewrite Ep, Emid. clear Emid.
  assert (Z.of_nat (length l) = Z.of_nat (length (l1 ++ l2)) + 1) as En by (unfold l; rewrite !length_app; cbn [length]; lia).
  assert (Z.of_nat (length l) - (Z.of_nat (length l1) + 1) = Z.of_nat (length l2)) as Elen by (rewrite En, length_app; lia). rewrite Elen, En, start_of_S. clear Elen.
  pose proof (start_of_nonneg (Z.of_nat (length (l1 ++ l2))) ltac:(lia)) as Hs0. pose proof (size_middle l1 key value l2) as Esize. fold l in Esize.
  set (kp := pointer_size kf) in *. set (vp := pointer_size vf) in *. set (lk := Z.of_nat (length key)) in *. set (lv := Z.of_nat (length value)) in *.
  rewrite Els. rewrite En, start_of_S in Els |- *. fold kp vp lk lv in Els |- *. clear Ep Eko Evo1 Evo Lk Lv.
  set (n := Z.of_nat (length (l1 ++ l2))) in *. set (s := start_of n) in *. set (k1 := fst <$> l1) in *. set (k2 := fst <$> l2) in *. set (v1 := snd <$> l1) in *. set (v2 := snd <$> l2) in *.
  assert (length k1 = length l1 ∧ length k2 = length l2 ∧ length v1 = length l1 ∧ length v2 = length l2) as (Lk1 & Lk2 & Lv1 & Lv2) by (unfold k1, k2, v1, v2; by rewrite !length_fmap).
  assert (n = Z.of_nat (length l1) + Z.of_nat (length l2)) as En1 by (unfold n; rewrite length_app; lia).
  pose proof (size_nonneg k1). pose proof (size_nonneg k2). pose proof (size_nonneg v1). pose proof (size_nonneg v2).
  pose proof (pointer_size_nonneg kf) as Hkp. pose proof (pointer_size_nonneg vf) as Hvp. fold kp in Hkp. fold vp in Hvp. cbn [snd] in *. fold lv in Els |- *.
  pose proof (both_loops r (n + 1) (mjoin k1 ++ key ++ mjoin k2 ++ mjoin v1 ++ value ++ mjoin v2 ++ rest) (- (kp + vp)) (- (kp + vp) - lk) (- (kp + vp) - lk) (- (kp + vp) - lk - lv)
    (ends (s + (kp + vp)) k1) [s + (kp + vp) + size k1 + lk] (ends (s + (kp + vp) + size k1 + lk) k2)
    (ends (s + (kp + vp) + size k1 + lk + size k2) v1) [s + (kp + vp) + size k1 + lk + size k2 + size v1 + lv] (ends (s + (kp + vp) + size k1 + lk + size k2 + size v1 + lv) v2)) as Hloops.
  rewrite !length_ends, Lk1, Lk2 in Hloops. cbn [length] in Hloops. rewrite Nat2Z.inj_add in Hloops. change (Z.of_nat 1) with 1 in Hloops.
  apply bind_Some in Hloops as (p1 & E1 & E2); [|lia|congruence|done|congruence|rewrite !length_app, !length_ends; cbn [length]; lia|apply ends_u32; lia..].
  rewrite E1. cbn [mbind option_bind]. rewrite E2. cbn [mbind option_bind]. clear E1 E2. rewrite <-!ends_shift, try_u16_Some by lia. cbn [mbind option_bind].
  unfold with_tables. rewrite store_count by lia. cbn [mbind option_bind]. rewrite !table_app, <-!app_assoc.
  edestruct (remove_moves_ok (preamble r (n + 1 - 1))) with (n := n + 1) (i := Z.of_nat (length l1)) (m := Z.of_nat (length l2)) as (rest' & ->).
  all: try (rewrite ?length_table, ?length_ends, ?length_preamble, ?length_mjoin_size; fold kp vp lk lv; cbn [length]; first [done|lia|unfold s, start_of; fold kp vp; lia]).
  eexists. split; [done|]. split; [done|]. exists r, rest'. rewrite Eparts. unfold with_tables. rewrite !table_app, <-!app_assoc. repeat (f_equal; try lia).
Qed.
(** The end of [replace]: the values after the replaced one are moved, and the new
    value is written before them. *)
Lemma replace_moves_ok (a old c rest value : bytes) s e dest m : s = Z.of_nat (length a + length old) → e = s + Z.of_nat (length c) →
  dest = Z.of_nat (length a + length value) → m = Z.of_nat (length a) → (length value ≤ length old + length rest)%nat →
  ∃ rest', (p ← copy_within (a ++ old ++ c ++ rest) s e dest; store p m value) = Some (a ++ value ++ c ++ rest').
Proof.
  intros -> -> -> -> Hroom. destruct (decide (length old ≤ length value)%nat) as [Hle|Hgt].
  - rewrite <-(take_drop (length value - length old) rest). set (g := take _ rest). assert (length g = length value - length old)%nat as Hg by (unfold g; rewrite length_take; lia).
    clearbody g. move_right (a ++ old) c g (drop (length value - length old) rest). exists (drop (length value - length old) rest).
    rewrite <-!app_assoc, (app_assoc old), store_mid by (rewrite ?length_app; lia). by rewrite drop_ge by (rewrite length_app; lia).
  - rewrite <-(take_drop (length value) old). set (o := take _ old). set (g := drop _ old). assert (length o = length value) as Ho by (unfold o; rewrite length_take; lia).
    assert (length old = length o + length g)%nat as Hg by (by rewrite <-length_app; unfold o, g; rewrite take_drop). clearbody o g.
    move_left (a ++ o) g c rest. exists (gap ++ rest). rewrite <-!app_assoc, store_mid by lia. by rewrite drop_ge by lia.
Qed.
Lemma value_ends_loop r n rest vd k1 k2 v1 v2 : 0 ≤ n < 2 ^ 16 → Forall (u32_ok vd) v2 → length k1 = length v1 → length k2 = length v2 → Z.of_nat (length (k1 ++ k2)) = n →
  fold_opt (λ page j, update_value_end kf vf page j vd) (with_tables r n (k1 ++ k2) (v1 ++ v2) rest) (seqZ (Z.of_nat (length k1)) (Z.of_nat (length k2)))
    = Some (with_tables r n (k1 ++ k2) (v1 ++ ((λ e, e + vd) <$> v2)) rest).
Proof.
  intros Hn Hv H1 H2 Hl. pose proof (ends_loop (λ page j, update_value_end kf vf page j vd) id (λ e, e + vd) r n rest k2 v2) as E.
  specialize (λ H, E H k1 [] v1 [] H1 H2). rewrite !app_nil_r, list_fmap_id in E. apply E; [|done].
  intros a x c b y d Hx Hy Hab Hlen. unfold id. rewrite Hab. apply update_value_end_ok; [done| |rewrite Forall_forall in Hv; by apply Hv]. done.
Qed.
Lemma replace_ok p l1 key old value l2 : leaf_is p (l1 ++ (key, old) :: l2) → leaf_fits (l1 ++ (key, value) :: l2) → leaf_size (l1 ++ (key, value) :: l2) ≤ Z.of_nat (length p) →
  ∃ p', replace kf vf p (Z.of_nat (length l1)) value = Some p' ∧ leaf_is p' (l1 ++ (key, value) :: l2).
Proof.
  intros Hl Hfit' Hsize. pose proof Hl as (Hfit & r & rest & Ep). destruct (total_length_ok _ _ Hl) as [Etot _]. pose proof Hfit as (Hn & _ & _ & Hmax0). pose proof Hfit' as (_ & _ & _ & Hmax).
  set (l := l1 ++ (key, old) :: l2) in *. assert (l !! length l1 = Some (key, old)) as El by by apply list_lookup_middle. assert (length l1 < length l)%nat as Hlt by by eapply lookup_lt_Some.
  destruct (length_part l (length l1) key old El) as [_ Lv]. destruct (key_off_bounds l (S (length l1)) Hfit) as (_ & _ & Hvb & Evo & _). destruct (last_ok l Hfit) as [Elast Hlast].
  pose proof (size_middle l1 key old l2) as Esize. pose proof (size_middle l1 key value l2) as Esize'. fold l in Esize. pose proof (length_leaf r l rest) as Hlen. rewrite <-Ep in Hlen.
  unfold replace. rewrite (accessor_ok p l Hl). cbn [mbind option_bind num_pairs]. rewrite Elast. cbn [mbind option_bind].
  rewrite value_end_ok, Hlast, Evo by (done || lia). cbn [mbind option_bind]. replace (Z.of_nat (length l1) + 1) with (Z.of_nat (S (length l1))) by lia. rewrite value_start_ok by (done || lia).
  unfold value_range. rewrite value_start_ok, value_end_ok by (done || lia). cbn [mbind option_bind]. rewrite Lv, sub_usize_Some by lia. cbn [mbind option_bind]. rewrite Etot. cbn [mbind option_bind default].
  unfold id. rewrite Z.add_simpl_l. set (lo := Z.of_nat (length old)) in *. set (lv := Z.of_nat (length value)) in *. rewrite (proj2 (Z.leb_le _ _)) by lia. cbn [check mbind option_bind].
  destruct (offs_around l1 ((key, old) :: l2)) as (_ & Evo1 & Els). pose proof (leaf_parts r l1 ((key, old) :: l2) rest) as E1. pose proof (leaf_parts r l1 ((key, value) :: l2)) as E2. cbn zeta in E1, E2.
  assert (length (l1 ++ (key, value) :: l2) = length l) as En' by (unfold l; by rewrite !length_app). rewrite En' in E2. fold l in E1, Evo1, Els. rewrite <-Ep in E1. clear Ep En'.
  change (fst <$> (key, old) :: l2) with (key :: (fst <$> l2)) in *. change (fst <$> (key, value) :: l2) with (key :: (fst <$> l2)) in *.
  change (snd <$> (key, old) :: l2) with (old :: (snd <$> l2)) in *. change (snd <$> (key, value) :: l2) with (value :: (snd <$> l2)) in *. rewrite (mjoin_cons old) in E1. rewrite (size_cons old) in Els.
  assert (Z.of_nat (length l) - Z.of_nat (length l1) = Z.of_nat (S (length l2))) as -> by (unfold l; rewrite length_app; cbn [length]; lia).
  set (n := Z.of_nat (length l)) in *. set (k2 := key :: (fst <$> l2)) in *. set (v1 := snd <$> l1) in *. set (v2 := snd <$> l2) in *. set (b := start_of n + size (fst <$> l1)) in *.
  pose proof (start_of_nonneg n ltac:(lia)). pose proof (size_nonneg (fst <$> l1)). pose proof (size_nonneg k2). pose proof (size_nonneg v1). pose proof (size_nonneg v2).
  assert (length k2 = S (length l2) ∧ length v2 = length l2) as [Lk2 Lv2] by (unfold k2, v2; cbn [length]; by rewrite !length_fmap).
  pose proof (value_ends_loop r n (mjoin (fst <$> l1) ++ mjoin k2 ++ mjoin v1 ++ (old ++ mjoin v2) ++ rest) (lv - lo) (ends (start_of n) (fst <$> l1)) (ends b k2)
    (ends (b + size k2) v1) (ends (b + size k2 + size v1) (old :: v2))) as E3.
  rewrite <-E1, !length_ends, !length_fmap in E3. rewrite Lk2 in E3. rewrite E3; clear E3.
  2: lia.
  2: { cbn [ends]. apply Forall_cons. split; [unfold u32_ok; lia|apply ends_u32; lia]. }
  2: by unfold v1; rewrite length_fmap.
  2: by cbn [length]; rewrite Lv2.
  2: { rewrite length_app, !length_ends, length_fmap, Lk2. unfold n, l. rewrite length_app. cbn [length]. lia. }
  cbn [mbind option_bind]. rewrite sub_usize_Some by lia. cbn [mbind option_bind]. rewrite (sub_usize_Some _ lv) by lia. rewrite <-ends_shift.
  assert (ends (b + size k2 + size v1 + (lv - lo)) (old :: v2) = ends (b + size k2 + size v1) (value :: v2)) as ->.
  { cbn [ends]. fold lo lv. by replace (b + size k2 + size v1 + (lv - lo) + lo) with (b + size k2 + size v1 + lv) by lia. }
  set (tables := with_tables r n (ends (start_of n) (fst <$> l1) ++ ends b k2) (ends (b + size k2) v1 ++ ends (b + size k2 + size v1) (value :: v2))) in *.
  assert (∀ x, tables x = tables [] ++ x) as Htab by (intros x; unfold tables, with_tables; by rewrite app_nil_r, <-!app_assoc).
  assert (Z.of_nat (length (tables [])) = start_of n) as Ltab.
  { unfold tables, with_tables. rewrite app_nil_r, !length_app, length_preamble. rewrite !Nat2Z.inj_add, !length_table, !length_app, !length_ends. cbn [length].
    unfold v1. rewrite !length_fmap, Lk2, Lv2. unfold start_of, n, l. rewrite length_app. cbn [length]. lia. }
  destruct (replace_moves_ok (tables [] ++ mjoin (fst <$> l1) ++ mjoin k2 ++ mjoin v1) old (mjoin v2) rest value
    (value_off l (length l1) + lo) (leaf_size l) (value_off l (length l1) + lo + (lv - lo) - 0) (value_off l (length l1) + lo + (lv - lo) - 0 - lv)) as (rest' & Emove).
  1-4: rewrite ?length_app, ?Nat2Z.inj_add, ?length_mjoin_size, ?Ltab; fold lo lv; lia.
  1: apply Nat2Z.inj_le; rewrite Nat2Z.inj_add; fold lo lv; lia.
  rewrite (Htab (mjoin _ ++ _)). rewrite <-!app_assoc in Emove. rewrite <-!app_assoc. cbn [mbind option_bind]. rewrite Emove. eexists. split; [done|]. split; [done|].
  exists r, rest'. rewrite E2, Htab, mjoin_cons, <-!app_assoc. done.
Qed.

(** ** What a leaf promises *)
Lemma widths_one fixed x : has_width fixed x = true → widths fixed [x].
Proof. destruct fixed as [w|]; [|done]. intros Hx%Z.eqb_eq. by apply Forall_singleton. Qed.
Lemma widths_middle fixed (l1 l2 : list bytes) x : widths fixed (l1 ++ l2) → has_width fixed x = true → widths fixed (l1 ++ x :: l2).
Proof. rewrite (cons_middle x), app_assoc, !widths_app. intros [H1 H2] Hx%widths_one. done. Qed.
Lemma fits_with l1 l2 key value : leaf_fits (l1 ++ l2) → has_width kf key = true → has_width vf value = true →
  Z.of_nat (length (l1 ++ l2)) + 1 < 2 ^ 16 → leaf_size (l1 ++ (key, value) :: l2) < 2 ^ 32 → leaf_fits (l1 ++ (key, value) :: l2).
Proof.
  intros (Hn & Hk & Hv & _) Wk Wv Hn1 Hs. rewrite length_app in *. split; [rewrite length_app; cbn [length]; lia|].
  rewrite fmap_app in *. rewrite (fmap_app snd) in *. rewrite !fmap_cons. split; [by apply widths_middle|]. split; [by apply widths_middle|done].
Qed.
Lemma fits_replaced l1 l2 key old value : leaf_fits (l1 ++ (key, old) :: l2) → has_width vf value = true →
  leaf_size (l1 ++ (key, value) :: l2) < 2 ^ 32 → leaf_fits (l1 ++ (key, value) :: l2).
Proof.
  intros (Hn & Hk & Hv & _) Wv Hs. split; [by rewrite length_app in *|]. rewrite fmap_app in *. rewrite (fmap_app snd) in *. rewrite !fmap_cons in *.
  split; [done|]. split; [|done]. apply widths_middle; [|done]. rewrite (cons_middle old), app_assoc, !widths_app in Hv. apply widths_app. tauto.
Qed.
Lemma sufficient_insert_ok pn p l i key value : leaf_is p l →
  sufficient_insert_inplace_space pn p i kf vf key value = Some (negb ((0 <? page_order pn) && (i <? Z.of_nat (length l)))
    && (leaf_size l + (Z.of_nat (length key) + Z.of_nat (length value) + pointer_size kf + pointer_size vf) <=? Z.of_nat (length p))).
Proof.
  intros Hl. destruct (total_length_ok p l Hl) as [Et Htot]. unfold sufficient_insert_inplace_space. rewrite (accessor_ok p l Hl). cbn [mbind option_bind num_pairs].
  destruct (_ && _); [done|]. rewrite Et. cbn [mbind option_bind]. rewrite sub_usize_Some by done. cbn [mbind option_bind negb andb]. f_equal.
  destruct (Z.leb_spec (leaf_size l + (Z.of_nat (length key) + Z.of_nat (length value) + pointer_size kf + pointer_size vf)) (Z.of_nat (length p))); [apply Z.leb_le|apply Z.leb_gt]; lia.
Qed.
Lemma sufficient_replace_ok p l j key old value : leaf_is p l → l !! j = Some (key, old) →
  sufficient_replace_inplace_space p (Z.of_nat j) kf vf value
    = Some (leaf_size l + (Z.of_nat (length value) - Z.of_nat (length old)) <=? Z.of_nat (length p)).
Proof.
  intros Hl Hj. destruct (total_length_ok p l Hl) as [Et Htot]. pose proof (lookup_lt_Some _ _ _ Hj) as Hlt. destruct (length_part l j key old Hj) as [_ Lv].
  unfold sufficient_replace_inplace_space. rewrite (accessor_ok p l Hl). cbn [mbind option_bind]. rewrite Et. cbn [mbind option_bind]. rewrite sub_usize_Some by done. cbn [mbind option_bind].
  unfold value_range. rewrite value_start_ok, value_end_ok by (done || lia). cbn [mbind option_bind]. rewrite Lv, sub_usize_Some by lia. cbn [mbind option_bind]. f_equal. rewrite Z.add_simpl_l.
  destruct (Z.leb_spec (leaf_size l + (Z.of_nat (length value) - Z.of_nat (length old))) (Z.of_nat (length p))); [apply Z.leb_le|apply Z.leb_gt]; lia.
Qed.
(** The count of pairs has 16 bits. *)
Lemma insert_overflows p l i key value : leaf_is p l → Z.of_nat (length l) + 1 = 2 ^ 16 → insert kf vf p i key value = None.
Proof.
  intros Hl Hn. unfold insert. rewrite (accessor_ok p l Hl). cbn [mbind option_bind num_pairs]. destruct (total_length _) as [t|]; [|done]. cbn [mbind option_bind].
  destruct (check _); [|done]. cbn [mbind option_bind]. destruct (sub_usize _ 1) as [m|]; [|done]. cbn [mbind option_bind]. destruct (key_end _ m) as [ke|]; [|done]. cbn [mbind option_bind].
  destruct (value_end _ m) as [ve|]; [|done]. cbn [mbind option_bind]. destruct (fold_opt _ p _) as [p1|]; [|done]. cbn [mbind option_bind]. destruct (fold_opt _ p1 _) as [p2|]; [|done]. cbn [mbind option_bind].
  by rewrite Hn.
Qed.
Lemma checksum_ok `{CS : Checksum} p l : leaf_is p l → leaf_checksum p kf vf = Some (Ok (xxh3_checksum (take (Z.to_nat (leaf_size l)) p))).
Proof.
  intros Hl. pose proof Hl as [Hfit _]. destruct (total_length_ok p l Hl) as [_ Htot]. destruct (last_ok l Hfit) as [El Hlast]. destruct (key_off_bounds l (length l) Hfit) as (Hk0 & Hkv & Hv0 & Ev & _).
  unfold leaf_checksum. rewrite (accessor_ok p l Hl). cbn [mbind option_bind num_pairs]. rewrite El. cbn [mbind option_bind]. rewrite value_end_ok, Hlast, Ev by (done || lia).
  rewrite (proj2 (Z.ltb_ge _ _)) by lia. rewrite byte_range_Some by lia. cbn [mbind option_bind]. do 3 f_equal. unfold extract. by rewrite Z.sub_0_r, drop_0.
Qed.

Section claims.
Context `{Key} `{CS : Checksum} {S : Type} `{PageMemory S}.

End claims.
End leaf.

(** * A concrete leaf *)
Definition number_key : Key.
Proof.
  refine {| key_compare a b := of_le a ?= of_le b |}.
  - intros a b. apply Z.compare_antisym.
  - intros a b c Hab Hbc. rewrite Z.compare_ngt_iff in *. lia.
Defined.
Definition roomy_memory : PageMemory ().
Proof.
  refine {| allocate s n := (Ok (mkPage 0 1 0, replicate (Z.to_nat (n + 16)) Byte.xee), s) |}.
  intros s n p mem s' [= _ <- _]. rewrite length_replicate. lia.
Defined.
Definition demo_pairs : list (bytes * bytes) := [([Byte.x01], [Byte.x61; Byte.x62]); ([Byte.x03], [])].
Definition demo_builder : LeafBuilder := push (push (builder_new None None) [Byte.x01] [Byte.x61; Byte.x62]) [Byte.x03] [].
End Leaf.
