(* ===== verification/RedbRegions.v ===== *)
(** RedbRegions: the pages of the database, over its regions.

    Models [region.rs] of [poc/redb-fork/src/tree_store/page_store/] and the
    allocation of pages by [page_manager.rs]: the tracker that says which regions may
    have a free block of an order, the allocators of the regions, and the operations
    of the memory manager that allocate, free, grow and shrink the file and commit a
    transaction.  The answer of the storage to a change of length is an argument; the contents of pages after
    their allocation, the caches and the checks of a debug build on open pages are
    not modelled.  The manager is the memory of the builders of leaves
    ([page_memory], [regions_build_leaf]).  [None] is a panic. *)
From S2P Require Import Prelude Windows RedbGroup RedbBitmap RedbBlocks RedbBuddy RedbLayout RedbHeader RedbLeaf.
Import Layout Header.
Local Open Scope Z_scope.

Module Regions.
Import Bitmap(BtreeBitmap) Buddy(BuddyAllocator).

(** * The tracker of regions *)
Record RegionTracker := mkTracker { order_trackers : list BtreeBitmap }.

Definition tracker_new (regions orders : Z) : option RegionTracker :=
  mkTracker <$> mapM (λ _, Bitmap.new_padded regions regions MAX_REGIONS) (seqZ 0 orders).
Definition tracker_to_vec (t : RegionTracker) : option bytes :=
  orders ← try_u32 (Z.of_nat (length (order_trackers t)));
  vecs ← mapM Bitmap.to_vec (order_trackers t);
  allocator_lens ← mapM (λ v : bytes, try_u32 (Z.of_nat (length v))) vecs;
  Some (le_bytes 4 orders ++ mjoin (le_bytes 4 <$> allocator_lens) ++ mjoin vecs).
(** The two loops of [from_bytes]: the lengths, then the bitmaps. *)
Fixpoint read_lens (n : nat) (start : Z) (page : bytes) : option (list Z) :=
  match n with
  | O => Some []
  | S n => allocator_len ← u32_at page start; cons allocator_len <$> read_lens n (start + 4) page
  end.
Fixpoint read_bitmaps (lens : list Z) (start : Z) (page : bytes) : option (list BtreeBitmap) :=
  match lens with
  | [] => Some []
  | allocator_len :: lens =>
      part ← byte_range page start (start + allocator_len);
      bm ← Bitmap.from_bytes part;
      cons bm <$> read_bitmaps lens (start + allocator_len) page
  end.
Definition tracker_from_bytes (page : bytes) : option RegionTracker :=
  orders ← u32_at page 0;
  lens ← read_lens (Z.to_nat orders) 4 page;
  mkTracker <$> read_bitmaps lens (4 + 4 * orders) page.
Definition tracker_find_free (t : RegionTracker) (order : Z) : option (option Z) :=
  order_trackers t !! Z.to_nat order ≫= Bitmap.find_first_unset.
(** [self.order_trackers[i]] replaced by what [f] makes of it. *)
Definition on_tracker (f : BtreeBitmap → option BtreeBitmap) (t : RegionTracker) (i : Z) : option RegionTracker :=
  bm ← order_trackers t !! Z.to_nat i;
  bm ← f bm;
  Some (mkTracker (<[Z.to_nat i := bm]> (order_trackers t))).
Definition tracker_mark_free (t : RegionTracker) (order region : Z) : option RegionTracker :=
  fold_opt (on_tracker (λ bm, Bitmap.clear bm region)) t (seqZ 0 (order + 1)).
Definition tracker_mark_full (t : RegionTracker) (order region : Z) : option RegionTracker :=
  let orders := Z.of_nat (length (order_trackers t)) in
  check (order <? orders);;
  fold_opt (on_tracker (λ bm, Bitmap.set bm region)) t (seqZ order (orders - order)).
Definition tracker_resize (t : RegionTracker) (new_capacity : Z) : option RegionTracker :=
  mkTracker <$> mapM (λ bm, Bitmap.resize bm new_capacity true) (order_trackers t).
Definition tracker_len (t : RegionTracker) : option Z := order_trackers t !! 0%nat ≫= Bitmap.len.

(** * The allocators of the regions *)
Record Allocators := mkAllocators { region_tracker : RegionTracker; region_allocators : list BuddyAllocator }.
#[export] Instance Allocators_settable : Settable Allocators := λ a, mkAllocators (region_tracker a) (region_allocators a).

Definition INITIAL_REGIONS : Z := 1000.
(** A turn of the loop of [new]. *)
Definition new_region (layout : DatabaseLayout) (a : Allocators) (i : Z) : option Allocators :=
  region_layout ← region_layout layout i;
  allocator ← Buddy.new (num_pages region_layout) (num_pages (full_region_layout layout));
  let max_order := Buddy.get_max_order allocator in
  tracker ← tracker_mark_free (region_tracker a) max_order i;
  Some (mkAllocators tracker (region_allocators a ++ [allocator])).
Definition allocators_new (layout : DatabaseLayout) : option Allocators :=
  let initial_regions := Z.max INITIAL_REGIONS (num_regions layout) in
  region_tracker ← tracker_new initial_regions (Buddy.MAX_MAX_PAGE_ORDER + 1);
  fold_opt (new_region layout) (mkAllocators region_tracker []) (seqZ 0 (num_regions layout)).

Definition last_region_layout (layout : DatabaseLayout) : RegionLayout :=
  default (full_region_layout layout) (trailing_region_layout layout).
Definition shrink_to (a : Allocators) (new_layout : DatabaseLayout) : option Allocators :=
  let regions := num_regions new_layout in
  tracker ← fold_opt (λ t i, tracker_mark_full t 0 i) (region_tracker a)
    (seqZ regions (Z.of_nat (length (region_allocators a)) - regions));
  let kept := take (Z.to_nat regions) (region_allocators a) in
  allocator ← last kept;
  let last_region := last_region_layout new_layout in
  allocator ← (if num_pages last_region <? Buddy.len allocator then Buddy.resize allocator (num_pages last_region) else Some allocator);
  Some (mkAllocators tracker (<[pred (length kept) := allocator]> kept)).
(** A turn of the loop that grows: a region that was there, or a new one. *)
Definition grow_region (new_layout : DatabaseLayout) (old_num_regions : Z) (a : Allocators) (i : Z) : option Allocators :=
  new_region ← region_layout new_layout i;
  if i <? old_num_regions then
    allocator ← region_allocators a !! Z.to_nat i;
    check (Buddy.len allocator <=? num_pages new_region);;
    if num_pages new_region =? Buddy.len allocator then Some a else
    allocator ← Buddy.resize allocator (num_pages new_region);
    highest ← Buddy.highest_free_order allocator;
    highest_free ← highest;
    tracker ← tracker_mark_free (region_tracker a) highest_free i;
    Some (mkAllocators tracker (<[Z.to_nat i := allocator]> (region_allocators a)))
  else
    allocator ← Buddy.new (num_pages new_region) (num_pages (full_region_layout new_layout));
    highest ← Buddy.highest_free_order allocator;
    highest_free ← highest;
    len ← tracker_len (region_tracker a);
    tracker ← (if len <=? i then tracker_resize (region_tracker a) (i + 1) else Some (region_tracker a));
    tracker ← tracker_mark_free tracker highest_free i;
    Some (mkAllocators tracker (region_allocators a ++ [allocator])).
Definition grow_to (a : Allocators) (new_layout : DatabaseLayout) : option Allocators :=
  fold_opt (grow_region new_layout (Z.of_nat (length (region_allocators a)))) a (seqZ 0 (num_regions new_layout)).
Definition resize_to (a : Allocators) (new_layout : DatabaseLayout) : option Allocators :=
  match num_regions new_layout ?= Z.of_nat (length (region_allocators a)) with
  | Lt => shrink_to a new_layout
  | Gt => grow_to a new_layout
  | Eq =>
      allocator ← last (region_allocators a);
      match num_pages (last_region_layout new_layout) ?= Buddy.len allocator with
      | Lt => shrink_to a new_layout
      | Eq => Some a
      | Gt => grow_to a new_layout
      end
  end.

(** * The memory manager *)
Record InMemoryState := mkState { header : DatabaseHeader; allocators : Allocators }.
#[export] Instance InMemoryState_settable : Settable InMemoryState := λ s, mkState (header s) (allocators s).

Definition state_new (header : DatabaseHeader) : option InMemoryState :=
  layout ← header_layout header;
  mkState header <$> allocators_new layout.
Definition get_region (s : InMemoryState) (region : Z) : option BuddyAllocator :=
  region_allocators (allocators s) !! Z.to_nat region.
(** [*self.get_region_mut(region) = b] and [*self.get_region_tracker_mut() = t] *)
Definition set_region (s : InMemoryState) (region : Z) (b : BuddyAllocator) : InMemoryState :=
  s <| allocators := allocators s <| region_allocators := <[Z.to_nat region := b]> (region_allocators (allocators s)) |> |>.
Definition set_tracker (s : InMemoryState) (t : RegionTracker) : InMemoryState :=
  s <| allocators := allocators s <| region_tracker := t |> |>.

(** [usize::is_power_of_two], [next_power_of_two] and [trailing_zeros] *)
Definition is_power_of_two (x : Z) : bool := (0 <? x) && (Z.land x (x - 1) =? 0).
Definition next_power_of_two (x : Z) : Z := 2 ^ Z.log2_up x.
Definition ceil_log2 (x : Z) : option Z :=
  if is_power_of_two x then Buddy.try_u8 (Buddy.zeros_from 64 0 x)
  else Buddy.try_u8 (Buddy.zeros_from 64 0 (next_power_of_two x)).

(** The loop of [allocate_helper_retry]: a turn that fails marks a region. *)
Fixpoint retry_loop (fuel : nat) (s : InMemoryState) (required_order : Z) (lowest : bool) : option (option PageNumber * InMemoryState) :=
  match fuel with
  | O => None
  | S fuel =>
      candidate ← tracker_find_free (region_tracker (allocators s)) required_order;
      match candidate with
      | None => Some (None, s)
      | Some candidate_region =>
          region ← get_region s candidate_region;
          '(r, region) ← (if lowest then Buddy.alloc_lowest region required_order else Buddy.alloc region required_order);
          let s := set_region s candidate_region region in
          match r with
          | Some page => p ← page_new candidate_region page required_order; Some (Some p, s)
          | None =>
              tracker ← tracker_mark_full (region_tracker (allocators s)) required_order candidate_region;
              retry_loop fuel (set_tracker s tracker) required_order lowest
          end
      end
  end.
Definition allocate_helper_retry (s : InMemoryState) (required_order : Z) (lowest : bool) : option (option PageNumber * InMemoryState) :=
  retry_loop (S (length (region_allocators (allocators s)))) s required_order lowest.

(** The layout that [grow] asks for. *)
Definition next_desired_size (layout : DatabaseLayout) (required_order page_size : Z) : Z :=
  let required_growth := 2 ^ required_order * page_size in
  let max_region_size := num_pages (full_region_layout layout) * page_size in
  if 0 <? num_full_regions layout then
    match trailing_region_layout layout with
    | Some trailing =>
        if 2 * required_growth <? max_region_size - region_usable_bytes trailing
        then usable_bytes layout + (max_region_size - region_usable_bytes trailing)
        else usable_bytes layout + 2 * max_region_size - region_usable_bytes trailing
    | None => usable_bytes layout + max_region_size
    end
  else Z.max (usable_bytes layout * 2) (usable_bytes layout + required_growth * 2).
(** [resized] is the answer of the storage: with an error nothing changes. *)
Definition grow (s : InMemoryState) (required_order : Z) (resized : bool) : option (result () InMemoryState) :=
  layout ← header_layout (header s);
  let size := next_desired_size layout required_order (header_page_size (header s)) in
  new_layout ← calculate size (num_pages (full_region_layout layout)) (header_pages (full_region_layout layout)) (header_page_size (header s));
  len ← database_len layout;
  new_len ← database_len new_layout;
  check (len <=? new_len);;
  if negb resized then Some (Err ()) else
  a ← resize_to (allocators s) new_layout;
  h ← set_layout (header s) new_layout;
  Some (Ok (mkState h a)).
(** The part of [allocate_helper] under the lock: the page, and its bytes in the file. *)
Definition allocate_page (s : InMemoryState) (allocation_size page_size : Z) (lowest resized : bool)
    : option (result () (PageNumber * (Z * Z)) * InMemoryState) :=
  check (negb (page_size =? 0));;
  let required_pages := div_ceil allocation_size page_size in
  required_order ← ceil_log2 required_pages;
  '(r, s) ← allocate_helper_retry s required_order lowest;
  '(r, s) ← (match r with
    | Some page_number => Some (Ok page_number, s)
    | None =>
        g ← grow s required_order resized;
        match g with
        | Err e => Some (Err e, s)
        | Ok s =>
            '(r, s) ← allocate_helper_retry s required_order lowest;
            page_number ← r;
            Some (Ok page_number, s)
        end
    end);
  match r with
  | Err e => Some (Err e, s)
  | Ok page_number =>
      layout ← header_layout (header s);
      range ← page_range layout page_number;
      Some (Ok (page_number, range), s)
  end.
(** The page as the caller gets it, filled with [0xFF] in a debug build, which also
    asserts that it is large enough. *)
Definition allocate_helper (s : InMemoryState) (allocation_size page_size : Z) (lowest resized : bool)
    : option (result () (PageNumber * bytes) * InMemoryState) :=
  '(r, s) ← allocate_page s allocation_size page_size lowest resized;
  match r with
  | Err e => Some (Err e, s)
  | Ok (page_number, (start, stop)) =>
      let len := stop - start in
      check (allocation_size <=? len);;
      Some (Ok (page_number, replicate (Z.to_nat len) Byte.xff), s)
  end.
Definition free_page (s : InMemoryState) (page : PageNumber) : option InMemoryState :=
  region ← get_region s (region page);
  region' ← Buddy.free_page region (page_index page) (page_order page);
  let s := set_region s (Layout.region page) region' in
  tracker ← tracker_mark_free (region_tracker (allocators s)) (page_order page) (Layout.region page);
  let s := set_tracker s tracker in
  layout ← header_layout (header s);
  _range ← page_range layout page;
  Some s.
Definition mark_page_allocated (s : InMemoryState) (page : PageNumber) : option InMemoryState :=
  allocator ← get_region s (region page);
  set_region s (region page) <$> Buddy.record_alloc allocator (page_index page) (page_order page).
Definition try_shrink (s : InMemoryState) (force : bool) : option (bool * InMemoryState) :=
  layout ← header_layout (header s);
  check (0 <? num_regions layout);;
  let last_region_index := num_regions layout - 1 in
  last_allocator ← get_region s last_region_index;
  trailing_free ← Buddy.trailing_free_pages last_allocator;
  let last_allocator_len := Buddy.len last_allocator in
  if trailing_free =? 0 then Some (false, s)
  else if (trailing_free <? last_allocator_len / 2) && negb force then Some (false, s) else
  let reduce_by :=
    if (1 <? num_regions layout) && (trailing_free =? last_allocator_len) then trailing_free
    else if force then Z.min (last_allocator_len - 1) trailing_free
    else trailing_free / 2 in
  new_layout ← reduce_last_region layout reduce_by;
  a ← resize_to (allocators s) new_layout;
  new_len ← database_len new_layout;
  len ← database_len layout;
  check (new_len <=? len);;
  h ← set_layout (header s) new_layout;
  Some (true, mkState h a).
Inductive ShrinkPolicy := Default | Maximum | Never.
(** The state of the memory manager, and what it asks of the file for the header.
    The lock is held by this commit alone: the header has not changed when it is put
    back.  An error of the file is not modelled. *)
Definition commit_inner {CS : Checksum} (s : InMemoryState) (data_root system_root : option BtreeHeader) (transaction_id : Z) (two_phase : bool)
    (shrink_policy : ShrinkPolicy) : option (InMemoryState * list HeaderIo) :=
  '(shrunk, s) ← (match shrink_policy with
    | Never => Some (false, s)
    | Default => try_shrink s false
    | Maximum => try_shrink s true
    end);
  '(h, io) ← commit_header (header s) shrunk data_root system_root transaction_id two_phase;
  Some (s <| header := h |>, io).
Definition count_pages (count : BuddyAllocator → option Z) (s : InMemoryState) : option Z :=
  layout ← header_layout (header s);
  fold_opt (λ n i, region ← get_region s i; c ← count region; Some (n + c)) 0 (seqZ 0 (num_regions layout)).
Definition count_allocated_pages : InMemoryState → option Z := count_pages Buddy.count_allocated_pages.
Definition count_free_pages : InMemoryState → option Z := count_pages Buddy.count_free_pages.

(** * The parts *)

(** ** The tracker: for each order, the regions not marked full *)
Definition ORDERS : Z := Buddy.MAX_MAX_PAGE_ORDER + 1.
Definition tracker_is (t : RegionTracker) (n : Z) (F : Z → gset Z) : Prop :=
  Z.of_nat (length (order_trackers t)) = ORDERS ∧ 0 ≤ n ≤ MAX_REGIONS
  ∧ ∀ o, 0 ≤ o < ORDERS → ∃ bm, order_trackers t !! Z.to_nat o = Some bm ∧ Bitmap.bt_ok MAX_REGIONS bm n (F o).
Lemma tracker_ext t n F F' : (∀ o, 0 ≤ o < ORDERS → F o = F' o) → tracker_is t n F → tracker_is t n F'.
Proof. intros HF (Hl & Hn & Ht). split; [done|split; [done|]]. intros o Ho. destruct (Ht o Ho) as (bm & ? & Hb). exists bm. by rewrite <-HF. Qed.
Lemma on_tracker_ok f t n F o (X : gset Z) : tracker_is t n F → 0 ≤ o < ORDERS →
  (∀ bm, Bitmap.bt_ok MAX_REGIONS bm n (F o) → ∃ bm', f bm = Some bm' ∧ Bitmap.bt_ok MAX_REGIONS bm' n X) →
  ∃ t', on_tracker f t o = Some t' ∧ tracker_is t' n (λ k, if decide (k = o) then X else F k).
Proof.
  intros (Hl & Hn & Ht) Ho Hf. destruct (Ht o Ho) as (bm & E & Hb). destruct (Hf bm Hb) as (bm' & E' & Hb').
  unfold on_tracker. rewrite E. cbn [mbind option_bind]. rewrite E'. cbn [mbind option_bind]. eexists. split; [done|].
  split; [cbn [order_trackers]; by rewrite length_insert|split; [done|]]. cbn [order_trackers]. intros k Hk. destruct (decide (k = o)) as [->|Hne].
  - exists bm'. rewrite list_lookup_insert_eq; [done|]. by eapply lookup_lt_Some.
  - rewrite list_lookup_insert_ne by lia. by apply Ht.
Qed.
Lemma mark_free_tracker t n F o i : tracker_is t n F → 0 ≤ o < ORDERS → 0 ≤ i < n →
  ∃ t', tracker_mark_free t o i = Some t' ∧ tracker_is t' n (λ k, if decide (k ≤ o) then F k ∪ {[i]} else F k).
Proof.
  intros Ht Ho Hi. unfold tracker_mark_free.
  destruct (fold_range (on_tracker (λ bm, Bitmap.clear bm i)) (λ j t, tracker_is t n (λ k, if decide (k < j) then F k ∪ {[i]} else F k)) 0 (o + 1) t)
    as (t' & E & Ht'); [lia| | |].
  - apply (tracker_ext _ _ F); [|done]. intros k Hk. by rewrite decide_False by lia.
  - intros j a Hj Ha. destruct (on_tracker_ok (λ bm, Bitmap.clear bm i) a n _ j (F j ∪ {[i]}) Ha) as (a' & E & Ha'); [lia| |].
    + intros bm Hb. rewrite decide_False in Hb by lia. by apply Bitmap.bt_clear.
    + exists a'. split; [done|]. eapply tracker_ext; [|exact Ha']. intros k Hk. cbn. destruct (decide (k = j)) as [->|]; [by rewrite decide_True by lia|].
      destruct (decide (k < j)); [by rewrite decide_True by lia|by rewrite decide_False by lia].
  - exists t'. split; [done|]. eapply tracker_ext; [|exact Ht']. intros k Hk. cbn.
    destruct (decide (k ≤ o)); [by rewrite decide_True by lia|by rewrite decide_False by lia].
Qed.
Lemma mark_full_tracker t n F o i : tracker_is t n F → 0 ≤ o < ORDERS → 0 ≤ i < n →
  ∃ t', tracker_mark_full t o i = Some t' ∧ tracker_is t' n (λ k, if decide (o ≤ k) then F k ∖ {[i]} else F k).
Proof.
  intros Ht Ho Hi. pose proof Ht as (Hl & _). unfold tracker_mark_full. rewrite Hl, (proj2 (Z.ltb_lt _ _)) by lia. cbn [check mbind option_bind].
  destruct (fold_range (on_tracker (λ bm, Bitmap.set bm i)) (λ j t, tracker_is t n (λ k, if decide (o ≤ k < j) then F k ∖ {[i]} else F k)) o (ORDERS - o) t)
    as (t' & E & Ht'); [lia| | |].
  - apply (tracker_ext _ _ F); [|done]. intros k Hk. by rewrite decide_False by lia.
  - intros j a Hj Ha. destruct (on_tracker_ok (λ bm, Bitmap.set bm i) a n _ j (F j ∖ {[i]}) Ha) as (a' & E & Ha'); [lia| |].
    + intros bm Hb. rewrite decide_False in Hb by lia. by apply Bitmap.bt_set.
    + exists a'. split; [done|]. eapply tracker_ext; [|exact Ha']. intros k Hk. cbn. destruct (decide (k = j)) as [->|]; [by rewrite decide_True by lia|].
      destruct (decide (o ≤ k < j)); [by rewrite decide_True by lia|by rewrite decide_False by lia].
  - exists t'. split; [done|]. eapply tracker_ext; [|exact Ht']. intros k Hk. cbn.
    destruct (decide (o ≤ k)); [by rewrite decide_True by lia|by rewrite decide_False by lia].
Qed.
Lemma mapM_bitmaps f t n n' F : tracker_is t n F → 0 ≤ n' ≤ MAX_REGIONS →
  (∀ o bm, 0 ≤ o < ORDERS → Bitmap.bt_ok MAX_REGIONS bm n (F o) → ∃ bm', f bm = Some bm' ∧ Bitmap.bt_ok MAX_REGIONS bm' n' (F o)) →
  ∃ bms, mapM f (order_trackers t) = Some bms ∧ tracker_is (mkTracker bms) n' F.
Proof.
  intros (Hl & Hn & Ht) Hn' Hf.
  destruct (mapM_image f (λ bm bm', f bm = Some bm') (order_trackers t)) as (bms & E & H2).
  { intros bm [i Hi]%list_elem_of_lookup. pose proof (lookup_lt_Some _ _ _ Hi). destruct (Ht (Z.of_nat i)) as (bm0 & E0 & Hb); [lia|].
    rewrite Nat2Z.id, Hi in E0. injection E0 as <-. destruct (Hf (Z.of_nat i) bm) as (bm' & E' & _); [lia|done|]. by exists bm'. }
  exists bms. split; [done|]. split_and!; try lia; cbn [order_trackers]; [by rewrite <-(Forall2_length _ _ _ H2)|].
  intros o Ho. destruct (Ht o Ho) as (bm & Ebm & Hb). destruct (Forall2_lookup_l _ _ _ _ _ H2 Ebm) as (bm' & E' & Ef).
  exists bm'. split; [done|]. destruct (Hf o bm Ho Hb) as (bm2 & E2 & Hb2). congruence.
Qed.
Lemma resize_tracker t n F n' : tracker_is t n F → n ≤ n' ≤ MAX_REGIONS → (∀ o i, 0 ≤ o < ORDERS → i ∈ F o → i < n') →
  ∃ t', tracker_resize t n' = Some t' ∧ tracker_is t' n' F.
Proof.
  intros Ht Hn' HF. pose proof Ht as (_ & Hn & _). destruct (mapM_bitmaps (λ bm, Bitmap.resize bm n' true) t n n' F Ht) as (bms & E & Ht'); [lia| |].
  - intros o bm Ho Hb. apply (Bitmap.bt_resize MAX_REGIONS bm n (F o) n' Hb); [lia|]. intros i Hi. by apply (HF o).
  - exists (mkTracker bms). unfold tracker_resize. by rewrite E.
Qed.
Lemma len_tracker t n F : tracker_is t n F → tracker_len t = Some n.
Proof.
  intros (_ & _ & Ht). destruct (Ht 0) as (bm & E & Hb); [unfold ORDERS, Buddy.MAX_MAX_PAGE_ORDER; lia|]. unfold tracker_len.
  change (Z.to_nat 0) with 0%nat in E. rewrite E. cbn [mbind option_bind]. by eapply Bitmap.bt_len.
Qed.
Lemma find_free_tracker t n F o : tracker_is t n F → 0 ≤ o < ORDERS → ∃ r, tracker_find_free t o = Some r
  ∧ match r with Some i => i ∈ F o ∧ 0 ≤ i < n ∧ ∀ j, j ∈ F o → i ≤ j | None => F o = ∅ end.
Proof.
  intros (_ & _ & Ht) Ho. destruct (Ht o Ho) as (bm & E & Hb). unfold tracker_find_free. rewrite E. cbn [mbind option_bind].
  destruct (Bitmap.find_first_ok _ _ _ Hb) as (r & -> & Hr). exists r. split; [done|]. destruct r as [i|]; [|done].
  destruct Hr as [Hin Hmin]. pose proof (Bitmap.bt_bound _ _ _ i Hb Hin). split; [done|split; [lia|done]].
Qed.
Lemma new_tracker n : 0 ≤ n ≤ MAX_REGIONS → ∃ t, tracker_new n ORDERS = Some t ∧ tracker_is t n (λ _, ∅).
Proof.
  intros Hn. unfold MAX_REGIONS in Hn. destruct (Bitmap.new_padded_ok MAX_REGIONS n) as (bm & E & Hb); [unfold MAX_REGIONS; lia|unfold MAX_REGIONS; lia|].
  destruct (mapM_image (λ _ : Z, Bitmap.new_padded n n MAX_REGIONS) (λ _ b, b = bm) (seqZ 0 ORDERS)) as (bms & Ebms & H2); [by intros; exists bm|].
  unfold tracker_new. rewrite Ebms. eexists. split; [done|]. pose proof (Forall2_length _ _ _ H2) as Hl. rewrite length_seqZ in Hl.
  split; [cbn [order_trackers]; unfold ORDERS, Buddy.MAX_MAX_PAGE_ORDER in *; lia|]. split; [unfold MAX_REGIONS; lia|]. intros o Ho. cbn [order_trackers].
  destruct (lookup_lt_is_Some_2 bms (Z.to_nat o)) as [b Eb]; [lia|]. exists b. split; [done|].
  by destruct (Forall2_lookup_r _ _ _ _ _ H2 Eb) as (_ & _ & ->).
Qed.

(** ** The order of an allocation *)
Lemma zeros_from_pow2 fuel i k : 0 ≤ i ≤ k → k < i + Z.of_nat fuel → Buddy.zeros_from fuel i (2 ^ k) = k - i.
Proof.
  revert i. induction fuel as [|fuel IH]; intros i Hi Hk; [lia|]. cbn [Buddy.zeros_from]. rewrite Z.pow2_bits_eqb by lia.
  destruct (Z.eqb_spec k i); [lia|]. rewrite IH; lia.
Qed.
Lemma is_power_of_two_ok x : is_power_of_two x = true → x = 2 ^ Z.log2_up x.
Proof.
  unfold is_power_of_two. intros [Hx%Z.ltb_lt Hl%Z.eqb_eq]%andb_true_iff. pose proof (Z.log2_spec x Hx) as [Hlo Hhi]. pose proof (Z.log2_nonneg x).
  destruct (Z.eq_dec x (2 ^ Z.log2 x)) as [E|Hne]; [rewrite E at 2; by rewrite Z.log2_up_pow2|]. exfalso.
  assert (Z.log2 (x - 1) = Z.log2 x) as El by (apply Z.log2_unique; lia).
  assert (Z.testbit (Z.land x (x - 1)) (Z.log2 x) = true) as Hb; [|rewrite Hl, Z.bits_0 in Hb; done].
  rewrite Z.land_spec, Z.bit_log2 by lia. rewrite <-El. apply Z.bit_log2. pose proof (Z.pow_pos_nonneg 2 (Z.log2 x)). lia.
Qed.
Lemma ceil_log2_ok x : 0 ≤ x ≤ 2 ^ 20 → ceil_log2 x = Some (Z.log2_up x) ∧ 0 ≤ Z.log2_up x ≤ 20.
Proof.
  intros Hx. pose proof (Z.log2_up_nonneg x). assert (Z.log2_up x ≤ 20) by (rewrite <-(Z.log2_up_pow2 20) by lia; apply Z.log2_up_le_mono; lia).
  split; [|lia]. unfold ceil_log2. assert (Buddy.try_u8 (Buddy.zeros_from 64 0 (2 ^ Z.log2_up x)) = Some (Z.log2_up x)) as E.
  { rewrite zeros_from_pow2, Z.sub_0_r by lia. unfold Buddy.try_u8. by rewrite (proj2 (Z.leb_le _ _)), (proj2 (Z.ltb_lt _ _)) by lia. }
  destruct (is_power_of_two x) eqn:Ep; [|exact E]. by rewrite (is_power_of_two_ok x Ep) at 1.
Qed.
Definition order_of (ps size : Z) : Z := Z.log2_up (div_ceil size ps).
Lemma order_enough ps size : 0 < ps → 0 ≤ size → size ≤ 2 ^ order_of ps size * ps ∧ ∀ k, 0 ≤ k → size ≤ 2 ^ k * ps → order_of ps size ≤ k.
Proof.
  intros Hps Hs. unfold order_of, div_ceil. pose proof (Z.div_mod (size + ps - 1) ps ltac:(lia)) as Hd. pose proof (Z.mod_pos_bound (size + ps - 1) ps Hps) as Hm.
  set (q := (size + ps - 1) / ps) in *. assert (0 ≤ q) by (apply Z.div_pos; lia). split.
  - assert (q ≤ 2 ^ Z.log2_up q).
    { destruct (Z.le_gt_cases q 1) as [?|Hq]; [pose proof (Z.pow_pos_nonneg 2 (Z.log2_up q)); pose proof (Z.log2_up_nonneg q); lia|]. apply Z.log2_up_spec. lia. }
    assert (q * ps ≤ 2 ^ Z.log2_up q * ps) by (apply Z.mul_le_mono_nonneg_r; lia). lia.
  - intros k Hk Hle. assert (q ≤ 2 ^ k).
    { assert (q < 2 ^ k + 1); [|lia]. apply (Z.mul_lt_mono_pos_l ps); lia. }
    rewrite <-(Z.log2_up_pow2 k) by done. by apply Z.log2_up_le_mono.
Qed.

(** ** The allocator of a region, as its specification says *)
Section pages.
Context (cap h ps top : Z) (Htop : 0 ≤ top ≤ Buddy.MAX_MAX_PAGE_ORDER) (Hcap : cap = 2 ^ top) (Hh : 0 ≤ h) (Hps : 0 < ps) (Hspace : cap * ps ≤ 2 ^ 32).
Abbreviation all_free := Buddy.all_free.
Abbreviation in_block := Buddy.in_block.
Abbreviation implements := Buddy.implements.

Lemma cap_pos : 0 < cap.
Proof. rewrite Hcap. apply Z.pow_pos_nonneg; lia. Qed.
Lemma cap_limit : 0 < cap ≤ MAX_REGIONS.
Proof. split; [apply cap_pos|]. unfold Buddy.MAX_MAX_PAGE_ORDER in Htop. rewrite Hcap. apply (Z.pow_le_mono_r 2 top 20); lia. Qed.
Lemma cap_log : Z.log2 cap = top.
Proof. rewrite Hcap. apply Z.log2_pow2. lia. Qed.
Lemma region_facts b n Q : implements cap b (n, Q) → Buddy.len b = n ∧ Buddy.max_order b = top ∧ 0 ≤ n ≤ cap ∧ ∀ x, x ∈ Q → 0 ≤ x < n.
Proof.
  intros (A & Hok & HQ). cbn [fst snd] in *. pose proof Hok as (El & Eo & Hn & _). rewrite cap_log in *. split; [done|split; [done|split; [lia|]]].
  intros x Hx. by eapply Buddy.ok_covers, HQ.
Qed.
Lemma region_alloc b n Q o (lowest : bool) : implements cap b (n, Q) → 0 ≤ o →
  ∃ r b' Q', (if lowest then Buddy.alloc_lowest b o else Buddy.alloc b o) = Some (r, b') ∧ implements cap b' (n, Q')
    ∧ match r with
      | Some p => all_free Q o p ∧ ∀ x, x ∈ Q' ↔ x ∈ Q ∧ ¬ in_block o p x
      | None => Q' = Q ∧ (o ≤ top → ∀ p, ¬ all_free Q o p)
      end.
Proof.
  intros Hb Ho. destruct (Buddy.step_updates cap b (n, Q) (if lowest then Buddy.AllocLowest o else Buddy.Alloc o) Hb) as (out & b' & [n' Q'] & E & Ha & Hb').
  - by destruct lowest.
  - by destruct lowest.
  - assert (∃ r, (if lowest then Buddy.alloc_lowest b o else Buddy.alloc b o) = Some (r, b') ∧ out = Buddy.Block r) as (r & Er & ->).
    { destruct lowest; cbn [Buddy.buddy_step] in E; [destruct (Buddy.alloc_lowest b o) as [[r b1]|]|destruct (Buddy.alloc b o) as [[r b1]|]]; try done;
        cbn [mbind option_bind] in E; injection E as <- <-; by exists r. }
    exists r, b', Q'. split; [done|]. rewrite <-cap_log. destruct lowest, r; cbn [Buddy.answers] in Ha; naive_solver.
Qed.
Lemma region_free b n Q p o : implements cap b (n, Q) → 0 ≤ o ≤ top → 0 ≤ p → (p + 1) * 2 ^ o ≤ n → Buddy.none_free Q o p →
  ∃ b' Q', Buddy.free_page b p o = Some b' ∧ implements cap b' (n, Q') ∧ ∀ x, x ∈ Q' ↔ x ∈ Q ∨ in_block o p x.
Proof.
  intros Hb Ho Hp Hn Hf. destruct (Buddy.step_updates cap b (n, Q) (Buddy.Free p o) Hb) as (out & b' & [n' Q'] & E & Ha & Hb'); [cbn; rewrite cap_log; tauto|done|].
  cbn [Buddy.buddy_step] in E. destruct (Buddy.free_page b p o) as [b1|]; [|done]. cbn in E. injection E as <- <-. destruct Ha as [-> HQ]. by exists b1, Q'.
Qed.
Lemma region_record b n Q p o : implements cap b (n, Q) → 0 ≤ o ≤ top → all_free Q o p →
  ∃ b' Q', Buddy.record_alloc b p o = Some b' ∧ implements cap b' (n, Q') ∧ ∀ x, x ∈ Q' ↔ x ∈ Q ∧ ¬ in_block o p x.
Proof.
  intros Hb Ho Hf. destruct (Buddy.step_updates cap b (n, Q) (Buddy.RecordAlloc p o) Hb) as (out & b' & [n' Q'] & E & Ha & Hb'); [cbn; rewrite cap_log; tauto|done|].
  cbn [Buddy.buddy_step] in E. destruct (Buddy.record_alloc b p o) as [b1|]; [|done]. cbn in E. injection E as <- <-. destruct Ha as [-> HQ]. by exists b1, Q'.
Qed.
Lemma region_resize b n Q m : implements cap b (n, Q) → 0 < n < m ∧ m ≤ cap ∨ 0 ≤ m ≤ n ∧ (∀ x, m ≤ x < n → x ∈ Q) →
  ∃ b' Q', Buddy.resize b m = Some b' ∧ implements cap b' (m, Q') ∧ ∀ x, x ∈ Q' ↔ (x ∈ Q ∨ n ≤ x) ∧ 0 ≤ x < m.
Proof.
  intros Hb Hm. destruct (Buddy.step_updates cap b (n, Q) (Buddy.Resize m) Hb) as (out & b' & [n' Q'] & E & Ha & Hb'); [exact Hm|done|].
  cbn [Buddy.buddy_step] in E. destruct (Buddy.resize b m) as [b1|]; [|done]. cbn in E. injection E as <- <-. destruct Ha as [-> HQ]. by exists b1, Q'.
Qed.
Lemma region_trailing b n Q : implements cap b (n, Q) → 0 < n → ∃ z, Buddy.trailing_free_pages b = Some z
  ∧ 0 ≤ z ≤ n ∧ (∀ x, n - z ≤ x < n → x ∈ Q) ∧ (z < n → n - z - 1 ∉ Q).
Proof.
  intros Hb Hn. destruct (Buddy.step_queries cap b (n, Q) Buddy.TrailingFree Hb Hn I) as (out & b' & [n' Q'] & E & Ha & _).
  cbn [Buddy.buddy_step] in E. destruct (Buddy.trailing_free_pages b) as [z|]; [|done]. cbn in E. injection E as <- <-.
  destruct Ha as (_ & _ & Ha). by exists z.
Qed.
Lemma region_count b n Q : implements cap b (n, Q) →
  Buddy.count_free_pages b = Some (Z.of_nat (size Q)) ∧ Buddy.count_allocated_pages b = Some (n - Z.of_nat (size Q)).
Proof.
  intros Hb. destruct (Buddy.step_queries cap b (n, Q) Buddy.CountFree Hb I I) as (out & b' & [n' Q'] & E & Ha & _).
  destruct (Buddy.step_queries cap b (n, Q) Buddy.CountAllocated Hb I I) as (out2 & b2 & [n2 Q2] & E2 & Ha2 & _). cbn [Buddy.buddy_step] in E, E2.
  destruct (Buddy.count_free_pages b) as [z|]; [|done]. destruct (Buddy.count_allocated_pages b) as [z2|]; [|done]. cbn in E, E2.
  injection E as <- <-. injection E2 as <- <-. destruct Ha as (_ & _ & ->). destruct Ha2 as (_ & _ & ->). done.
Qed.
Lemma region_new_ok n : 0 ≤ n ≤ cap → ∃ b Q, Buddy.new n cap = Some b ∧ implements cap b (n, Q) ∧ ∀ x, x ∈ Q ↔ 0 ≤ x < n.
Proof.
  intros Hn. pose proof cap_limit as Hc. destruct (Buddy.new_ok cap n Hc Hn) as (b & A & E & Hok & Hcov).
  destruct (Buddy.implements_intro _ _ _ _ Hok) as (Q & Hb & HQ). exists b, Q. split_and!; [done|done|]. intros x. by rewrite HQ, Hcov.
Qed.
(** The highest order with a free block bounds every order with one. *)
Lemma region_highest b n Q : implements cap b (n, Q) → ∃ r, Buddy.highest_free_order b = Some r
  ∧ match r with
    | Some hi => 0 ≤ hi ≤ top ∧ ∀ o p, 0 ≤ o ≤ top → all_free Q o p → o ≤ hi
    | None => ∀ x, x ∉ Q
    end.
Proof.
  intros (A & Hok & HQ). cbn [fst snd] in *. rewrite cap_log in Hok. destruct (Buddy.highest_ok b A Hok) as (r & Er & Hr). exists r. split; [done|].
  pose proof (Buddy.ok_family b A Hok) as HA. destruct r as [hi|].
  - destruct Hr as (Hhi & _ & Habove). split; [done|]. intros o p Ho Hp. destruct (covered top A o p HA Ho) as (k & Hk & Hin).
    { intros x Hx. by apply HQ, Hp. }
    destruct (Z.le_gt_cases k hi); [lia|]. rewrite Habove in Hin by lia. set_solver.
  - intros x [o Hx]%HQ. rewrite Hr in Hx. set_solver.
Qed.

(** * The pages of the file, numbered through its regions

    Page [x] of region [i] is page [i * cap + x] of the file.  A file of [T] data
    pages has as many full regions as fit, and the rest in the last one. *)
Definition pages_of (T i : Z) : Z := Z.min cap (T - i * cap).
Definition layout_is (L : DatabaseLayout) (T : Z) : Prop :=
  layout_ok L ∧ full_region_layout L = mkRegion cap h ps ∧ T = (num_regions L - 1) * cap + last_pages L.
Definition first (p : PageNumber) : Z := region p * cap + page_index p * 2 ^ page_order p.
Definition span (p : PageNumber) : gset Z := list_to_set (seqZ (first p) (2 ^ page_order p)).
(** [Q] is the part of [P] in region [i]. *)
Definition part_of (P : gset Z) (i : Z) (Q : gset Z) : Prop := ∀ x, x ∈ Q ↔ 0 ≤ x < cap ∧ i * cap + x ∈ P.

Lemma elem_of_span p x : 0 ≤ page_order p → x ∈ span p ↔ first p ≤ x < first p + 2 ^ page_order p.
Proof. intros Ho. unfold span. rewrite elem_of_list_to_set, elem_of_seqZ. lia. Qed.
Lemma first_in_span p : 0 ≤ page_order p → first p ∈ span p.
Proof. intros Ho. apply elem_of_span; [done|]. pose proof (Z.pow_pos_nonneg 2 (page_order p)). lia. Qed.
Lemma regions_apart i j x : 0 ≤ x < cap → j * cap ≤ i * cap + x < (j + 1) * cap → j = i.
Proof. intros Hx Hj. destruct (Z.lt_trichotomy i j) as [?|[?|?]]; [|done|]; nia. Qed.
Lemma layout_facts L T : layout_is L T → 0 < num_regions L ∧ (num_regions L - 1) * cap < T ≤ num_regions L * cap
  ∧ database_len L = Some (ps + num_regions L * (h * ps) + T * ps) ∧ usable_bytes L = T * ps
  ∧ ∀ i, 0 ≤ i → region_layout L i = if i <? num_regions L then Some (mkRegion (pages_of T i) h ps) else None.
Proof.
  intros (Hl & Ef & ->). destruct (layout_shape L cap h ps Hl Ef) as (Hlast & El & Eu & Er). pose proof (layout_regions L Hl).
  split; [done|]. split; [lia|]. split; [rewrite El; f_equal; lia|]. split; [rewrite Eu; lia|]. intros i Hi. rewrite Er.
  destruct (Z.ltb_spec i (num_regions L)); [|done]. do 2 f_equal. unfold pages_of. destruct (Z.eqb_spec i (num_regions L - 1)) as [->|Hne]; [lia|].
  assert (i * cap + cap ≤ (num_regions L - 1) * cap) by nia. lia.
Qed.
Lemma layout_pos L T : layout_is L T → 0 < T.
Proof. intros HL. destruct (layout_facts L T HL) as (HR & HT & _). pose proof cap_pos. assert (0 ≤ (num_regions L - 1) * cap) by (apply Z.mul_nonneg_nonneg; lia). lia. Qed.
Lemma regions_mono L L' T T' : layout_is L T → layout_is L' T' → T ≤ T' → num_regions L ≤ num_regions L'.
Proof. intros HL HL' Hle. destruct (layout_facts L T HL) as (_ & H1 & _). destruct (layout_facts L' T' HL') as (_ & H2 & _). pose proof cap_pos. nia. Qed.

(** ** What the manager keeps *)
Definition allocs_ok (bs : list BuddyAllocator) (T R : Z) (P : gset Z) : Prop :=
  Z.of_nat (length bs) = R ∧ ∀ i, 0 ≤ i < R → ∃ b Q, bs !! Z.to_nat i = Some b ∧ implements cap b (pages_of T i, Q) ∧ part_of P i Q.
Definition within (F : Z → gset Z) (R : Z) : Prop := ∀ o i, 0 ≤ o < ORDERS → i ∈ F o → 0 ≤ i < R.
(** [F] says which regions the tracker lets the search of an order look at: those
    of the file, but not all that have a free block. *)
Record state_is (s : InMemoryState) (L : DatabaseLayout) (T : Z) (P : gset Z) (n : Z) (F : Z → gset Z) : Prop := {
  state_layout : header_layout (header s) = Some L;
  state_total : layout_is L T;
  state_tracker : tracker_is (region_tracker (allocators s)) n F;
  state_regions : num_regions L ≤ n;
  state_within : within F (num_regions L);
  state_allocs : allocs_ok (region_allocators (allocators s)) T (num_regions L) P;
  state_pages : ∀ x, x ∈ P → 0 ≤ x < T;
}.
Lemma allocs_update bs T R P i b Q P' : allocs_ok bs T R P → 0 ≤ i < R → implements cap b (pages_of T i, Q) → part_of P' i Q →
  (∀ x, ¬ (i * cap ≤ x < (i + 1) * cap) → x ∈ P' ↔ x ∈ P) → allocs_ok (<[Z.to_nat i := b]> bs) T R P'.
Proof.
  intros [Hl Hbs] Hi Hb HQ Hout. split; [by rewrite length_insert|]. intros j Hj. destruct (decide (j = i)) as [->|Hne].
  - exists b, Q. rewrite list_lookup_insert_eq by lia. done.
  - destruct (Hbs j Hj) as (b' & Q' & E & Hb' & HQ'). exists b', Q'. rewrite list_lookup_insert_ne by lia. split_and!; [done..|].
    intros x. rewrite (HQ' x). split; intros [Hx Hin]; (split; [done|]); apply Hout; try done; intros Hr; apply Hne; symmetry; by apply (regions_apart j i x).
Qed.
Lemma state_region s L T P n F i : state_is s L T P n F → 0 ≤ i < num_regions L →
  ∃ b Q, get_region s i = Some b ∧ implements cap b (pages_of T i, Q) ∧ part_of P i Q ∧ 0 < pages_of T i ≤ cap.
Proof.
  intros Hs Hi. destruct (state_allocs _ _ _ _ _ _ Hs) as [_ Hbs]. destruct (Hbs i Hi) as (b & Q & E & Hb & HQ). exists b, Q. split_and!; try done.
  - destruct (layout_facts L T (state_total _ _ _ _ _ _ Hs)) as (_ & HT & _). pose proof cap_pos. unfold pages_of. nia.
  - unfold pages_of. lia.
Qed.
(** A block of a region, as pages of the file. *)
Lemma block_of_span p x : 0 ≤ page_order p → region p * cap + x ∈ span p ↔ in_block (page_order p) (page_index p) x.
Proof. intros Ho. rewrite elem_of_span by done. unfold in_block, first. rewrite block_range by done. lia. Qed.
Lemma span_in_region p m : 0 ≤ page_index p → 0 ≤ page_order p → (page_index p + 1) * 2 ^ page_order p ≤ m → m ≤ cap →
  ∀ x, x ∈ span p → region p * cap ≤ x < (region p + 1) * cap.
Proof.
  intros Hi Ho Hm Hc x. rewrite elem_of_span by done. unfold first. pose proof (Z.pow_pos_nonneg 2 (page_order p) ltac:(lia) Ho). nia.
Qed.
Lemma span_free P Q p : 0 ≤ page_index p → 0 ≤ page_order p → (page_index p + 1) * 2 ^ page_order p ≤ cap → part_of P (region p) Q →
  span p ⊆ P ↔ all_free Q (page_order p) (page_index p).
Proof.
  intros Hi Ho Hc HQ. split.
  - intros Hs x Hx. apply HQ. split; [|by apply Hs, block_of_span].
    unfold in_block in Hx. apply block_range in Hx; [|done]. pose proof (Z.pow_pos_nonneg 2 (page_order p) ltac:(lia) Ho). nia.
  - intros Hf x Hx. pose proof (span_in_region p cap Hi Ho Hc ltac:(lia) x Hx) as Hr.
    replace x with (region p * cap + (x - region p * cap)) in Hx |- * by lia. by apply HQ, Hf, block_of_span.
Qed.
Lemma block_fits Q m o p : (∀ x, x ∈ Q → 0 ≤ x < m) → 0 ≤ o → all_free Q o p → 0 ≤ p ∧ (p + 1) * 2 ^ o ≤ m.
Proof.
  intros HQ Ho Hf. pose proof (Z.pow_pos_nonneg 2 o ltac:(lia) Ho).
  assert (in_block o p (p * 2 ^ o)) as H1 by (apply block_range; lia). assert (in_block o p ((p + 1) * 2 ^ o - 1)) as H2 by (apply block_range; lia).
  apply Hf, HQ in H1. apply Hf, HQ in H2. nia.
Qed.
Lemma page_in_region L T p : layout_is L T → page_ok L p → 0 ≤ page_index p ∧ 0 ≤ page_order p ∧ 0 ≤ region p < num_regions L
  ∧ (page_index p + 1) * 2 ^ page_order p ≤ pages_of T (region p) ∧ page_order p ≤ top.
Proof.
  intros HL (Hr & Hi & Ho & rl & Er & Hle). destruct (layout_facts L T HL) as (_ & _ & _ & _ & Hrl). rewrite Hrl in Er by done.
  destruct (Z.ltb_spec (region p) (num_regions L)); [|done]. injection Er as <-. cbn [num_pages] in Hle. split_and!; try done.
  pose proof (Z.pow_pos_nonneg 2 (page_order p) ltac:(lia) Ho). assert (2 ^ page_order p ≤ 2 ^ top) by (rewrite <-Hcap; unfold pages_of in Hle; nia).
  destruct (Z.le_gt_cases (page_order p) top); [done|]. pose proof (Z.pow_lt_mono_r 2 top (page_order p)). lia.
Qed.
Lemma page_in_layout L T i p o : layout_is L T → 0 ≤ i < num_regions L → 0 ≤ p → 0 ≤ o → (p + 1) * 2 ^ o ≤ pages_of T i → page_ok L (mkPage i p o).
Proof.
  intros HL Hi Hp Ho Hle. destruct (layout_facts L T HL) as (_ & _ & _ & _ & Hrl). unfold page_ok. cbn [region page_index page_order].
  split_and!; try lia. rewrite Hrl by lia. rewrite (proj2 (Z.ltb_lt _ _)) by lia. eexists. split; [done|done].
Qed.
Lemma set_region_state s L T P n F i b Q P' : state_is s L T P n F → 0 ≤ i < num_regions L → implements cap b (pages_of T i, Q) → part_of P' i Q →
  (∀ x, ¬ (i * cap ≤ x < (i + 1) * cap) → x ∈ P' ↔ x ∈ P) → state_is (set_region s i b) L T P' n F.
Proof.
  intros Hs Hi Hb HQ Hout. pose proof Hs as []. split; try done; [by eapply allocs_update|].
  intros x Hx. destruct (decide (i * cap ≤ x < (i + 1) * cap)) as [Hr|Hr]; [|by apply state_pages0, Hout].
  destruct (region_facts _ _ _ Hb) as (_ & _ & _ & HQb). pose proof cap_pos. assert (x - i * cap ∈ Q) as Hin.
  { apply HQ. split; [lia|]. by replace (i * cap + (x - i * cap)) with x by lia. }
  apply HQb in Hin. unfold pages_of in Hin. nia.
Qed.
Lemma set_tracker_state s L T P n F t n' F' : state_is s L T P n F → tracker_is t n' F' → num_regions L ≤ n' → within F' (num_regions L) →
  state_is (set_tracker s t) L T P n' F'.
Proof. by intros [] ? ? ?. Qed.
(** Taking the block of a page out of its region takes its pages out of the file. *)
Lemma take_block P i p o Q Q' : 0 ≤ p → 0 ≤ o → (p + 1) * 2 ^ o ≤ cap → part_of P i Q → (∀ x, x ∈ Q' ↔ x ∈ Q ∧ ¬ in_block o p x) →
  part_of (P ∖ span (mkPage i p o)) i Q' ∧ ∀ x, ¬ (i * cap ≤ x < (i + 1) * cap) → x ∈ P ∖ span (mkPage i p o) ↔ x ∈ P.
Proof.
  intros Hp Ho Hc HQ HQ'. pose proof (block_of_span (mkPage i p o)) as Hspan. cbn [region page_index page_order] in Hspan. split.
  - intros x. rewrite (HQ' x), (HQ x), elem_of_difference, Hspan by done. tauto.
  - intros x Hx. rewrite elem_of_difference. pose proof (span_in_region (mkPage i p o) cap Hp Ho Hc ltac:(lia) x). cbn [region] in *. tauto.
Qed.
Lemma give_block P i p o Q Q' : 0 ≤ p → 0 ≤ o → (p + 1) * 2 ^ o ≤ cap → part_of P i Q → (∀ x, x ∈ Q' ↔ x ∈ Q ∨ in_block o p x) →
  part_of (P ∪ span (mkPage i p o)) i Q' ∧ ∀ x, ¬ (i * cap ≤ x < (i + 1) * cap) → x ∈ P ∪ span (mkPage i p o) ↔ x ∈ P.
Proof.
  intros Hp Ho Hc HQ HQ'. pose proof (block_of_span (mkPage i p o)) as Hspan. cbn [region page_index page_order] in Hspan. split.
  - intros x. rewrite (HQ' x), (HQ x), elem_of_union, Hspan by done. split; [|tauto]. intros [[? ?]|Hb]; [tauto|]. split; [|tauto].
    apply block_range in Hb; [|done]. pose proof (Z.pow_pos_nonneg 2 o ltac:(lia) Ho). nia.
  - intros x Hx. rewrite elem_of_union. pose proof (span_in_region (mkPage i p o) cap Hp Ho Hc ltac:(lia) x). cbn [region] in *. tauto.
Qed.

(** ** The search of a page *)
Lemma retry_ok fuel s L T P n F o lowest : state_is s L T P n F → 0 ≤ o < ORDERS → (size (F o) < fuel)%nat →
  ∃ r s' F', retry_loop fuel s o lowest = Some (r, s') ∧ header s' = header s ∧ match r with
    | Some p => page_order p = o ∧ page_ok L p ∧ span p ⊆ P ∧ state_is s' L T (P ∖ span p) n F'
    | None => state_is s' L T P n F' ∧ ∀ p, page_order p = o → page_ok L p → region p ∈ F o → ¬ span p ⊆ P
    end.
Proof.
  intros Hs Ho. revert s F Hs. induction fuel as [|fuel IH]; intros s F Hs Hfuel; [lia|]. cbn [retry_loop].
  destruct (find_free_tracker _ _ _ o (state_tracker _ _ _ _ _ _ Hs) Ho) as (r & -> & Hr). cbn [mbind option_bind]. destruct r as [c|].
  2: { exists None, s, F. split_and!; [done|done|done|]. intros p _ _ Hin. rewrite Hr in Hin. set_solver. }
  destruct Hr as (Hin & _ & _). pose proof (state_within _ _ _ _ _ _ Hs o c Ho Hin) as Hc.
  destruct (state_region _ _ _ _ _ _ c Hs Hc) as (b & Q & -> & Hb & HQ & Hpages). cbn [mbind option_bind].
  destruct (region_alloc b _ Q o lowest Hb) as (rp & b' & Q' & -> & Hb' & Hrp); [lia|]. cbn [mbind option_bind]. destruct rp as [p|].
  - destruct Hrp as [Hf HQ']. destruct (region_facts _ _ _ Hb) as (_ & _ & _ & HQb). destruct (block_fits Q _ o p HQb) as [Hp Hfit]; [lia|done|].
    pose proof (state_regions _ _ _ _ _ _ Hs). pose proof (state_tracker _ _ _ _ _ _ Hs) as (_ & Hn & _). unfold MAX_REGIONS in Hn. pose proof cap_limit as Hcl. unfold MAX_REGIONS in Hcl.
    assert (p < cap) by (pose proof (Z.pow_pos_nonneg 2 o); nia). unfold ORDERS in Ho.
    unfold page_new. rewrite !(proj2 (Z.leb_le _ _)) by (unfold MAX_PAGE_INDEX; lia). cbn [check mbind option_bind].
    eexists _, _, F. split; [done|]. split; [done|]. cbn [page_order]. split; [done|].
    destruct (take_block P c p o Q Q') as [HP Hout]; [lia|lia|lia|done|done|].
    split; [apply (page_in_layout L T); [apply Hs|lia..]|]. split; [|by eapply set_region_state].
    apply (span_free P Q (mkPage c p o)); cbn; try lia; done.
  - destruct Hrp as [-> Hno]. assert (state_is (set_region s c b') L T P n F) as Hs1 by (by eapply set_region_state).
    pose proof (state_regions _ _ _ _ _ _ Hs).
    destruct (mark_full_tracker _ _ _ o c (state_tracker _ _ _ _ _ _ Hs1) Ho) as (t & -> & Ht); [lia|]. cbn [mbind option_bind].
    set (F1 := λ k, if decide (o ≤ k) then F k ∖ {[c]} else F k) in *.
    assert (F1 o = F o ∖ {[c]}) as EF by (unfold F1; by rewrite decide_True by lia).
    assert (state_is (set_tracker (set_region s c b') t) L T P n F1) as Hs2.
    { eapply set_tracker_state; [done|done|lia|]. intros k i Hk Hi. apply (state_within _ _ _ _ _ _ Hs k i Hk). unfold F1 in Hi. destruct (decide _); set_solver. }
    destruct (IH _ _ Hs2) as (r & s' & F' & E & Eh & Hr).
    { rewrite EF. rewrite size_difference by set_solver. rewrite size_singleton. assert (size (F o) ≠ 0%nat); [|lia].
      intros E%size_empty_iff. set_solver. }
    exists r, s', F'. split; [done|]. split; [by rewrite Eh|]. destruct r as [p|]; [done|]. destruct Hr as [Hs' Hnone]. split; [done|].
    intros p Ep Hp Hinp Hfree. destruct (decide (region p = c)) as [Ec|Hne].
    + destruct (page_in_region L T p (state_total _ _ _ _ _ _ Hs) Hp) as (Hpi & Hpo & _ & Hfit & Htp). rewrite Ep in *.
      apply (Hno Htp (page_index p)). rewrite <-Ep. apply (span_free P Q p); rewrite ?Ec, ?Ep in *; try lia; done.
    + apply (Hnone p Ep Hp); [|done]. rewrite EF. set_solver.
Qed.
Lemma allocate_retry_ok s L T P n F o lowest : state_is s L T P n F → 0 ≤ o < ORDERS →
  ∃ r s' F', allocate_helper_retry s o lowest = Some (r, s') ∧ header s' = header s ∧ match r with
    | Some p => page_order p = o ∧ page_ok L p ∧ span p ⊆ P ∧ state_is s' L T (P ∖ span p) n F'
    | None => state_is s' L T P n F' ∧ ∀ p, page_order p = o → page_ok L p → region p ∈ F o → ¬ span p ⊆ P
    end.
Proof.
  intros Hs Ho. apply retry_ok; [done|done|]. destruct (state_allocs _ _ _ _ _ _ Hs) as [Hl _].
  assert (F o ⊆ list_to_set (seqZ 0 (num_regions L))) as Hsub.
  { intros i Hi. pose proof (state_within _ _ _ _ _ _ Hs o i Ho Hi). rewrite elem_of_list_to_set, elem_of_seqZ. lia. }
  apply subseteq_size in Hsub. rewrite size_list_to_set, length_seqZ in Hsub by apply NoDup_seqZ. lia.
Qed.
(** ** Freeing, recording and counting *)
Lemma file_free_ok s L T P n F p : state_is s L T P n F → page_ok L p → span p ## P →
  ∃ s' F', free_page s p = Some s' ∧ header s' = header s ∧ state_is s' L T (P ∪ span p) n F'.
Proof.
  intros Hs Hp Hfree. pose proof (state_total _ _ _ _ _ _ Hs) as HL. destruct (page_in_region L T p HL Hp) as (Hi & Ho & Hr & Hfit & Htp).
  destruct p as [c p o]. cbn [region page_index page_order] in *. unfold free_page. cbn [region page_index page_order].
  destruct (state_region _ _ _ _ _ _ c Hs Hr) as (b & Q & -> & Hb & HQ & Hpages). cbn [mbind option_bind].
  destruct (region_free b _ Q p o Hb) as (b' & Q' & -> & Hb' & HQ'); [lia|lia|lia| |].
  { intros x Hx Hin. apply HQ in Hin as [_ Hin]. apply (Hfree (c * cap + x)); [|done]. by apply (block_of_span (mkPage c p o)). }
  cbn [mbind option_bind]. destruct (give_block P c p o Q Q') as [HP Hout]; [lia|lia|lia|done|done|].
  assert (state_is (set_region s c b') L T (P ∪ span (mkPage c p o)) n F) as Hs1 by (by eapply set_region_state).
  pose proof (state_regions _ _ _ _ _ _ Hs). destruct (mark_free_tracker _ _ _ o c (state_tracker _ _ _ _ _ _ Hs1)) as (t & -> & Ht); [unfold ORDERS; lia|lia|].
  cbn [mbind option_bind]. change (header (set_tracker (set_region s c b') t)) with (header s). rewrite (state_layout _ _ _ _ _ _ Hs). cbn [mbind option_bind].
  destruct (page_range_Some L (mkPage c p o)) as (? & ? & _ & -> & _); [apply HL|done|]. cbn [mbind option_bind].
  eexists _, _. split; [done|]. split; [done|]. eapply set_tracker_state; [done|done|done|].
  intros k i Hk Hin. cbn in Hin. pose proof (state_within _ _ _ _ _ _ Hs k i Hk). destruct (decide (k ≤ o)); set_solver.
Qed.
Lemma mark_allocated_ok s L T P n F p : state_is s L T P n F → page_ok L p → span p ⊆ P →
  ∃ s', mark_page_allocated s p = Some s' ∧ header s' = header s ∧ state_is s' L T (P ∖ span p) n F.
Proof.
  intros Hs Hp Hfree. pose proof (state_total _ _ _ _ _ _ Hs) as HL. destruct (page_in_region L T p HL Hp) as (Hi & Ho & Hr & Hfit & Htp).
  unfold mark_page_allocated. destruct (state_region _ _ _ _ _ _ (region p) Hs Hr) as (b & Q & -> & Hb & HQ & Hpages). cbn [mbind option_bind].
  destruct (region_record b _ Q (page_index p) (page_order p) Hb) as (b' & Q' & -> & Hb' & HQ'); [lia|by apply (span_free P Q p); try lia|].
  cbn [fmap option_fmap option_map]. eexists. split; [done|]. split; [done|].
  destruct (take_block P (region p) (page_index p) (page_order p) Q Q') as [HP Hout]; [lia|lia|lia|done|done|]. destruct p. by eapply set_region_state.
Qed.
Lemma part_size P i Q : 0 ≤ i → part_of P i Q →
  Z.of_nat (size (filter (λ x, x < (i + 1) * cap) P)) = Z.of_nat (size (filter (λ x, x < i * cap) P)) + Z.of_nat (size Q).
Proof.
  intros Hi HQ. pose proof cap_pos. assert (filter (λ x, x < (i + 1) * cap) P = filter (λ x, x < i * cap) P ∪ set_map (λ x : Z, i * cap + x) Q ∪ filter (λ x, x < i * cap) P) as ->.
  { apply set_eq. intros x. rewrite !elem_of_union, elem_of_map, !elem_of_filter. split.
    - intros [Hx Hin]. destruct (Z.lt_ge_cases x (i * cap)); [tauto|]. left. right. exists (x - i * cap). split; [lia|]. apply HQ.
      split; [lia|]. by replace (i * cap + (x - i * cap)) with x by lia.
    - intros [[[? ?]|(y & -> & Hy)]|[? ?]]; [split; [lia|done]| |split; [lia|done]]. apply HQ in Hy as [? ?]. split; [lia|done]. }
  rewrite (union_comm_L _ (filter _ _)), union_assoc_L, union_idemp_L. rewrite size_union.
  - rewrite Nat2Z.inj_add. do 2 f_equal. unfold set_map. rewrite size_list_to_set, length_fmap; [done|]. apply NoDup_fmap_2; [|apply NoDup_elements]. intros x y. lia.
  - intros x Hx Hy. apply elem_of_filter in Hx as [Hx _]. apply elem_of_map in Hy as (y & -> & Hy). apply HQ in Hy as [? _]. lia.
Qed.
Lemma file_count_ok count α β s L T P n F : state_is s L T P n F →
  (∀ b m Q, implements cap b (m, Q) → count b = Some (α * m + β * Z.of_nat (size Q))) →
  count_pages count s = Some (α * T + β * Z.of_nat (size P)).
Proof.
  intros Hs Hcount. pose proof (state_total _ _ _ _ _ _ Hs) as HL. destruct (layout_facts L T HL) as (HR & HT & _). pose proof cap_pos.
  unfold count_pages. rewrite (state_layout _ _ _ _ _ _ Hs). cbn [mbind option_bind].
  destruct (fold_range (λ c i, region ← get_region s i; d ← count region; Some (c + d))
    (λ i c, c = α * Z.min T (i * cap) + β * Z.of_nat (size (filter (λ x, x < i * cap) P))) 0 (num_regions L) 0) as (c & E & Ec); [lia| | |].
  - rewrite Z.mul_0_l, Z.min_r by nia. replace (filter (λ x, x < 0) P) with (∅ : gset Z); [rewrite size_empty; lia|].
    symmetry. apply set_eq. intros x. rewrite elem_of_filter. split; [|set_solver]. intros [? Hx%(state_pages _ _ _ _ _ _ Hs)]. lia.
  - intros i a Hi ->. destruct (state_region _ _ _ _ _ _ i Hs) as (b & Q & -> & Hb & HQ & Hp); [lia|]. cbn [mbind option_bind].
    rewrite (Hcount _ _ _ Hb). cbn [mbind option_bind]. eexists. split; [done|]. rewrite (part_size P i Q) by (done || lia).
    unfold pages_of in *. replace (Z.min T ((i + 1) * cap)) with (Z.min T (i * cap) + Z.min cap (T - i * cap)) by lia. lia.
  - rewrite E, Ec. rewrite Z.add_0_l, Z.min_l by lia. do 5 f_equal. apply set_eq. intros x. rewrite elem_of_filter.
    split; [tauto|]. intros Hx. split; [|done]. apply (state_pages _ _ _ _ _ _ Hs) in Hx. lia.
Qed.
(** ** The file grows and shrinks *)
Definition pages_between (T T' : Z) : gset Z := list_to_set (seqZ T (T' - T)).
Lemma elem_of_between T T' x : x ∈ pages_between T T' ↔ T ≤ x < T'.
Proof. unfold pages_between. rewrite elem_of_list_to_set, elem_of_seqZ. lia. Qed.
Lemma len_mono L L' T T' : layout_is L T → layout_is L' T' → T ≤ T' →
  ∃ len len', database_len L = Some len ∧ database_len L' = Some len' ∧ (len <=? len') = true.
Proof.
  intros HL HL' Hle. pose proof (regions_mono L L' T T' HL HL' Hle). destruct (layout_facts L T HL) as (_ & _ & -> & _). destruct (layout_facts L' T' HL') as (_ & _ & -> & _).
  eexists _, _. split; [done|]. split; [done|]. apply Z.leb_le. assert (T * ps ≤ T' * ps) by (apply Z.mul_le_mono_nonneg_r; lia).
  assert (num_regions L * (h * ps) ≤ num_regions L' * (h * ps)) by (apply Z.mul_le_mono_nonneg_r; [apply Z.mul_nonneg_nonneg|]; lia). lia.
Qed.
(** A region of the longer file, and what it offers once it has been grown. *)
Definition region_grown (b : BuddyAllocator) (i T T' : Z) (P : gset Z) (F : Z → gset Z) : Prop :=
  ∃ Q, implements cap b (pages_of T' i, Q) ∧ part_of (P ∪ pages_between T T') i Q
    ∧ (pages_of T i < pages_of T' i → ∀ o p, 0 ≤ o ≤ top → all_free Q o p → i ∈ F o).
Lemma region_grown_mono b i T T' P F F' : (∀ o, 0 ≤ o ≤ top → F o ⊆ F' o) → region_grown b i T T' P F → region_grown b i T T' P F'.
Proof. intros HF (Q & ? & ? & Hm). exists Q. split_and!; [done|done|]. intros Hlt o p Ho Hp. apply HF, (Hm Hlt o p); done. Qed.
(** The region's tracker is told of its highest order with a free block. *)
Lemma region_marked b i T T' P F Q t n : implements cap b (pages_of T' i, Q) → part_of (P ∪ pages_between T T') i Q →
  pages_of T i < pages_of T' i → 0 ≤ i < n → 0 < pages_of T' i → tracker_is t n F →
  ∃ hi t', Buddy.highest_free_order b = Some (Some hi) ∧ tracker_mark_free t hi i = Some t'
    ∧ tracker_is t' n (λ k, if decide (k ≤ hi) then F k ∪ {[i]} else F k)
    ∧ region_grown b i T T' P (λ k, if decide (k ≤ hi) then F k ∪ {[i]} else F k).
Proof.
  intros Hb HQ Hlt Hi Hpos Ht. destruct (region_highest _ _ _ Hb) as (r & Er & Hr). destruct r as [hi|].
  - destruct Hr as [Hhi Hmax]. exists hi. destruct (mark_free_tracker t n F hi i Ht) as (t' & -> & Ht'); [unfold ORDERS; lia|done|].
    exists t'. split_and!; [done|done|done|]. exists Q. split_and!; [done|done|]. intros _ o p Ho Hp. rewrite decide_True by (by eapply Hmax). set_solver.
  - exfalso. unfold pages_of in *. pose proof cap_pos. apply (Hr (Z.max 0 (T - i * cap))). apply HQ. split; [lia|].
    apply elem_of_union. right. apply elem_of_between. lia.
Qed.
Definition growing (T T' R : Z) (P : gset Z) (bs : list BuddyAllocator) (i : Z) (a : Allocators) : Prop :=
  ∃ n F, tracker_is (region_tracker a) n F ∧ Z.max R i ≤ n ∧ within F (Z.max R i)
    ∧ Z.of_nat (length (region_allocators a)) = Z.max R i
    ∧ (∀ j, i ≤ j < R → region_allocators a !! Z.to_nat j = bs !! Z.to_nat j)
    ∧ ∀ j, 0 ≤ j < i → ∃ b, region_allocators a !! Z.to_nat j = Some b ∧ region_grown b j T T' P F.
Lemma within_mark F R R' hi i : within F R → R ≤ R' → 0 ≤ i < R' → within (λ k, if decide (k ≤ hi) then F k ∪ {[i]} else F k) R'.
Proof. intros HF HR Hi o j Ho Hj. cbn in Hj. pose proof (HF o j Ho). destruct (decide _); set_solver by lia. Qed.
Section growing_file.
Context (L' : DatabaseLayout) (T T' R : Z) (P : gset Z) (bs : list BuddyAllocator).
Context (HL' : layout_is L' T') (HT : T < T') (HR : 0 < R) (HTR : (R - 1) * cap < T ≤ R * cap) (HRR : R ≤ num_regions L') (HM : num_regions L' ≤ MAX_REGIONS).
Context (HP : ∀ x, x ∈ P → 0 ≤ x < T) (Hbs : allocs_ok bs T R P).

Lemma part_extends i Q Q' : 0 ≤ i → part_of P i Q → (∀ x, x ∈ Q' ↔ (x ∈ Q ∨ pages_of T i ≤ x) ∧ 0 ≤ x < pages_of T' i) →
  part_of (P ∪ pages_between T T') i Q'.
Proof.
  intros Hi HQ HQ' x. rewrite (HQ' x), (HQ x), elem_of_union, elem_of_between. unfold pages_of in *. split.
  - intros [[?|?] ?]; split; [lia|tauto|lia|right; lia].
  - intros [? [Hin|?]]; (split; [|lia || apply HP in Hin; lia]); [by left|right; lia].
Qed.
Lemma part_same i Q : 0 ≤ i → part_of P i Q → pages_of T i = pages_of T' i → part_of (P ∪ pages_between T T') i Q.
Proof.
  intros Hi HQ E x. rewrite (HQ x), elem_of_union, elem_of_between. unfold pages_of in E. split; [tauto|]. intros [? [?|?]]; [done|lia].
Qed.
Lemma grown_insert b bs' F F' i j : (∀ o, 0 ≤ o ≤ top → F o ⊆ F' o) → 0 ≤ j → 0 ≤ i < Z.of_nat (length bs') → region_grown b i T T' P F' →
  (j ≠ i → ∃ b, bs' !! Z.to_nat j = Some b ∧ region_grown b j T T' P F) → ∃ b', <[Z.to_nat i := b]> bs' !! Z.to_nat j = Some b' ∧ region_grown b' j T T' P F'.
Proof.
  intros HF Hj Hi Hb Hbs'. destruct (decide (j = i)) as [->|Hne].
  - exists b. by rewrite list_lookup_insert_eq by lia.
  - destruct (Hbs' Hne) as (b' & E & Hb'). exists b'. rewrite list_lookup_insert_ne by lia. split; [done|]. by eapply region_grown_mono.
Qed.
Lemma grow_old_region i a : 0 ≤ i < R → growing T T' R P bs i a →
  ∃ a', grow_region L' R a i = Some a' ∧ growing T T' R P bs (i + 1) a'.
Proof.
  intros Hi (n & F & Ht & Hn & HF & Hlen & Hold & Hnew). destruct (layout_facts L' T' HL') as (_ & HT' & _ & _ & Hrl).
  unfold grow_region. rewrite Hrl, (proj2 (Z.ltb_lt i (num_regions L'))) by lia. cbn [mbind option_bind num_pages]. rewrite (proj2 (Z.ltb_lt i R)) by lia.
  destruct Hbs as [_ Hbs']. destruct (Hbs' i Hi) as (b & Q & E & Hb & HQ). rewrite Hold, E by lia. cbn [mbind option_bind].
  destruct (region_facts _ _ _ Hb) as (Elen & _). rewrite Elen. pose proof cap_pos.
  assert (0 < pages_of T i) by (unfold pages_of; nia). assert (pages_of T i ≤ pages_of T' i) by (unfold pages_of; lia).
  rewrite (proj2 (Z.leb_le _ _)) by done. cbn [check mbind option_bind]. destruct (Z.eqb_spec (pages_of T' i) (pages_of T i)) as [Ep|Ep].
  - exists a. split; [done|]. exists n, F. rewrite !Z.max_l in * by lia. split_and!; [done|lia|done|done|intros; apply Hold; lia|].
    intros j Hj. destruct (decide (j = i)) as [->|]; [|apply Hnew; lia]. exists b. rewrite Hold by lia. split; [done|].
    exists Q. rewrite Ep. split_and!; [done|apply part_same; [lia|done|lia]|lia].
  - destruct (region_resize _ _ Q (pages_of T' i) Hb) as (b' & Q' & -> & Hb' & HQ'); [left; unfold pages_of in *; lia|]. cbn [mbind option_bind].
    destruct (region_marked b' i T T' P F Q' (region_tracker a) n Hb') as (hi & t & -> & Hmark & Ht' & Hg); [eapply part_extends; [lia|done|done]|lia|lia|lia|done|].
    cbn [mbind option_bind]. rewrite Hmark. cbn [mbind option_bind]. eexists. split; [done|]. eexists n, _. cbn [region_tracker region_allocators].
    split; [done|]. rewrite !Z.max_l in * by lia. rewrite length_insert. split_and!; [lia|eapply within_mark; [done|lia|lia]|done| |].
    + intros j Hj. rewrite list_lookup_insert_ne by lia. apply Hold. lia.
    + intros j Hj. eapply (grown_insert b' _ F); [|lia|lia|done|].
      * intros o Ho. cbn. destruct (decide _); set_solver.
      * intros Hne. apply Hnew. lia.
Qed.
Lemma grow_new_region i a : R ≤ i < num_regions L' → growing T T' R P bs i a →
  ∃ a', grow_region L' R a i = Some a' ∧ growing T T' R P bs (i + 1) a'.
Proof.
  intros Hi (n & F & Ht & Hn & HF & Hlen & _ & Hnew). destruct (layout_facts L' T' HL') as (_ & HT' & _ & _ & Hrl). pose proof cap_pos.
  unfold grow_region. rewrite Hrl, (proj2 (Z.ltb_lt i (num_regions L'))) by lia. cbn [mbind option_bind num_pages]. rewrite (proj2 (Z.ltb_ge i R)) by lia.
  destruct HL' as (Hl' & Ef' & _). rewrite Ef'. cbn [num_pages]. assert (i * cap < T') by nia. assert (T ≤ i * cap) by nia.
  assert (0 < pages_of T' i ≤ cap) by (unfold pages_of; lia).
  destruct (region_new_ok (pages_of T' i)) as (b & Q & -> & Hb & HQ); [lia|]. cbn [mbind option_bind].
  assert (part_of (P ∪ pages_between T T') i Q) as HQ'.
  { intros x. rewrite HQ, elem_of_union, elem_of_between. unfold pages_of in *. split; [intros; split; [lia|right; lia]|].
    intros [? [Hin|?]]; [apply HP in Hin; lia|lia]. }
  assert (∃ t n', (if n <=? i then tracker_resize (region_tracker a) (i + 1) else Some (region_tracker a)) = Some t ∧ tracker_is t n' F ∧ i + 1 ≤ n') as (t & n' & Et & Ht' & Hn').
  { destruct (Z.leb_spec n i); [|by exists (region_tracker a), n; split_and!; [..|lia]].
    destruct (resize_tracker (region_tracker a) n F (i + 1) Ht) as (t & E & Ht'); [lia| |by exists t, (i + 1)].
    intros o k Ho Hk. pose proof (HF o k Ho Hk). lia. }
  destruct (region_marked b i T T' P F Q t n' Hb HQ') as (hi & t' & -> & Hmark & Ht2 & Hg); [unfold pages_of in *; lia|lia|lia|done|].
  cbn [mbind option_bind]. rewrite (len_tracker _ _ _ Ht). cbn [mbind option_bind]. rewrite Et. cbn [mbind option_bind]. rewrite Hmark. cbn [mbind option_bind].
  eexists. split; [done|]. eexists n', _. cbn [region_tracker region_allocators]. split; [done|]. rewrite !Z.max_r in * by lia. rewrite length_app. cbn [length].
  split_and!; [lia|eapply within_mark; [done|lia|lia]|lia|intros; lia|]. intros j Hj. destruct (decide (j = i)) as [->|].
  - exists b. split; [|done]. rewrite lookup_app_r by lia. by replace (Z.to_nat i - length (region_allocators a))%nat with 0%nat by lia.
  - destruct (Hnew j) as (b' & E & Hb'); [lia|]. exists b'. split; [by apply lookup_app_l_Some|]. eapply region_grown_mono; [|done].
    intros o Ho. cbn. destruct (decide _); set_solver.
Qed.
Lemma grow_to_ok t n F : tracker_is t n F → R ≤ n → within F R →
  ∃ a' n' F', grow_to (mkAllocators t bs) L' = Some a' ∧ tracker_is (region_tracker a') n' F' ∧ num_regions L' ≤ n' ∧ within F' (num_regions L')
    ∧ allocs_ok (region_allocators a') T' (num_regions L') (P ∪ pages_between T T')
    ∧ ∀ p, page_ok L' p → span p ⊆ pages_between T T' → region p ∈ F' (page_order p).
Proof.
  intros Ht Hn HF. destruct (layout_facts L' T' HL') as (HR' & HT' & _). pose proof Hbs as [Hlen _].
  destruct (fold_range (grow_region L' R) (growing T T' R P bs) 0 (num_regions L') (mkAllocators t bs)) as (a' & E & n' & F' & Ht' & Hn' & HF' & Hlen' & _ & Hnew).
  - lia.
  - exists n, F. rewrite !Z.max_l by lia. split_and!; try done. intros; lia.
  - intros i a Hi Ha. destruct (Z.lt_ge_cases i R); [apply grow_old_region|apply grow_new_region]; done || lia.
  - rewrite Z.add_0_l, !Z.max_r in * by lia. exists a', n', F'. unfold grow_to. cbn [region_allocators]. rewrite Hlen. split_and!; try done.
    + split; [done|]. intros i Hi. destruct (Hnew i Hi) as (b & Eb & Q & Hb & HQ & _). by exists b, Q.
    + intros p Hp Hs. destruct (page_in_region L' T' p HL' Hp) as (Hpi & Hpo & Hr & Hfit & Htp). destruct (Hnew (region p) Hr) as (b & _ & Q & Hb & HQ & Hm).
      assert (pages_of T (region p) < pages_of T' (region p)) as Hlt.
      { pose proof (first_in_span p Hpo) as Hfirst. apply Hs, elem_of_between in Hfirst. unfold first in Hfirst. pose proof (Z.pow_pos_nonneg 2 (page_order p)). unfold pages_of in *. lia. }
      apply (Hm Hlt (page_order p) (page_index p)); [lia|].
      apply (span_free (P ∪ pages_between T T') Q p); try done; [unfold pages_of in Hfit; lia|]. set_solver.
Qed.
End growing_file.
Lemma last_region L T : layout_is L T → num_pages (last_region_layout L) = pages_of T (num_regions L - 1).
Proof.
  intros (Hl & Ef & ->). destruct (layout_shape L cap h ps Hl Ef) as (Hlast & _). unfold pages_of.
  replace (_ + last_pages L - _) with (last_pages L) by lia. rewrite Z.min_r by lia. unfold last_region_layout, last_pages, trailing_region_layout.
  by destruct (trailing_partial_region L).
Qed.
Lemma last_allocator (bs : list BuddyAllocator) R : Z.of_nat (length bs) = R → 0 < R → last bs = bs !! Z.to_nat (R - 1) ∧ pred (length bs) = Z.to_nat (R - 1).
Proof. intros. rewrite last_lookup. assert (pred (length bs) = Z.to_nat (R - 1)) as -> by lia. done. Qed.
(** The regions that go are marked full for every order. *)
Lemma mark_gone t n F R' R : tracker_is t n F → within F R → 0 ≤ R' ≤ R → R ≤ n →
  ∃ t' F', fold_opt (λ t i, tracker_mark_full t 0 i) t (seqZ R' (R - R')) = Some t' ∧ tracker_is t' n F' ∧ within F' R'.
Proof.
  intros Ht HF HR Hn.
  destruct (fold_range (λ t i, tracker_mark_full t 0 i) (λ j t, ∃ F', tracker_is t n F' ∧ ∀ o i, 0 ≤ o < ORDERS → i ∈ F' o → 0 ≤ i < R' ∨ j ≤ i < R) R' (R - R') t)
    as (t' & E & F' & Ht' & HF'); [lia| | |].
  - exists F. split; [done|]. intros o i Ho Hi. pose proof (HF o i Ho Hi). lia.
  - intros j a Hj (F1 & Ha & HF1). destruct (mark_full_tracker a n F1 0 j Ha) as (a' & E & Ha'); [unfold ORDERS, Buddy.MAX_MAX_PAGE_ORDER; lia|lia|].
    exists a'. split; [done|]. eexists. split; [done|]. intros o i Ho Hi. cbn in Hi. rewrite decide_True in Hi by lia.
    apply elem_of_difference in Hi as [Hi Hne]. rewrite elem_of_singleton in Hne. pose proof (HF1 o i Ho Hi). lia.
  - exists t', F'. split_and!; [done|done|]. intros o i Ho Hi. pose proof (HF' o i Ho Hi). lia.
Qed.
Lemma part_shrinks P T T' i Q : 0 ≤ i → T' ≤ T → part_of P i Q → (∀ x, x ∈ P → 0 ≤ x < T) →
  ∀ Q', (∀ x, x ∈ Q' ↔ x ∈ Q ∧ x < pages_of T' i) → part_of (P ∖ pages_between T' T) i Q'.
Proof.
  intros Hi HT HQ HP Q' HQ' x. rewrite (HQ' x), (HQ x), elem_of_difference, elem_of_between. unfold pages_of. split.
  - intros [[? Hin] ?]. split_and!; [lia|lia|done|lia].
  - intros (? & Hin & ?). split; [split; [lia|done]|]. apply HP in Hin. lia.
Qed.
Lemma shrink_to_ok L' T T' R P bs t n F : layout_is L' T' → T' ≤ T → (R - 1) * cap < T ≤ R * cap → num_regions L' ≤ R → (∀ x, x ∈ P → 0 ≤ x < T) →
  pages_between T' T ⊆ P → allocs_ok bs T R P → tracker_is t n F → R ≤ n → within F R →
  ∃ a' F', shrink_to (mkAllocators t bs) L' = Some a' ∧ tracker_is (region_tracker a') n F' ∧ within F' (num_regions L')
    ∧ allocs_ok (region_allocators a') T' (num_regions L') (P ∖ pages_between T' T).
Proof.
  intros HL' HT HTR HRR HP Hfree [Hlen Hbs] Ht Hn HF. destruct (layout_facts L' T' HL') as (HR' & HT' & _). pose proof cap_pos.
  unfold shrink_to. cbn [region_tracker region_allocators]. rewrite Hlen.
  destruct (mark_gone t n F (num_regions L') R Ht HF) as (t' & F' & -> & Ht' & HF'); [lia|done|]. cbn [mbind option_bind].
  set (R' := num_regions L') in *. set (kept := take (Z.to_nat R') bs). assert (Z.of_nat (length kept) = R') as Hk by (unfold kept; rewrite length_take; lia).
  destruct (last_allocator kept R' Hk HR') as [-> ->]. destruct (Hbs (R' - 1)) as (b & Q & E & Hb & HQ); [lia|].
  assert (∀ i, 0 ≤ i < R' → kept !! Z.to_nat i = bs !! Z.to_nat i) as Hkept by (intros; unfold kept; by rewrite lookup_take_lt by lia).
  rewrite Hkept, E by lia. cbn [mbind option_bind]. rewrite (last_region L' T' HL'). fold R'. destruct (region_facts _ _ _ Hb) as (Eb & _ & _ & HQb). rewrite Eb.
  assert (0 < pages_of T' (R' - 1)) by (unfold pages_of; lia).
  assert (∃ b' Q', (if pages_of T' (R' - 1) <? pages_of T (R' - 1) then Buddy.resize b (pages_of T' (R' - 1)) else Some b) = Some b'
    ∧ implements cap b' (pages_of T' (R' - 1), Q') ∧ ∀ x, x ∈ Q' ↔ x ∈ Q ∧ x < pages_of T' (R' - 1)) as (b' & Q' & -> & Hb' & HQ').
  { destruct (Z.ltb_spec (pages_of T' (R' - 1)) (pages_of T (R' - 1))).
    - destruct (region_resize b _ Q (pages_of T' (R' - 1)) Hb) as (b' & Q' & -> & Hb' & HQ').
      { right. split; [lia|]. intros x Hx. apply HQ. unfold pages_of in *. split; [lia|]. apply Hfree, elem_of_between. lia. }
      exists b', Q'. split; [done|]. split; [done|]. intros x. rewrite HQ'. split; [intros [[Hx|?] ?]; [split; [done|lia]|unfold pages_of in *; lia]|].
      intros [Hx ?]. split; [by left|]. apply HQb in Hx. lia.
    - assert (pages_of T' (R' - 1) = pages_of T (R' - 1)) as -> by (unfold pages_of in *; lia). exists b, Q. split; [done|]. split; [done|].
      intros x. split; [|tauto]. intros Hx. split; [done|]. by apply HQb. }
  cbn [mbind option_bind]. eexists _, F'. split; [done|]. cbn [region_tracker region_allocators]. split_and!; [done|done|]. split; [by rewrite length_insert|].
  intros i Hi. destruct (decide (i = R' - 1)) as [->|Hne].
  - exists b', Q'. rewrite list_lookup_insert_eq by lia. split; [done|]. split; [done|]. eapply part_shrinks; [lia|done|done|done|done].
  - destruct (Hbs i) as (bi & Qi & Ei & Hbi & HQi); [lia|]. exists bi, Qi. rewrite list_lookup_insert_ne, Hkept by lia.
    assert (i + 1 ≤ R' - 1) by lia. assert ((i + 1) * cap ≤ (R' - 1) * cap) by (apply Z.mul_le_mono_nonneg_r; lia).
    assert (pages_of T' i = pages_of T i) as -> by (unfold pages_of; lia). split_and!; [done|done|]. eapply part_shrinks; [lia|done|done|done|].
    destruct (region_facts _ _ _ Hbi) as (_ & _ & _ & HQi'). intros x. split; [|tauto]. intros Hx. split; [done|]. apply HQi' in Hx. unfold pages_of in *. lia.
Qed.

(** ** The allocators follow the layout *)
Definition resized (P : gset Z) (T T' : Z) : gset Z := (P ∪ pages_between T T') ∖ pages_between T' T.
Lemma elem_of_resized P T T' x : (∀ x, x ∈ P → 0 ≤ x < T) → 0 ≤ T → x ∈ resized P T T' ↔ (x ∈ P ∨ T ≤ x) ∧ x < T'.
Proof.
  intros HP HT. unfold resized. rewrite elem_of_difference, elem_of_union, !elem_of_between. split.
  - intros [[Hx|?] ?]; [apply HP in Hx as ?; split; [by left|lia]|lia].
  - intros [[Hx|?] ?]; [split; [by left|lia]|lia].
Qed.
Lemma resize_to_ok s L T P n F L' T' : state_is s L T P n F → layout_is L' T' → num_regions L' ≤ MAX_REGIONS → pages_between T' T ⊆ P →
  ∃ a' n' F', resize_to (allocators s) L' = Some a' ∧ (∀ h', header_layout h' = Some L' → state_is (mkState h' a') L' T' (resized P T T') n' F')
    ∧ ∀ p, page_ok L' p → span p ⊆ pages_between T T' → region p ∈ F' (page_order p).
Proof.
  intros Hs HL' HM Hfree. pose proof (state_total _ _ _ _ _ _ Hs) as HL. destruct (layout_facts L T HL) as (HR & HT & _).
  destruct (layout_facts L' T' HL') as (HR' & HT' & _). pose proof (state_allocs _ _ _ _ _ _ Hs) as Ha. pose proof Ha as [Hlen Hbs].
  pose proof (state_tracker _ _ _ _ _ _ Hs) as Ht. pose proof (state_regions _ _ _ _ _ _ Hs) as Hn. pose proof (state_within _ _ _ _ _ _ Hs) as HF.
  pose proof (state_pages _ _ _ _ _ _ Hs) as HP. destruct (allocators s) as [t bs] eqn:Es. cbn [region_tracker region_allocators] in *. pose proof cap_pos.
  assert (∀ x, x ∈ resized P T T' → 0 ≤ x < T') as HP'.
  { pose proof (layout_pos L T HL). intros x Hx. apply elem_of_resized in Hx; [|done|lia]. destruct Hx as [[Hx|?] ?]; [apply HP in Hx; lia|lia]. }
  assert (T' ≤ T → ∀ (F' : Z → gset Z) p, page_ok L' p → span p ⊆ pages_between T T' → region p ∈ F' (page_order p)) as Hnone.
  { intros Hle F' p (_ & _ & Ho & _) Hsp. exfalso. apply (first_in_span p), Hsp, elem_of_between in Ho. lia. }
  assert (T' ≤ T → resized P T T' = P ∖ pages_between T' T) as Eshrink.
  { intros Hle. unfold resized. apply set_eq. intros x. rewrite !elem_of_difference, elem_of_union, !elem_of_between. intuition lia. }
  assert (T' ≤ T → ∃ a' n' F', shrink_to (mkAllocators t bs) L' = Some a' ∧ (∀ h', header_layout h' = Some L' → state_is (mkState h' a') L' T' (resized P T T') n' F')
    ∧ ∀ p, page_ok L' p → span p ⊆ pages_between T T' → region p ∈ F' (page_order p)) as Hshrink.
  { intros Hle. pose proof (regions_mono L' L T' T HL' HL Hle). destruct (shrink_to_ok L' T T' (num_regions L) P bs t n F) as (a' & F' & E & Ht' & HF' & Hb'); try done.
    exists a', n, F'. split; [done|]. split; [|by apply Hnone]. rewrite Eshrink in * by done. intros h' Eh. split; try done. cbn. lia. }
  assert (T < T' → ∃ a' n' F', grow_to (mkAllocators t bs) L' = Some a' ∧ (∀ h', header_layout h' = Some L' → state_is (mkState h' a') L' T' (resized P T T') n' F')
    ∧ ∀ p, page_ok L' p → span p ⊆ pages_between T T' → region p ∈ F' (page_order p)) as Hgrow.
  { intros Hlt. pose proof (regions_mono L L' T T' HL HL' ltac:(lia)). destruct (grow_to_ok L' T T' (num_regions L) P bs HL' Hlt HR HT) with t n F as (a' & n' & F' & E & Ht' & Hn' & HF' & Hb' & Hm); try done.
    exists a', n', F'. split; [done|]. split; [|done]. assert (resized P T T' = P ∪ pages_between T T') as EP.
    { unfold resized. apply set_eq. intros x. rewrite !elem_of_difference, elem_of_union, !elem_of_between. split; [tauto|]. intros Hx. split; [done|lia]. }
    rewrite EP in *. intros h' Eh. split; done. }
  unfold resize_to. cbn [region_allocators]. rewrite Hlen. destruct (Z.compare_spec (num_regions L') (num_regions L)) as [ER|ER|ER].
  - destruct (last_allocator bs (num_regions L) Hlen HR) as [-> _]. destruct (Hbs (num_regions L - 1)) as (b & Q & -> & Hb & _); [lia|]. cbn [mbind option_bind].
    destruct (region_facts _ _ _ Hb) as (-> & _). rewrite (last_region L' T' HL'), ER. rewrite ER in HT'. unfold pages_of. rewrite !Z.min_r by lia.
    destruct (Z.compare_spec (T' - (num_regions L - 1) * cap) (T - (num_regions L - 1) * cap)); [|apply Hshrink; lia|apply Hgrow; lia].
    assert (T' = T) as -> by lia. exists (mkAllocators t bs), n, F. split; [done|]. split; [|by apply Hnone]. intros h' Eh.
    assert (resized P T T = P) as -> by (unfold resized; apply set_eq; intros x; rewrite elem_of_difference, elem_of_union, !elem_of_between; intuition lia).
    rewrite <-ER in *. split; done.
  - apply Hshrink. assert (num_regions L' * cap ≤ (num_regions L - 1) * cap) by (apply Z.mul_le_mono_nonneg_r; lia). lia.
  - apply Hgrow. assert (num_regions L * cap ≤ (num_regions L' - 1) * cap) by (apply Z.mul_le_mono_nonneg_r; lia). lia.
Qed.
Lemma header_region h0 L : header_layout h0 = Some L →
  full_region_layout L = mkRegion (region_max_data_pages h0) (region_header_pages h0) (header_page_size h0).
Proof.
  unfold header_layout, region_new. destruct (0 <? region_max_data_pages h0); [|done]. cbn [check mbind option_bind].
  intros E. destruct (0 <? _) in E; cbn in E; by injection E as <-.
Qed.
Lemma state_page_size s L T P n F : state_is s L T P n F → header_page_size (header s) = ps.
Proof.
  intros Hs. pose proof (header_region _ _ (state_layout _ _ _ _ _ _ Hs)) as E. destruct (state_total _ _ _ _ _ _ Hs) as (_ & Ef & _). congruence.
Qed.
(** A whole block lies in the pages that a growth adds. *)
Lemma round_to_block T o : 0 ≤ o → ∃ y, y `mod` 2 ^ o = 0 ∧ T ≤ y < T + 2 ^ o.
Proof.
  intros Ho. pose proof (Z.pow_pos_nonneg 2 o ltac:(lia) Ho). exists ((T + 2 ^ o - 1) / 2 ^ o * 2 ^ o). split; [apply Z.mod_mul; lia|].
  pose proof (Z.div_mod (T + 2 ^ o - 1) (2 ^ o) ltac:(lia)). pose proof (Z.mod_pos_bound (T + 2 ^ o - 1) (2 ^ o) ltac:(lia)). lia.
Qed.
Lemma cap_blocks o : 0 ≤ o ≤ top → 0 < 2 ^ o ≤ cap ∧ ∀ k, (k * cap) `mod` 2 ^ o = 0.
Proof.
  intros Ho. split; [split; [apply Z.pow_pos_nonneg; lia|rewrite Hcap; apply Z.pow_le_mono_r; lia]|]. intros k.
  apply Z.mod_divide; [pose proof (Z.pow_pos_nonneg 2 o); lia|]. exists (k * 2 ^ (top - o)). rewrite Hcap. replace top with (top - o + o) at 1 by lia.
  rewrite Z.pow_add_r by lia. lia.
Qed.
Lemma desired_ok L T o : layout_is L T → 0 ≤ o ≤ top → ∃ T' y, next_desired_size L o ps = T' * ps ∧ T < T' ≤ (num_regions L + 1) * cap + cap
  ∧ y `mod` 2 ^ o = 0 ∧ T ≤ y ∧ y + 2 ^ o ≤ T'.
Proof.
  intros HL Ho. destruct (layout_facts L T HL) as (HR & HT & _ & Eu & _). destruct (cap_blocks o Ho) as [Hb Hk]. pose proof cap_pos. pose proof (layout_pos L T HL).
  unfold next_desired_size. rewrite Eu. destruct HL as (Hl & Ef & ET). rewrite Ef. cbn [num_pages]. unfold num_regions, last_pages in *. rewrite Ef in ET. cbn [num_pages] in ET.
  pose proof Hl as (_ & _ & _ & Hnf & Ht). unfold trailing_region_layout. destruct (round_to_block T o) as (y & Hy & HyT); [lia|].
  destruct (trailing_partial_region L) as [t|] eqn:Et.
  - destruct Ht as (Eps & _ & Hn). rewrite Ef in Eps, Hn. cbn [page_size num_pages] in Eps, Hn. unfold region_usable_bytes. rewrite Eps.
    set (m := num_pages t) in *. set (k := num_full_regions L) in *. destruct (Z.ltb_spec 0 k).
    + destruct (Z.ltb_spec (2 * (2 ^ o * ps)) (cap * ps - ps * m)).
      * assert (2 * 2 ^ o < cap - m) by nia. exists ((k + 1) * cap), y. split_and!; lia.
      * exists ((k + 1) * cap + cap), ((k + 1) * cap). split_and!; [lia|lia|lia|apply Hk|lia|lia].
    + assert (k = 0) by lia. exists (Z.max (T * 2) (T + 2 ^ o * 2)), y. split_and!; try lia. nia.
  - set (k := num_full_regions L) in *. rewrite (proj2 (Z.ltb_lt 0 k)) by lia. exists (T + cap), (k * cap). split_and!; try lia. apply Hk.
Qed.
(** A block of the file is a page of one region. *)
Lemma page_of_block L T y o : layout_is L T → 0 ≤ o ≤ top → 0 ≤ y → y `mod` 2 ^ o = 0 → y + 2 ^ o ≤ T →
  ∃ p, page_order p = o ∧ page_ok L p ∧ first p = y.
Proof.
  intros HL Ho Hy Hmod HyT. destruct (cap_blocks o Ho) as [Hb Hk]. pose proof cap_pos. destruct (layout_facts L T HL) as (_ & HT & _).
  pose proof (Z.div_mod y cap ltac:(lia)) as Hd. pose proof (Z.mod_pos_bound y cap ltac:(lia)) as Hm. set (i := y / cap) in *. set (x := y `mod` cap) in *.
  assert (x `mod` 2 ^ o = 0) as Hx.
  { replace x with (y - i * cap) by lia. rewrite Zminus_mod, Hmod, Hk. by rewrite Z.mod_0_l by lia. }
  pose proof (Z.div_mod x (2 ^ o) ltac:(lia)) as Hdx. set (j := x / 2 ^ o) in *. assert (0 ≤ i) by (apply Z.div_pos; lia). assert (0 ≤ j) by (apply Z.div_pos; lia).
  assert (x + 2 ^ o ≤ cap).
  { specialize (Hk 1). rewrite Z.mul_1_l in Hk. pose proof (Z.div_mod cap (2 ^ o) ltac:(lia)) as Hdc. rewrite Hk, Z.add_0_r in Hdc.
    assert (x = 2 ^ o * j) as Ej by (rewrite Hdx at 1; lia). clearbody x j. clear Hmod Hx Hk Hdx Hd. set (q := cap / 2 ^ o) in *. clearbody q.
    assert (j < q) by (apply (Z.mul_lt_mono_pos_l (2 ^ o)); lia). assert (2 ^ o * (j + 1) ≤ 2 ^ o * q) by (apply Z.mul_le_mono_nonneg_l; lia). lia. }
  exists (mkPage i j o). split; [done|]. split; [|unfold first; cbn; lia]. apply (page_in_layout L T); [done|nia|lia|lia|unfold pages_of; nia].
Qed.
Lemma layout_total L T : layout_ok L → full_region_layout L = mkRegion cap h ps → usable_bytes L = T * ps → layout_is L T.
Proof.
  intros Hl Ef Eu. split; [done|]. split; [done|]. destruct (layout_shape L cap h ps Hl Ef) as (_ & _ & Eu' & _). rewrite Eu' in Eu.
  symmetry. apply (Z.mul_reg_r _ _ ps); lia.
Qed.
Lemma layout_of_bytes T' : 0 < T' ≤ MAX_REGIONS * cap → ∃ L', calculate (T' * ps) cap h ps = Some L' ∧ layout_is L' T' ∧ num_regions L' ≤ MAX_REGIONS.
Proof.
  intros HT'. pose proof cap_pos. pose proof cap_limit as Hcl. unfold MAX_REGIONS in *.
  destruct (calculate_ok cap h ps cap_limit Hh Hps (T' * ps)) as (L' & E & Hl & Ef & Hu & Hmod); [nia|nia|].
  exists L'. split; [done|]. assert (layout_is L' T') as HL'.
  { apply layout_total; [done|done|]. apply Z.mod_divide in Hmod as [k Ek]; [|lia]. rewrite Ek in *. f_equal.
    assert (T' ≤ k) by (apply (Z.mul_le_mono_pos_r _ _ ps); lia). assert (k < T' + 1) by (apply (Z.mul_lt_mono_pos_r ps); lia). lia. }
  split; [done|]. destruct (layout_facts L' T' HL') as (_ & HT2 & _). nia.
Qed.
Lemma file_grow_ok s L T P n F o : state_is s L T P n F → 0 ≤ o ≤ top → num_regions L + 2 ≤ MAX_REGIONS → grow s o false = Some (Err ())
  ∧ ∃ s' L' T' n' F' p, grow s o true = Some (Ok s') ∧ T ≤ T' ∧ state_is s' L' T' (resized P T T') n' F'
    ∧ page_order p = o ∧ page_ok L' p ∧ region p ∈ F' o ∧ span p ⊆ resized P T T'.
Proof.
  intros Hs Ho HM. pose proof (state_total _ _ _ _ _ _ Hs) as HL. destruct (desired_ok L T o HL Ho) as (T' & y & Ed & HT' & Hy & HyT & HyT').
  destruct (layout_of_bytes T') as (L' & Ec & HL' & HM'); [pose proof (layout_pos L T HL); pose proof cap_pos; nia|].
  destruct (page_of_block L' T' y o HL' Ho) as (p & Ep & Hp & Hfirst); [pose proof (layout_pos L T HL); lia|done|done|].
  destruct (resize_to_ok s L T P n F L' T' Hs HL' HM') as (a' & n' & F' & Ea & Hs' & Hmark).
  { intros x Hx%elem_of_between. lia. }
  destruct (len_mono L L' T T' HL HL' ltac:(lia)) as (len & len' & El & El' & Hlen). pose proof (layout_pos L T HL). unfold grow. rewrite (state_layout _ _ _ _ _ _ Hs). cbn [mbind option_bind]. rewrite (state_page_size _ _ _ _ _ _ Hs), Ed.
  destruct HL as (Hl & Ef & ET). destruct HL' as (Hl' & Ef' & ET'). rewrite Ef. cbn [num_pages header_pages]. rewrite Ec. cbn [mbind option_bind]. rewrite El, El'. cbn [mbind option_bind].
  rewrite Hlen. cbn [check mbind option_bind negb]. split; [done|]. rewrite Ea. cbn [mbind option_bind].
  destruct (set_layout_ok (header s) L L' (state_layout _ _ _ _ _ _ Hs) Hl') as (h' & -> & Eh' & _); [by rewrite Ef, Ef'|]. cbn [mbind option_bind].
  assert (span p ⊆ pages_between T T') as Hspan.
  { intros x. rewrite elem_of_span, elem_of_between, Hfirst, Ep by lia. lia. }
  eexists _, L', T', n', F', p. split; [done|]. split; [lia|]. split; [by apply Hs'|]. split_and!; [done|done| |].
  - rewrite <-Ep. by apply Hmark.
  - intros x Hx%Hspan%elem_of_between. apply elem_of_resized; [apply (state_pages _ _ _ _ _ _ Hs)|lia|]. split; [right; lia|lia].
Qed.
(** ** Allocation: the search, the growth, and the search again *)
Lemma resized_same P T : resized P T T = P.
Proof. unfold resized. apply set_eq. intros x. rewrite elem_of_difference, elem_of_union, !elem_of_between. intuition lia. Qed.
Lemma allocate_page_ok s L T P n F size lowest resized_ok : state_is s L T P n F → 0 ≤ size ≤ cap * ps → num_regions L + 2 ≤ MAX_REGIONS →
  ∃ r s' L' T' n' F', allocate_page s size ps lowest resized_ok = Some (r, s') ∧ T ≤ T' ∧ match r with
    | Ok (p, range) => page_order p = order_of ps size ∧ page_ok L' p ∧ span p ⊆ resized P T T' ∧ page_range L' p = Some range
        ∧ state_is s' L' T' (resized P T T' ∖ span p) n' F'
    | Err _ => resized_ok = false ∧ T' = T ∧ state_is s' L' T P n' F'
    end.
Proof.
  intros Hs Hsize HM. destruct (order_enough ps size) as [_ Hmin]; [done|lia|]. pose proof cap_limit as Hcl. unfold MAX_REGIONS in Hcl.
  assert (order_of ps size ≤ top) as Htop' by (apply Hmin; [lia|rewrite <-Hcap; lia]).
  assert (0 ≤ div_ceil size ps ≤ 2 ^ 20) as Hreq.
  { unfold div_ceil. split; [apply Z.div_pos; lia|]. assert ((size + ps - 1) / ps < cap + 1); [|lia]. apply Z.div_lt_upper_bound; lia. }
  unfold allocate_page. rewrite (proj2 (Z.eqb_neq ps 0)) by lia. cbn [negb check mbind option_bind].
  destruct (ceil_log2_ok _ Hreq) as [-> Ho]. cbn [mbind option_bind]. fold (order_of ps size) in Ho |- *. set (o := order_of ps size) in *. clearbody o.
  assert (0 ≤ o < ORDERS) as HoO by (unfold ORDERS, Buddy.MAX_MAX_PAGE_ORDER; lia).
  destruct (allocate_retry_ok s L T P n F o lowest Hs HoO) as (r & s1 & F1 & -> & Eh & Hr). cbn [mbind option_bind]. destruct r as [p|]; cbn [mbind option_bind].
  - destruct Hr as (Ep & Hp & Hsp & Hs1). rewrite (state_layout _ _ _ _ _ _ Hs1). cbn [mbind option_bind].
    destruct (page_range_Some L p) as (? & ? & _ & E & _); [apply Hs1|done|]. rewrite E. cbn [mbind option_bind].
    eexists _, s1, L, T, n, F1. split; [done|]. split; [lia|]. by rewrite resized_same.
  - destruct Hr as [Hs1 _]. destruct (file_grow_ok s1 L T P n F1 o Hs1 ltac:(lia) HM) as [Efail (s2 & L2 & T2 & n2 & F2 & p2 & Eok & HT2 & Hs2 & Ep2 & Hp2 & Hin2 & Hsp2)].
    destruct resized_ok; [|rewrite Efail; eexists _, s1, L, T, n, F1; split; [done|split; [lia|done]]]. rewrite Eok. cbn [mbind option_bind].
    destruct (allocate_retry_ok s2 L2 T2 _ n2 F2 o lowest Hs2 HoO) as (r & s3 & F3 & -> & Eh3 & Hr3). cbn [mbind option_bind].
    destruct r as [p|]; [|destruct Hr3 as [_ Hr3]; by destruct (Hr3 p2)]. destruct Hr3 as (Ep & Hp & Hsp & Hs3). cbn [mbind option_bind].
    rewrite (state_layout _ _ _ _ _ _ Hs3). cbn [mbind option_bind]. destruct (page_range_Some L2 p) as (? & ? & _ & E & _); [apply Hs3|done|]. rewrite E. cbn [mbind option_bind].
    eexists _, s3, L2, T2, n2, F3. split; [done|]. by split.
Qed.
(** ** The file is cut, and the state of a file that is opened *)
Lemma reduce_by_ok L T k : layout_is L T → 0 ≤ k ≤ last_pages L → (k < last_pages L ∨ 1 < num_regions L) →
  ∃ L', reduce_last_region L k = Some L' ∧ layout_is L' (T - k).
Proof.
  intros HL Hk Hlast. pose proof HL as (Hl & Ef & ET). destruct (Z.eq_dec k 0) as [->|Hne].
  - clear Hlast. rewrite Z.sub_0_r. pose proof Hl as (_ & _ & _ & Hnf & Ht). pose proof cap_pos. unfold reduce_last_region. rewrite Ef in *. cbn [num_pages header_pages page_size] in *.
    destruct (trailing_partial_region L) as [t|] eqn:Et.
    + rewrite (proj2 (Z.leb_le _ _)) by lia. cbn [check mbind option_bind]. rewrite Z.sub_0_r, (proj2 (Z.eqb_neq _ _)) by lia. eexists. split; [done|].
      assert (mkLayout (mkRegion cap h ps) (num_full_regions L) (Some (mkRegion (num_pages t) (header_pages t) (page_size t))) = L) as ->; [|done].
      destruct t, L. cbn in *. congruence.
    + rewrite (proj2 (Z.ltb_lt 0 (num_full_regions L))), (proj2 (Z.ltb_lt 0 cap)) by lia. cbn [check mbind option_bind]. rewrite region_new_Some by lia.
      cbn [fmap option_fmap option_map mbind option_bind]. rewrite Z.sub_0_r. eexists. split; [done|]. unfold layout_is, layout_ok, num_regions, last_pages in *.
      rewrite Et, Ef in ET. cbn in *. split_and!; try done; lia.
  - destruct (reduce_ok cap h ps cap_limit Hh Hps L k Hl Ef ltac:(lia) Hlast) as (L' & E & Hl' & Ef' & Eu & _). exists L'. split; [done|].
    apply layout_total; [done|done|]. destruct (layout_facts L T HL) as (_ & _ & _ & Eu' & _). lia.
Qed.
Lemma last_pages_of L T : layout_is L T → pages_of T (num_regions L - 1) = last_pages L ∧ T = (num_regions L - 1) * cap + last_pages L ∧ 0 < last_pages L.
Proof.
  intros (Hl & Ef & ET). destruct (layout_shape L cap h ps Hl Ef) as (Hlast & _). unfold pages_of. split; [lia|]. split; [done|lia].
Qed.
Lemma try_shrink_ok s L T P n F force : state_is s L T P n F → num_regions L ≤ MAX_REGIONS →
  ∃ b s' L' T' n' F', try_shrink s force = Some (b, s') ∧ 0 < T' ≤ T ∧ pages_between T' T ⊆ P ∧ state_is s' L' T' (resized P T T') n' F'
    ∧ (b = false → T' = T) ∧ (force = true → T - 1 ∈ P → 1 < T → T' < T).
Proof.
  intros Hs HM. pose proof (state_total _ _ _ _ _ _ Hs) as HL. destruct (layout_facts L T HL) as (HR & HT & _). pose proof (layout_pos L T HL) as Hpos.
  destruct (last_pages_of L T HL) as (Em & ET & Hm). destruct (state_region s L T P n F (num_regions L - 1) Hs) as (b & Q & Eb & Hb & HQ & Hmc); [lia|]. rewrite Em in *.
  destruct (region_trailing b _ Q Hb Hm) as (z & Ez & Hz & Hin & Hmax). destruct (region_facts _ _ _ Hb) as (Elen & _).
  unfold try_shrink. rewrite (state_layout _ _ _ _ _ _ Hs). cbn [mbind option_bind]. rewrite (proj2 (Z.ltb_lt 0 _)) by lia. cbn [check mbind option_bind].
  rewrite Eb. cbn [mbind option_bind]. rewrite Ez. cbn [mbind option_bind]. rewrite Elen.
  assert (T - 1 ∈ P → 0 < z) as Hz0.
  { intros Hin1. destruct (Z.eq_dec z 0) as [->|]; [|lia]. exfalso. apply Hmax; [lia|]. apply HQ. split; [lia|]. by replace (_ + _) with (T - 1) by lia. }
  assert (∀ F', (force = true → T - 1 ∈ P → 1 < T → F') → 0 < T ≤ T ∧ pages_between T T ⊆ P ∧ state_is s L T (resized P T T) n F ∧ (false = false → T = T) ∧ (force = true → T - 1 ∈ P → 1 < T → F')) as Hstay.
  { intros F' HF'. rewrite resized_same. split_and!; try done. intros x Hx%elem_of_between. lia. }
  destruct (Z.eqb_spec z 0) as [->|Hz1]; [exists false, s, L, T, n, F; split; [done|]; apply Hstay; intros _ ?%Hz0; lia|].
  destruct ((z <? last_pages L / 2) && negb force) eqn:Ef; [exists false, s, L, T, n, F; split; [done|]; apply Hstay; intros ->; by rewrite andb_false_r in Ef|].
  set (k := if (1 <? num_regions L) && (z =? last_pages L) then z else if force then Z.min (last_pages L - 1) z else z / 2).
  assert (0 ≤ k ≤ z ∧ (k < last_pages L ∨ 1 < num_regions L) ∧ (force = true → 1 < T → 0 < k)) as (Hk & Hklast & Hkf).
  { pose proof (Z.div_lt z 2). pose proof (Z.div_pos z 2). unfold k. destruct (Z.ltb_spec 1 (num_regions L)), (Z.eqb_spec z (last_pages L)); cbn [andb]; [lia|..].
    all: assert (num_regions L = 1 → T = last_pages L) by (intros HR1; rewrite HR1 in ET; lia); destruct force; split_and!; try done; lia. }
  clearbody k. destruct (reduce_by_ok L T k HL) as (L' & -> & HL'); [lia|done|]. cbn [mbind option_bind].
  pose proof (regions_mono L' L _ T HL' HL ltac:(lia)).
  assert (pages_between (T - k) T ⊆ P) as Hfree.
  { intros x Hx%elem_of_between. assert (x - (num_regions L - 1) * cap ∈ Q) as Hxq by (apply Hin; lia).
    apply HQ in Hxq as [_ Hxq]. by replace (_ + (x - _)) with x in Hxq by lia. }
  destruct (resize_to_ok s L T P n F L' (T - k) Hs HL' ltac:(lia) Hfree) as (a' & n' & F' & -> & Hs' & _). cbn [mbind option_bind].
  destruct (len_mono L' L _ T HL' HL ltac:(lia)) as (len & len' & -> & -> & Hlen). cbn [mbind option_bind]. rewrite Hlen. cbn [check mbind option_bind].
  pose proof HL as (_ & Efull & _). pose proof HL' as (Hl' & Efull' & _).
  destruct (set_layout_ok (header s) L L' (state_layout _ _ _ _ _ _ Hs) Hl') as (h' & -> & Eh' & _); [by rewrite Efull, Efull'|]. cbn [mbind option_bind].
  eexists true, _, L', (T - k), n', F'. split; [done|]. split; [apply layout_pos in HL'; lia|]. split; [done|]. split; [by apply Hs'|]. split; [done|].
  intros Ht _ HT1. specialize (Hkf Ht HT1). lia.
Qed.
Lemma allocators_new_ok L T : layout_is L T → num_regions L ≤ MAX_REGIONS → ∃ a n F, allocators_new L = Some a ∧ tracker_is (region_tracker a) n F
  ∧ num_regions L ≤ n ∧ within F (num_regions L) ∧ allocs_ok (region_allocators a) T (num_regions L) (pages_between 0 T).
Proof.
  intros HL HM. destruct (layout_facts L T HL) as (HR & HT & _ & _ & Hrl). pose proof cap_pos. unfold allocators_new. fold ORDERS.
  set (n := Z.max INITIAL_REGIONS (num_regions L)). assert (num_regions L ≤ n ≤ MAX_REGIONS) as Hn by (unfold n, INITIAL_REGIONS, MAX_REGIONS in *; lia).
  destruct (new_tracker n) as (t & -> & Ht); [lia|]. cbn [mbind option_bind].
  destruct (fold_range (new_region L) (λ i a, ∃ F, tracker_is (region_tracker a) n F ∧ within F i ∧ allocs_ok (region_allocators a) T i (pages_between 0 T))
    0 (num_regions L) (mkAllocators t [])) as (a & E & F & Ha & HF & Hb).
  - lia.
  - exists (λ _, ∅). split; [done|]. split; [intros o i _; set_solver|]. split; [done|]. intros; lia.
  - intros i a Hi (F & Ha & HF & Hlen & Hbs). unfold new_region. rewrite Hrl, (proj2 (Z.ltb_lt i _)) by lia. cbn [mbind option_bind num_pages].
    destruct HL as (_ & Ef & _). rewrite Ef. cbn [num_pages]. assert (i * cap ≤ (num_regions L - 1) * cap) by (apply Z.mul_le_mono_nonneg_r; lia).
    destruct (region_new_ok (pages_of T i)) as (b & Q & -> & Hb & HQ); [unfold pages_of; lia|]. cbn [mbind option_bind].
    destruct (region_facts _ _ _ Hb) as (_ & Eo & _). unfold Buddy.get_max_order. rewrite Eo.
    destruct (mark_free_tracker _ n F top i Ha) as (t' & -> & Ht'); [unfold ORDERS; lia|lia|]. cbn [mbind option_bind]. eexists. split; [done|].
    eexists. cbn [region_tracker region_allocators]. split; [done|]. split; [eapply within_mark; [done|lia|lia]|]. split; [rewrite length_app; cbn; lia|].
    intros j Hj. destruct (decide (j = i)) as [->|].
    + exists b, Q. rewrite lookup_app_r by lia. replace (Z.to_nat i - length (region_allocators a))%nat with 0%nat by lia. split; [done|]. split; [done|].
      intros x. rewrite HQ, elem_of_between. unfold pages_of. lia.
    + destruct (Hbs j) as (b' & Q' & E & ? & ?); [lia|]. exists b', Q'. split; [by apply lookup_app_l_Some|done].
  - exists a, n, F. rewrite Z.add_0_l in *. split_and!; try done; lia.
Qed.
Lemma state_new_ok h0 L T : header_layout h0 = Some L → layout_is L T → num_regions L ≤ MAX_REGIONS →
  ∃ s n F, state_new h0 = Some s ∧ header s = h0 ∧ state_is s L T (pages_between 0 T) n F.
Proof.
  intros Eh HL HM. destruct (allocators_new_ok L T HL HM) as (a & n & F & E & Ht & Hn & HF & Hb). unfold state_new. rewrite Eh. cbn [mbind option_bind]. rewrite E.
  cbn [fmap option_fmap option_map]. eexists _, n, F. split; [done|]. split; [done|]. split; try done. intros x Hx%elem_of_between. lia.
Qed.

(** * The memory manager and what it promises *)
Inductive memory_op :=
  | Allocate (size : Z) (lowest resized : bool)
  | FreePage (p : PageNumber)
  | MarkAllocated (p : PageNumber)
  | TryShrink (force : bool)
  | CountAllocated
  | CountFree.
Inductive memory_answer :=
  | Allocated (p : PageNumber) (range : Z * Z)
  | Failed
  | Finished
  | Shrunk (b : bool)
  | Pages (count : Z).
Definition memory_step (s : InMemoryState) (op : memory_op) : option (memory_answer * InMemoryState) :=
  match op with
  | Allocate size lowest resized =>
      '(r, s) ← allocate_page s size ps lowest resized;
      Some (match r with Ok (p, range) => Allocated p range | Err _ => Failed end, s)
  | FreePage p => s ← free_page s p; Some (Finished, s)
  | MarkAllocated p => s ← mark_page_allocated s p; Some (Finished, s)
  | TryShrink force => '(b, s) ← try_shrink s force; Some (Shrunk b, s)
  | CountAllocated => c ← count_allocated_pages s; Some (Pages c, s)
  | CountFree => c ← count_free_pages s; Some (Pages c, s)
  end.

(** A file is its number of data pages and the set of the free ones, in regions of
    [cap]. *)
Definition page_at (T : Z) (p : PageNumber) : Prop :=
  0 ≤ region p ∧ 0 ≤ page_index p ∧ 0 ≤ page_order p ∧ (page_index p + 1) * 2 ^ page_order p ≤ pages_of T (region p).
Definition page_start (p : PageNumber) : Z := ps + (region p * (h + cap) + h + page_index p * 2 ^ page_order p) * ps.
Definition may (f : Z * gset Z) (op : memory_op) : Prop :=
  let '(T, P) := f in
  match op with
  | Allocate size _ _ => 0 ≤ size ≤ cap * ps ∧ T + 2 * cap ≤ MAX_REGIONS * cap
  | FreePage p => page_at T p ∧ span p ## P
  | MarkAllocated p => page_at T p ∧ span p ⊆ P
  | TryShrink _ | CountAllocated | CountFree => True
  end.
Definition promises (f : Z * gset Z) (op : memory_op) (out : memory_answer) (f' : Z * gset Z) : Prop :=
  let '(T, P) := f in let '(T', P') := f' in
  match op, out with
  | Allocate size _ _, Allocated p range =>
      T ≤ T' ∧ page_at T' p ∧ (∀ x, x ∈ span p → x ∈ P ∨ T ≤ x) ∧ (∀ x, x ∈ P' ↔ (x ∈ P ∨ T ≤ x < T') ∧ x ∉ span p)
      ∧ range = (page_start p, page_start p + 2 ^ page_order p * ps)
      ∧ size ≤ 2 ^ page_order p * ps ∧ ∀ k, 0 ≤ k → size ≤ 2 ^ k * ps → page_order p ≤ k
  | Allocate _ _ resized, Failed => resized = false ∧ T' = T ∧ P' = P
  | FreePage p, Finished => T' = T ∧ P' = P ∪ span p
  | MarkAllocated p, Finished => T' = T ∧ P' = P ∖ span p
  | TryShrink force, Shrunk b =>
      0 < T' ≤ T ∧ (∀ x, T' ≤ x < T → x ∈ P) ∧ (∀ x, x ∈ P' ↔ x ∈ P ∧ x < T') ∧ (b = false → T' = T)
      ∧ (force = true → T - 1 ∈ P → 1 < T → T' < T)
  | CountAllocated, Pages c => T' = T ∧ P' = P ∧ c = T - Z.of_nat (size P)
  | CountFree, Pages c => T' = T ∧ P' = P ∧ c = Z.of_nat (size P)
  | _, _ => False
  end.
Definition manages (s : InMemoryState) (f : Z * gset Z) : Prop := ∃ L n F, state_is s L f.1 f.2 n F.

Lemma page_ok_at L T p : layout_is L T → page_ok L p ↔ page_at T p.
Proof.
  intros HL. split.
  - intros Hp. destruct (page_in_region L T p HL Hp) as (? & ? & ? & ? & _). unfold page_at. lia.
  - intros (Hr & Hi & Ho & Hle). destruct p as [i x o]. cbn [region page_index page_order] in *. apply (page_in_layout L T); try done.
    destruct (layout_facts L T HL) as (_ & HT & _). pose proof (Z.pow_pos_nonneg 2 o ltac:(lia) Ho).
    assert (0 < pages_of T i) by (assert (0 ≤ x * 2 ^ o) by (apply Z.mul_nonneg_nonneg; lia); lia). unfold pages_of in *.
    split; [done|]. destruct (Z.lt_ge_cases i (num_regions L)); [done|]. exfalso.
    assert (num_regions L * cap ≤ i * cap) by (apply Z.mul_le_mono_nonneg_r; [rewrite Hcap; apply Z.pow_nonneg; lia|done]). lia.
Qed.
Lemma page_range_start L T p : layout_is L T → page_ok L p → page_range L p = Some (page_start p, page_start p + 2 ^ page_order p * ps).
Proof.
  intros (Hl & Ef & _) Hp. destruct (page_range_Some L p Hl Hp) as (r & a & _ & -> & -> & _). rewrite Ef. unfold page_start, region_len, region_usable_bytes. cbn [header_pages num_pages page_size].
  do 2 f_equal; lia.
Qed.
Lemma regions_of_file L T k : layout_is L T → T + k * cap ≤ MAX_REGIONS * cap → num_regions L + k ≤ MAX_REGIONS.
Proof.
  intros HL Hle. destruct (layout_facts L T HL) as (_ & HT & _). pose proof cap_pos.
  assert (num_regions L - 1 + k < MAX_REGIONS); [|lia]. apply (Z.mul_lt_mono_pos_r cap); lia.
Qed.

Lemma memory_new_ok hd L : header_layout hd = Some L → layout_ok L → full_region_layout L = mkRegion cap h ps → num_regions L ≤ MAX_REGIONS →
  ∃ s T, state_new hd = Some s ∧ usable_bytes L = T * ps ∧ manages s (T, pages_between 0 T).
Proof.
  intros Eh Hl Ef HM. destruct (layout_shape L cap h ps Hl Ef) as (_ & _ & Eu & _). set (T := (num_regions L - 1) * cap + last_pages L) in *.
  destruct (state_new_ok hd L T Eh) as (s & n & F & E & _ & Hs); [by apply layout_total|done|]. exists s, T. split; [done|]. split; [done|]. by exists L, n, F.
Qed.
Lemma allocate_promised s f size lowest ok : manages s f → may f (Allocate size lowest ok) →
  ∃ out s' f', memory_step s (Allocate size lowest ok) = Some (out, s') ∧ promises f (Allocate size lowest ok) out f' ∧ manages s' f'.
Proof.
  destruct f as [T P]. intros (L & n & F & Hs) [Hsize HT]. cbn [fst snd] in Hs. pose proof (state_total _ _ _ _ _ _ Hs) as HL.
  destruct (allocate_page_ok s L T P n F size lowest ok Hs Hsize) as (r & s' & L' & T' & n' & F' & E & HTT & Hr); [by apply (regions_of_file L T 2)|].
  cbn [memory_step]. rewrite E. cbn [mbind option_bind]. destruct r as [[p range]|[]].
  - destruct Hr as (Eo & Hp & Hsp & Er & Hs'). pose proof (state_total _ _ _ _ _ _ Hs') as HL'. destruct (order_enough ps size) as [Hlen Hmin]; [done|lia|].
    eexists _, s', (T', _). split; [done|]. split; [|by exists L', n', F']. cbn [promises]. pose proof (layout_pos L T HL).
    assert (∀ x, x ∈ resized P T T' ↔ (x ∈ P ∨ T ≤ x) ∧ x < T') as Hres by (intros x; apply elem_of_resized; [apply (state_pages _ _ _ _ _ _ Hs)|lia]).
    split; [done|]. split; [by eapply page_ok_at|]. split; [intros x Hx; apply Hsp, Hres in Hx; tauto|]. split.
    + intros x. rewrite elem_of_difference, Hres. split; [intros [[? ?] ?]; split; [|done]; destruct (decide (T ≤ x)); [right; lia|left; tauto || lia]|].
      intros [[Hx|?] ?]; (split; [|done]); [apply (state_pages _ _ _ _ _ _ Hs) in Hx as ?; split; [by left|lia]|split; [right|]; lia].
    + rewrite (page_range_start L' T' p HL' Hp) in Er. injection Er as <-. by rewrite Eo.
  - destruct Hr as (-> & -> & Hs'). eexists Failed, s', (T, P). split; [done|]. split; [done|]. by exists L', n', F'.
Qed.
Lemma change_promised s f op : manages s f → may f op → match op with Allocate _ _ _ => False | _ => True end →
  ∃ out s' f', memory_step s op = Some (out, s') ∧ promises f op out f' ∧ manages s' f'.
Proof.
  destruct f as [T P]. intros (L & n & F & Hs) Hmay Hop. cbn [fst snd] in Hs. pose proof (state_total _ _ _ _ _ _ Hs) as HL.
  destruct op as [|p|p|force| |]; [done|..]; cbn [memory_step may promises] in *.
  - destruct Hmay as [Hp%(page_ok_at L) Hfree]; [|done]. destruct (file_free_ok s L T P n F p Hs Hp) as (s' & F' & -> & _ & Hs').
    { intros x H1 H2. by apply (Hfree x). }
    eexists _, s', (T, _). split; [done|]. split; [done|]. by exists L, n, F'.
  - destruct Hmay as [Hp%(page_ok_at L) Hfree]; [|done]. destruct (mark_allocated_ok s L T P n F p Hs Hp Hfree) as (s' & -> & _ & Hs').
    eexists _, s', (T, _). split; [done|]. split; [done|]. by exists L, n, F.
  - destruct (try_shrink_ok s L T P n F force Hs) as (b & s' & L' & T' & n' & F' & -> & HT' & Hfree & Hs' & Hb & Hf).
    { pose proof (state_regions _ _ _ _ _ _ Hs). destruct (state_tracker _ _ _ _ _ _ Hs) as (_ & ? & _). lia. }
    eexists _, s', (T', _). split; [done|]. split; [|by exists L', n', F']. split; [done|]. split; [intros x Hx; by apply Hfree, elem_of_between|].
    split; [|done]. intros x. rewrite elem_of_resized; [|apply (state_pages _ _ _ _ _ _ Hs)|lia]. split; [|tauto]. intros [[?|?] ?]; [done|lia].
  - unfold count_allocated_pages. rewrite (file_count_ok _ 1 (-1) s L T P n F Hs); [|intros b m Q Hb; destruct (region_count b m Q Hb) as [_ ->]; f_equal; lia].
    eexists _, s, (T, P). split; [done|]. split; [split_and!; [done|done|lia]|by exists L, n, F].
  - unfold count_free_pages. rewrite (file_count_ok _ 0 1 s L T P n F Hs); [|intros b m Q Hb; destruct (region_count b m Q Hb) as [-> _]; f_equal; lia].
    eexists _, s, (T, P). split; [done|]. split; [split_and!; [done|done|lia]|by exists L, n, F].
Qed.
(** C25: the memory manager keeps one set of free pages over all its regions.  A
    file that is opened has all its pages free.  From then on no operation within
    its limits panics: an allocation answers a page of the smallest order that holds
    it, none of whose pages was in use, in the file as it is or as it has grown,
    and says its bytes there; it fails only when the storage refuses to grow, and
    then no page has changed.  Freeing and recording a page change its own
    pages alone, the counts are those of the set, and a shrinking file drops only
    free pages from its end and is never emptied. *)
Theorem page_memory_refines :
  (∀ hd L, header_layout hd = Some L → layout_ok L → full_region_layout L = mkRegion cap h ps → num_regions L ≤ MAX_REGIONS →
    ∃ s T, state_new hd = Some s ∧ usable_bytes L = T * ps ∧ manages s (T, pages_between 0 T))
  ∧ ∀ s f op, manages s f → may f op → ∃ out s' f', memory_step s op = Some (out, s') ∧ promises f op out f' ∧ manages s' f'.
Proof.
  split; [exact memory_new_ok|]. intros s f op Hs Hmay. destruct op; [by apply allocate_promised|by apply change_promised..].
Qed.

(** ** The memory of the builders *)
Lemma allocate_helper_ok s f size lowest ok : manages s f → may f (Allocate size lowest ok) →
  ∃ r s' f', allocate_helper s size ps lowest ok = Some (r, s') ∧ manages s' f' ∧ match r with
    | Ok (p, mem) => Z.of_nat (length mem) = 2 ^ page_order p * ps ∧ promises f (Allocate size lowest ok) (Allocated p (page_start p, page_start p + 2 ^ page_order p * ps)) f'
    | Err _ => ok = false ∧ f' = f end.
Proof.
  intros Hs Hmay. destruct (allocate_promised s f size lowest ok Hs Hmay) as (out & s' & f' & E & Hout & Hs'). cbn [memory_step] in E. unfold allocate_helper.
  destruct (allocate_page s size ps lowest ok) as [[r s1]|]; [|done]. cbn [mbind option_bind] in *. destruct r as [[p [a b]]|e]; injection E as <- <-.
  - pose proof Hout as Hp. destruct f as [T P], f' as [T' P']. cbn [promises] in Hp. destruct Hp as (_ & _ & _ & _ & Hr & Hlen & _). injection Hr as -> ->.
    rewrite (proj2 (Z.leb_le _ _)) by lia. cbn [check mbind option_bind]. eexists _, s1, (T', P'). split; [done|]. split; [done|]. rewrite length_replicate.
    split; [|exact Hout]. assert (0 ≤ size) by (destruct Hmay; lia). lia.
  - exists (Err e), s1, f'. split; [done|]. split; [done|]. destruct f, f'. by destruct Hout as (-> & -> & ->).
Qed.
(** [TransactionalMemory::allocate] as the builders of leaves use it.  A panic is
    given as an error; [allocate_helper_ok] says that none happens within the limits. *)
#[export] Instance page_memory (resized : bool) : PageMemory InMemoryState.
Proof.
  refine {| allocate s size := match allocate_helper s size ps false resized with Some r => r | None => (Err (), s) end |}.
  intros s size p mem s'. unfold allocate_helper. destruct (allocate_page _ _ _ _ _) as [[[[q [a b]]|e] s1]|]; [|done|done]. cbn [mbind option_bind].
  destruct (size <=? b - a) eqn:El; [|done]. cbn [check mbind option_bind]. intros [= <- <- <-]. apply Z.leb_le in El. rewrite length_replicate. lia.
Defined.
(** A leaf that fits a region is built in pages of its own, the fewest that hold it,
    if the storage does not refuse to grow. *)
Lemma regions_build_leaf kf vf b l s f : Leaf.builder_is kf vf b l → Leaf.leaf_fits kf vf l → manages s f →
  may f (Allocate (Leaf.leaf_size kf vf l) false true) →
  ∃ p page s' f', Leaf.build (H := page_memory true) b s = Some (Ok (p, page), s') ∧ manages s' f'
    ∧ Leaf.leaf_is kf vf page l ∧ Z.of_nat (length page) = 2 ^ page_order p * ps
    ∧ promises f (Allocate (Leaf.leaf_size kf vf l) false true) (Allocated p (page_start p, page_start p + 2 ^ page_order p * ps)) f'.
Proof.
  intros Hb Hl Hs Hmay. destruct (Leaf.build_ok kf vf (H := page_memory true) b l s Hb Hl) as (out & s1 & E & Hout).
  destruct (allocate_helper_ok s f _ false true Hs Hmay) as (r & s' & f' & Ea & Hs' & Hr). cbn [allocate page_memory] in Hout. rewrite Ea in Hout.
  destruct out as [[p page]|e], r as [[q mem]|e']; try (by destruct Hout as (?&?&?)); try (by destruct Hr).
  destruct Hout as (Hp & mem' & Em & El). injection Em as -> -> ->. destruct Hr as [Hlen Hr]. rewrite <-El in Hlen. by exists p, page, s1, f'.
Qed.

(** ** A commit *)
Lemma set_layout_slots hd L hd' : set_layout hd L = Some hd' → transaction_slots hd' = transaction_slots hd ∧ primary_index hd' = primary_index hd.
Proof.
  unfold set_layout. destruct (header_layout hd) as [own|]; [|done]. cbn [mbind option_bind]. destruct (check _); [|done]. cbn [mbind option_bind].
  destruct (match trailing_region_layout L with Some _ => _ | None => _ end); [|done]. cbn [mbind option_bind]. by intros [= <-].
Qed.
Lemma try_shrink_slots s force b s' : try_shrink s force = Some (b, s') →
  transaction_slots (header s') = transaction_slots (header s) ∧ primary_index (header s') = primary_index (header s).
Proof.
  unfold try_shrink. destruct (header_layout (header s)) as [L|]; [|done]. cbn [mbind option_bind]. destruct (check _); [|done]. cbn [mbind option_bind].
  destruct (get_region s _) as [r|]; [|done]. cbn [mbind option_bind]. destruct (Buddy.trailing_free_pages r) as [z|]; [|done]. cbn [mbind option_bind].
  destruct (z =? 0); [by intros [= <- <-]|]. destruct (_ && _); [by intros [= <- <-]|]. destruct (reduce_last_region L _) as [L'|]; [|done]. cbn [mbind option_bind].
  destruct (resize_to _ L') as [a|]; [|done]. cbn [mbind option_bind]. destruct (database_len L') as [n'|]; [|done]. cbn [mbind option_bind].
  destruct (database_len L) as [n|]; [|done]. cbn [mbind option_bind]. destruct (check _); [|done]. cbn [mbind option_bind].
  destruct (set_layout (header s) L') as [h'|] eqn:E; [|done]. cbn [mbind option_bind]. intros [= <- <-]. by apply (set_layout_slots _ L').
Qed.
Definition slots_writable (hd : DatabaseHeader) : Prop :=
  (primary_index hd = 0 ∨ primary_index hd = 1)
  ∧ ∃ a b, transaction_slots hd = [a; b] ∧ version a = FILE_FORMAT_VERSION3 ∧ version b = FILE_FORMAT_VERSION3.
Context {CS : Checksum}.
Lemma write_header_ok hd : slots_writable hd → ∃ d, write_header hd = Some [WriteHeader d].
Proof.
  intros (_ & a & b & Es & Ha & Hb). unfold write_header, header_to_bytes. rewrite Es. cbn [lookup list_lookup mbind option_bind].
  destruct (slot_to_bytes_Some a Ha) as [? ->]. cbn [mbind option_bind]. destruct (slot_to_bytes_Some b Hb) as [? ->]. by eexists.
Qed.
Lemma commit_header_ok hd len shrunk data_root system_root id two_phase : slots_writable hd → header_layout hd ≫= database_len = Some len →
  ∃ hd' d1 d2, commit_header hd shrunk data_root system_root id two_phase = Some (hd',
      [WriteHeader d1] ++ (if two_phase then [Flush] else []) ++ [WriteHeader d2] ++ [Flush] ++ (if shrunk then [Resize len] else []))
    ∧ primary_slot hd' = Some (mkSlot FILE_FORMAT_VERSION3 data_root system_root id) ∧ secondary_slot hd' = primary_slot hd
    ∧ header_layout hd' = header_layout hd ∧ slots_writable hd'.
Proof.
  intros (Hp & a & b & Es & Ha & Hb) Elen. unfold commit_header.
  assert (∃ old, secondary_slot hd = Some old ∧ version old = FILE_FORMAT_VERSION3) as (old & -> & Ev).
  { unfold secondary_slot. rewrite Es. destruct Hp as [-> | ->]; by eexists. }
  cbn [mbind option_bind]. rewrite Ev. set (new := mkSlot _ _ _ _). set (h1 := set_secondary_slot hd new).
  assert (slots_writable h1) as H1.
  { split; [exact Hp|]. unfold h1, set_secondary_slot. cbn. rewrite Es. by destruct Hp as [-> | ->]; eexists _, _. }
  destruct (write_header_ok h1 H1) as [d1 ->]. cbn [mbind option_bind]. set (h2 := swap_primary_slot h1 <| two_phase_commit := two_phase |>).
  assert (slots_writable h2) as H2.
  { split; [|exact (proj2 H1)]. change (primary_index h2) with (Z.lxor (primary_index hd) 1). by destruct Hp as [-> | ->]; [right|left]. }
  destruct (write_header_ok h2 H2) as [d2 ->]. cbn [mbind option_bind]. change (header_layout h2) with (header_layout hd). rewrite Elen.
  exists h2, d1, d2. split; [by destruct shrunk|]. split; [|split; [|done]].
  - unfold primary_slot. assert (transaction_slots h2 = <[Z.to_nat (Z.lxor (primary_index hd) 1) := new]> (transaction_slots hd)) as -> by done.
    assert (primary_index h2 = Z.lxor (primary_index hd) 1) as -> by done. rewrite Es. by destruct Hp as [-> | ->].
  - unfold primary_slot, secondary_slot. assert (transaction_slots h2 = <[Z.to_nat (Z.lxor (primary_index hd) 1) := new]> (transaction_slots hd)) as -> by done.
    assert (primary_index h2 = Z.lxor (primary_index hd) 1) as -> by done. rewrite Es. by destruct Hp as [-> | ->].
Qed.
(** A commit does not panic; it drops only free pages from the end of the file, and
    makes the new slot the primary one; the file is cut to the layout of the header
    it wrote, and only after that header was flushed. *)
Theorem commit_inner_spec s T P data_root system_root id two_phase policy : manages s (T, P) → slots_writable (header s) →
  ∃ s' T' len d1 d2 shrunk, commit_inner s data_root system_root id two_phase policy = Some (s',
      [WriteHeader d1] ++ (if two_phase then [Flush] else []) ++ [WriteHeader d2] ++ [Flush] ++ (if shrunk : bool then [Resize len] else []))
    ∧ header_layout (header s') ≫= database_len = Some len
    ∧ primary_slot (header s') = Some (mkSlot FILE_FORMAT_VERSION3 data_root system_root id) ∧ secondary_slot (header s') = primary_slot (header s)
    ∧ 0 < T' ≤ T ∧ (∀ x, T' ≤ x < T → x ∈ P) ∧ manages s' (T', resized P T T') ∧ slots_writable (header s')
    ∧ (policy = Never ∨ shrunk = false → T' = T) ∧ (policy = Maximum → T - 1 ∈ P → 1 < T → T' < T).
Proof.
  intros Hm Hw. unfold commit_inner. assert (∃ b s1 T', (match policy with Never => Some (false, s) | Default => try_shrink s false | Maximum => try_shrink s true end) = Some (b, s1)
    ∧ 0 < T' ≤ T ∧ (∀ x, T' ≤ x < T → x ∈ P) ∧ manages s1 (T', resized P T T') ∧ slots_writable (header s1) ∧ primary_slot (header s1) = primary_slot (header s)
    ∧ (policy = Never ∨ b = false → T' = T) ∧ (policy = Maximum → T - 1 ∈ P → 1 < T → T' < T)) as (b & s1 & T' & -> & HT & Hfree & Hm1 & Hw1 & Hp1 & Hno & Hmax).
  { destruct Hm as (L & n & F & Hs). cbn [fst snd] in Hs. pose proof (layout_pos L T (state_total _ _ _ _ _ _ Hs)) as HTpos.
    assert (∀ force, ∃ b s1 T', try_shrink s force = Some (b, s1)
      ∧ 0 < T' ≤ T ∧ (∀ x, T' ≤ x < T → x ∈ P) ∧ manages s1 (T', resized P T T') ∧ slots_writable (header s1) ∧ primary_slot (header s1) = primary_slot (header s)
      ∧ (b = false → T' = T) ∧ (force = true → T - 1 ∈ P → 1 < T → T' < T)) as Htry.
    { intros force. destruct (try_shrink_ok s L T P n F force Hs) as (b & s' & L' & T' & n' & F' & E & HT & Hfree & Hs' & Hb & Hf).
      { pose proof (state_regions _ _ _ _ _ _ Hs). destruct (state_tracker _ _ _ _ _ _ Hs) as (_ & ? & _). lia. }
      destruct (try_shrink_slots _ _ _ _ E) as [Es Ep]. exists b, s', T'. split; [done|]. split; [done|]. split; [intros x Hx; by apply Hfree, elem_of_between|].
      split; [by exists L', n', F'|]. split; [unfold slots_writable; by rewrite Es, Ep|]. split; [unfold primary_slot; by rewrite Es, Ep|done]. }
    destruct policy.
    - destruct (Htry false) as (b & s1 & T' & E & H). exists b, s1, T'. split; [done|]. destruct H as (? & ? & ? & ? & ? & ? & _). do 5 (split; [done|]). split; [intros [?|?]; [done|auto]|done].
    - destruct (Htry true) as (b & s1 & T' & E & H). exists b, s1, T'. split; [done|]. destruct H as (? & ? & ? & ? & ? & ? & ?). do 5 (split; [done|]). split; [intros [?|?]; [done|auto]|auto].
    - exists false, s, T. split; [done|]. split; [lia|]. split; [intros; lia|]. rewrite resized_same. split; [by exists L, n, F|]. done. }
  destruct Hm1 as (L & n & F & Hs). cbn [fst snd] in Hs. pose proof (state_total _ _ _ _ _ _ Hs) as [Hl [Ef _]].
  assert (∃ len, database_len L = Some len) as [len El] by (destruct (layout_shape L cap h ps Hl Ef) as (_ & El & _); by eexists).
  destruct (commit_header_ok (header s1) len b data_root system_root id two_phase Hw1) as (hd' & d1 & d2 & E & Ep & Es & EL & Hw').
  { by rewrite (state_layout _ _ _ _ _ _ Hs). }
  cbn [mbind option_bind]. rewrite E. cbn [mbind option_bind]. exists (s1 <| header := hd' |>), T', len, d1, d2, b.
  split; [done|]. cbn [header upd]. split; [|split; [exact Ep|split; [by rewrite <-Hp1|]]].
  - change (header (s1 <| header := hd' |>)) with hd'. by rewrite EL, (state_layout _ _ _ _ _ _ Hs).
  - split; [done|]. split; [done|]. split; [|by split_and!]. exists L, n, F. destruct Hs. split; try done. change (header_layout hd' = Some L). by rewrite EL.
Qed.
End pages.

(** A file of 5 pages in regions of 16: 20000 bytes take a block of 8 pages. *)
Definition small_header : DatabaseHeader := mkHeader 0 true false 4096 0 16 0 5 [transaction_new 0; transaction_new 0].
Lemma page_memory_refines_witness : ∃ s s' p range T' P', state_new small_header = Some s
  ∧ memory_step 4096 s (Allocate 20000 false true) = Some (Allocated p range, s') ∧ page_order p = 3
  ∧ (∀ x, x ∈ P' ↔ (x ∈ pages_between 0 5 ∨ 5 ≤ x < T') ∧ x ∉ span 16 p) ∧ manages 16 0 4096 s' (T', P').
Proof.
  destruct (page_memory_refines 16 0 4096 4) as [Hnew Hstep]; [unfold Buddy.MAX_MAX_PAGE_ORDER; lia|reflexivity|lia|lia|lia|].
  destruct (Hnew small_header (mkLayout (mkRegion 16 0 4096) 0 (Some (mkRegion 5 0 4096)))) as (s & T & Es & ET & Hs);
    [reflexivity|unfold layout_ok; cbn; lia|reflexivity|unfold MAX_REGIONS; cbn; lia|].
  assert (T = 5) as -> by (unfold usable_bytes, region_usable_bytes in ET; cbn in ET; lia).
  destruct (Hstep s (5, pages_between 0 5) (Allocate 20000 false true) Hs) as (out & s' & [T' P'] & E & Hout & Hs'); [cbn; unfold MAX_REGIONS; lia|].
  destruct out as [p range| | | |]; cbn in Hout; try done; [|destruct Hout as [? _]; done]. destruct Hout as (_ & Hp & _ & HP' & _ & Hlen & Hmin).
  exists s, s', p, range, T', P'. split; [exact Es|]. split; [exact E|]. split; [|split; [exact HP'|exact Hs']].
  specialize (Hmin 3 ltac:(lia) ltac:(lia)). destruct Hp as (_ & _ & Ho & _). assert (2 < page_order p); [|lia].
  apply (Z.pow_lt_mono_r_iff 2); lia.
Defined.

(** A free block the search does not see.  When both pages of a region are in use,
    a search for two marks the region full for that order; the pages freed one by one
    merge into a block of two, but each mark only its own order, and the next
    allocation of two asks the storage to grow. *)
Fixpoint memory_run (ps : Z) (s : InMemoryState) (ops : list memory_op) : option (list memory_answer) :=
  match ops with
  | [] => Some []
  | op :: ops => '(out, s) ← memory_step ps s op; cons out <$> memory_run ps s ops
  end.
Definition pair_header : DatabaseHeader := mkHeader 0 true false 4096 0 2 1 0 [transaction_new 0; transaction_new 0].
Lemma merged_block_hidden :
  (s ← state_new pair_header;
    memory_run 4096 s [Allocate 4096 false true; Allocate 4096 false true; Allocate 8192 false false;
      FreePage (mkPage 0 0 0); FreePage (mkPage 0 1 0); CountFree; Allocate 8192 false false])
  = Some [Allocated (mkPage 0 0 0) (4096, 8192); Allocated (mkPage 0 1 0) (8192, 12288); Failed; Finished; Finished; Pages 2; Failed].
Proof. vm_compute. reflexivity. Qed.

End Regions.
